(* ===== verification/_CoqProject ===== *)
-Q . S2P
Prelude.v
GoStrings.v
GoPath.v
Store.v
MemStore.v
Manager.v
TTL.v
RFC1123.v
Coordination.v
Fencing.v
ManagerSpec.v
K8sStore.v
AcquireConfig.v
State.v
ClientAuth.v
Broker.v
Enforce.v
Renewer.v
Exclusion.v
Operator.v
Reconciler.v
ReconcilerSpec.v
Json.v
ReconcilerTheorems.v
Admission.v
AdmissionTheorems.v
Auth.v
JsonText.v
Api.v
ApiTheorems.v
Client.v
Helper.v
TimeText.v
DurationText.v
Webhook.v
WebhookTheorems.v
Injection.v
SqlStore.v
StoreTest.v
Race.v
Failover.v
ApiServer.v
OperatorMain.v
Metrics.v
Float64.v
LoadStats.v
LoadRun.v
LoadSpec.v
K8sClient.v
