(* ===== verification/Prelude.v ===== *)
(** * Berth: a verification development

    Berth is a lease service that keeps a workload running at most once across
    clusters. A central API server grants leases with fencing tokens; a helper
    injected into pods, or an operator, runs the workload only while its lease
    is confirmed. This library models the program's Go sources (paths below are
    relative to [src/]) as executable definitions and proves the properties
    that make it correct.

    ** How the parts interact

    - [internal/lease]: the manager turns Acquire, Renew and Release into
      compare-and-swap writes on a store; the stores are in memory, Kubernetes
      Lease objects, or SQL rows. A sweep tombstones long-expired records.
    - [internal/api], [internal/auth], [internal/tenant]: HTTP in front of the
      manager, with authentication and the rule that a caller acts only for
      holders of its tenant. [cmd/apiserver] builds and starts it.
    - [pkg/client], [internal/clientauth]: the client of that API, its token
      source and TLS settings. [cmd/berth-oidc-broker] keeps the token file
      fresh.
    - [internal/webhook] injects the helper into opted-in pods;
      [cmd/berth-acquire] and [internal/acquire] are the helper: an init
      container that waits for the lease, a sidecar that renews it and gates
      the main container, and the liveness probe.
    - [internal/operator] runs bound workloads under a lease: a reconciler, a
      Pod controller and an admission webhook. [cmd/operator] builds and starts
      it, with the injection webhook.
    - Around them: [internal/metrics] counts requests and store calls,
      [internal/lease/storetest] tests every backend, [internal/load] drives the
      API with load and summarises the latencies.

    ** Files

    Shared:
    - [Prelude]: machine integers with wrap-around, errors and results, times,
      programs with effects ([prog]), their runs ([run], [exec_rel],
      [exec_rely]) and a weakest-precondition calculus on traces ([wp]).
    - [GoStrings], [GoPath], [TimeText], [DurationText], [JsonText]: what the
      sources use of Go's [strings], [strconv], [path], [time] and
      [encoding/json], with round-trip lemmas.

    Leases:
    - [Store]: keys, records and the Store contract as a class whose law is one
      atomic step per call ([internal/lease/store.go], [validate.go]).
      [MemStore], [K8sStore], [SqlStore]: the three backends ([memstore.go],
      [k8sstore.go], [sqlstore/]). [RFC1123]: a concrete name validator.
    - [Manager] ([manager.go]), [TTL] ([ttl.go]): programs over the store.
      [ManagerSpec]: what each call does without interference. [Coordination]:
      any number of requests interleaved call by call; [Fencing]: the lease
      protocol that such histories refine.
    - [StoreTest]: the conformance suite and the benchmarks' workers
      ([storetest/]) as programs over the store; [Race]: its concurrent parts.

    Helper:
    - [AcquireConfig] ([internal/acquire/config.go], [env.go]), [State]
      ([state.go]), [Enforce] ([enforce.go]), [Renewer] ([renew.go],
      [acquire.go]), [Helper] ([cmd/berth-acquire/main.go]).
    - [Exclusion]: the renew loop against a clock, what the sidecar knows of its
      lease at every moment; [Failover]: sidecars and API servers together, each
      RPC of a sidecar a request of [Coordination].

    Webhook:
    - [Webhook], [WebhookTheorems] ([internal/webhook]); [Injection]: the
      contract between the webhook and the helper.

    Operator:
    - [Operator] ([api/v1alpha1/types.go], [workload.go], [actions.go]),
      [Reconciler], [ReconcilerSpec], [ReconcilerTheorems] ([reconciler.go],
      [pod_controller.go]), [Admission], [AdmissionTheorems] ([admission.go]);
      [Json]: the JSON trees these work on; [OperatorMain]
      ([cmd/operator/main.go]).

    Server and clients:
    - [Auth] ([internal/auth], [internal/tenant]), [Api], [ApiTheorems]
      ([internal/api]), [ApiServer] ([cmd/apiserver], [internal/api/server.go]),
      [ClientAuth] ([internal/clientauth]), [Client] ([pkg/client]), [Broker]
      ([cmd/berth-oidc-broker]), [K8sClient] ([internal/k8s/client.go]),
      [Metrics] ([internal/metrics], [internal/api/metrics.go]).

    Load driver:
    - [Float64]: binary64 arithmetic and its rounding; [LoadStats]
      ([internal/load/config.go], [summary.go]); [LoadRun] ([run.go]): the
      scenarios as goroutines of a machine; [LoadSpec]: the accounting that every
      run of the machine keeps.

    ** How code becomes definitions

    Pure functions are functions with the source's names (prefixed where two
    packages share one). A function with effects is a [prog]: a tree of
    operations with continuations. Each component has its own signature of
    operations (store calls, API requests, SQL statements, file-system calls,
    lease RPCs, clock readings), and a semantics says which answers are
    possible: every call may fail, another party may act between any two calls,
    clocks answer what they like. [lift] embeds the programs of one component
    in the signature of the component that calls it. Errors are values of
    [error] and [result] with [errors.Is] on wrapped chains; texts of errors
    are shortened. Integers have their Go width where it matters ([wrap32],
    [wrap64]); times are nanoseconds.

    Code outside the repository is a parameter with its documented behaviour as
    hypothesis, and a concrete instance shows that the hypotheses can hold:
    RFC 1123 validation ([DNSValidation]), the Kubernetes API server's
    optimistic concurrency, SQL databases ([Sql]), SHA-256, OIDC verification,
    certificates ([X509]), cobra's parsing ([Cobra]), variable expansion of the
    kubelet ([VarExpansion]).

    ** What the theorems show

    - Leases (C1-C4, C7-C13, C29, C35): every history of interleaved requests
      refines a five-transition protocol; tokens grow with every change of
      tenure, two holders are never told the same token, and a live lease
      changes hands only by release or expiry; of any number of contenders for a
      free lease exactly one wins; each manager call and sweep is characterised
      on every branch; the Kubernetes and SQL backends are linearizable under any
      interference, and their encodings are faithful; a store that meets the
      contract passes the conformance suite.
    - The whole system (C5, C6): while a sidecar lets its container run, no other
      holder has had the lease for longer than a bound made of clock skew, drift,
      rounding and reaction times; and from every reachable state an expired
      lease can be taken over at once.
    - Helper (C14-C18): files are replaced atomically; losing the lease removes
      the health marker even when signalling fails; the gate is open only on a
      confirmed lease and closed at its deadline; the init container returns the
      first grant. Lemmas: validated configurations are safe and give distinct
      holders, the handoff is read back.
    - Operator (C19-C23, C36): workloads start only under recorded ownership,
      leases are released only after the workload drained, Pods are ungated only
      when registered, admission keeps bindings and writes only birth records;
      the process starts only with all of that in place.
    - API (C24-C28, C34): only entries of the last good keys file authenticate;
      tenants are isolated; the manager is called only for authorized requests;
      failures do not leak; a client's call through HTTP is the manager's call on
      the store; the server listens only as its flags allow.
    - Credentials (C30): token rotation is atomic for its readers and its waits
      are bounded.
    - Injection (C31-C33): the validating webhook accepts exactly the pods in
      which the lease is enforced; what the mutating webhook lets through is such
      a pod; the helper reads back the configuration that was resolved.
    - Observation (C37): the metered store is transparent and records every call.
    - Load driver (C38-C40): a run is never stuck; when it returns every goroutine
      has ended, every call is accounted for and the one-shot scenarios made
      exactly their calls; the summary's statistics are those of the samples.

    ** Bounds and fuel

    The retry loops of the sources are bounded, and the models have their
    bounds: 8 attempts of an acquisition, 4 of a Kubernetes update, 5 steps up
    an owner chain. The unbounded loops ([Run], [Hold], [runLoop], the sweep's
    ticker) take a number of iterations; theorems about them hold for every
    number, so for every finite prefix of a run, and [Hold_first_grant] gives
    the number that is enough. Parsers run on fuel that is proved enough
    ([JsonText.parse_fuel_enough]) or is the length of the text ([ParseDuration],
    each item of which consumes a byte). Text times cover the years 1 to 9999;
    [TrimSpace] and [ToLower] are exact on ASCII text. [Failover]'s bound is in
    terms of four numbers it does not fix: [skew] (how far server clocks are
    apart), [drift] (what a sidecar's clock loses), [loss] (999 ns for the
    backends that store microseconds) and [react] (how long a local call, a timer
    or an RPC past its deadline takes). The load driver's goroutines run as long
    as they have to: a loop asks to be run again, so no fuel is involved. Its
    percentiles are exact up to [2 ^ 26] samples, where the rounding error of the
    rank is still far below what separates two ranks.

    ** Not modelled

    Logging, TLS and HTTP transport, the JSON text of responses (their trees
    are), Prometheus's exposition format, the console's static files, the
    placeholder CLI, the command around the load driver ([test/load]) and
    generated code: wiring and output that do not decide an answer.

    ** Plan

    Next: the race between stopping a workload and an activation in flight;
    binding stamps followed by validation; how late after the initial acquire the
    load driver's reclaim comes; the request log of [internal/api/obs.go]. *)

From stdpp Require Export base gmap strings list.
From Stdlib Require Export Ascii Lia ZifyBool.

Declare Scope go_scope.
Delimit Scope go_scope with go.

(** Go's [==] and [!=] on comparable types. *)
Notation "x == y" := (bool_decide (x = y)) (at level 70, no associativity) : go_scope.
Notation "x != y" := (negb (bool_decide (x = y))) (at level 70, no associativity) : go_scope.

Open Scope Z_scope.
Open Scope go_scope.

(** ** Machine integers *)

(** [wrap w x] is the two's complement value of [x] at width [w]. *)
Definition wrap (w x : Z) : Z := (x + 2 ^ (w - 1)) mod 2 ^ w - 2 ^ (w - 1).
Definition wrap32 (x : Z) : Z := wrap 32 x.
Definition wrap64 (x : Z) : Z := wrap 64 x.

Definition MaxInt32 : Z := 2147483647.
Definition MinInt32 : Z := -2147483648.
Definition MaxInt64 : Z := 9223372036854775807.
Definition MinInt64 : Z := -9223372036854775808.

Definition int32 (x : Z) : Prop := MinInt32 ≤ x ≤ MaxInt32.
Definition int64 (x : Z) : Prop := MinInt64 ≤ x ≤ MaxInt64.

Lemma wrap32_id x : int32 x → wrap32 x = x.
Proof.
  unfold int32, wrap32, wrap, MinInt32, MaxInt32; cbn. intros.
  rewrite Z.mod_small; lia.
Qed.

Lemma wrap64_id x : int64 x → wrap64 x = x.
Proof.
  unfold int64, wrap64, wrap, MinInt64, MaxInt64; cbn. intros.
  rewrite Z.mod_small; lia.
Qed.

Lemma wrap64_range x : int64 (wrap64 x).
Proof.
  unfold int64, wrap64, wrap, MinInt64, MaxInt64.
  change (2 ^ (64 - 1)) with 9223372036854775808. change (2 ^ 64) with 18446744073709551616.
  pose proof (Z.mod_pos_bound (x + 9223372036854775808) 18446744073709551616 eq_refl). lia.
Qed.

Lemma wrap32_range x : int32 (wrap32 x).
Proof.
  unfold int32, wrap32, wrap, MinInt32, MaxInt32.
  change (2 ^ (32 - 1)) with 2147483648. change (2 ^ 32) with 4294967296.
  pose proof (Z.mod_pos_bound (x + 2147483648) 4294967296 eq_refl). lia.
Qed.

(** ** Errors and results *)

(** A Go [error]: the sentinels the code compares against (a done context,
    [os.ErrNotExist] and [syscall.ESRCH] among them), a plain message
    ([errors.New]) and a wrapped error ([fmt.Errorf] with the [%w] verb). *)
Inductive error : Type :=
| ErrNotFound
| ErrConflict
| ErrCtx
| ErrNotExist
| ErrSRCH
| ErrMsg (msg : string)
| ErrWrap (msg : string) (inner : error).

#[export] Instance error_eq_dec : EqDecision error.
Proof. solve_decision. Defined.

(** [errors.Is]: walk the chain of wrapped errors. *)
Fixpoint errors_Is (e target : error) : bool :=
  (e == target) ||
  match e with ErrWrap _ e' => errors_Is e' target | _ => false end.

(** A Go pair [(T, error)]: callers look at the value only when the error is nil. *)
Inductive result (A : Type) : Type :=
| Ok (a : A)
| Err (e : error).
Arguments Ok {A} a.
Arguments Err {A} e.

#[export] Instance result_eq_dec `{EqDecision A} : EqDecision (result A).
Proof. solve_decision. Defined.

#[export] Instance result_ret : MRet result := λ A a, Ok a.
#[export] Instance result_bind : MBind result :=
  λ A B f r, match r with Ok a => f a | Err e => Err e end.

Lemma result_bind_ok {A B} (r : result A) (f : A → result B) b :
  (r ≫= f) = Ok b → ∃ a, r = Ok a ∧ f a = Ok b.
Proof. destruct r as [a|e]; [by exists a|done]. Qed.

Definition is_ok {A} (r : result A) : bool := match r with Ok _ => true | Err _ => false end.

(** [fmt.Errorf("msg: %w", err)] on the error side of a result. *)
Definition wrap_err {A} (msg : string) (r : result A) : result A :=
  match r with Ok a => Ok a | Err e => Err (ErrWrap msg e) end.

(** What [apierrors] distinguishes in an answer of the API server. *)
Inductive kerr := KNotFound | KAlreadyExists | KConflict | KOther (msg : string).

Definition of_kerr (e : kerr) : error :=
  ErrMsg match e with
         | KNotFound => "not found" | KAlreadyExists => "already exists"
         | KConflict => "conflict" | KOther msg => msg
         end.

(** ** Time *)

(** A [time.Time] is the number of nanoseconds since Go's zero time, a
    [time.Duration] an int64 number of nanoseconds. *)
Definition Nanosecond : Z := 1.
Definition Microsecond : Z := 1000.
Definition Millisecond : Z := 1000000.
Definition Second : Z := 1000000000.
Definition Minute : Z := 60 * Second.

Definition IsZero (t : Z) : bool := t =? 0.
Definition After (t u : Z) : bool := u <? t.
Definition Before (t u : Z) : bool := t <? u.

(** [Time.Sub] saturates at the ends of [Duration]. *)
Definition Sub (t u : Z) : Z := Z.max MinInt64 (Z.min MaxInt64 (t - u)).

(** [Time.Truncate]: round down to a multiple of [d] since the zero time. *)
Definition Truncate (t d : Z) : Z := if d <=? 0 then t else t - t mod d.

Lemma Truncate_bounds t d : 0 < d → Truncate t d ≤ t < Truncate t d + d.
Proof.
  intros Hd. unfold Truncate. destruct (Z.leb_spec d 0); [lia|].
  pose proof (Z.mod_pos_bound t d Hd). lia.
Qed.

(** ** Programs with effects *)

(** A program issues operations of the signature [E] and continues with their
    answers. Loops of the sources are bounded, so programs are finite trees;
    what interleaves with a program is decided by the semantics, between any
    two of its operations. *)
Inductive prog (E : Type → Type) (A : Type) : Type :=
| Ret (a : A)
| Op {X : Type} (e : E X) (k : X → prog E A).
Arguments Ret {E A} a.
Arguments Op {E A X} e k.

Fixpoint prog_bind {E A B} (f : A → prog E B) (p : prog E A) : prog E B :=
  match p with
  | Ret a => f a
  | Op e k => Op e (λ x, prog_bind f (k x))
  end.

#[export] Instance prog_mret E : MRet (prog E) := λ A a, Ret a.
#[export] Instance prog_mbind E : MBind (prog E) := @prog_bind E.

Definition trigger {E X} (e : E X) : prog E X := Op e Ret.

(** Run a program to its end against a state, one operation at a time. *)
Fixpoint run {E S A} (h : ∀ X, E X → S → X * S) (p : prog E A) (s : S) : A * S :=
  match p with
  | Ret a => (a, s)
  | Op e k => let '(x, s') := h _ e s in run h (k x) s'
  end.

Lemma run_bind {E S A B} (h : ∀ X, E X → S → X * S) (p : prog E A) (f : A → prog E B) s :
  run h (p ≫= f) s = let '(a, s') := run h p s in run h (f a) s'.
Proof.
  revert s. induction p as [a|X e k IH]; intros s; [done|].
  cbn. destruct (h X e s) as [x s']. apply IH.
Qed.

Lemma prog_bind_ret {E A B} (a : A) (f : A → prog E B) : (mret a ≫= f) = f a.
Proof. done. Qed.

Lemma prog_bind_assoc {E X A B} (e : E X) (f : X → prog E A) (g : A → prog E B) :
  ((trigger e ≫= f) ≫= g) = trigger e ≫= λ x, f x ≫= g.
Proof. done. Qed.

(** Read a program's operations in a larger signature. *)
Fixpoint lift {E F : Type → Type} (f : ∀ X, E X → F X) {A} (p : prog E A) : prog F A :=
  match p with
  | Ret a => Ret a
  | Op e k => Op (f _ e) (λ x, lift f (k x))
  end.

(** A run of a program against a relation that says which answers and next
    states an operation may give: the states it passes through, the result
    and the state it ends in. *)
Fixpoint exec_rel {E : Type → Type} {S A} (step : ∀ X, S → E X → X → S → Prop) (p : prog E A)
    (s : S) (tr : list S) (a : A) (s' : S) : Prop :=
  match p with
  | Ret a' => a = a' ∧ tr = [] ∧ s' = s
  | Op e k => ∃ x s1 tr', step _ s e x s1 ∧ tr = s1 :: tr' ∧ exec_rel step (k x) s1 tr' a s'
  end.

Lemma exec_rel_bind {E : Type → Type} {S A B} (step : ∀ X, S → E X → X → S → Prop)
    (p : prog E A) (f : A → prog E B) s tr b s' :
  exec_rel step (p ≫= f) s tr b s' →
  ∃ tr1 a s1 tr2, tr = tr1 ++ tr2 ∧ exec_rel step p s tr1 a s1 ∧ exec_rel step (f a) s1 tr2 b s'.
Proof.
  revert s tr. induction p as [a|X e k IH]; intros s tr; cbn.
  - intros Hf. by exists [], a, s, tr.
  - intros (x & s1 & tr' & Hstep & -> & Hk). apply IH in Hk as (tr1 & a & s2 & tr2 & -> & H1 & H2).
    exists (s1 :: tr1), a, s2, tr2. split_and!; [done| |done]. by exists x, s1, tr1.
Qed.

(** A run whose environment acts, as [rely] allows, before each operation: the
    states before and after each operation, the result and the last state. *)
Fixpoint exec_rely {E : Type → Type} {S A} (rely : S → S → Prop) (step : ∀ X, S → E X → X → S → Prop)
    (p : prog E A) (s : S) (tr : list (S * S)) (a : A) (s' : S) : Prop :=
  match p with
  | Ret a' => a = a' ∧ tr = [] ∧ s' = s
  | Op e k => ∃ s1 x s2 tr', rely s s1 ∧ step _ s1 e x s2 ∧ tr = (s1, s2) :: tr' ∧
      exec_rely rely step (k x) s2 tr' a s'
  end.

Lemma exec_rely_op {E : Type → Type} {S A X} (rely : S → S → Prop) (step : ∀ X, S → E X → X → S → Prop)
    (e : E X) (k : X → prog E A) s tr a s' :
  exec_rely rely step (trigger e ≫= k) s tr a s' →
  ∃ s1 x s2 tr', rely s s1 ∧ step _ s1 e x s2 ∧ tr = (s1, s2) :: tr' ∧
    exec_rely rely step (k x) s2 tr' a s'.
Proof. done. Qed.

(** A handler that always answers as the relation allows runs programs as it
    allows. *)
Lemma run_exec_rel {E : Type → Type} {S A} (step : ∀ X, S → E X → X → S → Prop)
    (h : ∀ X, E X → S → X * S) (p : prog E A) s :
  (∀ X (e : E X) s, step X s e (h X e s).1 (h X e s).2) →
  ∃ tr, exec_rel step p s tr (run h p s).1 (run h p s).2.
Proof.
  intros Hh. revert s. induction p as [a|X e k IH]; intros s; [by exists []|].
  specialize (Hh X e s). cbn. destruct (h X e s) as [x s1].
  destruct (IH x s1) as [tr Htr]. exists (s1 :: tr), x, s1, tr. auto.
Qed.

(** ** Traces and weakest preconditions *)

Section traces.
Context {E : Type → Type} {V : Type} (ev : ∀ X, E X → X → V).

(** The events of a complete run and its result; any answer is possible. *)
Fixpoint traces {A} (p : prog E A) (tr : list V) (a : A) : Prop :=
  match p with
  | Ret a' => tr = [] ∧ a = a'
  | Op e k => ∃ x tr', tr = ev _ e x :: tr' ∧ traces (k x) tr' a
  end.

(** The run a handler gives. *)
Fixpoint run_trace {S A} (h : ∀ X, E X → S → X * S) (p : prog E A) (s : S) : list V * A :=
  match p with
  | Ret a => ([], a)
  | Op e k => let '(x, s') := h _ e s in
              let '(tr, a) := run_trace h (k x) s' in (ev _ e x :: tr, a)
  end.

Lemma run_trace_traces {S A} (h : ∀ X, E X → S → X * S) (p : prog E A) s :
  traces p (run_trace h p s).1 (run_trace h p s).2.
Proof.
  revert s. induction p as [a|X e k IH]; intros s; cbn; [done|].
  destruct (h X e s) as [x s']. specialize (IH x s'). destruct (run_trace h (k x) s') as [tr a].
  by exists x, tr.
Qed.

(** [ok pre v]: the event [v] is allowed after the events [pre]. *)
Context (ok : list V → V → Prop).

(** Every event of every run is allowed, and the result satisfies [Q]. *)
Fixpoint wp {A} (pre : list V) (p : prog E A) (Q : A → list V → Prop) : Prop :=
  match p with
  | Ret a => Q a pre
  | Op e k => ∀ x, ok pre (ev _ e x) ∧ wp (pre ++ [ev _ e x]) (k x) Q
  end.

Lemma wp_mono {A} pre (p : prog E A) (Q Q' : A → list V → Prop) :
  (∀ a tr, Q a (pre ++ tr) → Q' a (pre ++ tr)) → wp pre p Q → wp pre p Q'.
Proof.
  revert pre. induction p as [a|X e k IH]; intros pre HQ; cbn.
  - specialize (HQ a []). by rewrite app_nil_r in HQ.
  - intros Hp x. destruct (Hp x) as [Hok Hk]. split; [done|]. eapply IH; [|done].
    intros b tr. rewrite <- app_assoc. apply HQ.
Qed.

Lemma wp_bind {A B} pre (p : prog E A) (f : A → prog E B) (Q : B → list V → Prop) :
  wp pre p (λ a pre', wp pre' (f a) Q) → wp pre (p ≫= f) Q.
Proof.
  revert pre. induction p as [a|X e k IH]; intros pre; cbn; [done|].
  intros Hp x. destruct (Hp x) as [Hok Hk]. split; [done|]. by apply IH.
Qed.

Lemma wp_op {A X} pre (e : E X) (k : X → prog E A) (Q : A → list V → Prop) :
  (∀ x, ok pre (ev _ e x) ∧ wp (pre ++ [ev _ e x]) (k x) Q) → wp pre (trigger e ≫= k) Q.
Proof. done. Qed.

Lemma wp_sound {A} pre (p : prog E A) (Q : A → list V → Prop) tr a :
  wp pre p Q → traces p tr a →
  (∀ t1 v t2, tr = t1 ++ v :: t2 → ok (pre ++ t1) v) ∧ Q a (pre ++ tr).
Proof.
  revert pre tr. induction p as [b|X e k IH]; intros pre tr; cbn.
  - intros HQ [-> ->]. rewrite app_nil_r. split; [|done]. by intros [].
  - intros Hp (x & tr' & -> & Htr). destruct (Hp x) as [Hok Hk].
    destruct (IH _ _ _ Hk Htr) as [Hall HQ]. rewrite <- app_assoc in HQ. split; [|done].
    intros [|w t1] v t2 E'; simplify_eq/=; [by rewrite app_nil_r|].
    specialize (Hall _ _ _ eq_refl). by rewrite <- app_assoc in Hall.
Qed.
End traces.

(** ** Reachability *)

(** Zero or more steps of a labelled transition system, with its trace. *)
Inductive steps {S L : Type} (step : S → L → S → Prop) : S → list L → S → Prop :=
| steps_nil s : steps step s [] s
| steps_snoc s tr s' l s'' : steps step s tr s' → step s' l s'' → steps step s (tr ++ [l]) s''.

Lemma steps_app {S L} (step : S → L → S → Prop) s1 t1 s2 t2 s3 :
  steps step s1 t1 s2 → steps step s2 t2 s3 → steps step s1 (t1 ++ t2) s3.
Proof.
  intros H1 H2. revert t1 H1. induction H2 as [s|s tr s' l s'' _ IH Hs]; intros t1 H1.
  - by rewrite app_nil_r.
  - rewrite app_assoc. econstructor; [by apply IH|done].
Qed.

(** ** Automation *)

Create HintDb berth.
#[export] Hint Resolve wrap64_id wrap32_id wrap64_range wrap32_range : berth.
#[export] Hint Constructors steps : berth.

(** Split every boolean connective in the context and reflect the tests. *)
Ltac bool_simp :=
  repeat match goal with
  | H : _ && _ = true |- _ => apply andb_prop in H as [? ?]
  | H : _ || _ = false |- _ => apply orb_false_elim in H as [? ?]
  | H : negb _ = true |- _ => apply negb_true_iff in H
  | H : negb _ = false |- _ => apply negb_false_iff in H
  | H : bool_decide _ = true |- _ => apply bool_decide_eq_true_1 in H
  | H : bool_decide _ = false |- _ => apply bool_decide_eq_false_1 in H
  end.

(** Case split on the scrutinee of the next [match] or [if], keep the equation. *)
Ltac case_next :=
  match goal with
  | |- context [match ?x with _ => _ end] =>
      match x with context [match _ with _ => _ end] => fail 1 | _ => idtac end;
      let E := fresh "E" in destruct x eqn:E
  | H : context [match ?x with _ => _ end] |- _ =>
      match x with context [match _ with _ => _ end] => fail 1 | _ => idtac end;
      let E := fresh "E" in destruct x eqn:E
  end.
