(* ===== verification/GoStrings.v ===== *)
(** * The parts of Go's [strings] and [strconv] the sources use

    Strings are byte sequences. Decimal printing and parsing follow
    [strconv.FormatInt] and [strconv.ParseInt] in base 10. *)

From S2P Require Import Prelude.
From Stdlib Require Import DecimalString DecimalN DecimalPos.

(** ** strings *)

Fixpoint HasPrefix (s prefix : string) : bool :=
  match prefix, s with
  | EmptyString, _ => true
  | String c p, String d s' => (c == d) && HasPrefix s' p
  | String _ _, EmptyString => false
  end.

(** [strings.CutPrefix] and [strings.TrimPrefix]. *)
Fixpoint CutPrefix (s prefix : string) {struct prefix} : option string :=
  match prefix, s with
  | EmptyString, _ => Some s
  | String c p, String d s' => if c == d then CutPrefix s' p else None
  | String _ _, EmptyString => None
  end.

Definition TrimPrefix (s prefix : string) : string := default s (CutPrefix s prefix).

(** [strings.TrimSuffix] for a one-byte suffix. *)
Definition TrimSuffix1 (c : ascii) (s : string) : string :=
  (fix go s := match s with
   | EmptyString => EmptyString
   | String d EmptyString => if d == c then EmptyString else s
   | String d s' => String d (go s')
   end) s.

(** [strings.Contains] for a one-byte pattern. *)
Fixpoint contains_char (c : ascii) (s : string) : bool :=
  match s with
  | EmptyString => false
  | String d s' => (c == d) || contains_char c s'
  end.

Definition ContainsAny (s chars : string) : bool :=
  (fix go t := match t with
   | EmptyString => false
   | String c t' => contains_char c s || go t'
   end) chars.

(** White space as [unicode.IsSpace] has it on ASCII. *)
Definition is_space (c : ascii) : bool :=
  let n := Ascii.nat_of_ascii c in
  ((9 <=? n) && (n <=? 13))%nat || (n =? 32)%nat.

Fixpoint trim_left (s : string) : string :=
  match s with
  | String c s' => if is_space c then trim_left s' else s
  | EmptyString => EmptyString
  end.

Fixpoint trim_right (s : string) : string :=
  match s with
  | EmptyString => EmptyString
  | String c s' =>
      match trim_right s' with
      | EmptyString => if is_space c then EmptyString else String c EmptyString
      | t => String c t
      end
  end.

(** [strings.TrimSpace], exact on ASCII text. *)
Definition TrimSpace (s : string) : string := trim_right (trim_left s).

(** [strings.SplitN(s, sep, 2)] for a one-byte separator: the text before the
    first separator and, if there is one, the text after it. *)
Fixpoint cut (sep : ascii) (s : string) : string * option string :=
  match s with
  | EmptyString => (EmptyString, None)
  | String c s' =>
      if c == sep then (EmptyString, Some s')
      else let '(a, b) := cut sep s' in (String c a, b)
  end.

(** [strings.Split] for a one-byte separator. *)
Fixpoint Split (sep : ascii) (s : string) : list string :=
  match s with
  | EmptyString => [EmptyString]
  | String c s' =>
      if c == sep then EmptyString :: Split sep s'
      else match Split sep s' with
           | p :: ps => String c p :: ps
           | [] => [String c EmptyString]
           end
  end.

Fixpoint Join (l : list string) (sep : string) : string :=
  match l with
  | [] => EmptyString
  | [s] => s
  | s :: l' => s +:+ sep +:+ Join l' sep
  end.

(** ** strconv *)

Definition digit_val (c : ascii) : option Z :=
  let n := Ascii.nat_of_ascii c in
  if ((48 <=? n) && (n <=? 57))%nat then Some (Z.of_nat n - 48) else None.

Fixpoint parse_digits (acc : Z) (s : string) : option Z :=
  match s with
  | EmptyString => Some acc
  | String c s' =>
      match digit_val c with
      | Some d => parse_digits (acc * 10 + d) s'
      | None => None
      end
  end.

Definition parse_unsigned (s : string) : option Z :=
  if s == EmptyString then None else parse_digits 0 s.

(** [strconv.ParseInt(s, 10, bits)]; [None] stands for either error. *)
Definition ParseInt (s : string) (bits : Z) : option Z :=
  let signed :=
    match s with
    | String "+" s' => parse_unsigned s'
    | String "-" s' => Z.opp <$> parse_unsigned s'
    | _ => parse_unsigned s
    end in
  match signed with
  | Some n => if (- 2 ^ (bits - 1) <=? n) && (n <? 2 ^ (bits - 1)) then Some n else None
  | None => None
  end.

(** [strconv.Atoi] on a 64-bit platform. *)
Definition Atoi (s : string) : option Z := ParseInt s 64.

Definition format_nat (n : N) : string := NilEmpty.string_of_uint (N.to_uint n).

(** [strconv.FormatInt(n, 10)]. *)
Definition FormatInt (n : Z) : string :=
  match n with
  | Zneg p => String "-" (format_nat (Npos p))
  | _ => format_nat (Z.to_N n)
  end.

(** [strconv.ParseBool]. *)
Definition ParseBool (s : string) : option bool :=
  if bool_decide (s ∈ ["1"; "t"; "T"; "TRUE"; "true"; "True"]) then Some true
  else if bool_decide (s ∈ ["0"; "f"; "F"; "FALSE"; "false"; "False"]) then Some false
  else None.

(** ** Printing and parsing agree *)

Fixpoint uint_val (acc : Z) (d : Decimal.uint) : Z :=
  match d with
  | Decimal.Nil => acc
  | Decimal.D0 d => uint_val (acc * 10 + 0) d
  | Decimal.D1 d => uint_val (acc * 10 + 1) d
  | Decimal.D2 d => uint_val (acc * 10 + 2) d
  | Decimal.D3 d => uint_val (acc * 10 + 3) d
  | Decimal.D4 d => uint_val (acc * 10 + 4) d
  | Decimal.D5 d => uint_val (acc * 10 + 5) d
  | Decimal.D6 d => uint_val (acc * 10 + 6) d
  | Decimal.D7 d => uint_val (acc * 10 + 7) d
  | Decimal.D8 d => uint_val (acc * 10 + 8) d
  | Decimal.D9 d => uint_val (acc * 10 + 9) d
  end.

Lemma parse_digits_uint acc d :
  parse_digits acc (NilEmpty.string_of_uint d) = Some (uint_val acc d).
Proof.
  revert acc. induction d; intros acc; [done|..].
  - exact (IHd (acc * 10 + 0)).
  - exact (IHd (acc * 10 + 1)).
  - exact (IHd (acc * 10 + 2)).
  - exact (IHd (acc * 10 + 3)).
  - exact (IHd (acc * 10 + 4)).
  - exact (IHd (acc * 10 + 5)).
  - exact (IHd (acc * 10 + 6)).
  - exact (IHd (acc * 10 + 7)).
  - exact (IHd (acc * 10 + 8)).
  - exact (IHd (acc * 10 + 9)).
Qed.

Lemma uint_val_acc d p : uint_val (Zpos p) d = Zpos (Pos.of_uint_acc d p).
Proof. revert p. induction d; intros p; cbn -[Z.mul Z.add]; [done|..]; rewrite <- IHd; f_equal; lia. Qed.

Lemma uint_val_of_uint d : uint_val 0 d = Z.of_N (N.of_uint d).
Proof. unfold N.of_uint. induction d; cbn; try done; apply uint_val_acc. Qed.

Lemma parse_format_nat n : parse_digits 0 (format_nat n) = Some (Z.of_N n).
Proof.
  unfold format_nat. rewrite parse_digits_uint, uint_val_of_uint.
  by rewrite DecimalN.Unsigned.of_to.
Qed.

Lemma format_nat_head n : ∃ c s d, format_nat n = String c s ∧ digit_val c = Some d.
Proof.
  pose proof (parse_format_nat n) as H. destruct (format_nat n) as [|c s] eqn:E.
  - assert (n = 0%N) as -> by (cbn in H; destruct n; naive_solver). discriminate.
  - cbn in H. destruct (digit_val c) as [d|] eqn:Ed; [|done]. by exists c, s, d.
Qed.

Lemma parse_unsigned_format n : parse_unsigned (format_nat n) = Some (Z.of_N n).
Proof.
  unfold parse_unsigned. destruct (format_nat_head n) as (c & s & d & E & _).
  rewrite bool_decide_false by by rewrite E. apply parse_format_nat.
Qed.

Lemma ParseInt_digit_head c s d bits :
  digit_val c = Some d →
  ParseInt (String c s) bits =
    match parse_unsigned (String c s) with
    | Some n => if (- 2 ^ (bits - 1) <=? n) && (n <? 2 ^ (bits - 1)) then Some n else None
    | None => None
    end.
Proof.
  intros Hd. unfold ParseInt.
  destruct c as [[] [] [] [] [] [] [] []]; cbn in Hd; try done.
Qed.

(** Printing a number and parsing it back at a width that holds it. *)
Lemma ParseInt_FormatInt n bits :
  - 2 ^ (bits - 1) ≤ n < 2 ^ (bits - 1) → ParseInt (FormatInt n) bits = Some n.
Proof.
  intros Hn. assert ((- 2 ^ (bits - 1) <=? n) && (n <? 2 ^ (bits - 1)) = true) as Hr by lia.
  assert (∀ m, Z.of_N m = n → ParseInt (format_nat m) bits = Some n) as Hpos.
  { intros m <-. destruct (format_nat_head m) as (c & s & d & E & Hd). rewrite E.
    rewrite (ParseInt_digit_head _ _ _ _ Hd), <- E, parse_unsigned_format. by rewrite Hr. }
  destruct n as [|p|p]; [by apply Hpos..|].
  cbn [FormatInt]. unfold ParseInt. rewrite parse_unsigned_format.
  change (Z.opp <$> Some (Z.of_N (Npos p))) with (Some (Zneg p)). cbv beta iota zeta. by rewrite Hr.
Qed.

(** ** Lemmas on strings *)

(** A property of every byte. *)
Fixpoint string_all (f : ascii → bool) (s : string) : bool :=
  match s with
  | EmptyString => true
  | String c s' => f c && string_all f s'
  end.

Definition non_space (c : ascii) : bool := negb (is_space c).

Lemma trim_right_keep s : string_all non_space s = true → trim_right s = s.
Proof.
  unfold non_space. induction s as [|c s IH]; cbn; [done|]. intros [Hc Hs]%andb_prop. rewrite (IH Hs).
  destruct s; [|done]. by destruct (is_space c).
Qed.

Lemma TrimSpace_keep s : string_all non_space s = true → TrimSpace s = s.
Proof.
  intros Hs. unfold TrimSpace. enough (trim_left s = s) as -> by by apply trim_right_keep.
  destruct s as [|c s]; [done|]. cbn in *. unfold non_space in Hs. by destruct (is_space c).
Qed.

Lemma digit_non_space c d : digit_val c = Some d → non_space c = true.
Proof. destruct c as [[] [] [] [] [] [] [] []]; by cbn. Qed.

Lemma parse_digits_non_space s acc v : parse_digits acc s = Some v → string_all non_space s = true.
Proof.
  revert acc. induction s as [|c s IH]; intros acc; cbn; [done|].
  destruct (digit_val c) as [d|] eqn:E; [|done]. intros H. by rewrite (digit_non_space _ _ E), (IH _ H).
Qed.

Lemma TrimSpace_FormatInt n : TrimSpace (FormatInt n) = FormatInt n.
Proof.
  apply TrimSpace_keep. destruct n; cbn -[format_nat]; by eapply parse_digits_non_space, parse_format_nat.
Qed.

Lemma app_string_cons c s t : String c s +:+ t = String c (s +:+ t).
Proof. done. Qed.

Lemma app_string_nil_l s : EmptyString +:+ s = s.
Proof. done. Qed.

Lemma app_string_nil_r (s : string) : s +:+ EmptyString = s.
Proof. induction s as [|c s IH]; [done|]. by rewrite app_string_cons, IH. Qed.

Lemma app_string_assoc (a b c : string) : a +:+ b +:+ c = (a +:+ b) +:+ c.
Proof. induction a as [|d a IH]; [done|]. by rewrite !app_string_cons, IH. Qed.

Lemma HasPrefix_app p s : HasPrefix (p +:+ s) p = true.
Proof.
  induction p as [|c p IH]; [by destruct s|]. rewrite app_string_cons. cbn.
  by rewrite bool_decide_true.
Qed.

Lemma HasPrefix_inv s p : HasPrefix s p = true → ∃ t, s = p +:+ t.
Proof.
  revert s. induction p as [|c p IH]; intros s; cbn; [by exists s|].
  destruct s as [|d s]; [done|]. intros [Hc Hp]%andb_prop. bool_simp. subst.
  destruct (IH _ Hp) as [t ->]. by exists t.
Qed.

Lemma contains_char_app c s t : contains_char c (s +:+ t) = contains_char c s || contains_char c t.
Proof.
  induction s as [|d s IH]; [done|]. rewrite app_string_cons. cbn. by rewrite IH, orb_assoc.
Qed.

(** Cutting at the first separator inverts joining with it. *)
Lemma cut_app sep a b :
  contains_char sep a = false → cut sep (a +:+ String sep b) = (a, Some b).
Proof.
  induction a as [|c a IH]; rewrite ?app_string_nil_l, ?app_string_cons; cbn; intros H.
  - by rewrite bool_decide_true.
  - bool_simp. rewrite bool_decide_false by congruence. by rewrite IH.
Qed.

(** A separator-free head makes joining injective. *)
Lemma join_sep_inj sep a b a' b' :
  contains_char sep a = false → contains_char sep a' = false →
  a +:+ String sep b = a' +:+ String sep b' → a = a' ∧ b = b'.
Proof.
  intros Ha Ha' E. apply (cut_app _ _ b) in Ha. apply (cut_app _ _ b') in Ha'.
  rewrite E, Ha' in Ha. by simplify_eq.
Qed.

Lemma CutPrefix_inv s p r : CutPrefix s p = Some r → s = p +:+ r.
Proof.
  revert s. induction p as [|c p IH]; intros s; cbn; [by intros [= ->]|].
  destruct s as [|d s]; [done|]. destruct (c == d) eqn:E; [|done]. bool_simp. subst.
  intros H. rewrite app_string_cons. f_equal. by apply IH.
Qed.

Lemma CutPrefix_app p s : CutPrefix (p +:+ s) p = Some s.
Proof. induction p as [|c p IH]; [by destruct s|]. rewrite app_string_cons. cbn. by rewrite (bool_decide_true _ eq_refl). Qed.

Lemma Split_app c a b :
  contains_char c a = false → Split c (a +:+ String c b) = a :: Split c b.
Proof.
  induction a as [|d a IH]; rewrite ?app_string_nil_l, ?app_string_cons; cbn [Split contains_char]; intros Ha.
  - by rewrite bool_decide_true.
  - bool_simp. rewrite bool_decide_false by congruence. by rewrite IH.
Qed.

Lemma Split_none c a : contains_char c a = false → Split c a = [a].
Proof.
  induction a as [|d a IH]; cbn; intros Ha; [done|]. bool_simp.
  rewrite bool_decide_false by congruence. by rewrite IH.
Qed.

Lemma length_app_string s t : String.length (s +:+ t) = (String.length s + String.length t)%nat.
Proof. induction s as [|c s IH]; [done|]. rewrite app_string_cons. cbn. by rewrite IH. Qed.

Lemma ParseInt_range s bits n : ParseInt s bits = Some n → - 2 ^ (bits - 1) ≤ n < 2 ^ (bits - 1).
Proof.
  unfold ParseInt. intros Hs. match type of Hs with match ?x with _ => _ end = _ => destruct x as [m|]; [|done] end.
  destruct ((- 2 ^ (bits - 1) <=? m) && (m <? 2 ^ (bits - 1))) eqn:E; [|done]. simplify_eq. lia.
Qed.
