(* ===== verification/GoPath.v ===== *)
(** * Slash-separated paths

    What the repository uses of Go's [path] package (and of [path/filepath],
    which is the same on Unix): [IsAbs], [Clean], [Split], [Dir] and [Base].
    [Clean] is given by its effect on the elements of a path; the lemmas say
    when a path is put together again from [Dir] and [Base]. *)

From S2P Require Import Prelude GoStrings.

Definition IsAbs (p : string) : bool := HasPrefix p "/".

(** The elements [Clean] keeps; [acc] is the output so far, last element
    first. A [..] removes the element before it, is dropped at the root, and
    is kept at the start of a relative path. *)
Fixpoint clean_segs (rooted : bool) (acc segs : list string) : list string :=
  match segs with
  | [] => reverse acc
  | s :: segs' =>
      if (s == "") || (s == ".") then clean_segs rooted acc segs'
      else if s == ".." then
        match acc with
        | a :: acc' => if a == ".." then clean_segs rooted (".." :: acc) segs' else clean_segs rooted acc' segs'
        | [] => clean_segs rooted (if rooted then [] else [".."]) segs'
        end
      else clean_segs rooted (s :: acc) segs'
  end.

Definition Clean (p : string) : string :=
  if p == "" then "."
  else
    let body := Join (clean_segs (IsAbs p) [] (Split "/" p)) "/" in
    if IsAbs p then String "/" body else if body == "" then "." else body.

(** [path.Split]: everything up to the last slash, and the rest. *)
Fixpoint split_path (p : string) : string * string :=
  match p with
  | EmptyString => (EmptyString, EmptyString)
  | String c p' =>
      let '(d, f) := split_path p' in
      if d == "" then if c == "/"%char then ("/", f) else ("", String c f)
      else (String c d, f)
  end.

Definition Dir (p : string) : string := Clean (split_path p).1.

Fixpoint trim_slashes (p : string) : string :=
  match p with
  | EmptyString => EmptyString
  | String c p' =>
      match trim_slashes p' with
      | EmptyString => if c == "/"%char then EmptyString else String c EmptyString
      | q => String c q
      end
  end.

Definition Base (p : string) : string :=
  if p == "" then "."
  else let f := (split_path (trim_slashes p)).2 in
       if f == "" then "/" else f.

(** ** Elements *)

(** An element [Clean] keeps. *)
Definition normal (s : string) : Prop :=
  s ≠ "" ∧ s ≠ "." ∧ s ≠ ".." ∧ contains_char "/" s = false.

Lemma clean_segs_skip r acc a b s :
  s = "" ∨ s = "." → clean_segs r acc (a ++ s :: b) = clean_segs r acc (a ++ b).
Proof.
  intros Hs. revert acc. induction a as [|x a IH]; intros acc; cbn [app clean_segs].
  - by destruct Hs as [-> | ->].
  - repeat case_match; auto.
Qed.

Lemma clean_segs_normal r acc l : Forall normal l → clean_segs r acc l = reverse acc ++ l.
Proof.
  intros Hl. revert acc. induction Hl as [|s l (H1 & H2 & H3 & _) Hl IH]; intros acc; cbn [clean_segs].
  - by rewrite app_nil_r.
  - rewrite !bool_decide_false by done. cbn [orb]. rewrite IH, reverse_cons. by rewrite <- app_assoc.
Qed.

(** Under the root, everything that is kept is normal. *)
Lemma clean_segs_rooted acc l :
  Forall normal acc → Forall (λ s, contains_char "/" s = false) l → Forall normal (clean_segs true acc l).
Proof.
  intros Hacc Hl. revert acc Hacc. induction Hl as [|s l Hs Hl IH]; intros acc Hacc; cbn [clean_segs].
  - by apply Forall_reverse.
  - destruct ((s == "") || (s == ".")) eqn:E1; [by apply IH|]. destruct (s == "..") eqn:E2.
    + destruct Hacc as [|a acc (_ & _ & Ha & _) Hacc]; [by apply IH|].
      rewrite bool_decide_false by done. by apply IH.
    + bool_simp. apply IH. by constructor.
Qed.

Lemma Split_segs c s : Forall (λ x, contains_char c x = false) (Split c s).
Proof.
  induction s as [|d s IH]; cbn; [by repeat constructor|]. case_bool_decide as E; [by constructor|].
  destruct (Split c s) as [|p ps]; [by repeat constructor; cbn; rewrite bool_decide_false|].
  inversion IH as [|? ? Hp Hps]. subst. constructor; [|done]. cbn. by rewrite bool_decide_false, Hp by congruence.
Qed.

Lemma Split_nonempty c s : Split c s ≠ [].
Proof. destruct s as [|d s]; cbn; [done|]. by repeat case_match. Qed.

Lemma Split_app_full c a b : Split c (a +:+ String c b) = Split c a ++ Split c b.
Proof.
  induction a as [|d a IH]; rewrite ?app_string_nil_l, ?app_string_cons; cbn [Split].
  - by rewrite bool_decide_true.
  - case_bool_decide; [by rewrite IH|]. rewrite IH. pose proof (Split_nonempty c a).
    by destruct (Split c a).
Qed.

Lemma Split_Join c l :
  Forall (λ x, contains_char c x = false) l → l ≠ [] → Split c (Join l (String c EmptyString)) = l.
Proof.
  intros Hall Hne. destruct Hall as [|s l Hs Hl]; [done|]. clear Hne. revert s Hs.
  induction Hl as [|t l Ht Hl IH]; intros s Hs; [by apply Split_none|].
  change (Join (s :: t :: l) (String c "")) with (s +:+ String c (Join (t :: l) (String c ""))).
  by rewrite Split_app, IH.
Qed.

(** ** Paths under the root *)

Lemma IsAbs_cons p : IsAbs p = true → ∃ q, p = String "/" q.
Proof. intros [t ->]%HasPrefix_inv. by exists t. Qed.

Lemma IsAbs_slash q : IsAbs (String "/" q) = true.
Proof. by destruct q. Qed.

Lemma Clean_abs_eq q : Clean (String "/" q) = String "/" (Join (clean_segs true [] (Split "/" q)) "/").
Proof. unfold Clean. rewrite bool_decide_false by done. by rewrite IsAbs_slash. Qed.

Lemma Clean_rooted p :
  IsAbs p = true → ∃ l, Forall normal l ∧ Clean p = String "/" (Join l "/").
Proof.
  intros [q ->]%IsAbs_cons. rewrite Clean_abs_eq. eexists. split; [|done].
  apply clean_segs_rooted; [constructor|apply Split_segs].
Qed.

Lemma Clean_normal l : Forall normal l → Clean (String "/" (Join l "/")) = String "/" (Join l "/").
Proof.
  intros Hl. rewrite Clean_abs_eq. destruct l as [|s l]; [done|].
  rewrite Split_Join, clean_segs_normal by (done || by eapply Forall_impl; [apply Hl|intros ? (_ & _ & _ & ?)]).
  done.
Qed.

Lemma Clean_slash d : IsAbs d = true → Clean (d +:+ "/") = Clean d.
Proof.
  intros [q ->]%IsAbs_cons. rewrite app_string_cons, !Clean_abs_eq. do 2 f_equal.
  rewrite (Split_app_full "/" q ""). cbn [Split]. rewrite clean_segs_skip by auto. by rewrite app_nil_r.
Qed.

Lemma split_path_none f : contains_char "/" f = false → split_path f = ("", f).
Proof.
  induction f as [|c f IH]; cbn; [done|]. intros. bool_simp. rewrite IH by done.
  rewrite bool_decide_true by done. by rewrite bool_decide_false by congruence.
Qed.

Lemma split_path_app d f :
  contains_char "/" f = false → split_path (d +:+ String "/" f) = (d +:+ "/", f).
Proof.
  intros Hf. induction d as [|c d IH].
  - rewrite app_string_nil_l. cbn. by rewrite split_path_none.
  - rewrite !app_string_cons. cbn [split_path]. rewrite IH. by destruct d.
Qed.

Lemma Dir_app d f : IsAbs d = true → contains_char "/" f = false → Dir (d +:+ String "/" f) = Clean d.
Proof. intros Hd Hf. unfold Dir. rewrite split_path_app by done. by apply Clean_slash. Qed.

Lemma trim_slashes_app d f :
  f ≠ "" → contains_char "/" f = false → trim_slashes (d +:+ f) = d +:+ f.
Proof.
  intros Hne Hf. induction d as [|c d IH].
  - rewrite app_string_nil_l. induction f as [|e f IHf]; [done|]. cbn in *. bool_simp.
    destruct f as [|g f]; [by cbn; rewrite bool_decide_false by congruence|]. by rewrite IHf.
  - rewrite !app_string_cons. cbn [trim_slashes]. rewrite IH.
    destruct (d +:+ f) eqn:E; [|done]. destruct d, f; done.
Qed.

Lemma Base_app d f : f ≠ "" → contains_char "/" f = false → Base (d +:+ String "/" f) = f.
Proof.
  intros Hne Hf. unfold Base. rewrite bool_decide_false by (by destruct d).
  replace (d +:+ String "/" f) with ((d +:+ "/") +:+ f) by (by rewrite <- app_string_assoc).
  rewrite trim_slashes_app by done. rewrite <- app_string_assoc.
  change ("/" +:+ f) with (String "/" f). rewrite split_path_app by done. cbn. by rewrite bool_decide_false.
Qed.

(** The mark of a file that can be mounted: the path is its directory, a slash
    and its base name, and the directory is clean. *)
Lemma Dir_Base p :
  IsAbs p = true → Clean p = p → Dir p ≠ "/" →
  p = Dir p +:+ String "/" (Base p) ∧ IsAbs (Dir p) = true ∧ Clean (Dir p) = Dir p ∧ normal (Base p).
Proof.
  intros Hp Hc Hroot. destruct (Clean_rooted p Hp) as (l & Hl & E). rewrite Hc in E. subst p.
  destruct l as [|s l _] using rev_ind; [done|].
  apply Forall_app in Hl as [Hl Hs]. inversion Hs as [|? ? (Hs1 & Hs2 & Hs3 & Hs4) _]. subst.
  destruct l as [|t l]; [by rewrite <- (app_string_nil_l (String "/" (Join ([] ++ [s]) "/"))) in Hroot;
    unfold Dir in Hroot; rewrite split_path_app in Hroot by done|].
  assert (String "/" (Join ((t :: l) ++ [s]) "/") = String "/" (Join (t :: l) "/") +:+ String "/" s) as E.
  { rewrite app_string_cons. f_equal. clear. revert t. induction l as [|u l IH]; intros t; [done|].
    change (Join ((t :: u :: l) ++ [s]) "/") with (t +:+ "/" +:+ Join ((u :: l) ++ [s]) "/").
    change (Join (t :: u :: l) "/") with (t +:+ "/" +:+ Join (u :: l) "/"). rewrite IH.
    by rewrite !app_string_assoc. }
  rewrite E, Dir_app, Base_app, Clean_normal by (done || apply IsAbs_slash).
  split_and!; [done|apply IsAbs_slash|by apply Clean_normal|done].
Qed.
