(* ===== verification/Store.v ===== *)
(** * Lease records and the [Store] contract

    [internal/lease/store.go] and [internal/lease/validate.go]: the data every
    backend persists, the validation of keys and holders, the operations of the
    [Store] interface as effects, and the contract a backend owes the manager
    as a transition relation on a map of records. *)

From S2P Require Import Prelude GoStrings.

(** ** Keys and records *)

Record Key := MkKey { kNamespace : string; kName : string }.

#[export] Instance Key_eq_dec : EqDecision Key.
Proof. solve_decision. Defined.

#[export] Instance Key_countable : Countable Key.
Proof.
  apply (inj_countable' (λ k, (kNamespace k, kName k)) (λ p, MkKey p.1 p.2)).
  by intros [].
Defined.

Record LeaseRecord := MkRecord {
  rKey : Key;
  rHolder : string;
  rTTL : Z;
  rAcquiredAt : Z;
  rRenewedAt : Z;
  rFencingToken : Z;
  rVersion : Z }.

#[export] Instance LeaseRecord_eq_dec : EqDecision LeaseRecord.
Proof. solve_decision. Defined.

Definition ExpiresAt (r : LeaseRecord) : Z := rRenewedAt r + rTTL r.

Definition Expired (r : LeaseRecord) (now : Z) : bool := After now (ExpiresAt r).

Definition Tombstone (r : LeaseRecord) : bool := rHolder r == "".

(** The field assignment [stored.Version = v]. *)
Definition set_version (v : Z) (r : LeaseRecord) : LeaseRecord :=
  MkRecord (rKey r) (rHolder r) (rTTL r) (rAcquiredAt r) (rRenewedAt r) (rFencingToken r) v.

(** ** Validation *)

(** [k8s.io/apimachinery/pkg/util/validation]: each check returns the list of
    complaints, empty when the value is well formed. *)
Class DNSValidation := {
  IsDNS1123Label : string → list string;
  IsDNS1123Subdomain : string → list string }.

Definition DNS1123LabelMaxLength : Z := 63.
Definition DNS1123SubdomainMaxLength : Z := 253.
Definition maxEncodedKeyLength : Z := DNS1123SubdomainMaxLength.
Definition MaxHolderBytes : Z := 253.

(** [len(s)] of a Go string counts bytes. *)
Definition len (s : string) : Z := Z.of_nat (String.length s).

Definition ValidateHolder (holder : string) : result unit :=
  if holder == "" then Err (ErrMsg "holder is required")
  else if len holder >? MaxHolderBytes then Err (ErrMsg "holder must be at most 253 bytes")
  else Ok ().

Definition ValidateKey `{DNSValidation} (key : Key) : result unit :=
  match IsDNS1123Label (kNamespace key) with
  | e :: _ => Err (ErrWrap "invalid namespace: must be an RFC 1123 DNS label" (ErrMsg e))
  | [] =>
    match IsDNS1123Subdomain (kName key) with
    | e :: _ => Err (ErrWrap "invalid name: must be an RFC 1123 DNS subdomain" (ErrMsg e))
    | [] =>
      if len (kNamespace key) + 1 + len (kName key) >? maxEncodedKeyLength
      then Err (ErrMsg "invalid key: namespace and name joined with '.' must be at most 253 characters")
      else Ok ()
    end
  end.

(** What the code relies on of the two checks, as RFC 1123 and the package
    document them: the alphabet and the length of an accepted value, and that a
    subdomain does not start with a dot. *)
Definition in_range (lo hi c : ascii) : bool :=
  (Ascii.nat_of_ascii lo <=? Ascii.nat_of_ascii c)%nat &&
  (Ascii.nat_of_ascii c <=? Ascii.nat_of_ascii hi)%nat.
Definition dns_alnum (c : ascii) : bool := in_range "a" "z" c || in_range "0" "9" c.
Definition dns_label_char (c : ascii) : bool := dns_alnum c || (c == "-"%char).
Definition dns_subdomain_char (c : ascii) : bool := dns_label_char c || (c == "."%char).

Class DNSValidationLaws `{DNSValidation} : Prop := {
  label_sound s : IsDNS1123Label s = [] →
    s ≠ "" ∧ len s ≤ DNS1123LabelMaxLength ∧ string_all dns_label_char s = true;
  subdomain_sound s : IsDNS1123Subdomain s = [] →
    s ≠ "" ∧ len s ≤ DNS1123SubdomainMaxLength ∧ string_all dns_subdomain_char s = true;
  subdomain_start s : IsDNS1123Subdomain s = [] → HasPrefix s "." = false }.

(** ** The operations of the interface *)

(** [Store] as an effect signature, with the reading of the caller's clock and
    of [ctx.Err() != nil]. *)
Inductive storeE : Type → Type :=
| EPing : storeE (result unit)
| EGet (key : Key) : storeE (result LeaseRecord)
| EList : storeE (result (list LeaseRecord))
| EPut (expectedVersion : Z) (rec : option LeaseRecord) : storeE (result unit)
| ENow : storeE Z
| ECtxDone : storeE bool.

(** The compare-and-swap predicate of [Put]: version 0 creates, any other
    version must be the current record's. *)
Definition put_pred (m : gmap Key LeaseRecord) (v : Z) (k : Key) : Prop :=
  if v =? 0 then m !! k = None else rVersion <$> m !! k = Some v.

#[export] Instance put_pred_dec m v k : Decision (put_pred m v k).
Proof. unfold put_pred. destruct (v =? 0); apply _. Defined.

(** The record a successful [Put] leaves behind. [norm] is what the backend's
    encoding does to a record (identity in memory, truncated times in SQL). *)
Definition stored (norm : LeaseRecord → LeaseRecord) (v : Z) (r : LeaseRecord) : LeaseRecord :=
  set_version (wrap64 (v + 1)) (norm r).

(** A backend's encoding may shorten times; it keeps identity and token. *)
Class NormOK (norm : LeaseRecord → LeaseRecord) : Prop := {
  norm_key r : rKey (norm r) = rKey r;
  norm_holder r : rHolder (norm r) = rHolder r;
  norm_token r : rFencingToken (norm r) = rFencingToken r }.

(** The contract, as the answers an operation may give and the map it leaves.
    Failures are allowed at every call: a read may fail, a write may fail
    without effect (also with a conflict, as for an exhausted retry budget) and
    a write may take effect although its answer was lost. What is never
    allowed: success without the predicate, an effect without the predicate,
    a lost answer reported as a conflict. *)
Definition store_step (norm : LeaseRecord → LeaseRecord) (m : gmap Key LeaseRecord)
    {X} (e : storeE X) : X → gmap Key LeaseRecord → Prop :=
  match e with
  | EPing => λ _ m', m' = m
  | EGet k => λ res m', m' = m ∧
      match res with
      | Ok r => m !! k = Some r
      | Err e => errors_Is e ErrNotFound = true → m !! k = None
      end
  | EList => λ res m', m' = m ∧
      match res with
      | Ok l => ∀ r, r ∈ l → m !! rKey r = Some r
      | Err _ => True
      end
  | EPut v None => λ res m', m' = m ∧ res ≠ Ok ()
  | EPut v (Some r) => λ res m',
      match res with
      | Ok _ => put_pred m v (rKey r) ∧ m' = <[rKey r := stored norm v r]> m
      | Err e => m' = m ∨
          (errors_Is e ErrConflict = false ∧ put_pred m v (rKey r) ∧
           m' = <[rKey r := stored norm v r]> m)
      end
  | ENow => λ _ m', m' = m
  | ECtxDone => λ _ m', m' = m
  end.

(** Every record sits under its own key. *)
Definition keyed (m : gmap Key LeaseRecord) : Prop := ∀ k r, m !! k = Some r → rKey r = k.

Lemma keyed_empty : keyed ∅.
Proof. intros k r. by rewrite lookup_empty. Qed.

Lemma keyed_insert m r : keyed m → keyed (<[rKey r := r]> m).
Proof.
  intros Hm k r'. rewrite lookup_insert. case_decide; [naive_solver|apply Hm].
Qed.

Lemma stored_key norm v r : NormOK norm → rKey (stored norm v r) = rKey r.
Proof. intros ?. cbn. apply norm_key. Qed.

Lemma stored_holder norm v r : NormOK norm → rHolder (stored norm v r) = rHolder r.
Proof. intros ?. cbn. apply norm_holder. Qed.

Lemma stored_token norm v r : NormOK norm → rFencingToken (stored norm v r) = rFencingToken r.
Proof. intros ?. cbn. apply norm_token. Qed.

Lemma stored_version norm v r : rVersion (stored norm v r) = wrap64 (v + 1).
Proof. done. Qed.

#[export] Hint Resolve keyed_empty keyed_insert : berth.

(** A deterministic backend: the four calls on its own state. The context's
    error at the time of the call is [ctx]. *)
Class StoreImpl (S : Type) := {
  st_ping : option error → S → result unit;
  st_get : option error → Key → S → result LeaseRecord;
  st_list : option error → S → result (list LeaseRecord);
  st_put : option error → Z → option LeaseRecord → S → result unit * S }.

(** The calls of a backend as a handler for the effects; the clock is read
    from the environment. *)
Definition impl_handler {S} `{StoreImpl S} (ctx : option error) (now : Z)
    {X} (e : storeE X) (s : S) : X * S :=
  match e in storeE X return X * S with
  | EPing => (st_ping ctx s, s)
  | EGet k => (st_get ctx k s, s)
  | EList => (st_list ctx s, s)
  | EPut v r => st_put ctx v r s
  | ENow => (now, s)
  | ECtxDone => (bool_decide (is_Some ctx), s)
  end.

(** A backend implements the contract when, seen through [abs], each of its
    calls is a step of it. *)
Class StoreOK (S : Type) `{StoreImpl S} (norm : LeaseRecord → LeaseRecord)
    (abs : S → gmap Key LeaseRecord) (Inv : S → Prop) : Prop := {
  store_refines ctx now X (e : storeE X) s :
    Inv s →
    (ctx = None ∨ ctx = Some ErrCtx) →
    let '(x, s') := impl_handler ctx now e s in
    store_step norm (abs s) e x (abs s') ∧ Inv s' }.

(** ** Backends that make several calls *)

Section linearization.
Context {S : Type} (abs : S → gmap Key LeaseRecord) (norm : LeaseRecord → LeaseRecord).

(** A run of a backend's call takes effect at one point: calls that leave the
    records alone, then one that is the whole operation of the contract. *)
Definition linearized {X} (e : storeE X) (tr : list (S * S)) (x : X) (s' : S) : Prop :=
  ∃ pre s1, tr = pre ++ [(s1, s')] ∧ Forall (λ ss, abs ss.1 = abs ss.2) pre ∧
    store_step norm (abs s1) e x (abs s').

Lemma linearized_cons {X} (e : storeE X) s1 s2 tr x s' :
  abs s1 = abs s2 → linearized e tr x s' → linearized e ((s1, s2) :: tr) x s'.
Proof.
  intros Hs (pre & s3 & -> & Hpre & Hstep). exists ((s1, s2) :: pre), s3. by auto.
Qed.

Lemma linearized_last {X} (e : storeE X) s1 x s' :
  store_step norm (abs s1) e x (abs s') → linearized e [(s1, s')] x s'.
Proof. intros ?. by exists [], s1. Qed.

Lemma linearized_unchanged v r s e :
  linearized (EPut v (Some r)) [(s, s)] (Err e) s.
Proof. apply linearized_last. by left. Qed.

(** The same with calls after it that leave the records alone. *)
Definition linearized_then {X} (e : storeE X) (tr : list (S * S)) (x : X) : Prop :=
  ∃ tr1 s1 post, tr = tr1 ++ post ∧ linearized e tr1 x s1 ∧ Forall (λ ss, abs ss.1 = abs ss.2) post.

Lemma linearized_then_cons {X} (e : storeE X) s1 s2 tr x :
  abs s1 = abs s2 → linearized_then e tr x → linearized_then e ((s1, s2) :: tr) x.
Proof.
  intros Hs (tr1 & s3 & post & -> & Hl & Hp). exists ((s1, s2) :: tr1), s3, post.
  split_and!; [done|by apply linearized_cons|done].
Qed.

Lemma linearized_then_here {X} (e : storeE X) s1 s2 tr x :
  store_step norm (abs s1) e x (abs s2) → Forall (λ ss, abs ss.1 = abs ss.2) tr →
  linearized_then e ((s1, s2) :: tr) x.
Proof. intros Hs Htr. exists [(s1, s2)], s2, tr. split_and!; [done|by apply linearized_last|done]. Qed.
End linearization.
