(* ===== verification/MemStore.v ===== *)
(** * The in-memory backend

    [internal/lease/memstore.go]: a mutex-guarded Go map, so every call is one
    atomic step on the map. *)

From S2P Require Import Prelude Store.

Record MemStore := MkMemStore { records : gmap Key LeaseRecord }.

Definition NewMemStore : MemStore := MkMemStore ∅.

Definition mem_Ping (ctx : option error) (s : MemStore) : result unit :=
  match ctx with Some e => Err e | None => Ok () end.

Definition mem_Get (ctx : option error) (key : Key) (s : MemStore) : result LeaseRecord :=
  match ctx with
  | Some e => Err e
  | None => match records s !! key with None => Err ErrNotFound | Some rec => Ok rec end
  end.

Definition mem_List (ctx : option error) (s : MemStore) : result (list LeaseRecord) :=
  match ctx with
  | Some e => Err e
  | None => Ok (map_to_list (records s)).*2
  end.

Definition mem_Put (ctx : option error) (expectedVersion : Z) (rec : option LeaseRecord)
    (s : MemStore) : result unit * MemStore :=
  match ctx, rec with
  | Some e, _ => (Err e, s)
  | None, None => (Err ErrConflict, s)
  | None, Some rec =>
    let cur := records s !! rKey rec in
    let conflict :=
      if expectedVersion =? 0 then bool_decide (is_Some cur)
      else match cur with None => true | Some c => negb (rVersion c =? expectedVersion) end in
    if conflict then (Err ErrConflict, s)
    else (Ok (), MkMemStore (<[rKey rec := set_version (wrap64 (expectedVersion + 1)) rec]> (records s)))
  end.

#[export] Instance MemStore_impl : StoreImpl MemStore := {|
  st_ping := mem_Ping; st_get := mem_Get; st_list := mem_List; st_put := mem_Put |}.

#[export] Instance norm_id : NormOK id.
Proof. by split. Qed.

(** [Put] decides the compare-and-swap predicate exactly: it succeeds when the
    predicate holds and answers [ErrConflict], changing nothing, when not. *)
Lemma mem_Put_spec v r s :
  mem_Put None v (Some r) s =
    if bool_decide (put_pred (records s) v (rKey r))
    then (Ok (), MkMemStore (<[rKey r := stored id v r]> (records s)))
    else (Err ErrConflict, s).
Proof.
  destruct (decide (put_pred (records s) v (rKey r))) as [Hp|Hp];
    [rewrite (bool_decide_true (put_pred _ _ _) Hp)|rewrite (bool_decide_false (put_pred _ _ _) Hp)];
    unfold mem_Put; unfold put_pred in Hp; destruct (v =? 0);
    destruct (records s !! rKey r) as [c|] eqn:E; cbn in *; simplify_eq; try done.
  - by rewrite Z.eqb_refl.
  - destruct (Z.eqb_spec (rVersion c) v); cbn; [by subst|done].
Qed.

Definition mem_inv (s : MemStore) : Prop := keyed (records s).

(** The in-memory backend implements the [Store] contract. *)
#[export] Instance MemStore_ok : StoreOK MemStore id records mem_inv.
Proof.
  split. intros ctx now X e s Hinv Hctx.
  destruct e as [|k| |v [r|]| |]; cbn -[mem_Put].
  - done.
  - split; [|done]. split; [done|].
    destruct Hctx as [-> | ->]; cbn; [by destruct (records s !! k)|done].
  - split; [|done]. split; [done|].
    destruct Hctx as [-> | ->]; cbn; [|done].
    intros r ([k r'] & -> & Hin)%list_elem_of_fmap.
    apply elem_of_map_to_list in Hin. cbn. by rewrite (Hinv _ _ Hin).
  - destruct Hctx as [-> | ->]; [|cbn; eauto].
    rewrite mem_Put_spec. case_bool_decide; cbn; [|eauto].
    split; [done|]. by apply (keyed_insert _ (stored id v r)).
  - destruct Hctx as [-> | ->]; cbn; done.
  - done.
  - done.
Qed.
