(* ===== verification/Manager.v ===== *)
(** * The lease manager

    [internal/lease/manager.go]: [Acquire], [Renew] and [Release] as programs
    over the [Store] effects. Every call to the store is one operation of the
    program, so other requests interleave between them. *)

From S2P Require Import Prelude Store MemStore.

Definition maxAcquireAttempts : nat := 8.

Record AcquireResult := MkAcquireResult {
  aAcquired : bool;
  aHolder : string;
  aFencingToken : Z;
  aExpiresAt : Z;
  aAcquiredAt : Z }.

#[export] Instance AcquireResult_eq_dec : EqDecision AcquireResult.
Proof. solve_decision. Defined.

(** The not-acquired result that describes the record in the way. *)
Definition lost_to (cur : LeaseRecord) : AcquireResult :=
  MkAcquireResult false (rHolder cur) (rFencingToken cur) (ExpiresAt cur) (rAcquiredAt cur).

(** The Go zero value with [Acquired: false]. *)
Definition not_acquired : AcquireResult := MkAcquireResult false "" 0 0 0.

Definition Ready : prog storeE (result unit) := trigger EPing.

(** What one pass of [Acquire]'s loop decides from the record it read. *)
Inductive plan :=
| PlanWrite (expected token acquiredAt : Z)
| PlanHeld (res : AcquireResult)
| PlanExhausted.

Definition acquire_plan (holder : string) (now : Z) (cur : option LeaseRecord) : plan :=
  match cur with
  | None => PlanWrite 0 1 now
  | Some cur =>
    if (rHolder cur == holder) && negb (Expired cur now) then
      PlanWrite (rVersion cur) (rFencingToken cur) (rAcquiredAt cur)
    else if Tombstone cur || Expired cur now then
      if rFencingToken cur =? MaxInt32 then PlanExhausted
      else PlanWrite (rVersion cur) (wrap32 (rFencingToken cur + 1)) now
    else PlanHeld (lost_to cur)
  end.

(** [cur, err := Get(...)] with [ErrNotFound] read as a nil record. *)
Definition cur_of (got : result LeaseRecord) : result (option LeaseRecord) :=
  match got with
  | Ok r => Ok (Some r)
  | Err e => if errors_Is e ErrNotFound then Ok None else Err e
  end.

Fixpoint acquire_loop (attempts : nat) (key : Key) (holder : string) (ttl : Z)
    : prog storeE (result AcquireResult) :=
  match attempts with
  | O => mret (Err (ErrMsg "acquire: exhausted retries"))
  | S attempts =>
    got ← trigger (EGet key);
    match cur_of got with
    | Err e => mret (Err (ErrWrap "acquire: get" e))
    | Ok cur =>
      now ← trigger ENow;
      match acquire_plan holder now cur with
      | PlanHeld res => mret (Ok res)
      | PlanExhausted =>
          mret (Err (ErrMsg "acquire: fencing token exhausted at int32 ceiling"))
      | PlanWrite expected token acquiredAt =>
        let next := MkRecord key holder ttl acquiredAt now token 0 in
        err ← trigger (EPut expected (Some next));
        match err with
        | Err e =>
          if errors_Is e ErrConflict then acquire_loop attempts key holder ttl
          else mret (Err (ErrWrap "acquire: put" e))
        | Ok _ => mret (Ok (MkAcquireResult true holder token (ExpiresAt next) acquiredAt))
        end
      end
    end
  end.

Definition Acquire `{DNSValidation} (key : Key) (holder : string) (ttl : Z)
    : prog storeE (result AcquireResult) :=
  match ValidateKey key with
  | Err e => mret (Err (ErrWrap "acquire" e))
  | Ok _ =>
    match ValidateHolder holder with
    | Err e => mret (Err (ErrWrap "acquire" e))
    | Ok _ =>
      if ttl <=? 0 then mret (Err (ErrMsg "acquire: ttl must be positive"))
      else acquire_loop maxAcquireAttempts key holder ttl
    end
  end.

(** The result of a renewal that lost its compare-and-swap: re-read, and fall
    back to the stale record when the read fails. *)
Definition renewalLost (key : Key) (stale : LeaseRecord) : prog storeE AcquireResult :=
  got ← trigger (EGet key);
  mret (lost_to (match got with Ok cur => cur | Err _ => stale end)).

Definition Renew `{DNSValidation} (key : Key) (holder : string) (token ttl : Z)
    : prog storeE (result AcquireResult) :=
  match ValidateKey key with
  | Err e => mret (Err (ErrWrap "renew" e))
  | Ok _ =>
    match ValidateHolder holder with
    | Err e => mret (Err (ErrWrap "renew" e))
    | Ok _ =>
      if token <=? 0 then mret (Err (ErrMsg "renew: token must be positive"))
      else if ttl <=? 0 then mret (Err (ErrMsg "renew: ttl must be positive"))
      else
        got ← trigger (EGet key);
        match got with
        | Err e =>
          if errors_Is e ErrNotFound then mret (Ok not_acquired)
          else mret (Err (ErrWrap "renew: get" e))
        | Ok cur =>
          now ← trigger ENow;
          if (rHolder cur != holder) || negb (rFencingToken cur =? token) || Expired cur now
          then mret (Ok (lost_to cur))
          else
            let next := MkRecord (rKey cur) (rHolder cur) ttl (rAcquiredAt cur) now
                          (rFencingToken cur) (rVersion cur) in
            err ← trigger (EPut (rVersion cur) (Some next));
            match err with
            | Err e =>
              if errors_Is e ErrConflict then
                lost ← renewalLost key cur;
                mret (Ok lost)
              else mret (Err (ErrWrap "renew: put" e))
            | Ok _ =>
              mret (Ok (MkAcquireResult true holder (rFencingToken next) (ExpiresAt next)
                          (rAcquiredAt next)))
            end
        end
    end
  end.

(** The record that replaces [cur] on release or garbage collection. *)
Definition tombstoneFrom (cur : LeaseRecord) (now : Z) : LeaseRecord :=
  MkRecord (rKey cur) "" 0 (rAcquiredAt cur) now (rFencingToken cur) 0.

Definition Release `{DNSValidation} (key : Key) (holder : string) (token : Z)
    : prog storeE (result unit) :=
  match ValidateKey key with
  | Err e => mret (Err (ErrWrap "release" e))
  | Ok _ =>
    if holder == "" then mret (Err (ErrMsg "release: holder is required"))
    else
      got ← trigger (EGet key);
      match got with
      | Err e =>
        if errors_Is e ErrNotFound then mret (Ok ())
        else mret (Err (ErrWrap "release: get" e))
      | Ok cur =>
        if Tombstone cur then mret (Ok ())
        else if (rHolder cur != holder) || negb (rFencingToken cur =? token)
        then mret (Err ErrConflict)
        else
          now ← trigger ENow;
          err ← trigger (EPut (rVersion cur) (Some (tombstoneFrom cur now)));
          match err with
          | Err e =>
            if errors_Is e ErrConflict then mret (Ok ())
            else mret (Err (ErrWrap "release: put tombstone" e))
          | Ok _ => mret (Ok ())
          end
      end
  end.
