(* ===== verification/TTL.v ===== *)
(** * Garbage collection of expired leases

    [internal/lease/ttl.go]: the sweep that tombstones records expired for
    longer than a grace window. *)

From S2P Require Import Prelude Store MemStore Manager.

Definition defaultGCInterval : Z := 30 * Second.
Definition defaultGCGrace : Z := 5 * Minute.

Record TTLEnforcer := MkTTLEnforcer { gcInterval : Z; gcGrace : Z }.

Definition NewTTLEnforcer (interval grace : Z) : TTLEnforcer :=
  MkTTLEnforcer (if interval <=? 0 then defaultGCInterval else interval)
                (if grace <=? 0 then defaultGCGrace else grace).

(** The guard of the sweep's loop body. *)
Definition gc_skip (grace now : Z) (r : LeaseRecord) : bool :=
  Tombstone r || Before now (ExpiresAt r + grace).

(** The loop over the scanned records; the answer is the number swept. *)
Fixpoint collect_loop (grace now : Z) (rs : list LeaseRecord) (swept : Z) : prog storeE Z :=
  match rs with
  | [] => mret swept
  | r :: rs =>
    if gc_skip grace now r then collect_loop grace now rs swept
    else
      err ← trigger (EPut (rVersion r) (Some (tombstoneFrom r now)));
      match err with
      | Ok _ => collect_loop grace now rs (swept + 1)
      | Err e =>
        if errors_Is e ErrConflict then collect_loop grace now rs swept
        else
          ctxDone ← trigger ECtxDone;
          if (ctxDone : bool) then mret swept else collect_loop grace now rs swept
      end
  end.

Definition collect (e : TTLEnforcer) : prog storeE Z :=
  got ← trigger EList;
  match got with
  | Err _ => mret 0
  | Ok records =>
    now ← trigger ENow;
    collect_loop (gcGrace e) now records 0
  end.

(** ** The loop *)

(** The ticker and the context, next to the store. *)
Inductive gcE : Type → Type :=
| GStore {X : Type} (e : storeE X) : gcE X
| GSelect : gcE (option error).

(** [Run] for at most [fuel] wake-ups: the context's error, or [None] when it is
    still running. *)
Fixpoint gc_Run (fuel : nat) (e : TTLEnforcer) : prog gcE (option error) :=
  match fuel with
  | O => mret None
  | S fuel =>
    done ← trigger GSelect;
    match done with
    | Some err => mret (Some err)
    | None => _ ← lift (@GStore) (collect e); gc_Run fuel e
    end
  end.
