(* ===== verification/RFC1123.v ===== *)
(** * A concrete RFC 1123 validator

    [k8s.io/apimachinery] is not part of the repository, so the development
    takes its two checks as a parameter ([DNSValidation]) and their documented
    behaviour as hypotheses ([DNSValidationLaws]). This file shows that the
    hypotheses can hold: an executable validator that satisfies them, used by
    every concrete run of the development. *)

From S2P Require Import Prelude GoStrings Store.

Fixpoint last_char (s : string) : option ascii :=
  match s with
  | EmptyString => None
  | String c EmptyString => Some c
  | String _ s' => last_char s'
  end.

Definition alnum_ends (s : string) : bool :=
  match s, last_char s with
  | String c _, Some d => dns_alnum c && dns_alnum d
  | _, _ => false
  end.

(** [[a-z0-9]([-a-z0-9]*[a-z0-9])?] *)
Definition label_syntax (s : string) : bool := alnum_ends s && string_all dns_label_char s.

(** Dot-separated labels; [cur] is the label read so far, reversed. *)
Fixpoint subdomain_syntax (cur s : string) : bool :=
  match s with
  | EmptyString => label_syntax cur
  | String c s' =>
      if c == "."%char then label_syntax cur && subdomain_syntax "" s'
      else subdomain_syntax (String c cur) s'
  end.

#[export] Instance rfc1123 : DNSValidation := {|
  IsDNS1123Label s :=
    (if len s <=? DNS1123LabelMaxLength then [] else ["must be no more than 63 characters"]) ++
    (if label_syntax s then [] else ["a lowercase RFC 1123 label is required"]);
  IsDNS1123Subdomain s :=
    (if len s <=? DNS1123SubdomainMaxLength then [] else ["must be no more than 253 characters"]) ++
    (if subdomain_syntax "" s then [] else ["a lowercase RFC 1123 subdomain is required"]) |}.

Lemma subdomain_syntax_cur cur s :
  subdomain_syntax cur s = true → string_all dns_label_char cur = true.
Proof.
  revert cur. induction s as [|c s IH]; intros cur; cbn; unfold label_syntax.
  - intros. by bool_simp.
  - case_bool_decide; intros Hs; [by bool_simp|]. apply IH in Hs. cbn in Hs. by bool_simp.
Qed.

Lemma subdomain_syntax_chars cur s :
  subdomain_syntax cur s = true → string_all dns_subdomain_char s = true.
Proof.
  revert cur. induction s as [|c s IH]; intros cur; cbn; [done|].
  case_bool_decide as Hc; intros Hs.
  - subst c. bool_simp. by eapply IH.
  - rewrite (IH _ Hs), andb_true_r. apply subdomain_syntax_cur in Hs. cbn in Hs.
    bool_simp. unfold dns_subdomain_char. by apply orb_true_iff; left.
Qed.

#[export] Instance rfc1123_laws : DNSValidationLaws.
Proof.
  split; intros s; cbn; intros H; apply app_eq_nil in H as [H1 H2].
  - destruct (len s <=? _) eqn:El; [|done]. destruct (label_syntax s) eqn:E; [|done].
    unfold label_syntax, DNS1123LabelMaxLength in *. bool_simp.
    split_and!; [by intros ->|lia|done].
  - destruct (len s <=? _) eqn:El; [|done]. destruct (subdomain_syntax "" s) eqn:E; [|done].
    unfold DNS1123SubdomainMaxLength in *.
    split_and!; [by intros ->|lia|by eapply subdomain_syntax_chars].
  - destruct (subdomain_syntax "" s) eqn:E; [|done]. destruct s as [|c s]; [done|]. cbn in *.
    destruct (decide (c = "."%char)) as [->|Hc]; [by rewrite bool_decide_true in E|].
    by rewrite bool_decide_false.
Qed.

Example rfc1123_accepts : ValidateKey (MkKey "pipeline" "ingest-worker.v2") = Ok ().
Proof. reflexivity. Qed.

Example rfc1123_rejects_dotted_namespace :
  is_ok (ValidateKey (MkKey "pipe.line" "ingest-worker")) = false.
Proof. reflexivity. Qed.
