(* ===== verification/Coordination.v ===== *)
(** * Concurrent lease operations

    Any number of API-server replicas run [Acquire], [Renew], [Release] and
    garbage-collection sweeps against one shared store. Each request is a
    thread; the threads interleave at every store operation, may stop forever
    (a crashed replica) and see failing and lost answers. The clocks of the
    replicas differ from real time by at most [skew]. *)

From S2P Require Import Prelude Store MemStore Manager TTL.

(** ** Requests as programs *)

Inductive op :=
| OAcquire (key : Key) (holder : string) (ttl : Z)
| ORenew (key : Key) (holder : string) (token ttl : Z)
| ORelease (key : Key) (holder : string) (token : Z)
| OSweep (e : TTLEnforcer).

Inductive out :=
| OutLease (res : result AcquireResult)
| OutReleased (res : result unit)
| OutSwept (n : Z).

Definition op_prog `{DNSValidation} (o : op) : prog storeE out :=
  match o with
  | OAcquire key holder ttl => r ← Acquire key holder ttl; mret (OutLease r)
  | ORenew key holder token ttl => r ← Renew key holder token ttl; mret (OutLease r)
  | ORelease key holder token => r ← Release key holder token; mret (OutReleased r)
  | OSweep e => n ← collect e; mret (OutSwept n)
  end.

(** ** The permitted changes of a record *)

(** The specification of the lease protocol: how one record may follow another
    under a key. [r] is the record as the operation issued it, its [RenewedAt]
    the clock reading the operation decided on. *)
Inductive transition (o : op) : option LeaseRecord → LeaseRecord → Prop :=
| TCreate r :
    o = OAcquire (rKey r) (rHolder r) (rTTL r) → rHolder r ≠ "" →
    rFencingToken r = 1 → rAcquiredAt r = rRenewedAt r →
    transition o None r
| TKeep p r :
    o = OAcquire (rKey r) (rHolder r) (rTTL r) ∨
    o = ORenew (rKey r) (rHolder r) (rFencingToken r) (rTTL r) →
    rKey r = rKey p → rHolder r = rHolder p → rHolder r ≠ "" →
    rFencingToken r = rFencingToken p → rAcquiredAt r = rAcquiredAt p →
    Expired p (rRenewedAt r) = false →
    transition o (Some p) r
| TClaim p r :
    o = OAcquire (rKey r) (rHolder r) (rTTL r) → rKey r = rKey p → rHolder r ≠ "" →
    Tombstone p = true ∨ Expired p (rRenewedAt r) = true →
    rFencingToken p ≠ MaxInt32 → rFencingToken r = wrap32 (rFencingToken p + 1) →
    rAcquiredAt r = rRenewedAt r →
    transition o (Some p) r
| TRelease p r :
    o = ORelease (rKey p) (rHolder p) (rFencingToken p) → rHolder p ≠ "" →
    r = tombstoneFrom p (rRenewedAt r) →
    transition o (Some p) r
| TSweep e p r :
    o = OSweep e → rHolder p ≠ "" → ExpiresAt p + gcGrace e ≤ rRenewedAt r →
    r = tombstoneFrom p (rRenewedAt r) →
    transition o (Some p) r.

(** ** What each program guarantees *)

(** What a program has learned: the records it read, the clock readings it
    took, each with the records it had read by then, and the records it was
    told were written. *)
Record ghost := MkGhost {
  g_seen : list LeaseRecord;
  g_nows : list (Z * list LeaseRecord);
  g_mine : list LeaseRecord }.

Definition ghost0 : ghost := MkGhost [] [] [].

Definition learn (g : ghost) {X} (e : storeE X) : X → ghost :=
  match e with
  | EGet _ => λ res, match res with
      | Ok r => MkGhost (r :: g_seen g) (g_nows g) (g_mine g) | Err _ => g end
  | EList => λ res, match res with
      | Ok l => MkGhost (l ++ g_seen g) (g_nows g) (g_mine g) | Err _ => g end
  | EPut _ (Some r) => λ res, match res with
      | Ok _ => MkGhost (g_seen g) (g_nows g) (r :: g_mine g) | Err _ => g end
  | ENow => λ t, MkGhost (g_seen g) ((t, g_seen g) :: g_nows g) (g_mine g)
  | _ => λ _, g
  end.

(** A write names the version of a record the program read (or creates), and
    is a permitted change of exactly that record at a clock reading it took
    after it had read the record. *)
Definition issue_ok (o : op) (g : ghost) {X} (e : storeE X) : Prop :=
  match e with
  | EPut v (Some r) =>
      ∃ seen, (rRenewedAt r, seen) ∈ g_nows g ∧
      ((v = 0 ∧ transition o None r) ∨
       ∃ p, p ∈ seen ∧ v = rVersion p ∧ rKey r = rKey p ∧ transition o (Some p) r)
  | _ => True
  end.

Definition answer_ok {X} (e : storeE X) : X → Prop :=
  match e with
  | EGet k => λ res, match res with Ok r => rKey r = k | Err _ => True end
  | _ => λ _, True
  end.

Fixpoint guar {A} (o : op) (g : ghost) (Q : ghost → A → Prop) (p : prog storeE A) : Prop :=
  match p with
  | Ret a => Q g a
  | Op e k => issue_ok o g e ∧ ∀ x, answer_ok e x → guar o (learn g e x) Q (k x)
  end.

Lemma guar_mono {A} o (Q Q' : ghost → A → Prop) p g :
  (∀ g a, Q g a → Q' g a) → guar o g Q p → guar o g Q' p.
Proof.
  intros HQ. revert g. induction p as [a|X e k IH]; cbn; [by auto|].
  intros g [Hi Hk]. split; [done|]. intros x Hx. by apply IH, Hk.
Qed.

Lemma guar_bind {A B} o (Q : ghost → B → Prop) (p : prog storeE A) (f : A → prog storeE B) g :
  guar o g (λ g a, guar o g Q (f a)) p → guar o g Q (p ≫= f).
Proof.
  revert g. induction p as [a|X e k IH]; cbn; [done|].
  intros g [Hi Hk]. split; [done|]. intros x Hx. by apply IH, Hk.
Qed.

(** A result that says "acquired" describes a record the program wrote. *)
Definition backed (key : Key) (g : ghost) (res : result AcquireResult) : Prop :=
  match res with
  | Ok a => aAcquired a = true → ∃ r, r ∈ g_mine g ∧ rKey r = key ∧
      rHolder r = aHolder a ∧ rFencingToken r = aFencingToken a ∧
      ExpiresAt r = aExpiresAt a ∧ rAcquiredAt r = aAcquiredAt a
  | Err _ => True
  end.

Definition out_ok (o : op) (g : ghost) (x : out) : Prop :=
  match o, x with
  | OAcquire key holder _, OutLease res =>
      backed key g res ∧ ∀ a, res = Ok a → aAcquired a = true → aHolder a = holder
  | ORenew key holder token _, OutLease res =>
      backed key g res ∧
      ∀ a, res = Ok a → aAcquired a = true → aHolder a = holder ∧ aFencingToken a = token
  | ORelease _ _ _, OutReleased _ => True
  | OSweep _, OutSwept _ => True
  | _, _ => False
  end.

Section guarantees.
Context `{DNSValidation}.

Lemma acquire_plan_transition key holder ttl now cur expected token acquiredAt :
  holder ≠ "" → from_option rKey key cur = key →
  acquire_plan holder now cur = PlanWrite expected token acquiredAt →
  expected = from_option rVersion 0 cur ∧
  transition (OAcquire key holder ttl) cur
    (MkRecord key holder ttl acquiredAt now token 0).
Proof.
  intros Hne Hk. destruct cur as [p|]; cbn in *.
  - destruct (_ && _) eqn:E1; [|destruct (_ || _) eqn:E2; [|done]].
    + intros [= <- <- <-]. bool_simp. split; [done|]. apply TKeep; naive_solver.
    + destruct (Z.eqb_spec (rFencingToken p) MaxInt32); [done|]. intros [= <- <- <-].
      split; [done|]. apply TClaim; try done. by apply orb_true_iff.
  - intros [= <- <- <-]. split; [done|]. by apply TCreate.
Qed.

Lemma acquire_plan_held holder now cur res :
  acquire_plan holder now cur = PlanHeld res →
  ∃ p, cur = Some p ∧ res = lost_to p ∧
    rHolder p ≠ "" ∧ rHolder p ≠ holder ∧ Expired p now = false.
Proof.
  destruct cur as [p|]; cbn; [|done].
  destruct (_ && _) eqn:E1; [done|]. destruct (_ || _) eqn:E2; [by case_match|].
  intros [= <-]. apply orb_false_iff in E2 as [E2 E3]. rewrite E3 in E1.
  exists p. unfold Tombstone in E2. bool_simp. rewrite andb_true_r in E1. by bool_simp.
Qed.

Lemma guar_acquire_loop n key holder ttl g :
  holder ≠ "" →
  guar (OAcquire key holder ttl) g
    (λ g res, backed key g res ∧ ∀ a, res = Ok a → aAcquired a = true → aHolder a = holder)
    (acquire_loop n key holder ttl).
Proof.
  intros Hne. revert g. induction n as [|n IH]; intros g; [by split|].
  cbn. split; [done|]. intros got Hgot.
  destruct (cur_of got) as [cur|e] eqn:Ecur; [|by split].
  cbn. split; [done|]. intros now _.
  destruct (acquire_plan holder now cur) as [expected token acquiredAt|res|] eqn:Eplan;
    [|cbn|by split].
  2:{ apply acquire_plan_held in Eplan as (p & _ & -> & _). by split; [|intros ? [= <-]]. }
  assert (from_option rKey key cur = key) as Hk.
  { destruct got; cbn in *; repeat case_match; by simplify_eq. }
  apply (acquire_plan_transition key _ ttl) in Eplan as [-> Ht]; [|done..].
  cbn. split.
  - eexists. split; [apply list_elem_of_here|].
    destruct cur as [p|]; [right|by left].
    exists p. destruct got; cbn in *; [|by case_match]. simplify_eq.
    split_and!; [set_solver|done..].
  - intros [[]|e] _; cbn; [|destruct (errors_Is e ErrConflict); [apply IH|by split]].
    split; [|by intros ? [= <-]].
    intros _. eexists; split; [apply list_elem_of_here|done].
Qed.

Lemma guar_Renew key holder token ttl g :
  guar (ORenew key holder token ttl) g (λ g res, backed key g res ∧
      ∀ a, res = Ok a → aAcquired a = true → aHolder a = holder ∧ aFencingToken a = token)
    (Renew key holder token ttl).
Proof.
  unfold Renew. destruct (ValidateKey key); [|done].
  destruct (ValidateHolder holder) eqn:Eh; [|done]. case_match; [done|]. case_match; [done|].
  cbn. split; [done|]. intros [cur|e] Hk; cbn in *.
  2:{ case_match; cbn; [|done]. by split; [|intros ? [= <-]]. }
  split; [done|]. intros now _.
  destruct (_ || _) eqn:E1; cbn; [by split; [|intros ? [= <-]]|].
  bool_simp. subst key holder. assert (rFencingToken cur = token) as <- by lia.
  split.
  - eexists. split; [apply list_elem_of_here|]. right. exists cur. split_and!; [set_solver|done..|].
    apply TKeep; cbn; try done; [by right|]. intros Hne. by rewrite Hne in Eh.
  - intros [[]|e] _; cbn.
    + split; [|by intros ? [= <-]]. intros _. eexists. split; [apply list_elem_of_here|done].
    + case_match; cbn; [|done]. split; [done|]. intros got _. by split; [|intros ? [= <-]].
Qed.

Lemma guar_Release key holder token g :
  guar (ORelease key holder token) g (λ _ _, True) (Release key holder token).
Proof.
  unfold Release. destruct (ValidateKey key); [|done]. case_bool_decide; [done|].
  cbn. split; [done|]. intros [cur|e] Hk; cbn in *; [|by case_match].
  destruct (Tombstone cur) eqn:Et; [done|].
  destruct (_ || _) eqn:E1; [done|]. cbn. split; [done|]. intros now _. cbn.
  bool_simp. subst key holder. assert (rFencingToken cur = token) as <- by lia.
  split; [|by intros [[]|e] _; [|cbn; case_match]].
  eexists. split; [apply list_elem_of_here|]. right. exists cur. split_and!; [set_solver|done..|].
  by apply TRelease.
Qed.

Lemma guar_collect_loop e now rs swept seen g :
  (now, seen) ∈ g_nows g → (∀ r, r ∈ rs → r ∈ seen) →
  guar (OSweep e) g (λ _ _, True) (collect_loop (gcGrace e) now rs swept).
Proof.
  intros Hnow. revert swept g Hnow. induction rs as [|r rs IH]; intros swept g Hnow Hrs; [done|].
  cbn. destruct (gc_skip _ _ r) eqn:Es.
  { apply IH; [done|]. intros r' Hr'. apply Hrs. set_solver. }
  apply orb_false_iff in Es as [Et Eb]. unfold Tombstone, Before in *. bool_simp.
  cbn. split.
  - exists seen. split; [done|]. right. exists r. split_and!; [set_solver|done..|].
    eapply TSweep; [done..| |done]. cbn. lia.
  - intros [[]|e'] _; cbn.
    + apply IH; [done|]. intros r' Hr'. apply Hrs. set_solver.
    + case_match; cbn.
      * apply IH; [done|]. intros r' Hr'. apply Hrs. set_solver.
      * split; [done|]. intros [] _; [done|]. apply IH; [done|].
        intros r' Hr'. apply Hrs. set_solver.
Qed.

Lemma guar_collect e g : guar (OSweep e) g (λ _ _, True) (collect e).
Proof.
  cbn. split; [done|]. intros [rs|e'] _; [|done]. cbn. split; [done|]. intros now _.
  eapply guar_collect_loop; [apply list_elem_of_here|]. cbn. set_solver.
Qed.

(** Each request issues only permitted writes, and its answer is backed. *)
Lemma guar_op o : guar o ghost0 (out_ok o) (op_prog o).
Proof.
  destruct o as [key holder ttl|key holder token ttl|key holder token|e]; apply guar_bind.
  - apply (guar_mono _ (λ g res, backed key g res ∧
      ∀ a, res = Ok a → aAcquired a = true → aHolder a = holder)); [done|].
    unfold Acquire. destruct (ValidateKey key); [|done].
    destruct (ValidateHolder holder) eqn:Eh; [|done]. case_match; [done|].
    apply guar_acquire_loop. by intros ->.
  - eapply guar_mono, guar_Renew. done.
  - eapply guar_mono, guar_Release. done.
  - eapply guar_mono, guar_collect. done.
Qed.
End guarantees.

(** ** The system *)

Record wev := MkWev {
  w_thread : nat;
  w_op : op;
  w_prev : option LeaseRecord;   (** what the store held under the key *)
  w_issued : LeaseRecord;        (** what the operation asked to write *)
  w_stored : LeaseRecord;        (** what the store holds afterwards *)
  w_clock : Z }.                 (** real time of the write *)

Inductive label :=
| LStart (i : nat) (o : op)
| LTau (i : nat)
| LWrite (w : wev)
| LDone (i : nat) (o : op) (x : out)
| LTick (t : Z).

(** A request in progress, with the real time at which it was started. *)
Record thread := MkThread { t_op : op; t_prog : prog storeE out; t_started : Z }.

Record sys := MkSys {
  s_store : gmap Key LeaseRecord;
  s_pool : gmap nat thread;
  s_clock : Z }.

Definition init (t : Z) : sys := MkSys ∅ ∅ t.

Definition is_write {X} (e : storeE X) : X → bool :=
  match e with
  | EPut _ (Some _) => λ res, is_ok res
  | _ => λ _, false
  end.

Section system.
Context `{DNSValidation} (norm : LeaseRecord → LeaseRecord) `{!NormOK norm} (skew : Z).

(** A replica's clock reading is within [skew] of real time. *)
Definition clock_ok (clock : Z) {X} (e : storeE X) : X → Prop :=
  match e with
  | ENow => λ t, Z.abs (t - clock) ≤ skew
  | _ => λ _, True
  end.

Inductive step : sys → label → sys → Prop :=
| step_start m pool c i o :
    pool !! i = None →
    step (MkSys m pool c) (LStart i o) (MkSys m (<[i := MkThread o (op_prog o) c]> pool) c)
| step_tau m pool c i o st X (e : storeE X) k x :
    pool !! i = Some (MkThread o (Op e k) st) →
    store_step norm m e x m → clock_ok c e x → is_write e x = false →
    step (MkSys m pool c) (LTau i) (MkSys m (<[i := MkThread o (k x) st]> pool) c)
| step_write m pool c i o st v r k x :
    pool !! i = Some (MkThread o (Op (EPut v (Some r)) k) st) →
    put_pred m v (rKey r) →
    store_step norm m (EPut v (Some r)) x (<[rKey r := stored norm v r]> m) →
    step (MkSys m pool c)
      (LWrite (MkWev i o (m !! rKey r) r (stored norm v r) c))
      (MkSys (<[rKey r := stored norm v r]> m) (<[i := MkThread o (k x) st]> pool) c)
| step_done m pool c i o st x :
    pool !! i = Some (MkThread o (Ret x) st) →
    step (MkSys m pool c) (LDone i o x) (MkSys m (delete i pool) c)
| step_tick m pool c t :
    c ≤ t → step (MkSys m pool c) (LTick t) (MkSys m pool t).

(** The writes to a key, oldest first. *)
Definition wlog (k : Key) (tr : list label) : list wev :=
  omap (λ l, match l with
    | LWrite w => if bool_decide (rKey (w_stored w) = k) then Some w else None
    | _ => None end) tr.

Lemma wlog_snoc k tr l : wlog k (tr ++ [l]) = wlog k tr ++ wlog k [l].
Proof. apply omap_app. Qed.

Lemma wlog_length k tr : (length (wlog k tr) ≤ length tr)%nat.
Proof.
  unfold wlog. induction tr as [|l tr IH]; cbn; [done|]. repeat case_match; cbn; lia.
Qed.

Lemma elem_of_wlog k w tr : w ∈ wlog k tr ↔ LWrite w ∈ tr ∧ rKey (w_stored w) = k.
Proof.
  unfold wlog. rewrite list_elem_of_omap. split.
  - intros (l & Hl & Hw). destruct l; try done. case_bool_decide; by simplify_eq.
  - intros [Hl Hk]. exists (LWrite w). split; [done|]. by rewrite bool_decide_true.
Qed.

(** The history of a key: the [i]-th write stores version [i + 1], starts from
    what the [i - 1]-th left, and is a permitted change of it. *)
Record wev_ok (log : list wev) (i : nat) (w : wev) : Prop := {
  wo_version : rVersion (w_stored w) = Z.of_nat i + 1;
  wo_prev : w_prev w = match i with O => None | S j => w_stored <$> log !! j end;
  wo_stored : w_stored w = set_version (Z.of_nat i + 1) (norm (w_issued w));
  wo_change : transition (w_op w) (w_prev w) (w_issued w);
  wo_clock : rRenewedAt (w_issued w) ≤ w_clock w + skew;
  (** The clock was read after the record replaced was written. *)
  wo_fresh : ∀ j p, i = S j → log !! j = Some p →
    w_clock p ≤ w_clock w ∧ w_clock p - skew ≤ rRenewedAt (w_issued w) }.

Definition log_ok (log : list wev) : Prop := ∀ i w, log !! i = Some w → wev_ok log i w.

(** The thread [i] behaves as [guar] says, and what it knows is true. *)
Record thread_ok (tr : list label) (c : Z) (i : nat) (t : thread) (g : ghost) : Prop := {
  to_guar : guar (t_op t) g (out_ok (t_op t)) (t_prog t);
  to_seen : ∀ r, r ∈ g_seen g → ∃ w, w ∈ wlog (rKey r) tr ∧ w_stored w = r;
  to_nows : ∀ t' seen, (t', seen) ∈ g_nows g →
    t_started t - skew ≤ t' ≤ c + skew ∧
    ∀ r, r ∈ seen → ∃ w, w ∈ wlog (rKey r) tr ∧ w_stored w = r ∧ w_clock w - skew ≤ t';
  to_mine : ∀ r, r ∈ g_mine g →
    ∃ w, LWrite w ∈ tr ∧ w_thread w = i ∧ w_op w = t_op t ∧ w_issued w = r ∧
      t_started t - skew ≤ rRenewedAt r ∧ t_started t ≤ w_clock w;
  to_started : t_started t ≤ c }.

Definition done_ok (tr : list label) (l : label) : Prop :=
  match l with
  | LDone i o x => ∃ g, out_ok o g x ∧ ∀ r, r ∈ g_mine g →
      ∃ w, LWrite w ∈ tr ∧ w_thread w = i ∧ w_op w = o ∧ w_issued w = r
  | _ => True
  end.

Record inv (tr : list label) (s : sys) : Prop := {
  inv_keyed : keyed (s_store s);
  inv_log : ∀ k, log_ok (wlog k tr);
  inv_last : ∀ k, s_store s !! k = w_stored <$> last (wlog k tr);
  inv_pool : ∀ i t, s_pool s !! i = Some t → ∃ g, thread_ok tr (s_clock s) i t g;
  inv_done : ∀ l, l ∈ tr → done_ok tr l;
  inv_clock : ∀ w, LWrite w ∈ tr → w_clock w ≤ s_clock s }.

Lemma init_inv t : inv [] (init t).
Proof. split; cbn; try done; set_solver. Qed.

Lemma wlog_quiet k tr l :
  (∀ w, l ≠ LWrite w) → wlog k (tr ++ [l]) = wlog k tr.
Proof. intros Hl. rewrite wlog_snoc. destruct l; try apply app_nil_r. by destruct (Hl w). Qed.

Lemma thread_ok_mono tr l c c' i t g :
  c ≤ c' → thread_ok tr c i t g → thread_ok (tr ++ [l]) c' i t g.
Proof.
  intros Hc [Hg Hs Hn Hm Hst]. split; [done|..|lia].
  - intros r (w & Hw & <-)%Hs. exists w. rewrite wlog_snoc. set_solver.
  - intros t' seen [Ht' Hseen]%Hn. split; [lia|]. intros r (w & Hw & ?)%Hseen.
    exists w. rewrite wlog_snoc. set_solver.
  - intros r (w & Hw & ?)%Hm. exists w. set_solver.
Qed.

Lemma done_ok_mono tr l l' : done_ok tr l → done_ok (tr ++ [l']) l.
Proof.
  destruct l; try done. intros (g & Ho & Hg). exists g. split; [done|].
  intros r (w & Hw & ?)%Hg. exists w. set_solver.
Qed.

(** The parts of the invariant a step that writes nothing must restore. *)
Lemma quiet_inv tr l m pool pool' c c' :
  inv tr (MkSys m pool c) → (∀ w, l ≠ LWrite w) → c ≤ c' → done_ok (tr ++ [l]) l →
  (∀ i t, pool' !! i = Some t → pool !! i = Some t ∨ ∃ g, thread_ok (tr ++ [l]) c' i t g) →
  inv (tr ++ [l]) (MkSys m pool' c').
Proof.
  intros [Hk Hlog Hlast Hpool Hdone Hclk] Hl Hc Hd Hp. split; cbn in *.
  - done.
  - intros k. by rewrite wlog_quiet.
  - intros k. by rewrite wlog_quiet.
  - intros i t [Ht|?]%Hp; [|done]. destruct (Hpool _ _ Ht) as [g Hg].
    exists g. by eapply thread_ok_mono.
  - intros l' [Hl'| ->%list_elem_of_singleton]%elem_of_app; [|done].
    by apply done_ok_mono, Hdone.
  - intros w [Hw%Hclk|Hw%list_elem_of_singleton]%elem_of_app; [lia|]. by destruct (Hl w).
Qed.

Lemma current_in_log tr s k r :
  inv tr s → s_store s !! k = Some r →
  rKey r = k ∧ ∃ w, w ∈ wlog k tr ∧ w_stored w = r.
Proof.
  intros Hinv Hr. split; [by eapply inv_keyed|].
  rewrite (inv_last _ _ Hinv k) in Hr.
  destruct (last (wlog k tr)) as [w|] eqn:Hw; [|done].
  apply last_Some_elem_of in Hw. exists w. by simplify_eq/=.
Qed.

(** What a thread learns from an answer of the store is true. *)
Lemma learn_ok tr m pool c i o st X (e : storeE X) k x g :
  inv tr (MkSys m pool c) → thread_ok tr c i (MkThread o (Op e k) st) g →
  store_step norm m e x m → clock_ok c e x → is_write e x = false →
  thread_ok tr c i (MkThread o (k x) st) (learn g e x).
Proof.
  intros Hinv [Hg Hs Hn Hm Hst] Hstep Hc Hw. cbn in *. destruct Hg as [_ Hk].
  split; cbn; [..|done].
  - apply Hk. destruct e as [|key| |v [r|]| |]; try done.
    destruct x as [r|]; [|done]. destruct Hstep as [_ Hr].
    by apply (current_in_log _ _ _ _ Hinv) in Hr as [? _].
  - destruct e as [|key| |v [r|]| |]; cbn in *; try done; destruct x as [x|]; try done; cbn.
    + intros r [->|Hr]%elem_of_cons; [|by apply Hs]. destruct Hstep as [_ Hr].
      apply (current_in_log _ _ _ _ Hinv) in Hr as [-> ?]. done.
    + intros r [Hr|Hr]%elem_of_app; [|by apply Hs]. destruct Hstep as [_ Hl].
      by apply Hl, (current_in_log _ _ _ _ Hinv) in Hr as [_ ?].
  - destruct e as [|key| |v [r|]| |]; cbn in *; try done; try (destruct x; by auto).
    intros t' seen [[= -> ->]|Ht']%elem_of_cons; [|by apply Hn]. split; [lia|].
    intros r (w & Hwl & Hwr)%Hs. exists w. split_and!; [done..|].
    apply elem_of_wlog in Hwl as [Hwl%(inv_clock _ _ Hinv) _]. cbn in Hwl. lia.
  - destruct e as [|key| |v [r|]| |]; cbn in *; try done; destruct x as [x|]; done.
Qed.

(** Versions are never reused, so a matching version names the record. *)
Lemma version_names tr m pool c k p w :
  inv tr (MkSys m pool c) → w ∈ wlog k tr → w_stored w = p →
  put_pred m (rVersion p) k →
  m !! k = Some p ∧ rVersion p = Z.of_nat (length (wlog k tr)) ∧ last (wlog k tr) = Some w.
Proof.
  intros Hinv Hw <- Hp. apply list_elem_of_lookup in Hw as [j Hj].
  pose proof (wo_version _ _ _ (inv_log _ _ Hinv k _ _ Hj)) as Hv.
  pose proof (inv_last _ _ Hinv k) as Hlast; cbn in Hlast.
  unfold put_pred in Hp. rewrite (proj2 (Z.eqb_neq _ 0)) in Hp by lia.
  rewrite Hlast in Hp |- *. destruct (last (wlog k tr)) as [w'|] eqn:E; [|done].
  rewrite last_lookup in E. pose proof (lookup_lt_Some _ _ _ E).
  pose proof (wo_version _ _ _ (inv_log _ _ Hinv k _ _ E)) as Hv'.
  assert (rVersion (w_stored w') = rVersion (w_stored w)) as Heq by by simplify_eq/=.
  assert (j = pred (length (wlog k tr))) as -> by lia. simplify_eq/=. split_and!; [done|lia|done].
Qed.

(** A write whose predicate holds changes exactly the record it was computed
    from. *)
Lemma write_current tr m pool c v r o st g i k0 :
  inv tr (MkSys m pool c) → thread_ok tr c i (MkThread o (Op (EPut v (Some r)) k0) st) g →
  put_pred m v (rKey r) →
  v = Z.of_nat (length (wlog (rKey r) tr)) ∧ transition o (m !! rKey r) r ∧
  st - skew ≤ rRenewedAt r ≤ c + skew ∧
  (∀ w, last (wlog (rKey r) tr) = Some w → w_clock w ≤ c ∧ w_clock w - skew ≤ rRenewedAt r).
Proof.
  intros Hinv [[(seen & Hnow & Hiss) _] Hs Hn _ _] Hp.
  apply Hn in Hnow as [Hnow Hseen]. cbn in *.
  destruct Hiss as [[-> Ht]|(p & (w & Hw & Hwp & Hwc)%Hseen & -> & Hpk & Ht)].
  - cbn in Hp. pose proof (inv_last _ _ Hinv (rKey r)) as Hlast; cbn in Hlast.
    rewrite Hp in Hlast |- *. destruct (last _) eqn:E; [done|].
    apply last_None in E as E'. by rewrite E'.
  - rewrite <- Hpk in Hw.
    destruct (version_names _ _ _ _ _ _ _ Hinv Hw Hwp Hp) as (-> & -> & Hlw).
    split_and!; [done|done|lia..|]. intros w' Hw'. simplify_eq. split; [|done].
    apply elem_of_wlog in Hw as [Hw%(inv_clock _ _ Hinv) _]. done.
Qed.

Lemma log_ok_snoc log w :
  log_ok log → wev_ok log (length log) w → log_ok (log ++ [w]).
Proof.
  intros Hlog Hw i w' Hi. apply lookup_app_Some in Hi as [Hi|[Hlen Hi]].
  - pose proof (lookup_lt_Some _ _ _ Hi). destruct (Hlog _ _ Hi) as [? Hp ? ? ? Hf].
    split; try done.
    + rewrite Hp. destruct i; [done|]. by rewrite lookup_app_l by lia.
    + intros j p ->. rewrite lookup_app_l by lia. by apply Hf.
  - apply list_lookup_singleton_Some in Hi as [Hi ->].
    assert (i = length log) as -> by lia. destruct Hw as [? Hp ? ? ? Hf].
    split; try done.
    + rewrite Hp. destruct (length log) eqn:E; [done|]. by rewrite lookup_app_l by lia.
    + intros j p E. rewrite lookup_app_l by lia. by apply Hf.
Qed.

Lemma last_as_prev (log : list wev) :
  w_stored <$> last log = match length log with O => None | S j => w_stored <$> log !! j end.
Proof. rewrite last_lookup. by destruct log. Qed.

Lemma write_inv tr m pool c i o st v r k x :
  inv tr (MkSys m pool c) → Z.of_nat (length tr) < MaxInt64 →
  pool !! i = Some (MkThread o (Op (EPut v (Some r)) k) st) → put_pred m v (rKey r) →
  inv (tr ++ [LWrite (MkWev i o (m !! rKey r) r (stored norm v r) c)])
    (MkSys (<[rKey r := stored norm v r]> m) (<[i := MkThread o (k x) st]> pool) c).
Proof.
  intros Hinv Hlen Hi Hp. set (w := MkWev i o (m !! rKey r) r (stored norm v r) c).
  destruct (inv_pool _ _ Hinv _ _ Hi) as [g Hg].
  destruct (write_current _ _ _ _ _ _ _ _ _ _ _ Hinv Hg Hp) as (Hv & Ht & Hnow & Hlw).
  assert (rKey (stored norm v r) = rKey r) as Hkey by by apply stored_key.
  assert (wlog (rKey r) [LWrite w] = [w]) as Hw1.
  { cbn. by rewrite bool_decide_true. }
  assert (∀ k', k' ≠ rKey r → wlog k' [LWrite w] = []) as Hw2.
  { intros k' Hk'. cbn in Hkey |- *. by rewrite bool_decide_false by congruence. }
  split; cbn.
  - rewrite <- Hkey. apply keyed_insert, (inv_keyed _ _ Hinv).
  - intros k'. rewrite wlog_snoc. destruct (decide (k' = rKey r)) as [->|Hk'].
    + rewrite Hw1. apply log_ok_snoc; [apply (inv_log _ _ Hinv)|].
      pose proof (wlog_length (rKey r) tr).
      assert (rVersion (stored norm v r) = Z.of_nat (length (wlog (rKey r) tr)) + 1) as Hver.
      { cbn. rewrite <- Hv. apply wrap64_id. unfold int64, MinInt64, MaxInt64 in *. lia. }
      split; try done; cbn; [..|lia|].
      * rewrite <- last_as_prev. apply (inv_last _ _ Hinv).
      * unfold stored. by rewrite <- Hver.
      * intros j p Hj Hp'. apply Hlw. by rewrite last_lookup, Hj.
    + rewrite Hw2, app_nil_r by done. apply (inv_log _ _ Hinv).
  - intros k'. rewrite wlog_snoc. destruct (decide (k' = rKey r)) as [->|Hk'].
    + by rewrite Hw1, last_snoc, lookup_insert_eq.
    + rewrite Hw2, app_nil_r, lookup_insert_ne by done. apply (inv_last _ _ Hinv).
  - intros i' t'. rewrite lookup_insert. case_decide as Hi'.
    + intros [= <-]. subst i'. exists (learn g (EPut v (Some r)) x).
      apply (thread_ok_mono _ (LWrite w) c c) in Hg; [|lia]. destruct Hg as [[_ Hg] Hs Hn Hm Hst].
      split; [by apply Hg|by destruct x..| |done].
      intros r'. destruct x as [[]|e]; cbn; [|by apply Hm].
      intros [->|Hr']%elem_of_cons; [|by apply Hm]. exists w.
      split_and!; [set_solver|done..|lia|done].
    + intros Ht'. destruct (inv_pool _ _ Hinv _ _ Ht') as [g' Hg'].
      exists g'. by apply (thread_ok_mono _ (LWrite w) c c).
  - intros l [Hl| ->%list_elem_of_singleton]%elem_of_app; [|done].
    by apply done_ok_mono, (inv_done _ _ Hinv).
  - intros w' [Hw'%(inv_clock _ _ Hinv)|Hw'%list_elem_of_singleton]%elem_of_app; [done|].
    by injection Hw' as ->.
Qed.

Lemma step_inv tr s l s' :
  inv tr s → Z.of_nat (length tr) < MaxInt64 → step s l s' → inv (tr ++ [l]) s'.
Proof.
  intros Hinv Hlen Hstep. destruct Hstep as
    [m pool c i o Hi|m pool c i o st X e k x Hi Hst Hc Hw|m pool c i o st v r k x Hi Hp Hst
    |m pool c i o st x Hi|m pool c t Ht].
  - eapply quiet_inv; [done..|lia|done|]. intros i' t'. rewrite lookup_insert.
    case_decide; [|by left]. intros [= <-]. right. exists ghost0. subst.
    split; cbn; try set_solver. apply guar_op.
  - eapply quiet_inv; [done..|lia|done|]. intros i' t'. rewrite lookup_insert.
    case_decide; [|by left]. intros [= <-]. right. subst.
    destruct (inv_pool _ _ Hinv _ _ Hi) as [g Hg].
    exists (learn g e x). eapply thread_ok_mono; [reflexivity|]. by eapply learn_ok.
  - by apply write_inv.
  - destruct (inv_pool _ _ Hinv _ _ Hi) as [g [Hg _ _ Hm _]].
    eapply quiet_inv; [done..|lia| |].
    + exists g. split; [done|]. intros r (w & Hw & ? & ? & ? & _)%Hm. exists w. set_solver.
    + intros i' t'. rewrite lookup_delete. case_decide; [done|by left].
  - eapply quiet_inv; [done..|]. by left.
Qed.

(** Every execution from an empty store satisfies the invariant, as long as
    it is shorter than the range of the version counter. *)
Lemma reachable_inv t0 tr s :
  steps step (init t0) tr s → Z.of_nat (length tr) ≤ MaxInt64 → inv tr s.
Proof.
  remember (init t0) as s0 eqn:Hs0. induction 1 as [|s1 tr s' l s'' Hsteps IH Hstep].
  - intros _. subst. apply init_inv.
  - rewrite length_app. cbn. intros Hlen. eapply step_inv; [apply IH; [done|lia]|lia|done].
Qed.
End system.
