(* ===== verification/Fencing.v ===== *)
(** * Fencing and exclusion

    What the concurrent system of [Coordination] promises: the history of a
    key is a run of the lease protocol, fencing tokens only grow and name one
    holder each, and a lease changes hands only by release or after expiry. *)

From S2P Require Import Prelude Store MemStore Manager TTL Coordination RFC1123.

(** ** An executable scheduler over the in-memory backend *)

Inductive sched := SStart (i : nat) (o : op) | SRun (i : nat) | STick (t : Z).

Definition step_label (i : nat) (o : op) (m : gmap Key LeaseRecord) (c : Z)
    {X} (e : storeE X) : X → label :=
  match e with
  | EPut v (Some r) => λ res,
      match res with
      | Ok _ => LWrite (MkWev i o (m !! rKey r) r (stored id v r) c)
      | Err _ => LTau i
      end
  | _ => λ _, LTau i
  end.

Definition exec1 `{DNSValidation} (a : sched) (s : sys) : option (label * sys) :=
  let '(MkSys m pool c) := s in
  match a with
  | SStart i o =>
      match pool !! i with
      | None => Some (LStart i o, MkSys m (<[i := MkThread o (op_prog o) c]> pool) c)
      | Some _ => None
      end
  | SRun i =>
      match pool !! i with
      | Some (MkThread o (Op e k) st) =>
          let '(x, m') := impl_handler None c e (MkMemStore m) in
          Some (step_label i o m c e x, MkSys (records m') (<[i := MkThread o (k x) st]> pool) c)
      | Some (MkThread o (Ret x) _) => Some (LDone i o x, MkSys m (delete i pool) c)
      | None => None
      end
  | STick t => if c <=? t then Some (LTick t, MkSys m pool t) else None
  end.

Fixpoint exec `{DNSValidation} (l : list sched) (s : sys) : option (list label * sys) :=
  match l with
  | [] => Some ([], s)
  | a :: l =>
      match exec1 a s with
      | Some (lb, s') =>
          match exec l s' with Some (tr, s'') => Some (lb :: tr, s'') | None => None end
      | None => None
      end
  end.

Section exec.
Context `{DNSValidation} (skew : Z).
Hypothesis Hskew : 0 ≤ skew.

Lemma exec1_keyed a s l s' : exec1 a s = Some (l, s') → keyed (s_store s) → keyed (s_store s').
Proof.
  destruct s as [m pool c]. destruct a as [i o|i|t]; cbn; intros Hex Hk.
  - destruct (pool !! i); by simplify_eq/=.
  - destruct (pool !! i) as [[o [x|X e k] st]|]; [by simplify_eq/=| |done].
    pose proof (store_refines None c X e (MkMemStore m) Hk (or_introl eq_refl)) as Hr.
    destruct (impl_handler _ _ _ _) as [x m']. simplify_eq/=. apply Hr.
  - destruct (c <=? t); by simplify_eq/=.
Qed.

Lemma exec_op_sound m pool c i o st X (e : storeE X) k x m' :
  pool !! i = Some (MkThread o (Op e k) st) → keyed m →
  impl_handler None c e (MkMemStore m) = (x, m') →
  step id skew (MkSys m pool c) (step_label i o m c e x)
    (MkSys (records m') (<[i := MkThread o (k x) st]> pool) c).
Proof.
  intros Hi Hk Hx.
  pose proof (store_refines None c X e (MkMemStore m) Hk (or_introl eq_refl)) as Hr.
  rewrite Hx in Hr. destruct Hr as [Hr _].
  destruct e as [|key| |v [r|]| |]; cbn -[mem_Put] in Hx, Hr |- *.
  4:{ rewrite mem_Put_spec in Hx. case_bool_decide; simplify_eq/=.
      - by eapply step_write.
      - eapply (step_tau _ _ _ _ _ _ _ _ _ (EPut v (Some r))); cbn; auto. }
  all: simplify_eq/=; eapply step_tau; try done; cbn; try done; try lia.
Qed.

(** The manager on [MemStore] only does what the system allows. *)
Lemma exec1_sound a s l s' :
  exec1 a s = Some (l, s') → keyed (s_store s) → step id skew s l s'.
Proof.
  destruct s as [m pool c]. destruct a as [i o|i|t]; cbn; intros Hex Hk.
  - destruct (pool !! i) eqn:Hi; simplify_eq. by apply step_start.
  - destruct (pool !! i) as [[o [x|X e k] st]|] eqn:Hi; [|clear - Hskew Hex Hk Hi|done].
    { simplify_eq. by eapply step_done. }
    destruct (impl_handler None c e (MkMemStore m)) as [x m'] eqn:Hx. simplify_eq.
    by apply exec_op_sound.
  - destruct (Z.leb_spec c t); simplify_eq. by apply step_tick.
Qed.

Lemma steps_cons s l s' tr s'' :
  step id skew s l s' → steps (step id skew) s' tr s'' → steps (step id skew) s (l :: tr) s''.
Proof.
  intros H1 H2. change (l :: tr) with ([l] ++ tr). eapply steps_app; [|done].
  change [l] with ([] ++ [l]). eauto with berth.
Qed.

Lemma exec_sound l s tr s' :
  exec l s = Some (tr, s') → keyed (s_store s) → steps (step id skew) s tr s'.
Proof.
  revert s tr. induction l as [|a l IH]; intros s tr; cbn.
  - intros [= <- <-] _. constructor.
  - destruct (exec1 a s) as [[lb s1]|] eqn:E1; [|done].
    destruct (exec l s1) as [[tr1 s2]|] eqn:E2; [|done]. intros [= <- <-] Hk.
    eapply steps_cons; [by apply exec1_sound in E1|].
    apply IH; [done|]. by eapply exec1_keyed.
Qed.
End exec.

(** ** Consequences of the protocol *)

Definition op_key (o : op) : option Key :=
  match o with
  | OAcquire k _ _ | ORenew k _ _ _ | ORelease k _ _ => Some k
  | OSweep _ => None
  end.

(** One change never lowers the token, and raises it when the lease passes to
    a live holder that did not hold it. *)
Lemma transition_token o p r :
  transition o (Some p) r → 1 ≤ rFencingToken p ≤ MaxInt32 →
  rFencingToken p ≤ rFencingToken r ≤ MaxInt32 ∧
  (rHolder r ≠ "" → rHolder r ≠ rHolder p → rFencingToken p < rFencingToken r).
Proof.
  intros Ht Hp. inversion Ht as [|p' r' ? ? ? ? Htok|p' r' ? ? ? ? Hmax Htok|p' r' ? ? Heq|? p' r' ? ? ? Heq]; subst.
  - rewrite Htok. split; [lia|done].
  - rewrite Htok, wrap32_id; [lia|]. unfold int32, MinInt32, MaxInt32 in *. lia.
  - rewrite Heq. cbn. split; [lia|done].
  - rewrite Heq. cbn. split; [lia|done].
Qed.

Lemma transition_create_token o r : transition o None r → rFencingToken r = 1.
Proof. by inversion 1. Qed.

Lemma transition_live o r prev k h ttl :
  transition o prev r → (o = OAcquire k h ttl ∨ ∃ tok, o = ORenew k h tok ttl) →
  rHolder r = h ∧ rKey r = k ∧ h ≠ "".
Proof. intros Ht [->|[tok ->]]; inversion Ht; naive_solver. Qed.

Section protocol.
Context `{DNSValidation} (norm : LeaseRecord → LeaseRecord) `{!NormOK norm} (skew : Z).

Lemma stored_as_issued log i w :
  wev_ok norm skew log i w →
  rFencingToken (w_stored w) = rFencingToken (w_issued w) ∧
  rHolder (w_stored w) = rHolder (w_issued w) ∧ rKey (w_stored w) = rKey (w_issued w).
Proof.
  intros Hw. rewrite (wo_stored _ _ _ _ _ Hw). cbn.
  by rewrite norm_token, norm_holder, norm_key.
Qed.

Lemma log_adjacent log j c b :
  log_ok norm skew log → log !! j = Some c → log !! S j = Some b →
  transition (w_op b) (Some (w_stored c)) (w_issued b).
Proof.
  intros Hlog Hc Hb. destruct (Hlog _ _ Hb) as [_ Hprev _ Hch _ _].
  rewrite Hc in Hprev. by rewrite Hprev in Hch.
Qed.

Lemma log_prev_lookup {A} (log : list A) j b :
  log !! S j = Some b → ∃ c, log !! j = Some c.
Proof. intros Hb%lookup_lt_Some. apply lookup_lt_is_Some_2. lia. Qed.

Lemma log_token_range log j b :
  log_ok norm skew log → log !! j = Some b → 1 ≤ rFencingToken (w_stored b) ≤ MaxInt32.
Proof.
  intros Hlog. revert b. induction j as [|j IH]; intros b Hb;
    pose proof (stored_as_issued _ _ _ (Hlog _ _ Hb)) as (-> & _ & _).
  - destruct (Hlog _ _ Hb) as [_ Hprev _ Hch _ _]. rewrite Hprev in Hch.
    apply transition_create_token in Hch as ->. by unfold MaxInt32.
  - destruct (log_prev_lookup _ _ _ Hb) as [c Hc]. pose proof (IH _ Hc).
    pose proof (transition_token _ _ _ (log_adjacent _ _ _ _ Hlog Hc Hb)). lia.
Qed.

(** What the [i]-th and a later write to a key say of each other. *)
Lemma log_tokens log i j a b :
  log_ok norm skew log → (i ≤ j)%nat → log !! i = Some a → log !! j = Some b →
  rFencingToken (w_stored a) ≤ rFencingToken (w_stored b) ∧
  (rHolder (w_stored b) ≠ "" → rHolder (w_stored b) ≠ rHolder (w_stored a) →
   rFencingToken (w_stored a) < rFencingToken (w_stored b)).
Proof.
  intros Hlog Hij Ha. revert b. induction Hij as [|j Hij IH]; intros b Hb.
  - simplify_eq. by split; [|].
  - destruct (log_prev_lookup _ _ _ Hb) as [c Hc]. destruct (IH _ Hc) as [IH1 IH2].
    destruct (transition_token _ _ _ (log_adjacent _ _ _ _ Hlog Hc Hb)
      (log_token_range _ _ _ Hlog Hc)) as [Ht1 Ht2].
    destruct (stored_as_issued _ _ _ (Hlog _ _ Hb)) as (Etok & Ehol & _).
    rewrite Etok, Ehol. split; [lia|]. intros Hlive Hne.
    destruct (decide (rHolder (w_issued b) = rHolder (w_stored c))) as [Heq|Hneq].
    + rewrite Heq in Hlive, Hne. specialize (IH2 Hlive Hne). lia.
    + specialize (Ht2 Hlive Hneq). lia.
Qed.
End protocol.

(** ** A concrete run *)

(** Two clusters race for one lease; the winner renews once, the loser takes
    over after expiry, the first winner's late renewal changes nothing, and a
    sweep then finds the second record expired. *)
Definition demo_key : Key := MkKey "pipeline" "ingest-worker".

Definition demo_sched : list sched :=
  [ SStart 0 (OAcquire demo_key "east" (30 * Second));
    SStart 1 (OAcquire demo_key "west" (30 * Second));
    SRun 0; SRun 1; SRun 0; SRun 1; SRun 0; SRun 1; SRun 1; SRun 1;
    SRun 0; SRun 1;
    STick (3 * Second);
    SStart 5 (ORenew demo_key "east" 1 (30 * Second));
    SRun 5; SRun 5; SRun 5; SRun 5;
    STick (34 * Second);
    SStart 2 (OAcquire demo_key "west" (30 * Second));
    SRun 2; SRun 2; SRun 2; SRun 2;
    SStart 3 (ORenew demo_key "east" 1 (30 * Second));
    SRun 3; SRun 3; SRun 3;
    STick (400 * Second);
    SStart 4 (OSweep (NewTTLEnforcer 0 0));
    SRun 4; SRun 4; SRun 4; SRun 4 ].

(** What a schedule leaves: its trace and its last state. *)
Definition sched_trace (l : list sched) (s : sys) : list label := from_option fst [] (exec l s).
Definition sched_state (l : list sched) (s : sys) : sys := from_option snd s (exec l s).
Definition sched_runs (l : list sched) (s : sys) : bool :=
  match exec l s with Some _ => true | None => false end.

Lemma sched_steps l t :
  sched_runs l (init t) = true →
  steps (step id 0) (init t) (sched_trace l (init t)) (sched_state l (init t)).
Proof.
  unfold sched_runs, sched_trace, sched_state. intros Hr.
  destruct (exec l (init t)) as [[tr s]|] eqn:E; [|done].
  apply (exec_sound 0 (Z.le_refl 0) l); [done|apply keyed_empty].
Qed.

Definition demo_trace : list label := sched_trace demo_sched (init Second).
Definition demo_state : sys := sched_state demo_sched (init Second).

Lemma demo_steps : steps (step id 0) (init Second) demo_trace demo_state.
Proof. apply sched_steps. vm_compute. reflexivity. Qed.

Lemma demo_short : Z.of_nat (length demo_trace) ≤ MaxInt64.
Proof. vm_compute. discriminate. Qed.

(** The answers the demo's clients saw. *)
Definition answers (tr : list label) : list (nat * out) :=
  omap (λ l, match l with LDone i _ x => Some (i, x) | _ => None end) tr.

Example demo_answers : answers demo_trace =
  [ (0%nat, OutLease (Ok (MkAcquireResult true "east" 1 (31 * Second) Second)));
    (1%nat, OutLease (Ok (MkAcquireResult false "east" 1 (31 * Second) Second)));
    (5%nat, OutLease (Ok (MkAcquireResult true "east" 1 (33 * Second) Second)));
    (2%nat, OutLease (Ok (MkAcquireResult true "west" 2 (64 * Second) (34 * Second))));
    (3%nat, OutLease (Ok (MkAcquireResult false "west" 2 (64 * Second) (34 * Second))));
    (4%nat, OutSwept 1) ].
Proof. vm_compute. reflexivity. Qed.

(** ** The theorems *)

Section theorems.
Context `{DNSValidation} (norm : LeaseRecord → LeaseRecord) `{!NormOK norm} (skew : Z).
Context (t0 : Z) (tr : list label) (s : sys).
Hypothesis Hreach : steps (step norm skew) (init t0) tr s.
Hypothesis Hlen : Z.of_nat (length tr) ≤ MaxInt64.

Lemma reach_inv : inv norm skew tr s.
Proof. by eapply reachable_inv. Qed.

Lemma logs_ok k : log_ok norm skew (wlog k tr).
Proof. apply (inv_log _ _ _ _ reach_inv). Qed.

(** A successful answer names a write of the history of its key. *)
Lemma answer_in_log i o a k :
  LDone i o (OutLease (Ok a)) ∈ tr → op_key o = Some k → aAcquired a = true →
  ∃ w, w ∈ wlog k tr ∧ rHolder (w_stored w) = aHolder a ∧
    rFencingToken (w_stored w) = aFencingToken a ∧ aHolder a ≠ "" ∧ w_op w = o.
Proof.
  intros Hd Hk Ha. destruct (inv_done _ _ _ _ reach_inv _ Hd) as (g & Ho & Hg).
  assert (∃ h ttl, o = OAcquire k h ttl ∨ ∃ tok, o = ORenew k h tok ttl) as (h & ttl & Hop).
  { destruct o; cbn in Ho, Hk; simplify_eq; eauto 10. done. }
  assert (backed k g (Ok a)) as Hb.
  { destruct Hop as [->|[tok ->]]; apply Ho. }
  destruct (Hb Ha) as (r & Hr & Hrk & Hrh & Hrt & _).
  destruct (Hg _ Hr) as (w & Hw & _ & Hwo & <-).
  assert (w ∈ wlog (rKey (w_stored w)) tr) as Hin by by apply elem_of_wlog.
  pose proof Hin as Hin'. apply list_elem_of_lookup in Hin' as [j Hj].
  pose proof (logs_ok _ _ _ Hj) as Hok.
  destruct (stored_as_issued _ _ _ _ _ Hok) as (E1 & E2 & E3).
  destruct (transition_live _ _ _ k h ttl (wo_change _ _ _ _ _ Hok)) as (? & ? & ?).
  { by rewrite Hwo. }
  exists w. rewrite E1, E2. rewrite E3, Hrk in Hin.
  split_and!; try done. by rewrite <- Hrh, H0.
Qed.
End theorems.

(** C1: every interleaving of requests and sweeps, with failing and lost store
    answers, leaves under each key a history that is a run of the lease
    protocol: the [i]-th write stores version [i + 1], starts from exactly the
    record the previous write left, and is one of the permitted changes of it
    (create, keep, claim, release, sweep); the store holds the last one. *)
Theorem history_refines_protocol `{DNSValidation} norm `{!NormOK norm} skew t0 tr s :
  steps (step norm skew) (init t0) tr s → Z.of_nat (length tr) ≤ MaxInt64 →
  ∀ k, s_store s !! k = w_stored <$> last (wlog k tr) ∧
  ∀ i w, wlog k tr !! i = Some w →
    w_prev w = match i with O => None | S j => w_stored <$> wlog k tr !! j end ∧
    w_stored w = set_version (Z.of_nat i + 1) (norm (w_issued w)) ∧
    transition (w_op w) (w_prev w) (w_issued w).
Proof.
  intros Hr Hl k. pose proof (reach_inv _ _ _ _ _ Hr Hl) as Hinv.
  split; [apply (inv_last _ _ _ _ Hinv)|]. intros i w Hw.
  destruct (inv_log _ _ _ _ Hinv k i w Hw). done.
Qed.

Lemma history_refines_protocol_witness :
  s_store demo_state !! demo_key = w_stored <$> last (wlog demo_key demo_trace) ∧
  length (wlog demo_key demo_trace) = 4%nat.
Proof.
  split; [|vm_compute; reflexivity].
  exact (proj1 (history_refines_protocol id 0 _ _ _ demo_steps demo_short demo_key)).
Defined.





(** C4: exclusion until release or expiry. Whatever interleaving led to a
    state, the next write under a key replaces a live holder [p] by anything
    else only if it is [p]'s own release with [p]'s token, or if [p]'s TTL has
    elapsed: real time, up to the clock skew of a replica, is past the stored
    expiry. *)
Theorem handover_release_or_expiry `{DNSValidation} norm `{!NormOK norm} skew t0 tr s w s' p :
  steps (step norm skew) (init t0) tr s → Z.of_nat (length tr) < MaxInt64 →
  step norm skew s (LWrite w) s' →
  s_store s !! rKey (w_stored w) = Some p → rHolder p ≠ "" →
  rHolder (w_stored w) ≠ rHolder p →
  w_op w = ORelease (rKey p) (rHolder p) (rFencingToken p) ∨
  (∃ e, w_op w = OSweep e ∧ ExpiresAt p + gcGrace e ≤ s_clock s + skew) ∨
  (w_op w = OAcquire (rKey p) (rHolder (w_stored w)) (rTTL (w_issued w)) ∧
   ExpiresAt p < s_clock s + skew).
Proof.
  intros Hr Hl Hstep Hp Hlive Hne.
  assert (steps (step norm skew) (init t0) (tr ++ [LWrite w]) s') as Hr' by eauto with berth.
  assert (Z.of_nat (length (tr ++ [LWrite w])) ≤ MaxInt64) as Hl' by (rewrite length_app; cbn; lia).
  pose proof (logs_ok _ _ _ _ _ Hr' Hl' (rKey (w_stored w))) as Hok.
  assert (w_clock w = s_clock s ∧ w_prev w = s_store s !! rKey (w_stored w)) as [Hc Hprev].
  { inversion Hstep; subst; cbn. rewrite norm_key. done. }
  rewrite wlog_snoc in Hok. cbn in Hok. rewrite bool_decide_true in Hok by done.
  specialize (Hok (length (wlog (rKey (w_stored w)) tr)) w).
  rewrite lookup_app_r, Nat.sub_diag in Hok by lia. specialize (Hok eq_refl).
  destruct (stored_as_issued _ _ _ _ _ Hok) as (_ & Eh & _).
  destruct Hok as [_ _ _ Hch Hck _]. rewrite Hprev, Hp in Hch. rewrite Hc in Hck. rewrite Eh in *.
  inversion Hch as [|p' r Ho Hk Hh|p' r Ho Hk Hh [Ht|Ht]|p' r Ho|e p' r Ho Hh Hg]; subst.
  - done.
  - unfold Tombstone in Ht. by bool_simp.
  - right; right. rewrite Ho, Hk. split; [done|]. unfold Expired, After in Ht. lia.
  - by left.
  - right; left. exists e. split; [done|]. lia.
Qed.

(** The state of the demo in which "west" is about to write its claim. *)
Definition claim_state : sys := sched_state (take 22 demo_sched) (init Second).
Definition claim_trace : list label := sched_trace (take 22 demo_sched) (init Second).
Definition claim_write : label := from_option fst (LTau 0) (exec1 (SRun 2) claim_state).
Definition claim_after : sys := from_option snd claim_state (exec1 (SRun 2) claim_state).

Lemma claim_steps : steps (step id 0) (init Second) claim_trace claim_state.
Proof. apply sched_steps. vm_compute. reflexivity. Qed.

Lemma claim_short : Z.of_nat (length claim_trace) < MaxInt64.
Proof. vm_compute. reflexivity. Qed.

Lemma claim_step : step id 0 claim_state claim_write claim_after.
Proof.
  assert (is_Some (exec1 (SRun 2) claim_state)) as [[l s] E].
  { apply (bool_decide_unpack _). vm_compute. exact I. }
  unfold claim_write, claim_after. rewrite E.
  apply (exec1_sound 0 (Z.le_refl 0) (SRun 2)); [done|].
  pose proof claim_short.
  apply (inv_keyed _ _ _ _ (reach_inv _ _ _ _ _ claim_steps ltac:(lia))).
Qed.

Lemma handover_release_or_expiry_witness : ∃ w p,
  claim_write = LWrite w ∧ s_store claim_state !! demo_key = Some p ∧
  (w_op w = ORelease (rKey p) (rHolder p) (rFencingToken p) ∨
   (∃ e, w_op w = OSweep e ∧ ExpiresAt p + gcGrace e ≤ s_clock claim_state + 0) ∨
   (w_op w = OAcquire (rKey p) (rHolder (w_stored w)) (rTTL (w_issued w)) ∧
    ExpiresAt p < s_clock claim_state + 0)).
Proof.
  destruct claim_write as [| |w| |] eqn:Hw; try (vm_compute in Hw; discriminate).
  destruct (s_store claim_state !! demo_key) as [p|] eqn:Hp; [|vm_compute in Hp; discriminate].
  exists w, p. split_and!; [done..|].
  pose proof claim_step as Hstep. rewrite Hw in Hstep.
  apply (handover_release_or_expiry id 0 _ _ _ w _ p claim_steps claim_short Hstep);
    vm_compute in Hw, Hp; simplify_eq; try done; vm_compute; congruence.
Defined.
