(* ===== verification/ManagerSpec.v ===== *)
(** * Functional behaviour of the lease operations

    What [Acquire], [Renew], [Release] and a sweep do, branch by branch, when
    nothing interleaves: run to their end against the in-memory backend. *)

From S2P Require Import Prelude Store MemStore Manager TTL RFC1123.

(** Run a program on the in-memory backend with a live context and a clock
    that stands at [now]. *)
Definition run_mem {A} (now : Z) (p : prog storeE A) (s : MemStore) : A * MemStore :=
  run (λ X e, impl_handler None now e) p s.

(** Every record sits under its key and was written at least once. *)
Definition store_wf (m : gmap Key LeaseRecord) : Prop :=
  keyed m ∧ ∀ k r, m !! k = Some r → 1 ≤ rVersion r.

(** The map after a successful [Put] of [r] over version [v]. *)
Definition put_rec (v : Z) (r : LeaseRecord) (s : MemStore) : MemStore :=
  MkMemStore (<[rKey r := stored id v r]> (records s)).

Lemma put_pred_version m k r : 1 ≤ rVersion r → m !! k = Some r → put_pred m (rVersion r) k.
Proof.
  intros Hv Hr. unfold put_pred. rewrite (proj2 (Z.eqb_neq _ 0)) by lia. by rewrite Hr.
Qed.

Lemma put_pred_current m k r : store_wf m → m !! k = Some r → put_pred m (rVersion r) k.
Proof. intros [_ Hv] Hr. apply put_pred_version; eauto. Qed.

Lemma put_pred_absent m k : m !! k = None → put_pred m 0 k.
Proof. done. Qed.

Lemma mem_Put_ok v r s :
  put_pred (records s) v (rKey r) → mem_Put None v (Some r) s = (Ok (), put_rec v r s).
Proof. intros Hp. rewrite mem_Put_spec. by rewrite bool_decide_true. Qed.

(** [Acquire] as a case analysis on the current record. *)
Definition acquire_effect (key : Key) (holder : string) (ttl now : Z) (s : MemStore)
    : result AcquireResult * MemStore :=
  let write v token acquiredAt :=
    (Ok (MkAcquireResult true holder token (now + ttl) acquiredAt),
     put_rec v (MkRecord key holder ttl acquiredAt now token 0) s) in
  match records s !! key with
  | None => write 0 1 now
  | Some cur =>
    if (rHolder cur == holder) && (now <=? ExpiresAt cur)
    then write (rVersion cur) (rFencingToken cur) (rAcquiredAt cur)
    else if (rHolder cur == "") || (ExpiresAt cur <? now)
    then if rFencingToken cur =? MaxInt32
         then (Err (ErrMsg "acquire: fencing token exhausted at int32 ceiling"), s)
         else write (rVersion cur) (wrap32 (rFencingToken cur + 1)) now
    else (Ok (lost_to cur), s)
  end.

Definition renew_effect (key : Key) (holder : string) (token ttl now : Z) (s : MemStore)
    : result AcquireResult * MemStore :=
  match records s !! key with
  | None => (Ok not_acquired, s)
  | Some cur =>
    if (rHolder cur == holder) && (rFencingToken cur =? token) && (now <=? ExpiresAt cur)
    then (Ok (MkAcquireResult true holder token (now + ttl) (rAcquiredAt cur)),
          put_rec (rVersion cur)
            (MkRecord key holder ttl (rAcquiredAt cur) now token (rVersion cur)) s)
    else (Ok (lost_to cur), s)
  end.

Definition release_effect (key : Key) (holder : string) (token now : Z) (s : MemStore)
    : result unit * MemStore :=
  match records s !! key with
  | None => (Ok (), s)
  | Some cur =>
    if rHolder cur == "" then (Ok (), s)
    else if (rHolder cur == holder) && (rFencingToken cur =? token)
    then (Ok (), put_rec (rVersion cur) (tombstoneFrom cur now) s)
    else (Err ErrConflict, s)
  end.

Lemma Expired_leb cur now : Expired cur now = negb (now <=? ExpiresAt cur).
Proof. unfold Expired, After. lia. Qed.

Section functional.
Context `{DNSValidation} (key : Key) (holder : string) (s : MemStore) (now : Z).
Hypothesis Hkey : ValidateKey key = Ok ().
Hypothesis Hwf : store_wf (records s).

Lemma run_get {A} (f : result LeaseRecord → prog storeE A) :
  run_mem now (trigger (EGet key) ≫= f) s =
  run_mem now (f (match records s !! key with Some r => Ok r | None => Err ErrNotFound end)) s.
Proof. cbn. by destruct (records s !! key). Qed.

Lemma run_put {A} (v : Z) r (f : result unit → prog storeE A) :
  put_pred (records s) v (rKey r) →
  run_mem now (trigger (EPut v (Some r)) ≫= f) s = run_mem now (f (Ok ())) (put_rec v r s).
Proof. intros Hp. unfold run_mem. cbn -[mem_Put]. by rewrite mem_Put_ok. Qed.

Lemma run_Acquire ttl :
  ValidateHolder holder = Ok () → 0 < ttl →
  run_mem now (Acquire key holder ttl) s = acquire_effect key holder ttl now s.
Proof.
  intros Hh Httl. unfold Acquire. rewrite Hkey, Hh.
  rewrite (proj2 (Z.leb_gt ttl 0)) by lia.
  unfold maxAcquireAttempts. cbn [acquire_loop]. rewrite run_get.
  unfold acquire_effect. destruct (records s !! key) as [cur|] eqn:Hcur.
  - cbn [cur_of]. change (run_mem now (trigger ENow ≫= ?f) s) with (run_mem now (f now) s). cbv beta.
    cbn [acquire_plan]. unfold Tombstone. rewrite Expired_leb, negb_involutive.
    destruct (_ && _) eqn:E1; [|replace (ExpiresAt cur <? now) with (negb (now <=? ExpiresAt cur)) by lia;
      destruct (_ || _) eqn:E2; [|done]].
    + rewrite run_put; [done|]. by apply put_pred_current.
    + destruct (_ =? MaxInt32); [done|]. rewrite run_put; [done|]. by apply put_pred_current.
  - change (cur_of (Err ErrNotFound)) with (@Ok (option LeaseRecord) None). cbv iota.
    change (run_mem now (trigger ENow ≫= ?f) s) with (run_mem now (f now) s). cbv beta.
    cbn [acquire_plan]. rewrite run_put; [done|]. by apply put_pred_absent.
Qed.

Lemma run_Renew token ttl :
  ValidateHolder holder = Ok () → 0 < token → 0 < ttl →
  run_mem now (Renew key holder token ttl) s = renew_effect key holder token ttl now s.
Proof.
  intros Hh Htok Httl. unfold Renew. rewrite Hkey, Hh.
  rewrite (proj2 (Z.leb_gt ttl 0)), (proj2 (Z.leb_gt token 0)) by lia. rewrite run_get.
  unfold renew_effect. destruct (records s !! key) as [cur|] eqn:Hcur; [|done].
  change (run_mem now (trigger ENow ≫= ?f) s) with (run_mem now (f now) s). cbv beta.
  rewrite Expired_leb, <- negb_andb, <- negb_andb.
  destruct (_ && _) eqn:E; cbn [negb]; [|done]. bool_simp.
  assert (rFencingToken cur = token) as <- by lia.
  assert (rKey cur = key) as Hk by by apply Hwf. subst holder. rewrite <- Hk.
  rewrite run_put; [done|]. cbn. rewrite Hk. by apply put_pred_current.
Qed.

Lemma run_Release token :
  holder ≠ "" →
  run_mem now (Release key holder token) s = release_effect key holder token now s.
Proof.
  intros Hh. unfold Release. rewrite Hkey, bool_decide_false by done. rewrite run_get.
  unfold release_effect. destruct (records s !! key) as [cur|] eqn:Hcur; [|done].
  unfold Tombstone. destruct (rHolder cur == ""); [done|].
  rewrite <- negb_andb. destruct (_ && _) eqn:E; cbn [negb]; [|done].
  change (run_mem now (trigger ENow ≫= ?f) s) with (run_mem now (f now) s). cbv beta.
  rewrite run_put; [done|]. cbn. replace (rKey cur) with key by (symmetry; by apply Hwf).
  by apply put_pred_current.
Qed.
End functional.

Lemma store_wf_put v r s :
  store_wf (records s) → 0 ≤ v < MaxInt64 → store_wf (records (put_rec v r s)).
Proof.
  intros [Hk Hv] Hr. split; cbn.
  - by apply (keyed_insert _ (stored id v r)).
  - intros k r'. rewrite lookup_insert. case_decide; [|apply Hv].
    intros [= <-]. cbn. rewrite wrap64_id; [lia|]. unfold int64, MinInt64. lia.
Qed.

(** ** Sweeps *)

(** What a sweep makes of one record. *)
Definition sweep_record (grace now : Z) (r : LeaseRecord) : LeaseRecord :=
  if gc_skip grace now r then r else stored id (rVersion r) (tombstoneFrom r now).

Lemma sweep_record_key grace now r : rKey (sweep_record grace now r) = rKey r.
Proof. unfold sweep_record. by case_match. Qed.

Lemma collect_loop_run grace now rs swept (s : MemStore) :
  NoDup (rKey <$> rs) →
  (∀ r, r ∈ rs → records s !! rKey r = Some r ∧ 1 ≤ rVersion r) →
  ∃ s', run_mem now (collect_loop grace now rs swept) s =
          (swept + Z.of_nat (length (filter (λ r, gc_skip grace now r = false) rs)), s') ∧
    ∀ k, records s' !! k =
      if bool_decide (k ∈ rKey <$> rs) then sweep_record grace now <$> records s !! k
      else records s !! k.
Proof.
  revert swept s. induction rs as [|r rs IH]; intros swept s Hnd Hrs.
  { exists s. cbn. rewrite Z.add_0_r. split; [done|]. intros k. by case_bool_decide; [set_solver|]. }
  rewrite fmap_cons in Hnd |- *. apply NoDup_cons in Hnd as [Hnin Hnd].
  destruct (Hrs r) as [Hr Hv]; [set_solver|].
  cbn [collect_loop]. destruct (gc_skip grace now r) eqn:Es.
  - destruct (IH swept s) as (s' & Hrun & Hs'); [done|intros; apply Hrs; set_solver|].
    exists s'. rewrite Hrun, filter_cons_False by by rewrite Es. split; [done|].
    intros k. rewrite Hs'. destruct (decide (k = rKey r)) as [->|Hne].
    + rewrite bool_decide_false, bool_decide_true by set_solver. rewrite Hr. cbn.
      unfold sweep_record. by rewrite Es.
    + repeat case_bool_decide; set_solver.
  - rewrite run_put by by apply put_pred_version.
    set (s1 := put_rec (rVersion r) (tombstoneFrom r now) s).
    assert (∀ k, k ≠ rKey r → records s1 !! k = records s !! k) as Hother.
    { intros k Hk. cbn. by rewrite lookup_insert_ne. }
    destruct (IH (swept + 1) s1) as (s' & Hrun & Hs'); [done|..].
    { intros r' Hr'. rewrite Hother; [apply Hrs; set_solver|].
      intros Heq. apply Hnin. rewrite <- Heq. by apply list_elem_of_fmap_2. }
    exists s'. rewrite Hrun, filter_cons_True by done. split; [f_equal; cbn; lia|].
    intros k. rewrite Hs'. destruct (decide (k = rKey r)) as [->|Hne].
    + rewrite bool_decide_false, bool_decide_true by set_solver. rewrite Hr. cbn.
      rewrite lookup_insert_eq. unfold sweep_record. by rewrite Es.
    + rewrite Hother by done. repeat case_bool_decide; set_solver.
Qed.

Lemma map_values_keys (m : gmap Key LeaseRecord) :
  keyed m → rKey <$> (map_to_list m).*2 = (map_to_list m).*1.
Proof.
  intros Hk. rewrite <- list_fmap_compose. apply list_fmap_ext. intros i [k r] Hi.
  apply list_elem_of_lookup_2, elem_of_map_to_list in Hi. by apply Hk.
Qed.

Lemma run_collect e now (s : MemStore) :
  store_wf (records s) →
  ∃ s' n, run_mem now (collect e) s = (n, s') ∧
    records s' = sweep_record (gcGrace e) now <$> records s ∧
    n = Z.of_nat (length (filter (λ r, gc_skip (gcGrace e) now r = false)
                           (map_to_list (records s)).*2)).
Proof.
  intros [Hk Hv].
  destruct (collect_loop_run (gcGrace e) now (map_to_list (records s)).*2 0 s) as (s' & Hrun & Hs').
  - rewrite map_values_keys by done. apply NoDup_fst_map_to_list.
  - intros r ([k r'] & -> & Hin)%list_elem_of_fmap. cbn. apply elem_of_map_to_list in Hin.
    rewrite (Hk _ _ Hin). split; [done|by eapply Hv].
  - exists s'. eexists. split; [exact Hrun|]. split; [|lia].
    apply map_eq. intros k. rewrite Hs', lookup_fmap, map_values_keys by done.
    case_bool_decide as Hin; [done|].
    destruct (records s !! k) as [r|] eqn:Hr; [|done]. destruct Hin.
    apply list_elem_of_fmap. exists (k, r). split; [done|]. by apply elem_of_map_to_list.
Qed.

(** ** Release, then acquire *)

Lemma wrap64_succ v : 0 ≤ v < MaxInt64 → wrap64 (v + 1) = v + 1.
Proof. intros ?. apply wrap64_id. unfold int64, MinInt64. lia. Qed.

Lemma run_own_release `{DNSValidation} key now s r :
  ValidateKey key = Ok () → store_wf (records s) → records s !! key = Some r → rHolder r ≠ "" →
  run_mem now (Release key (rHolder r) (rFencingToken r)) s =
    (Ok (), put_rec (rVersion r) (tombstoneFrom r now) s).
Proof.
  intros Hkey Hwf Hr Hlive. rewrite run_Release by done. unfold release_effect. rewrite Hr.
  by rewrite bool_decide_false, bool_decide_true, Z.eqb_refl by done.
Qed.

Lemma run_release_acquire `{DNSValidation} key h tk h2 ttl now s r :
  ValidateKey key = Ok () → h ≠ "" → ValidateHolder h2 = Ok () → 0 < ttl → store_wf (records s) →
  records s !! key = Some r → rHolder r = h → rFencingToken r = tk →
  0 < tk < MaxInt32 → rVersion r < MaxInt64 - 1 →
  let s1 := snd (run_mem now (Release key h tk) s) in
  run_mem now (Acquire key h2 ttl) s1 =
    (Ok (MkAcquireResult true h2 (tk + 1) (now + ttl) now),
     put_rec (rVersion r + 1) (MkRecord key h2 ttl now now (tk + 1) 0) s1) ∧
  store_wf (records (snd (run_mem now (Acquire key h2 ttl) s1))).
Proof.
  intros Hkey Hh Hh2 Httl Hwf Hr <- <- Htk Hv. assert (h2 ≠ "") as Hh20 by by intros ->.
  assert (1 ≤ rVersion r) as Hv1 by by eapply Hwf.
  rewrite run_own_release by done. cbn [snd].
  set (s1 := put_rec (rVersion r) (tombstoneFrom r now) s).
  assert (store_wf (records s1)) as Hwf1 by (apply store_wf_put; [done|lia]).
  assert (records s1 !! key = Some (stored id (rVersion r) (tombstoneFrom r now))) as Hr1.
  { cbn. replace (rKey r) with key by (symmetry; by apply Hwf). apply lookup_insert_eq. }
  assert (wrap32 (rFencingToken r + 1) = rFencingToken r + 1) as Hw32.
  { apply wrap32_id. unfold int32, MinInt32. lia. }
  eassert (run_mem now (Acquire key h2 ttl) s1 = _) as Hacq.
  { rewrite run_Acquire by done. unfold acquire_effect. rewrite Hr1. cbn -[wrap32 wrap64].
    rewrite bool_decide_false by congruence. cbn -[wrap32 wrap64].
    rewrite bool_decide_true by done. cbn -[wrap32 wrap64].
    rewrite Hw32, wrap64_succ by lia. rewrite (proj2 (Z.eqb_neq _ _)) by lia. reflexivity. }
  rewrite Hacq. split; [done|]. apply store_wf_put; [done|lia].
Qed.

(** ** The theorems *)

(** C8: [Acquire] with no interference, on every branch: an absent key is
    created with token 1, the holder's own live lease is renewed in place with
    its token and acquisition time, a tombstone or an expired lease is claimed
    with the next token, a token at the int32 ceiling is refused rather than
    wrapped, and a lease held by another is reported unchanged. One attempt of
    the retry loop is enough. *)
Theorem Acquire_functional `{DNSValidation} key holder ttl now s :
  ValidateKey key = Ok () → ValidateHolder holder = Ok () → 0 < ttl → store_wf (records s) →
  run_mem now (Acquire key holder ttl) s = acquire_effect key holder ttl now s.
Proof. intros. by apply run_Acquire. Qed.

Definition spec_key : Key := MkKey "pipeline" "ingest-worker".
Definition spec_rec : LeaseRecord :=
  MkRecord spec_key "east" (30 * Second) Second (5 * Second) 7 12.
Definition spec_store : MemStore := MkMemStore {[ spec_key := spec_rec ]}.

Lemma spec_store_wf : store_wf (records spec_store).
Proof.
  split; intros k r; unfold spec_store; cbn [records];
    intros [<- <-]%lookup_singleton_Some; done.
Qed.

Lemma Acquire_functional_witness :
  run_mem (36 * Second) (Acquire spec_key "west" (30 * Second)) spec_store =
  (Ok (MkAcquireResult true "west" 8 (66 * Second) (36 * Second)),
   put_rec 12 (MkRecord spec_key "west" (30 * Second) (36 * Second) (36 * Second) 8 0) spec_store).
Proof.
  rewrite (Acquire_functional spec_key "west" (30 * Second) (36 * Second) spec_store);
    [vm_compute; reflexivity|vm_compute; reflexivity|vm_compute; reflexivity|unfold Second; lia
    |apply spec_store_wf].
Defined.

(** C9: [Renew] with no interference, on every branch: it extends the lease
    exactly when the caller's holder and token match the current record and
    the TTL has not elapsed, keeping token and acquisition time; in every
    other case it answers "not acquired" and changes nothing. *)
Theorem Renew_functional `{DNSValidation} key holder token ttl now s :
  ValidateKey key = Ok () → ValidateHolder holder = Ok () → 0 < token → 0 < ttl →
  store_wf (records s) →
  run_mem now (Renew key holder token ttl) s = renew_effect key holder token ttl now s.
Proof. intros. by apply run_Renew. Qed.

Lemma Renew_functional_witness :
  run_mem (20 * Second) (Renew spec_key "east" 7 (30 * Second)) spec_store =
  (Ok (MkAcquireResult true "east" 7 (50 * Second) Second),
   put_rec 12 (MkRecord spec_key "east" (30 * Second) Second (20 * Second) 7 12) spec_store).
Proof.
  rewrite (Renew_functional spec_key "east" 7 (30 * Second) (20 * Second) spec_store);
    [vm_compute; reflexivity|vm_compute; reflexivity|vm_compute; reflexivity|lia
    |unfold Second; lia|apply spec_store_wf].
Defined.

(** C10: a released lease fences its old holder. After the holder's release the
    next claimant, even at once, gets a strictly greater token, and from then
    on the old holder's renewal is answered "not acquired" and its release
    "conflict", both without changing the store. *)
Theorem release_fences_old_holder `{DNSValidation} key h tk h2 ttl now now' ttl' s r :
  ValidateKey key = Ok () → ValidateHolder h = Ok () → ValidateHolder h2 = Ok () →
  0 < ttl → 0 < ttl' → h ≠ h2 → store_wf (records s) →
  records s !! key = Some r → rHolder r = h → rFencingToken r = tk →
  0 < tk < MaxInt32 → rVersion r < MaxInt64 - 1 →
  let s1 := snd (run_mem now (Release key h tk) s) in
  let s2 := snd (run_mem now (Acquire key h2 ttl) s1) in
  fst (run_mem now (Acquire key h2 ttl) s1) =
    Ok (MkAcquireResult true h2 (tk + 1) (now + ttl) now) ∧
  run_mem now' (Renew key h tk ttl') s2 =
    (Ok (MkAcquireResult false h2 (tk + 1) (now + ttl) now), s2) ∧
  run_mem now' (Release key h tk) s2 = (Err ErrConflict, s2).
Proof.
  intros Hkey Hh Hh2 Httl Httl' Hne Hwf Hr Hrh Hrt Htk Hv s1 s2.
  assert (h ≠ "") as Hh0 by by intros ->. assert (h2 ≠ "") as Hh20 by by intros ->.
  destruct (run_release_acquire key h tk h2 ttl now s r) as [Hacq Hwf2]; [done..|].
  fold s1 in Hacq, Hwf2. fold s2 in Hwf2.
  assert (records s2 !! key = Some (stored id (rVersion r + 1)
    (MkRecord key h2 ttl now now (tk + 1) 0))) as Hr2.
  { unfold s2. rewrite Hacq. apply lookup_insert_eq. }
  rewrite Hacq. split; [done|]. split.
  - rewrite run_Renew by first [done|lia]. unfold renew_effect. rewrite Hr2. cbn -[wrap64].
    by rewrite bool_decide_false by congruence.
  - rewrite run_Release by done. unfold release_effect. rewrite Hr2. cbn -[wrap64].
    by rewrite bool_decide_false, bool_decide_false by congruence.
Qed.

Lemma release_fences_old_holder_witness :
  fst (run_mem (6 * Second) (Acquire spec_key "west" (30 * Second))
    (snd (run_mem (6 * Second) (Release spec_key "east" 7) spec_store))) =
  Ok (MkAcquireResult true "west" 8 (36 * Second) (6 * Second)).
Proof.
  apply (release_fences_old_holder spec_key "east" 7 "west" (30 * Second) (6 * Second)
    0 Second spec_store spec_rec);
    first [apply spec_store_wf|done|vm_compute; reflexivity|unfold Second, MaxInt32, MaxInt64; cbn; lia].
Defined.

(** C11: a sweep tombstones exactly the live records expired for at least the
    grace window, keeping their tokens and advancing their versions, leaves
    every other record untouched, deletes nothing, and reports how many
    records it changed. *)
Theorem collect_functional e now s :
  store_wf (records s) →
  ∃ s' n, run_mem now (collect e) s = (n, s') ∧
    dom (records s') = dom (records s) ∧
    n = Z.of_nat (length (filter (λ r, gc_skip (gcGrace e) now r = false)
                           (map_to_list (records s)).*2)) ∧
    ∀ k r, records s !! k = Some r →
      (records s' !! k = Some r ∧ (rHolder r = "" ∨ now < ExpiresAt r + gcGrace e)) ∨
      (records s' !! k = Some (MkRecord k "" 0 (rAcquiredAt r) now (rFencingToken r)
                                (wrap64 (rVersion r + 1))) ∧
       rHolder r ≠ "" ∧ ExpiresAt r + gcGrace e ≤ now).
Proof.
  intros Hwf. destruct (run_collect e now s Hwf) as (s' & n & Hrun & Hs' & Hn).
  exists s', n. rewrite Hs'. split_and!; [done|apply dom_fmap_L|done|].
  intros k r Hr. rewrite lookup_fmap, Hr. cbn. unfold sweep_record, gc_skip, Tombstone, Before.
  destruct (_ || _) eqn:E.
  - left. split; [done|]. apply orb_true_iff in E as [E|E]; bool_simp; [by left|right; lia].
  - right. bool_simp. split_and!; [|done|lia]. unfold stored, tombstoneFrom. cbn.
    by rewrite (proj1 Hwf _ _ Hr).
Qed.

Lemma collect_functional_witness :
  ∃ s' n, run_mem (400 * Second) (collect (NewTTLEnforcer 0 0)) spec_store = (n, s') ∧
    dom (records s') = {[ spec_key ]} ∧ n = 1.
Proof.
  destruct (collect_functional (NewTTLEnforcer 0 0) (400 * Second) spec_store spec_store_wf)
    as (s' & n & Hrun & Hdom & Hn & _).
  exists s', n. split; [exact Hrun|]. split; [rewrite Hdom; vm_compute; reflexivity|].
  rewrite Hn. vm_compute. reflexivity.
Defined.
