(* ===== verification/K8sStore.v ===== *)
(** * The Kubernetes backend

    [internal/lease/k8sstore.go]: one [coordination.k8s.io/v1.Lease] object per
    lease. The kube-apiserver is not part of the repository: it is a parameter,
    with its documented optimistic concurrency as a hypothesis, and its other
    clients run between any two calls of the backend. *)

From S2P Require Import Prelude GoStrings Store Manager RFC1123.

(** ** Lease objects *)

Record KLease := MkKLease {
  l_name : string;
  l_namespace : string;
  l_resourceVersion : Z;
  l_labels : gmap string string;
  l_annotations : gmap string string;
  l_holderIdentity : option string;
  l_leaseDurationSeconds : option Z;
  l_acquireTime : option Z;
  l_renewTime : option Z;
  l_leaseTransitions : option Z }.

Definition managedByLabel : string := "berth.skaphos.io/managed-by".
Definition managedByValue : string := "berth".
Definition tenantNamespaceAnnotation : string := "berth.skaphos.io/tenant-namespace".
Definition leaseNameAnnotation : string := "berth.skaphos.io/lease-name".
Definition versionAnnotation : string := "berth.skaphos.io/version".

Definition k8sLeaseName (key : Key) : string := kNamespace key +:+ "." +:+ kName key.

(** [l.Annotations[k]] of a missing key is the empty string. *)
Definition annotation (l : KLease) (k : string) : string := default "" (l_annotations l !! k).

Definition versionFromLease (l : KLease) : Z :=
  match ParseInt (annotation l versionAnnotation) 64 with
  | None => 1
  | Some v => if v <? 1 then 1 else v
  end.

Definition recordFromLease (l : KLease) : result LeaseRecord :=
  match l_annotations l !! tenantNamespaceAnnotation with
  | None => Err (ErrMsg "lease: missing annotation berth.skaphos.io/tenant-namespace")
  | Some tenant =>
    match l_annotations l !! leaseNameAnnotation with
    | None => Err (ErrMsg "lease: missing annotation berth.skaphos.io/lease-name")
    | Some name =>
      Ok (MkRecord (MkKey tenant name)
            (default "" (l_holderIdentity l))
            (from_option (λ d, wrap64 (d * Second)) 0 (l_leaseDurationSeconds l))
            (default 0 (l_acquireTime l))
            (default 0 (l_renewTime l))
            (default 0 (l_leaseTransitions l))
            (versionFromLease l))
    end
  end.

Definition leaseDuration (rec : LeaseRecord) : option Z :=
  if Tombstone rec && (rTTL rec =? 0) then None
  else Some (wrap32 (Z.quot (rTTL rec) Second)).

Definition leaseFromRecord (rec : LeaseRecord) (namespace : string) (version : Z) : KLease :=
  MkKLease (k8sLeaseName (rKey rec)) namespace 0
    {[ managedByLabel := managedByValue ]}
    (<[ tenantNamespaceAnnotation := kNamespace (rKey rec) ]>
     (<[ leaseNameAnnotation := kName (rKey rec) ]>
      {[ versionAnnotation := FormatInt version ]}))
    (Some (rHolder rec)) (leaseDuration rec)
    (Some (rAcquiredAt rec)) (Some (rRenewedAt rec)) (Some (rFencingToken rec)).

Definition applyRecordToLease (l : KLease) (rec : LeaseRecord) (version : Z) : KLease :=
  MkKLease (l_name l) (l_namespace l) (l_resourceVersion l)
    (<[ managedByLabel := managedByValue ]> (l_labels l))
    (<[ versionAnnotation := FormatInt version ]>
     (<[ leaseNameAnnotation := kName (rKey rec) ]>
      (<[ tenantNamespaceAnnotation := kNamespace (rKey rec) ]> (l_annotations l))))
    (Some (rHolder rec)) (leaseDuration rec)
    (Some (rAcquiredAt rec)) (Some (rRenewedAt rec)) (Some (rFencingToken rec)).

(** ** The backend's calls *)

(** The constructor: a client and a namespace are required; the backend's own
    state is the namespace. *)
Definition NewK8sLeaseStore (clientNil : bool) (namespace : string) : result string :=
  if clientNil then Err (ErrMsg "k8s lease store: client is required")
  else if namespace == "" then Err (ErrMsg "k8s lease store: namespace is required")
  else Ok namespace.

Inductive kubeE : Type → Type :=
| KGet (name : string) : kubeE (kerr + KLease)
| KCreate (l : KLease) : kubeE (kerr + unit)
| KUpdate (l : KLease) : kubeE (kerr + unit)
| KList (selector : option (string * string)) (limit : Z) : kubeE (kerr + list KLease)
| KCtxErr : kubeE (option error).

Definition k8s_Ping : prog kubeE (result unit) :=
  got ← trigger (KList None 1);
  mret (match got with
        | inl e => Err (ErrWrap "k8s lease store: ping" (of_kerr e))
        | inr _ => Ok ()
        end).

Definition k8s_Get (key : Key) : prog kubeE (result LeaseRecord) :=
  got ← trigger (KGet (k8sLeaseName key));
  mret (match got with
        | inl KNotFound => Err ErrNotFound
        | inl e => Err (ErrWrap "k8s lease store: get" (of_kerr e))
        | inr l => recordFromLease l
        end).

(** [List] skips objects that do not decode. *)
Definition k8s_List : prog kubeE (result (list LeaseRecord)) :=
  got ← trigger (KList (Some (managedByLabel, managedByValue)) 0);
  mret (match got with
        | inl e => Err (ErrWrap "k8s lease store: list" (of_kerr e))
        | inr items =>
            Ok (omap (λ l, match recordFromLease l with Ok r => Some r | Err _ => None end)
                  (items : list KLease))
        end).

Definition maxPutUpdateAttempts : nat := 4.

Fixpoint put_update (attempts : nat) (expectedVersion : Z) (rec : LeaseRecord)
    : prog kubeE (result unit) :=
  match attempts with
  | O => mret (Err ErrConflict)
  | S attempts =>
    ctxErr ← trigger KCtxErr;
    match ctxErr with
    | Some e => mret (Err (ErrWrap "k8s lease store: put" e))
    | None =>
      got ← trigger (KGet (k8sLeaseName (rKey rec)));
      match got with
      | inl KNotFound => mret (Err ErrConflict)
      | inl e => mret (Err (ErrWrap "k8s lease store: get for put" (of_kerr e)))
      | inr cur =>
        if negb (versionFromLease cur =? expectedVersion) then mret (Err ErrConflict)
        else
          upd ← trigger (KUpdate (applyRecordToLease cur rec (wrap64 (expectedVersion + 1))));
          match upd with
          | inr _ => mret (Ok ())
          | inl KConflict => put_update attempts expectedVersion rec
          | inl e => mret (Err (ErrWrap "k8s lease store: update" (of_kerr e)))
          end
      end
    end
  end.

Definition k8s_Put (namespace : string) (expectedVersion : Z) (rec : option LeaseRecord)
    : prog kubeE (result unit) :=
  match rec with
  | None => mret (Err ErrConflict)
  | Some rec =>
    if expectedVersion =? 0 then
      got ← trigger (KCreate (leaseFromRecord rec namespace 1));
      mret (match got with
            | inr _ => Ok ()
            | inl KAlreadyExists => Err ErrConflict
            | inl e => Err (ErrWrap "k8s lease store: create" (of_kerr e))
            end)
    else put_update maxPutUpdateAttempts expectedVersion rec
  end.

(** ** The API server *)

(** What the API server keeps: the objects of the store's namespace by name,
    and the revision the next write is stamped past. *)
Record kstate := MkKState { k_objs : gmap string KLease; k_rev : Z }.

(** Encoding of a [MicroTime]: microseconds, and null for the zero time. *)
Definition micro (t : option Z) : option Z :=
  t ← t; if IsZero t then None else Some (Truncate t Microsecond).

(** An object as it is read back after being written at revision [rv]. *)
Definition wire (rv : Z) (l : KLease) : KLease :=
  MkKLease (l_name l) (l_namespace l) rv (l_labels l) (l_annotations l) (l_holderIdentity l)
    (l_leaseDurationSeconds l) (micro (l_acquireTime l)) (micro (l_renewTime l))
    (l_leaseTransitions l).

Definition write_obj (l : KLease) (s : kstate) : kstate :=
  MkKState (<[ l_name l := wire (k_rev s + 1) l ]> (k_objs s)) (k_rev s + 1).

(** The update precondition: the object is there at the revision it was read. *)
Definition rv_matches (l : KLease) (s : kstate) : Prop :=
  l_resourceVersion <$> k_objs s !! l_name l = Some (l_resourceVersion l).

#[export] Instance rv_matches_dec l s : Decision (rv_matches l s).
Proof. unfold rv_matches. apply _. Defined.

Definition selected (sel : option (string * string)) (l : KLease) : Prop :=
  match sel with Some (k, v) => l_labels l !! k = Some v | None => True end.

#[export] Instance selected_dec sel l : Decision (selected sel l).
Proof. destruct sel as [[k v]|]; cbn; apply _. Defined.

(** Kubernetes' optimistic concurrency, as its API conventions document it:
    reads see the current objects, a create needs the name free, an update
    needs the revision read, and a call that fails for another reason may have
    been carried out. *)
Definition kube_doc (s : kstate) {X} (e : kubeE X) : X → kstate → Prop :=
  match e with
  | KGet n => λ x s', s' = s ∧
      match x with
      | inr l => k_objs s !! n = Some l
      | inl KNotFound => k_objs s !! n = None
      | inl _ => True
      end
  | KCreate l => λ x s',
      match x with
      | inr _ => k_objs s !! l_name l = None ∧ s' = write_obj l s
      | inl (KOther _) => s' = s ∨ (k_objs s !! l_name l = None ∧ s' = write_obj l s)
      | inl KAlreadyExists => s' = s ∧ is_Some (k_objs s !! l_name l)
      | inl _ => s' = s
      end
  | KUpdate l => λ x s',
      match x with
      | inr _ => rv_matches l s ∧ s' = write_obj l s
      | inl (KOther _) => s' = s ∨ (rv_matches l s ∧ s' = write_obj l s)
      | inl _ => s' = s
      end
  | KList sel _ => λ x s', s' = s ∧
      match x with
      | inr ls => ∀ l, l ∈ ls → selected sel l ∧ ∃ n, k_objs s !! n = Some l
      | inl _ => True
      end
  | KCtxErr => λ x s', s' = s ∧ match x with Some e => e = ErrCtx | None => True end
  end.

(** Some API server: which answers and next states it can give. *)
Class Kube := kube_step : ∀ X, kstate → kubeE X → X → kstate → Prop.
Class KubeDocumented `{Kube} : Prop :=
  kube_documented : ∀ X s (e : kubeE X) x s', kube_step X s e x s' → kube_doc s e x s'.

(** ** Objects as records *)

Section abstraction.
Context `{DNSValidation}.

(** Every object of the store's namespace describes a lease whose name it
    bears, at a revision already handed out. *)
Definition k_wf (s : kstate) : Prop :=
  ∀ n l, k_objs s !! n = Some l →
    l_name l = n ∧ l_resourceVersion l ≤ k_rev s ∧
    ∃ r, recordFromLease l = Ok r ∧ k8sLeaseName (rKey r) = n ∧ ValidateKey (rKey r) = Ok ().

Definition decoded (l : KLease) : option (Key * LeaseRecord) :=
  match recordFromLease l with Ok r => Some (rKey r, r) | Err _ => None end.

(** The records the namespace holds. *)
Definition abs (s : kstate) : gmap Key LeaseRecord :=
  list_to_map (omap (λ nl, decoded nl.2) (map_to_list (k_objs s))).

(** Other clients run between two calls: they keep the namespace well
    formed, and every write they make stamps a fresh revision. *)
Definition rely (s s' : kstate) : Prop :=
  k_wf s' ∧ k_rev s ≤ k_rev s' ∧
  ∀ n l, k_objs s' !! n = Some l → l_resourceVersion l ≤ k_rev s → k_objs s !! n = Some l.

(** A run of a backend program from [s] to [s'], with the state before and
    after each of its own calls. *)
Definition kexec `{Kube} {A} (p : prog kubeE A) (s : kstate) (tr : list (kstate * kstate))
    (a : A) (s' : kstate) : Prop := exec_rely rely kube_step p s tr a s'.
End abstraction.

(** ** Names *)

Lemma label_no_dot s : string_all dns_label_char s = true → contains_char "." s = false.
Proof.
  induction s as [|c s IH]; cbn; [done|]. intros [Hc Hs]%andb_prop. rewrite (IH Hs), orb_false_r.
  apply bool_decide_eq_false. by intros <-.
Qed.

Lemma ValidateKey_label `{DNSValidationLaws} k :
  ValidateKey k = Ok () → contains_char "." (kNamespace k) = false.
Proof.
  unfold ValidateKey. destruct (IsDNS1123Label (kNamespace k)) eqn:E; [|done]. intros _.
  by apply label_no_dot, label_sound.
Qed.

Lemma k8sLeaseName_inj `{DNSValidationLaws} k k' :
  ValidateKey k = Ok () → ValidateKey k' = Ok () → k8sLeaseName k = k8sLeaseName k' → k = k'.
Proof.
  intros Hk%ValidateKey_label Hk'%ValidateKey_label E. destruct k as [a b], k' as [a' b'].
  unfold k8sLeaseName in E. cbn in *. apply join_sep_inj in E as [? ?]; congruence.
Qed.

(** ** Encoding *)

(** What a record becomes on its way through a Lease object. *)
Definition norm_k8s (r : LeaseRecord) : LeaseRecord :=
  MkRecord (rKey r) (rHolder r)
    (if Tombstone r && (rTTL r =? 0) then 0 else wrap64 (wrap32 (Z.quot (rTTL r) Second) * Second))
    (Truncate (rAcquiredAt r) Microsecond) (Truncate (rRenewedAt r) Microsecond)
    (rFencingToken r) (rVersion r).

#[export] Instance norm_k8s_ok : NormOK norm_k8s.
Proof. by split. Qed.

Lemma micro_default t : default 0 (micro (Some t)) = Truncate t Microsecond.
Proof. unfold micro, IsZero. cbn. destruct (Z.eqb_spec t 0); [by subst|done]. Qed.

Lemma parse_version v : 1 ≤ v ≤ MaxInt64 →
  match ParseInt (FormatInt v) 64 with None => 1 | Some v => if v <? 1 then 1 else v end = v.
Proof.
  intros Hv. rewrite ParseInt_FormatInt.
  - destruct (Z.ltb_spec v 1); lia.
  - unfold MaxInt64 in Hv. cbn. lia.
Qed.

(** An object carrying the record's annotations and spec reads back as it. *)
Lemma recordFromLease_written l r v rv :
  1 ≤ v ≤ MaxInt64 →
  l_annotations l !! tenantNamespaceAnnotation = Some (kNamespace (rKey r)) →
  l_annotations l !! leaseNameAnnotation = Some (kName (rKey r)) →
  l_annotations l !! versionAnnotation = Some (FormatInt v) →
  l_holderIdentity l = Some (rHolder r) → l_leaseDurationSeconds l = leaseDuration r →
  l_acquireTime l = Some (rAcquiredAt r) → l_renewTime l = Some (rRenewedAt r) →
  l_leaseTransitions l = Some (rFencingToken r) →
  recordFromLease (wire rv l) = Ok (set_version v (norm_k8s r)).
Proof.
  intros Hv Ht Hn Hver Hh Hd Ha Hr Hf. unfold recordFromLease, versionFromLease, annotation.
  cbn [wire l_annotations l_holderIdentity l_leaseDurationSeconds l_acquireTime l_renewTime
       l_leaseTransitions].
  rewrite Ht, Hn, Hver, Hh, Hd, Ha, Hr, Hf, !micro_default. cbn [from_option id default].
  rewrite parse_version by done. unfold set_version, norm_k8s, leaseDuration. destruct (rKey r).
  by destruct (_ && _).
Qed.

Lemma leaseFromRecord_roundtrip r ns v rv :
  1 ≤ v ≤ MaxInt64 →
  recordFromLease (wire rv (leaseFromRecord r ns v)) = Ok (set_version v (norm_k8s r)).
Proof. intros Hv. by apply recordFromLease_written. Qed.

Lemma applyRecordToLease_roundtrip l r v rv :
  1 ≤ v ≤ MaxInt64 →
  recordFromLease (wire rv (applyRecordToLease l r v)) = Ok (set_version v (norm_k8s r)).
Proof.
  intros Hv. apply recordFromLease_written; try done; cbn.
  - by rewrite lookup_insert_ne, lookup_insert_ne, lookup_insert_eq.
  - by rewrite lookup_insert_ne, lookup_insert_eq.
  - by rewrite lookup_insert_eq.
Qed.

(** ** The records of a namespace *)

Section lookup.
Context `{DNSValidationLaws}.

Lemma abs_lookup s k r :
  k_wf s →
  abs s !! k = Some r ↔
  ∃ l, k_objs s !! k8sLeaseName k = Some l ∧ recordFromLease l = Ok r ∧ rKey r = k.
Proof.
  intros Hwf. unfold abs.
  assert (∀ k r, (k, r) ∈ omap (λ nl, decoded nl.2) (map_to_list (k_objs s)) ↔
    ∃ l, k_objs s !! k8sLeaseName k = Some l ∧ recordFromLease l = Ok r ∧ rKey r = k) as Hin.
  { clear k r. intros k r. rewrite list_elem_of_omap. unfold decoded. split.
    - intros ([n l] & Hl%elem_of_map_to_list & Hd). cbn in Hd.
      destruct (Hwf _ _ Hl) as (_ & _ & r' & Hr & <- & _). rewrite Hr in Hd. simplify_eq.
      by exists l.
    - intros (l & Hl & Hr & <-). exists (k8sLeaseName (rKey r), l).
      rewrite elem_of_map_to_list. cbn. by rewrite Hr. }
  rewrite <- Hin. split; [apply elem_of_list_to_map_2|]. intros Hkr.
  apply elem_of_list_to_map_1'; [|done]. intros r' Hr'.
  apply Hin in Hr' as (l' & Hl' & ? & _). apply Hin in Hkr as (l & Hl & ? & _). congruence.
Qed.

Lemma abs_lookup_name s k l r :
  k_wf s → ValidateKey k = Ok () →
  k_objs s !! k8sLeaseName k = Some l → recordFromLease l = Ok r → abs s !! k = Some r.
Proof.
  intros Hwf Hk Hl Hr. apply abs_lookup; [done|]. exists l. split_and!; [done..|].
  destruct (Hwf _ _ Hl) as (_ & _ & r' & Hr' & Hn & Hv).
  assert (r' = r) as -> by congruence. by apply k8sLeaseName_inj.
Qed.

Lemma abs_lookup_none s k :
  k_wf s → k_objs s !! k8sLeaseName k = None → abs s !! k = None.
Proof.
  intros Hwf Hl. apply eq_None_not_Some. intros [r Hr].
  apply abs_lookup in Hr as (? & ? & _); [congruence|done].
Qed.

(** Writing an object is writing its record. *)
Lemma write_obj_wf s l r :
  k_wf s → ValidateKey (rKey r) = Ok () → l_name l = k8sLeaseName (rKey r) →
  recordFromLease (wire (k_rev s + 1) l) = Ok r →
  k_wf (write_obj l s) ∧ abs (write_obj l s) = <[rKey r := r]> (abs s).
Proof.
  intros Hwf Hk Hn Hr. assert (k_wf (write_obj l s)) as Hwf'.
  { intros n l'. cbn. rewrite lookup_insert. case_decide as Hd.
    - intros [= <-]. cbn. split_and!; [done|lia|]. exists r. by rewrite <- Hn.
    - intros Hl. destruct (Hwf _ _ Hl) as (? & ? & ?). split_and!; [done|lia|done]. }
  split; [done|]. apply map_eq. intros k. apply option_eq. intros r'.
  rewrite (abs_lookup _ _ _ Hwf'), lookup_insert_Some. cbn. setoid_rewrite lookup_insert_Some.
  rewrite (abs_lookup _ _ _ Hwf). split.
  - intros (l' & [[Hname <-]|[Hname Hl']] & Hr' & Hk'); [left; split; congruence|right].
    split; [intros <-; congruence|by exists l'].
  - intros [[<- <-]|[Hne (l' & Hl' & Hr' & Hk')]]; [by exists (wire (k_rev s + 1) l); auto|].
    exists l'. split; [|done].
    right. split; [|done]. intros Hname. destruct (Hwf _ _ Hl') as (_ & _ & r2 & ? & ? & Hv2).
    simplify_eq. apply Hne, k8sLeaseName_inj; congruence.
Qed.

Lemma put_pred_name s v k l :
  k_wf s → ValidateKey k = Ok () → v ≠ 0 → k_objs s !! k8sLeaseName k = Some l →
  put_pred (abs s) v k ↔ versionFromLease l = v.
Proof.
  intros Hwf Hk Hv Hl. destruct (Hwf _ _ Hl) as (_ & _ & r & Hr & _ & _).
  unfold put_pred. rewrite (proj2 (Z.eqb_neq v 0) Hv), (abs_lookup_name _ _ _ _ Hwf Hk Hl Hr).
  cbn. unfold recordFromLease in Hr. repeat case_match; simplify_eq. cbn. naive_solver.
Qed.
End lookup.

(** ** Every call takes effect at one point *)

Abbreviation linearized := (linearized abs norm_k8s).

Section runs.
Context `{DNSValidationLaws} `{KubeDocumented}.

Lemma kexec_op {A X} (e : kubeE X) (k : X → prog kubeE A) s tr a s' :
  kexec (trigger e ≫= k) s tr a s' →
  ∃ s1 x s2 tr', rely s s1 ∧ kube_doc s1 e x s2 ∧ tr = (s1, s2) :: tr' ∧ kexec (k x) s2 tr' a s'.
Proof.
  intros (s1 & x & s2 & tr' & Hrely & Hstep & -> & Hk). apply kube_documented in Hstep. eauto 10.
Qed.

Lemma kexec_ret {A} (a a' : A) s tr s' :
  kexec (mret a') s tr a s' → a = a' ∧ tr = [] ∧ s' = s.
Proof. done. Qed.

(** A read, then an update at the revision read: the object is the one read. *)
Lemma rv_same s1 s2 n cur l :
  k_wf s1 → rely s1 s2 → k_objs s1 !! n = Some cur → l_name l = n →
  l_resourceVersion l = l_resourceVersion cur → rv_matches l s2 → k_objs s2 !! n = Some cur.
Proof.
  intros Hwf (_ & _ & Hold) Hcur <- Hrv Hm. unfold rv_matches in Hm.
  destruct (k_objs s2 !! l_name l) as [c|] eqn:Hc; [|done]. cbn in Hm. simplify_eq.
  rewrite <- Hcur. symmetry. apply Hold; [done|].
  destruct (Hwf _ _ Hcur) as (_ & ? & _). congruence.
Qed.

Lemma update_effect s v r cur :
  k_wf s → ValidateKey (rKey r) = Ok () → 1 ≤ v < MaxInt64 →
  k_objs s !! k8sLeaseName (rKey r) = Some cur → versionFromLease cur = v →
  let l := applyRecordToLease cur r (wrap64 (v + 1)) in
  put_pred (abs s) v (rKey r) ∧ k_wf (write_obj l s) ∧
  abs (write_obj l s) = <[rKey r := stored norm_k8s v r]> (abs s).
Proof.
  intros Hwf Hk Hv Hcur Hver l. split; [apply (put_pred_name _ _ _ cur); [done..|lia|done|done]|].
  destruct (Hwf _ _ Hcur) as (Hname & _).
  apply (write_obj_wf s l (stored norm_k8s v r)); [done|done|done|].
  apply applyRecordToLease_roundtrip. rewrite wrap64_id; unfold int64, MinInt64; lia.
Qed.

(** The run ends here, with the records as they were. *)
Local Ltac ends_unchanged Hrun :=
  apply kexec_ret in Hrun as (-> & -> & ->); split; [done|apply linearized_unchanged].

Lemma linearized_skip v r s tr x s' :
  k_wf s' ∧ linearized (EPut v (Some r)) tr x s' →
  k_wf s' ∧ linearized (EPut v (Some r)) ((s, s) :: tr) x s'.
Proof. intros [? ?]. split; [done|by apply linearized_cons]. Qed.

Lemma put_update_linearized n v r s tr x s' :
  k_wf s → ValidateKey (rKey r) = Ok () → 1 ≤ v < MaxInt64 →
  kexec (put_update n v r) s tr x s' →
  (tr = [] ∧ x = Err ErrConflict ∧ s' = s) ∨
  (k_wf s' ∧ linearized (EPut v (Some r)) tr x s').
Proof.
  intros Hwf0 Hk Hv. revert s tr Hwf0.
  induction n as [|n IH]; intros s tr Hwf0 Hrun; [by left; apply kexec_ret in Hrun as (-> & -> & ->)|].
  right. cbn [put_update] in Hrun.
  apply kexec_op in Hrun as (s1 & ce & s1' & tr1 & (Hwf1 & _ & _) & (-> & _) & -> & Hrun).
  destruct ce as [e|]; [ends_unchanged Hrun|].
  apply kexec_op in Hrun as (s2 & got & s2' & tr2 & (Hwf2 & _ & _) & (-> & Hgot) & -> & Hrun).
  apply linearized_skip. destruct got as [ge|cur]; [destruct ge; ends_unchanged Hrun|].
  destruct (Z.eqb_spec (versionFromLease cur) v) as [Hver|Hver]; cbn [negb] in Hrun;
    [|ends_unchanged Hrun].
  apply kexec_op in Hrun as (s3 & upd & s3' & tr3 & Hrely3 & Hupd & -> & Hrun).
  set (l := applyRecordToLease cur r (wrap64 (v + 1))) in *.
  assert (k_wf s3) as Hwf3 by apply Hrely3.
  assert (rv_matches l s3 → put_pred (abs s3) v (rKey r) ∧ k_wf (write_obj l s3) ∧
    abs (write_obj l s3) = <[rKey r := stored norm_k8s v r]> (abs s3)) as Heff.
  { intros Hm. apply update_effect; [done..| |done].
    apply (rv_same s2 s3 _ cur l); [done..| |done|done]. by destruct (Hwf2 _ _ Hgot). }
  apply linearized_skip.
  destruct upd as [ue|[]]; [destruct ue as [| | |msg]|]; cbn in Hupd.
  - subst s3'. ends_unchanged Hrun.
  - subst s3'. ends_unchanged Hrun.
  - subst s3'. destruct (IH _ _ Hwf3 Hrun) as [(-> & -> & ->)|?];
      [split; [done|apply linearized_unchanged]|by apply linearized_skip].
  - destruct Hupd as [-> |[Hm ->]]; [ends_unchanged Hrun|].
    apply kexec_ret in Hrun as (-> & -> & ->). destruct (Heff Hm) as (Hp & Hwf' & Habs).
    split; [done|]. apply linearized_last. right. by rewrite Habs.
  - apply kexec_ret in Hrun as (-> & -> & ->). destruct Hupd as [Hm ->].
    destruct (Heff Hm) as (Hp & Hwf' & Habs). split; [done|]. apply linearized_last. by split.
Qed.

Lemma put_linearized ns v r s tr x s' :
  k_wf s → ValidateKey (rKey r) = Ok () → 0 ≤ v < MaxInt64 →
  kexec (k8s_Put ns v (Some r)) s tr x s' →
  k_wf s' ∧ linearized (EPut v (Some r)) tr x s'.
Proof.
  intros Hwf0 Hk Hv Hrun. unfold k8s_Put in Hrun. destruct (Z.eqb_spec v 0) as [->|Hv0].
  - apply kexec_op in Hrun as (s1 & got & s1' & tr1 & (Hwf1 & _ & _) & Hgot & -> & Hrun).
    destruct (write_obj_wf s1 (leaseFromRecord r ns 1) (stored norm_k8s 0 r)) as [Hwf' Habs];
      [done..|by apply leaseFromRecord_roundtrip|].
    assert (k_objs s1 !! k8sLeaseName (rKey r) = None → put_pred (abs s1) 0 (rKey r)) as Hp
      by (intros; by apply abs_lookup_none).
    destruct got as [[| | |msg]|[]]; cbn in Hgot.
    + subst s1'. ends_unchanged Hrun.
    + destruct Hgot as [-> _]. ends_unchanged Hrun.
    + subst s1'. ends_unchanged Hrun.
    + destruct Hgot as [-> |[Hm ->]]; [ends_unchanged Hrun|].
      apply kexec_ret in Hrun as (-> & -> & ->).
      split; [done|]. apply linearized_last. right. rewrite Habs. auto.
    + apply kexec_ret in Hrun as (-> & -> & ->). destruct Hgot as [Hm ->].
      split; [done|]. apply linearized_last. split; auto.
  - destruct (put_update_linearized maxPutUpdateAttempts v r s tr x s') as [(-> & _)|?];
      [done|done|lia|done| |done].
    cbn in Hrun. naive_solver.
Qed.

Lemma get_linearized k s tr x s' :
  ValidateKey k = Ok () → kexec (k8s_Get k) s tr x s' → k_wf s' ∧ linearized (EGet k) tr x s'.
Proof.
  intros Hk Hrun.
  apply kexec_op in Hrun as (s1 & got & s1' & tr1 & (Hwf1 & _ & _) & [-> Hgot] & -> & Hrun).
  apply kexec_ret in Hrun as (-> & -> & ->). split; [done|]. apply linearized_last. split; [done|].
  destruct got as [[| | |msg]|l]; cbn; [|done..|].
  - intros _. by apply abs_lookup_none.
  - destruct (recordFromLease l) as [r|e] eqn:Hr; [by eapply abs_lookup_name|].
    unfold recordFromLease in Hr. by repeat case_match; simplify_eq.
Qed.

Lemma list_linearized s tr x s' :
  kexec k8s_List s tr x s' → k_wf s' ∧ linearized EList tr x s'.
Proof.
  intros Hrun.
  apply kexec_op in Hrun as (s1 & got & s1' & tr1 & (Hwf1 & _ & _) & [-> Hgot] & -> & Hrun).
  apply kexec_ret in Hrun as (-> & -> & ->). split; [done|]. apply linearized_last. split; [done|].
  destruct got as [e|ls]; [done|]. intros r (l & Hl & Hr)%list_elem_of_omap.
  destruct (Hgot _ Hl) as [_ [n Hn]]. destruct (Hwf1 _ _ Hn) as (_ & _ & r' & Hr' & <- & _).
  rewrite Hr' in Hr. simplify_eq. apply abs_lookup; [done|]. by exists l.
Qed.

Lemma put_update_conflict n v r s tr s' :
  ValidateKey (rKey r) = Ok () → 1 ≤ v →
  kexec (put_update n v r) s tr (Err ErrConflict) s' →
  length tr = (3 * n)%nat ∨ ∃ s1, (s1, s1) ∈ tr ∧ k_wf s1 ∧ ¬ put_pred (abs s1) v (rKey r).
Proof.
  intros Hk Hv. revert s tr.
  induction n as [|n IH]; intros s tr Hrun; [by left; apply kexec_ret in Hrun as (_ & -> & _)|].
  cbn [put_update] in Hrun.
  apply kexec_op in Hrun as (s1 & ce & s1' & tr1 & (Hwf1 & _ & _) & (-> & _) & -> & Hrun).
  destruct ce as [e|]; [by apply kexec_ret in Hrun as [? _]|].
  apply kexec_op in Hrun as (s2 & got & s2' & tr2 & (Hwf2 & _ & _) & (-> & Hgot) & -> & Hrun).
  destruct got as [ge|cur].
  { destruct ge; [|by apply kexec_ret in Hrun as [? _]..]. right. exists s2.
    split_and!; [set_solver|done|]. unfold put_pred.
    by rewrite (proj2 (Z.eqb_neq v 0)), abs_lookup_none by first [done|lia]. }
  destruct (Z.eqb_spec (versionFromLease cur) v) as [Hver|Hver]; cbn [negb] in Hrun.
  - apply kexec_op in Hrun as (s3 & upd & s3' & tr3 & _ & _ & -> & Hrun).
    destruct upd as [[| | |msg]|[]]; try by apply kexec_ret in Hrun as [? _].
    destruct (IH _ _ Hrun) as [Hlen|(s4 & ? & ? & ?)]; [left; cbn; lia|right].
    exists s4. split_and!; [set_solver|done..].
  - right. exists s2. split_and!; [set_solver|done|].
    rewrite (put_pred_name _ _ _ cur); [done..|lia|done].
Qed.
End runs.

(** ** A concrete API server *)

(** An API server that never fails, for concrete runs. *)
Definition kube_mem {X} (e : kubeE X) (s : kstate) : X * kstate :=
  match e with
  | KGet n => (match k_objs s !! n with Some l => inr l | None => inl KNotFound end, s)
  | KCreate l =>
      match k_objs s !! l_name l with
      | Some _ => (inl KAlreadyExists, s)
      | None => (inr (), write_obj l s)
      end
  | KUpdate l =>
      match k_objs s !! l_name l with
      | None => (inl KNotFound, s)
      | Some c =>
          if l_resourceVersion c =? l_resourceVersion l then (inr (), write_obj l s)
          else (inl KConflict, s)
      end
  | KList sel _ => (inr (filter (selected sel) (map_to_list (k_objs s)).*2), s)
  | KCtxErr => (None, s)
  end.

Definition kube_mem_server : Kube := λ X s e x s', kube_mem e s = (x, s').

Lemma kube_mem_documented : @KubeDocumented kube_mem_server.
Proof.
  intros X s e x s' E. unfold kube_step, kube_mem_server in E.
  destruct e as [n|l|l|sel lim|]; cbn in E.
  - simplify_eq. split; [done|]. by destruct (k_objs s' !! n).
  - destruct (k_objs s !! l_name l) eqn:Hl; simplify_eq; cbn; by rewrite ?Hl.
  - unfold rv_matches. destruct (k_objs s !! l_name l) as [c|] eqn:Hl; [|by simplify_eq].
    destruct (Z.eqb_spec (l_resourceVersion c) (l_resourceVersion l)) as [Hrv|]; simplify_eq; [|done].
    cbn. unfold rv_matches. rewrite Hl. cbn. by rewrite Hrv.
  - simplify_eq. split; [done|]. intros l [Hsel ([n l'] & -> & Hl)%list_elem_of_fmap]%list_elem_of_filter.
    apply elem_of_map_to_list in Hl. eauto.
  - by simplify_eq.
Qed.

Definition kube_init : kstate := MkKState ∅ 41.
Definition kube_rec (holder : string) : LeaseRecord :=
  MkRecord (MkKey "pipeline" "ingest-worker") holder (30 * Second) (Second + 1) (Second + 1) 1 0.
Definition kube_one : kstate := write_obj (leaseFromRecord (kube_rec "east") "berth" 1) kube_init.

Lemma kube_init_wf : k_wf kube_init.
Proof. intros n l. cbn. by rewrite lookup_empty. Qed.

Lemma kube_one_wf : k_wf kube_one.
Proof.
  apply (write_obj_wf kube_init _ (set_version 1 (norm_k8s (kube_rec "east"))) kube_init_wf);
    [vm_compute; reflexivity|done|by apply leaseFromRecord_roundtrip].
Qed.

Lemma rely_refl s : k_wf s → rely s s.
Proof. intros Hs. split; [done|]. split; [lia|done]. Qed.

(** ** The theorems *)

(** C12: distinct keys never share a Lease object: on the keys [ValidateKey]
    accepts, the object name determines the key, and the object written for a
    record reads back as that record, with its times cut to microseconds and
    its TTL to whole seconds. *)
Theorem k8s_encoding_faithful `{DNSValidationLaws} k k' r ns v rv :
  ValidateKey k = Ok () → ValidateKey k' = Ok () → 1 ≤ v ≤ MaxInt64 →
  (k8sLeaseName k = k8sLeaseName k' → k = k') ∧
  recordFromLease (wire rv (leaseFromRecord r ns v)) = Ok (set_version v (norm_k8s r)) ∧
  ∀ l, recordFromLease (wire rv (applyRecordToLease l r v)) = Ok (set_version v (norm_k8s r)).
Proof.
  intros Hk Hk' Hv. split_and!.
  - by apply k8sLeaseName_inj.
  - by apply leaseFromRecord_roundtrip.
  - intros l. by apply applyRecordToLease_roundtrip.
Qed.

Lemma k8s_encoding_faithful_witness :
  recordFromLease (wire 7 (leaseFromRecord (kube_rec "east") "berth" 12)) =
  Ok (set_version 12 (norm_k8s (kube_rec "east"))).
Proof.
  refine (proj1 (proj2 (k8s_encoding_faithful (MkKey "a" "b.c") (MkKey "a-b" "c")
    (kube_rec "east") "berth" 12 7 _ _ _)));
    [vm_compute; reflexivity|vm_compute; reflexivity|unfold MaxInt64; lia].
Defined.



(** A conflict is never invented. An update answered [ErrConflict] either
    saw, in one of its own reads, a namespace in which the compare-and-swap
    predicate did not hold, or used up all its attempts (three requests each):
    a single write to metadata the backend does not own costs nobody a lease. *)
Theorem k8s_put_conflict_genuine `{DNSValidationLaws} `{KubeDocumented} ns v r s tr s' :
  ValidateKey (rKey r) = Ok () → 1 ≤ v →
  kexec (k8s_Put ns v (Some r)) s tr (Err ErrConflict) s' →
  length tr = (3 * maxPutUpdateAttempts)%nat ∨
  ∃ s1, (s1, s1) ∈ tr ∧ k_wf s1 ∧ ¬ put_pred (abs s1) v (rKey r).
Proof.
  intros Hk Hv Hrun. unfold k8s_Put in Hrun. rewrite (proj2 (Z.eqb_neq v 0)) in Hrun by lia.
  by eapply put_update_conflict.
Qed.

Lemma k8s_put_conflict_genuine_witness :
  length [(kube_one, kube_one); (kube_one, kube_one)] = 12%nat ∨
  ∃ s1, (s1, s1) ∈ [(kube_one, kube_one); (kube_one, kube_one)] ∧ k_wf s1 ∧
    ¬ put_pred (abs s1) 2 (rKey (kube_rec "west")).
Proof.
  apply (@k8s_put_conflict_genuine rfc1123 rfc1123_laws kube_mem_server kube_mem_documented
    "berth" 2 (kube_rec "west") kube_one _ kube_one); [vm_compute; reflexivity|lia|].
  exists kube_one, None, kube_one, [(kube_one, kube_one)].
  split_and!; [apply rely_refl, kube_one_wf|reflexivity|reflexivity|].
  eexists kube_one, _, kube_one, [].
  split_and!; [apply rely_refl, kube_one_wf|reflexivity|reflexivity|].
  vm_compute. auto.
Defined.
