(* ===== verification/AcquireConfig.v ===== *)
(** * Configuration of the injected helper

    [internal/acquire/config.go], [internal/acquire/env.go] and the retry
    cadence of [internal/acquire/acquire.go]: defaulting, validation, the
    holder identity and the environment it is read from. *)

From S2P Require Import Prelude GoStrings Store.

Definition ModeStartupGate : string := "startup-gate".
Definition ModeRuntimeSingleton : string := "runtime-singleton".
Definition EnforceProbe : string := "probe".
Definition EnforceSignal : string := "signal".
Definition DefaultStateDir : string := "/berth".

Record Config := MkConfig {
  LeaseName : string;
  LeaseNamespace : string;
  Mode : string;
  Enforce : string;
  cTTL : Z;
  HeartbeatInterval : Z;
  EnforceGrace : Z;
  SignalTarget : string;
  ReleaseOnShutdown : option bool;
  HolderIdentity : string;
  ClusterID : string;
  PodNamespace : string;
  PodName : string;
  PodUID : string;
  WorkloadKind : string;
  WorkloadName : string;
  StateDir : string;
  APIServer : string;
  APIKey : string;
  APIKeyFile : string;
  CABundleFile : string;
  ServerName : string;
  InsecureSkipVerify : bool }.

(** [if s == "" { s = d }]. *)
Definition or_default (d s : string) : string := if s == "" then d else s.

Definition ApplyDefaults (c : Config) : Config :=
  let mode := or_default ModeRuntimeSingleton (Mode c) in
  {| LeaseName := LeaseName c;
     LeaseNamespace := or_default (PodNamespace c) (LeaseNamespace c);
     Mode := mode;
     Enforce := or_default EnforceProbe (Enforce c);
     cTTL := cTTL c;
     HeartbeatInterval :=
       if (HeartbeatInterval c <=? 0) && (cTTL c >? 0) then Z.quot (cTTL c) 3 else HeartbeatInterval c;
     EnforceGrace := EnforceGrace c;
     SignalTarget := SignalTarget c;
     ReleaseOnShutdown :=
       match ReleaseOnShutdown c with
       | None => Some (mode == ModeRuntimeSingleton)
       | Some b => Some b
       end;
     HolderIdentity := HolderIdentity c;
     ClusterID := ClusterID c;
     PodNamespace := PodNamespace c;
     PodName := PodName c;
     PodUID := PodUID c;
     WorkloadKind := WorkloadKind c;
     WorkloadName := WorkloadName c;
     StateDir := or_default DefaultStateDir (StateDir c);
     APIServer := APIServer c;
     APIKey := APIKey c;
     APIKeyFile := APIKeyFile c;
     CABundleFile := CABundleFile c;
     ServerName := ServerName c;
     InsecureSkipVerify := InsecureSkipVerify c |}.

(** The segments of a derived holder; empty segments are left out, the pod UID
    never is. *)
Definition holder_parts (c : Config) : list string :=
  let add s := if s == "" then [] else [s] in
  add (ClusterID c) ++ add (PodNamespace c) ++ add (WorkloadKind c) ++ add (WorkloadName c) ++
  (if Mode c == ModeStartupGate then
     if (WorkloadKind c == "") && (WorkloadName c == "") then add (PodName c) else []
   else
     (if PodName c != "" then ["pod"; PodName c] else []) ++ ["uid"; PodUID c]).

Definition Holder (c : Config) : string :=
  if HolderIdentity c != "" then HolderIdentity c
  else
    match holder_parts c with
    | root :: ((_ :: _) as rest) => root +:+ "/" +:+ Join rest ":"
    | parts => Join parts ":"
    end.

(** The bytes [strings.ContainsAny] looks for in a pod UID: a colon, a slash, a
    space, a tab, a carriage return and a line feed. *)
Definition uid_forbidden : string :=
  ":/ " +:+ String "009" (String "013" (String "010" EmptyString)).

(** The checks of [Validate] after defaulting, in the order of the code. *)
Definition validate_defaulted (c : Config) : result unit :=
  if LeaseName c == "" then Err (ErrMsg "lease name is required")
  else if LeaseNamespace c == "" then Err (ErrMsg "lease namespace is required")
  else if (Mode c != ModeStartupGate) && (Mode c != ModeRuntimeSingleton)
  then Err (ErrMsg "invalid mode")
  else if (Enforce c != EnforceProbe) && (Enforce c != EnforceSignal)
  then Err (ErrMsg "invalid enforce")
  else if (Mode c == ModeRuntimeSingleton) && (Enforce c == EnforceSignal) && (SignalTarget c == "")
  then Err (ErrMsg "signal target is required")
  else if (Mode c == ModeRuntimeSingleton) && (HolderIdentity c == "") && (PodUID c == "")
  then Err (ErrMsg "pod UID is required for the runtime-singleton holder")
  else if (Mode c == ModeRuntimeSingleton) && (HolderIdentity c == "") &&
          (ContainsAny (PodUID c) uid_forbidden || (TrimSpace (PodUID c) != PodUID c))
  then Err (ErrMsg "pod UID must be a non-whitespace identity component without ':' or '/'")
  else if (Mode c == ModeRuntimeSingleton) && (HolderIdentity c == "") && (len (Holder c) >? 253)
  then Err (ErrMsg "runtime holder exceeds the API limit of 253 bytes")
  else if (cTTL c <=? 0) || (cTTL c >? MaxInt32 * Second)
  then Err (ErrMsg "ttl must be positive and at most 2147483647 seconds")
  else if HeartbeatInterval c <=? 0 then Err (ErrMsg "heartbeat interval must be positive")
  else if HeartbeatInterval c >=? cTTL c then Err (ErrMsg "heartbeat interval must be less than ttl")
  else if EnforceGrace c <? 0 then Err (ErrMsg "enforce grace must not be negative")
  else if APIServer c == "" then Err (ErrMsg "api server URL is required")
  else if (APIKey c != "") && (APIKeyFile c != "")
  then Err (ErrMsg "api key and api key file are mutually exclusive")
  else Ok ().

(** [Validate] defaults its receiver in place: the configuration afterwards and
    the verdict on it. *)
Definition Validate (c : Config) : result unit * Config :=
  let c' := ApplyDefaults c in (validate_defaulted c', c').

Definition retryInterval (c : Config) : Z :=
  if HeartbeatInterval c >? 0 then HeartbeatInterval c else Z.quot (cTTL c) 3.

(** ** The environment *)

Definition EnvLeaseName : string := "BERTH_LEASE_NAME".
Definition EnvLeaseNamespace : string := "BERTH_LEASE_NAMESPACE".
Definition EnvMode : string := "BERTH_MODE".
Definition EnvEnforce : string := "BERTH_ENFORCE".
Definition EnvSignalTarget : string := "BERTH_SIGNAL_TARGET".
Definition EnvTTLSeconds : string := "BERTH_TTL_SECONDS".
Definition EnvHeartbeatSecs : string := "BERTH_HEARTBEAT_SECONDS".
Definition EnvEnforceGrace : string := "BERTH_ENFORCE_GRACE_SECONDS".
Definition EnvReleaseOnDown : string := "BERTH_RELEASE_ON_SHUTDOWN".
Definition EnvHolderIdentity : string := "BERTH_HOLDER_IDENTITY".
Definition EnvClusterID : string := "BERTH_CLUSTER_ID".
Definition EnvWorkloadKind : string := "BERTH_WORKLOAD_KIND".
Definition EnvWorkloadName : string := "BERTH_WORKLOAD_NAME".
Definition EnvStateDir : string := "BERTH_STATE_DIR".
Definition EnvAPIServer : string := "BERTH_API_SERVER".
Definition EnvAPIKey : string := "BERTH_API_KEY".
Definition EnvAPIKeyFile : string := "BERTH_API_KEY_FILE".
Definition EnvCABundleFile : string := "BERTH_CA_BUNDLE_FILE".
Definition EnvServerName : string := "BERTH_SERVER_NAME".
Definition EnvInsecure : string := "BERTH_INSECURE_SKIP_TLS_VERIFY".
Definition EnvPodNamespace : string := "POD_NAMESPACE".
Definition EnvPodName : string := "POD_NAME".
Definition EnvPodUID : string := "POD_UID".

Definition secondsEnv (get : string → string) (key : string) : result Z :=
  if get key == "" then Ok 0
  else match Atoi (get key) with
       | None => Err (ErrMsg (key +:+ ": must be an integer number of seconds"))
       | Some n => Ok (wrap64 (n * Second))
       end.

(** An optional boolean variable: absent, or parsed. *)
Definition boolEnv (get : string → string) (key : string) : result (option bool) :=
  if get key == "" then Ok None
  else match ParseBool (get key) with
       | None => Err (ErrMsg (key +:+ ": invalid boolean"))
       | Some b => Ok (Some b)
       end.

Definition ConfigFromEnv (get : string → string) : result Config :=
  ttl ← secondsEnv get EnvTTLSeconds;
  hb ← secondsEnv get EnvHeartbeatSecs;
  grace ← secondsEnv get EnvEnforceGrace;
  release ← boolEnv get EnvReleaseOnDown;
  insecure ← boolEnv get EnvInsecure;
  Ok {| LeaseName := get EnvLeaseName;
        LeaseNamespace := get EnvLeaseNamespace;
        Mode := get EnvMode;
        Enforce := get EnvEnforce;
        cTTL := ttl;
        HeartbeatInterval := hb;
        EnforceGrace := grace;
        SignalTarget := get EnvSignalTarget;
        ReleaseOnShutdown := release;
        HolderIdentity := get EnvHolderIdentity;
        ClusterID := get EnvClusterID;
        PodNamespace := get EnvPodNamespace;
        PodName := get EnvPodName;
        PodUID := get EnvPodUID;
        WorkloadKind := get EnvWorkloadKind;
        WorkloadName := get EnvWorkloadName;
        StateDir := get EnvStateDir;
        APIServer := get EnvAPIServer;
        APIKey := get EnvAPIKey;
        APIKeyFile := get EnvAPIKeyFile;
        CABundleFile := get EnvCABundleFile;
        ServerName := get EnvServerName;
        InsecureSkipVerify := default false insecure |}.

Lemma FormatInt_nonempty n : FormatInt n ≠ "".
Proof.
  destruct n; cbn -[format_nat]; try done;
    by match goal with |- format_nat ?m ≠ _ => destruct (format_nat_head m) as (? & ? & ? & -> & _) end.
Qed.

(** A printed number of seconds is read back, at the width of a duration. *)
Lemma secondsEnv_format get key n :
  get key = FormatInt n → int64 n → secondsEnv get key = Ok (wrap64 (n * Second)).
Proof.
  unfold int64, MinInt64, MaxInt64, secondsEnv, Atoi. intros -> Hn.
  rewrite bool_decide_false by apply FormatInt_nonempty. rewrite ParseInt_FormatInt; [done|]. cbn. lia.
Qed.

(** ** Defaulting and validation *)

Lemma or_default_idemp d s : or_default d (or_default d s) = or_default d s.
Proof. unfold or_default. repeat case_bool_decide; congruence. Qed.

Lemma or_default_quot h t :
  (if ((if (h <=? 0) && (t >? 0) then Z.quot t 3 else h) <=? 0) && (t >? 0) then Z.quot t 3
   else if (h <=? 0) && (t >? 0) then Z.quot t 3 else h) =
  (if (h <=? 0) && (t >? 0) then Z.quot t 3 else h).
Proof. repeat case_match; lia. Qed.

Lemma ApplyDefaults_idemp c : ApplyDefaults (ApplyDefaults c) = ApplyDefaults c.
Proof.
  unfold ApplyDefaults at 1. cbn. rewrite !or_default_idemp, or_default_quot.
  destruct c; cbn. by destruct ReleaseOnShutdown0.
Qed.

(** What a configuration that passed validation guarantees. *)
Record valid_config (c : Config) : Prop := {
  vc_mode : Mode c = ModeStartupGate ∨ Mode c = ModeRuntimeSingleton;
  vc_enforce : Enforce c = EnforceProbe ∨ Enforce c = EnforceSignal;
  vc_ttl : 0 < HeartbeatInterval c < cTTL c ∧ cTTL c ≤ MaxInt32 * Second;
  vc_grace : 0 ≤ EnforceGrace c;
  vc_signal : Mode c = ModeRuntimeSingleton → Enforce c = EnforceSignal → SignalTarget c ≠ "";
  vc_uid : Mode c = ModeRuntimeSingleton → HolderIdentity c = "" →
    PodUID c ≠ "" ∧ ContainsAny (PodUID c) uid_forbidden = false ∧ len (Holder c) ≤ 253 }.

Lemma validate_defaulted_sound c : validate_defaulted c = Ok () → valid_config c.
Proof.
  unfold validate_defaulted. intros Hv.
  repeat match type of Hv with
  | (if ?b then _ else _) = _ => let E := fresh "E" in destruct b eqn:E; [discriminate Hv|]
  end.
  split.
  - apply andb_false_iff in E1 as []; bool_simp; auto.
  - apply andb_false_iff in E2 as []; bool_simp; auto.
  - bool_simp. lia.
  - lia.
  - intros Hm He Ht. by rewrite !bool_decide_true in E3 by done.
  - intros Hm Hid. rewrite !(bool_decide_true _ Hm), !(bool_decide_true _ Hid) in *. cbn in E4, E5, E6.
    bool_simp. split_and!; [done|done|lia].
Qed.

(** ** The holder identity *)

Definition holder_sep (c : ascii) : bool := (c == ":"%char) || (c == "/"%char).

(** The text after the last separator. *)
Fixpoint last_segment (s : string) : option string :=
  match s with
  | EmptyString => None
  | String c s' =>
      match last_segment s' with
      | Some t => Some t
      | None => if holder_sep c then Some s' else None
      end
  end.

Lemma last_segment_none u :
  contains_char ":" u = false → contains_char "/" u = false → last_segment u = None.
Proof.
  induction u as [|c u IH]; cbn; [done|]. intros. bool_simp. rewrite IH by done.
  unfold holder_sep. by rewrite !bool_decide_false by congruence.
Qed.

Lemma last_segment_app x c u :
  holder_sep c = true → contains_char ":" u = false → contains_char "/" u = false →
  last_segment (x +:+ String c u) = Some u.
Proof.
  intros Hc H1 H2. induction x as [|d x IH].
  - rewrite app_string_nil_l. cbn. by rewrite last_segment_none, Hc.
  - rewrite app_string_cons. cbn. by rewrite IH.
Qed.

Lemma Join_snoc l a b sep : Join (l ++ [a; b]) sep = Join (l ++ [a]) sep +:+ sep +:+ b.
Proof.
  induction l as [|x l IH]; [done|]. cbn [app].
  destruct l as [|y l]; [cbn; by rewrite !app_string_assoc|]. cbn [app] in *.
  change (Join (x :: y :: l ++ [a; b]) sep) with (x +:+ sep +:+ Join (y :: l ++ [a; b]) sep).
  change (Join (x :: y :: l ++ [a]) sep) with (x +:+ sep +:+ Join (y :: l ++ [a]) sep).
  rewrite IH. by rewrite !app_string_assoc.
Qed.

(** A derived runtime holder ends in the pod UID, after a separator. *)
Lemma Holder_runtime_uid c :
  HolderIdentity c = "" → Mode c ≠ ModeStartupGate →
  ∃ x sep, Holder c = x +:+ String sep (PodUID c) ∧ holder_sep sep = true.
Proof.
  intros Hid Hm. unfold Holder. rewrite bool_decide_true by done. cbn [negb].
  assert (∃ l, holder_parts c = l ++ ["uid"; PodUID c]) as [l ->].
  { unfold holder_parts. rewrite (bool_decide_false _ Hm). eexists. by rewrite !app_assoc. }
  destruct l as [|p l]; [by exists "uid", "/"%char|].
  replace ((p :: l) ++ ["uid"; PodUID c]) with (p :: (l ++ ["uid"; PodUID c])) by done.
  destruct (l ++ ["uid"; PodUID c]) as [|q m] eqn:E; [by destruct l|]. rewrite <- E, Join_snoc.
  exists (p +:+ "/" +:+ Join (l ++ ["uid"]) ":"), ":"%char. split; [|done].
  change (String ":" (PodUID c)) with (":" +:+ PodUID c). by rewrite !app_string_assoc.
Qed.

Lemma ContainsAny_char s chars c :
  ContainsAny s chars = false → contains_char c chars = true → contains_char c s = false.
Proof.
  induction chars as [|d chars IH]; cbn; [done|]. intros H [Hc|Hc]%orb_prop; bool_simp; subst; auto.
Qed.

Lemma Holder_runtime_segment c :
  valid_config c → Mode c = ModeRuntimeSingleton → HolderIdentity c = "" →
  last_segment (Holder c) = Some (PodUID c).
Proof.
  intros Hv Hm Hid. destruct (vc_uid _ Hv Hm Hid) as (_ & Hf & _).
  destruct (Holder_runtime_uid c Hid) as (x & sep & -> & Hsep); [by rewrite Hm|].
  by apply last_segment_app; [|eapply ContainsAny_char..].
Qed.

(** The segment a derived holder is rooted at. *)
Definition holder_root (c : Config) : string :=
  if ClusterID c == "" then PodNamespace c else ClusterID c.

Lemma Holder_rooted c :
  HolderIdentity c = "" → holder_root c ≠ "" →
  Holder c = holder_root c ∨ HasPrefix (Holder c) (holder_root c +:+ "/") = true.
Proof.
  intros Hid Hroot. unfold Holder. rewrite bool_decide_true by done. cbn [negb].
  assert (∃ l, holder_parts c = holder_root c :: l) as [l ->].
  { unfold holder_parts, holder_root in *. destruct (ClusterID c == ""); [|by eexists].
    by rewrite (bool_decide_false _ Hroot); eexists. }
  destruct l as [|q l]; [by left|right]. rewrite app_string_assoc. apply HasPrefix_app.
Qed.

(** ** The theorems *)

(** A configuration that passes [Validate] is safe to run with. Its
    heartbeat falls strictly inside the TTL, the TTL fits the API's int32
    seconds, mode and enforcement are known, signal enforcement has a target,
    a derived runtime holder is one the lease API accepts, and validating the
    defaulted configuration again changes nothing. *)
Theorem Validate_sound c c' :
  Validate c = (Ok (), c') →
  valid_config c' ∧ Validate c' = (Ok (), c') ∧
  (Mode c' = ModeRuntimeSingleton → HolderIdentity c' = "" → ValidateHolder (Holder c') = Ok ()).
Proof.
  unfold Validate. intros [= Hv <-]. pose proof (validate_defaulted_sound _ Hv) as Hvalid.
  rewrite ApplyDefaults_idemp, Hv. split_and!; [done|done|]. intros Hm Hid.
  destruct (vc_uid _ Hvalid Hm Hid) as (_ & _ & Hlen). unfold ValidateHolder, MaxHolderBytes.
  pose proof (Holder_runtime_segment _ Hvalid Hm Hid) as Hseg.
  rewrite bool_decide_false by (intros E; by rewrite E in Hseg).
  by destruct (len (Holder (ApplyDefaults c)) >? 253) eqn:E; [lia|].
Qed.

Definition demo_config (ttl : Z) (uid : string) : Config :=
  {| LeaseName := "ingest-worker"; LeaseNamespace := ""; Mode := ""; Enforce := "";
     cTTL := ttl; HeartbeatInterval := 0; EnforceGrace := 0; SignalTarget := "";
     ReleaseOnShutdown := None; HolderIdentity := ""; ClusterID := "east";
     PodNamespace := "pipeline"; PodName := "ingest-0"; PodUID := uid;
     WorkloadKind := "deployment"; WorkloadName := "ingest"; StateDir := "";
     APIServer := "https://berth"; APIKey := ""; APIKeyFile := ""; CABundleFile := "";
     ServerName := ""; InsecureSkipVerify := false |}.

Lemma Validate_sound_witness :
  valid_config (ApplyDefaults (demo_config (30 * Second) "3f1c")) ∧
  Holder (ApplyDefaults (demo_config (30 * Second) "3f1c")) =
    "east/pipeline:deployment:ingest:pod:ingest-0:uid:3f1c".
Proof.
  split; [|vm_compute; reflexivity].
  apply (Validate_sound (demo_config (30 * Second) "3f1c")). vm_compute. reflexivity.
Defined.

(** Two pods never share a derived runtime holder: the holders of two
    validated configurations differ whenever the pod UIDs do, whatever the
    cluster, namespace, workload and pod names are. *)
Theorem runtime_holders_distinct c1 c2 c1' c2' :
  Validate c1 = (Ok (), c1') → Validate c2 = (Ok (), c2') →
  Mode c1' = ModeRuntimeSingleton → Mode c2' = ModeRuntimeSingleton →
  HolderIdentity c1' = "" → HolderIdentity c2' = "" →
  PodUID c1' ≠ PodUID c2' → Holder c1' ≠ Holder c2'.
Proof.
  unfold Validate. intros [= Hv1%validate_defaulted_sound <-] [= Hv2%validate_defaulted_sound <-].
  intros Hm1 Hm2 Hid1 Hid2 Hne Heq.
  pose proof (Holder_runtime_segment _ Hv1 Hm1 Hid1) as Hs1.
  pose proof (Holder_runtime_segment _ Hv2 Hm2 Hid2) as Hs2. congruence.
Qed.

Lemma runtime_holders_distinct_witness :
  Holder (ApplyDefaults (demo_config (30 * Second) "3f1c")) ≠
  Holder (ApplyDefaults (demo_config (30 * Second) "9b77")).
Proof.
  apply (runtime_holders_distinct (demo_config (30 * Second) "3f1c")
    (demo_config (30 * Second) "9b77")); vm_compute; try reflexivity. discriminate.
Defined.

Definition overflow_env (k : string) : string :=
  if k == EnvTTLSeconds then "18446744075"
  else if k == EnvPodUID then "3f1c"
  else if k == EnvPodNamespace then "pipeline"
  else if k == EnvLeaseName then "ingest-worker"
  else if k == EnvAPIServer then "https://berth"
  else "".

(** Durations from the environment. A number of seconds whose
    nanoseconds fit int64 is read exactly; one that does not wraps around
    silently, and the wrapped value can pass validation: 18446744075 seconds
    is accepted as a TTL of 1.29 s, which is not a whole number of seconds, so
    the lease the API grants for it ends before the helper's own deadline. *)
Theorem seconds_env_range :
  (∀ get key n, get key = FormatInt n → int64 n → int64 (n * Second) →
     secondsEnv get key = Ok (n * Second)) ∧
  ∃ c, ConfigFromEnv overflow_env = Ok c ∧ fst (Validate c) = Ok () ∧
    cTTL c = 1290448384 ∧ Z.quot (cTTL c) Second * Second < cTTL c.
Proof.
  split.
  - intros get key n Hget Hn Hsec. rewrite (secondsEnv_format get key n) by done. by rewrite wrap64_id.
  - eexists. split; [vm_compute; reflexivity|]. vm_compute. auto.
Qed.
