(* ===== verification/State.v ===== *)
(** * The helper's shared volume

    [internal/acquire/state.go]: the files the init container, the sidecar and
    the liveness probe share. The file system is the operating system's: its
    calls are effects, each may fail, and [fs_step] says what a call that
    succeeds or fails may leave behind. *)

From S2P Require Import Prelude GoStrings Store.

(** ** The file system *)

(** A path as its directory and last element, so that [filepath.Join] and
    [filepath.Dir] are pairing and projection. *)
Abbreviation path := (string * string)%type.

Record file := MkFile { f_data : string; f_mode : Z; f_mtime : Z }.

Inductive fileE : Type → Type :=
| FMkdirAll (dir : string) : fileE (result unit)
| FCreateTemp (dir pattern : string) : fileE (result path)
| FWrite (p : path) (data : string) : fileE (result unit)
| FChmod (p : path) (mode : Z) : fileE (result unit)
| FClose (p : path) : fileE (result unit)
| FRename (p q : path) : fileE (result unit)
| FRemove (p : path) : fileE (result unit)
| FReadFile (p : path) : fileE (result string)
| FStat (p : path) : fileE (result Z)
| FNow : fileE Z
| FExecutable : fileE (result path).

Abbreviation volume := (gmap path file).

(** What the calls may do. A failed write may have written a part; every other
    failed call leaves the files alone. [CreateTemp] picks a name that starts
    with its pattern and was free. *)
Definition fs_step (X : Type) (s : volume) (e : fileE X) : X → volume → Prop :=
  match e with
  | FMkdirAll _ => λ _ s', s' = s
  | FCreateTemp dir pattern => λ x s',
      match x with
      | Ok p => ∃ suffix t, p = (dir, pattern +:+ suffix) ∧ s !! p = None ∧
                  s' = <[p := MkFile "" 384 t]> s
      | Err _ => s' = s
      end
  | FWrite p data => λ x s',
      match x with
      | Ok _ => ∃ f t, s !! p = Some f ∧ s' = <[p := MkFile data (f_mode f) t]> s
      | Err _ => s' = s ∨ ∃ f d t, s !! p = Some f ∧ s' = <[p := MkFile d (f_mode f) t]> s
      end
  | FChmod p mode => λ x s',
      match x with
      | Ok _ => ∃ f, s !! p = Some f ∧ s' = <[p := MkFile (f_data f) mode (f_mtime f)]> s
      | Err _ => s' = s
      end
  | FClose _ => λ _ s', s' = s
  | FRename p q => λ x s',
      match x with
      | Ok _ => ∃ f, s !! p = Some f ∧ s' = <[q := f]> (delete p s)
      | Err _ => s' = s
      end
  | FRemove p => λ x s',
      match x with
      | Ok _ => is_Some (s !! p) ∧ s' = delete p s
      | Err e => s' = s ∧ (errors_Is e ErrNotExist = true → s !! p = None)
      end
  | FReadFile p => λ x s', s' = s ∧
      match x with
      | Ok d => f_data <$> s !! p = Some d
      | Err e => errors_Is e ErrNotExist = true → s !! p = None
      end
  | FStat p => λ x s', s' = s ∧
      match x with
      | Ok t => f_mtime <$> s !! p = Some t
      | Err e => errors_Is e ErrNotExist = true → s !! p = None
      end
  | FNow => λ _ s', s' = s
  | FExecutable => λ _ s', s' = s
  end.

Abbreviation fexec := (exec_rel fs_step).

(** [if _, err := ...; err != nil { return err }] with a wrapped error. *)
Definition try {E A} (msg : string) (p : prog E (result A)) : prog E (result A) :=
  r ← p; mret (wrap_err msg r).

(** Sequencing of calls that return an error. *)
Definition and_then {E A B} (p : prog E (result A)) (f : A → prog E (result B)) : prog E (result B) :=
  r ← p; match r with Ok a => f a | Err e => mret (Err e) end.

(** [_ = os.Remove(tmp); return err]. *)
Definition cleanup {E A} (rm : prog E (result unit)) (e : error) : prog E (result A) :=
  _ ← rm; mret (Err e).

(** ** Writing files *)

(** The common part of the writers, from an open temporary on: write, change the
    mode, close, rename. [wrapf] says how a failed step is reported; [rm] whether
    the temporary is removed when the rename fails (it is on every other
    failure). *)
Definition fill_and_rename (wrapf : string → error → error) (rm : bool) (what : string)
    (tmp p : path) (data : string) (mode : Z) : prog fileE (result unit) :=
  w ← trigger (FWrite tmp data);
  match w with
  | Err e => _ ← trigger (FClose tmp); cleanup (trigger (FRemove tmp)) (wrapf what e)
  | Ok _ =>
    c ← trigger (FChmod tmp mode);
    match c with
    | Err e => _ ← trigger (FClose tmp); cleanup (trigger (FRemove tmp)) (wrapf "chmod" e)
    | Ok _ =>
      cl ← trigger (FClose tmp);
      match cl with
      | Err e => cleanup (trigger (FRemove tmp)) (wrapf "close" e)
      | Ok _ =>
        r ← trigger (FRename tmp p);
        match r with
        | Err e => if rm then cleanup (trigger (FRemove tmp)) (wrapf "rename" e) else mret (Err (wrapf "rename" e))
        | Ok _ => mret (Ok ())
        end
      end
    end
  end.

Definition writeFileAtomic (p : path) (data : string) (mode : Z) : prog fileE (result unit) :=
  and_then (trigger (FCreateTemp p.1 ".tmp-")) (λ tmp,
  fill_and_rename (λ _ e, e) false "write" tmp p data mode).

(** [copyFile]: open, copy through a temporary, make executable, rename. *)
Definition copyFile (src dst : path) (mode : Z) : prog fileE (result unit) :=
  and_then (try "open" (trigger (FReadFile src))) (λ data,
  and_then (try "create temp" (trigger (FCreateTemp dst.1 ".check-"))) (λ tmp,
  fill_and_rename ErrWrap true "copy" tmp dst data mode)).

(** ** The state directory *)

Definition holderPath (dir : string) : path := (dir, "holder").
Definition tokenPath (dir : string) : path := (dir, "token").
Definition healthyPath (dir : string) : path := (dir, "healthy").
Definition CheckPath (dir : string) : path := (dir, "check").

Definition ok_content : string := "ok" +:+ String "010" EmptyString.

Definition MarkHealthy (dir : string) : prog fileE (result unit) :=
  and_then (try "create state dir" (trigger (FMkdirAll dir))) (λ _,
  try "write health marker" (writeFileAtomic (healthyPath dir) ok_content 420)).

Definition MarkUnhealthy (dir : string) : prog fileE (result unit) :=
  r ← trigger (FRemove (healthyPath dir));
  mret (match r with
        | Ok _ => Ok ()
        | Err e => if errors_Is e ErrNotExist then Ok () else Err (ErrWrap "remove health marker" e)
        end).

Definition WriteAcquired (dir holder : string) (token : Z) : prog fileE (result unit) :=
  and_then (try "create state dir" (trigger (FMkdirAll dir))) (λ _,
  and_then (try "write holder" (writeFileAtomic (holderPath dir) holder 420)) (λ _,
  and_then (try "write token" (writeFileAtomic (tokenPath dir) (FormatInt token) 420)) (λ _,
  MarkHealthy dir))).

Definition ReadHolder (dir : string) : prog fileE (result string) := trigger (FReadFile (holderPath dir)).

Definition ReadToken (dir : string) : prog fileE (result Z) :=
  and_then (trigger (FReadFile (tokenPath dir))) (λ b,
  mret (match ParseInt (TrimSpace b) 32 with
        | None => Err (ErrMsg "parse token")
        | Some n => Ok n
        end)).

Definition InstallCheckBinary (dir : string) : prog fileE (result unit) :=
  and_then (try "locate self" (trigger FExecutable)) (λ self,
  and_then (try "create state dir" (trigger (FMkdirAll dir))) (λ _,
  copyFile self (CheckPath dir) 493)).

(** ** The health marker *)

Inductive HealthVerdict := HealthOK | HealthAbsent | HealthStale | HealthIndeterminate.

#[export] Instance HealthVerdict_eq_dec : EqDecision HealthVerdict.
Proof. solve_decision. Defined.

Record HealthResult := MkHealth {
  Verdict : HealthVerdict; Age : Z; MaxAge : Z; hErr : option error }.

Definition HealthResult_OK (r : HealthResult) : bool := Verdict r == HealthOK.

Definition evaluateMarkerAge (modified observed maxAge : Z) : HealthResult :=
  if maxAge <=? 0 then MkHealth HealthOK 0 0 None
  else
    let age := Sub observed modified in
    if age >? maxAge then MkHealth HealthStale age maxAge None
    else MkHealth HealthOK age maxAge None.

Definition EvaluateMarker (p : path) (maxAge : Z) : prog fileE HealthResult :=
  st ← trigger (FStat p);
  match st with
  | Err e =>
      mret (if errors_Is e ErrNotExist then MkHealth HealthAbsent 0 maxAge None
            else MkHealth HealthIndeterminate 0 maxAge (Some e))
  | Ok modified =>
      now ← trigger FNow;
      mret (evaluateMarkerAge modified now maxAge)
  end.

Definition IsHealthy (dir : string) : prog fileE bool :=
  r ← EvaluateMarker (healthyPath dir) 0; mret (HealthResult_OK r).

Definition IsFresh (dir : string) (maxAge : Z) : prog fileE HealthResult :=
  EvaluateMarker (healthyPath dir) maxAge.

(** ** Atomic replacement *)

(** The names readers look at: not the dot-named temporaries. *)
Definition visible (q : path) : Prop := HasPrefix q.2 "." = false.

Definition same (s s1 : volume) : Prop := ∀ q, visible q → s1 !! q = s !! q.

Lemma same_refl s : same s s.
Proof. by intros q. Qed.

Lemma same_insert s s1 tmp f : same s s1 → ¬ visible tmp → same s (<[tmp := f]> s1).
Proof. intros Hs Ht q Hq. rewrite lookup_insert_ne by congruence. by apply Hs. Qed.

Lemma same_delete s s1 tmp : same s s1 → ¬ visible tmp → same s (delete tmp s1).
Proof. intros Hs Ht q Hq. rewrite lookup_delete_ne by congruence. by apply Hs. Qed.

Lemma temp_hidden dir pat suffix :
  HasPrefix pat "." = true → ¬ visible (dir, pat +:+ suffix).
Proof.
  intros Hp Hv. unfold visible in Hv. cbn [snd] in Hv. apply HasPrefix_inv in Hp as [t ->].
  rewrite <- app_string_assoc, HasPrefix_app in Hv. done.
Qed.

#[export] Hint Resolve same_refl same_insert same_delete temp_hidden : berth.

Lemma fexec_op {A X} (e : fileE X) (k : X → prog fileE A) s tr a s' :
  fexec (trigger e ≫= k) s tr a s' →
  ∃ x s1 tr', fs_step X s e x s1 ∧ tr = s1 :: tr' ∧ fexec (k x) s1 tr' a s'.
Proof. done. Qed.

Lemma fexec_ret {A} (a a' : A) s tr s' :
  fexec (mret a') s tr a s' → a = a' ∧ tr = [] ∧ s' = s.
Proof. done. Qed.

(** Removing a temporary, whatever the call answers, changes no visible file. *)
Lemma same_cleanup {A} s0 s tmp e tr (r : result A) s' :
  same s0 s → ¬ visible tmp → fexec (cleanup (trigger (FRemove tmp)) e) s tr r s' →
  r = Err e ∧ same s0 s' ∧ Forall (same s0) tr.
Proof.
  intros Hs Ht Hrun. unfold cleanup in Hrun.
  apply fexec_op in Hrun as (x & s1 & tr' & Hstep & -> & Hrun).
  apply fexec_ret in Hrun as (-> & -> & ->).
  assert (same s0 s1) by (destruct x; [destruct Hstep as [_ ->]|destruct Hstep as [-> _]]; eauto with berth).
  auto.
Qed.

Lemma same_close_cleanup {A} s0 s tmp e tr (r : result A) s' :
  same s0 s → ¬ visible tmp →
  fexec (trigger (FClose tmp) ≫= λ _, cleanup (trigger (FRemove tmp)) e) s tr r s' →
  r = Err e ∧ same s0 s' ∧ Forall (same s0) tr.
Proof.
  intros Hs Ht Hrun. apply fexec_op in Hrun as (x & s1 & tr' & -> & -> & Hrun).
  apply (same_cleanup s0) in Hrun as (? & ? & ?); auto.
Qed.

(** What replacing the file at [p] by way of a temporary may leave visible at
    any moment: the files as they were, or [p] with its full new content. *)
Definition replaced (p : path) (data : string) (mode : Z) (s s1 : volume) : Prop :=
  ∃ t, ∀ q, visible q → s1 !! q = if bool_decide (q = p) then Some (MkFile data mode t) else s !! q.

Definition atomic_outcome (p : path) (data : string) (mode : Z) (s : volume) (tr : list volume)
    (r : result unit) (s' : volume) : Prop :=
  Forall (λ s1, same s s1 ∨ replaced p data mode s s1) tr ∧
  match r with Ok _ => replaced p data mode s s' | Err _ => same s s' end.

Lemma atomic_unchanged p data mode s tr e s' :
  same s s' → Forall (same s) tr → atomic_outcome p data mode s tr (Err e) s'.
Proof. intros Hs Htr. split; [|done]. eapply Forall_impl; [done|]. auto. Qed.

Lemma atomic_cons p data mode s s1 tr r s' :
  same s s1 → atomic_outcome p data mode s tr r s' → atomic_outcome p data mode s (s1 :: tr) r s'.
Proof. intros Hs [Htr Hr]. split; [constructor; auto|done]. Qed.

Lemma replaced_rename p data mode s s1 tmp t :
  same s s1 → ¬ visible tmp →
  replaced p data mode s (<[p := MkFile data mode t]> (delete tmp s1)).
Proof.
  intros Hs Ht. exists t. intros q Hq. case_bool_decide as E.
  - subst. by rewrite lookup_insert_eq.
  - rewrite lookup_insert_ne, lookup_delete_ne by congruence. by apply Hs.
Qed.

(** From a fresh temporary on, both writers do the same. *)
Lemma fresh_temp dir pat s x s1 :
  HasPrefix pat "." = true → fs_step _ s (FCreateTemp dir pat) (Ok x) s1 →
  ¬ visible x ∧ same s s1 ∧ is_Some (s1 !! x).
Proof.
  intros Hp (suffix & t & -> & _ & ->). split_and!; eauto with berth.
  by rewrite lookup_insert_eq.
Qed.

(** Content and mode are in place, under a temporary name. *)
Lemma temp_written s0 s tmp data mode s1 s2 :
  same s0 s → ¬ visible tmp → fs_step _ s (FWrite tmp data) (Ok ()) s1 →
  fs_step _ s1 (FChmod tmp mode) (Ok ()) s2 →
  same s0 s1 ∧ same s0 s2 ∧ ∃ t, s2 !! tmp = Some (MkFile data mode t).
Proof.
  intros Hs Ht (f & t & _ & ->) (f' & Hf' & ->). rewrite lookup_insert_eq in Hf'. simplify_eq/=.
  split_and!; eauto with berth. exists t. by rewrite lookup_insert_eq.
Qed.

Lemma temp_write_failed s0 s tmp data e s1 :
  same s0 s → ¬ visible tmp → fs_step _ s (FWrite tmp data) (Err e) s1 → same s0 s1.
Proof. intros Hs Ht [->|(f & d & t & _ & ->)]; eauto with berth. Qed.

Lemma fill_and_rename_outcome wrapf rm what tmp p data mode s s1 tr r s' :
  same s s1 → ¬ visible tmp →
  fexec (fill_and_rename wrapf rm what tmp p data mode) s1 tr r s' → atomic_outcome p data mode s tr r s'.
Proof.
  intros Hs1 Ht Hrun. unfold fill_and_rename in Hrun.
  apply fexec_op in Hrun as (w & s2 & tr2 & Hw & -> & Hrun). destruct w as [[]|e].
  2:{ pose proof (temp_write_failed s _ _ _ _ _ Hs1 Ht Hw).
      apply (same_close_cleanup s) in Hrun as (-> & ? & ?); [|done..]. apply atomic_unchanged; eauto with berth. }
  apply fexec_op in Hrun as (c & s3 & tr3 & Hc & -> & Hrun). destruct c as [[]|e].
  2:{ cbn in Hc. subst s3. assert (same s s2) by (destruct Hw as (? & ? & _ & ->); eauto with berth).
      apply (same_close_cleanup s) in Hrun as (-> & ? & ?); [|done..]. apply atomic_unchanged; eauto with berth. }
  destruct (temp_written s _ _ _ _ _ _ Hs1 Ht Hw Hc) as (Hs2 & Hs3 & t & Hf).
  do 2 (apply atomic_cons; [done|]).
  apply fexec_op in Hrun as (cl & s4 & tr4 & -> & -> & Hrun). apply atomic_cons; [done|].
  destruct cl as [[]|e]; [|apply (same_cleanup s) in Hrun as (-> & ? & ?); [by apply atomic_unchanged|done..]].
  apply fexec_op in Hrun as (x & s5 & tr5 & Hrn & -> & Hrun). destruct x as [[]|e]; cbn in Hrn.
  - destruct Hrn as (f & Hf' & ->). apply fexec_ret in Hrun as (-> & -> & ->). simplify_eq.
    pose proof (replaced_rename p data mode s s3 tmp t Hs3 Ht). split; [by constructor; auto|done].
  - subst. destruct rm.
    + apply (same_cleanup s) in Hrun as (-> & ? & ?); [|done..]. apply atomic_unchanged; eauto with berth.
    + apply fexec_ret in Hrun as (-> & -> & ->). apply atomic_unchanged; eauto with berth.
Qed.

(** Creating the temporary, whether or not its error is wrapped. *)
Lemma temp_outcome (create : prog fileE (result path)) (k : path → prog fileE (result unit)) dir pat p data mode s tr r s' :
  HasPrefix pat "." = true →
  create = trigger (FCreateTemp dir pat) ∨ (∃ msg, create = try msg (trigger (FCreateTemp dir pat))) →
  (∀ tmp s1 tr1, same s s1 → ¬ visible tmp → fexec (k tmp) s1 tr1 r s' → atomic_outcome p data mode s tr1 r s') →
  fexec (and_then create k) s tr r s' → atomic_outcome p data mode s tr r s'.
Proof.
  intros Hpat Hc Hk Hrun. apply exec_rel_bind in Hrun as (tr1 & x & s1 & tr2 & -> & H1 & H2).
  assert (∃ y, fs_step _ s (FCreateTemp dir pat) y s1 ∧ tr1 = [s1] ∧
            match x with Ok a => y = Ok a | Err _ => is_ok y = false end) as (y & Hy & -> & Hx).
  { destruct Hc as [->|[msg ->]].
    - destruct H1 as (y & s2 & tr' & Hy & -> & (-> & -> & ->)). exists y. by destruct y.
    - apply fexec_op in H1 as (y & s2 & tr' & Hy & -> & Hr). apply fexec_ret in Hr as (-> & -> & ->).
      exists y. by destruct y. }
  destruct x as [tmp|e].
  - subst y. apply fresh_temp in Hy as (Ht & Hs & _); [|done]. cbn [app]. apply atomic_cons; [done|]. exact (Hk tmp s1 tr2 Hs Ht H2).
  - apply fexec_ret in H2 as (-> & -> & ->). destruct y; [done|]. cbn in Hy. subst. cbn [app].
    apply atomic_unchanged; rewrite ?Forall_singleton; apply same_refl.
Qed.

Lemma writeFileAtomic_outcome p data mode s tr r s' :
  fexec (writeFileAtomic p data mode) s tr r s' → atomic_outcome p data mode s tr r s'.
Proof.
  apply temp_outcome with (dir := p.1) (pat := ".tmp-"); [done|auto|].
  intros. by eapply fill_and_rename_outcome.
Qed.

(** [copyFile] replaces the target by the content it read. *)
Lemma copyFile_outcome src dst mode s tr r s' :
  fexec (copyFile src dst mode) s tr r s' →
  (∃ e, r = Err e) ∧ s' = s ∨ ∃ data, f_data <$> s !! src = Some data ∧ atomic_outcome dst data mode s tr r s'.
Proof.
  intros Hrun. apply exec_rel_bind in Hrun as (tr1 & x & s1 & tr2 & -> & H1 & H2).
  apply fexec_op in H1 as (y & s2 & tr' & [-> Hy] & -> & Hr). apply fexec_ret in Hr as (-> & -> & ->).
  destruct y as [data|e]; cbn [wrap_err] in H2.
  - right. exists data. split; [done|]. cbn [app]. apply atomic_cons; [apply same_refl|].
    revert H2. apply temp_outcome with (dir := dst.1) (pat := ".check-"); [done|eauto|].
    intros. by eapply fill_and_rename_outcome.
  - left. apply fexec_ret in H2 as (-> & -> & ->). eauto.
Qed.

Lemma wrap_outcome p data mode s tr r s' msg :
  fexec (try msg (writeFileAtomic p data mode)) s tr r s' → atomic_outcome p data mode s tr r s'.
Proof.
  intros Hrun. apply exec_rel_bind in Hrun as (tr1 & r1 & s1 & tr2 & -> & H1 & H2).
  apply fexec_ret in H2 as (-> & -> & ->). rewrite app_nil_r.
  apply writeFileAtomic_outcome in H1 as [Htr Hr]. split; [done|]. by destruct r1.
Qed.

(** A file after it was replaced, and every other one. *)
Lemma replaced_self p data mode s s1 :
  visible p → replaced p data mode s s1 → ∃ t, s1 !! p = Some (MkFile data mode t).
Proof. intros Hp [t Ht]. exists t. rewrite Ht by done. by rewrite bool_decide_true. Qed.

Lemma replaced_other p data mode s s1 q :
  visible q → q ≠ p → replaced p data mode s s1 → s1 !! q = s !! q.
Proof. intros Hq Hne [t Ht]. rewrite Ht by done. by rewrite bool_decide_false. Qed.

Lemma and_then_ok {A B} (p : prog fileE (result A)) (f : A → prog fileE (result B)) s tr b s' :
  fexec (and_then p f) s tr (Ok b) s' →
  ∃ tr1 a s1 tr2, tr = tr1 ++ tr2 ∧ fexec p s tr1 (Ok a) s1 ∧ fexec (f a) s1 tr2 (Ok b) s'.
Proof.
  intros Hrun. apply exec_rel_bind in Hrun as (tr1 & [a|e] & s1 & tr2 & -> & H1 & H2).
  - by exists tr1, a, s1, tr2.
  - by apply fexec_ret in H2 as (? & _).
Qed.

Lemma mkdir_ok msg dir s tr s1 :
  fexec (try msg (trigger (FMkdirAll dir))) s tr (Ok ()) s1 → s1 = s.
Proof. intros (x & s2 & tr2 & -> & _ & Hr). by apply fexec_ret in Hr as (_ & _ & ->). Qed.

Lemma MarkHealthy_ok dir s tr s' :
  fexec (MarkHealthy dir) s tr (Ok ()) s' → replaced (healthyPath dir) ok_content 420 s s'.
Proof.
  intros Hrun. apply and_then_ok in Hrun as (tr1 & [] & s1 & tr2 & -> & ->%mkdir_ok & Hrun).
  by apply wrap_outcome in Hrun as [_ ?].
Qed.

Lemma MarkUnhealthy_ok dir s tr s' :
  fexec (MarkUnhealthy dir) s tr (Ok ()) s' →
  s' !! healthyPath dir = None ∧ ∀ q, q ≠ healthyPath dir → s' !! q = s !! q.
Proof.
  intros Hrun. apply fexec_op in Hrun as (x & s1 & tr1 & Hx & -> & Hrun).
  apply fexec_ret in Hrun as (Hok & -> & ->). destruct x as [[]|e].
  - destruct Hx as [_ ->]. split; [apply lookup_delete_eq|]. intros. by rewrite lookup_delete_ne.
  - destruct Hx as [-> Hx]. destruct (errors_Is e ErrNotExist); [|done]. split; [auto|done].
Qed.

Lemma WriteAcquired_ok dir holder token s tr s' :
  fexec (WriteAcquired dir holder token) s tr (Ok ()) s' →
  f_data <$> s' !! holderPath dir = Some holder ∧
  f_data <$> s' !! tokenPath dir = Some (FormatInt token) ∧
  is_Some (s' !! healthyPath dir).
Proof.
  intros Hrun. apply and_then_ok in Hrun as (tr1 & [] & s1 & tr2 & -> & ->%mkdir_ok & Hrun).
  apply and_then_ok in Hrun as (tr3 & [] & s3 & tr4 & -> & [_ H3]%wrap_outcome & Hrun).
  apply and_then_ok in Hrun as (tr5 & [] & s5 & tr6 & -> & [_ H5]%wrap_outcome & H7%MarkHealthy_ok).
  cbn in H3, H5.
  split_and!.
  - rewrite (replaced_other (healthyPath dir) _ _ _ _ (holderPath dir) eq_refl ltac:(by intros [=]) H7).
    rewrite (replaced_other (tokenPath dir) _ _ _ _ (holderPath dir) eq_refl ltac:(by intros [=]) H5).
    by destruct (replaced_self (holderPath dir) _ _ _ _ eq_refl H3) as [t ->].
  - rewrite (replaced_other (healthyPath dir) _ _ _ _ (tokenPath dir) eq_refl ltac:(by intros [=]) H7).
    by destruct (replaced_self (tokenPath dir) _ _ _ _ eq_refl H5) as [t ->].
  - destruct (replaced_self (healthyPath dir) _ _ _ _ eq_refl H7) as [t ->]. eauto.
Qed.

(** ** The handoff *)

Lemma ReadToken_reads dir token s tr r s' :
  int32 token → f_data <$> s !! tokenPath dir = Some (FormatInt token) →
  fexec (ReadToken dir) s tr r s' →
  s' = s ∧ (r = Ok token ∨ ∃ e, r = Err e ∧ errors_Is e ErrNotExist = false).
Proof.
  intros Hi Ht Hrun. unfold ReadToken, and_then in Hrun.
  apply fexec_op in Hrun as (x & s1 & tr1 & (-> & Hx) & -> & Hrun). destruct x as [b|e].
  - apply fexec_ret in Hrun as (-> & _ & ->). rewrite Ht in Hx. simplify_eq. split; [done|left].
    rewrite TrimSpace_FormatInt, ParseInt_FormatInt; [done|].
    unfold int32, MinInt32, MaxInt32 in Hi. cbn. lia.
  - apply fexec_ret in Hrun as (-> & _ & ->). split; [done|right]. exists e. split; [done|].
    destruct (errors_Is e ErrNotExist); [|done]. by rewrite Hx in Ht.
Qed.

Lemma ReadHolder_reads dir holder s tr r s' :
  f_data <$> s !! holderPath dir = Some holder → fexec (ReadHolder dir) s tr r s' →
  s' = s ∧ (r = Ok holder ∨ ∃ e, r = Err e ∧ errors_Is e ErrNotExist = false).
Proof.
  intros Hh (x & s1 & tr1 & (-> & Hx) & _ & (-> & _ & ->)). split; [done|].
  destruct x as [b|e]; [left; congruence|right]. exists e. split; [done|].
  destruct (errors_Is e ErrNotExist); [|done]. by rewrite Hx in Hh.
Qed.

(** A file system on which nothing fails, for concrete runs: every file is
    written at time [now], temporaries get the same suffix. *)
Definition fs_fine (now : Z) (X : Type) (e : fileE X) (s : volume) : X * volume :=
  match e with
  | FMkdirAll _ => (Ok (), s)
  | FCreateTemp dir pat =>
      let p := (dir, pat +:+ "0") in
      match s !! p with
      | None => (Ok p, <[p := MkFile "" 384 now]> s)
      | Some _ => (Err (ErrMsg "exists"), s)
      end
  | FWrite p d =>
      match s !! p with
      | Some f => (Ok (), <[p := MkFile d (f_mode f) now]> s)
      | None => (Err (ErrMsg "closed"), s)
      end
  | FChmod p m =>
      match s !! p with
      | Some f => (Ok (), <[p := MkFile (f_data f) m (f_mtime f)]> s)
      | None => (Err (ErrMsg "closed"), s)
      end
  | FClose _ => (Ok (), s)
  | FRename p q =>
      match s !! p with
      | Some f => (Ok (), <[q := f]> (delete p s))
      | None => (Err ErrNotExist, s)
      end
  | FRemove p => match s !! p with Some _ => (Ok (), delete p s) | None => (Err ErrNotExist, s) end
  | FReadFile p => (match s !! p with Some f => Ok (f_data f) | None => Err ErrNotExist end, s)
  | FStat p => (match s !! p with Some f => Ok (f_mtime f) | None => Err ErrNotExist end, s)
  | FNow => (now, s)
  | FExecutable => (Ok ("/usr/local/bin", "berth-acquire"), s)
  end.

Lemma fs_fine_ok now X (e : fileE X) s : fs_step X s e (fs_fine now X e s).1 (fs_fine now X e s).2.
Proof.
  destruct e; cbn; try done.
  - destruct (s !! _) eqn:E; cbn; [done|]. by exists "0", now.
  - destruct (s !! p) as [f|] eqn:E; cbn; [by exists f, now|by left].
  - destruct (s !! p) as [f|] eqn:E; cbn; [by exists f|done].
  - destruct (s !! p) as [f|] eqn:E; cbn; [by exists f|done].
  - destruct (s !! p) as [f|] eqn:E; cbn; [by eauto|done].
  - by destruct (s !! p).
  - by destruct (s !! p).
Qed.

Lemma fs_fine_run {A} now (p : prog fileE A) s :
  ∃ tr, fexec p s tr (run (fs_fine now) p s).1 (run (fs_fine now) p s).2.
Proof. apply run_exec_rel. apply fs_fine_ok. Qed.

(** ** The theorems *)

(** C14: readers never see a partial file. At every moment of
    [writeFileAtomic], whichever of its calls fail and wherever it stops, the
    visible files are the old ones or the target has its full new content and
    mode; success means it was replaced, failure that nothing visible changed.
    The same holds of the check binary, which [copyFile] installs with the
    content of the helper's own executable. *)
Theorem writeFileAtomic_atomic p data mode s tr r s' :
  fexec (writeFileAtomic p data mode) s tr r s' →
  (Forall (λ s1, same s s1 ∨ replaced p data mode s s1) tr ∧
   match r with Ok _ => replaced p data mode s s' | Err _ => same s s' end) ∧
  ∀ src dst cmode ctr cr cs', fexec (copyFile src dst cmode) s ctr cr cs' →
    (∃ e, cr = Err e) ∧ cs' = s ∨
    ∃ exe, f_data <$> s !! src = Some exe ∧
      Forall (λ s1, same s s1 ∨ replaced dst exe cmode s s1) ctr ∧
      match cr with Ok _ => replaced dst exe cmode s cs' | Err _ => same s cs' end.
Proof. intros Hrun. split; [by apply writeFileAtomic_outcome|]. intros. by apply copyFile_outcome. Qed.

Lemma writeFileAtomic_atomic_witness :
  ∃ tr s', fexec (writeFileAtomic (tokenPath "/berth") "7" 420) ∅ tr (Ok ()) s' ∧
    replaced (tokenPath "/berth") "7" 420 ∅ s'.
Proof.
  destruct (fs_fine_run 5 (writeFileAtomic (tokenPath "/berth") "7" 420) ∅) as [tr Htr].
  exists tr. eexists. split; [exact Htr|].
  exact (proj2 (proj1 (writeFileAtomic_atomic _ _ _ _ _ _ _ Htr))).
Defined.

(** The handoff from init container to sidecar. After a successful
    [WriteAcquired], reading the volume back gives the holder and the token
    that were written, for every int32 token; a read can only fail, never
    answer something else or report the file missing. *)
Theorem handoff_roundtrip dir holder token s tr s1 tr1 r1 s2 tr2 r2 s3 :
  int32 token → fexec (WriteAcquired dir holder token) s tr (Ok ()) s1 →
  fexec (ReadHolder dir) s1 tr1 r1 s2 → fexec (ReadToken dir) s2 tr2 r2 s3 →
  s3 = s1 ∧ is_Some (s1 !! healthyPath dir) ∧
  (r1 = Ok holder ∨ ∃ e, r1 = Err e ∧ errors_Is e ErrNotExist = false) ∧
  (r2 = Ok token ∨ ∃ e, r2 = Err e ∧ errors_Is e ErrNotExist = false).
Proof.
  intros Hi (Hh & Ht & Hm)%WriteAcquired_ok H1 H2.
  apply (ReadHolder_reads _ _ _ _ _ _ Hh) in H1 as [-> H1].
  apply (ReadToken_reads _ _ _ _ _ _ Hi Ht) in H2 as [-> H2]. auto.
Qed.

Definition handoff_volume : volume :=
  (run (fs_fine 5) (WriteAcquired "/berth" "east/web" 7) ∅).2.

Lemma handoff_roundtrip_witness :
  is_Some (handoff_volume !! healthyPath "/berth") ∧
  (run (fs_fine 6) (ReadToken "/berth") handoff_volume).1 = Ok 7.
Proof.
  split; [|vm_compute; reflexivity].
  destruct (fs_fine_run 5 (WriteAcquired "/berth" "east/web" 7) ∅) as [tr Htr].
  destruct (fs_fine_run 6 (ReadHolder "/berth") handoff_volume) as [tr1 Htr1].
  destruct (fs_fine_run 6 (ReadToken "/berth") handoff_volume) as [tr2 Htr2].
  refine (proj1 (proj2 (handoff_roundtrip "/berth" "east/web" 7 ∅ tr handoff_volume tr1 _ _ tr2 _ _
    _ Htr Htr1 Htr2))).
  unfold int32, MinInt32, MaxInt32. lia.
Defined.

(** What the liveness probe concludes. Once the sidecar removed the
    marker, the probe fails until it is written again, for any age limit; and
    a marker that is there passes exactly when it is no older than the limit,
    the boundary included, or no limit was asked for. *)
Theorem marker_verdict dir maxAge s tr s1 tr1 r s2 :
  fexec (MarkUnhealthy dir) s tr (Ok ()) s1 → fexec (IsFresh dir maxAge) s1 tr1 r s2 →
  HealthResult_OK r = false ∧
  ∀ modified observed, 0 ≤ observed - modified < MaxInt64 →
    HealthResult_OK (evaluateMarkerAge modified observed maxAge) =
    (maxAge <=? 0) || (observed - modified <=? maxAge).
Proof.
  intros [Hgone _]%MarkUnhealthy_ok Hrun. split.
  - apply fexec_op in Hrun as (x & s3 & tr3 & (-> & Hx) & -> & Hrun). destruct x as [t|e].
    + by rewrite Hgone in Hx.
    + apply fexec_ret in Hrun as (-> & _ & _). by destruct (errors_Is e ErrNotExist).
  - intros modified observed Hage. unfold evaluateMarkerAge, Sub, MinInt64.
    destruct (maxAge <=? 0); [done|]. rewrite Z.min_r, Z.max_r by (unfold MaxInt64 in *; lia).
    unfold HealthResult_OK. cbn [orb]. destruct (Z.gtb_spec (observed - modified) maxAge).
    + rewrite (proj2 (Z.leb_gt _ _)) by lia. done.
    + rewrite (proj2 (Z.leb_le _ _)) by lia. done.
Qed.

Lemma marker_verdict_witness :
  HealthResult_OK (run (fs_fine 6) (IsFresh "/berth" 0)
    (run (fs_fine 6) (MarkUnhealthy "/berth") handoff_volume).2).1 = false.
Proof.
  destruct (fs_fine_run 6 (MarkUnhealthy "/berth") handoff_volume) as [tr Htr].
  destruct (fs_fine_run 6 (IsFresh "/berth" 0)
    (run (fs_fine 6) (MarkUnhealthy "/berth") handoff_volume).2) as [tr1 Htr1].
  exact (proj1 (marker_verdict "/berth" 0 handoff_volume tr _ tr1 _ _ Htr Htr1)).
Defined.
