(* ===== verification/ClientAuth.v ===== *)
(** * Credentials of API clients

    [internal/clientauth]: the token source that re-reads a bearer token from a
    file, and the TLS configuration with its CA bundle. *)

From S2P Require Import Prelude GoStrings GoPath State.

(** A file name as the pair the file system of [State] is keyed by. *)
Definition file_of (p : string) : path := (Dir p, Base p).

(** ** The token file *)

Record FileTokenSource := MkTokenSource {
  tsPath : string; cacheTTL : Z; ts_cached : string; ts_cachedAt : Z }.

Definition readLocked (s : FileTokenSource) : prog fileE (result string) :=
  and_then (trigger (FReadFile (file_of (tsPath s)))) (λ data,
  let tok := TrimSpace data in
  mret (if tok == "" then Err (ErrMsg "token source: file is empty") else Ok tok)).

Definition ts_store (s : FileTokenSource) (tok : string) (now : Z) : FileTokenSource :=
  MkTokenSource (tsPath s) (cacheTTL s) tok now.

Definition ts_read (s : FileTokenSource) : prog fileE (result string * FileTokenSource) :=
  r ← readLocked s;
  match r with
  | Err e => mret (Err e, s)
  | Ok tok => now ← trigger FNow; mret (Ok tok, ts_store s tok now)
  end.

Definition NewFileTokenSource (p : string) (ttl : Z) : prog fileE (result FileTokenSource) :=
  if p == "" then mret (Err (ErrMsg "token source: file path is required"))
  else
    let s := MkTokenSource p (if ttl <=? 0 then Second else ttl) "" 0 in
    '(r, s') ← ts_read s;
    mret (match r with Err e => Err e | Ok _ => Ok s' end).

(** [Get]: the token and the source with its cache. *)
Definition ts_Get (s : FileTokenSource) : prog fileE (string * FileTokenSource) :=
  now ← trigger FNow;
  if Sub now (ts_cachedAt s) <? cacheTTL s then mret (ts_cached s, s)
  else
    r ← readLocked s;
    match r with
    | Err _ => mret (ts_cached s, s)
    | Ok tok => now' ← trigger FNow; mret (tok, ts_store s tok now')
    end.

(** ** TLS *)

(** A pool of certificates, as the PEM texts it was filled from. *)
Record tlsConfig := MkTLS {
  tlsServerName : string; tlsInsecure : bool; tlsRootCAs : option (list string) }.

(** [crypto/x509]: the system's pool, when it can be loaded, and whether a
    bundle held a certificate. *)
Class X509 := {
  SystemCertPool : option (list string);
  AppendCertsFromPEM : string → bool }.

Definition LoadTLSConfig `{X509} (caBundleFile serverName : string) (insecure : bool)
    : prog fileE (result tlsConfig) :=
  if caBundleFile == "" then mret (Ok (MkTLS serverName insecure None))
  else
    and_then (try "read CA bundle" (trigger (FReadFile (file_of caBundleFile)))) (λ pem,
    mret (if AppendCertsFromPEM pem
          then Ok (MkTLS serverName insecure (Some (default [] SystemCertPool ++ [pem])))
          else Err (ErrMsg "CA bundle contained no valid PEM certificates"))).

(** ** What a token source hands out *)

Lemma readLocked_run s v tr r v' :
  fexec (readLocked s) v tr r v' →
  v' = v ∧ match r with
           | Ok tok => tok ≠ "" ∧ ∃ f, v !! file_of (tsPath s) = Some f ∧ tok = TrimSpace (f_data f)
           | Err _ => True
           end.
Proof.
  intros Hrun. apply exec_rel_bind in Hrun as (tr1 & x & v1 & tr2 & -> & H1 & H2).
  destruct H1 as (y & v2 & tr' & [-> Hy] & -> & (-> & -> & ->)).
  destruct y as [data|e]; apply fexec_ret in H2 as (-> & -> & ->); split; try done.
  case_bool_decide; [done|]. split; [done|].
  destruct (v !! file_of (tsPath s)) as [f|]; [|done]. exists f. split; [done|]. cbn in Hy. congruence.
Qed.

(** [Get] leaves the files alone; its token is the cached one, handed out again
    while it is fresh or the file cannot be used, or the trimmed, non-empty
    content of the file, which is then cached. *)
Lemma ts_Get_run s v tr tok s' v' :
  fexec (ts_Get s) v tr (tok, s') v' →
  v' = v ∧ tok = ts_cached s' ∧ tsPath s' = tsPath s ∧
  (s' = s ∨ tok ≠ "" ∧ ∃ f, v !! file_of (tsPath s) = Some f ∧ tok = TrimSpace (f_data f)).
Proof.
  intros Hrun. apply fexec_op in Hrun as (now & v1 & tr1 & -> & -> & Hrun).
  destruct (Sub now (ts_cachedAt s) <? cacheTTL s).
  { apply fexec_ret in Hrun as ([= -> ->] & _ & ->). auto. }
  apply exec_rel_bind in Hrun as (tr2 & x & v2 & tr3 & -> & H1 & H2).
  apply readLocked_run in H1 as [-> Hx]. destruct x as [t|e].
  - apply fexec_op in H2 as (now' & v3 & tr4 & -> & -> & H2).
    apply fexec_ret in H2 as ([= -> ->] & _ & ->). cbn. auto.
  - apply fexec_ret in H2 as ([= -> ->] & _ & ->). auto.
Qed.
