(* ===== verification/Broker.v ===== *)
(** * The token broker

    [cmd/berth-oidc-broker]: the sidecar that fetches an access token from the
    identity provider, writes it to a file and refreshes it before it expires.
    The provider, the clock and process shutdown are effects; so are the files. *)

From S2P Require Import Prelude GoStrings GoPath State ClientAuth.

Definition defaultRefreshSkew : Z := 60 * Second.
Definition defaultMinRefresh : Z := 30 * Second.
Definition defaultFetchTimeout : Z := 30 * Second.
Definition defaultMaxRetry : Z := 5 * Minute.
Definition discoveryTimeout : Z := 30 * Second.

Record loopConfig := MkLoop {
  outputPath : string;
  refreshSkew : Z;
  minRefresh : Z;
  fetchTimeout : Z;
  maxRetryInterval : Z }.

Definition loop_validate (lc : loopConfig) : result unit :=
  if refreshSkew lc <? 0 then Err (ErrMsg "--refresh-skew must not be negative")
  else if fetchTimeout lc <=? 0 then Err (ErrMsg "--fetch-timeout must be positive")
  else if minRefresh lc <=? 0 then Err (ErrMsg "--min-refresh-interval must be positive")
  else if maxRetryInterval lc <? minRefresh lc
  then Err (ErrMsg "--max-retry-interval must be at least --min-refresh-interval")
  else Ok ().

(** [oauth2.Token]: what the loop reads of it. *)
Record Token := MkToken { AccessToken : string; Expiry : Z }.

Inductive brokerE : Type → Type :=
| BFile {X : Type} (e : fileE X) : brokerE X
| BCtxErr : brokerE bool
| BToken (timeout : Z) : brokerE (result Token)
| BNow : brokerE Z
| BSleep (d : Z) : brokerE bool
| BDiscover (issuer : string) (timeout : Z) : brokerE (result string)
| BClaims : brokerE (result string).

Definition on_files {A} (p : prog fileE A) : prog brokerE A := lift (@BFile) p.

Definition fetchToken (timeout : Z) : prog brokerE (result Token) :=
  try "fetch token" (trigger (BToken timeout)).

(** The delay doubles, at the width of [time.Duration], up to the limit. *)
Definition nextRetry (current limit : Z) : Z :=
  let next := wrap64 (current * 2) in
  if (next <=? 0) || (next >? limit) then limit else next.

Definition nextRefresh (expiry skew minRefresh : Z) : prog brokerE Z :=
  if IsZero expiry then mret minRefresh
  else
    now ← trigger BNow;
    let wait := wrap64 (Sub expiry now - skew) in
    mret (if wait <? minRefresh then minRefresh else wait).

Definition writeTokenAtomic (p token : string) : prog fileE (result unit) :=
  and_then (try "create temp" (trigger (FCreateTemp (Dir p) ".token-"))) (λ tmp,
  fill_and_rename ErrWrap true "write" tmp (file_of p) token 384).

(** One attempt: fetch, then write. *)
Definition refresh (lc : loopConfig) : prog brokerE (result Token) :=
  and_then (fetchToken (fetchTimeout lc)) (λ token,
  and_then (try "write token file" (on_files (writeTokenAtomic (outputPath lc) (AccessToken token)))) (λ _,
  mret (Ok token))).

(** The loop of [runLoop] for at most [fuel] attempts: the exit code, or [None]
    when it is still running. *)
Fixpoint run_loop (fuel : nat) (lc : loopConfig) (retry : Z) : prog brokerE (option Z) :=
  match fuel with
  | O => mret None
  | S fuel =>
    done ← trigger BCtxErr;
    if (done : bool) then mret (Some 0)
    else
      r ← refresh lc;
      match r with
      | Err _ =>
        done ← trigger BCtxErr;
        if (done : bool) then mret (Some 0)
        else
          slept ← trigger (BSleep retry);
          if (slept : bool) then run_loop fuel lc (nextRetry retry (maxRetryInterval lc)) else mret (Some 0)
      | Ok token =>
        wait ← nextRefresh (Expiry token) (refreshSkew lc) (minRefresh lc);
        slept ← trigger (BSleep wait);
        if (slept : bool) then run_loop fuel lc (minRefresh lc) else mret (Some 0)
      end
  end.

Definition runLoop (fuel : nat) (lc : loopConfig) : prog brokerE (option Z) := run_loop fuel lc (minRefresh lc).

(** ** Arguments *)

Definition validateArgs (clientID output issuerURL tokenURL secret secretFile : string) : result unit :=
  if clientID == "" then Err (ErrMsg "--oidc-client-id is required")
  else if output == "" then Err (ErrMsg "--output is required")
  else if (issuerURL == "") && (tokenURL == "")
  then Err (ErrMsg "either --oidc-issuer-url or --oidc-token-url is required")
  else if (secret == "") && (secretFile == "")
  then Err (ErrMsg "either --oidc-client-secret or --oidc-client-secret-file is required")
  else if (secret != "") && (secretFile != "")
  then Err (ErrMsg "--oidc-client-secret and --oidc-client-secret-file are mutually exclusive")
  else Ok ().

Definition resolveSecret (literal file : string) : prog fileE (result string) :=
  if literal != "" then mret (Ok literal)
  else
    and_then (try "read" (trigger (FReadFile (file_of file)))) (λ data,
    let secret := TrimSpace data in
    mret (if secret == "" then Err (ErrMsg "client secret file is empty") else Ok secret)).

Definition resolveTokenURL (issuerURL override : string) : prog brokerE (result string) :=
  if override != "" then mret (Ok override)
  else
    and_then (try "discover" (trigger (BDiscover issuerURL discoveryTimeout))) (λ _,
    and_then (try "read discovery claims" (trigger BClaims)) (λ endpoint,
    mret (if endpoint == "" then Err (ErrMsg "discovery doc is missing token_endpoint") else Ok endpoint))).

Definition parseScopes (s : string) : list string :=
  if s == "" then []
  else filter (λ t, t ≠ "") (TrimSpace <$> Split "," s).

(** The command line, as the flags leave it. *)
Record brokerFlags := MkBrokerFlags {
  bIssuerURL : string; bTokenURL : string; bClientID : string; bClientSecret : string;
  bClientSecretFile : string; bAudience : string; bScopes : string; bLoop : loopConfig }.

(** The client-credentials configuration the loop fetches with. *)
Record ccConfig := MkCC {
  ccClientID : string; ccClientSecret : string; ccTokenURL : string; ccScopes : list string;
  ccAudience : option string }.

(** [run] up to the loop: an exit code, or the configuration to run with. *)
Definition prepare (f : brokerFlags) : prog brokerE (Z + ccConfig) :=
  match validateArgs (bClientID f) (outputPath (bLoop f)) (bIssuerURL f) (bTokenURL f)
          (bClientSecret f) (bClientSecretFile f), loop_validate (bLoop f) with
  | Err _, _ => mret (inl 2)
  | Ok _, Err _ => mret (inl 2)
  | Ok _, Ok _ =>
    secret ← on_files (resolveSecret (bClientSecret f) (bClientSecretFile f));
    match secret with
    | Err _ => mret (inl 2)
    | Ok secret =>
      url ← resolveTokenURL (bIssuerURL f) (bTokenURL f);
      match url with
      | Err _ => mret (inl 1)
      | Ok url =>
        mret (inr (MkCC (bClientID f) secret url (parseScopes (bScopes f))
                (if bAudience f == "" then None else Some (bAudience f))))
      end
    end
  end.

Definition broker_run (fuel : nat) (f : brokerFlags) : prog brokerE (option Z) :=
  cfg ← prepare f;
  match cfg with
  | inl code => mret (Some code)
  | inr _ => runLoop fuel (bLoop f)
  end.

(** ** Runs *)

Inductive bevent :=
| VPoll (done : bool)
| VFailed
| VFetched (token : string) (expiry : Z)
| VNow (t : Z)
| VSlept (d : Z) (woke : bool).

(** The files, and what the loop did with the provider and the clock so far. *)
Record bstate := MkB { b_vol : volume; b_log : list bevent }.

Definition logged (v : bevent) (s : bstate) : bstate := MkB (b_vol s) (b_log s ++ [v]).

Definition broker_step (X : Type) (s : bstate) (e : brokerE X) : X → bstate → Prop :=
  match e with
  | BFile e' => λ x s', fs_step _ (b_vol s) e' x (b_vol s') ∧ b_log s' = b_log s
  | BCtxErr => λ x s', s' = logged (VPoll x) s
  | BToken _ => λ x s',
      s' = logged match x with Ok t => VFetched (AccessToken t) (Expiry t) | Err _ => VFailed end s
  | BNow => λ t s', s' = logged (VNow t) s
  | BSleep d => λ x s', s' = logged (VSlept d x) s
  | BDiscover _ _ => λ _ s', s' = s
  | BClaims => λ _ s', s' = s
  end.

Abbreviation bexec := (exec_rel broker_step).

Lemma bexec_op {A X} (e : brokerE X) (k : X → prog brokerE A) s tr a s' :
  bexec (trigger e ≫= k) s tr a s' →
  ∃ x s1 tr', broker_step X s e x s1 ∧ tr = s1 :: tr' ∧ bexec (k x) s1 tr' a s'.
Proof. done. Qed.

Lemma bexec_ret {A} (a a' : A) s tr s' : bexec (mret a') s tr a s' → a = a' ∧ tr = [] ∧ s' = s.
Proof. done. Qed.

(** File operations run on the files alone. *)
Lemma on_files_run {A} (p : prog fileE A) s tr a s' :
  bexec (on_files p) s tr a s' →
  b_log s' = b_log s ∧ ∃ trv, fexec p (b_vol s) trv a (b_vol s') ∧ tr = (λ v, MkB v (b_log s)) <$> trv.
Proof.
  revert s tr. induction p as [a'|X e k IH]; intros s tr.
  - intros (-> & -> & ->). split; [done|]. by exists [].
  - intros (x & s1 & tr1 & [Hstep Hlog] & -> & Hrun).
    apply IH in Hrun as (Hl & trv & Hf & ->). rewrite Hlog in *. split; [done|].
    exists (b_vol s1 :: trv). split; [by exists x, (b_vol s1), trv|]. destruct s1. cbn in *. by subst.
Qed.

(** ** The token file *)

Section rotation.
Context (lc : loopConfig) (v0 : volume).
Abbreviation out := (file_of (outputPath lc)).
Hypothesis Hvis : visible out.

(** The file has its first content or a token that was fetched, complete and
    private; no other file has changed. *)
Definition token_file (s : bstate) : Prop :=
  (∀ q, visible q → q ≠ out → b_vol s !! q = v0 !! q) ∧
  (b_vol s !! out = v0 !! out ∨
   ∃ f e, b_vol s !! out = Some f ∧ f_mode f = 384 ∧ VFetched (f_data f) e ∈ b_log s).

Lemma token_file_logged s l : token_file s → token_file (MkB (b_vol s) (b_log s ++ l)).
Proof.
  intros [Ho Hf]. split; [done|]. destruct Hf as [|(f & e & ? & ? & Hin)]; [by left|right].
  exists f, e. split_and!; [done..|]. cbn. apply elem_of_app. by left.
Qed.

Lemma token_file_same s v : token_file s → same (b_vol s) v → token_file (MkB v (b_log s)).
Proof.
  intros [Ho Hf] Hs. split; cbn.
  - intros q Hq Hne. rewrite Hs by done. by apply Ho.
  - by rewrite Hs.
Qed.

Lemma token_file_replaced s v tok e :
  token_file s → VFetched tok e ∈ b_log s → replaced out tok 384 (b_vol s) v → token_file (MkB v (b_log s)).
Proof.
  intros [Ho _] Hin Hr. split; cbn.
  - intros q Hq Hne. rewrite (replaced_other _ _ _ _ _ _ Hq Hne Hr). by apply Ho.
  - right. destruct (replaced_self _ _ _ _ _ Hvis Hr) as [t Ht]. eexists _, e. by split_and!.
Qed.

Lemma writeTokenAtomic_outcome p tok s tr r s' :
  fexec (writeTokenAtomic p tok) s tr r s' → atomic_outcome (file_of p) tok 384 s tr r s'.
Proof.
  apply temp_outcome with (dir := Dir p) (pat := ".token-"); [done|eauto|].
  intros. by eapply fill_and_rename_outcome.
Qed.

(** One attempt: what it logs, and the file at every moment of it. *)
Lemma refresh_run s tr r s' :
  token_file s → bexec (refresh lc) s tr r s' →
  Forall token_file tr ∧ token_file s' ∧
  ∃ v, b_log s' = b_log s ++ [v] ∧
    match r with
    | Ok t => v = VFetched (AccessToken t) (Expiry t) ∧ f_data <$> b_vol s' !! out = Some (AccessToken t)
    | Err _ => v = VFailed ∨ ∃ tok e, v = VFetched tok e
    end.
Proof.
  intros Hs Hrun. apply exec_rel_bind in Hrun as (tr1 & x & s1 & tr2 & -> & H1 & H2).
  apply bexec_op in H1 as (y & s1' & tr1' & -> & -> & H1). apply bexec_ret in H1 as (-> & -> & ->).
  destruct y as [t|e]; cbn [wrap_err] in H2.
  2:{ apply bexec_ret in H2 as (-> & -> & ->). pose proof (token_file_logged s [VFailed] Hs).
      split_and!; [cbn [app]; by rewrite Forall_singleton|done|]. exists VFailed. auto. }
  pose proof (token_file_logged s [VFetched (AccessToken t) (Expiry t)] Hs) as Hs1.
  set (s1 := logged (VFetched (AccessToken t) (Expiry t)) s) in *.
  assert (VFetched (AccessToken t) (Expiry t) ∈ b_log s1) as Hin.
  { cbn. apply elem_of_app. right. by apply list_elem_of_singleton. }
  apply exec_rel_bind in H2 as (tr3 & x & s2 & tr4 & -> & H2 & H3).
  apply exec_rel_bind in H2 as (tr5 & y & s3 & tr6 & -> & H2 & H4). apply bexec_ret in H4 as (-> & -> & ->).
  apply on_files_run in H2 as (Hlog & trv & Hw & ->). apply writeTokenAtomic_outcome in Hw as [Htr Hr].
  destruct s3 as [v3 l3]. cbn [b_vol b_log] in *. subst l3.
  assert (token_file (MkB v3 (b_log s1)) ∧
    (is_ok y = true → f_data <$> v3 !! out = Some (AccessToken t))) as [Hs3 Hdata].
  { destruct y as [[]|e]; split; try done.
    - by eapply token_file_replaced.
    - intros _. by destruct (replaced_self _ _ _ _ _ Hvis Hr) as [m ->].
    - by eapply token_file_same. }
  assert (tr4 = [] ∧ s' = MkB v3 (b_log s1) ∧ match r with Ok t' => t' = t ∧ is_ok y = true | Err _ => True end)
    as (-> & -> & Hout).
  { destruct y as [[]|e]; apply bexec_ret in H3 as (-> & -> & ->); auto. }
  rewrite !app_nil_r. cbn [app]. rewrite Forall_cons, Forall_fmap. split_and!; [done| |done|].
  - eapply Forall_impl; [exact Htr|]. intros v [Hv|Hv].
    + by apply (token_file_same s1).
    + by apply (token_file_replaced s1 v (AccessToken t) (Expiry t)).
  - eexists. split; [done|]. destruct r as [t'|e]; [|eauto]. destruct Hout as [-> Hok]. auto.
Qed.
End rotation.

(** ** The delays *)

(** The waits a log shows: after a failed attempt the current retry delay,
    which doubles up to the limit; after a success until [refreshSkew] before
    the token's expiry, but at least [minRefresh], and the retry delay starts
    over. *)
Fixpoint delays_ok (lc : loopConfig) (retry : Z) (log : list bevent) : Prop :=
  match log with
  | [] => True
  | VPoll _ :: VSlept d _ :: log' => d = retry ∧ delays_ok lc (Z.min (retry * 2) (maxRetryInterval lc)) log'
  | VFetched _ e :: VNow t :: VSlept d _ :: log' =>
      minRefresh lc ≤ d ∧
      (int64 (e - t) → int64 (e - t - refreshSkew lc) → d = Z.max (minRefresh lc) (e - t - refreshSkew lc)) ∧
      delays_ok lc (minRefresh lc) log'
  | VFetched _ e :: VSlept d _ :: log' => e = 0 ∧ d = minRefresh lc ∧ delays_ok lc (minRefresh lc) log'
  | _ :: log' => delays_ok lc retry log'
  end.

Lemma nextRetry_min current limit :
  0 < current ≤ limit → limit ≤ MaxInt64 → nextRetry current limit = Z.min (current * 2) limit.
Proof.
  unfold nextRetry, MaxInt64. intros Hc Hl. destruct (Z.le_gt_cases (current * 2) 9223372036854775807) as [Hle|Hgt].
  - rewrite wrap64_id by (unfold int64, MinInt64, MaxInt64; lia).
    destruct (Z.leb_spec (current * 2) 0), (Z.gtb_spec (current * 2) limit); cbn [orb]; lia.
  - assert (wrap64 (current * 2) = current * 2 - 2 ^ 64) as ->.
    { unfold wrap64, wrap. change (2 ^ (64 - 1)) with 9223372036854775808.
      change (2 ^ 64) with 18446744073709551616.
      rewrite <- (Z.mod_unique _ _ 1 (current * 2 + 9223372036854775808 - 18446744073709551616)); lia. }
    destruct (Z.leb_spec (current * 2 - 2 ^ 64) 0); cbn [orb]; lia.
Qed.

Lemma nextRefresh_run expiry skew m s tr d s' :
  bexec (nextRefresh expiry skew m) s tr d s' →
  b_vol s' = b_vol s ∧
  ((expiry = 0 ∧ d = m ∧ s' = s ∧ tr = []) ∨
   ∃ t, s' = logged (VNow t) s ∧ tr = [s'] ∧ m ≤ d ∧
     (int64 (expiry - t) → int64 (expiry - t - skew) → d = Z.max m (expiry - t - skew))).
Proof.
  unfold nextRefresh, IsZero. destruct (Z.eqb_spec expiry 0).
  { intros (-> & -> & ->)%bexec_ret. split; [done|left]. by split_and!. }
  intros (t & s1 & tr1 & -> & -> & Hrun)%bexec_op. apply bexec_ret in Hrun as (-> & -> & ->).
  split; [done|right]. exists t. split_and!; [done|done|case_match; lia|].
  unfold Sub, int64, MinInt64, MaxInt64. intros H1 H2. rewrite Z.min_r, Z.max_r by lia.
  rewrite wrap64_id by (unfold int64, MinInt64, MaxInt64; lia). case_match; lia.
Qed.

(** What validation and the width of durations give. *)
Record loop_ok (lc : loopConfig) : Prop := {
  lo_min : 0 < minRefresh lc ≤ maxRetryInterval lc;
  lo_max : maxRetryInterval lc ≤ MaxInt64 }.

(** The delays after a success, whether or not the clock was asked. *)
Lemma success_delays lc v0 retry s s2 tok tr d s3 b w :
  token_file lc v0 s2 → b_log s2 = b_log s ++ [VPoll b; VFetched (AccessToken tok) (Expiry tok)] →
  bexec (nextRefresh (Expiry tok) (refreshSkew lc) (minRefresh lc)) s2 tr d s3 →
  ∃ l0, b_log (logged (VSlept d w) s3) = b_log s ++ VPoll b :: l0 ∧ Forall (token_file lc v0) tr ∧
    token_file lc v0 (logged (VSlept d w) s3) ∧
    ∀ l, delays_ok lc (minRefresh lc) l → delays_ok lc retry (VPoll b :: l0 ++ l).
Proof.
  intros Hs2 Hlog [_ [(He & -> & -> & ->)|(t & -> & -> & Hmin & Hexact)]]%nextRefresh_run.
  - exists [VFetched (AccessToken tok) (Expiry tok); VSlept (minRefresh lc) w]. cbn [logged b_log].
    rewrite Hlog, <- !app_assoc. split_and!; [done|done| |].
    + by apply (token_file_logged lc v0 s2 [VSlept (minRefresh lc) w]).
    + intros l Hl. by cbn.
  - exists [VFetched (AccessToken tok) (Expiry tok); VNow t; VSlept d w]. cbn [logged b_log b_vol].
    rewrite Hlog, <- !app_assoc. pose proof (token_file_logged lc v0 s2 [VNow t] Hs2) as Hs3.
    split_and!; [done|by rewrite Forall_singleton| |].
    + by apply (token_file_logged lc v0 _ [VSlept d w]) in Hs3.
    + intros l Hl. by cbn.
Qed.

(** A failed attempt is followed by a poll of the context. *)
Lemma failure_delays lc retry v l b c :
  v = VFailed ∨ (∃ tok e, v = VFetched tok e) → delays_ok lc retry (VPoll c :: l) →
  delays_ok lc retry (VPoll b :: v :: VPoll c :: l).
Proof. by intros [->|(? & ? & ->)]. Qed.

Lemma run_loop_delays lc v0 fuel retry s tr code s' :
  loop_ok lc → visible (file_of (outputPath lc)) → 0 < retry ≤ maxRetryInterval lc → token_file lc v0 s →
  bexec (run_loop fuel lc retry) s tr code s' →
  Forall (token_file lc v0) tr ∧ ∃ l, b_log s' = b_log s ++ l ∧ delays_ok lc retry l.
Proof.
  intros Hlc Hvis. revert retry s tr. induction fuel as [|fuel IH]; intros retry s tr Hretry Hs Hrun.
  { apply bexec_ret in Hrun as (_ & -> & ->). split; [done|]. exists []. by rewrite app_nil_r. }
  cbn [run_loop] in Hrun. apply bexec_op in Hrun as (done1 & s1 & tr1 & -> & -> & Hrun).
  pose proof (token_file_logged lc v0 s [VPoll done1] Hs) as Hs1. rewrite Forall_cons.
  destruct done1.
  { apply bexec_ret in Hrun as (_ & -> & ->). split; [done|]. by exists [VPoll true]. }
  apply exec_rel_bind in Hrun as (tr2 & r & s2 & tr3 & -> & Href & Hrun).
  destruct (refresh_run lc v0 Hvis _ _ _ _ Hs1 Href) as (Htr2 & Hs2 & v & Hlog & Hv).
  cbn [b_log logged] in Hlog. rewrite <- app_assoc in Hlog. cbn [app] in Hlog. rewrite Forall_app. destruct r as [tok|err].
  - destruct Hv as [-> _]. apply exec_rel_bind in Hrun as (tr4 & d & s3 & tr5 & -> & Hnext & Hrun).
    apply bexec_op in Hrun as (slept & s4 & tr6 & -> & -> & Hrun).
    destruct (success_delays lc v0 retry _ _ _ _ _ _ false slept Hs2 Hlog Hnext) as (l0 & Hl0 & Htr4 & Hs4 & Hdel).
    rewrite Forall_app, Forall_cons. destruct slept.
    + apply IH in Hrun as (Htr6 & l & Hl & Hd); [|destruct Hlc; lia|done]. split; [by split_and!|].
      exists (VPoll false :: l0 ++ l). rewrite Hl, Hl0, <- app_assoc. split; [done|]. by apply Hdel.
    + apply bexec_ret in Hrun as (_ & -> & ->). split; [by split_and!|].
      exists (VPoll false :: l0). rewrite Hl0. split; [done|]. rewrite <- (app_nil_r l0). by apply Hdel.
  - apply bexec_op in Hrun as (done2 & s3 & tr4 & -> & -> & Hrun).
    pose proof (token_file_logged lc v0 s2 [VPoll done2] Hs2) as Hs3. rewrite Forall_cons. destruct done2.
    { apply bexec_ret in Hrun as (_ & -> & ->). split; [done|]. exists [VPoll false; v; VPoll true].
      cbn [logged b_log]. rewrite Hlog, <- app_assoc. split; [done|]. by apply failure_delays. }
    apply bexec_op in Hrun as (slept & s4 & tr5 & -> & -> & Hrun).
    pose proof (token_file_logged lc v0 _ [VSlept retry slept] Hs3) as Hs4. cbn [b_vol b_log] in Hs4.
    assert (0 < nextRetry retry (maxRetryInterval lc) ≤ maxRetryInterval lc) as Hnext.
    { rewrite nextRetry_min by (destruct Hlc; lia). destruct Hlc; lia. }
    rewrite Forall_cons. destruct slept.
    + apply IH in Hrun as (Htr5 & l & Hl & Hd); [|done..]. split; [by split_and!|].
      exists (VPoll false :: v :: VPoll false :: VSlept retry true :: l). cbn [logged b_log] in Hl.
      rewrite Hl, Hlog, <- !app_assoc. split; [done|]. apply failure_delays; [done|].
      split; [done|]. by rewrite <- nextRetry_min by (destruct Hlc; lia).
    + apply bexec_ret in Hrun as (_ & -> & ->). split; [by split_and!|].
      exists [VPoll false; v; VPoll false; VSlept retry false]. cbn [logged b_log]. rewrite Hlog, <- !app_assoc. split; [done|].
      by apply failure_delays.
Qed.

(** The events that end the loop: a cancelled context, or a sleep it cut short. *)
Definition stopped (v : bevent) : Prop := v = VPoll true ∨ ∃ d, v = VSlept d false.

Lemma run_loop_exit lc fuel retry s tr code s' :
  bexec (run_loop fuel lc retry) s tr (Some code) s' → code = 0 ∧ ∃ v, last (b_log s') = Some v ∧ stopped v.
Proof.
  unfold stopped. revert retry s tr. induction fuel as [|fuel IH]; intros retry s tr Hrun.
  { by apply bexec_ret in Hrun as [? _]. }
  cbn [run_loop] in Hrun. apply bexec_op in Hrun as ([] & s1 & tr1 & -> & -> & Hrun).
  { apply bexec_ret in Hrun as ([= ->] & _ & ->). split; [done|]. cbn. rewrite last_snoc. eexists. split; [done|]. eauto. }
  apply exec_rel_bind in Hrun as (tr2 & r & s2 & tr3 & -> & _ & Hrun). destruct r as [tok|err].
  - apply exec_rel_bind in Hrun as (tr4 & d & s3 & tr5 & -> & _ & Hrun).
    apply bexec_op in Hrun as ([] & s4 & tr6 & -> & -> & Hrun); [by eapply IH|].
    apply bexec_ret in Hrun as ([= ->] & _ & ->). split; [done|]. cbn. rewrite last_snoc. eexists. split; [done|]. eauto.
  - apply bexec_op in Hrun as ([] & s3 & tr4 & -> & -> & Hrun).
    { apply bexec_ret in Hrun as ([= ->] & _ & ->). split; [done|]. cbn. rewrite last_snoc. eexists. split; [done|]. eauto. }
    apply bexec_op in Hrun as ([] & s4 & tr5 & -> & -> & Hrun); [by eapply IH|].
    apply bexec_ret in Hrun as ([= ->] & _ & ->). split; [done|]. cbn. rewrite last_snoc. eexists. split; [done|]. eauto.
Qed.

Lemma loop_validate_ok lc : loop_validate lc = Ok () → maxRetryInterval lc ≤ MaxInt64 → loop_ok lc.
Proof. unfold loop_validate. intros Hv Hm. repeat case_match; try done. split; lia. Qed.

(** ** The theorem *)

(** A provider that answers the first request and fails afterwards. *)
Definition broker_demo (X : Type) (e : brokerE X) (s : bstate) : X * bstate :=
  match e with
  | BFile e' => let '(x, v) := fs_fine 5 _ e' (b_vol s) in (x, MkB v (b_log s))
  | BCtxErr => (false, logged (VPoll false) s)
  | BToken _ =>
      if (length (b_log s) <? 2)%nat then (Ok (MkToken "eyJ0" (3600 * Second)), logged (VFetched "eyJ0" (3600 * Second)) s)
      else (Err (ErrMsg "503"), logged VFailed s)
  | BNow => (60 * Second, logged (VNow (60 * Second)) s)
  | BSleep d => (true, logged (VSlept d true) s)
  | BDiscover issuer _ => (Ok issuer, s)
  | BClaims => (Ok "https://idp/token", s)
  end.

Lemma broker_demo_ok X (e : brokerE X) s : broker_step X s e (broker_demo X e s).1 (broker_demo X e s).2.
Proof.
  destruct e; cbn [broker_step broker_demo]; try done.
  - pose proof (fs_fine_ok 5 X e (b_vol s)) as H. by destruct (fs_fine 5 X e (b_vol s)).
  - by destruct (length (b_log s) <? 2)%nat.
Qed.

Definition demo_loop : loopConfig :=
  MkLoop "/var/run/berth/token" defaultRefreshSkew defaultMinRefresh defaultFetchTimeout defaultMaxRetry.

Definition demo_rotation : option Z * bstate := run broker_demo (runLoop 3 demo_loop) (MkB ∅ []).

(** C30: token rotation is safe for its readers. Whatever the provider and the
    file system answer, at every moment of the broker's loop the token file is
    as it was found or holds one complete token the broker fetched, readable by
    its owner only, and no other file has changed; so a token source reading it
    at that moment hands out its cached token or a complete, trimmed one. The
    loop waits as configured: after a failure the retry delay, which doubles
    from the minimum up to the limit without overflow; after a success until
    the skew before the token's expiry, never less than the minimum. It ends,
    with exit code 0, only when it is told to. *)
Theorem broker_rotation lc fuel v0 tr code s' :
  loop_validate lc = Ok () → maxRetryInterval lc ≤ MaxInt64 → visible (file_of (outputPath lc)) →
  bexec (runLoop fuel lc) (MkB v0 []) tr code s' →
  delays_ok lc (minRefresh lc) (b_log s') ∧
  (∀ c, code = Some c → c = 0 ∧ ∃ v, last (b_log s') = Some v ∧ stopped v) ∧
  ∀ s1, s1 ∈ tr → token_file lc v0 s1 ∧
    ∀ ts trr tok ts' v', tsPath ts = outputPath lc → fexec (ts_Get ts) (b_vol s1) trr (tok, ts') v' →
      tok = ts_cached ts ∨
      ∃ d, tok = TrimSpace d ∧ tok ≠ "" ∧
        (f_data <$> v0 !! file_of (outputPath lc) = Some d ∨ ∃ e, VFetched d e ∈ b_log s1).
Proof.
  intros Hv Hmax Hvis Hrun. pose proof (loop_validate_ok _ Hv Hmax) as Hlc.
  assert (token_file lc v0 (MkB v0 [])) as H0 by (split; auto).
  destruct (run_loop_delays lc v0 fuel (minRefresh lc) _ _ _ _ Hlc Hvis ltac:(destruct Hlc; lia) H0 Hrun) as (Htr & l & Hl & Hd).
  cbn in Hl. subst. split_and!; [done|intros c ->; by eapply run_loop_exit|].
  intros s1 Hs1. rewrite Forall_forall in Htr. pose proof (Htr s1 Hs1) as Hf. split; [done|].
  intros ts trr tok ts' v' Hp Hget. apply ts_Get_run in Hget as (_ & Htok & _ & [->|(Hne & f & Hfile & Ht)]); [by left|].
  right. exists (f_data f). split_and!; [done|done|]. rewrite Hp in Hfile. destruct Hf as [_ [E|(g & e & Hg & _ & Hin)]].
  - left. by rewrite <- E, Hfile.
  - right. exists e. by simplify_eq.
Qed.

Lemma broker_rotation_witness :
  b_log demo_rotation.2 =
    [VPoll false; VFetched "eyJ0" (3600 * Second); VNow (60 * Second); VSlept (3480 * Second) true;
     VPoll false; VFailed; VPoll false; VSlept (30 * Second) true;
     VPoll false; VFailed; VPoll false; VSlept (60 * Second) true] ∧
  delays_ok demo_loop (30 * Second) (b_log demo_rotation.2).
Proof.
  split; [vm_compute; reflexivity|].
  destruct (run_exec_rel broker_step broker_demo (runLoop 3 demo_loop) (MkB ∅ []) broker_demo_ok) as [tr Htr].
  refine (proj1 (broker_rotation demo_loop 3 ∅ tr _ _ _ _ _ Htr)); [reflexivity|discriminate|reflexivity].
Defined.
