(* ===== verification/Enforce.v ===== *)
(** * Stopping the main container

    [internal/acquire/enforce.go]: the probe and the signal enforcer, and the
    choice of the processes a signal goes to. The process table and [kill(2)]
    are the operating system's. *)

From S2P Require Import Prelude GoStrings GoPath Store State AcquireConfig.

Definition SIGTERM : Z := 15.
Definition SIGKILL : Z := 9.

Inductive procE : Type → Type :=
| XFile {X : Type} (e : fileE X) : procE X
| XFind : procE (result (list Z))
| XNow : procE Z
| XSignal (pid sig : Z) : procE (result unit).

Definition on_volume {A} (p : prog fileE A) : prog procE A := lift (@XFile) p.

(** ** Which processes *)

Record procScanner := MkScanner {
  sc_self : Z;
  sc_parent : Z;
  sc_selfExe : string;
  sc_list : result (list Z);
  sc_comm : Z → string;
  sc_exe : Z → string }.

Definition commMax : Z := 15.

Definition matchesTarget (target comm exe : string) : bool :=
  ((comm != "") && (comm == target)) ||
  ((exe != "") && (Base exe == target)) ||
  ((comm != "") && (len target >? commMax) && (comm == String.substring 0 15 target)).

(** One pass of the selection loop: keep this process? *)
Definition workload_pid (sc : procScanner) (target : string) (pid : Z) : bool :=
  if (pid <=? 1) || (pid =? sc_self sc) || (pid =? sc_parent sc) then false
  else if (sc_exe sc pid != "") && (sc_exe sc pid == sc_selfExe sc) then false
  else if (target != "") && negb (matchesTarget target (sc_comm sc pid) (sc_exe sc pid)) then false
  else true.

Definition workloadPIDs (sc : procScanner) (target : string) : result (list Z) :=
  pids ← sc_list sc;
  Ok (filter (λ pid, workload_pid sc target pid = true) pids).

(** A reading of [/proc]: the entries with whether they are directories, and the
    [comm] file and [exe] link of each process. *)
Record procfs := MkProcfs {
  pf_entries : result (list (string * bool));
  pf_comm : Z → result string;
  pf_exe : Z → result string;
  pf_selfExe : result string }.

Definition listProcPIDs (pf : procfs) : result (list Z) :=
  match pf_entries pf with
  | Err e => Err e
  | Ok entries => Ok (omap (λ e : string * bool, if e.2 then Atoi e.1 else None) entries)
  end.

Definition readProcComm (pf : procfs) (pid : Z) : string :=
  match pf_comm pf pid with Ok b => TrimSpace b | Err _ => "" end.

Definition readProcExe (pf : procfs) (pid : Z) : string :=
  match pf_exe pf pid with Ok exe => exe | Err _ => "" end.

Definition osProcScanner (pf : procfs) (self parent : Z) : procScanner :=
  MkScanner self parent (match pf_selfExe pf with Ok exe => exe | Err _ => "" end)
    (listProcPIDs pf) (readProcComm pf) (readProcExe pf).

(** ** The enforcers *)

(** The enforcer [newEnforcer] builds: its state directory and, for the signal
    enforcer, the grace period and when each process was sent SIGTERM. *)
Inductive enforcer :=
| probeEnforcer (dir : string)
| signalEnforcer (dir : option string) (grace : Z) (termedAt : gmap Z Z).

Definition newEnforcer (cfg : Config) : enforcer :=
  if Enforce cfg == EnforceSignal then signalEnforcer (Some (StateDir cfg)) (EnforceGrace cfg) ∅
  else probeEnforcer (StateDir cfg).

(** A signal to a process that is already gone is no failure. *)
Definition signal_failure (what : string) (r : result unit) : list error :=
  match r with
  | Ok _ => []
  | Err e => if errors_Is e ErrSRCH then [] else [ErrWrap what e]
  end.

Definition failure_of (r : result unit) : list error :=
  match r with Ok _ => [] | Err e => [e] end.

(** The loop over the processes found; failures accumulate ([errors.Join]). *)
Fixpoint hold_loop (grace now : Z) (pids : list Z) (termedAt : gmap Z Z) (failures : list error)
    : prog procE (list error * gmap Z Z) :=
  match pids with
  | [] => mret (failures, termedAt)
  | pid :: pids =>
    match termedAt !! pid with
    | None =>
      r ← trigger (XSignal pid SIGTERM);
      hold_loop grace now pids (<[pid := now]> termedAt) (failures ++ signal_failure "SIGTERM" r)
    | Some t =>
      if Sub now t >=? grace then
        r ← trigger (XSignal pid SIGKILL);
        hold_loop grace now pids termedAt (failures ++ signal_failure "SIGKILL" r)
      else hold_loop grace now pids termedAt failures
    end
  end.

Definition signal_Hold (dir : option string) (grace : Z) (termedAt : gmap Z Z)
    : prog procE (list error * gmap Z Z) :=
  marked ← match dir with
           | Some d => on_volume (MarkUnhealthy d)
           | None => mret (Ok ())
           end;
  found ← trigger XFind;
  match found with
  | Err e => mret (failure_of marked ++ [ErrWrap "find main process" e], termedAt)
  | Ok pids =>
    now ← trigger XNow;
    hold_loop grace now pids termedAt (failure_of marked)
  end.

Definition enforcer_Hold (e : enforcer) : prog procE (list error * enforcer) :=
  match e with
  | probeEnforcer dir => r ← on_volume (MarkUnhealthy dir); mret (failure_of r, e)
  | signalEnforcer dir grace termedAt =>
      r ← signal_Hold dir grace termedAt; mret (r.1, signalEnforcer dir grace r.2)
  end.

Definition enforcer_Release (e : enforcer) : prog procE (list error * enforcer) :=
  match e with
  | probeEnforcer dir => r ← on_volume (MarkHealthy dir); mret (failure_of r, e)
  | signalEnforcer dir grace _ =>
      r ← match dir with Some d => on_volume (MarkHealthy d) | None => mret (Ok ()) end;
      mret (failure_of r, signalEnforcer dir grace ∅)
  end.

(** ** The operating system *)

(** The volume, and the signals sent so far. *)
Record world := MkWorld { w_vol : volume; w_sent : list (Z * Z) }.

(** [found] is what scanning the process table answers and [now] what the
    clock reads during the call; a signal may succeed or fail. *)
Definition proc_step (found : result (list Z)) (now : Z) (X : Type) (w : world) (e : procE X)
    : X → world → Prop :=
  match e with
  | XFile e => λ x w', ∃ v, fs_step _ (w_vol w) e x v ∧ w' = MkWorld v (w_sent w)
  | XFind => λ x w', x = found ∧ w' = w
  | XNow => λ x w', x = now ∧ w' = w
  | XSignal pid sig => λ _ w', w' = MkWorld (w_vol w) (w_sent w ++ [(pid, sig)])
  end.

Abbreviation pexec found now := (exec_rel (proc_step found now)).

Lemma pexec_op {A X} (e : procE X) (k : X → prog procE A) found clock w tr a w' :
  pexec found clock (trigger e ≫= k) w tr a w' →
  ∃ x w1 tr', proc_step found clock X w e x w1 ∧ tr = w1 :: tr' ∧ pexec found clock (k x) w1 tr' a w'.
Proof. done. Qed.

(** Volume operations leave the signals alone. *)
Lemma pexec_volume {A} (p : prog fileE A) found clock w tr a w' :
  pexec found clock (on_volume p) w tr a w' →
  w_sent w' = w_sent w ∧ fexec p (w_vol w) (w_vol <$> tr) a (w_vol w').
Proof.
  revert w tr. induction p as [b|X e k IH]; intros w tr; cbn.
  - by intros (-> & -> & ->).
  - intros (x & w1 & tr1 & (v & Hstep & ->) & -> & Hk). apply IH in Hk as [Hs Hk]. cbn in *.
    split; [done|]. by exists x, v, (w_vol <$> tr1).
Qed.

(** ** Escalation *)

(** What one process is sent, by what it was sent before. *)
Definition escalation (grace now : Z) (termedAt : gmap Z Z) (pid : Z) : option (Z * Z) :=
  match termedAt !! pid with
  | None => Some (pid, SIGTERM)
  | Some t => if Sub now t >=? grace then Some (pid, SIGKILL) else None
  end.

Definition record_terms (now : Z) (pids : list Z) (termedAt : gmap Z Z) : gmap Z Z :=
  foldl (λ m pid, match m !! pid with None => <[pid := now]> m | Some _ => m end) termedAt pids.

Lemma escalation_insert grace now termedAt pid q :
  pid ≠ q → escalation grace now (<[pid := now]> termedAt) q = escalation grace now termedAt q.
Proof. intros ?. unfold escalation. by rewrite lookup_insert_ne. Qed.

Lemma omap_ext_in {A B} (f g : A → option B) (l : list A) :
  (∀ x, x ∈ l → f x = g x) → omap f l = omap g l.
Proof.
  induction l as [|x l IH]; intros H; [done|]. cbn. rewrite (H x) by set_solver.
  by rewrite IH by (intros; apply H; set_solver).
Qed.

Lemma hold_loop_spec grace now pids termedAt fs found clock w tr es te w' :
  NoDup pids → pexec found clock (hold_loop grace now pids termedAt fs) w tr (es, te) w' →
  w' = MkWorld (w_vol w) (w_sent w ++ omap (escalation grace now termedAt) pids) ∧
  te = record_terms now pids termedAt ∧ ∃ more, es = fs ++ more.
Proof.
  revert termedAt fs w tr. induction pids as [|pid pids IH]; intros termedAt fs w tr Hnd; cbn [hold_loop].
  - intros ([= <- <-] & _ & ->). cbn. rewrite app_nil_r. destruct w. eauto using app_nil_r.
  - apply NoDup_cons in Hnd as [Hnin Hnd]. cbn [omap list_omap]. unfold escalation at 1, record_terms.
    cbn [foldl]. destruct (termedAt !! pid) as [t|].
    + destruct (Sub now t >=? grace).
      * intros (x & w1 & tr1 & -> & _ & Hrun)%pexec_op. apply IH in Hrun as (-> & -> & more & ->); [|done].
        cbn. rewrite <- !app_assoc. eauto.
      * intros Hrun. by apply IH in Hrun.
    + intros (x & w1 & tr1 & -> & _ & Hrun)%pexec_op. apply IH in Hrun as (-> & -> & more & ->); [|done].
      cbn. rewrite <- !app_assoc. split_and!; [|done|eauto]. cbn. do 3 f_equal.
      apply omap_ext_in. intros q Hq. apply escalation_insert. congruence.
Qed.

(** The directory whose marker an enforcer drives. *)
Definition enforcer_dir (e : enforcer) : option string :=
  match e with probeEnforcer dir => Some dir | signalEnforcer dir _ _ => dir end.

Lemma marked_gone d found clock w tr r w' :
  pexec found clock (on_volume (MarkUnhealthy d)) w tr r w' →
  w_sent w' = w_sent w ∧
  (w_vol w' !! healthyPath d = None ∨ ∃ x, ErrWrap "remove health marker" x ∈ failure_of r).
Proof.
  intros [Hs Hrun]%pexec_volume. split; [done|]. destruct r as [[]|e].
  - left. by apply MarkUnhealthy_ok in Hrun as [? _].
  - right. apply fexec_op in Hrun as (x & s1 & tr1 & Hx & _ & Hrun).
    apply fexec_ret in Hrun as (Hr & _ & _). destruct x as [|e']; [done|].
    destruct (errors_Is e' ErrNotExist); [done|]. simplify_eq. exists e'. by left.
Qed.

Lemma signal_Hold_spec dir grace termedAt found clock w tr es te w' :
  (∀ pids, found = Ok pids → NoDup pids) →
  pexec found clock (signal_Hold dir grace termedAt) w tr (es, te) w' →
  ∃ marked tr1 v, pexec found clock match dir with
                    | Some d => on_volume (MarkUnhealthy d)
                    | None => mret (Ok ())
                    end w tr1 marked (MkWorld v (w_sent w)) ∧
    (∃ more, es = failure_of marked ++ more) ∧
    match found with
    | Err _ => w' = MkWorld v (w_sent w) ∧ te = termedAt
    | Ok pids => w' = MkWorld v (w_sent w ++ omap (escalation grace clock termedAt) pids) ∧
                 te = record_terms clock pids termedAt
    end.
Proof.
  intros Hnd Hrun. apply exec_rel_bind in Hrun as (tr1 & marked & w1 & tr2 & -> & Hm & Hrun).
  assert (w1 = MkWorld (w_vol w1) (w_sent w)) as Hw1.
  { destruct dir; [apply pexec_volume in Hm as [<- _]; by destruct w1|].
    destruct Hm as (_ & _ & ->). by destruct w. }
  exists marked, tr1, (w_vol w1). rewrite <- Hw1. split; [done|].
  apply pexec_op in Hrun as (x & w2 & tr3 & [-> ->] & -> & Hrun). destruct found as [pids|e].
  - apply pexec_op in Hrun as (now & w3 & tr4 & [-> ->] & -> & Hrun).
    apply hold_loop_spec in Hrun as (-> & -> & Hmore); [|by apply Hnd].
    replace (w_sent w1) with (w_sent w) by (by rewrite Hw1). auto.
  - destruct Hrun as ([= -> ->] & _ & ->). eauto.
Qed.

(** ** The theorems *)

(** C15: enforcement fails closed. Whatever the process scan answers and
    whichever signals fail, after [Hold] of either enforcer the health marker
    is gone, so the liveness probe fails, unless removing it was itself
    reported as a failure. *)
Theorem hold_removes_marker e d found clock w tr es e' w' :
  (∀ pids, found = Ok pids → NoDup pids) → enforcer_dir e = Some d →
  pexec found clock (enforcer_Hold e) w tr (es, e') w' →
  w_vol w' !! healthyPath d = None ∨ ∃ x, ErrWrap "remove health marker" x ∈ es.
Proof.
  intros Hnd Hd Hrun. destruct e as [dir|dir grace te]; cbn in Hd; simplify_eq.
  - apply exec_rel_bind in Hrun as (tr1 & r & w1 & tr2 & -> & [_ Hm]%marked_gone & Hrun).
    by destruct Hrun as ([= -> ->] & _ & ->).
  - apply exec_rel_bind in Hrun as (tr1 & [es' te'] & w1 & tr2 & -> & Hs & Hrun).
    destruct Hrun as ([= -> ->] & _ & ->).
    apply signal_Hold_spec in Hs as (marked & tr3 & v & Hm & [more ->] & Hrest); [|done].
    apply marked_gone in Hm as [_ Hm].
    assert (w_vol w1 = v) as -> by (destruct found; destruct Hrest as [-> _]; done).
    destruct Hm as [?|[x Hx]]; [by left|right]. exists x. apply elem_of_app. by left.
Qed.

Definition demo_scanner : procScanner :=
  MkScanner 40 39 "/berth-acquire" (Ok [1; 7; 39; 40; 55]) (λ _, "") (λ pid,
    if pid =? 7 then "/usr/sbin/nginx" else if pid =? 55 then "/usr/bin/envoy" else "").

Definition demo_world : world := MkWorld handoff_volume [].

(** A handler in which nothing fails, for concrete runs. *)
Definition proc_fine (found : result (list Z)) (now : Z) (X : Type) (e : procE X) (w : world) : X * world :=
  match e with
  | XFile e => let '(x, v) := fs_fine now _ e (w_vol w) in (x, MkWorld v (w_sent w))
  | XFind => (found, w)
  | XNow => (now, w)
  | XSignal pid sig => (Ok (), MkWorld (w_vol w) (w_sent w ++ [(pid, sig)]))
  end.

Lemma proc_fine_run {A} found now (p : prog procE A) w :
  ∃ tr, pexec found now p w tr (run (proc_fine found now) p w).1 (run (proc_fine found now) p w).2.
Proof.
  apply run_exec_rel. intros X e v. destruct e as [X e| | |pid sig]; cbn; [|done..].
  pose proof (fs_fine_ok now X e (w_vol v)) as Hs. destruct (fs_fine now X e (w_vol v)) as [x v'].
  by exists v'.
Qed.

Definition demo_enforcer : enforcer := signalEnforcer (Some "/berth") (10 * Second) {[ 7 := Second ]}.
Definition demo_hold : (list error * enforcer) * world :=
  run (proc_fine (workloadPIDs demo_scanner "nginx") (12 * Second)) (enforcer_Hold demo_enforcer) demo_world.

Lemma demo_found : workloadPIDs demo_scanner "nginx" = Ok [7].
Proof. vm_compute. reflexivity. Qed.

Lemma hold_removes_marker_witness :
  w_vol demo_hold.2 !! healthyPath "/berth" = None ∧ w_sent demo_hold.2 = [(7, SIGKILL)].
Proof.
  split; [|vm_compute; reflexivity].
  destruct (proc_fine_run (workloadPIDs demo_scanner "nginx") (12 * Second)
    (enforcer_Hold demo_enforcer) demo_world) as [tr Htr].
  destruct (hold_removes_marker demo_enforcer "/berth" (workloadPIDs demo_scanner "nginx")
    (12 * Second) demo_world tr demo_hold.1.1 demo_hold.1.2 demo_hold.2)
    as [H|[x Hx]].
  - rewrite demo_found. intros pids [= <-]. apply NoDup_singleton.
  - reflexivity.
  - exact Htr.
  - exact H.
  - vm_compute in Hx. inversion Hx.
Defined.

(** Whom the signal enforcer signals, and how hard. In one [Hold] over a
    scan of the process table, every signal goes to a process that is neither
    PID 1 nor the helper, its parent or another instance of it, and that
    matches the target when one is set; SIGKILL goes only to a process whose
    SIGTERM is at least the grace period old; and every selected process that
    had no SIGTERM yet gets one now, and its time is remembered. *)
Theorem signal_escalation sc target dir grace termedAt pids clock w tr es te w' :
  sc_list sc = Ok pids → NoDup pids →
  pexec (workloadPIDs sc target) clock (signal_Hold dir grace termedAt) w tr (es, te) w' →
  ∃ sent, w_sent w' = w_sent w ++ sent ∧
    (∀ pid sig, (pid, sig) ∈ sent →
       pid ∈ pids ∧ 1 < pid ∧ pid ≠ sc_self sc ∧ pid ≠ sc_parent sc ∧
       (sc_exe sc pid ≠ "" → sc_exe sc pid ≠ sc_selfExe sc) ∧
       (target ≠ "" → matchesTarget target (sc_comm sc pid) (sc_exe sc pid) = true) ∧
       (sig = SIGTERM ∧ termedAt !! pid = None ∨
        sig = SIGKILL ∧ ∃ t, termedAt !! pid = Some t ∧ grace ≤ Sub clock t)) ∧
    (∀ pid, pid ∈ pids → workload_pid sc target pid = true → termedAt !! pid = None →
       (pid, SIGTERM) ∈ sent).
Proof.
  intros Hl Hnd Hrun. unfold workloadPIDs in Hrun. rewrite Hl in Hrun. cbn in Hrun.
  apply signal_Hold_spec in Hrun as (marked & tr1 & v & _ & _ & -> & _).
  2:{ intros ? [= <-]. by apply NoDup_filter. }
  eexists. split; [done|]. cbn. split.
  - intros pid sig (p & [Hw Hp]%list_elem_of_filter & He)%list_elem_of_omap.
    unfold workload_pid in Hw. unfold escalation in He.
    destruct ((p <=? 1) || _ || _) eqn:E1; [done|]. destruct (_ && _) eqn:E2 in Hw; [done|].
    destruct (_ && _) eqn:E3 in Hw; [done|]. bool_simp.
    assert (pid = p) as -> by (repeat case_match; by simplify_eq).
    split_and!; [done|lia|lia|lia|..].
    + intros Hne Heq. by rewrite (bool_decide_false _ Hne), (bool_decide_true _ Heq) in E2.
    + intros Hne. rewrite (bool_decide_false _ Hne) in E3. cbn in E3. by bool_simp.
    + destruct (termedAt !! p) as [t|]; [|by simplify_eq; left].
      destruct (Z.geb_spec (Sub clock t) grace); simplify_eq. right. eauto.
  - intros pid Hp Hw Hn. apply list_elem_of_omap. exists pid. rewrite list_elem_of_filter.
    unfold escalation. by rewrite Hn.
Qed.

Definition demo_signals : (list error * gmap Z Z) * world :=
  run (proc_fine (workloadPIDs demo_scanner "nginx") (12 * Second))
    (signal_Hold (Some "/berth") (10 * Second) {[ 7 := Second ]}) demo_world.

Lemma signal_escalation_witness :
  ∃ sent, w_sent demo_signals.2 = w_sent demo_world ++ sent ∧ sent = [(7, SIGKILL)].
Proof.
  destruct (proc_fine_run (workloadPIDs demo_scanner "nginx") (12 * Second)
    (signal_Hold (Some "/berth") (10 * Second) {[ 7 := Second ]}) demo_world) as [tr Htr].
  destruct (signal_escalation demo_scanner "nginx" (Some "/berth") (10 * Second) {[ 7 := Second ]}
    [1; 7; 39; 40; 55] (12 * Second) demo_world tr demo_signals.1.1 demo_signals.1.2 demo_signals.2)
    as (sent & Hs & _).
  - reflexivity.
  - refine (bool_decide_unpack (NoDup [1; 7; 39; 40; 55]) _). vm_compute. exact I.
  - exact Htr.
  - exists sent. split; [exact Hs|]. vm_compute in Hs. symmetry. exact Hs.
Defined.
