(* ===== verification/Renewer.v ===== *)
(** * The sidecar

    [internal/acquire/renew.go] and [internal/acquire/acquire.go]: the loop that
    renews the lease and gates the main container, and the init container's
    wait for the first acquisition. The lease API, the clock, the enforcer and
    the shared volume answer as they please; a run records every call and its
    answer. *)

From S2P Require Import Prelude GoStrings Store Manager AcquireConfig.

(** What wakes the loop. *)
Inductive wake := EvDone | EvExpiry | EvTick.

Inductive sideE : Type → Type :=
| RNow : sideE Z
| RCtxErr : sideE bool
| RRenew (deadline : Z) (holder : string) (token : Z) : sideE (result AcquireResult)
| RAcquire (deadline : Z) (holder : string) : sideE (result AcquireResult)
| RRelease (holder : string) (token : Z) : sideE (result unit)
| RRpcErr : sideE bool
| RHold : sideE (result unit)
| ROpen : sideE (result unit)
| RReadHolder : sideE (result string)
| RReadToken : sideE (result Z)
| RPersist (holder : string) (token : Z) : sideE (result unit)
| RSelect (timer : option Z) : sideE wake.

Record Renewer := MkRenewer {
  r_holder : string;
  r_token : Z;
  r_held : bool;
  r_expiresAt : Z }.

Definition loadHandoff (cfg : Config) : prog sideE Renewer :=
  holder ← trigger RReadHolder;
  token ← trigger RReadToken;
  mret (match holder, token with
        | Ok h, Ok t =>
            if (h == Holder cfg) && (t >? 0) then MkRenewer h t true 0
            else MkRenewer (Holder cfg) 0 false 0
        | _, _ => MkRenewer (Holder cfg) 0 false 0
        end).

(** The deadline of a lease RPC: one heartbeat, or what is left of the
    confirmed lifetime. *)
Definition tickCtx (cfg : Config) (r : Renewer) : prog sideE Z :=
  now ← trigger RNow;
  let deadline := now + HeartbeatInterval cfg in
  mret (if r_held r && negb (IsZero (r_expiresAt r)) && Before (r_expiresAt r) deadline
        then r_expiresAt r else deadline).

Definition lose (r : Renewer) : prog sideE Renewer :=
  _ ← trigger RHold;
  mret (MkRenewer (r_holder r) (r_token r) false (r_expiresAt r)).

Definition tickHeld (cfg : Config) (r : Renewer) : prog sideE Renewer :=
  started ← trigger RNow;
  if negb (IsZero (r_expiresAt r)) && negb (Before started (r_expiresAt r)) then lose r
  else
    deadline ← tickCtx cfg r;
    res ← trigger (RRenew deadline (r_holder r) (r_token r));
    match res with
    | Err e =>
      if errors_Is e ErrConflict then lose r
      else
        now ← trigger RNow;
        if negb (Before now (r_expiresAt r)) then lose r else mret r
    | Ok res =>
      if negb (aAcquired res) then lose r
      else
        rpcDone ← trigger RRpcErr;
        if (rpcDone : bool) then lose r
        else
          now ← trigger RNow;
          if negb (Before now (started + cTTL cfg)) then lose r
          else
            late ← (if IsZero (r_expiresAt r) then mret false
                    else now' ← trigger RNow; mret (negb (Before now' (r_expiresAt r))));
            if (late : bool) then lose r
            else
              _ ← trigger ROpen;
              mret (MkRenewer (r_holder r) (aFencingToken res) (r_held r) (started + cTTL cfg))
    end.

Definition tickReacquire (cfg : Config) (r : Renewer) : prog sideE Renewer :=
  _ ← trigger RHold;
  deadline ← tickCtx cfg r;
  started ← trigger RNow;
  res ← trigger (RAcquire deadline (r_holder r));
  match res with
  | Err _ => mret r
  | Ok res =>
    if negb (aAcquired res) then mret r
    else
      rpcDone ← trigger RRpcErr;
      if (rpcDone : bool) then mret r
      else
        now ← trigger RNow;
        if negb (Before now (started + cTTL cfg)) then mret r
        else
          _ ← trigger (RPersist (r_holder r) (aFencingToken res));
          _ ← trigger ROpen;
          mret (MkRenewer (r_holder r) (aFencingToken res) true (started + cTTL cfg))
  end.

Definition shutdown (cfg : Config) (r : Renewer) : prog sideE unit :=
  if negb (default false (ReleaseOnShutdown cfg)) || negb (r_held r) then mret ()
  else _ ← trigger (RRelease (r_holder r) (r_token r)); mret ().

(** The select of the loop: the expiry timer is armed while a confirmed lease
    is held. *)
Definition arm (r : Renewer) : prog sideE (option Z) :=
  if r_held r && negb (IsZero (r_expiresAt r)) then
    now ← trigger RNow; mret (Some (Sub (r_expiresAt r) now))
  else mret None.

Definition handle (cfg : Config) (r : Renewer) (ev : wake) : prog sideE Renewer :=
  match ev with
  | EvDone => _ ← shutdown cfg r; mret r
  | EvExpiry => lose r
  | EvTick => if r_held r then tickHeld cfg r else tickReacquire cfg r
  end.

(** The loop of [Run] for at most [fuel] iterations: [None] when it is still
    running, [Some] when it shut down. *)
Fixpoint run_loop (fuel : nat) (cfg : Config) (r : Renewer) : prog sideE (option unit) :=
  match fuel with
  | O => mret None
  | S fuel =>
    timer ← arm r;
    ev ← trigger (RSelect timer);
    r' ← handle cfg r ev;
    match ev with
    | EvDone => mret (Some ())
    | _ => run_loop fuel cfg r'
    end
  end.

Definition Run (fuel : nat) (cfg : Config) : prog sideE (option (result unit)) :=
  r ← loadHandoff cfg;
  held ← trigger RHold;
  match held with
  | Err e => mret (Some (Err (ErrWrap "enforce before confirming lease handoff" e)))
  | Ok _ =>
    r' ← (if r_held r then
            done ← trigger RCtxErr;
            if (done : bool) then mret r else tickHeld cfg r
          else mret r);
    out ← run_loop fuel cfg r';
    mret (Ok <$> out)
  end.

(** ** The init container *)

Inductive holdE : Type → Type :=
| HAcquire (holder : string) : holdE (result AcquireResult)
| HWriteAcquired (holder : string) (token : Z) : holdE (result unit)
| HInstallCheck : holdE (result unit)
| HSleep (d : Z) : holdE bool
| HCtxErr : holdE error.

(** [Hold] for at most [fuel] attempts: [None] when it is still waiting. *)
Fixpoint Hold (fuel : nat) (cfg : Config) : prog holdE (option (result AcquireResult)) :=
  match fuel with
  | O => mret None
  | S fuel =>
    got ← trigger (HAcquire (Holder cfg));
    let again :=
      slept ← trigger (HSleep (retryInterval cfg));
      if (slept : bool) then Hold fuel cfg
      else e ← trigger HCtxErr; mret (Some (Err e)) in
    match got with
    | Err _ => again
    | Ok res =>
      if aAcquired res then
        w ← trigger (HWriteAcquired (Holder cfg) (aFencingToken res));
        match w with
        | Err e => mret (Some (Err (ErrWrap "persist lease state" e)))
        | Ok _ =>
          i ← trigger HInstallCheck;
          match i with
          | Err e => mret (Some (Err (ErrWrap "install check binary" e)))
          | Ok _ => mret (Some (Ok res))
          end
        end
      else again
    end
  end.

(** ** Traces *)

Inductive revent :=
| VNow (t : Z)
| VRpc (granted : bool)
| VRpcErr (b : bool)
| VHold
| VOpen
| VSelect (timer : option Z) (ev : wake)
| VOther.

(** What a run records of a call: an RPC by whether it was answered
    "acquired", an enforcement call by being made. *)
Definition ev_of {X} (e : sideE X) : X → revent :=
  match e with
  | RNow => VNow
  | RRenew _ _ _ => λ x, VRpc (match x with Ok res => aAcquired res | Err _ => false end)
  | RAcquire _ _ => λ x, VRpc (match x with Ok res => aAcquired res | Err _ => false end)
  | RRpcErr => VRpcErr
  | RHold => λ _, VHold
  | ROpen => λ _, VOpen
  | RSelect timer => VSelect timer
  | RCtxErr | RRelease _ _ | RReadHolder | RReadToken | RPersist _ _ => λ _, VOther
  end.

(** The last reading of the clock. *)
Fixpoint last_now (tr : list revent) : Z :=
  match tr with
  | [] => 0
  | VNow t :: tr => Z.max t (last_now tr)
  | _ :: tr => last_now tr
  end.

(** The environment: the clock is positive and never goes back, and the expiry
    case fires only when its timer is armed. *)
Definition side_step (X : Type) (tr : list revent) (e : sideE X) (x : X) (tr' : list revent) : Prop :=
  tr' = tr ++ [ev_of e x] ∧
  match ev_of e x with
  | VNow t => 0 < t ∧ last_now tr ≤ t
  | VSelect timer EvExpiry => is_Some timer
  | _ => True
  end.

Abbreviation rexec := (exec_rel side_step).

(** The gate: whether the last enforcement call let the container run. *)
Fixpoint gate_from (g : bool) (tr : list revent) : bool :=
  match tr with
  | [] => g
  | VHold :: tr => gate_from false tr
  | VOpen :: tr => gate_from true tr
  | _ :: tr => gate_from g tr
  end.

Abbreviation gate := (gate_from false).

Lemma gate_from_app g tr tr' : gate_from g (tr ++ tr') = gate_from (gate_from g tr) tr'.
Proof. revert g. induction tr as [|[] tr IH]; intros g; cbn; auto. Qed.

Lemma last_now_app tr tr' : last_now (tr ++ tr') = Z.max (last_now tr) (last_now tr').
Proof.
  induction tr as [|[] tr IH]; cbn; rewrite ?IH; try lia.
  all: assert (0 ≤ last_now tr') by (clear; induction tr' as [|[] tr' IH]; cbn; lia); lia.
Qed.

(** A lease confirmed by an RPC that started at or after [t0]: the clock read
    [t0] before the call, the call was answered "acquired" within its context,
    and the clock then read less than [t0 + ttl]. *)
Definition confirmed (ttl t0 : Z) (tr : list revent) : Prop :=
  ∃ pre mid post t1, tr = pre ++ VNow t0 :: mid ++ VRpc true :: post ∧
    Forall (λ v, ∃ t, v = VNow t) mid ∧ VRpcErr false ∈ post ∧ VNow t1 ∈ post ∧ t1 < t0 + ttl.

Lemma confirmed_app ttl t0 tr tr' : confirmed ttl t0 tr → confirmed ttl t0 (tr ++ tr').
Proof.
  intros (pre & mid & post & t1 & -> & Hmid & He & Hn & Ht).
  exists pre, mid, (post ++ tr'), t1. split_and!; [|done|set_solver..|done].
  rewrite <- app_assoc. cbn. by rewrite <- app_assoc.
Qed.

(** What must hold where the gate is opened, and where the loop waits with the
    gate open: the lease is confirmed, and the timer is set to end the wait at
    the deadline of the confirmed lease. *)
Definition ok_at (ttl : Z) (pre : list revent) (v : revent) : Prop :=
  match v with
  | VOpen => ∃ t0, confirmed ttl t0 pre
  | VSelect timer _ => gate pre = true →
      ∃ t0 pre' now, confirmed ttl t0 pre ∧ pre = pre' ++ [VNow now] ∧
        timer = Some (Sub (t0 + ttl) now)
  | _ => True
  end.

Definition ok_trace (ttl : Z) (tr : list revent) : Prop :=
  ∀ pre v post, tr = pre ++ v :: post → ok_at ttl pre v.

Lemma ok_trace_nil ttl : ok_trace ttl [].
Proof. intros [] v post; done. Qed.

Lemma ok_trace_snoc ttl tr v : ok_trace ttl tr → ok_at ttl tr v → ok_trace ttl (tr ++ [v]).
Proof.
  intros Htr Hv pre v' post E. destruct post as [|w post _] using rev_ind.
  - apply app_inj_tail in E as [-> ->]. done.
  - rewrite app_comm_cons, app_assoc in E. apply app_inj_tail in E as [-> ->].
    by apply (Htr pre v' post).
Qed.

(** The loop's invariant: the gate is open only while a confirmed lease is
    held, and then [expiresAt] is its deadline. *)
Definition rinv (ttl : Z) (r : Renewer) (tr : list revent) : Prop :=
  0 ≤ r_expiresAt r ∧
  (gate tr = true → r_held r = true ∧
     ∃ t0, 0 < t0 ∧ confirmed ttl t0 tr ∧ r_expiresAt r = t0 + ttl).

Definition good (ttl : Z) (r : Renewer) (tr : list revent) : Prop := ok_trace ttl tr ∧ rinv ttl r tr.

(** Events that change neither the gate nor what must hold. *)
Definition quiet (v : revent) : Prop :=
  match v with VHold | VOpen | VSelect _ _ => False | _ => True end.

Lemma good_quiet ttl r tr v : quiet v → good ttl r tr → good ttl r (tr ++ [v]).
Proof.
  intros Hv [Hok [H0 Hr]]. split; [apply ok_trace_snoc; [done|by destruct v]|]. split; [done|].
  rewrite gate_from_app. intros Hg. destruct Hr as (Hh & t0 & Hp & Hc & He); [by destruct v|].
  split; [done|]. exists t0. split_and!; [done|by apply confirmed_app|done].
Qed.

(** After closing the gate anything may be claimed of the lease. *)
Lemma good_hold ttl r r' tr :
  good ttl r tr → 0 ≤ r_expiresAt r' → good ttl r' (tr ++ [VHold]).
Proof.
  intros [Hok _] H0. split; [by apply ok_trace_snoc|]. split; [done|]. by rewrite gate_from_app.
Qed.

Lemma good_open ttl r r' tr t0 :
  good ttl r tr → confirmed ttl t0 tr → 0 < t0 → 0 ≤ r_expiresAt r' → r_held r' = true →
  r_expiresAt r' = t0 + ttl → good ttl r' (tr ++ [VOpen]).
Proof.
  intros [Hok _] Hc H0 H1 Hh He. split; [apply ok_trace_snoc; [done|by exists t0]|].
  split; [done|]. intros _. split; [done|]. exists t0. split_and!; [done|by apply confirmed_app|done].
Qed.

(** A closed gate lets the state change freely. *)
Lemma good_closed ttl r r' tr :
  good ttl r tr → gate tr = false → 0 ≤ r_expiresAt r' → good ttl r' tr.
Proof. intros [Hok _] Hg H0. split; [done|]. split; [done|]. by rewrite Hg. Qed.

#[export] Hint Resolve good_quiet : berth.

Lemma rexec_op {A X} (e : sideE X) (k : X → prog sideE A) tr l a tr' :
  rexec (trigger e ≫= k) tr l a tr' →
  ∃ x l', side_step X tr e x (tr ++ [ev_of e x]) ∧ rexec (k x) (tr ++ [ev_of e x]) l' a tr'.
Proof. intros (x & s1 & l' & [-> He] & -> & Hk). exists x, l'. by repeat split. Qed.

Lemma rexec_ret {A} (a a' : A) tr l tr' : rexec (mret a') tr l a tr' → a = a' ∧ tr' = tr.
Proof. by intros (-> & _ & ->). Qed.

Lemma good_lose ttl r r' tr l tr' :
  good ttl r tr → rexec (lose r) tr l r' tr' →
  good ttl r' tr' ∧ tr' = tr ++ [VHold] ∧ r_held r' = false.
Proof.
  intros Hg (x & l' & _ & Hrun)%rexec_op. apply rexec_ret in Hrun as [-> ->].
  split; [|done]. eapply good_hold; [done|]. by destruct Hg as [_ [? _]].
Qed.

Lemma rexec_tickCtx cfg r tr l d tr' :
  rexec (tickCtx cfg r) tr l d tr' → ∃ t, 0 < t ∧ last_now tr ≤ t ∧ tr' = tr ++ [VNow t].
Proof. intros (t & l' & [_ Ht] & Hrun)%rexec_op. apply rexec_ret in Hrun as [_ ->]. naive_solver. Qed.

(** What an iteration owes: the invariant again, and a closed gate if any of
    its clock readings reached the deadline it started with. *)
Definition tick_ok (ttl : Z) (r : Renewer) (tr : list revent) (r' : Renewer) (tr' : list revent) : Prop :=
  good ttl r' tr' ∧ ∃ body, tr' = tr ++ body ∧
    (r_held r = true → 0 < r_expiresAt r → (∃ t, VNow t ∈ body ∧ r_expiresAt r ≤ t) →
     r_held r' = false ∧ gate tr' = false).

Lemma tick_lose ttl r tr b l r' tr' :
  good ttl r (tr ++ b) → rexec (lose r) (tr ++ b) l r' tr' → tick_ok ttl r tr r' tr'.
Proof.
  intros Hg Hrun. destruct (good_lose _ _ _ _ _ _ Hg Hrun) as (Hg' & -> & Hh). split; [done|].
  exists (b ++ [VHold]). split; [by rewrite app_assoc|]. intros _ _ _. by rewrite gate_from_app.
Qed.

Lemma tick_open ttl r tr body started r' :
  good ttl r (tr ++ body) → confirmed ttl started (tr ++ body) → 0 < started → 0 < ttl →
  r_held r' = true → r_expiresAt r' = started + ttl →
  (0 < r_expiresAt r → ∀ t, VNow t ∈ body → t < r_expiresAt r) →
  tick_ok ttl r tr r' (tr ++ (body ++ [VOpen])).
Proof.
  intros Hg Hc Hs Httl Hh He Hb. rewrite app_assoc. split; [eapply good_open; eauto; lia|].
  exists (body ++ [VOpen]). split; [by rewrite app_assoc|]. intros _ Hp (t & Ht & Hle).
  apply elem_of_app in Ht as [Ht|Ht]; [|by apply list_elem_of_singleton in Ht].
  specialize (Hb Hp t Ht). lia.
Qed.

Lemma tick_ok_quiet ttl r tr body :
  good ttl r (tr ++ body) → (0 < r_expiresAt r → ∀ t, VNow t ∈ body → t < r_expiresAt r) →
  tick_ok ttl r tr r (tr ++ body).
Proof.
  intros Hg Hb. split; [done|]. exists body. split; [done|]. intros _ Hp (t & Ht%Hb & ?); [lia|done].
Qed.

(** One quiet call: the invariant carries over to the longer trace. *)
Lemma tick_step {A X} ttl r tr b (e : sideE X) (k : X → prog sideE A) l a tr' :
  (∀ x, quiet (ev_of e x)) → good ttl r (tr ++ b) → rexec (trigger e ≫= k) (tr ++ b) l a tr' →
  ∃ x l', match ev_of e x with VNow t => 0 < t ∧ Z.max (last_now tr) (last_now b) ≤ t | _ => True end ∧
    good ttl r (tr ++ (b ++ [ev_of e x])) ∧ rexec (k x) (tr ++ (b ++ [ev_of e x])) l' a tr'.
Proof.
  intros Hq Hg (x & l' & [_ He] & Hrun)%rexec_op. exists x, l'. rewrite app_assoc.
  split_and!; [|by apply good_quiet|done]. rewrite <- last_now_app. by destruct (ev_of e x).
Qed.

Ltac tstep Hg Hrun x Hx :=
  let l := fresh "l" in let Hg' := fresh "Hg'" in
  eapply tick_step in Hrun as (x & l & Hx & Hg' & Hrun); [|done|exact Hg];
  clear Hg; rename Hg' into Hg; cbn [ev_of app last_now] in Hx, Hg, Hrun.

(** Reads of a list of events, compared one by one. *)
Ltac reads_lt :=
  let t := fresh "t" in let Ht := fresh "Ht" in
  intros ? t Ht; repeat (apply elem_of_cons in Ht as [Ht|Ht]; [by simplify_eq; try lia|]);
  by apply elem_of_nil in Ht.

Lemma confirmed_intro ttl tr started mid post now :
  Forall (λ v, ∃ t, v = VNow t) mid → VRpcErr false ∈ post → VNow now ∈ post → now < started + ttl →
  confirmed ttl started (tr ++ VNow started :: mid ++ VRpc true :: post).
Proof. intros. by exists tr, mid, post, now. Qed.

Lemma tickHeld_ok cfg r tr l r' tr' :
  0 < cTTL cfg → r_held r = true → good (cTTL cfg) r tr →
  rexec (tickHeld cfg r) tr l r' tr' → tick_ok (cTTL cfg) r tr r' tr'.
Proof.
  intros Httl Hheld Hg Hrun. unfold tickHeld in Hrun.
  rewrite <- (app_nil_r tr) in Hg. rewrite <- (app_nil_r tr) in Hrun at 1.
  tstep Hg Hrun started Hs. destruct (_ && _) eqn:E1 in Hrun; [by eapply tick_lose|].
  unfold tickCtx in Hrun. rewrite prog_bind_assoc in Hrun. tstep Hg Hrun t2 Ht2. rewrite prog_bind_ret in Hrun.
  tstep Hg Hrun res Hres. destruct res as [res|e].
  2:{ destruct (errors_Is e ErrConflict); [by eapply tick_lose|]. tstep Hg Hrun now Hnow.
      unfold Before in Hrun. destruct (Z.ltb_spec now (r_expiresAt r)); cbn [negb] in Hrun;
        [|by eapply tick_lose].
      apply rexec_ret in Hrun as [-> ->]. apply tick_ok_quiet; [done|]. reads_lt. }
  destruct (aAcquired res) eqn:Hacq; cbn [negb] in Hrun; [|by eapply tick_lose].
  tstep Hg Hrun b Hb. destruct b; [by eapply tick_lose|]. tstep Hg Hrun now Hnow.
  unfold Before in E1, Hrun. destruct (Z.ltb_spec now (started + cTTL cfg)); cbn [negb] in Hrun;
    [|by eapply tick_lose].
  unfold IsZero in E1, Hrun. destruct (Z.eqb_spec (r_expiresAt r) 0) as [Hz|Hnz].
  - rewrite prog_bind_ret in Hrun. apply rexec_op in Hrun as (x & l' & _ & Hrun).
    apply rexec_ret in Hrun as [-> ->]. rewrite <- app_assoc. apply (tick_open _ r tr _ started); [done| |lia|done|done|done|lia].
    apply (confirmed_intro _ tr started [VNow t2] [VRpcErr false; VNow now] now);
      [eauto|set_solver..|done].
  - rewrite prog_bind_assoc in Hrun. tstep Hg Hrun now' Hnow'. rewrite prog_bind_ret in Hrun.
    destruct (Z.ltb_spec now' (r_expiresAt r)); cbn [negb] in Hrun; [|by eapply tick_lose].
    apply rexec_op in Hrun as (x & l' & _ & Hrun).
    apply rexec_ret in Hrun as [-> ->]. rewrite <- app_assoc. apply (tick_open _ r tr _ started); [done| |lia|done|done|done|reads_lt].
    apply (confirmed_intro _ tr started [VNow t2] [VRpcErr false; VNow now; VNow now'] now);
      [eauto|set_solver..|done].
Qed.

(** While no lease is held only the invariant is owed. *)
Lemma tick_unheld ttl r tr r' body :
  r_held r = false → good ttl r' (tr ++ body) → tick_ok ttl r tr r' (tr ++ body).
Proof. intros Hh Hg. split; [done|]. exists body. split; [done|]. congruence. Qed.

Lemma tickReacquire_ok cfg r tr l r' tr' :
  0 < cTTL cfg → r_held r = false → good (cTTL cfg) r tr →
  rexec (tickReacquire cfg r) tr l r' tr' → tick_ok (cTTL cfg) r tr r' tr'.
Proof.
  intros Httl Hheld Hg Hrun. unfold tickReacquire in Hrun.
  apply rexec_op in Hrun as (x & l1 & _ & Hrun).
  assert (good (cTTL cfg) r (tr ++ [VHold])) as Hg1.
  { eapply good_hold; [done|]. by destruct Hg as [_ [? _]]. }
  clear Hg. rename Hg1 into Hg. cbn [ev_of] in Hrun.
  unfold tickCtx in Hrun. rewrite prog_bind_assoc in Hrun. tstep Hg Hrun t1 Ht1. rewrite prog_bind_ret in Hrun.
  tstep Hg Hrun started Hs. tstep Hg Hrun res Hres.
  destruct res as [res|e]; [|apply rexec_ret in Hrun as [-> ->]; by apply tick_unheld].
  destruct (aAcquired res) eqn:Hacq; cbn [negb] in Hrun;
    [|apply rexec_ret in Hrun as [-> ->]; by apply tick_unheld].
  tstep Hg Hrun b Hb. destruct b; [apply rexec_ret in Hrun as [-> ->]; by apply tick_unheld|].
  tstep Hg Hrun now Hnow. unfold Before in Hrun.
  destruct (Z.ltb_spec now (started + cTTL cfg)); cbn [negb] in Hrun;
    [|apply rexec_ret in Hrun as [-> ->]; by apply tick_unheld].
  tstep Hg Hrun w Hw. apply rexec_op in Hrun as (y & ly & _ & Hrun). apply rexec_ret in Hrun as [-> ->].
  rewrite <- app_assoc. apply tick_unheld; [done|]. rewrite app_assoc.
  apply (good_open _ r _ _ started); [done| |lia|cbn; lia|done|done].
  pose proof (confirmed_intro (cTTL cfg) (tr ++ [VHold; VNow t1]) started [] [VRpcErr false; VNow now; VOther] now)
    as Hc. rewrite <- app_assoc in Hc. apply Hc; [done|set_solver..|done].
Qed.

Lemma handle_ok cfg r ev tr l r' tr' :
  0 < cTTL cfg → good (cTTL cfg) r tr → rexec (handle cfg r ev) tr l r' tr' →
  good (cTTL cfg) r' tr' ∧
  (ev ≠ EvDone → tick_ok (cTTL cfg) r tr r' tr').
Proof.
  intros Httl Hg Hrun. destruct ev; cbn [handle] in Hrun.
  - split; [|done]. apply exec_rel_bind in Hrun as (l1 & [] & tr1 & l2 & _ & Hsd & Hrun).
    apply rexec_ret in Hrun as [-> ->]. unfold shutdown in Hsd. destruct (_ || _).
    + by apply rexec_ret in Hsd as [_ ->].
    + apply rexec_op in Hsd as (x & l' & _ & Hsd). apply rexec_ret in Hsd as [_ ->]. by apply good_quiet.
  - rewrite <- (app_nil_r tr) in Hg. rewrite <- (app_nil_r tr) in Hrun.
    pose proof (tick_lose _ _ _ _ _ _ _ Hg Hrun) as Ht. split; [apply Ht|done].
  - destruct (r_held r) eqn:Hh.
    + pose proof (tickHeld_ok _ _ _ _ _ _ Httl Hh Hg Hrun) as Ht. split; [apply Ht|done].
    + pose proof (tickReacquire_ok _ _ _ _ _ _ Httl Hh Hg Hrun) as Ht. split; [apply Ht|done].
Qed.

(** Waiting: the timer is armed exactly as the gate requires. *)
Lemma select_ok {A} cfg r (k : wake → prog sideE A) tr l a tr' :
  0 < cTTL cfg → good (cTTL cfg) r tr →
  rexec (arm r ≫= λ timer, trigger (RSelect timer) ≫= k) tr l a tr' →
  ∃ ev l' tr1, good (cTTL cfg) r tr1 ∧ rexec (k ev) tr1 l' a tr'.
Proof.
  intros Httl Hg Hrun.
  apply exec_rel_bind in Hrun as (l1 & timer & tr1 & l2 & _ & Harm & Hrun).
  apply rexec_op in Hrun as (ev' & l3 & _ & Hrun). exists ev', l3. eexists. split; [|exact Hrun].
  assert (good (cTTL cfg) r tr1 ∧ ok_at (cTTL cfg) tr1 (VSelect timer ev')) as [[Hok [H0 Hr]] Hat].
  { unfold arm, IsZero in Harm. destruct (r_held r && _) eqn:E.
    - apply rexec_op in Harm as (now & l4 & _ & Harm). apply rexec_ret in Harm as [-> ->].
      assert (good (cTTL cfg) r (tr ++ [VNow now])) as Hg1 by by apply good_quiet.
      split; [done|]. intros Hgate. destruct Hg1 as [_ [_ Hr]].
      destruct (Hr Hgate) as (_ & t0 & _ & Hc & He). exists t0, tr, now. rewrite <- He. eauto.
    - apply rexec_ret in Harm as [_ ->]. split; [done|]. intros Hgate. destruct Hg as [_ [_ Hr]].
      destruct (Hr Hgate) as (Hh & t0 & Ht0 & _ & He). rewrite Hh, He in E. cbn in E. lia. }
  split; [by apply ok_trace_snoc|]. split; [done|]. rewrite gate_from_app. intros Hg'.
  destruct (Hr Hg') as (Hh & t0 & ? & Hc & ?). split; [done|]. exists t0.
  split_and!; [done|by apply confirmed_app|done].
Qed.

Lemma run_loop_ok fuel cfg r tr l out tr' :
  0 < cTTL cfg → good (cTTL cfg) r tr → rexec (run_loop fuel cfg r) tr l out tr' →
  ok_trace (cTTL cfg) tr'.
Proof.
  intros Httl. revert r tr l. induction fuel as [|fuel IH]; intros r tr l Hg Hrun; cbn [run_loop] in Hrun.
  - apply rexec_ret in Hrun as [_ ->]. apply Hg.
  - apply (select_ok cfg) in Hrun as (ev & l' & tr1 & Hg1 & Hrun); [|done..].
    apply exec_rel_bind in Hrun as (l1 & r' & tr2 & l2 & _ & Hh & Hrun).
    destruct (handle_ok _ _ _ _ _ _ _ Httl Hg1 Hh) as [Hg2 _].
    destruct ev; [apply rexec_ret in Hrun as [_ ->]; apply Hg2|by eapply IH..].
Qed.

Lemma loadHandoff_ok cfg l r tr :
  rexec (loadHandoff cfg) [] l r tr → r_expiresAt r = 0 ∧ tr = [VOther; VOther].
Proof.
  intros (h & l1 & _ & Hrun)%rexec_op. apply rexec_op in Hrun as (t & l2 & _ & Hrun).
  apply rexec_ret in Hrun as [-> ->]. split; [|done]. destruct h as [h|], t as [t|]; try done. by destruct (_ && _).
Qed.

Lemma Run_ok fuel cfg l out tr :
  0 < cTTL cfg → rexec (Run fuel cfg) [] l out tr → ok_trace (cTTL cfg) tr.
Proof.
  intros Httl Hrun. apply exec_rel_bind in Hrun as (l1 & r & tr1 & l2 & _ & Hl & Hrun).
  apply loadHandoff_ok in Hl as [H0 ->].
  apply rexec_op in Hrun as (held & l3 & _ & Hrun). cbn [ev_of app] in Hrun.
  assert (good (cTTL cfg) r [VOther; VOther; VHold]) as Hg.
  { split; [|split; [lia|done]].
    change (ok_trace (cTTL cfg) ((([] ++ [VOther]) ++ [VOther]) ++ [VHold])).
    do 3 (apply ok_trace_snoc; [|done]). apply ok_trace_nil. }
  destruct held as [[]|e]; [|apply rexec_ret in Hrun as [_ ->]; apply Hg].
  apply exec_rel_bind in Hrun as (l4 & r' & tr2 & l5 & _ & Ht & Hrun).
  assert (good (cTTL cfg) r' tr2) as Hg'.
  { destruct (r_held r) eqn:Hh; [|by apply rexec_ret in Ht as [-> ->]].
    apply rexec_op in Ht as (done & l6 & _ & Ht). apply (good_quiet _ _ _ VOther) in Hg; [|done].
    destruct done; [by apply rexec_ret in Ht as [-> ->]|]. by eapply tickHeld_ok. }
  apply exec_rel_bind in Hrun as (l7 & o & tr3 & l8 & _ & Hloop & Hrun).
  apply rexec_ret in Hrun as [_ ->]. by eapply run_loop_ok.
Qed.

(** ** A concrete environment *)

(** Every call answers at once and well, each clock reading is a second after
    the last one, and the loop is woken by its ticker. *)
Definition side_fine (cfg : Config) (X : Type) (e : sideE X) (tr : list revent) : X * list revent :=
  let ans : X :=
    match e in sideE X return X with
    | RNow => last_now tr + Second
    | RCtxErr => false
    | RRenew _ h t => Ok (MkAcquireResult true h t 0 0)
    | RAcquire _ h => Ok (MkAcquireResult true h 1 0 0)
    | RRelease _ _ => Ok ()
    | RRpcErr => false
    | RHold => Ok ()
    | ROpen => Ok ()
    | RReadHolder => Ok (Holder cfg)
    | RReadToken => Ok 7
    | RPersist _ _ => Ok ()
    | RSelect _ => EvTick
    end in (ans, tr ++ [ev_of e ans]).

Lemma last_now_nonneg tr : 0 ≤ last_now tr.
Proof. induction tr as [|[] tr IH]; cbn; lia. Qed.

Lemma side_fine_run {A} cfg (p : prog sideE A) tr :
  ∃ l, rexec p tr l (run (side_fine cfg) p tr).1 (run (side_fine cfg) p tr).2.
Proof.
  apply run_exec_rel. intros X e tr0. split; [done|]. destruct e; cbn; try done.
  pose proof (last_now_nonneg tr0). unfold Second. lia.
Qed.

Definition side_cfg : Config := ApplyDefaults (demo_config (30 * Second) "3f1c").
Definition side_demo : list revent := (run (side_fine side_cfg) (Run 2 side_cfg) []).2.

(** ** The theorems *)




Definition late_start : Renewer := MkRenewer "east" 7 true 1.
Definition late_demo : Renewer * list revent := run (side_fine side_cfg) (handle side_cfg late_start EvTick) [].


(** An environment for the init container: the API answers from a script, the
    volume works, and no wait is cut short. The state is the number of calls
    made and what was persisted. *)
Definition hold_env (answers : nat → result AcquireResult) (X : Type) (e : holdE X)
    (s : nat * option (string * Z)) : X * (nat * option (string * Z)) :=
  match e with
  | HAcquire _ => (answers s.1, (S s.1, s.2))
  | HWriteAcquired h t => (Ok (), (s.1, Some (h, t)))
  | HInstallCheck => (Ok (), s)
  | HSleep _ => (true, s)
  | HCtxErr => (ErrCtx, s)
  end.

Definition granted (r : result AcquireResult) : bool :=
  match r with Ok res => aAcquired res | Err _ => false end.

Lemma Hold_from answers cfg res n k p fuel :
  (∀ i, k ≤ i < n → granted (answers i) = false)%nat → (k ≤ n)%nat →
  answers n = Ok res → aAcquired res = true → (n - k < fuel)%nat →
  run (hold_env answers) (Hold fuel cfg) (k, p) =
    (Some (Ok res), (S n, Some (Holder cfg, aFencingToken res))).
Proof.
  revert k. induction fuel as [|fuel IH]; intros k Hno Hk Hn Hacq Hf; [lia|].
  cbn [Hold]. destruct (decide (k = n)) as [->|Hne].
  - cbn. rewrite Hn, Hacq. done.
  - assert (granted (answers k) = false) as Hg by (apply Hno; lia).
    cbn. unfold granted in Hg. destruct (answers k) as [r|e]; [rewrite Hg|];
      cbn; apply IH; try done; try lia; intros; apply Hno; lia.
Qed.

(** C18: the init container's wait ends with the first grant. However many
    attempts fail or find the lease held, [Hold] returns the first "acquired"
    answer, has then persisted exactly its holder and fencing token, and made
    no call beyond it; any fuel above the number of attempts is enough. *)
Theorem Hold_first_grant answers cfg res n fuel :
  (∀ i, i < n → granted (answers i) = false)%nat →
  answers n = Ok res → aAcquired res = true → (n < fuel)%nat →
  run (hold_env answers) (Hold fuel cfg) (0%nat, None) =
    (Some (Ok res), (S n, Some (Holder cfg, aFencingToken res))).
Proof. intros Hno Hn Hacq Hf. apply Hold_from; try done; try lia. intros i Hi. apply Hno. lia. Qed.

Definition hold_script (i : nat) : result AcquireResult :=
  match i with
  | 0%nat => Err (ErrMsg "connection refused")
  | 1%nat => Ok (MkAcquireResult false "west" 4 0 0)
  | _ => Ok (MkAcquireResult true "east" 5 0 0)
  end.

Lemma Hold_first_grant_witness :
  run (hold_env hold_script) (Hold 3 side_cfg) (0%nat, None) =
    (Some (Ok (MkAcquireResult true "east" 5 0 0)), (3%nat, Some (Holder side_cfg, 5))).
Proof.
  apply (Hold_first_grant hold_script side_cfg (MkAcquireResult true "east" 5 0 0) 2 3);
    [|reflexivity|reflexivity|lia].
  intros i Hi. destruct i as [|[|i]]; [reflexivity|reflexivity|lia].
Defined.
