(* ===== verification/Exclusion.v ===== *)
(** * At most one running container

    The sidecars of [Renewer] and the concurrent API servers of [Coordination]
    put together in real time. A sidecar's clock need not agree with the
    servers': only the time that elapses on it is compared with real time.
    What is shown is how long a container may still run after its lease has
    been claimed by another holder. *)

From S2P Require Import Prelude GoStrings Store MemStore Manager TTL RFC1123 Coordination Fencing AcquireConfig Renewer.

(** ** How long a record protects its holder *)

(** Storing a record whose TTL is [ttl] moves its expiry back by at most
    [loss]. *)
Class NormExpiry (norm : LeaseRecord → LeaseRecord) (ttl loss : Z) : Prop :=
  norm_expiry r : rTTL r = ttl → rHolder r ≠ "" → ExpiresAt r - loss ≤ ExpiresAt (norm r).

#[export] Instance norm_expiry_id ttl : NormExpiry id ttl 0.
Proof. intros r _ _. cbn. lia. Qed.

(** Requests that do not cut short a lease of [h] with TTL [ttl]: the holder
    itself asks for that TTL and does not release, and sweeps have a grace. *)
Definition keeps (h : string) (ttl : Z) (o : op) : Prop :=
  match o with
  | OAcquire _ h' ttl' | ORenew _ h' _ ttl' => h' = h → ttl' = ttl
  | ORelease _ h' _ => h' ≠ h
  | OSweep e => 0 ≤ gcGrace e
  end.

Section chain.
Context (norm : LeaseRecord → LeaseRecord) `{!NormOK norm} (skew ttl loss : Z).
Context `{!NormExpiry norm ttl loss}.
Context (h : string) (tok from : Z).

(** A write that leaves the lease with [h] under the token [tok], renewed no
    earlier than [from] in real time. *)
Record protects (w : wev) : Prop := {
  pr_holder : rHolder (w_stored w) = h;
  pr_token : rFencingToken (w_stored w) = tok;
  pr_ttl : rTTL (w_issued w) = ttl;
  pr_renewed : from - skew ≤ rRenewedAt (w_issued w);
  pr_clock : from ≤ w_clock w }.

Lemma protects_expiry log i w :
  h ≠ "" → wev_ok norm skew log i w → protects w → from - skew + ttl - loss ≤ ExpiresAt (w_stored w).
Proof.
  intros Hh Hw [Eh _ Httl Hr _]. rewrite (wo_stored _ _ _ _ _ Hw).
  destruct (stored_as_issued _ _ _ _ _ Hw) as (_ & Eh' & _).
  pose proof (norm_expiry (w_issued w) Httl) as He. rewrite <- Eh', Eh in He. specialize (He Hh).
  unfold ExpiresAt, set_version in *. cbn. lia.
Qed.

(** The next write keeps the lease, or comes after its expiry. *)
Lemma protects_step log j c b :
  h ≠ "" → log_ok norm skew log → log !! j = Some c → log !! S j = Some b →
  keeps h ttl (w_op b) → protects c → protects b ∨ from + ttl - loss ≤ w_clock b + 2 * skew.
Proof.
  intros Hh Hlog Hc Hb Hk Hp. pose proof (log_adjacent _ _ _ _ _ _ Hlog Hc Hb) as Ht.
  pose proof (protects_expiry _ _ _ Hh (Hlog _ _ Hc) Hp) as He.
  pose proof (Hlog _ _ Hb) as Hok. destruct (stored_as_issued _ _ _ _ _ Hok) as (Et & Eh & _).
  destruct (wo_fresh _ _ _ _ _ Hok j c eq_refl Hc) as [Hf1 Hf2].
  pose proof (wo_clock _ _ _ _ _ Hok) as Hclk. destruct Hp as [Ph Pt Pl Pr Pc].
  inversion Ht as [|p r Ho ? ? ? ? ?|p r ? ? ? [Htomb|Hexp]|p r Ho|e p r Ho ? Hg]; subst p r.
  - left. split; try congruence; try lia.
    assert (rHolder (w_issued b) = h) as Hbh by congruence.
    destruct Ho as [Ho|Ho]; rewrite Ho in Hk; cbn in Hk; auto.
  - unfold Tombstone in Htomb. rewrite Ph in Htomb. by bool_simp.
  - right. unfold Expired, After in Hexp. lia.
  - rewrite Ho in Hk. cbn in Hk. congruence.
  - right. rewrite Ho in Hk. cbn in Hk. lia.
Qed.

Lemma protects_until log i j a b :
  h ≠ "" → log_ok norm skew log → (∀ w, w ∈ log → keeps h ttl (w_op w)) →
  log !! i = Some a → protects a → (i ≤ j)%nat → log !! j = Some b →
  protects b ∨ from + ttl - loss ≤ w_clock b + 2 * skew.
Proof.
  intros Hh Hlog Hk Ha Hp Hij. revert b. induction Hij as [|j Hij IH]; intros b Hb.
  - left. by simplify_eq.
  - destruct (log_prev_lookup _ _ _ Hb) as [c Hc]. destruct (IH _ Hc) as [Hpc|Hlate].
    + apply (protects_step log j c b); try done. apply Hk. by apply list_elem_of_lookup_2 in Hb.
    + right. destruct (wo_fresh _ _ _ _ _ (Hlog _ _ Hb) j c eq_refl Hc). lia.
Qed.

(** A larger token appears only when the lease has run out. *)
Lemma protects_token log a b :
  h ≠ "" → log_ok norm skew log → (∀ w, w ∈ log → keeps h ttl (w_op w)) →
  a ∈ log → protects a → b ∈ log → tok < rFencingToken (w_stored b) →
  from + ttl - loss ≤ w_clock b + 2 * skew.
Proof.
  intros Hh Hlog Hk [i Ha]%list_elem_of_lookup Hp [j Hb]%list_elem_of_lookup Htok.
  destruct (Nat.le_ge_cases i j) as [Hij|Hji].
  - destruct (protects_until _ _ _ _ _ Hh Hlog Hk Ha Hp Hij Hb) as [Hpb|]; [|done].
    pose proof (pr_token _ Hpb). lia.
  - pose proof (log_tokens _ _ _ _ _ _ _ Hlog Hji Hb Ha). pose proof (pr_token _ Hp). lia.
Qed.
End chain.

(** ** The sidecar in time *)

(** What has been observed of a sidecar, in readings of its own clock. *)
Record monitor := MkMonitor {
  mo_t : Z;                      (** when its present call was entered *)
  mo_now : Z;                    (** its last reading of the clock *)
  mo_grant : option (Z * Z);     (** the last lease answer, if "acquired": the
                                     reading before the request, the token *)
  mo_open : option (Z * Z);      (** the grant the gate was last opened under *)
  mo_exempt : bool }.            (** it was told to stop, or could not enforce *)

Definition observe {X} (g : monitor) (e : sideE X) (t : Z) : X → monitor :=
  let grant (x : result AcquireResult) :=
    MkMonitor t (mo_now g)
      (match x with
       | Ok res => if aAcquired res then Some (mo_now g, aFencingToken res) else None
       | Err _ => None
       end) (mo_open g) (mo_exempt g) in
  match e with
  | RNow => λ _, MkMonitor t t (mo_grant g) (mo_open g) (mo_exempt g)
  | RRenew _ _ _ => grant
  | RAcquire _ _ => grant
  | RHold => λ x,
      match x with
      | Ok _ => MkMonitor t (mo_now g) (mo_grant g) None (mo_exempt g)
      | Err _ => MkMonitor t (mo_now g) (mo_grant g) (mo_open g) true
      end
  | ROpen => λ _, MkMonitor t (mo_now g) (mo_grant g) (mo_grant g) (mo_exempt g)
  | RSelect _ => λ ev,
      MkMonitor t (mo_now g) (mo_grant g) (mo_open g)
        (match ev with EvDone => true | _ => mo_exempt g end)
  | RCtxErr | RRelease _ _ | RRpcErr | RReadHolder | RReadToken | RPersist _ _ =>
      λ _, MkMonitor t (mo_now g) (mo_grant g) (mo_open g) (mo_exempt g)
  end.

(** When a call entered at [t] has been answered at the latest: a lease RPC
    ends at its deadline, the wait ends when its timer fires, everything else
    is local; [react] is the delay of each. *)
Definition due {X} (react : Z) (e : sideE X) (t : Z) : option Z :=
  match e with
  | RRenew deadline _ _ | RAcquire deadline _ => Some (Z.max t deadline + react)
  | RSelect (Some d) => Some (t + Z.max 0 d + react)
  | RSelect None | RRelease _ _ => None
  | _ => Some (t + react)
  end.

(** The answers of the clock and of the wait. *)
Definition side_answer {X} (e : sideE X) (t : Z) : X → Prop :=
  match e with
  | RNow => λ x, x = t
  | RSelect timer => λ ev, ev = EvExpiry → is_Some timer
  | _ => λ _, True
  end.

Section timed.
Context (react ttl : Z) (h : string).

(** The longest the gate stays open past the reading before the grant. *)
Definition within (g : monitor) (d : option Z) : Prop :=
  ∀ o, mo_open g = Some o → ∃ d', d = Some d' ∧ d' ≤ o.1 + ttl + 6 * react.

Definition call_ok {X} (g : monitor) (e : sideE X) : Prop :=
  match e with
  | RRenew _ h' _ | RAcquire _ h' => h' = h
  | _ => True
  end.

(** A program keeps its promise from here on: whatever is answered and
    whenever, an open gate is closed in time. *)
Fixpoint timely {A} (Q : monitor → A → Prop) (g : monitor) (p : prog sideE A) : Prop :=
  mo_exempt g = true ∨
  match p with
  | Ret a => Q g a
  | Op e k =>
      call_ok g e ∧ within g (due react e (mo_t g)) ∧
      ∀ x t, mo_t g ≤ t → (∀ d, due react e (mo_t g) = Some d → t ≤ d) → side_answer e t x →
        timely Q (observe g e t x) (k x)
  end.

Lemma timely_exempt {A} Q g (p : prog sideE A) : mo_exempt g = true → timely Q g p.
Proof. destruct p; by left. Qed.

Lemma timely_ret {A} (Q : monitor → A → Prop) g a : Q g a → timely Q g (mret a).
Proof. by right. Qed.

Lemma timely_mono {A} (Q Q' : monitor → A → Prop) g p :
  (∀ g a, Q g a → Q' g a) → timely Q g p → timely Q' g p.
Proof.
  intros HQ. revert g. induction p as [a|X e k IH]; intros g; cbn; [naive_solver|].
  intros [?|(? & ? & Hk)]; [by left|]. right. split_and!; [done..|]. intros. apply IH, Hk; auto.
Qed.

Lemma timely_bind {A B} (Q : monitor → B → Prop) (p : prog sideE A) (f : A → prog sideE B) g :
  timely (λ g a, timely Q g (f a)) g p → timely Q g (p ≫= f).
Proof.
  revert g. induction p as [a|X e k IH]; intros g; cbn.
  - intros [?|?]; [by apply timely_exempt|done].
  - intros [?|(? & ? & Hk)]; [by left|]. right. split_and!; [done..|]. intros. apply IH, Hk; auto.
Qed.

Lemma timely_op {A X} (Q : monitor → A → Prop) (e : sideE X) (k : X → prog sideE A) g :
  call_ok g e → within g (due react e (mo_t g)) →
  (∀ x t, mo_t g ≤ t → (∀ d, due react e (mo_t g) = Some d → t ≤ d) → side_answer e t x →
     timely Q (observe g e t x) (k x)) →
  timely Q g (trigger e ≫= k).
Proof. by right. Qed.
End timed.

(** ** The sidecar keeps its promise *)

#[export] Instance wake_eq_dec : EqDecision wake.
Proof. solve_decision. Defined.

Section loop.
Context (react : Z) (cfg : Config) (Hreact : 0 ≤ react) (Httl : 0 < cTTL cfg).

Abbreviation timely' := (timely react (cTTL cfg) (Holder cfg)).

(** Between the calls of the loop: an open gate belongs to the lease held, and
    no more than [n] delays have passed since its deadline. *)
Definition ready (n : Z) (r : Renewer) (g : monitor) : Prop :=
  r_holder r = Holder cfg ∧ 0 < mo_t g ∧ 0 ≤ r_expiresAt r ∧
  ∀ o, mo_open g = Some o →
    r_held r = true ∧ 0 < r_expiresAt r ≤ o.1 + cTTL cfg ∧ mo_t g ≤ r_expiresAt r + n * react.

(** One call of a program: nothing to ask of it, in time, and its answer. *)
Ltac in_time Hop :=
  let o := fresh "o" in let Ho := fresh "Ho" in
  cbn [due mo_t mo_open]; intros o Ho; cbn [mo_open] in Ho;
  first [discriminate Ho | destruct (Hop o Ho) as (? & ? & ?); eexists; split; [reflexivity|lia]].

Ltac call Hop x t :=
  let Hd := fresh "Hd" in let Ha := fresh "Ha" in let Ht := fresh "Ht" in
  apply timely_op; [by cbn|in_time Hop|]; intros x t Ht Hd Ha; cbn [due mo_t side_answer] in Ht, Hd, Ha;
  try specialize (Hd _ eq_refl); cbn [observe mo_t mo_now mo_grant mo_open mo_exempt] in *.

Lemma timely_lose n r g (Q : monitor → Renewer → Prop) :
  ready n r g → n ≤ 5 → (∀ g r', ready 2 r' g → Q g r') → timely' Q g (lose r).
Proof.
  intros (Hh & Hp & He & Hop) Hn HQ. destruct g as [t0 now gr op ex]. cbn [mo_t mo_open] in *.
  unfold lose. apply timely_op; [done| |].
  { intros o Ho. destruct (Hop o Ho) as (? & ? & ?). eexists. split; [reflexivity|]. cbn. nia. }
  intros [[]|e] t Ht Hd Ha; cbn [observe]; [|by apply timely_exempt].
  apply timely_ret, HQ. by split_and!; cbn in *; [done|lia|done|].
Qed.

(** What the deadline of an RPC is worth to an open gate. *)
Lemma tickCtx_due r now : r_held r = true → 0 < r_expiresAt r →
  (if r_held r && negb (IsZero (r_expiresAt r)) && Before (r_expiresAt r) (now + HeartbeatInterval cfg)
   then r_expiresAt r else now + HeartbeatInterval cfg) ≤ r_expiresAt r.
Proof.
  intros -> Hp. unfold IsZero, Before. rewrite (proj2 (Z.eqb_neq _ _)) by lia. cbn [andb negb].
  destruct (Z.ltb_spec (r_expiresAt r) (now + HeartbeatInterval cfg)); lia.
Qed.

Lemma ready_opened r started t2 t now tok ex n :
  r_holder r = Holder cfg → 0 < started ≤ t2 → 0 < t → t ≤ started + cTTL cfg + n * react →
  r_held r = true → r_expiresAt r = started + cTTL cfg →
  ready n r (MkMonitor t now (Some (t2, tok)) (Some (t2, tok)) ex).
Proof.
  intros Hh Hs Ht Hn Hheld He. split_and!; cbn; [done|lia|lia|].
  intros o [= <-]. cbn. rewrite Hheld, He. split_and!; [done|lia|lia|lia].
Qed.

(** Losing the lease [n] delays after its deadline. *)
Ltac abandon Hrdy Hfact n :=
  let Hno := fresh "Hno" in
  apply (timely_lose n); [|lia|done]; apply Hrdy; [lia|]; intros Hno; specialize (Hfact Hno); lia.

Lemma timely_tickHeld r g (Q : monitor → Renewer → Prop) :
  ready 4 r g → r_held r = true → (∀ g r', ready 2 r' g → Q g r') → timely' Q g (tickHeld cfg r).
Proof.
  intros (Hh & Hp & He & Hop) Hheld HQ. destruct g as [t0 now0 gr op ex]. cbn [mo_t mo_open] in *.
  assert (∀ t now gr ex n, 0 < t → (op ≠ None → t ≤ r_expiresAt r + n * react) →
    ready n r (MkMonitor t now gr op ex)) as Hrdy.
  { intros t now gr' ex' n Ht Hn. split_and!; cbn; [done..|]. intros o ->.
    destruct (Hop o eq_refl) as (? & ? & ?). split_and!; [done|lia|lia|]. by apply Hn. }
  unfold tickHeld. call Hop started t1. subst started.
  destruct (negb (IsZero (r_expiresAt r)) && negb (Before t1 (r_expiresAt r))) eqn:E1.
  { apply (timely_lose 5); [|lia|done]. apply Hrdy; [lia|]. intros Hno.
    destruct op as [o|]; [|done]. destruct (Hop o eq_refl) as (? & ? & ?). lia. }
  assert (∀ o, op = Some o → r_held r = true ∧ 0 < r_expiresAt r ≤ o.1 + cTTL cfg ∧ t1 < r_expiresAt r) as Hop1.
  { intros o Ho. destruct (Hop o Ho) as (? & ? & ?). unfold IsZero, Before in E1. split_and!; [done|lia|lia|].
    rewrite (proj2 (Z.eqb_neq _ _)) in E1 by lia. cbn in E1. destruct (Z.ltb_spec t1 (r_expiresAt r)); [lia|done]. }
  clear Hop E1. assert (op ≠ None → t1 < r_expiresAt r) as Hlt.
  { intros Hno. destruct op as [o|]; [|done]. by apply (Hop1 o). }
  unfold tickCtx. rewrite prog_bind_assoc. call Hop1 now2 t2. subst now2. rewrite prog_bind_ret.
  pose proof (tickCtx_due r t2 Hheld) as Hdl.
  remember (if r_held r && negb (IsZero (r_expiresAt r)) && _ then _ else _) as dl eqn:Edl. clear Edl.
  assert (∀ o, op = Some o → 0 < r_expiresAt r ≤ o.1 + cTTL cfg ∧ dl ≤ r_expiresAt r ∧ t1 < r_expiresAt r) as Hop2.
  { intros o Ho. destruct (Hop1 o Ho) as (? & ? & ?). split_and!; [lia..|apply Hdl; lia|lia]. }
  assert (op ≠ None → 0 < r_expiresAt r ∧ dl ≤ r_expiresAt r ∧ t1 < r_expiresAt r) as Hfact.
  { intros Hno. destruct op as [o|]; [|done]. destruct (Hop2 o eq_refl) as (? & ? & ?). lia. }
  call Hop2 res t3. destruct res as [res|e].
  2:{ destruct (errors_Is e ErrConflict); [abandon Hrdy Hfact 2|]. call Hop2 now t4. subst now.
      unfold Before. destruct (Z.ltb_spec t4 (r_expiresAt r)); cbn [negb]; [|abandon Hrdy Hfact 3].
      apply timely_ret, HQ, Hrdy; [lia|]. intros Hno. specialize (Hfact Hno). lia. }
  destruct (aAcquired res) eqn:Hacq; cbn [negb]; [|abandon Hrdy Hfact 2].
  call Hop2 b t4. destruct b; [abandon Hrdy Hfact 3|]. call Hop2 now t5. subst now. unfold Before.
  destruct (Z.ltb_spec t5 (t1 + cTTL cfg)); cbn [negb]; [|abandon Hrdy Hfact 4]. unfold IsZero.
  destruct (Z.eqb_spec (r_expiresAt r) 0) as [Hz|Hnz].
  - rewrite prog_bind_ret. call Hop2 u t6. apply timely_ret, HQ.
    apply (ready_opened _ t1 t2); cbn; try done; lia.
  - rewrite prog_bind_assoc. call Hop2 now' t6. subst now'. rewrite prog_bind_ret.
    destruct (Z.ltb_spec t6 (r_expiresAt r)); cbn [negb]; [|abandon Hrdy Hfact 5].
    call Hop2 u t7. apply timely_ret, HQ. apply (ready_opened _ t1 t2); cbn; try done; lia.
Qed.
Lemma timely_tickReacquire n r g (Q : monitor → Renewer → Prop) :
  ready n r g → r_held r = false → (∀ g r', ready 2 r' g → Q g r') → timely' Q g (tickReacquire cfg r).
Proof.
  intros (Hh & Hp & He & Hop) Hheld HQ. destruct g as [t0 now0 gr op ex]. cbn [mo_t mo_open] in *.
  assert (op = None) as ->. { destruct op as [o|]; [|done]. destruct (Hop o eq_refl). congruence. }
  assert (∀ o : Z * Z, None = Some o → True ∧ True ∧ True) as Hno by done.
  assert (∀ t now gr ex, 0 < t → ready 2 r (MkMonitor t now gr None ex)) as Hrdy.
  { intros. by split_and!. }
  unfold tickReacquire. call Hno u t1. destruct u as [[]|e]; [|by apply timely_exempt].
  unfold tickCtx. rewrite prog_bind_assoc. call Hno now2 t2. rewrite prog_bind_ret.
  call Hno started t3. subst started now2. call Hno res t4.
  destruct res as [res|e]; [|apply timely_ret, HQ, Hrdy; lia].
  destruct (aAcquired res) eqn:Hacq; cbn [negb]; [|apply timely_ret, HQ, Hrdy; lia].
  call Hno b t5. destruct b; [apply timely_ret, HQ, Hrdy; lia|].
  call Hno now t6. subst now. unfold Before.
  destruct (Z.ltb_spec t6 (t3 + cTTL cfg)); cbn [negb]; [|apply timely_ret, HQ, Hrdy; lia].
  call Hno w t7. call Hno u' t8. apply timely_ret, HQ.
  apply (ready_opened _ t3 t3); cbn; try done; lia.
Qed.

(** The wait: its timer ends it in time. *)
Lemma timely_select {A} r g (Q : monitor → A → Prop) (k : wake → prog sideE A) :
  ready 2 r g → (∀ g ev, mo_exempt g = true ∨ (ev ≠ EvDone ∧ ready 4 r g) → timely' Q g (k ev)) →
  timely' Q g (arm r ≫= λ timer, trigger (RSelect timer) ≫= k).
Proof.
  intros Hrdy Hk. pose proof Hrdy as (Hh & Hp & He & Hop).
  destruct g as [t0 now0 gr op ex]. cbn [mo_t mo_open] in *. unfold arm, IsZero.
  destruct (r_held r && negb (r_expiresAt r =? 0)) eqn:E.
  - rewrite prog_bind_assoc. call Hop now t1. subst now. rewrite prog_bind_ret.
    assert (Z.max 0 (Sub (r_expiresAt r) t1) ≤ Z.max 0 (r_expiresAt r - t1)) as Hsub.
    { unfold Sub, MinInt64, MaxInt64. lia. }
    call Hop ev t2. apply Hk. destruct (decide (ev = EvDone)) as [->|Hev]; [by left|right].
    split; [done|]. split_and!; cbn; [done|lia|done|]. intros o Ho.
    destruct (Hop o Ho) as (? & ? & ?). split_and!; [done|lia..].
  - rewrite prog_bind_ret. assert (op = None) as ->.
    { destruct op as [o|]; [|done]. destruct (Hop o eq_refl) as (Hhe & ? & _).
      rewrite Hhe, (proj2 (Z.eqb_neq _ _)) in E by lia. done. }
    apply timely_op; [done|by intros o|]. intros ev t Ht _ _. cbn [observe mo_t mo_open] in *.
    apply Hk. destruct (decide (ev = EvDone)) as [->|Hev]; [by left|right].
    split; [done|]. by split_and!; cbn; [done|lia|done|].
Qed.

(** Where a run of the loop stops, the gate is still within bounds. *)
Definition finished {A} (g : monitor) (_ : A) : Prop := within react (cTTL cfg) g (Some (mo_t g)).

Lemma ready_finished {A} r g (a : A) : ready 2 r g → finished g a.
Proof. intros (_ & _ & _ & Hop) o Ho. destruct (Hop o Ho) as (? & ? & ?). eexists. split; [done|]. lia. Qed.

Lemma timely_run_loop fuel r g : ready 2 r g → timely' finished g (run_loop fuel cfg r).
Proof.
  revert r g. induction fuel as [|fuel IH]; intros r g Hrdy; cbn [run_loop].
  - by eapply timely_ret, ready_finished.
  - apply (timely_select r); [done|]. intros g1 ev [Hex|[Hev Hrdy1]]; [by apply timely_exempt|].
    apply timely_bind, (timely_mono _ _ _ (λ g r', ready 2 r' g)).
    { intros g2 r2 Hr2. destruct ev; [done|by apply IH..]. }
    destruct ev; cbn [handle]; [done|by eapply (timely_lose 4)|].
    destruct (r_held r) eqn:Hh; [by apply timely_tickHeld|by eapply timely_tickReacquire].
Qed.

Lemma timely_loadHandoff t now :
  0 < t → timely' (λ g r, r_holder r = Holder cfg ∧ r_expiresAt r = 0 ∧ 0 < mo_t g ∧ mo_open g = None)
    (MkMonitor t now None None false) (loadHandoff cfg).
Proof.
  intros Ht. assert (∀ o : Z * Z, None = Some o → True ∧ True ∧ True) as Hno by done.
  unfold loadHandoff. call Hno hh t1. call Hno tk t2. apply timely_ret.
  cbn [mo_t mo_open]. split_and!; [..|lia|done].
  all: destruct hh as [hh|]; [|done]; destruct tk as [tk|]; [|done].
  all: destruct (bool_decide_reflect (hh = Holder cfg)) as [->|]; cbn; [|done]; by destruct (tk >? 0).
Qed.

Lemma timely_Run fuel t now :
  0 < t → timely' finished (MkMonitor t now None None false) (Run fuel cfg).
Proof.
  intros Ht. unfold Run. eapply timely_bind, timely_mono; [|by apply timely_loadHandoff].
  intros [t0 now0 gr op ex] r (Hh & He & Hp & Hop). cbn [mo_t mo_open] in *. subst op.
  assert (∀ o : Z * Z, None = Some o → True ∧ True ∧ True) as Hno by done.
  assert (∀ t now gr ex n, 0 < t → ready n r (MkMonitor t now gr None ex)) as Hrdy.
  { intros. by split_and!; cbn; [done|lia|lia|]. }
  call Hno u t3. destruct u as [[]|e]; [|by apply timely_exempt].
  apply timely_bind, (timely_mono _ _ _ (λ g r', ready 2 r' g)).
  { intros g r' Hr'. apply timely_bind, (timely_mono _ _ _ finished).
    - intros g' out Hf. by apply timely_ret.
    - by apply timely_run_loop. }
  destruct (r_held r) eqn:Hheld; [|apply timely_ret, Hrdy; lia].
  call Hno d t4. destruct d; [apply timely_ret, Hrdy; lia|].
  apply timely_tickHeld; [apply Hrdy; lia|done..].
Qed.
End loop.
