(* ===== verification/Operator.v ===== *)
(** * The operator's data

    [api/v1alpha1/types.go] and the pure parts of [internal/operator]: the
    BerthLease object, the Pods and Jobs the operator looks at, target objects
    through the accessors of [k8s.io/apimachinery]'s unstructured package, and
    the checks on them. *)

From S2P Require Import Prelude GoStrings.

(** ** BerthLease *)

Record ScaleAction := MkScale { Replicas : Z }.

Record LeaseAction := MkAction { aSuspend : option bool; aScale : option ScaleAction }.

Record TargetRef := MkTarget { tAPIVersion : string; tKind : string; tName : string }.

Record BerthLeaseSpec := MkSpec {
  sLeaseName : string;
  sHolderIdentity : string;
  sTTLSeconds : Z;
  sHeartbeatIntervalSeconds : Z;
  sTarget : option TargetRef;
  sAcquireAction : option LeaseAction;
  sReleaseAction : option LeaseAction }.

Record PermittedPod := MkPermitted { ppName : string; ppUID : string }.

#[export] Instance PermittedPod_eq_dec : EqDecision PermittedPod.
Proof. solve_decision. Defined.

Record WorkloadStatus := MkWorkload {
  wTargetUID : string;
  wPhase : string;
  wDeadline : option Z;
  wLeaseName : string;
  wHolder : string;
  wToken : Z;
  wPods : list PermittedPod }.

Record Condition := MkCondition { cStatus : bool; cReason : string; cGeneration : Z }.

Record BerthLeaseStatus := MkStatus {
  stWorkload : option WorkloadStatus;
  stObservedGeneration : Z;
  stLeaseState : string;
  stCurrentHolder : string;
  stAcquiredAt : option Z;
  stExpiresAt : option Z;
  stLastHeartbeat : option Z;
  stFencingToken : Z;
  stConditions : gmap string Condition }.

Record BerthLease := MkLease {
  lName : string;
  lNamespace : string;
  lUID : string;
  lResourceVersion : string;
  lGeneration : Z;
  lDeletionTimestamp : option Z;
  lFinalizers : list string;
  lSpec : BerthLeaseSpec;
  lStatus : BerthLeaseStatus }.

(** Field assignments on a lease object. *)
Definition set_status (st : BerthLeaseStatus) (l : BerthLease) : BerthLease :=
  MkLease (lName l) (lNamespace l) (lUID l) (lResourceVersion l) (lGeneration l)
    (lDeletionTimestamp l) (lFinalizers l) (lSpec l) st.
Definition set_finalizers (fs : list string) (l : BerthLease) : BerthLease :=
  MkLease (lName l) (lNamespace l) (lUID l) (lResourceVersion l) (lGeneration l)
    (lDeletionTimestamp l) fs (lSpec l) (lStatus l).
Definition set_rv (rv : string) (l : BerthLease) : BerthLease :=
  MkLease (lName l) (lNamespace l) (lUID l) rv (lGeneration l)
    (lDeletionTimestamp l) (lFinalizers l) (lSpec l) (lStatus l).

Definition set_workload (w : option WorkloadStatus) (st : BerthLeaseStatus) : BerthLeaseStatus :=
  MkStatus w (stObservedGeneration st) (stLeaseState st) (stCurrentHolder st) (stAcquiredAt st)
    (stExpiresAt st) (stLastHeartbeat st) (stFencingToken st) (stConditions st).
Definition set_conditions (c : gmap string Condition) (st : BerthLeaseStatus) : BerthLeaseStatus :=
  MkStatus (stWorkload st) (stObservedGeneration st) (stLeaseState st) (stCurrentHolder st)
    (stAcquiredAt st) (stExpiresAt st) (stLastHeartbeat st) (stFencingToken st) c.
Definition set_observed (g : Z) (st : BerthLeaseStatus) : BerthLeaseStatus :=
  MkStatus (stWorkload st) g (stLeaseState st) (stCurrentHolder st)
    (stAcquiredAt st) (stExpiresAt st) (stLastHeartbeat st) (stFencingToken st) (stConditions st).
Definition set_phase (p : string) (w : WorkloadStatus) : WorkloadStatus :=
  MkWorkload (wTargetUID w) p (wDeadline w) (wLeaseName w) (wHolder w) (wToken w) (wPods w).
Definition set_pods (ps : list PermittedPod) (w : WorkloadStatus) : WorkloadStatus :=
  MkWorkload (wTargetUID w) (wPhase w) (wDeadline w) (wLeaseName w) (wHolder w) (wToken w) ps.

Definition on_status (f : BerthLeaseStatus → BerthLeaseStatus) (l : BerthLease) : BerthLease :=
  set_status (f (lStatus l)) l.

(** ** Constants *)

Definition FinalizerName : string := "berth.skaphos.io/lease-release".
Definition StateHeld : string := "held".
Definition StateWaiting : string := "waiting".
Definition ConditionAcquired : string := "Acquired".
Definition ConditionHeartbeatHealthy : string := "HeartbeatHealthy".
Definition ManagedLease : string := "berth.skaphos.io/managed-lease".
Definition ManagedUID : string := "berth.skaphos.io/managed-lease-uid".
Definition SchedulingGate : string := "berth.skaphos.io/lease-held".
Definition PhaseActive : string := "Active".
Definition PhaseStopping : string := "Stopping".
Definition StopFence : string := "berth.skaphos.io/stop-fence".
Definition maxPermittedPods : Z := 1024.
Definition localTimeout : Z := 5 * Second.

(** ** Checks *)

Definition workloadSpec (spec : BerthLeaseSpec) : result unit :=
  match sTarget spec with
  | None =>
      if bool_decide (is_Some (sAcquireAction spec)) || bool_decide (is_Some (sReleaseAction spec))
      then Err (ErrMsg "actions require a target") else Ok ()
  | Some t =>
    if tName t == "" then Err (ErrMsg "target name is required")
    else
      match sAcquireAction spec, sReleaseAction spec with
      | Some a, Some b =>
        if (tAPIVersion t == "batch/v1") && (tKind t == "CronJob") then
          match aSuspend a, aScale a, aSuspend b, aScale b with
          | Some false, None, Some true, None => Ok ()
          | _, _, _, _ => Err (ErrMsg "CronJobs require acquire suspend=false and release suspend=true")
          end
        else if (tAPIVersion t != "apps/v1") ||
                ((tKind t != "Deployment") && (tKind t != "StatefulSet") && (tKind t != "ReplicaSet"))
        then Err (ErrMsg "supported targets are apps/v1 Deployment, StatefulSet, ReplicaSet and batch/v1 CronJob")
        else
          match aScale a, aSuspend a, aScale b, aSuspend b with
          | Some sa, None, Some sb, None =>
              if (Replicas sa <? 0) || negb (Replicas sb =? 0)
              then Err (ErrMsg "scalable targets require scale actions and scale-to-zero release")
              else Ok ()
          | _, _, _, _ => Err (ErrMsg "scalable targets require scale actions and scale-to-zero release")
          end
      | _, _ => Err (ErrMsg "managed targets require acquireAction and releaseAction")
      end
  end.

Definition validateSpec (spec : BerthLeaseSpec) : result unit :=
  if sLeaseName spec == "" then Err (ErrMsg "spec.leaseName is required")
  else if sHolderIdentity spec == "" then Err (ErrMsg "spec.holderIdentity is required")
  else if sTTLSeconds spec <=? 0 then Err (ErrMsg "spec.ttlSeconds must be positive")
  else if sHeartbeatIntervalSeconds spec <=? 0
  then Err (ErrMsg "spec.heartbeatIntervalSeconds must be positive")
  else if sHeartbeatIntervalSeconds spec >=? sTTLSeconds spec
  then Err (ErrMsg "spec.heartbeatIntervalSeconds must be less than spec.ttlSeconds")
  else workloadSpec spec.

(** The activation window: the lease authorises workload starts at [now]. *)
Definition activeAt (l : BerthLease) (now : Z) : bool :=
  bool_decide (lDeletionTimestamp l = None) &&
  match stWorkload (lStatus l) with
  | None => false
  | Some w =>
      (wPhase w == PhaseActive) &&
      match wDeadline w with None => false | Some d => Before now d end &&
      (wToken w >? 0)
  end.

Definition reacquireInterval (heartbeat ttl : Z) : Z :=
  if (heartbeat >? 0) && (heartbeat <? Z.quot ttl 3) then heartbeat else Z.quot ttl 3.

Definition minTime (a b : Z) : Z := if Before a b then a else b.

Definition timePtr (t : Z) : option Z := if IsZero t then None else Some t.

Definition setCondition (condType : string) (status : bool) (reason : string) (gen : Z)
    (st : BerthLeaseStatus) : BerthLeaseStatus :=
  set_conditions (<[condType := MkCondition status reason gen]> (stConditions st)) st.

(** ** Pods, Jobs and targets *)

Record OwnerReference := MkOwner {
  oAPIVersion : string; oKind : string; oName : string; oUID : string; oController : option bool }.

#[export] Instance OwnerReference_eq_dec : EqDecision OwnerReference.
Proof. solve_decision. Defined.

Record Pod := MkPod {
  pName : string;
  pNamespace : string;
  pUID : string;
  pAnnotations : gmap string string;
  pOwners : list OwnerReference;
  pGates : list string;
  pPhase : string;
  pDeletionTimestamp : option Z }.

Record Job := MkJob {
  jName : string;
  jNamespace : string;
  jUID : string;
  jAnnotations : gmap string string;
  jSuspend : option bool;
  jDeletionTimestamp : option Z }.

(** [m[k]] of a Go map of strings. *)
Definition lookup_str (m : gmap string string) (k : string) : string := default "" (m !! k).

Definition hasGate (p : Pod) : bool := existsb (λ g, g == SchedulingGate) (pGates p).

Definition terminal (p : Pod) : bool := (pPhase p == "Succeeded") || (pPhase p == "Failed").

(** An object of any kind: the accessors of the unstructured package that the
    operator uses. A nested map is again such an object. *)
Class Unstructured (U : Type) := {
  GetKind : U → string;
  GetAPIVersion : U → string;
  GetName : U → string;
  GetNamespace : U → string;
  GetUID : U → string;
  GetResourceVersion : U → string;
  GetAnnotations : U → gmap string string;
  SetAnnotations : gmap string string → U → U;
  GetLabels : U → gmap string string;
  SetLabels : gmap string string → U → U;
  GetOwnerReferences : U → list OwnerReference;
  NestedBool : U → list string → result (option bool);
  NestedInt64 : U → list string → result (option Z);
  NestedString : U → list string → result (option string);
  NestedMap : U → list string → result (option U);
  NestedSlice : U → list string → result (option (list U));
  SetNestedBool : U → bool → list string → result U;
  SetNestedInt64 : U → Z → list string → result U;
  SetNestedSlice : U → list U → list string → result U;
  SetNestedMap : U → U → list string → result U;
  ParseGroupVersion : string → result unit;
  GateEntry : string → U;
  SpecEqual : U → U → bool }.
