(* ===== verification/Reconciler.v ===== *)
(** * The operator's control loops

    [internal/operator/reconciler.go], [workload.go], [actions.go],
    [pod_controller.go] and the owner-chain resolution of [admission.go], as
    programs over the requests they make of the API server and of the central
    lease API. *)

From S2P Require Import Prelude GoStrings Store Manager Operator.

Section control_loops.
Context {U : Type} `{Unstructured U}.

Inductive opE : Type → Type :=
| OGetLease (ns name : string) : opE (kerr + BerthLease)
| OListLeases (ns : string) : opE (kerr + list BerthLease)
| OUpdateLease (l : BerthLease) : opE (kerr + unit)
| OUpdateStatus (l : BerthLease) : opE (kerr + string)
| OGetObj (apiVersion kind ns name : string) : opE (kerr + U)
| OPatchObj (orig obj : U) : opE (kerr + unit)
| OGetPod (ns name : string) : opE (kerr + Pod)
| OListPods (ns : string) (label : option string) : opE (kerr + list Pod)
| OUpdatePod (p : Pod) : opE (kerr + unit)
| ODeletePod (name uid : string) : opE (kerr + unit)
| OGetJob (ns name : string) : opE (kerr + Job)
| OListJobs (ns : string) (label : string) : opE (kerr + list Job)
| OUpdateJob (j : Job) : opE (kerr + unit)
| ODeleteJob (name uid : string) : opE (kerr + unit)
| OAcquire (ns name holder : string) (ttl budget : Z) : opE (result AcquireResult)
| ORelease (ns name holder : string) (token : Z) : opE (result unit)
| ONow : opE Z.

(** [ctrlclient.IgnoreNotFound]. *)
Definition IgnoreNotFound (r : kerr + unit) : result unit :=
  match r with
  | inr _ => Ok ()
  | inl KNotFound => Ok ()
  | inl e => Err (of_kerr e)
  end.

Definition of_kres {A} (r : kerr + A) : result A :=
  match r with inr a => Ok a | inl e => Err (of_kerr e) end.

(** A status update: on success the object carries its new resourceVersion. *)
Definition update_status (l : BerthLease) : prog opE (result unit * BerthLease) :=
  r ← trigger (OUpdateStatus l);
  mret (match r with inr rv => (Ok (), set_rv rv l) | inl e => (Err (of_kerr e), l) end).

(** ** Owner chains *)

Record binding := MkBinding { bName : string; bUID : string; bTargetUID : string }.
Definition no_binding : binding := MkBinding "" "" "".

(** What the resolution reads of an object, whatever its Go type. *)
Record objview := MkView {
  ovAPIVersion : string; ovKind : string; ovNamespace : string; ovName : string; ovUID : string;
  ovOwners : list OwnerReference; ovAnnotations : gmap string string }.

Definition view_pod (p : Pod) : objview :=
  MkView "v1" "Pod" (pNamespace p) (pName p) (pUID p) (pOwners p) (pAnnotations p).
Definition view_obj (u : U) : objview :=
  MkView (GetAPIVersion u) (GetKind u) (GetNamespace u) (GetName u) (GetUID u)
    (GetOwnerReferences u) (GetAnnotations u).

Definition supportedController (apiVersion kind : string) : bool :=
  (apiVersion == "apps/v1") && ((kind == "Deployment") || (kind == "ReplicaSet") || (kind == "StatefulSet"))
  || (apiVersion == "batch/v1") && ((kind == "Job") || (kind == "CronJob")).

(** The loop over the leases that name the object as their target. *)
Fixpoint find_lease (v : objview) (ls : list BerthLease) (found : binding) : result binding :=
  match ls with
  | [] => Ok found
  | l :: ls =>
    match sTarget (lSpec l) with
    | Some t =>
      if (tName t == ovName v) && (tAPIVersion t == ovAPIVersion v) && (tKind t == ovKind v) then
        if bUID found != "" then Err (ErrMsg "multiple BerthLeases refer to the same target")
        else find_lease v ls (MkBinding (lName l) (lUID l) (ovUID v))
      else find_lease v ls found
    | None => find_lease v ls found
    end
  end.

Definition unbound (v : objview) : result binding :=
  if (lookup_str (ovAnnotations v) ManagedUID != "") || (lookup_str (ovAnnotations v) ManagedLease != "")
  then Err (ErrMsg "managed binding has no matching live target lease")
  else Ok no_binding.

(** No supported controller above: the object is a target, or unmanaged. *)
Definition resolve_root (v : objview) : prog opE (result binding) :=
  if supportedController (ovAPIVersion v) (ovKind v) && (ovKind v != "Job") then
    got ← trigger (OListLeases (ovNamespace v));
    match got with
    | inl e => mret (Err (of_kerr e))
    | inr ls =>
      mret (match find_lease v ls no_binding with
            | Err e => Err e
            | Ok b => if bUID b != "" then Ok b else unbound v
            end)
    end
  else mret (unbound v).

(** [fuel] is how many levels of owners may still be followed: the code's depth
    limit, counted down. *)
Fixpoint resolveBinding (fuel : nat) (v : objview) : prog opE (result binding) :=
  match fuel with
  | O => mret (Err (ErrMsg "workload owner chain exceeds supported depth"))
  | S fuel =>
    match List.find (λ o, bool_decide (oController o = Some true)) (ovOwners v) with
    | None => resolve_root v
    | Some owner =>
      if negb (supportedController (oAPIVersion owner) (oKind owner)) then resolve_root v
      else
        got ← trigger (OGetObj (oAPIVersion owner) (oKind owner) (ovNamespace v) (oName owner));
        match got with
        | inl e => mret (Err (ErrWrap "resolve controller owner" (of_kerr e)))
        | inr parent =>
          if GetUID parent != oUID owner then mret (Err (ErrMsg "controller owner UID changed"))
          else resolveBinding fuel (view_obj parent)
        end
    end
  end.

Definition expectedBinding (v : objview) : prog opE (result binding) := resolveBinding 5 v.

(** ** Actions on targets *)

(** Set a field to the wanted value unless it has it; the object and whether it
    changed. *)
Definition set_suspend (want : bool) (obj : U) : result (U * bool) :=
  cur ← NestedBool obj ["spec"; "suspend"];
  if bool_decide (cur = Some want) then Ok (obj, false)
  else obj' ← SetNestedBool obj want ["spec"; "suspend"]; Ok (obj', true).

Definition set_replicas (want : Z) (obj : U) : result (U * bool) :=
  cur ← NestedInt64 obj ["spec"; "replicas"];
  if bool_decide (cur = Some want) then Ok (obj, false)
  else obj' ← SetNestedInt64 obj want ["spec"; "replicas"]; Ok (obj', true).

(** What the action and the fence make of the object that was read: the new
    object and whether a write is needed. *)
Definition mutate_target (action : LeaseAction) (fence : string) (obj : U) : result (U * bool) :=
  s ← match aSuspend action with Some v => set_suspend v obj | None => Ok (obj, false) end;
  r ← match aScale action with Some sc => set_replicas (Replicas sc) s.1 | None => Ok (s.1, false) end;
  if bool_decide (aSuspend action = None) && match aScale action with None => true | Some _ => false end
  then Err (ErrMsg "apply action: action specifies no mutation")
  else
    let changed := s.2 || r.2 in
    if (fence != "") && (lookup_str (GetAnnotations r.1) StopFence != fence)
    then Ok (SetAnnotations (<[StopFence := fence]> (GetAnnotations r.1)) r.1, true)
    else Ok (r.1, changed).

Definition applyFencedAction (ns : string) (ref : option TargetRef) (action : option LeaseAction)
    (uid fence : string) : prog opE (result unit) :=
  match ref, action with
  | Some ref, Some action =>
    match ParseGroupVersion (tAPIVersion ref) with
    | Err e => mret (Err (ErrWrap "parse target apiVersion" e))
    | Ok _ =>
    got ← trigger (OGetObj (tAPIVersion ref) (tKind ref) ns (tName ref));
    match got with
    | inl KNotFound => mret (Ok ())
    | inl e => mret (Err (ErrWrap "get target" (of_kerr e)))
    | inr obj =>
      if (uid != "") && (GetUID obj != uid) then mret (Err (ErrMsg "target UID changed"))
      else
        match mutate_target action fence obj with
        | Err e => mret (Err e)
        | Ok (obj', changed) =>
          if negb changed then mret (Ok ())
          else
            p ← trigger (OPatchObj obj obj');
            mret (match p with inr _ => Ok () | inl e => Err (ErrWrap "patch target" (of_kerr e)) end)
        end
    end
    end
  | _, _ => mret (Ok ())
  end.

Definition applyActionForUID ns ref action uid := applyFencedAction ns ref action uid "".

Definition verifyTarget (managed : bool) (operatorNS : string) (l : BerthLease)
    : prog opE (result unit) :=
  if (operatorNS != "") && (lNamespace l == operatorNS)
  then mret (Err (ErrMsg "workloads cannot be managed in the operator namespace"))
  else if negb managed then mret (Err (ErrMsg "managed workloads require workload admission"))
  else
    match stWorkload (lStatus l), sTarget (lSpec l) with
    | Some w, Some t =>
      if wTargetUID w == "" then mret (Err (ErrMsg "target has no CREATE admission record"))
      else
        got ← trigger (OGetObj (tAPIVersion t) (tKind t) (lNamespace l) (tName t));
        mret (match got with
              | inl e => Err (of_kerr e)
              | inr obj =>
                if (GetUID obj != wTargetUID w) ||
                   (lookup_str (GetAnnotations obj) ManagedUID != lUID l) ||
                   (lookup_str (GetAnnotations obj) ManagedLease != lName l)
                then Err (ErrMsg "target identity does not match admission record")
                else Ok ()
              end)
    | _, _ => mret (Err (ErrMsg "target has no CREATE admission record"))
    end.

Definition stop_action (t : TargetRef) : LeaseAction :=
  if (tKind t == "CronJob") && (tAPIVersion t == "batch/v1")
  then MkAction (Some true) None else MkAction None (Some (MkScale 0)).

Definition stopTarget (l : BerthLease) : prog opE (result unit) :=
  match sTarget (lSpec l) with
  | None => mret (Ok ())
  | Some t =>
    got ← trigger (OGetObj (tAPIVersion t) (tKind t) (lNamespace l) (tName t));
    match got with
    | inl KNotFound => mret (Ok ())
    | inl e => mret (Err (of_kerr e))
    | inr obj =>
      let replaced :=
        match stWorkload (lStatus l) with
        | Some w => (wTargetUID w != "") && (GetUID obj != wTargetUID w)
        | None => false
        end in
      if replaced then mret (Ok ())
      else applyFencedAction (lNamespace l) (Some t) (Some (stop_action t)) (GetUID obj)
             (lResourceVersion l)
    end
  end.

(** ** Draining *)

Definition deletePodUID (p : Pod) : prog opE (result unit) :=
  if pUID p == "" then mret (Err (ErrMsg "cannot delete a workload without its UID"))
  else r ← trigger (ODeletePod (pName p) (pUID p)); mret (IgnoreNotFound r).

Definition deleteJobUID (j : Job) : prog opE (result unit) :=
  if jUID j == "" then mret (Err (ErrMsg "cannot delete a workload without its UID"))
  else r ← trigger (ODeleteJob (jName j) (jUID j)); mret (IgnoreNotFound r).

(** The registered name-to-UID map; a later entry for a name wins. *)
Definition registered (l : BerthLease) : gmap string string :=
  match stWorkload (lStatus l) with
  | None => ∅
  | Some w => foldl (λ m p, <[ppName p := ppUID p]> m) ∅ (wPods w)
  end.

(** Pods the lease is responsible for: registered, or carrying its UID. *)
Definition responsible (l : BerthLease) (p : Pod) : bool :=
  negb ((lookup_str (registered l) (pName p) != pUID p) &&
        (lookup_str (pAnnotations p) ManagedUID != lUID l)).

Fixpoint drain_loop (l : BerthLease) (ps : list Pod) (done : bool) : prog opE (result bool) :=
  match ps with
  | [] => mret (Ok done)
  | p :: ps =>
    if negb (responsible l p) then drain_loop l ps done
    else
      let done := done && terminal p in
      match pDeletionTimestamp p with
      | Some _ => drain_loop l ps done
      | None =>
        r ← deletePodUID p;
        match r with Err e => mret (Err e) | Ok _ => drain_loop l ps done end
      end
  end.

Definition drainPods (l : BerthLease) : prog opE (result bool) :=
  got ← trigger (OListPods (lNamespace l) None);
  match got with
  | inl e => mret (Err (of_kerr e))
  | inr ps => drain_loop l ps true
  end.

Definition suspendJob (j : Job) : prog opE (result unit) :=
  if bool_decide (jSuspend j = Some true) then mret (Ok ())
  else r ← trigger (OUpdateJob (MkJob (jName j) (jNamespace j) (jUID j) (jAnnotations j) (Some true)
                                  (jDeletionTimestamp j)));
       mret (of_kres r).

Fixpoint drain_jobs_loop (js : list Job) : prog opE (result unit) :=
  match js with
  | [] => mret (Ok ())
  | j :: js =>
    match jDeletionTimestamp j with
    | Some _ => drain_jobs_loop js
    | None =>
      s ← suspendJob j;
      match s with
      | Err e => mret (Err e)
      | Ok _ =>
        d ← deleteJobUID j;
        match d with Err e => mret (Err e) | Ok _ => drain_jobs_loop js end
      end
    end
  end.

Definition drainJobs (l : BerthLease) : prog opE (result bool) :=
  got ← trigger (OListJobs (lNamespace l) (lUID l));
  match got with
  | inl e => mret (Err (of_kerr e))
  | inr js =>
    r ← drain_jobs_loop js;
    mret (match r with Err e => Err e | Ok _ => Ok (bool_decide (js = [])) end)
  end.

(** ** Permitting Pods *)

(** [Spec.SchedulingGates] without the Berth gate. *)
Definition without_gate (p : Pod) : Pod :=
  MkPod (pName p) (pNamespace p) (pUID p) (pAnnotations p) (pOwners p)
    (filter (λ g, g ≠ SchedulingGate) (pGates p)) (pPhase p) (pDeletionTimestamp p).

Definition is_permitted (p : Pod) (w : WorkloadStatus) : bool :=
  existsb (λ v, (ppUID v == pUID p) && (ppName v == pName p)) (wPods w).

Definition remove_gate (p : Pod) (l : BerthLease) : prog opE (result unit * BerthLease) :=
  if negb (hasGate p) then mret (Ok (), l)
  else
    r ← trigger (OUpdatePod (without_gate p));
    mret (match r with inr _ => Ok () | inl e => Err (ErrWrap "remove registered Pod gate" (of_kerr e)) end, l).

(** Register the Pod if it is new, then remove its gate. *)
Definition register_pod (p : Pod) (w : WorkloadStatus) (l : BerthLease)
    : prog opE (result unit * BerthLease) :=
  if is_permitted p w then remove_gate p l
  else if negb (hasGate p)
  then mret (Err (ErrMsg "unregistered managed Pod has no scheduling gate"), l)
  else if Z.of_nat (length (wPods w)) >=? maxPermittedPods
  then mret (Err (ErrMsg "maximum active Pod registrations reached"), l)
  else
    let l' := on_status (set_workload (Some (set_pods (wPods w ++ [MkPermitted (pName p) (pUID p)]) w))) l in
    r ← update_status l';
    match r with
    | (Err e, l'') => mret (Err (ErrWrap "register Pod UID" e), l'')
    | (Ok _, l'') => remove_gate p l''
    end.

Definition permitPod (l : BerthLease) (p : Pod) : prog opE (result unit * BerthLease) :=
  now ← trigger ONow;
  if negb (activeAt l now) || bool_decide (is_Some (pDeletionTimestamp p)) || (pUID p == "")
  then mret (Ok (), l)
  else if (lookup_str (pAnnotations p) ManagedUID != lUID l) ||
          (lookup_str (pAnnotations p) ManagedLease != lName l)
  then mret (Err (ErrMsg "pod binding mismatch"), l)
  else
    root ← expectedBinding (view_pod p);
    match root, stWorkload (lStatus l) with
    | Err e, _ => mret (Err e, l)
    | Ok root, Some w =>
      if (bUID root != lUID l) || (bTargetUID root != wTargetUID w)
      then mret (Err (ErrMsg "pod ancestry differs from admitted target UID"), l)
      else register_pod p w l
    | Ok _, None => mret (Ok (), l)
    end.

Fixpoint permit_loop (l : BerthLease) (ps : list Pod) : prog opE (result unit * BerthLease) :=
  match ps with
  | [] => mret (Ok (), l)
  | p :: ps =>
    r ← permitPod l p;
    match r with
    | (Err e, l') => mret (Err e, l')
    | (Ok _, l') => permit_loop l' ps
    end
  end.

Definition permitPods (l : BerthLease) : prog opE (result unit * BerthLease) :=
  got ← trigger (OListPods (lNamespace l) (Some (lUID l)));
  match got with
  | inl e => mret (Err (of_kerr e), l)
  | inr ps => permit_loop l ps
  end.

(** Forget registered Pods that are gone or have terminated. *)
Definition still_alive (ps : list Pod) (v : PermittedPod) : bool :=
  existsb (λ p, (pUID p == ppUID v) && negb (terminal p)) ps.

Definition pruneCompleted (l : BerthLease) : prog opE (result BerthLease) :=
  match stWorkload (lStatus l) with
  | None => mret (Ok l)
  | Some w =>
    if bool_decide (wPods w = []) then mret (Ok l)
    else
      got ← trigger (OListPods (lNamespace l) None);
      mret (match got with
            | inl e => Err (of_kerr e)
            | inr ps =>
                Ok (on_status (set_workload
                      (Some (set_pods (filter (λ v, still_alive ps v = true) (wPods w)) w))) l)
            end)
  end.

(** ** Stopping *)

(** The requeue delay, and the error. *)
Abbreviation outcome := (Z * result unit)%type.

Definition stopped_status (st : BerthLeaseStatus) (gen : Z) : BerthLeaseStatus :=
  setCondition ConditionAcquired false "Stopped" gen
    (MkStatus
       ((λ w, MkWorkload (wTargetUID w) "" None "" "" 0 []) <$> stWorkload st)
       (stObservedGeneration st) StateWaiting "" None None (stLastHeartbeat st) 0 (stConditions st)).

(** Close activation: persist the Stopping phase, unless it is already. *)
Definition close_activation (l : BerthLease) : prog opE (result unit * BerthLease) :=
  let w := match stWorkload (lStatus l) with
           | Some w => w
           | None => MkWorkload "" "" None (sLeaseName (lSpec l)) (stCurrentHolder (lStatus l))
                       (stFencingToken (lStatus l)) []
           end in
  if wPhase w == PhaseStopping
  then mret (Ok (), on_status (set_workload (Some w)) l)
  else
    update_status
      (on_status (λ st,
         setCondition ConditionAcquired false "Stopping" (lGeneration l)
           (setCondition ConditionHeartbeatHealthy false "Stopping" (lGeneration l)
              (set_workload (Some (set_phase PhaseStopping w)) st))) l).

(** Stop the target and drain: whether nothing is left running. *)
Definition drain (l : BerthLease) : prog opE (result bool) :=
  s ← stopTarget l;
  match s with
  | Err e => mret (Err e)
  | Ok _ =>
    jobs ← drainJobs l;
    match jobs with
    | Err e => mret (Err e)
    | Ok jobsDone =>
      pods ← drainPods l;
      mret (match pods with Err e => Err e | Ok podsDone => Ok (podsDone && jobsDone) end)
    end
  end.

(** The identity the lease was activated under. *)
Definition release_identity (l : BerthLease) : string * Z * string :=
  match stWorkload (lStatus l) with
  | Some w => (wHolder w, wToken w, wLeaseName w)
  | None => (stCurrentHolder (lStatus l), stFencingToken (lStatus l), sLeaseName (lSpec l))
  end.

(** Give the lease back and record it, or remove the finalizer. *)
Definition release_and_clear (l : BerthLease) : prog opE outcome :=
  let '(holder, token, name) := release_identity l in
  err ← (if (holder != "") && (token >? 0)
         then trigger (ORelease (lNamespace l) name holder token) else mret (Ok ()));
  let failed := match err with Ok _ => false | Err e => negb (errors_Is e ErrConflict) end in
  if failed then mret (Second, err)
  else if bool_decide (is_Some (lDeletionTimestamp l)) then
    r ← trigger (OUpdateLease (set_finalizers (filter (λ f, f ≠ FinalizerName) (lFinalizers l)) l));
    mret (0, of_kres r)
  else
    r ← update_status (on_status (λ st, stopped_status st (lGeneration l)) l);
    mret (Second, r.1).

Definition stopAndRelease (l : BerthLease) : prog opE outcome :=
  match sTarget (lSpec l) with
  | None => release_and_clear l
  | Some _ =>
    c ← close_activation l;
    match c with
    | (Err e, _) => mret (0, Err e)
    | (Ok _, l) =>
      d ← drain l;
      match d with
      | Err e => mret (0, Err e)
      | Ok false => mret (Second, Ok ())
      | Ok true => release_and_clear l
      end
    end
  end.

(** ** Reconcile *)

Record reconciler := MkReconciler {
  ClusterIdentity : string;
  ManagedWorkloads : bool;
  OperatorNamespace : string }.

Definition holderFor (r : reconciler) (l : BerthLease) : string :=
  if ClusterIdentity r != "" then ClusterIdentity r else sHolderIdentity (lSpec l).

(** The guard that sends a lease to cleanup before anything else. *)
Definition must_stop (r : reconciler) (l : BerthLease) (now : Z) : bool :=
  bool_decide (is_Some (lDeletionTimestamp l)) ||
  match stWorkload (lStatus l) with
  | None => false
  | Some w =>
      (wPhase w == PhaseStopping) ||
      ((wPhase w == PhaseActive) &&
       (negb (activeAt l now) || (wHolder w != holderFor r l) || negb (is_ok (validateSpec (lSpec l)))))
  end.

(** The status of a held lease, with the workload's activation record. *)
Definition held_status (l : BerthLease) (w : option WorkloadStatus) (res : AcquireResult) (now : Z)
    : BerthLeaseStatus :=
  setCondition ConditionHeartbeatHealthy true "Heartbeating" (lGeneration l)
    (setCondition ConditionAcquired true "Held" (lGeneration l)
       (MkStatus w (stObservedGeneration (lStatus l)) StateHeld (aHolder res)
          (timePtr (aAcquiredAt res)) (timePtr (aExpiresAt res)) (timePtr now) (aFencingToken res)
          (stConditions (lStatus l)))).

Definition waiting_status (l : BerthLease) (res : AcquireResult) : BerthLeaseStatus :=
  setCondition ConditionHeartbeatHealthy true "Standby" (lGeneration l)
    (setCondition ConditionAcquired false "HeldByOther" (lGeneration l)
       (MkStatus (stWorkload (lStatus l)) (stObservedGeneration (lStatus l)) StateWaiting (aHolder res)
          None (timePtr (aExpiresAt res)) (stLastHeartbeat (lStatus l)) 0 (stConditions (lStatus l)))).

(** Come back at the next heartbeat, or at the deadline if that is sooner. *)
Definition requeue_until (heartbeat deadline : Z) : prog opE outcome :=
  now ← trigger ONow;
  mret (Z.min heartbeat (Sub deadline now), Ok ()).

(** Apply the acquire action to the target and permit its Pods. *)
Definition activate (l : BerthLease) (heartbeat deadline : Z) : prog opE outcome :=
  match sTarget (lSpec l) with
  | None => requeue_until heartbeat deadline
  | Some t =>
    let uid := from_option wTargetUID "" (stWorkload (lStatus l)) in
    a ← applyActionForUID (lNamespace l) (Some t) (sAcquireAction (lSpec l)) uid;
    match a with
    | Err e => mret (0, Err e)
    | Ok _ =>
      p ← permitPods l;
      match p with
      | (Err e, _) => mret (0, Err e)
      | (Ok _, _) => requeue_until heartbeat deadline
      end
    end
  end.

(** Persist ownership, then activate. *)
Definition hold_lease (l : BerthLease) (res : AcquireResult) (heartbeat deadline : Z) : prog opE outcome :=
  now ← trigger ONow;
  u ← update_status (set_status (held_status l (stWorkload (lStatus l)) res now) l);
  match u with
  | (Err e, _) => mret (0, Err (ErrWrap "persist ownership" e))
  | (Ok _, l) => activate l heartbeat deadline
  end.

(** The answer to Acquire was "acquired": record the activation and act on it. *)
Definition on_acquired (r : reconciler) (l : BerthLease) (res : AcquireResult)
    (started heartbeat ttl : Z) : prog opE outcome :=
  now ← trigger ONow;
  if (aFencingToken res <=? 0) || (aHolder res != holderFor r l) || negb (After (aExpiresAt res) now)
  then mret (0, Err (ErrMsg "invalid central ownership response"))
  else
    let deadline := Truncate (minTime (started + ttl) (aExpiresAt res)) Second in
    now ← trigger ONow;
    if negb (Before now deadline) then stopAndRelease l
    else
      match sTarget (lSpec l), stWorkload (lStatus l) with
      | Some _, Some w =>
        if (wPhase w == PhaseActive) && negb (wToken w =? aFencingToken res) then stopAndRelease l
        else
          let w' := MkWorkload (wTargetUID w) PhaseActive (timePtr deadline) (sLeaseName (lSpec l))
                      (aHolder res) (aFencingToken res) (wPods w) in
          p ← pruneCompleted (on_status (set_workload (Some w')) l);
          match p with
          | Err e => mret (0, Err e)
          | Ok l => hold_lease l res heartbeat deadline
          end
      | _, _ => hold_lease l res heartbeat deadline
      end.

Definition acquire_failed (l : BerthLease) (heartbeat : Z) : prog opE outcome :=
  now ← trigger ONow;
  if match stWorkload (lStatus l) with Some w => wPhase w == PhaseActive | None => false end &&
     negb (activeAt l now)
  then stopAndRelease l
  else
    now ← trigger ONow;
    if bool_decide (is_Some (sTarget (lSpec l))) && bool_decide (¬ is_Some (stWorkload (lStatus l))) &&
       match stExpiresAt (lStatus l) with Some t => negb (Before now t) | None => false end
    then stopAndRelease l
    else
      now ← trigger ONow;
      next ← (if activeAt l now then
                match stWorkload (lStatus l) with
                | Some w => now' ← trigger ONow;
                            mret (Z.min (Z.min heartbeat Second) (Sub (default 0 (wDeadline w)) now'))
                | None => mret (Z.min heartbeat Second)
                end
              else mret (Z.min heartbeat Second));
      u ← update_status (on_status (setCondition ConditionHeartbeatHealthy false "AcquireFailed" (lGeneration l)) l);
      mret (next, u.1).

(** From the central call on. *)
Definition contend (r : reconciler) (l : BerthLease) : prog opE outcome :=
  started ← trigger ONow;
  let ttl := wrap64 (sTTLSeconds (lSpec l) * Second) in
  let heartbeat := wrap64 (sHeartbeatIntervalSeconds (lSpec l) * Second) in
  budget ← (if activeAt l started then
              now ← trigger ONow;
              mret (Z.min (Z.min heartbeat (Z.quot localTimeout 2))
                      (Sub (default 0 (stWorkload (lStatus l) ≫= wDeadline)) now))
            else mret (Z.min heartbeat (Z.quot localTimeout 2)));
  got ← trigger (OAcquire (lNamespace l) (sLeaseName (lSpec l)) (holderFor r l) ttl budget);
  match got with
  | Err _ => acquire_failed l heartbeat
  | Ok res =>
    if negb (aAcquired res) then
      match sTarget (lSpec l) with
      | Some _ => stopAndRelease l
      | None =>
        u ← update_status (set_status (waiting_status l res) l);
        mret (reacquireInterval heartbeat ttl, u.1)
      end
    else on_acquired r l res started heartbeat ttl
  end.

(** A lease with its finalizer, past the cleanup guard. *)
Definition reconcile_live (r : reconciler) (l : BerthLease) : prog opE outcome :=
  match validateSpec (lSpec l), sTarget (lSpec l) with
  | Err _, Some _ => stopAndRelease l
  | Err _, None =>
      u ← update_status (on_status (setCondition ConditionAcquired false "InvalidSpec" (lGeneration l)) l);
      mret (0, u.1)
  | Ok _, None => contend r l
  | Ok _, Some _ =>
    v ← verifyTarget (ManagedWorkloads r) (OperatorNamespace r) l;
    match v with
    | Ok _ => contend r l
    | Err _ =>
      if match stWorkload (lStatus l) with Some w => wPhase w == PhaseActive | None => false end
      then stopAndRelease l
      else
        s ← stopTarget l;
        u ← update_status (on_status (setCondition ConditionAcquired false "AdmissionRequired" (lGeneration l)) l);
        mret (Second, match s with Err e => Err e | Ok _ => u.1 end)
    end
  end.

Definition Reconcile (r : reconciler) (ns name : string) : prog opE outcome :=
  got ← trigger (OGetLease ns name);
  match got with
  | inl KNotFound => mret (0, Ok ())
  | inl e => mret (0, Err (of_kerr e))
  | inr l =>
    if negb (bool_decide (FinalizerName ∈ lFinalizers l)) then
      if bool_decide (is_Some (lDeletionTimestamp l)) then mret (0, Ok ())
      else
        u ← trigger (OUpdateLease (set_finalizers (lFinalizers l ++ [FinalizerName]) l));
        mret (0, of_kres u)
    else
      let l := on_status (set_observed (lGeneration l)) l in
      now ← trigger ONow;
      if must_stop r l now then stopAndRelease l else reconcile_live r l
  end.

(** ** The Pod and Job controllers *)

Definition stopping (l : BerthLease) : bool :=
  bool_decide (is_Some (lDeletionTimestamp l)) ||
  match stWorkload (lStatus l) with Some w => wPhase w == PhaseStopping | None => false end.

Definition reconcilePod (ns name : string) : prog opE outcome :=
  got ← trigger (OGetPod ns name);
  match got with
  | inl KNotFound => mret (0, Ok ())
  | inl e => mret (0, Err (of_kerr e))
  | inr pod =>
    let uid := lookup_str (pAnnotations pod) ManagedUID in
    if uid == "" then mret (0, Ok ())
    else
      got ← trigger (OGetLease (pNamespace pod) (lookup_str (pAnnotations pod) ManagedLease));
      match got with
      | inl KNotFound => r ← deletePodUID pod; mret (0, r)
      | inl e => mret (0, Err (of_kerr e))
      | inr l =>
        if lUID l != uid then r ← deletePodUID pod; mret (0, r)
        else if stopping l then r ← deletePodUID pod; mret (Second, r)
        else
          now ← trigger ONow;
          if negb (activeAt l now) then mret (Second, Ok ())
          else p ← permitPod l pod; mret (Second, p.1)
      end
  end.

Definition reconcileJob (ns name : string) : prog opE outcome :=
  got ← trigger (OGetJob ns name);
  match got with
  | inl KNotFound => mret (0, Ok ())
  | inl e => mret (0, Err (of_kerr e))
  | inr job =>
    let uid := lookup_str (jAnnotations job) ManagedUID in
    if uid == "" then mret (0, Ok ())
    else
      got ← trigger (OGetLease (jNamespace job) (lookup_str (jAnnotations job) ManagedLease));
      let remove :=
        s ← suspendJob job;
        match s with
        | Err e => mret (0, Err e)
        | Ok _ => d ← deleteJobUID job; mret (Second, d)
        end in
      match got with
      | inl KNotFound => remove
      | inl e => mret (0, Err (of_kerr e))
      | inr l => if (lUID l != uid) || stopping l then remove else mret (Second, Ok ())
      end
  end.
End control_loops.
Arguments opE U : clear implicits.
