(* ===== verification/ReconcilerSpec.v ===== *)
(** * What the control loops guarantee

    Every run of the operator's programs is a trace of requests with their
    answers, in which any answer is possible. The theorems say what must have
    happened before a workload is started, stopped or its lease given back. *)

From S2P Require Import Prelude GoStrings Store Manager Operator Reconciler.

Section spec.
Context {U : Type} `{Unstructured U}.

(** What a trace keeps of a request. *)
Inductive oev :=
| VLease (r : kerr + BerthLease)
| VStatus (l : BerthLease) (accepted : bool)
| VPods (r : kerr + list Pod)
| VJobs (r : kerr + list Job)
| VPatch (u : U)
| VUngate (p : Pod)
| VRelease (holder : string) (token : Z)
| VAcq (ttl : Z) (r : result AcquireResult)
| VTime (t : Z)
| VElse.

Definition accepted {A B} (r : A + B) : bool := match r with inr _ => true | inl _ => false end.

Definition op_ev (X : Type) (e : opE U X) : X → oev :=
  match e with
  | OGetLease _ _ => VLease
  | OUpdateStatus l => λ x, VStatus l (accepted x)
  | OPatchObj _ u => λ _, VPatch u
  | OListPods _ _ => VPods
  | OUpdatePod p => λ _, VUngate p
  | OListJobs _ _ => VJobs
  | OAcquire _ _ _ ttl _ => VAcq ttl
  | ORelease _ _ holder token => λ _, VRelease holder token
  | ONow => VTime
  | OListLeases _ | OUpdateLease _ | OGetObj _ _ _ _ | OGetPod _ _ | ODeletePod _ _
  | OGetJob _ _ | OUpdateJob _ | ODeleteJob _ _ => λ _, VElse
  end.

Definition phase_of (l : BerthLease) : string := from_option wPhase "" (stWorkload (lStatus l)).

(** The activation record [w] is backed by an answer of the central API: the
    call started after the clock read [started], and the recorded deadline is
    no later than a TTL from there and than the expiry the server announced. *)
Definition activated (pre : list oev) (w : WorkloadStatus) : Prop :=
  wPhase w = PhaseActive ∧
  ∃ p1 started p2 ttl res, pre = p1 ++ VTime started :: p2 ∧ VAcq ttl (Ok res) ∈ p2 ∧
    aAcquired res = true ∧ wToken w = aFencingToken res ∧ 0 < wToken w ∧ wHolder w = aHolder res ∧
    ∀ d, wDeadline w = Some d → d ≤ started + ttl ∧ d ≤ aExpiresAt res.

(** The record is in a status update the API server accepted. *)
Definition recorded (pre : list oev) (w : WorkloadStatus) : Prop :=
  ∃ l, VStatus l true ∈ pre ∧ stWorkload (lStatus l) = Some w ∧ activated pre w.

(** The object is what stopping a target makes of it. *)
Definition stop_write (u : U) : Prop :=
  ∃ t fence orig, mutate_target (stop_action t) fence orig = Ok (u, true).

(** Nothing the lease is responsible for can still be running. *)
Definition drained (pre : list oev) (l : BerthLease) : Prop :=
  (phase_of l = PhaseStopping ∨ ∃ l1, VStatus l1 true ∈ pre ∧ phase_of l1 = PhaseStopping) ∧
  VJobs (inr []) ∈ pre ∧
  ∃ ps, VPods (inr ps) ∈ pre ∧ ∀ p, p ∈ ps → responsible l p = true → terminal p = true.

Definition op_ok (pre : list oev) (v : oev) : Prop :=
  match v with
  | VUngate p => ∃ q w, p = without_gate q ∧ recorded pre w ∧ is_permitted q w = true
  | VPatch u => stop_write u ∨ ∃ w, recorded pre w
  | VRelease _ _ => ∀ l, VLease (inr l) ∈ pre → is_Some (sTarget (lSpec l)) → drained pre l
  | _ => True
  end.

Abbreviation owp := (wp op_ev op_ok).

Definition not_lease (v : oev) : bool := match v with VLease _ => false | _ => true end.

(** Later events, none of them another read of a lease. *)
Definition ext (pre pre' : list oev) : Prop :=
  ∃ tr, pre' = pre ++ tr ∧ Forall (λ v, not_lease v = true) tr.

Lemma ext_refl pre : ext pre pre.
Proof. exists []. by rewrite app_nil_r. Qed.

Lemma ext_trans a b c : ext a b → ext b c → ext a c.
Proof.
  intros (t1 & -> & H1) (t2 & -> & H2). exists (t1 ++ t2). rewrite app_assoc.
  split; [done|by apply Forall_app].
Qed.

Lemma ext_snoc a b v : ext a b → not_lease v = true → ext a (b ++ [v]).
Proof. intros ? ?. eapply ext_trans; [done|]. exists [v]. auto. Qed.

Lemma ext_elem pre pre' v : ext pre pre' → v ∈ pre → v ∈ pre'.
Proof. intros (tr & -> & _). set_solver. Qed.

Lemma ext_lease pre pre' r : ext pre pre' → VLease r ∈ pre' → VLease r ∈ pre.
Proof.
  intros (tr & -> & Htr) [?|Hin]%elem_of_app; [done|].
  by apply (proj1 (Forall_forall _ _) Htr) in Hin.
Qed.

Lemma activated_ext pre pre' w : ext pre pre' → activated pre w → activated pre' w.
Proof.
  intros (tr & -> & _) (Hp & p1 & s & p2 & ttl & res & -> & Hin & Hrest). split; [done|].
  exists p1, s, (p2 ++ tr), ttl, res. rewrite <- app_assoc. cbn. split_and!; [done|set_solver|..]; naive_solver.
Qed.

Lemma recorded_ext pre pre' w : ext pre pre' → recorded pre w → recorded pre' w.
Proof.
  intros He (l & Hl & Hw & Ha). exists l. split_and!; [by eapply ext_elem|done|by eapply activated_ext].
Qed.

Hint Resolve ext_refl ext_snoc recorded_ext : core.

(** Programs that only add events. *)
Abbreviation just_ext pre := (λ _ pre', ext pre pre').

Lemma wp_ext' {A} ok pre (p : prog (opE U) A) (Q Q' : A → list oev → Prop) :
  wp op_ev ok pre p Q → (∀ a pre', Q a pre' → Q' a pre') → wp op_ev ok pre p Q'.
Proof. intros Hp HQ. eapply wp_mono; [|exact Hp]. intros a tr. apply HQ. Qed.

Lemma wp_ext {A} pre (p : prog (opE U) A) (Q Q' : A → list oev → Prop) :
  owp pre p Q → (∀ a pre', Q a pre' → Q' a pre') → owp pre p Q'.
Proof. apply wp_ext'. Qed.

(** ** Targets *)

Lemma wp_patch ns ref action uid fence pre pre0 :
  ext pre0 pre →
  (∀ obj obj', mutate_target action fence obj = Ok (obj', true) → ∀ pre', ext pre pre' → op_ok pre' (VPatch obj')) →
  owp pre (applyFencedAction ns (Some ref) (Some action) uid fence) (just_ext pre0).
Proof.
  intros He Hok. unfold applyFencedAction. destruct (ParseGroupVersion (tAPIVersion ref)); [|done].
  intros got. split; [done|]. cbn.
  destruct got as [[]|obj]; cbn; eauto.
  destruct (_ && _); cbn; eauto.
  destruct (mutate_target action fence obj) as [[obj' []]|e] eqn:E; cbn; eauto.
  intros x. split; [|eauto]. apply (Hok obj obj' E). eauto.
Qed.

Lemma wp_stopTarget l pre pre0 : ext pre0 pre → owp pre (stopTarget l) (just_ext pre0).
Proof.
  intros He. unfold stopTarget. destruct (sTarget (lSpec l)) as [t|]; [|done].
  intros got. split; [done|]. destruct got as [[]|obj]; cbn; eauto.
  destruct (match stWorkload (lStatus l) with Some _ => _ | None => _ end); cbn; eauto.
  apply wp_patch; [eauto|]. intros o o' E pre' _. left. by exists t, (lResourceVersion l), o.
Qed.

(** ** Draining *)

Lemma wp_delete_pod {A} p (k : result unit → prog (opE U) A) pre Q :
  (∀ r, owp (pre ++ [VElse]) (k r) Q) → (∀ e, owp pre (k (Err e)) Q) →
  owp pre (deletePodUID p ≫= k) Q.
Proof.
  intros Hk He. unfold deletePodUID. destruct (pUID p == ""); [apply He|].
  intros x. split; [done|]. apply Hk.
Qed.

Lemma wp_drain_loop l ps done pre pre0 :
  ext pre0 pre →
  owp pre (drain_loop l ps done) (λ r pre', ext pre0 pre' ∧
    (r = Ok true → done = true ∧ ∀ p, p ∈ ps → responsible l p = true → terminal p = true)).
Proof.
  revert done pre. induction ps as [|p ps IH]; intros done pre He; cbn [drain_loop].
  { split; [done|]. intros [= ->]. split; [done|]. intros p Hp. by apply elem_of_nil in Hp. }
  assert (∀ d pre1, ext pre0 pre1 → (d = true → done = true ∧ (responsible l p = true → terminal p = true)) →
    owp pre1 (drain_loop l ps d) (λ r pre', ext pre0 pre' ∧
      (r = Ok true → done = true ∧ ∀ q, q ∈ p :: ps → responsible l q = true → terminal q = true))) as Hrest.
  { intros d pre1 He1 Hd. eapply wp_ext; [by apply IH|]. intros r pre' [? Hr]. split; [done|].
    intros [Hdone Hps]%Hr. destruct (Hd Hdone) as [? Hp]. split; [done|].
    intros q [->|Hq]%elem_of_cons; auto. }
  destruct (responsible l p) eqn:Hresp; cbn [negb]; [|apply Hrest; [done|split; congruence]].
  destruct (pDeletionTimestamp p); [apply Hrest; [done|intros []%andb_prop; auto]|].
  apply wp_delete_pod; [|split; [done|congruence]].
  intros [[]|e]; [|cbn; split; [eauto|congruence]].
  apply Hrest; [eauto|intros []%andb_prop; auto].
Qed.

Lemma wp_drainPods l pre pre0 :
  ext pre0 pre →
  owp pre (drainPods l) (λ r pre', ext pre0 pre' ∧
    (r = Ok true → ∃ ps, VPods (inr ps) ∈ pre' ∧
       ∀ p, p ∈ ps → responsible l p = true → terminal p = true)).
Proof.
  intros He got. split; [done|]. destruct got as [e|ps]; [by split; [cbn; eauto|]|].
  eapply wp_mono; [|apply (wp_drain_loop l ps true (pre ++ [VPods (inr ps)]) pre0); eauto].
  intros r tr [? Hr]. split; [done|]. intros [_ Hps]%Hr. exists ps. split; [set_solver|done].
Qed.

Lemma wp_drain_jobs_loop js pre pre0 : ext pre0 pre → owp pre (drain_jobs_loop js) (just_ext pre0).
Proof.
  revert pre. induction js as [|j js IH]; intros pre He; cbn [drain_jobs_loop]; [done|].
  destruct (jDeletionTimestamp j); [by apply IH|].
  assert (∀ pre1, ext pre0 pre1 → owp pre1 (deleteJobUID j ≫= λ d,
    match d with Err e => mret (Err e) | Ok _ => drain_jobs_loop js end) (just_ext pre0)) as Hdel.
  { intros pre1 He1. unfold deleteJobUID. destruct (jUID j == ""); [done|].
    intros x. split; [done|]. cbn. destruct (IgnoreNotFound x); [apply IH|cbn]; eauto. }
  unfold suspendJob. case_bool_decide; [by apply Hdel|].
  intros x. split; [done|]. cbn. destruct (of_kres x); [apply Hdel|cbn]; eauto.
Qed.

Lemma wp_drainJobs l pre pre0 :
  ext pre0 pre →
  owp pre (drainJobs l) (λ r pre', ext pre0 pre' ∧ (r = Ok true → VJobs (inr []) ∈ pre')).
Proof.
  intros He got. split; [done|]. destruct got as [e|js]; [by split; [cbn; eauto|]|].
  apply wp_bind. eapply wp_mono; [|apply (wp_drain_jobs_loop js (pre ++ [VJobs (inr js)]) pre0); eauto].
  intros r tr He'. cbn. split; [done|]. destruct r; [|done].
  intros [= ->%bool_decide_eq_true_1]. set_solver.
Qed.

Lemma wp_drain l pre pre0 :
  ext pre0 pre →
  owp pre (drain l) (λ r pre', ext pre0 pre' ∧
    (r = Ok true → VJobs (inr []) ∈ pre' ∧ ∃ ps, VPods (inr ps) ∈ pre' ∧
       ∀ p, p ∈ ps → responsible l p = true → terminal p = true)).
Proof.
  intros He. unfold drain. apply wp_bind. eapply wp_ext; [by apply (wp_stopTarget l pre pre0)|].
  intros s pre1 He1. destruct s as [[]|e]; [|by split].
  apply wp_bind. eapply wp_ext; [by apply (wp_drainJobs l pre1 pre0)|].
  intros j pre2 [He2 Hj]. destruct j as [jd|e]; [|by split].
  apply wp_bind. eapply wp_mono; [|by apply (wp_drainPods l pre2 pre2)].
  intros pd tr [He3 Hp]. cbn. split; [by eapply ext_trans|]. destruct pd as [pd|e]; [|done].
  intros [= [-> ->]%andb_prop]. split; [|by apply Hp]. eapply ext_elem; [done|]. by apply Hj.
Qed.

(** ** Stopping *)

(** The lease in hand is the one that was read, as far as cleanup looks. *)
Definition in_hand (pre : list oev) (l : BerthLease) : Prop :=
  ∀ l0, VLease (inr l0) ∈ pre →
    lSpec l0 = lSpec l ∧ lUID l0 = lUID l ∧ stWorkload (lStatus l0) = stWorkload (lStatus l).

Lemma in_hand_ext pre pre' l : ext pre pre' → in_hand pre l → in_hand pre' l.
Proof. intros He Hl l0 H0. eapply Hl, ext_lease; eauto. Qed.

Lemma responsible_pods l l' p :
  lUID l = lUID l' → registered l = registered l' → responsible l p = responsible l' p.
Proof. intros E1 E2. unfold responsible. by rewrite E1, E2. Qed.

Lemma wp_update_status {A} l (k : result unit * BerthLease → prog (opE U) A) pre Q :
  (∀ rv, owp (pre ++ [VStatus l true]) (k (Ok (), set_rv rv l)) Q) →
  (∀ e, owp (pre ++ [VStatus l false]) (k (Err e, l)) Q) →
  owp pre (update_status l ≫= k) Q.
Proof. intros Ho He x. split; [done|]. destruct x as [e|rv]; [apply He|apply Ho]. Qed.

(** Either the phase was already Stopping, or it was persisted as such. *)
Definition closed (pre : list oev) (l : BerthLease) : Prop :=
  phase_of l = PhaseStopping ∨ ∃ l1, VStatus l1 true ∈ pre ∧ phase_of l1 = PhaseStopping.

Lemma wp_close_activation {A} l (k : result unit * BerthLease → prog (opE U) A) pre Q :
  (∀ l' pre', ext pre pre' → closed pre' l → lUID l' = lUID l → registered l' = registered l →
     lSpec l' = lSpec l → owp pre' (k (Ok (), l')) Q) →
  (∀ e l' pre', ext pre pre' → owp pre' (k (Err e, l')) Q) →
  owp pre (close_activation l ≫= k) Q.
Proof.
  intros Ho He. unfold close_activation.
  set (w := match stWorkload (lStatus l) with Some w => w | None => _ end).
  assert (∀ ph, foldl (λ m p, <[ppName p := ppUID p]> m) ∅ (wPods (set_phase ph w)) = registered l) as Hreg.
  { intros ph. unfold registered, w. by destruct (stWorkload (lStatus l)). }
  case_bool_decide as Hph.
  - apply Ho; try done; [|apply (Hreg "")]. left. unfold phase_of. unfold w in Hph.
    by destruct (stWorkload (lStatus l)).
  - apply wp_update_status; [|eauto]. intros rv. apply Ho; try done; [eauto| |apply (Hreg PhaseStopping)].
    right. eexists. split; [apply elem_of_app; right; by apply list_elem_of_here|done].
Qed.

Lemma wp_release_and_clear l pre pre0 :
  ext pre0 pre → op_ok pre (VRelease "" 0) → owp pre (release_and_clear l) (just_ext pre0).
Proof.
  intros He Hok. unfold release_and_clear. destruct (release_identity l) as [[holder token] name].
  assert (∀ err pre1, ext pre0 pre1 → owp pre1 (
    if match err with Ok _ => false | Err e => negb (errors_Is e ErrConflict) end then mret (Second, err)
    else if bool_decide (is_Some (lDeletionTimestamp l)) then
      r ← trigger (OUpdateLease (set_finalizers (filter (λ f, f ≠ FinalizerName) (lFinalizers l)) l));
      mret (0, of_kres r)
    else r ← update_status (on_status (λ st, stopped_status st (lGeneration l)) l);
      mret (Second, r.1)) (just_ext pre0)) as Hrest.
  { intros err pre1 He1. destruct (match err with Ok _ => false | Err e => _ end); [done|].
    case_bool_decide; [intros x; split; [done|]; cbn; eauto|]. apply wp_update_status; intros; cbn; eauto. }
  destruct (_ && _); [|by apply (Hrest (Ok ()))]. intros x. split; [exact Hok|]. apply (Hrest x). by apply ext_snoc.
Qed.

Lemma wp_stopAndRelease l pre pre0 :
  ext pre0 pre → in_hand pre l → owp pre (stopAndRelease l) (just_ext pre0).
Proof.
  intros He Hl. unfold stopAndRelease. destruct (sTarget (lSpec l)) as [t|] eqn:Et.
  2:{ apply wp_release_and_clear; [done|]. intros l0 H0 [t Ht]. destruct (Hl _ H0) as [E _]. congruence. }
  apply wp_close_activation; [|intros; cbn; by eapply ext_trans].
  intros l' pre1 He1 Hc HU HR HS. apply wp_bind. eapply wp_ext; [by apply (wp_drain l' pre1 pre1)|].
  intros d pre2 [He2 Hd]. assert (ext pre0 pre2) by eauto using ext_trans.
  destruct d as [[]|e]; [|done..]. destruct (Hd eq_refl) as (Hj & ps & Hps & Hterm).
  apply wp_release_and_clear; [done|]. intros l0 Hl0 _.
  destruct (Hl l0) as (E1 & E2 & E3); [by eapply ext_lease; [|exact Hl0]; eapply ext_trans|].
  split_and!; [|done|].
  - destruct Hc as [Hc|(l1 & Hl1 & Hp1)].
    + left. unfold phase_of in *. by rewrite E3.
    + right. exists l1. split; [by apply (ext_elem pre1)|done].
  - exists ps. split; [done|]. intros p Hp Hr. apply (Hterm p Hp). rewrite <- Hr. apply responsible_pods; [congruence|].
    rewrite HR. unfold registered. by rewrite E3.
Qed.

(** ** Permitting *)

(** Resolving an owner chain only reads; any rule for events allows it. *)
Lemma wp_resolveBinding ok n v pre pre0 :
  (∀ pre, ok pre VElse) → ext pre0 pre → wp op_ev ok pre (resolveBinding n v) (just_ext pre0).
Proof.
  intros Hok. revert v pre. induction n as [|n IH]; intros v pre He; cbn [resolveBinding]; [done|].
  assert (wp op_ev ok pre (resolve_root v) (just_ext pre0)) as Hroot.
  { unfold resolve_root. destruct (_ && _); [|done]. intros x. split; [apply Hok|]. destruct x; cbn; eauto. }
  destruct (List.find _ _) as [o|]; [|done]. destruct (negb _); [done|].
  apply wp_op. intros x. split; [apply Hok|]. destruct x as [e|parent]; [cbn; eauto|].
  case_bool_decide; [apply IH|cbn]; eauto.
Qed.

Lemma wp_remove_gate p l w pre pre0 :
  ext pre0 pre → recorded pre w → is_permitted p w = true →
  owp pre (remove_gate p l) (λ r pre', ext pre0 pre' ∧ ext pre pre' ∧ r.2 = l).
Proof.
  intros He Hw Hp. unfold remove_gate. destruct (hasGate p); [|by cbn; eauto].
  intros x. split; [by exists p, w|]. cbn. eauto 10.
Qed.

Lemma activated_pods pre w ps : activated pre w → activated pre (set_pods ps w).
Proof. done. Qed.

(** The lease in hand carries a recorded activation. *)
Definition owned (pre : list oev) (l : BerthLease) : Prop :=
  ∃ w, stWorkload (lStatus l) = Some w ∧ recorded pre w.

Lemma owned_ext pre pre' l : ext pre pre' → owned pre l → owned pre' l.
Proof. intros He (w & Hw & Hr). exists w. eauto. Qed.

Lemma is_permitted_snoc p w :
  is_permitted p (set_pods (wPods w ++ [MkPermitted (pName p) (pUID p)]) w) = true.
Proof.
  unfold is_permitted. cbn. rewrite existsb_app. cbn. rewrite !bool_decide_true by done.
  by rewrite orb_true_r.
Qed.

Lemma wp_register_pod p w l pre pre0 :
  ext pre0 pre → stWorkload (lStatus l) = Some w → recorded pre w →
  owp pre (register_pod p w l) (λ r pre', ext pre0 pre' ∧ (r.1 = Ok () → owned pre' r.2)).
Proof.
  intros He Hl Hw. unfold register_pod. destruct (is_permitted p w) eqn:Hp.
  { eapply wp_ext; [by apply (wp_remove_gate p l w pre pre0)|]. intros r pre' (? & ? & ->).
    split; [done|]. intros _. exists w. eauto. }
  destruct (hasGate p); [|by split]. destruct (_ >=? _); [by split|].
  set (w' := set_pods _ w). set (l' := on_status _ l).
  apply wp_update_status; [|intros e; cbn; split; [eauto|done]]. intros rv.
  assert (recorded (pre ++ [VStatus l' true]) w') as Hw'.
  { exists l'. split_and!; [set_solver|done|]. apply activated_pods.
    destruct Hw as (l1 & _ & _ & Ha). eapply activated_ext; [|done]. eauto. }
  eapply wp_ext; [apply (wp_remove_gate p (set_rv rv l') w' _ pre0); [eauto|done|apply is_permitted_snoc]|].
  intros r pre' (? & ? & ->). split; [done|]. intros _. exists w'. eauto.
Qed.

Lemma wp_permitPod l p pre pre0 :
  ext pre0 pre → owned pre l →
  owp pre (permitPod l p) (λ r pre', ext pre0 pre' ∧ (r.1 = Ok () → owned pre' r.2)).
Proof.
  intros He Hl. apply wp_op. intros now. split; [done|]. cbn [op_ev]. set (pre1 := pre ++ [VTime now]).
  assert (ext pre pre1) as He1 by by apply ext_snoc. assert (ext pre0 pre1) by by eapply ext_trans.
  apply (owned_ext _ _ _ He1) in Hl. destruct (_ || _); [by split|]. destruct (_ || _); [by split|].
  apply wp_bind. eapply wp_ext; [by apply (wp_resolveBinding op_ok 5 _ pre1 pre1)|].
  intros root pre2 He2. apply (owned_ext _ _ _ He2) in Hl. assert (ext pre0 pre2) by by eapply ext_trans.
  destruct root as [root|e]; [|by split]. destruct Hl as (w & Hw & Hr). rewrite Hw.
  destruct (_ || _); [by split|]. by apply wp_register_pod.
Qed.

Lemma wp_permit_loop l ps pre pre0 :
  ext pre0 pre → owned pre l → owp pre (permit_loop l ps) (just_ext pre0).
Proof.
  revert l pre. induction ps as [|p ps IH]; intros l pre He Hl; cbn [permit_loop]; [done|].
  apply wp_bind. eapply wp_ext; [by apply (wp_permitPod l p pre pre0)|].
  intros [[[]|e] l'] pre' [? Hr]; [apply IH; auto|done].
Qed.

Lemma wp_permitPods l pre pre0 : ext pre0 pre → owned pre l → owp pre (permitPods l) (just_ext pre0).
Proof.
  intros He Hl. apply wp_op. intros got. split; [done|]. destruct got as [e|ps]; [cbn; eauto|].
  apply wp_permit_loop; [eauto|]. eapply owned_ext; [|done]. by apply ext_snoc.
Qed.

(** ** Reconcile *)

(** The central API answered an Acquire that started after [started]. *)
Definition answered (pre : list oev) (started ttl : Z) (res : AcquireResult) : Prop :=
  aAcquired res = true ∧ ∃ p1 p2, pre = p1 ++ VTime started :: p2 ∧ VAcq ttl (Ok res) ∈ p2.

Lemma answered_ext pre pre' started ttl res :
  ext pre pre' → answered pre started ttl res → answered pre' started ttl res.
Proof.
  intros (tr & -> & _) (? & p1 & p2 & -> & Hin). split; [done|]. exists p1, (p2 ++ tr).
  rewrite <- app_assoc. split; [done|set_solver].
Qed.

Lemma minTime_le a b : minTime a b ≤ a ∧ minTime a b ≤ b.
Proof. unfold minTime, Before. destruct (Z.ltb_spec a b); lia. Qed.

Lemma activated_new pre started ttl res w :
  answered pre started ttl res → 0 < aFencingToken res → wPhase w = PhaseActive →
  wToken w = aFencingToken res → wHolder w = aHolder res →
  wDeadline w = timePtr (Truncate (minTime (started + ttl) (aExpiresAt res)) Second) →
  activated pre w.
Proof.
  intros (Hacq & p1 & p2 & -> & Hin) Htok Hph Hwt Hwh Hd. split; [done|].
  exists p1, started, p2, ttl, res. split_and!; [done..|lia|done|].
  intros d. rewrite Hd. unfold timePtr. destruct (IsZero _); [done|]. intros [= <-].
  pose proof (Truncate_bounds (minTime (started + ttl) (aExpiresAt res)) Second eq_refl).
  pose proof (minTime_le (started + ttl) (aExpiresAt res)). lia.
Qed.

Lemma wp_requeue heartbeat deadline pre pre0 :
  ext pre0 pre → owp pre (requeue_until heartbeat deadline) (just_ext pre0).
Proof. intros He. apply wp_op. intros x. split; [done|]. cbn. eauto. Qed.

Lemma wp_activate l heartbeat deadline pre pre0 :
  ext pre0 pre → (is_Some (sTarget (lSpec l)) → owned pre l) →
  owp pre (activate l heartbeat deadline) (just_ext pre0).
Proof.
  intros He Ho. unfold activate. destruct (sTarget (lSpec l)) as [t|]; [|by apply wp_requeue].
  destruct Ho as (w & Hw & Hrec); [done|]. apply wp_bind.
  eapply (wp_ext _ _ (just_ext pre)).
  - unfold applyActionForUID. destruct (sAcquireAction (lSpec l)) as [action|]; [|apply ext_refl].
    apply wp_patch; [done|]. intros o o' _ pre' He'. right. exists w. eauto.
  - intros [[]|e] pre1 He1; [|by eapply ext_trans]. assert (ext pre0 pre1) by by eapply ext_trans.
    apply wp_bind. eapply wp_ext; [apply (wp_permitPods l pre1 pre0); [done|exists w; eauto]|].
    intros [[[]|e] l'] pre2 ?; [by apply wp_requeue|done].
Qed.

Lemma wp_hold_lease l res heartbeat deadline pre pre0 :
  ext pre0 pre → (is_Some (sTarget (lSpec l)) → ∃ w, stWorkload (lStatus l) = Some w ∧ activated pre w) →
  owp pre (hold_lease l res heartbeat deadline) (just_ext pre0).
Proof.
  intros He Ha. apply wp_op. intros now. split; [done|]. cbn [op_ev]. set (pre1 := pre ++ [VTime now]).
  assert (ext pre pre1) as He1 by by apply ext_snoc. assert (ext pre0 pre1) by by eapply ext_trans.
  set (l1 := set_status _ l). apply wp_update_status; [|intros e; cbn; eauto].
  intros rv. apply wp_activate; [eauto|]. intros Ht. destruct (Ha Ht) as (w & Hw & Hact).
  exists w. split; [done|]. exists l1. split_and!; [set_solver|done|].
  eapply activated_ext; [|exact Hact]. eauto.
Qed.

Lemma in_hand_snoc pre l v : not_lease v = true → in_hand pre l → in_hand (pre ++ [v]) l.
Proof. intros ?. apply in_hand_ext. eauto. Qed.

Hint Resolve in_hand_snoc answered_ext : core.

Lemma wp_pruneCompleted {A} l (k : result BerthLease → prog (opE U) A) pre Q w :
  stWorkload (lStatus l) = Some w →
  (∀ ps pre' l', ext pre pre' → lSpec l' = lSpec l → stWorkload (lStatus l') = Some (set_pods ps w) →
     owp pre' (k (Ok l')) Q) →
  (∀ e pre', ext pre pre' → owp pre' (k (Err e)) Q) →
  owp pre (pruneCompleted l ≫= k) Q.
Proof.
  intros Hw Ho He. unfold pruneCompleted. rewrite Hw. case_bool_decide.
  - apply (Ho (wPods w)); [done|done|]. rewrite Hw. by destruct w.
  - apply wp_op. intros x. split; [done|]. destruct x as [e|ps]; [apply He; eauto|].
    eapply Ho; eauto.
Qed.

Lemma wp_on_acquired r l res started heartbeat ttl pre pre0 :
  ext pre0 pre → in_hand pre l → answered pre started ttl res →
  (is_Some (sTarget (lSpec l)) → is_Some (stWorkload (lStatus l))) →
  owp pre (on_acquired r l res started heartbeat ttl) (just_ext pre0).
Proof.
  intros He Hl Hans Hwl. apply wp_op. intros now. split; [done|].
  destruct (_ || _) eqn:E1; [cbn; eauto|]. apply wp_op. intros now'. split; [done|]. cbn [op_ev].
  set (pre2 := (pre ++ [VTime now]) ++ [VTime now']). assert (ext pre pre2) as He2 by (unfold pre2; eauto).
  assert (ext pre0 pre2) by by eapply ext_trans. apply (in_hand_ext _ _ _ He2) in Hl.
  apply (answered_ext _ _ _ _ _ He2) in Hans. bool_simp.
  destruct (Before now' _); cbn [negb]; [|by apply wp_stopAndRelease].
  destruct (sTarget (lSpec l)) as [t|] eqn:Et.
  2:{ apply wp_hold_lease; [done|]. rewrite Et. by intros []. }
  destruct Hwl as [w Hw]; [done|]. rewrite Hw. destruct (_ && _); [by apply wp_stopAndRelease|].
  set (w' := MkWorkload _ _ _ _ _ _ _). apply (wp_pruneCompleted _ _ _ _ w'); [done| |].
  - intros ps pre' l' He' HS Hw'. apply wp_hold_lease; [by eapply ext_trans|]. intros _.
    exists (set_pods ps w'). split; [done|]. apply activated_pods.
    eapply activated_ext; [done|]. eapply activated_new; [done|lia|done..].
  - intros e pre' He'. cbn. by eapply ext_trans.
Qed.

Lemma wp_acquire_failed l heartbeat pre pre0 :
  ext pre0 pre → in_hand pre l → owp pre (acquire_failed l heartbeat) (just_ext pre0).
Proof.
  intros He Hl. apply wp_op. intros now. split; [done|].
  destruct (_ && _); [apply wp_stopAndRelease; cbn; eauto|].
  apply wp_op. intros now2. split; [done|].
  destruct (_ && _); [apply wp_stopAndRelease; cbn; eauto|].
  apply wp_op. intros now3. split; [done|]. cbn [op_ev]. apply wp_bind.
  assert (∀ (x : Z) pre', ext pre0 pre' → owp pre' (u ← update_status (on_status
    (setCondition ConditionHeartbeatHealthy false "AcquireFailed" (lGeneration l)) l); mret (x, u.1))
    (just_ext pre0)) as Hend.
  { intros x pre' He'. apply wp_update_status; intros; cbn; eauto. }
  destruct (activeAt l now3); [destruct (stWorkload (lStatus l))|]; [|apply Hend; eauto..].
  apply wp_op. intros x. split; [done|]. apply Hend. cbn. eauto.
Qed.

Lemma wp_contend r l pre pre0 :
  ext pre0 pre → in_hand pre l →
  (is_Some (sTarget (lSpec l)) → is_Some (stWorkload (lStatus l))) →
  owp pre (contend r l) (just_ext pre0).
Proof.
  intros He Hl Hwl. apply wp_op. intros started. split; [done|]. cbn [op_ev]. apply wp_bind.
  set (ttl := wrap64 (sTTLSeconds (lSpec l) * Second)).
  eapply (wp_ext _ _ (λ _ pre', ∃ p2, pre' = pre ++ VTime started :: p2 ∧ ext pre pre')).
  { destruct (activeAt l started).
    - apply wp_op. intros now. split; [done|]. exists [VTime now]. rewrite <- app_assoc. split; [done|].
      rewrite app_assoc. eauto.
    - exists []. split; [done|eauto]. }
  intros budget pre1 (p2 & -> & He1). apply wp_op. intros got. split; [done|]. cbn [op_ev].
  set (pre2 := (pre ++ VTime started :: p2) ++ [VAcq ttl got]).
  assert (ext pre pre2) as He2 by (unfold pre2; eauto). assert (ext pre0 pre2) by by eapply ext_trans.
  apply (in_hand_ext _ _ _ He2) in Hl.
  destruct got as [res|e]; [|apply wp_acquire_failed; eauto]. destruct (aAcquired res) eqn:Hacq; cbn [negb].
  - apply wp_on_acquired; try done. split; [done|]. exists pre, (p2 ++ [VAcq ttl (Ok res)]).
    unfold pre2. rewrite <- app_assoc. split; [done|set_solver].
  - destruct (sTarget (lSpec l)); [by apply wp_stopAndRelease|].
    apply wp_update_status; intros; cbn; eauto.
Qed.

Lemma wp_verifyTarget {A} m ns l (k : result unit → prog (opE U) A) pre Q :
  (∀ pre', ext pre pre' → is_Some (stWorkload (lStatus l)) → owp pre' (k (Ok ())) Q) →
  (∀ e pre', ext pre pre' → owp pre' (k (Err e)) Q) →
  owp pre (verifyTarget m ns l ≫= k) Q.
Proof.
  intros Ho He. unfold verifyTarget. destruct (_ && _); [by apply He|]. destruct (negb m); [by apply He|].
  destruct (stWorkload (lStatus l)) as [w|]; [|by apply He]. destruct (sTarget (lSpec l)); [|by apply He].
  destruct (wTargetUID w == ""); [by apply He|]. apply wp_op. intros x. split; [done|].
  destruct x as [e|obj]; [apply He; eauto|]. cbn [op_ev]. destruct (_ || _); [apply He|apply Ho]; eauto.
Qed.

Lemma wp_reconcile_live r l pre pre0 :
  ext pre0 pre → in_hand pre l → owp pre (reconcile_live r l) (just_ext pre0).
Proof.
  intros He Hl. unfold reconcile_live. destruct (validateSpec (lSpec l)) as [[]|e].
  - destruct (sTarget (lSpec l)) as [t|] eqn:Et.
    2:{ apply wp_contend; [done|done|]. rewrite Et. by intros []. }
    apply wp_verifyTarget.
    + intros pre1 He1 Hw. apply wp_contend; [by eapply ext_trans|by apply (in_hand_ext pre)|done].
    + intros e pre1 He1. assert (ext pre0 pre1) by by eapply ext_trans.
      destruct (match stWorkload (lStatus l) with Some _ => _ | None => _ end);
        [apply wp_stopAndRelease; [done|by apply (in_hand_ext pre)]|].
      apply wp_bind. eapply wp_ext; [by apply (wp_stopTarget l pre1 pre0)|].
      intros s pre2 He2. apply wp_update_status; intros; cbn; eauto.
  - destruct (sTarget (lSpec l)); [by apply wp_stopAndRelease|].
    apply wp_update_status; intros; cbn; eauto.
Qed.

Lemma wp_Reconcile r ns name : owp [] (Reconcile r ns name) (λ _ _, True).
Proof.
  apply wp_op. intros got. split; [done|]. cbn [op_ev app]. destruct got as [[]|l]; try done.
  destruct (negb _).
  { case_bool_decide; [done|]. apply wp_op. intros u. by split. }
  apply wp_op. intros now. split; [done|]. cbn [op_ev app].
  set (l' := on_status _ l). set (pre := [_; _]).
  assert (in_hand pre l') as Hl.
  { intros l0 Hin. unfold pre in Hin. apply elem_of_cons in Hin as [[= ->]|Hin]; [done|].
    by apply list_elem_of_singleton in Hin. }
  destruct (must_stop r l' now).
  - eapply wp_ext; [by apply (wp_stopAndRelease l' pre pre)|done].
  - eapply wp_ext; [by apply (wp_reconcile_live r l' pre pre)|done].
Qed.

Lemma Reconcile_ok r ns name tr out pre v post :
  traces op_ev (Reconcile r ns name) tr out → tr = pre ++ v :: post → op_ok pre v.
Proof.
  intros Htr E. destruct (wp_sound _ _ _ _ _ _ _ (wp_Reconcile r ns name) Htr) as [Hall _].
  by apply (Hall pre v post).
Qed.

(** ** The Pod controller *)

(** A Pod is let go only under a lease that was active when read, and only
    once it is among the lease's registered Pods: in the object as read, or in
    an accepted update; no update registers more Pods than the limit. *)
Definition pod_ok (pre : list oev) (v : oev) : Prop :=
  match v with
  | VUngate p => ∃ l now q, VLease (inr l) ∈ pre ∧ VTime now ∈ pre ∧ activeAt l now = true ∧
      p = without_gate q ∧
      ((∃ w, stWorkload (lStatus l) = Some w ∧ is_permitted q w = true) ∨
       (∃ l' w, VStatus l' true ∈ pre ∧ stWorkload (lStatus l') = Some w ∧ is_permitted q w = true))
  | VStatus l _ => ∀ w, stWorkload (lStatus l) = Some w → Z.of_nat (length (wPods w)) ≤ maxPermittedPods
  | VPatch _ | VRelease _ _ | VAcq _ _ => False
  | _ => True
  end.

Abbreviation pwp := (wp op_ev pod_ok).

Lemma pwp_remove_gate p l pre :
  pod_ok pre (VUngate (without_gate p)) → pwp pre (remove_gate p l) (λ _ _, True).
Proof. intros Hok. unfold remove_gate. destruct (hasGate p); [|done]. intros x. by split. Qed.

Lemma pwp_permitPod l p pre :
  VLease (inr l) ∈ pre → pwp pre (permitPod l p) (λ _ _, True).
Proof.
  intros Hl. apply wp_op. intros now. split; [done|]. cbn [op_ev].
  destruct (activeAt l now) eqn:E1; cbn [negb orb]; [|done].
  destruct (_ || _); [done|]. destruct (_ || _); [done|].
  assert (VTime now ∈ pre ++ [VTime now]) as Hnow by set_solver.
  apply wp_bind. eapply wp_ext'; [apply (wp_resolveBinding pod_ok 5 _ (pre ++ [VTime now]) (pre ++ [VTime now])); [done|eauto]|].
  intros root pre1 He. assert (VLease (inr l) ∈ pre1).
  { apply (ext_elem (pre ++ [VTime now])); [exact He|apply elem_of_app; by left]. }
  assert (VTime now ∈ pre1) by (apply (ext_elem (pre ++ [VTime now])); [exact He|done]).
  destruct root as [root|e]; [|done]. destruct (stWorkload (lStatus l)) as [w|] eqn:Hw; [|done].
  destruct (_ || _); [done|]. unfold register_pod. destruct (is_permitted p w) eqn:Hp.
  { apply pwp_remove_gate. exists l, now, p. split_and!; eauto. }
  destruct (hasGate p); [|done]. destruct (Z.geb_spec (Z.of_nat (length (wPods w))) maxPermittedPods); [done|].
  cbn [negb]. set (w' := set_pods _ w). set (l' := on_status _ l). intros x. split.
  { intros w2 [= <-]. cbn. rewrite length_app. cbn. lia. }
  destruct x as [e|rv]; [done|]. apply pwp_remove_gate. exists l, now, p. cbn.
  split_and!; [set_solver|set_solver|done|done|]. right. exists l', w'.
  split_and!; [set_solver|done|apply is_permitted_snoc].
Qed.

Lemma pwp_reconcilePod ns name : pwp [] (reconcilePod ns name) (λ _ _, True).
Proof.
  assert (∀ pod (d : Z) pre, pwp pre (r ← deletePodUID pod; mret (d, r)) (λ _ _, True)) as Hdel.
  { intros pod d pre. unfold deletePodUID. destruct (pUID pod == ""); [done|]. intros x. by split. }
  apply wp_op. intros got. split; [done|]. destruct got as [[]|pod]; try done.
  cbv zeta. destruct (lookup_str (pAnnotations pod) ManagedUID == ""); [done|]. apply wp_op. intros gl. split; [done|].
  destruct gl as [[]|l]; [apply Hdel|done..|]. cbn [op_ev app].
  destruct (lUID l != _); [apply Hdel|]. destruct (stopping l); [apply Hdel|].
  apply wp_op. intros now. split; [done|]. destruct (negb _); [done|].
  apply wp_bind. eapply wp_ext'; [apply pwp_permitPod; set_solver|done].
Qed.
End spec.
