(* ===== verification/Json.v ===== *)
(** * JSON values

    JSON documents as trees, and the accessors of the operator's [Unstructured]
    interface on them: a concrete object type for which the interface's laws
    hold, used wherever the development runs on a concrete object. *)

From S2P Require Import Prelude GoStrings Operator.

Inductive json :=
| JNull
| JBool (b : bool)
| JNum (z : Z)
| JStr (s : string)
| JArr (l : list json)
| JObj (m : list (string * json)).

Fixpoint assoc_get {A} (k : string) (m : list (string * A)) : option A :=
  match m with
  | [] => None
  | (k', v) :: m => if k' == k then Some v else assoc_get k m
  end.

Fixpoint assoc_set {A} (k : string) (v : A) (m : list (string * A)) : list (string * A) :=
  match m with
  | [] => [(k, v)]
  | (k', v') :: m => if k' == k then (k', v) :: m else (k', v') :: assoc_set k v m
  end.

Lemma assoc_get_set {A} k k' (v : A) m :
  assoc_get k (assoc_set k' v m) = if bool_decide (k' = k) then Some v else assoc_get k m.
Proof.
  induction m as [|[k0 v0] m IH]; cbn; [done|]. destruct (k0 == k') eqn:E1; cbn.
  - apply bool_decide_eq_true_1 in E1 as ->. by destruct (k' == k) eqn:E2.
  - rewrite IH. destruct (k0 == k) eqn:E2; [|done].
    apply bool_decide_eq_true_1 in E2 as ->. apply bool_decide_eq_false_1 in E1.
    by rewrite bool_decide_false.
Qed.

(** Follow a path: the value there, nothing, or an error when the path runs
    through something that is not an object. *)
Fixpoint jget (o : json) (path : list string) : result (option json) :=
  match path with
  | [] => Ok (Some o)
  | k :: path =>
    match o with
    | JNull => Ok None
    | JObj m => match assoc_get k m with Some v => jget v path | None => Ok None end
    | _ => Err (ErrMsg "accessor error: not a map")
    end
  end.

Fixpoint jset (o : json) (v : json) (path : list string) : result json :=
  match path with
  | [] => Ok v
  | k :: path =>
    match o with
    | JObj m => o' ← jset (default (JObj []) (assoc_get k m)) v path; Ok (JObj (assoc_set k o' m))
    | _ => Err (ErrMsg "value cannot be set: not a map")
    end
  end.

Definition typed {A} (f : json → option A) (r : result (option json)) : result (option A) :=
  match r with
  | Err e => Err e
  | Ok None => Ok None
  | Ok (Some v) => match f v with Some a => Ok (Some a) | None => Err (ErrMsg "accessor error: wrong type") end
  end.

Definition as_bool (v : json) : option bool := match v with JBool b => Some b | _ => None end.
Definition as_num (v : json) : option Z := match v with JNum z => Some z | _ => None end.
Definition as_str (v : json) : option string := match v with JStr s => Some s | _ => None end.
Definition as_obj (v : json) : option json := match v with JObj m => Some (JObj m) | _ => None end.
Definition as_arr (v : json) : option (list json) := match v with JArr l => Some l | _ => None end.

Definition jstring (o : json) (path : list string) : string :=
  match jget o path with Ok (Some (JStr s)) => s | _ => "" end.

(** A map of strings; nil when absent or when a value is not a string. *)
Definition jstrings (o : json) (path : list string) : gmap string string :=
  match jget o path with
  | Ok (Some (JObj m)) => default ∅ (list_to_map <$> mapM (λ kv, pair kv.1 <$> as_str kv.2) m)
  | _ => ∅
  end.

Definition jset_strings (m : gmap string string) (path : list string) (o : json) : json :=
  match jset o (JObj ((λ kv, (kv.1, JStr kv.2)) <$> map_to_list m)) path with
  | Ok o' => o'
  | Err _ => o
  end.

Definition jowner (v : json) : OwnerReference :=
  MkOwner (jstring v ["apiVersion"]) (jstring v ["kind"]) (jstring v ["name"]) (jstring v ["uid"])
    (match jget v ["controller"] with Ok (Some (JBool b)) => Some b | _ => None end).

Definition jowners (o : json) : list OwnerReference :=
  match jget o ["metadata"; "ownerReferences"] with Ok (Some (JArr l)) => jowner <$> l | _ => [] end.

(** Structural equality, on objects without regard to the order of keys. *)
Fixpoint json_eqb (a b : json) : bool :=
  match a, b with
  | JNull, JNull => true
  | JBool x, JBool y => x == y
  | JNum x, JNum y => x =? y
  | JStr x, JStr y => x == y
  | JArr l, JArr r =>
      (fix go l r := match l, r with
       | [], [] => true
       | x :: l, y :: r => json_eqb x y && go l r
       | _, _ => false
       end) l r
  | JObj m, JObj n =>
      (length m =? length n)%nat &&
      (fix go (m : list (string * json)) := match m with
       | [] => true
       | (k, x) :: m => match assoc_get k n with Some y => json_eqb x y && go m | None => false end
       end) m
  | _, _ => false
  end.

#[export] Instance json_object : Unstructured json := {|
  GetKind o := jstring o ["kind"];
  GetAPIVersion o := jstring o ["apiVersion"];
  GetName o := jstring o ["metadata"; "name"];
  GetNamespace o := jstring o ["metadata"; "namespace"];
  GetUID o := jstring o ["metadata"; "uid"];
  GetResourceVersion o := jstring o ["metadata"; "resourceVersion"];
  GetAnnotations o := jstrings o ["metadata"; "annotations"];
  SetAnnotations m o := jset_strings m ["metadata"; "annotations"] o;
  GetLabels o := jstrings o ["metadata"; "labels"];
  SetLabels m o := jset_strings m ["metadata"; "labels"] o;
  GetOwnerReferences := jowners;
  NestedBool o p := typed as_bool (jget o p);
  NestedInt64 o p := typed as_num (jget o p);
  NestedString o p := typed as_str (jget o p);
  NestedMap o p := typed as_obj (jget o p);
  NestedSlice o p := typed as_arr (jget o p);
  SetNestedBool o b p := jset o (JBool b) p;
  SetNestedInt64 o z p := jset o (JNum z) p;
  SetNestedSlice o l p := jset o (JArr l) p;
  SetNestedMap o v p := jset o v p;
  ParseGroupVersion s := if (length (Split "/" s) <=? 2)%nat then Ok () else Err (ErrMsg "unexpected GroupVersion string");
  GateEntry name := JObj [("name", JStr name)];
  SpecEqual a b := json_eqb (match jget a ["spec"] with Ok (Some v) => v | _ => JNull end)
                            (match jget b ["spec"] with Ok (Some v) => v | _ => JNull end) |}.
