(* ===== verification/ReconcilerTheorems.v ===== *)
(** * Theorems on the control loops

    The safety properties of [Reconcile] and of the Pod controller, with
    concrete runs on JSON objects. *)

From S2P Require Import Prelude GoStrings Store Manager Operator Json Reconciler ReconcilerSpec.

(** ** A concrete cluster *)

Definition demo_spec : BerthLeaseSpec :=
  MkSpec "ingest-worker" "east" 30 10 (Some (MkTarget "apps/v1" "Deployment" "ingest"))
    (Some (MkAction None (Some (MkScale 3)))) (Some (MkAction None (Some (MkScale 0)))).

Definition demo_lease (deleted : option Z) (w : WorkloadStatus) : BerthLease :=
  MkLease "ingest" "pipeline" "lease-uid" "7" 1 deleted [FinalizerName] demo_spec
    (MkStatus (Some w) 1 StateWaiting "" None None None 0 ∅).

Definition demo_target : json :=
  JObj [("apiVersion", JStr "apps/v1"); ("kind", JStr "Deployment");
        ("metadata", JObj [("name", JStr "ingest"); ("namespace", JStr "pipeline"); ("uid", JStr "target-uid");
          ("annotations", JObj [(ManagedLease, JStr "ingest"); (ManagedUID, JStr "lease-uid")])]);
        ("spec", JObj [("replicas", JNum 0)])].

Definition demo_pod : Pod :=
  MkPod "ingest-0" "pipeline" "pod-uid" (<[ManagedLease := "ingest"]> {[ManagedUID := "lease-uid"]})
    [MkOwner "apps/v1" "Deployment" "ingest" "target-uid" (Some true)] [SchedulingGate] "Pending" None.

(** Everything succeeds: the API server serves these objects, the central API
    grants token 8 until 130 s, and the clock stands at 100 s. *)
Definition demo_cluster (l : BerthLease) (pods : list Pod) (X : Type) (e : opE json X) (s : unit) : X * unit :=
  let ans : X :=
    match e in opE _ X return X with
    | OGetLease _ _ => inr l
    | OListLeases _ => inr [l]
    | OUpdateLease _ => inr ()
    | OUpdateStatus _ => inr "8"
    | OGetObj _ _ _ _ => inr demo_target
    | OPatchObj _ _ => inr ()
    | OGetPod _ _ => inr demo_pod
    | OListPods _ _ => inr pods
    | OUpdatePod _ => inr ()
    | ODeletePod _ _ => inr ()
    | OGetJob _ _ => inl KNotFound
    | OListJobs _ _ => inr []
    | OUpdateJob _ => inr ()
    | ODeleteJob _ _ => inr ()
    | OAcquire _ _ holder _ _ => Ok (MkAcquireResult true holder 8 (130 * Second) (100 * Second))
    | ORelease _ _ _ _ => Ok ()
    | ONow => 100 * Second
    end in (ans, s).

Definition demo_reconciler : reconciler := MkReconciler "" true "berth-system".

Definition idle : WorkloadStatus := MkWorkload "target-uid" "" None "" "" 0 [].
Definition running : WorkloadStatus :=
  MkWorkload "target-uid" PhaseActive (Some (130 * Second)) "ingest-worker" "east" 8 [].

Definition start_run : list (oev (U := json)) * (Z * result unit) :=
  run_trace op_ev (demo_cluster (demo_lease None idle) [demo_pod])
    (Reconcile demo_reconciler "pipeline" "ingest") ().
Definition stop_run : list (oev (U := json)) * (Z * result unit) :=
  run_trace op_ev (demo_cluster (demo_lease (Some 1) running) [])
    (Reconcile demo_reconciler "pipeline" "ingest") ().
Definition pod_run : list (oev (U := json)) * (Z * result unit) :=
  run_trace op_ev (demo_cluster (demo_lease None running) [demo_pod]) (reconcilePod "pipeline" "ingest-0") ().

(** Whether a trace has an event of a kind, as a test. *)
Definition is_ungate (v : oev (U := json)) : bool := match v with VUngate _ => true | _ => false end.
Definition is_release (v : oev (U := json)) : bool := match v with VRelease _ _ => true | _ => false end.

Lemma split_at {A} (f : A → bool) (l : list A) :
  existsb f l = true → ∃ pre v post, l = pre ++ v :: post ∧ f v = true.
Proof.
  intros (v & Hin & Hf)%existsb_exists. apply in_split in Hin as (pre & post & ->). eauto.
Qed.

(** ** The theorems *)

(** C19: a workload is started only under recorded ownership. In every run of
    [Reconcile], whatever the API server, the central API and the clock
    answer: each write to the target either stops it or comes after an
    accepted status update whose activation record carries the positive token
    and the holder of a central "acquired" answer and a deadline within a TTL
    of the moment the call was started and within the expiry announced; and
    each removal of a Pod's gate comes after such an update that also lists
    the Pod by name and UID. *)
Theorem start_under_ownership {U} `{Unstructured U} r ns name (tr : list (oev (U := U))) out :
  traces op_ev (Reconcile r ns name) tr out →
  (∀ pre u post, tr = pre ++ VPatch u :: post → stop_write u ∨ ∃ w, recorded pre w) ∧
  (∀ pre p post, tr = pre ++ VUngate p :: post →
     ∃ q w, p = without_gate q ∧ recorded pre w ∧ is_permitted q w = true).
Proof.
  intros Htr. split.
  - intros pre u post E. exact (Reconcile_ok _ _ _ _ _ _ _ _ Htr E).
  - intros pre p post E. exact (Reconcile_ok _ _ _ _ _ _ _ _ Htr E).
Qed.

Lemma start_under_ownership_witness :
  ∃ pre p post w, start_run.1 = pre ++ VUngate p :: post ∧ recorded pre w ∧ wPhase w = PhaseActive.
Proof.
  destruct (split_at is_ungate start_run.1) as (pre & v & post & E & Hv); [vm_compute; reflexivity|].
  destruct v as [| | | | |p| | | |]; try discriminate Hv.
  pose proof (run_trace_traces op_ev (demo_cluster (demo_lease None idle) [demo_pod])
    (Reconcile demo_reconciler "pipeline" "ingest") ()) as Htr.
  destruct (proj2 (start_under_ownership demo_reconciler "pipeline" "ingest" _ _ Htr) pre p post E)
    as (q & w & _ & Hrec & _).
  exists pre, p, post, w. split; [exact E|]. split; [exact Hrec|].
  destruct Hrec as (l & _ & _ & [Hph _]). exact Hph.
Defined.



(** C21: the Pod controller lets a Pod go only under an active lease that lists
    it. In every run for one Pod, a gate is removed only after the lease was
    read, found active at a clock reading taken since, and lists the Pod by
    name and UID, in the object as read or in an accepted update; no update
    lists more than 1024 Pods; and the run neither touches the target nor
    calls the central API. *)
Theorem pod_start_is_registered {U} `{Unstructured U} ns name (tr : list (oev (U := U))) out :
  traces op_ev (reconcilePod ns name) tr out →
  ∀ pre v post, tr = pre ++ v :: post → pod_ok pre v.
Proof.
  intros Htr. exact (proj1 (wp_sound _ _ _ _ _ _ _ (pwp_reconcilePod ns name) Htr)).
Qed.

Lemma pod_start_is_registered_witness :
  ∃ pre p post, pod_run.1 = pre ++ VUngate p :: post ∧ pod_ok pre (VUngate p).
Proof.
  destruct (split_at is_ungate pod_run.1) as (pre & v & post & E & Hv); [vm_compute; reflexivity|].
  destruct v as [| | | | |p| | | |]; try discriminate Hv.
  pose proof (run_trace_traces op_ev (demo_cluster (demo_lease None running) [demo_pod])
    (reconcilePod "pipeline" "ingest-0") ()) as Htr.
  exists pre, p, post. split; [exact E|]. exact (pod_start_is_registered _ _ _ _ Htr pre _ post E).
Defined.
