(* ===== verification/Admission.v ===== *)
(** * Workload admission

    [internal/operator/admission.go]: the fail-closed admission of managed
    workloads, as programs over the same requests as the control loops. A
    request carries its objects decoded (or the decoding error), with the
    request's namespace and kind set on them. *)

From S2P Require Import Prelude GoStrings Store Manager Operator Reconciler ReconcilerSpec.

Section admission.
Context {U : Type} `{Unstructured U}.

Inductive operation := Create | Update | OtherOp.

#[export] Instance operation_eq_dec : EqDecision operation.
Proof. solve_decision. Defined.

Record request := MkRequest {
  rqSubResource : string;
  rqOperation : operation;
  rqNamespace : string;
  rqName : string;
  rqObject : result U;
  rqOldObject : result U;
  rqBindingUID : result string;
  rqUsername : string;
  rqDryRun : bool }.

Inductive response :=
| Allowed (msg : string)
| Denied (msg : string)
| Errored (code : Z)
| Patched (obj : U).

Definition deny (e : error) : response :=
  Denied (match e with ErrMsg m => m | ErrWrap m _ => m | _ => "error" end).

(** ** Metadata and gates *)

Definition bindingMetadata (obj : U) (b : binding) : U :=
  let obj := SetAnnotations (<[ManagedUID := bUID b]> (<[ManagedLease := bName b]> (GetAnnotations obj))) obj in
  SetLabels (<[ManagedUID := bUID b]> (GetLabels obj)) obj.

Definition podTemplatePath (kind : string) : list string :=
  if kind == "CronJob" then ["spec"; "jobTemplate"; "spec"; "template"]
  else if kind == "Pod" then []
  else ["spec"; "template"].

Definition gatesPath : list string := ["spec"; "schedulingGates"].

(** [m["name"] == SchedulingGate] of an entry that is a map. *)
Definition is_gate (g : U) : bool := bool_decide (NestedString g ["name"] = Ok (Some SchedulingGate)).

Definition gateOn (obj : U) : bool :=
  match NestedSlice obj gatesPath with
  | Ok (Some gates) => existsb is_gate gates
  | _ => false
  end.

(** The Pod template of an object; the object itself for a Pod. *)
Definition template_of (missing : string) (obj : U) : result U :=
  match podTemplatePath (GetKind obj) with
  | [] => Ok obj
  | path =>
    m ← NestedMap obj path;
    match m with Some t => Ok t | None => Err (ErrMsg missing) end
  end.

Definition stampBinding (obj : U) (b : binding) : result U :=
  let obj := bindingMetadata obj b in
  let path := podTemplatePath (GetKind obj) in
  template ← template_of "managed workload requires a Pod template" obj;
  let template := if bool_decide (path = []) then template else bindingMetadata template b in
  gates ← NestedSlice template gatesPath;
  let gates := default [] gates in
  let gates := if existsb is_gate gates then gates else gates ++ [GateEntry SchedulingGate] in
  template ← SetNestedSlice template gates gatesPath;
  obj ← (if bool_decide (path = []) then Ok template else SetNestedMap obj template path);
  if GetKind obj == "CronJob" then
    jt ← NestedMap obj ["spec"; "jobTemplate"];
    match jt with
    | Some jt => SetNestedMap obj (bindingMetadata jt b) ["spec"; "jobTemplate"]
    | None => Ok obj
    end
  else Ok obj.

Definition validateMetadata (obj : U) (b : binding) : result unit :=
  if (lookup_str (GetAnnotations obj) ManagedLease != bName b) ||
     (lookup_str (GetAnnotations obj) ManagedUID != bUID b) ||
     (lookup_str (GetLabels obj) ManagedUID != bUID b)
  then Err (ErrMsg "managed workload binding cannot be removed or changed")
  else Ok ().

(** [v, _, _ := unstructured.NestedX(...)]: the zero value when it fails. *)
Definition or_zero {A} (zero : A) (r : result (option A)) : A :=
  match r with Ok (Some a) => a | _ => zero end.

Definition nodeNameOf (obj : U) : string := or_zero "" (NestedString obj ["spec"; "nodeName"]).

(** The checks on a Pod update; on anything else the gate must be present. *)
Definition validateStart (obj template : U) (old : option U) (operator : bool) : result unit :=
  match old with
  | Some old =>
    if GetKind obj == "Pod" then
      if GetOwnerReferences old != GetOwnerReferences obj
      then Err (ErrMsg "managed Pod owner identity is immutable")
      else if nodeNameOf old != nodeNameOf template
      then Err (ErrMsg "managed Pods must use the binding subresource")
      else if gateOn old && negb (gateOn obj) && negb operator
      then Err (ErrMsg "only the operator may remove the Berth scheduling gate")
      else Ok ()
    else if gateOn template then Ok ()
    else Err (ErrMsg "managed Pod must be created with the Berth scheduling gate")
  | None =>
    if gateOn template then Ok ()
    else Err (ErrMsg "managed Pod must be created with the Berth scheduling gate")
  end.

Definition validateManagedObject (obj : U) (old : option U) (b : binding) (operator : bool)
    : result unit :=
  _ ← validateMetadata obj b;
  template ← template_of "missing managed Pod template" obj;
  _ ← (if bool_decide (podTemplatePath (GetKind obj) = []) then Ok () else validateMetadata template b);
  if (nodeNameOf template != "") && ((GetKind obj != "Pod") || bool_decide (¬ is_Some old))
  then Err (ErrMsg "managed Pods cannot be prebound using nodeName")
  else
    _ ← validateStart obj template old operator;
    if GetKind obj == "CronJob" then
      match NestedMap obj ["spec"; "jobTemplate"] with
      | Ok (Some jt) => validateMetadata jt b
      | _ => Err (ErrMsg "managed workload binding cannot be removed or changed")
      end
    else Ok ().

Definition is_job (obj : U) : bool := (GetKind obj == "CronJob") || (GetKind obj == "Job").

Definition increasesActivity (obj old : U) : bool :=
  if is_job obj then
    or_zero false (NestedBool old ["spec"; "suspend"]) && negb (or_zero false (NestedBool obj ["spec"; "suspend"]))
  else or_zero 0 (NestedInt64 obj ["spec"; "replicas"]) >? or_zero 0 (NestedInt64 old ["spec"; "replicas"]).

Definition inactiveTarget (obj : U) : bool :=
  if is_job obj then bool_decide (NestedBool obj ["spec"; "suspend"] = Ok (Some true))
  else bool_decide (NestedInt64 obj ["spec"; "replicas"] = Ok (Some 0)).

(** ** Checks against the live lease *)

Definition recordTarget (obj : U) (b : binding) (dry : bool) : prog (opE U) (result unit) :=
  got ← trigger (OGetLease (GetNamespace obj) (bName b));
  match got with
  | inl e => mret (Err (of_kerr e))
  | inr l =>
    if (lUID l != bUID b) || bool_decide (is_Some (lDeletionTimestamp l))
    then mret (Err (ErrMsg "target lease is deleted or replaced"))
    else
      match sTarget (lSpec l) with
      | None => mret (Ok ())
      | Some t =>
        if (tName t != GetName obj) || (tKind t != GetKind obj) || (tAPIVersion t != GetAPIVersion obj)
        then mret (Ok ())
        else
          match workloadSpec (lSpec l) with
          | Err e => mret (Err e)
          | Ok _ =>
            if GetUID obj == "" then mret (Err (ErrMsg "final target CREATE admission requires a Kubernetes UID"))
            else if match stWorkload (lStatus l) with
                    | Some w => (wPhase w != "") || negb (bool_decide (wPods w = []))
                    | None => false
                    end
            then mret (Err (ErrMsg "target cannot be replaced while cleanup responsibility is active"))
            else
              ex ← trigger (OGetObj (tAPIVersion t) (tKind t) (GetNamespace obj) (GetName obj));
              match ex with
              | inr _ => mret (Err (ErrMsg "target already exists; CREATE cannot replace its admission record"))
              | inl KNotFound =>
                if dry then mret (Ok ())
                else
                  u ← update_status (on_status (set_workload
                         (Some (MkWorkload (GetUID obj) "" None "" "" 0 []))) l);
                  mret u.1
              | inl e => mret (Err (of_kerr e))
              end
          end
      end
  end.

Definition validatePermit (obj : U) (b : binding) : prog (opE U) (result unit) :=
  got ← trigger (OGetLease (GetNamespace obj) (bName b));
  match got with
  | inl e => mret (Err (of_kerr e))
  | inr l =>
    now ← trigger ONow;
    mret (if (lUID l != bUID b) || negb (activeAt l now)
          then Err (ErrMsg "lease no longer permits Pod starts")
          else match stWorkload (lStatus l) with
               | Some w =>
                   if existsb (λ p, (ppUID p == GetUID obj) && (ppName p == GetName obj)) (wPods w)
                   then Ok () else Err (ErrMsg "pod UID was not durably registered")
               | None => Err (ErrMsg "pod UID was not durably registered")
               end)
  end.

Definition validateActivity (obj : U) (b : binding) : prog (opE U) (result unit) :=
  got ← trigger (OGetLease (GetNamespace obj) (bName b));
  match got with
  | inl e => mret (Err (of_kerr e))
  | inr l =>
    now ← trigger ONow;
    mret (if (lUID l != bUID b) || negb (activeAt l now)
          then Err (ErrMsg "lease does not authorize workload activation") else Ok ())
  end.

Definition validateBinding (req : request) : prog (opE U) response :=
  got ← trigger (OGetPod (rqNamespace req) (rqName req));
  mret (match got with
        | inl e => deny (of_kerr e)
        | inr pod =>
          if lookup_str (pAnnotations pod) ManagedUID == "" then Allowed ""
          else
            match rqBindingUID req with
            | Err e => deny e
            | Ok uid =>
              if (uid == "") || (uid != pUID pod)
              then Denied "managed Pod binding must name the observed Pod UID"
              else if hasGate pod then Denied "managed Pod is still scheduling gated"
              else Allowed ""
            end
        end).

(** ** The handler *)

(** The UPDATE of an object that was never admitted: it may only be stopped. *)
Definition admit_legacy (obj old : U) : response :=
  if GetOwnerReferences old != GetOwnerReferences obj
  then Denied "managed controllers cannot adopt unadmitted objects"
  else if (((GetKind obj != "Pod") && inactiveTarget obj) ||
           ((GetKind obj == "Pod") && SpecEqual obj old)) &&
          (lookup_str (GetAnnotations obj) ManagedUID == "")
  then Allowed "legacy target may only be stopped"
  else Denied "drain and recreate legacy managed targets under admission".

(** Turn a check into a response, or go on. *)
Definition check {A} (r : result A) (k : prog (opE U) response) : prog (opE U) response :=
  match r with Ok _ => k | Err e => mret (deny e) end.

Definition admit_managed (req : request) (operatorUser : string) (obj : U) (old : option U) (b : binding)
    : prog (opE U) response :=
  check (validateManagedObject obj old b (rqUsername req == operatorUser))
    (if GetKind obj == "Pod" then
       if match old with Some old => gateOn old && negb (gateOn obj) | None => false end
       then r ← validatePermit obj b; check r (mret (Allowed ""))
       else mret (Allowed "")
     else
       a ← (if match old with Some old => increasesActivity obj old | None => false end
            then validateActivity obj b else mret (Ok ()));
       check a
         (if bool_decide (rqOperation req = Create)
          then r ← recordTarget obj b (rqDryRun req); check r (mret (Allowed ""))
          else mret (Allowed ""))).

(** The binding of the request's object: what the admitted object already
    carries, or what its live owners say. *)
Definition binding_of (obj : U) (old : option U) : prog (opE U) (result binding) :=
  match old with
  | Some old =>
    if lookup_str (GetAnnotations old) ManagedUID != "" then
      mret (Ok (MkBinding (lookup_str (GetAnnotations old) ManagedLease)
                          (lookup_str (GetAnnotations old) ManagedUID) (GetUID old)))
    else expectedBinding (view_obj obj)
  | None => expectedBinding (view_obj obj)
  end.

Definition unmanaged_update (obj : U) (old : option U) : bool :=
  match old with
  | Some old => (lookup_str (GetAnnotations old) ManagedUID == "") &&
                (lookup_str (GetAnnotations obj) ManagedUID == "") &&
                (GetOwnerReferences old == GetOwnerReferences obj)
  | None => false
  end.

Definition admit_object (mutate : bool) (operatorUser : string) (req : request) (obj : U) (old : option U)
    : prog (opE U) response :=
  rb ← binding_of obj old;
  match rb with
  | Err e => mret (if unmanaged_update obj old then Allowed "unmanaged update" else deny e)
  | Ok b =>
    if bUID b == "" then mret (Allowed "")
    else if mutate then
      mret (if bool_decide (rqOperation req = Create)
            then match stampBinding obj b with Ok obj' => Patched obj' | Err e => deny e end
            else Allowed "")
    else
      match old with
      | Some old' =>
        if lookup_str (GetAnnotations old') ManagedUID == "" then mret (admit_legacy obj old')
        else admit_managed req operatorUser obj old b
      | None => admit_managed req operatorUser obj old b
      end
  end.

Definition Handle (mutate : bool) (operatorUser : string) (req : request) : prog (opE U) response :=
  if rqSubResource req == "binding" then validateBinding req
  else
    match rqOperation req with
    | OtherOp => mret (Allowed "")
    | Create =>
      match rqObject req with
      | Err _ => mret (Errored 400)
      | Ok obj => admit_object mutate operatorUser req obj None
      end
    | Update =>
      match rqObject req, rqOldObject req with
      | Ok obj, Ok old => admit_object mutate operatorUser req obj (Some old)
      | _, _ => mret (Errored 400)
      end
    end.

(** ** What admission guarantees *)

(** The lease that was read, with the bound UID, was active at a clock reading
    taken after the read. *)
Definition authorised (tr : list (oev (U := U))) (uid : string) (l : BerthLease) : Prop :=
  lUID l = uid ∧ ∃ p1 p2 now, tr = p1 ++ VLease (inr l) :: p2 ∧ VTime now ∈ p2 ∧ activeAt l now = true.

Definition lists_pod (l : BerthLease) (obj : U) : Prop :=
  ∃ w, stWorkload (lStatus l) = Some w ∧ MkPermitted (GetName obj) (GetUID obj) ∈ wPods w.

(** A status write of admission is a birth record: it follows a read of the
    same lease in which no activation or cleanup was under way, and it only
    records the UID of the target being created. *)
Definition birth_ok (obj : U) (op : operation) (dry : bool) (pre : list (oev (U := U))) (v : oev (U := U)) : Prop :=
  match v with
  | VStatus l' _ => op = Create ∧ dry = false ∧ ∃ l, VLease (inr l) ∈ pre ∧
      lDeletionTimestamp l = None ∧
      (∀ w, stWorkload (lStatus l) = Some w → wPhase w = "" ∧ wPods w = []) ∧
      GetUID obj ≠ "" ∧
      l' = on_status (set_workload (Some (MkWorkload (GetUID obj) "" None "" "" 0 []))) l
  | VPatch _ | VUngate _ | VRelease _ _ | VAcq _ _ => False
  | _ => True
  end.

Section guarantees.
Context (obj : U) (op : operation) (dry : bool).
Abbreviation awp := (wp op_ev (birth_ok obj op dry)).

Lemma awp_read_active {A} b msg (f : BerthLease → result A) pre :
  awp pre (got ← trigger (OGetLease (GetNamespace obj) (bName b));
           match got with
           | inl e => mret (Err (of_kerr e))
           | inr l => now ← trigger ONow;
               mret (if (lUID l != bUID b) || negb (activeAt l now) then Err (ErrMsg msg) else f l)
           end)
    (λ r tr, ∀ a, r = Ok a → ∃ l, authorised tr (bUID b) l ∧ f l = Ok a).
Proof.
  apply wp_op. intros got. split; [done|]. destruct got as [e|l]; [done|].
  apply wp_op. intros now. split; [done|]. cbn. intros a. destruct (_ || _) eqn:E; [done|].
  intros Hf. bool_simp. exists l. split; [|done]. split; [done|].
  exists pre, [VTime now], now. rewrite <- app_assoc. split_and!; [done|set_solver|done].
Qed.

Lemma awp_validatePermit b pre :
  awp pre (validatePermit obj b)
    (λ r tr, r = Ok () → ∃ l, authorised tr (bUID b) l ∧ lists_pod l obj).
Proof.
  eapply wp_ext'; [apply (awp_read_active b)|]. intros r tr Hr ->.
  destruct (Hr () eq_refl) as (l & Hl & Hf). exists l. split; [done|].
  destruct (stWorkload (lStatus l)) as [w|] eqn:Hw; [|done]. exists w. split; [done|].
  destruct (existsb _ _) eqn:E; [|done]. apply existsb_exists in E as ([n u] & Hin & E).
  bool_simp. cbn in *. subst. by apply list_elem_of_In.
Qed.

Lemma awp_validateActivity b pre :
  awp pre (validateActivity obj b) (λ r tr, r = Ok () → ∃ l, authorised tr (bUID b) l).
Proof.
  eapply wp_ext'; [apply (awp_read_active b _ (λ _, Ok ()))|]. intros r tr Hr ->.
  destruct (Hr () eq_refl) as (l & Hl & _). eauto.
Qed.

Lemma awp_recordTarget b pre : op = Create → awp pre (recordTarget obj b dry) (λ _ _, True).
Proof.
  intros Hop. apply wp_op. intros got. split; [done|]. destruct got as [e|l]; [done|]. cbn [op_ev].
  destruct (_ || _) eqn:E1; [done|]. destruct (sTarget (lSpec l)) as [t|]; [|done].
  destruct (_ || _ || _); [done|]. destruct (workloadSpec (lSpec l)); [|done].
  destruct (GetUID obj == "") eqn:E2; [done|].
  destruct (match stWorkload (lStatus l) with Some _ => _ | None => _ end) eqn:E3; [done|].
  apply wp_op. intros ex. split; [done|]. destruct ex as [[]|u]; try done.
  destruct dry eqn:Hdry; [done|]. intros x. split; [|by destruct x]. bool_simp.
  split_and!; [done..|]. exists l. split_and!; [set_solver| |..|done|done].
  - by apply eq_None_not_Some.
  - intros w Hw. rewrite Hw in E3. bool_simp. auto.
Qed.
End guarantees.

(** Everything an UPDATE of an admitted object can rely on. *)
Definition update_sound (req : request) (operatorUser : string) (obj old : U) (tr : list (oev (U := U))) : Prop :=
  let uid := lookup_str (GetAnnotations old) ManagedUID in
  lookup_str (GetAnnotations obj) ManagedUID = uid ∧
  lookup_str (GetAnnotations obj) ManagedLease = lookup_str (GetAnnotations old) ManagedLease ∧
  (GetKind obj = "Pod" → gateOn old = true → gateOn obj = false →
     rqUsername req = operatorUser ∧ ∃ l, authorised tr uid l ∧ lists_pod l obj) ∧
  (GetKind obj ≠ "Pod" → increasesActivity obj old = true → ∃ l, authorised tr uid l).

Lemma validateMetadata_ok obj b :
  validateMetadata obj b = Ok () →
  lookup_str (GetAnnotations obj) ManagedLease = bName b ∧ lookup_str (GetAnnotations obj) ManagedUID = bUID b.
Proof. unfold validateMetadata. destruct (_ || _) eqn:E; [done|]. bool_simp. auto. Qed.

Lemma validateManagedObject_ok obj old b operator :
  validateManagedObject obj old b operator = Ok () →
  validateMetadata obj b = Ok () ∧
  (∀ o, old = Some o → GetKind obj = "Pod" → gateOn o = true → gateOn obj = false → operator = true).
Proof.
  unfold validateManagedObject. intros ([] & Hm & Hv)%result_bind_ok. split; [done|].
  apply result_bind_ok in Hv as (template & _ & Hv). apply result_bind_ok in Hv as ([] & _ & Hv).
  destruct (_ && _) in Hv; [done|]. apply result_bind_ok in Hv as ([] & Hs & _).
  intros o -> Hk Ho Hn. unfold validateStart in Hs.
  rewrite (bool_decide_true _ Hk), Ho, Hn in Hs. destruct (GetOwnerReferences o != _); [done|].
  destruct (nodeNameOf o != _); [done|]. by destruct operator.
Qed.

Lemma awp_admit_managed req operatorUser obj old b pre op :
  b = MkBinding (lookup_str (GetAnnotations old) ManagedLease) (lookup_str (GetAnnotations old) ManagedUID)
        (GetUID old) →
  rqOperation req = Update →
  wp op_ev (birth_ok obj op (rqDryRun req)) pre (admit_managed req operatorUser obj (Some old) b)
    (λ r tr, ∀ m, r = Allowed m → update_sound req operatorUser obj old tr).
Proof.
  intros -> Hop. unfold admit_managed, check. set (b := MkBinding _ _ _).
  destruct (validateManagedObject obj (Some old) b _) as [[]|e] eqn:Hv; [|by intros m [=]].
  apply validateManagedObject_ok in Hv as [[Hn Hu]%validateMetadata_ok Hstart].
  assert (GetKind obj = "Pod" → gateOn old = true → gateOn obj = false → rqUsername req = operatorUser) as Huser.
  { intros Hk Ho Hg. apply (Hstart old eq_refl Hk Ho) in Hg. by bool_simp. }
  destruct (GetKind obj == "Pod") eqn:Hk; bool_simp.
  - destruct (gateOn old && negb (gateOn obj)) eqn:Hg.
    + apply wp_bind. eapply wp_ext'; [apply awp_validatePermit|]. intros r tr Hr.
      destruct r as [[]|e]; [|by intros m [=]]. intros m _. split_and!; [done|done| |done].
      intros _ Ho Hg'. split; [auto|]. by apply Hr.
    + intros m _. split_and!; [done|done| |done]. intros _ Ho Hg'. by rewrite Ho, Hg' in Hg.
  - apply wp_bind. rewrite Hop. destruct (increasesActivity obj old) eqn:Hi.
    + eapply wp_ext'; [apply awp_validateActivity|]. intros r tr Hr.
      destruct r as [[]|e]; [|by intros m [=]]. intros m _.
      split_and!; [done|done|intros; congruence|]. intros _ _. by apply Hr.
    + intros m _. split_and!; [done|done|intros; congruence|congruence].
Qed.

Lemma awp_check {A} ok pre (r : result A) k (Q : response → list (oev (U := U)) → Prop) :
  (∀ e, Q (deny e) pre) → (∀ a, r = Ok a → wp op_ev ok pre k Q) → wp op_ev ok pre (check r k) Q.
Proof. intros He Hk. destruct r; [by eapply Hk|apply He]. Qed.

(** Every status write of the handler, in either mode, is a birth record. *)
Lemma awp_admit mutate user req obj old pre :
  (rqOperation req = Create ↔ old = None) →
  wp op_ev (birth_ok obj (rqOperation req) (rqDryRun req)) pre (admit_object mutate user req obj old) (λ _ _, True).
Proof.
  intros Hop. unfold admit_object. apply wp_bind.
  assert (wp op_ev (birth_ok obj (rqOperation req) (rqDryRun req)) pre (binding_of obj old) (λ _ _, True)) as Hb.
  { unfold binding_of, expectedBinding.
    assert (∀ v, wp op_ev (birth_ok obj (rqOperation req) (rqDryRun req)) pre (resolveBinding 5 v) (λ _ _, True)).
    { intros v. eapply wp_ext'; [by apply (wp_resolveBinding _ 5 v pre pre); [|apply ext_refl]|done]. }
    destruct old as [old|]; [destruct (_ != _)|]; done. }
  eapply wp_ext'; [exact Hb|]. intros rb pre1 _. destruct rb as [b|e]; [|done].
  destruct (bUID b == ""); [done|]. destruct mutate; [done|].
  assert (wp op_ev (birth_ok obj (rqOperation req) (rqDryRun req)) pre1 (admit_managed req user obj old b) (λ _ _, True)).
  { unfold admit_managed. apply awp_check; [done|]. intros _ _. destruct (GetKind obj == "Pod").
    - destruct (match old with Some _ => _ | None => _ end); [|done]. apply wp_bind.
      eapply wp_ext'; [apply awp_validatePermit|]. intros r tr _. by apply awp_check.
    - apply wp_bind. eapply (wp_ext' _ _ _ (λ _ _, True)).
      { destruct (match old with Some _ => _ | None => _ end); [|done].
        eapply wp_ext'; [apply awp_validateActivity|done]. }
      intros r tr _. apply awp_check; [done|]. intros _ _. case_bool_decide as Hc; [|done].
      apply wp_bind. eapply wp_ext'; [by apply awp_recordTarget|]. intros r' tr' _. by apply awp_check. }
  destruct old as [old|]; [|done]. by destruct (_ == _).
Qed.

Lemma Handle_update_sound user req obj old tr m :
  rqSubResource req ≠ "binding" → rqOperation req = Update →
  rqObject req = Ok obj → rqOldObject req = Ok old → lookup_str (GetAnnotations old) ManagedUID ≠ "" →
  traces op_ev (Handle false user req) tr (Allowed m) → update_sound req user obj old tr.
Proof.
  intros Hs Hop Ho Hold Hm Htr. unfold Handle in Htr.
  rewrite (bool_decide_false _ Hs), Hop, Ho, Hold in Htr. unfold admit_object, binding_of in Htr.
  rewrite (bool_decide_false _ Hm) in Htr. cbn [negb] in Htr. rewrite prog_bind_ret in Htr. cbn [bUID] in Htr.
  rewrite (bool_decide_false _ Hm) in Htr.
  destruct (wp_sound _ _ _ _ _ _ _ (awp_admit_managed req user obj old _ [] Update eq_refl Hop) Htr) as [_ HQ].
  by apply (HQ m).
Qed.
End admission.
