(* ===== verification/AdmissionTheorems.v ===== *)
(** * Theorems on workload admission

    What an admitted request can rely on, with concrete runs on JSON objects. *)

From S2P Require Import Prelude GoStrings Store Manager Operator Json Reconciler ReconcilerSpec.
From S2P Require Import ReconcilerTheorems Admission.

(** ** Concrete requests *)

Definition adm_user : string := "system:serviceaccount:berth-system:berth-operator".

Definition managed_pod (gates : list json) : json :=
  JObj [("apiVersion", JStr "v1"); ("kind", JStr "Pod");
        ("metadata", JObj [("name", JStr "ingest-0"); ("namespace", JStr "pipeline"); ("uid", JStr "pod-uid");
          ("annotations", JObj [(ManagedLease, JStr "ingest"); (ManagedUID, JStr "lease-uid")]);
          ("labels", JObj [(ManagedUID, JStr "lease-uid")])]);
        ("spec", JObj [("schedulingGates", JArr gates)])].

(** The operator removes the gate of a managed Pod. *)
Definition ungate_request : request (U := json) :=
  MkRequest "" Update "pipeline" "ingest-0" (Ok (managed_pod []))
    (Ok (managed_pod [GateEntry SchedulingGate])) (Err (ErrMsg "")) adm_user false.

Definition registered_workload : WorkloadStatus :=
  MkWorkload "target-uid" PhaseActive (Some (130 * Second)) "ingest-worker" "east" 8
    [MkPermitted "ingest-0" "pod-uid"].

Definition ungate_run : list (oev (U := json)) * response :=
  run_trace op_ev (demo_cluster (demo_lease None registered_workload) [])
    (Handle false adm_user ungate_request) ().

Definition managed_deployment : json :=
  let meta := JObj [("annotations", JObj [(ManagedLease, JStr "ingest"); (ManagedUID, JStr "lease-uid")]);
                    ("labels", JObj [(ManagedUID, JStr "lease-uid")])] in
  JObj [("apiVersion", JStr "apps/v1"); ("kind", JStr "Deployment");
        ("metadata", JObj [("name", JStr "ingest"); ("namespace", JStr "pipeline"); ("uid", JStr "target-uid");
          ("annotations", JObj [(ManagedLease, JStr "ingest"); (ManagedUID, JStr "lease-uid")]);
          ("labels", JObj [(ManagedUID, JStr "lease-uid")])]);
        ("spec", JObj [("replicas", JNum 0);
          ("template", JObj [("metadata", meta);
             ("spec", JObj [("schedulingGates", JArr [GateEntry SchedulingGate])])])])].

Definition create_request : request (U := json) :=
  MkRequest "" Create "pipeline" "ingest" (Ok managed_deployment) (Err (ErrMsg "")) (Err (ErrMsg ""))
    "alice" false.

(** The same cluster before the target exists. *)
Definition empty_cluster (X : Type) (e : opE json X) (s : unit) : X * unit :=
  match e in opE _ X return X * unit with
  | OGetObj _ _ _ _ => (inl KNotFound, s)
  | e => demo_cluster (demo_lease None (MkWorkload "" "" None "" "" 0 [])) [] _ e s
  end.

Definition create_run : list (oev (U := json)) * response :=
  run_trace op_ev empty_cluster (Handle false adm_user create_request) ().

Definition is_status (v : oev (U := json)) : bool := match v with VStatus _ _ => true | _ => false end.

(** ** The theorems *)

(** C22: no start slips past admission. When the validating webhook allows the
    UPDATE of an admitted object, the object keeps its lease binding; if the
    update removes a Pod's scheduling gate, the request came from the operator
    and the lease read during admission carried the bound UID, was active at a
    later clock reading and listed the Pod by name and UID; if it scales up or
    resumes a workload, the lease read was active likewise. *)
Theorem admission_update_sound {U} `{Unstructured U} user (req : request (U := U)) obj old tr m :
  rqSubResource req ≠ "binding" → rqOperation req = Update →
  rqObject req = Ok obj → rqOldObject req = Ok old → lookup_str (GetAnnotations old) ManagedUID ≠ "" →
  traces op_ev (Handle false user req) tr (Allowed m) →
  lookup_str (GetAnnotations obj) ManagedUID = lookup_str (GetAnnotations old) ManagedUID ∧
  lookup_str (GetAnnotations obj) ManagedLease = lookup_str (GetAnnotations old) ManagedLease ∧
  (GetKind obj = "Pod" → gateOn old = true → gateOn obj = false →
     rqUsername req = user ∧
     ∃ l, authorised tr (lookup_str (GetAnnotations old) ManagedUID) l ∧ lists_pod l obj) ∧
  (GetKind obj ≠ "Pod" → increasesActivity obj old = true →
     ∃ l, authorised tr (lookup_str (GetAnnotations old) ManagedUID) l).
Proof. intros. by eapply Handle_update_sound. Qed.

Lemma admission_update_sound_witness :
  ungate_run.2 = Allowed "" ∧
  ∃ l, authorised ungate_run.1 "lease-uid" l ∧ lists_pod l (managed_pod []).
Proof.
  assert (ungate_run.2 = Allowed "") as Hr by reflexivity. split; [exact Hr|].
  pose proof (run_trace_traces op_ev (demo_cluster (demo_lease None registered_workload) [])
    (Handle false adm_user ungate_request) ()) as Htr.
  change (traces op_ev (Handle false adm_user ungate_request) ungate_run.1 ungate_run.2) in Htr.
  rewrite Hr in Htr.
  destruct (admission_update_sound adm_user ungate_request (managed_pod [])
    (managed_pod [GateEntry SchedulingGate]) ungate_run.1 "") as (_ & _ & Hpod & _);
    [discriminate|reflexivity|reflexivity|reflexivity|discriminate|exact Htr|].
  exact (proj2 (Hpod eq_refl eq_refl eq_refl)).
Defined.


