(* ===== verification/Auth.v ===== *)
(** * Authentication and tenant authorization

    [internal/auth] and [internal/tenant]: the static-key, OIDC and no-op
    authenticators, the keys file with its reload, and the authorizer that
    confines a caller to the holders of its own tenant. SHA-256 and the OIDC
    token verifier are parameters; errors carry their messages without the
    formatted file name and line number. *)

From S2P Require Import Prelude GoStrings AcquireConfig Json Operator.

(** ** Identities *)

Record Identity := MkIdentity { iHolder : string; iTenant : string; iRaw : string }.

#[export] Instance Identity_eq_dec : EqDecision Identity.
Proof. solve_decision. Defined.

Definition ValidateTenant (tenant : string) : result unit :=
  if contains_char "/" tenant
  then Err (ErrMsg "tenant id must not contain '/' (reserved for holder scoping)")
  else Ok ().

(** [auth.Authenticator]. The pointer may be nil even without an error. *)
Class Authenticator (A : Type) :=
  Authenticate : A → string → result (option Identity).

(** ** Static keys *)

(** SHA-256 of a token as 64 lowercase hexadecimal digits. *)
Class Sha256 := hashToken : string → string.

Record StaticAuthenticator := MkStatic {
  keys : gmap string Identity;
  filePath : string }.

Definition hex_digit (c : ascii) : bool :=
  let n := Ascii.nat_of_ascii c in
  ((48 <=? n) && (n <=? 57) || (97 <=? n) && (n <=? 102))%nat.

Definition validHex256 (s : string) : bool :=
  if (String.length s =? 64)%nat then string_all hex_digit s else false.

(** [bufio.ScanLines]: the lines of a text, without their ends. *)
Definition drop_cr (line : string) : string :=
  (fix go s := match s with
   | EmptyString => EmptyString
   | String c EmptyString => if c == "013"%char then EmptyString else s
   | String c s' => String c (go s')
   end) line.

Fixpoint raw_lines (cur s : string) : list string :=
  match s with
  | EmptyString => if cur == "" then [] else [cur]
  | String c s' =>
    if c == "010"%char then cur :: raw_lines EmptyString s'
    else raw_lines (cur +:+ String c EmptyString) s'
  end.

(** A line must leave a byte of the scanner's 64 KiB buffer free. *)
Definition MaxScanTokenSize : Z := 65536.

(** What opening and reading a file gave: its bytes and the error that ended
    the reading, if any. *)
Definition file_read : Type := result (string * option error).

(** One line of the keys file: skipped, an entry, or malformed. *)
Inductive key_line := Blank | Entry (keyID hashHex : string) | Malformed (e : error).

Definition parse_line (line : string) : key_line :=
  let text := TrimSpace line in
  if (text == "") || HasPrefix text "#" then Blank
  else
    match cut ":" text with
    | (_, None) => Malformed (ErrMsg "expected '<key-id>:<sha256-hex>'")
    | (p0, Some p1) =>
      let keyID := TrimSpace p0 in
      let hashHex := TrimSpace p1 in
      if keyID == "" then Malformed (ErrMsg "empty key id")
      else
        match ValidateTenant keyID with
        | Err e => Malformed (ErrWrap "keys file" e)
        | Ok _ =>
          if negb (validHex256 hashHex)
          then Malformed (ErrMsg "hash must be 64 lowercase hex chars")
          else Entry keyID hashHex
        end
    end.

Fixpoint load_loop (lines : list string) (readErr : option error) (ks : gmap string Identity)
    : result (gmap string Identity) :=
  match lines with
  | [] => match readErr with Some e => Err (ErrWrap "scan keys file" e) | None => Ok ks end
  | line :: lines =>
    if MaxScanTokenSize <=? Z.of_nat (String.length line)
    then Err (ErrWrap "scan keys file" (ErrMsg "bufio.Scanner: token too long"))
    else
      match parse_line (drop_cr line) with
      | Blank => load_loop lines readErr ks
      | Malformed e => Err e
      | Entry keyID hashHex =>
        match ks !! hashHex with
        | Some _ => Err (ErrMsg "duplicate hash for key id")
        | None => load_loop lines readErr (<[hashHex := MkIdentity keyID keyID ""]> ks)
        end
      end
  end.

Definition loadKeysFile (f : file_read) : result (gmap string Identity) :=
  match f with
  | Err e => Err (ErrWrap "open keys file" e)
  | Ok (content, readErr) => load_loop (raw_lines "" content) readErr ∅
  end.

(** [fs] is the file system at the moment of the call. *)
Definition Reload (fs : string → file_read) (a : StaticAuthenticator)
    : result unit * StaticAuthenticator :=
  if filePath a == "" then (Err (ErrMsg "static auth: no file path configured for reload"), a)
  else
    match loadKeysFile (fs (filePath a)) with
    | Err e => (Err e, a)
    | Ok ks => (Ok (), MkStatic ks (filePath a))
    end.

Definition NewStaticAuthenticatorFromKeysFile (fs : string → file_read) (path : string)
    : result StaticAuthenticator :=
  if path == "" then Err (ErrMsg "static auth: keys file path is required")
  else
    match Reload fs (MkStatic ∅ path) with
    | (Err e, _) => Err e
    | (Ok _, a) => Ok a
    end.

Section static.
Context `{Sha256}.

Definition NewStaticAuthenticator (ks : gmap string Identity) : StaticAuthenticator :=
  MkStatic (kmap hashToken ks) "".

#[export] Instance static_Authenticate : Authenticator StaticAuthenticator := λ a token,
  if token == "" then Err (ErrMsg "static auth: empty token")
  else
    match keys a !! hashToken token with
    | Some id =>
      if is_ok (ValidateTenant (iTenant id)) then Ok (Some id)
      else Err (ErrMsg "static auth: unauthorized")
    | None => Err (ErrMsg "static auth: unauthorized")
    end.
End static.

(** ** No authentication *)

Record NoOpAuthenticator := MkNoOp {}.

#[export] Instance noop_Authenticate : Authenticator NoOpAuthenticator := λ _ _,
  Ok (Some (MkIdentity "anonymous" "anonymous" "")).

(** ** OIDC *)

(** The [go-oidc] library: provider discovery with the [jwks_uri] of its
    document, and the verification of a token against an issuer, a key set and
    a client ID, which yields the token's claims. *)
Class OIDCLibrary := {
  DiscoverJWKS : string → result (result string);
  VerifyToken : string → string → string → string → result (result (gmap string json)) }.

Record OIDCConfig := MkOIDCConfig {
  IssuerURL : string;
  Audience : string;
  JWKSURL : string;
  RequiredClaims : gmap string string;
  UsernameClaim : string;
  TenantClaim : string }.

Record OIDCAuthenticator := MkOIDC {
  verifier : string → result (result (gmap string json));
  requiredClaims : gmap string string;
  usernameClaim : string;
  tenantClaim : string }.

Definition defaultStr (s def : string) : string := if s == "" then def else s.

Definition json_string (v : json) : option string :=
  match v with JStr s => Some s | _ => None end.

Definition claimContains (claims : gmap string json) (key want : string) : bool :=
  match claims !! key with
  | None => false
  | Some (JStr v) => v == want
  | Some (JArr items) => existsb (λ item, bool_decide (json_string item = Some want)) items
  | Some _ => false
  end.

Definition claimAsString (claims : gmap string json) (key : string) : string :=
  match claims !! key with
  | Some (JStr v) => v
  | Some (JArr (item :: _)) => default "" (json_string item)
  | _ => ""
  end.

Definition NewOIDCAuthenticator `{OIDCLibrary} (cfg : OIDCConfig) : result OIDCAuthenticator :=
  if IssuerURL cfg == "" then Err (ErrMsg "oidc: issuer URL is required")
  else if Audience cfg == "" then Err (ErrMsg "oidc: audience is required")
  else
    jwksURL ←
      (if JWKSURL cfg == "" then
         meta ← wrap_err "oidc: discover provider" (DiscoverJWKS (IssuerURL cfg));
         uri ← wrap_err "oidc: read discovery claims" meta;
         if uri == "" then Err (ErrMsg "oidc: provider discovery doc missing jwks_uri") else Ok uri
       else Ok (JWKSURL cfg));
    Ok (MkOIDC (VerifyToken (IssuerURL cfg) jwksURL (Audience cfg)) (RequiredClaims cfg)
          (defaultStr (UsernameClaim cfg) "sub") (defaultStr (TenantClaim cfg) "sub")).

#[export] Instance oidc_Authenticate : Authenticator OIDCAuthenticator := λ a token,
  if token == "" then Err (ErrMsg "oidc: empty token")
  else
    match verifier a token with
    | Err _ | Ok (Err _) => Err (ErrMsg "oidc: unauthorized")
    | Ok (Ok claims) =>
      if forallb (λ '(k, want), claimContains claims k want) (map_to_list (requiredClaims a)) then
        let tenant := claimAsString claims (tenantClaim a) in
        if is_ok (ValidateTenant tenant)
        then Ok (Some (MkIdentity (claimAsString claims (usernameClaim a)) tenant ""))
        else Err (ErrMsg "oidc: unauthorized")
      else Err (ErrMsg "oidc: unauthorized")
    end.

(** ** Tenants *)

(** [tenant.Resolver]. *)
Class Resolver := ResolveTenant : option Identity → result string.

Definition IdentityResolver : Resolver := λ id,
  match id with
  | None => Err (ErrMsg "nil identity")
  | Some id => if iTenant id == "" then Err (ErrMsg "identity carries no tenant") else Ok (iTenant id)
  end.

(** [tenant.Authorizer]. *)
Record Authorizer := MkAuthorizer {
  AuthorizeNamespace : option Identity → string → result unit;
  AuthorizeHolder : option Identity → string → result unit }.

Section authorizer.
Context `{Resolver}.

Definition resolveTenant (id : option Identity) : result string :=
  tenant ← ResolveTenant id;
  _ ← ValidateTenant tenant;
  Ok tenant.

Definition default_AuthorizeNamespace (id : option Identity) (_ : string) : result unit :=
  _ ← resolveTenant id; Ok ().

Definition default_AuthorizeHolder (id : option Identity) (holder : string) : result unit :=
  tenant ← resolveTenant id;
  if (holder == tenant) || HasPrefix holder (tenant +:+ "/") then Ok ()
  else Err (ErrMsg "holder is not within tenant").

Definition DefaultAuthorizer : Authorizer :=
  MkAuthorizer default_AuthorizeNamespace default_AuthorizeHolder.
End authorizer.

Definition NewDefaultAuthorizer : Authorizer := DefaultAuthorizer (H := IdentityResolver).

(** ** Lemmas *)

Lemma ValidateTenant_ok t : ValidateTenant t = Ok () ↔ contains_char "/" t = false.
Proof. unfold ValidateTenant. by destruct (contains_char "/" t). Qed.

(** The root of a holder: its text up to the first slash. *)
Definition root (holder : string) : string := (cut "/" holder).1.

Lemma cut_none sep s : contains_char sep s = false → cut sep s = (s, None).
Proof.
  induction s as [|c s IH]; cbn; [done|]. intros H. bool_simp.
  rewrite bool_decide_false by congruence. by rewrite IH.
Qed.

Lemma cut_spec sep s :
  contains_char sep (cut sep s).1 = false ∧
  match (cut sep s).2 with
  | None => s = (cut sep s).1
  | Some t => s = (cut sep s).1 +:+ String sep t
  end.
Proof.
  induction s as [|c s [IH1 IH2]]; cbn; [done|]. destruct (c == sep) eqn:E; cbn.
  - bool_simp. by subst.
  - destruct (cut sep s) as [a [b|]]; cbn in *; bool_simp; (rewrite bool_decide_false by congruence);
      (split; [done|]); by rewrite IH2 at 1.
Qed.

(** Ownership is membership of the tenant's subtree of holder names. *)
Lemma owns_root t h :
  contains_char "/" t = false →
  ((h == t) || HasPrefix h (t +:+ "/") = true ↔ root h = t).
Proof.
  intros Ht. unfold root. split.
  - intros [E|E]%orb_prop.
    + bool_simp. subst. by rewrite cut_none.
    + apply HasPrefix_inv in E as [u ->]. rewrite <- app_string_assoc.
      change ("/" +:+ u) with (String "/" u). by rewrite cut_app.
  - intros <-. destruct (cut_spec "/" h) as [_ Hs]. destruct (cut "/" h) as [a [b|]]; cbn in *; subst.
    + apply orb_true_intro. right.
      change (String "/" b) with ("/" +:+ b). rewrite app_string_assoc. apply HasPrefix_app.
    + by rewrite bool_decide_true.
Qed.

Lemma resolveTenant_ok `{Resolver} id t :
  resolveTenant id = Ok t ↔ ResolveTenant id = Ok t ∧ contains_char "/" t = false.
Proof.
  unfold resolveTenant. destruct (ResolveTenant id) as [u|e]; cbn; [|naive_solver].
  pose proof (ValidateTenant_ok u). destruct (ValidateTenant u) as [[]|e]; cbn; naive_solver.
Qed.

Lemma AuthorizeHolder_ok `{Resolver} id h :
  default_AuthorizeHolder id h = Ok () ↔
  ∃ t, ResolveTenant id = Ok t ∧ contains_char "/" t = false ∧ root h = t.
Proof.
  unfold default_AuthorizeHolder. split.
  - intros E. apply result_bind_ok in E as (t & Et & E). apply resolveTenant_ok in Et as [Et Hs].
    exists t. split_and!; [done..|]. apply owns_root; [done|].
    by destruct ((h == t) || HasPrefix h (t +:+ "/")).
  - intros (t & Et & Hs & Hr). assert (resolveTenant id = Ok t) as -> by by apply resolveTenant_ok.
    cbn. by apply owns_root in Hr as ->.
Qed.

(** The entries of a keys file. *)
Definition line_entry (line : string) : option (string * string) :=
  match parse_line (drop_cr line) with Entry k h => Some (k, h) | _ => None end.

Definition entries (content : string) : list (string * string) := omap line_entry (raw_lines "" content).

Lemma parse_line_entry line k h :
  parse_line line = Entry k h → k ≠ "" ∧ contains_char "/" k = false ∧ validHex256 h = true.
Proof.
  unfold parse_line. intros E. repeat case_next; simplify_eq. bool_simp.
  split_and!; [done| |done]. apply ValidateTenant_ok.
  match goal with H : ValidateTenant _ = Ok ?u |- _ => by destruct u end.
Qed.

Lemma load_loop_ok lines re ks ks' :
  load_loop lines re ks = Ok ks' →
  re = None ∧
  ∀ h id, ks' !! h = Some id ↔
    ks !! h = Some id ∨ ∃ k, id = MkIdentity k k "" ∧ (k, h) ∈ omap line_entry lines.
Proof.
  revert ks. induction lines as [|line lines IH]; intros ks; cbn [load_loop].
  { destruct re; [done|]. intros [= ->]. split; [done|]. set_solver. }
  destruct (MaxScanTokenSize <=? _); [done|]. cbn [omap list_omap]. unfold line_entry at 1.
  destruct (parse_line (drop_cr line)) as [|k h|e]; [by apply IH| |done].
  destruct (ks !! h) eqn:Ek; [done|]. intros E. apply IH in E as [-> Hks]. split; [done|].
  intros h' id. rewrite Hks, lookup_insert_Some. split.
  - intros [[[<- <-]|[]]|(k' & -> & Hin)]; [right; exists k|by left|right; exists k'];
      set_solver.
  - intros [Hl|(k' & -> & Hin)].
    + left. right. split; [intros ->; congruence|done].
    + apply elem_of_cons in Hin as [[= -> ->]|Hin]; [naive_solver|]. right. by exists k'.
Qed.

Lemma loadKeysFile_ok f ks :
  loadKeysFile f = Ok ks →
  ∃ content, f = Ok (content, None) ∧
    ∀ h id, ks !! h = Some id ↔ ∃ k, id = MkIdentity k k "" ∧ (k, h) ∈ entries content.
Proof.
  unfold loadKeysFile. destruct f as [[content re]|e]; [|done]. intros E.
  apply load_loop_ok in E as [-> Hks]. exists content. split; [done|].
  intros h id. rewrite Hks, lookup_empty. naive_solver.
Qed.

Lemma entries_ok content k h :
  (k, h) ∈ entries content → k ≠ "" ∧ contains_char "/" k = false ∧ validHex256 h = true.
Proof.
  intros (line & _ & E)%list_elem_of_omap. unfold line_entry in E.
  destruct (parse_line _) eqn:Ep; simplify_eq. by eapply parse_line_entry.
Qed.

Lemma static_Authenticate_ok `{Sha256} a content token id :
  (∀ h id, keys a !! h = Some id ↔ ∃ k, id = MkIdentity k k "" ∧ (k, h) ∈ entries content) →
  Authenticate a token = Ok id ↔
  token ≠ "" ∧ ∃ k, id = Some (MkIdentity k k "") ∧ (k, hashToken token) ∈ entries content.
Proof.
  intros Hks. unfold Authenticate, static_Authenticate. destruct (token == "") eqn:Et; bool_simp.
  { naive_solver. }
  destruct (keys a !! hashToken token) as [i|] eqn:Ek.
  - destruct (proj1 (Hks _ _) Ek) as (k & -> & Hin). cbn.
    pose proof (entries_ok _ _ _ Hin) as (_ & Hs & _). apply ValidateTenant_ok in Hs as ->. cbn.
    split; [intros [= <-]; by eauto|]. intros (_ & k' & -> & Hin').
    assert (keys a !! hashToken token = Some (MkIdentity k' k' "")) as E by (apply Hks; eauto).
    congruence.
  - split; [done|]. intros (_ & k & -> & Hin).
    assert (keys a !! hashToken token = Some (MkIdentity k k "")) as E by (apply Hks; eauto).
    congruence.
Qed.

(** The authenticator after a sequence of reloads, each against the file
    system as it was then. *)
Definition reloads (fss : list (string → file_read)) (a : StaticAuthenticator) : StaticAuthenticator :=
  foldl (λ a fs, (Reload fs a).2) a fss.

Lemma reloads_last fss a :
  filePath a ≠ "" →
  filePath (reloads fss a) = filePath a ∧
  ((keys (reloads fss a) = keys a ∧ Forall (λ fs, is_ok (loadKeysFile (fs (filePath a))) = false) fss) ∨
   ∃ l1 fs l2, fss = l1 ++ fs :: l2 ∧
     loadKeysFile (fs (filePath a)) = Ok (keys (reloads fss a)) ∧
     Forall (λ fs, is_ok (loadKeysFile (fs (filePath a))) = false) l2).
Proof.
  intros Hp. induction fss as [|fs fss [IHp IH]] using rev_ind; [by repeat constructor|].
  unfold reloads. rewrite foldl_snoc. fold (reloads fss a). unfold Reload. rewrite IHp.
  rewrite bool_decide_false by done.
  destruct (loadKeysFile (fs (filePath a))) as [ks|e] eqn:El; cbn.
  - split; [done|]. right. exists fss, fs, []. by rewrite El.
  - split; [done|]. destruct IH as [[Hk Hf]|(l1 & fs' & l2 & -> & Hl & Hf)].
    + left. split; [done|]. apply Forall_app. by rewrite Forall_singleton, El.
    + right. exists l1, fs', (l2 ++ [fs]). rewrite <- app_assoc. split_and!; [done..|].
      apply Forall_app. by rewrite Forall_singleton, El.
Qed.

(** ** The theorems *)

(** C24: whatever sequence of reloads a static authenticator went through,
    good files and bad ones, it authenticates exactly by the last file that
    loaded: a token is accepted if and only if it is not empty and that file
    has an entry with its hash, and then the identity is the entry's key ID as
    holder and tenant, a non-empty name without a slash. Files that fail to
    open, read or parse change nothing. *)
Theorem static_auth_last_good `{Sha256} fs0 path a fss :
  NewStaticAuthenticatorFromKeysFile fs0 path = Ok a →
  ∃ l1 fs l2 content,
    fs0 :: fss = l1 ++ fs :: l2 ∧
    fs path = Ok (content, None) ∧
    is_ok (loadKeysFile (fs path)) = true ∧
    Forall (λ fs, is_ok (loadKeysFile (fs path)) = false) l2 ∧
    ∀ token id, Authenticate (reloads fss a) token = Ok id ↔
      token ≠ "" ∧ ∃ k, id = Some (MkIdentity k k "") ∧ (k, hashToken token) ∈ entries content ∧
                        k ≠ "" ∧ contains_char "/" k = false.
Proof.
  unfold NewStaticAuthenticatorFromKeysFile. destruct (path == "") eqn:Ep; [done|]. bool_simp.
  unfold Reload. cbn. rewrite bool_decide_false by done.
  destruct (loadKeysFile (fs0 path)) as [ks|e] eqn:E0; [|done]. intros [= <-].
  set (a := MkStatic ks path). destruct (reloads_last fss a Ep) as [_ Hlast]. cbn in Hlast.
  assert (∃ l1 fs l2, fs0 :: fss = l1 ++ fs :: l2 ∧ loadKeysFile (fs path) = Ok (keys (reloads fss a)) ∧
     Forall (λ fs, is_ok (loadKeysFile (fs path)) = false) l2) as (l1 & fs & l2 & El & Hl & Hf).
  { destruct Hlast as [[-> Hf]|(l1 & fs & l2 & -> & Hl & Hf)];
      [by exists [], fs0, fss|by exists (fs0 :: l1), fs, l2]. }
  destruct (loadKeysFile_ok _ _ Hl) as (content & Ec & Hks). exists l1, fs, l2, content.
  rewrite Hl. split_and!; [done..|]. intros token id. rewrite (static_Authenticate_ok _ _ _ _ Hks).
  split; [|naive_solver]. intros (Ht & k & -> & Hin). split; [done|]. exists k.
  pose proof (entries_ok _ _ _ Hin). naive_solver.
Qed.

(** C25: tenants are isolated, for every resolver. The default authorizer
    allows a holder exactly when the caller's tenant resolves, has no slash and
    is the root of the holder's name, so no holder is allowed to callers of two
    tenants. *)
Theorem tenant_isolation `{Resolver} id h :
  (AuthorizeHolder DefaultAuthorizer id h = Ok () ↔
   ∃ t, ResolveTenant id = Ok t ∧ contains_char "/" t = false ∧ root h = t) ∧
  ∀ id', AuthorizeHolder DefaultAuthorizer id h = Ok () →
         AuthorizeHolder DefaultAuthorizer id' h = Ok () → ResolveTenant id = ResolveTenant id'.
Proof.
  split; [apply AuthorizeHolder_ok|]. intros id' E E'. cbn in E, E'.
  apply AuthorizeHolder_ok in E as (t & -> & _ & <-), E' as (t' & -> & _ & <-). done.
Qed.

(** The holder a sidecar derives from its pod is one the authorizer
    allows to exactly one tenant, the one named by the cluster ID or, without
    one, by the pod's namespace. *)
Theorem derived_holder_tenant c id :
  HolderIdentity c = "" → holder_root c ≠ "" → contains_char "/" (holder_root c) = false →
  AuthorizeHolder NewDefaultAuthorizer (Some id) (Holder c) = Ok () ↔ iTenant id = holder_root c.
Proof.
  intros Hid Hne Hs.
  assert (root (Holder c) = holder_root c) as Hroot.
  { apply owns_root; [done|]. destruct (Holder_rooted c Hid Hne) as [->| ->];
      [by rewrite bool_decide_true|by rewrite orb_true_r]. }
  unfold NewDefaultAuthorizer, DefaultAuthorizer. cbn [AuthorizeHolder].
  rewrite AuthorizeHolder_ok, Hroot. unfold ResolveTenant, IdentityResolver.
  destruct (iTenant id == "") eqn:Et; bool_simp; naive_solver congruence.
Qed.

(** ** Witnesses *)

Definition repeat_char (c : ascii) (n : nat) : string := Nat.iter n (String c) EmptyString.

(** A hash for the examples: one known token, one digest for all others. *)
Definition demo_sha256 : Sha256 := λ token,
  if token == "s3cret" then repeat_char "a" 64 else repeat_char "b" 64.

Definition newline : string := String "010" EmptyString.

Definition demo_keys : string :=
  "# operators" +:+ newline +:+ newline +:+ " cluster-a : " +:+ repeat_char "a" 64 +:+ newline.

Definition demo_fs (f : file_read) (path : string) : file_read :=
  if path == "/etc/berth/keys" then f else Err ErrNotExist.

(** A good file, then a truncated one and one that cannot be opened. *)
Definition demo_reloads : list (string → file_read) :=
  [demo_fs (Ok ("cluster-b", None)); demo_fs (Err (ErrMsg "permission denied"))].

Definition demo_static : StaticAuthenticator :=
  MkStatic {[ repeat_char "a" 64 := MkIdentity "cluster-a" "cluster-a" "" ]} "/etc/berth/keys".

Lemma static_auth_last_good_witness :
  (∃ l1 fs l2 content,
     demo_fs (Ok (demo_keys, None)) :: demo_reloads = l1 ++ fs :: l2 ∧
     fs "/etc/berth/keys" = Ok (content, None) ∧
     is_ok (loadKeysFile (fs "/etc/berth/keys")) = true ∧
     Forall (λ fs, is_ok (loadKeysFile (fs "/etc/berth/keys")) = false) l2 ∧
     ∀ token id, Authenticate (Authenticator := static_Authenticate (H := demo_sha256))
                   (reloads demo_reloads demo_static) token = Ok id ↔
       token ≠ "" ∧ ∃ k, id = Some (MkIdentity k k "") ∧ (k, demo_sha256 token) ∈ entries content ∧
                         k ≠ "" ∧ contains_char "/" k = false) ∧
  static_Authenticate (H := demo_sha256) (reloads demo_reloads demo_static) "s3cret" =
    Ok (Some (MkIdentity "cluster-a" "cluster-a" "")).
Proof.
  split; [|vm_compute; reflexivity].
  apply (static_auth_last_good (H := demo_sha256) (demo_fs (Ok (demo_keys, None))) "/etc/berth/keys"
           demo_static demo_reloads).
  vm_compute. reflexivity.
Defined.

Lemma derived_holder_tenant_witness :
  AuthorizeHolder NewDefaultAuthorizer (Some (MkIdentity "op" "east" ""))
    (Holder (ApplyDefaults (demo_config (30 * Second) "3f1c"))) = Ok () ↔ "east" = "east".
Proof.
  apply (derived_holder_tenant (ApplyDefaults (demo_config (30 * Second) "3f1c"))
           (MkIdentity "op" "east" "")); vm_compute; [reflexivity|discriminate|reflexivity].
Defined.
