(* ===== verification/JsonText.v ===== *)
(** * JSON text

    The parts of [encoding/json] that lease requests go through: the decoder
    with unknown fields disallowed, and the encoder of maps of strings and
    integers. Strings are bytes: as in Go, bytes that are not UTF-8 become
    U+FFFD on both sides. Nesting is bounded by the size of the text. *)

From S2P Require Import Prelude GoStrings.
From Stdlib Require Import Decimal DecimalString DecimalN DecimalFacts.

Definition code (c : ascii) : Z := Z.of_N (Ascii.N_of_ascii c).
Definition chr (z : Z) : ascii := Ascii.ascii_of_N (Z.to_N z).
Definition between (lo c hi : Z) : bool := (lo <=? c) && (c <=? hi).

Definition quote : ascii := "034".
Definition backslash : ascii := "092".
Definition str1 (c : ascii) : string := String c EmptyString.

(** ** UTF-8 *)

Definition cont (c : ascii) : bool := between 128 (code c) 191.
Definition lead2 (a : ascii) : bool := between 194 (code a) 223.
Definition lead3 (a b : ascii) : bool :=
  (code a =? 224) && between 160 (code b) 191 ||
  (between 225 (code a) 236 || between 238 (code a) 239) && cont b ||
  (code a =? 237) && between 128 (code b) 159.
Definition lead4 (a b : ascii) : bool :=
  (code a =? 240) && between 144 (code b) 191 ||
  between 241 (code a) 243 && cont b ||
  (code a =? 244) && between 128 (code b) 143.

(** [utf8.DecodeRune] on the text [String a s]: the bytes of the first rune
    ([None] when they are not UTF-8, one byte then) and the rest. *)
Definition rune_cut (a : ascii) (s : string) : option string * string :=
  if code a <? 128 then (Some (str1 a), s)
  else
    match s with
    | EmptyString => (None, s)
    | String b s2 =>
      if lead2 a && cont b then (Some (String a (str1 b)), s2)
      else
        match s2 with
        | EmptyString => (None, s)
        | String c s3 =>
          if lead3 a b && cont c then (Some (String a (String b (str1 c))), s3)
          else
            match s3 with
            | EmptyString => (None, s)
            | String d s4 =>
              if lead4 a b && cont c && cont d
              then (Some (String a (String b (String c (str1 d)))), s4)
              else (None, s)
            end
        end
    end.

(** U+FFFD, what [utf8.RuneError] is written as. *)
Definition replacement : string := String "239" (String "191" (str1 "189")).

(** The text with everything that is not UTF-8 replaced. *)
Fixpoint valid_utf8 (fuel : nat) (s : string) : string :=
  match fuel, s with
  | S f, String a s' =>
    let '(r, rest) := rune_cut a s' in default replacement r +:+ valid_utf8 f rest
  | _, _ => EmptyString
  end.

Definition ToValidUTF8 (s : string) : string := valid_utf8 (String.length s) s.

(** [utf8.EncodeRune] *)
Definition EncodeRune (r : Z) : string :=
  if r <? 128 then str1 (chr r)
  else if r <? 2048 then String (chr (192 + r / 64)) (str1 (chr (128 + r mod 64)))
  else if r <? 65536 then
    String (chr (224 + r / 4096)) (String (chr (128 + (r / 64) mod 64)) (str1 (chr (128 + r mod 64))))
  else
    String (chr (240 + r / 262144)) (String (chr (128 + (r / 4096) mod 64))
      (String (chr (128 + (r / 64) mod 64)) (str1 (chr (128 + r mod 64))))).

(** ** Decoding strings *)

Definition hex_val (c : ascii) : option Z :=
  let n := code c in
  if between 48 n 57 then Some (n - 48)
  else if between 97 n 102 then Some (n - 87)
  else if between 65 n 70 then Some (n - 55)
  else None.

(** Four hexadecimal digits and the text after them. *)
Definition hex4 (s : string) : option (Z * string) :=
  match s with
  | String a (String b (String c (String d s'))) =>
    match hex_val a, hex_val b, hex_val c, hex_val d with
    | Some x, Some y, Some z, Some w => Some (((x * 16 + y) * 16 + z) * 16 + w, s')
    | _, _, _, _ => None
    end
  | _ => None
  end.

(** The second half of a surrogate pair, when the text goes on with one. *)
Definition low_surrogate (s : string) : option (Z * string) :=
  match s with
  | String a (String b s') =>
    if (a == backslash) && (b == "u"%char) then
      match hex4 s' with
      | Some (r, s'') => if between 56320 r 57343 then Some (r, s'') else None
      | None => None
      end
    else None
  | _ => None
  end.

(** The rune of a [\uXXXX] escape and the text after it. A surrogate that is
    not part of a pair is U+FFFD. *)
Definition unicode_escape (s : string) : option (string * string) :=
  match hex4 s with
  | None => None
  | Some (r, s') =>
    if between 55296 r 57343 then
      match low_surrogate s' with
      | Some (r2, s'') =>
        if r <? 56320 then Some (EncodeRune (65536 + (r - 55296) * 1024 + (r2 - 56320)), s'')
        else Some (replacement, s')
      | None => Some (replacement, s')
      end
    else Some (EncodeRune r, s')
  end.

Definition simple_escape (c : ascii) : option ascii :=
  if c == quote then Some quote
  else if c == backslash then Some backslash
  else if c == "/"%char then Some "/"%char
  else if c == "b"%char then Some "008"%char
  else if c == "f"%char then Some "012"%char
  else if c == "n"%char then Some "010"%char
  else if c == "r"%char then Some "013"%char
  else if c == "t"%char then Some "009"%char
  else None.

(** The rest of a string literal after its opening quote: the text it denotes
    and what follows the closing quote. *)
Fixpoint parse_string (fuel : nat) (s : string) : option (string * string) :=
  match fuel, s with
  | S f, String a s' =>
    if a == quote then Some (EmptyString, s')
    else
      chunk ← (if a == backslash then
                 match s' with
                 | EmptyString => None
                 | String b s2 =>
                   if b == "u"%char then unicode_escape s2
                   else match simple_escape b with Some e => Some (str1 e, s2) | None => None end
                 end
               else if code a <? 32 then None
               else let '(r, rest) := rune_cut a s' in Some (default replacement r, rest));
      '(t, rest) ← parse_string f chunk.2;
      Some (chunk.1 +:+ t, rest)
  | _, _ => None
  end.

(** ** Decoding values *)

(** A value as the decoder sees it: numbers keep their text. *)
Inductive jval :=
| VNull
| VBool (b : bool)
| VNum (lit : string)
| VStr (s : string)
| VArr (l : list jval)
| VObj (m : list (string * jval)).

Definition json_space (c : ascii) : bool :=
  let n := code c in (n =? 32) || (n =? 9) || (n =? 10) || (n =? 13).

Fixpoint skip_ws (s : string) : string :=
  match s with
  | String c s' => if json_space c then skip_ws s' else s
  | EmptyString => EmptyString
  end.

Definition is_digit (c : ascii) : bool := between 48 (code c) 57.

Fixpoint take_digits (s : string) : string * string :=
  match s with
  | String c s' =>
    if is_digit c then let '(d, r) := take_digits s' in (String c d, r) else (EmptyString, s)
  | EmptyString => (EmptyString, s)
  end.

(** One or more digits. *)
Definition digits1 (s : string) : option (string * string) :=
  let '(d, r) := take_digits s in if d == "" then None else Some (d, r).

(** The integer part: a zero, or digits that do not start with one. *)
Definition lex_int (s : string) : option (string * string) :=
  match s with
  | String c s' => if c == "0"%char then Some ("0", s') else digits1 s
  | EmptyString => None
  end.

Definition lex_frac (s : string) : option (string * string) :=
  match s with
  | String c s' =>
    if c == "."%char then '(d, r) ← digits1 s'; Some (String c d, r) else Some (EmptyString, s)
  | EmptyString => Some (EmptyString, s)
  end.

Definition lex_exp (s : string) : option (string * string) :=
  match s with
  | String c s' =>
    if (c == "e"%char) || (c == "E"%char) then
      let '(sign, s2) := match s' with
        | String g s2 => if (g == "+"%char) || (g == "-"%char) then (str1 g, s2) else (EmptyString, s')
        | EmptyString => (EmptyString, s')
        end in
      '(d, r) ← digits1 s2; Some (String c (sign +:+ d), r)
    else Some (EmptyString, s)
  | EmptyString => Some (EmptyString, s)
  end.

Definition lex_number (s : string) : option (string * string) :=
  let '(sign, s1) := match s with
    | String c s' => if c == "-"%char then (str1 c, s') else (EmptyString, s)
    | EmptyString => (EmptyString, s)
    end in
  '(i, s2) ← lex_int s1;
  '(fr, s3) ← lex_frac s2;
  '(ex, s4) ← lex_exp s3;
  Some (sign +:+ i +:+ fr +:+ ex, s4).

(** A literal name and the text after it. *)
Definition literal (name s : string) (v : jval) : option (jval * string) :=
  r ← CutPrefix s name; Some (v, r).

(** The text after an expected byte, white space before it skipped. *)
Definition expect (c : ascii) (s : string) : option string :=
  match skip_ws s with
  | String d s' => if d == c then Some s' else None
  | EmptyString => None
  end.

Definition string_lit (s : string) : option (string * string) :=
  s' ← expect quote s; parse_string (String.length s') s'.

Definition parse_scalar (s : string) : option (jval * string) :=
  match s with
  | EmptyString => None
  | String c s' =>
    if c == quote then '(t, r) ← parse_string (String.length s') s'; Some (VStr t, r)
    else if c == "t"%char then literal "true" s (VBool true)
    else if c == "f"%char then literal "false" s (VBool false)
    else if c == "n"%char then literal "null" s VNull
    else '(lit, r) ← lex_number s; Some (VNum lit, r)
  end.

Fixpoint parse_value (fuel : nat) (s : string) : option (jval * string) :=
  match fuel with
  | O => None
  | S f =>
    match expect "{" s, expect "[" s with
    | Some s1, _ =>
      match expect "}" s1 with
      | Some r => Some (VObj [], r)
      | None => '(m, r) ← parse_members f s1; Some (VObj m, r)
      end
    | None, Some s1 =>
      match expect "]" s1 with
      | Some r => Some (VArr [], r)
      | None => '(l, r) ← parse_elems f s1; Some (VArr l, r)
      end
    | None, None => parse_scalar (skip_ws s)
    end
  end
with parse_members (fuel : nat) (s : string) : option (list (string * jval) * string) :=
  match fuel with
  | O => None
  | S f =>
    '(k, s1) ← string_lit s;
    s2 ← expect ":" s1;
    '(v, s3) ← parse_value f s2;
    match expect "," s3 with
    | Some s4 => '(m, r) ← parse_members f s4; Some ((k, v) :: m, r)
    | None => r ← expect "}" s3; Some ([(k, v)], r)
    end
  end
with parse_elems (fuel : nat) (s : string) : option (list jval * string) :=
  match fuel with
  | O => None
  | S f =>
    '(v, s3) ← parse_value f s;
    match expect "," s3 with
    | Some s4 => '(l, r) ← parse_elems f s4; Some (v :: l, r)
    | None => r ← expect "]" s3; Some ([v], r)
    end
  end.

(** Every second call consumes a byte. *)
Definition parse_fuel (s : string) : nat := 2 * String.length s + 2.

(** [Decoder.Decode] of one value: the value and the unread text. *)
Definition parse (s : string) : option (jval * string) := parse_value (parse_fuel s) s.

(** ** Structs *)

(** [foldName]: upper-case ASCII letters; U+212A and U+017F fold to K and S. *)
Fixpoint foldName (s : string) : string :=
  match s with
  | EmptyString => EmptyString
  | String "226" (String "132" (String "170" s')) => String "K" (foldName s')
  | String "197" (String "191" s') => String "S" (foldName s')
  | String c s' => String (if between 97 (code c) 122 then chr (code c - 32) else c) (foldName s')
  end.

(** The fields of a struct, by JSON name, with the way to store into them. *)
Inductive field (T : Type) :=
| FString (set : string → T → T)
| FInt32 (set : Z → T → T).
Arguments FString {T} set.
Arguments FInt32 {T} set.

(** The exact name first, then the first field whose name folds alike. *)
Definition find_field {T} (key : string) (fs : list (string * field T)) : option (field T) :=
  match List.find (λ f, f.1 == key) fs with
  | Some f => Some f.2
  | None => snd <$> List.find (λ f, foldName f.1 == foldName key) fs
  end.

(** Store a value into a field; [null] leaves it alone. *)
Definition store {T} (f : field T) (v : jval) (x : T) : option T :=
  match v, f with
  | VNull, _ => Some x
  | VStr s, FString set => Some (set s x)
  | VNum lit, FInt32 set =>
    n ← ParseInt lit 64; if (MinInt32 <=? n) && (n <=? MaxInt32) then Some (set n x) else None
  | _, _ => None
  end.

Fixpoint store_members {T} (fs : list (string * field T)) (m : list (string * jval)) (x : T) : option T :=
  match m with
  | [] => Some x
  | (k, v) :: m =>
    f ← find_field k fs;
    x' ← store f v x;
    store_members fs m x'
  end.

Definition store_struct {T} (fs : list (string * field T)) (v : jval) (x : T) : option T :=
  match v with
  | VNull => Some x
  | VObj m => store_members fs m x
  | _ => None
  end.

(** ** Encoding *)

Definition hex_char (n : Z) : ascii := chr (if n <? 10 then 48 + n else 87 + n).

Definition html_safe (c : ascii) : bool :=
  let n := code c in
  between 32 n 127 && negb ((n =? 34) || (n =? 92) || (n =? 60) || (n =? 62) || (n =? 38)).

(** An ASCII byte inside a string literal. *)
Definition escape_ascii (c : ascii) : string :=
  if html_safe c then str1 c
  else if (c == quote) || (c == backslash) then String backslash (str1 c)
  else
    match code c with
    | 8 => String backslash "b" | 12 => String backslash "f" | 10 => String backslash "n"
    | 13 => String backslash "r" | 9 => String backslash "t"
    | n => String backslash ("u00" +:+ String (hex_char (n / 16)) (str1 (hex_char (n mod 16))))
    end.

Definition escape_rune (r : option string) : string :=
  match r with
  | None => String backslash "ufffd"
  | Some (String c EmptyString) => escape_ascii c
  | Some b =>
    if b == String "226" (String "128" (str1 "168")) then String backslash "u2028"
    else if b == String "226" (String "128" (str1 "169")) then String backslash "u2029"
    else b
  end.

Fixpoint escape (fuel : nat) (s : string) : string :=
  match fuel, s with
  | S f, String a s' => let '(r, rest) := rune_cut a s' in escape_rune r +:+ escape f rest
  | _, _ => EmptyString
  end.

Definition encode_string (s : string) : string :=
  String quote (escape (String.length s) s +:+ str1 quote).

Inductive scalar := EString (s : string) | EInt (n : Z).

Definition encode_scalar (v : scalar) : string :=
  match v with EString s => encode_string s | EInt n => FormatInt n end.

(** [json.Marshal] of a map, its members given in the order of their keys. *)
Definition encode_members (m : list (string * scalar)) : string :=
  Join ((λ '(k, v), encode_string k +:+ ":" +:+ encode_scalar v) <$> m) ",".

Definition Marshal (m : list (string * scalar)) : string := "{" +:+ encode_members m +:+ "}".

(** ** Strings round trip *)

(** A rune is cut off whatever follows it, and nothing is lost. *)
Lemma rune_cut_some a s b rest :
  rune_cut a s = (Some b, rest) →
  String a s = b +:+ rest ∧
  ∃ b', b = String a b' ∧ (code a < 128 ↔ b' = "") ∧ ∀ t, rune_cut a (b' +:+ t) = (Some b, t).
Proof.
  unfold rune_cut. destruct (code a <? 128) eqn:Ea.
  { intros [= <- <-]. split; [done|]. exists "". split_and!; [done|split; [done|lia]|done]. }
  destruct s as [|b1 s]; [done|]. destruct (lead2 a && cont b1) eqn:E2.
  { intros [= <- <-]. split; [done|]. exists (str1 b1). split_and!; [done|split; [lia|done]|].
    intros t. unfold str1. rewrite !app_string_cons, app_string_nil_l. by rewrite E2. }
  destruct s as [|b2 s]; [done|]. destruct (lead3 a b1 && cont b2) eqn:E3.
  { intros [= <- <-]. split; [done|]. exists (String b1 (str1 b2)). split_and!; [done|split; [lia|done]|].
    intros t. unfold str1. rewrite !app_string_cons, app_string_nil_l. by rewrite E2, E3. }
  destruct s as [|b3 s]; [done|]. destruct (lead4 a b1 && cont b2 && cont b3) eqn:E4; [|done].
  intros [= <- <-]. split; [done|]. exists (String b1 (String b2 (str1 b3))). split_and!; [done|split; [lia|done]|].
  intros t. unfold str1. rewrite !app_string_cons, app_string_nil_l. by rewrite E2, E3, E4.
Qed.

Lemma rune_cut_none a s rest : rune_cut a s = (None, rest) → rest = s.
Proof. unfold rune_cut. intros E. repeat case_next; by simplify_eq. Qed.

Lemma rune_cut_shorter a s r rest :
  rune_cut a s = (r, rest) → (String.length rest ≤ String.length s)%nat.
Proof.
  destruct r as [b|]; [|by intros ->%rune_cut_none].
  intros ([= E] & b' & -> & _ & _)%rune_cut_some. rewrite app_string_cons in E. injection E as ->.
  rewrite length_app_string. lia.
Qed.

(** Reading one escaped rune back. *)
Definition rune_ok (r : option string) : Prop := ∀ b, r = Some b → ∃ a s rest, rune_cut a s = (Some b, rest).

Definition prepend (c : string) (r : option (string * string)) : option (string * string) :=
  '(t, rest) ← r; Some (c +:+ t, rest).

Lemma parse_escaped_ascii f c t :
  code c < 128 → parse_string (S f) (escape_ascii c +:+ t) = prepend (str1 c) (parse_string f t).
Proof. destruct c as [[] [] [] [] [] [] [] []]; intros Hc; try (exfalso; vm_compute in Hc; done); reflexivity. Qed.

Lemma parse_escaped f r t :
  rune_ok r → parse_string (S f) (escape_rune r +:+ t) = prepend (default replacement r) (parse_string f t).
Proof.
  destruct r as [b|]; intros Hr; [|reflexivity].
  destruct (Hr b eq_refl) as (a & s & rest & Hcut). apply rune_cut_some in Hcut as (_ & b' & -> & Ha & Happ).
  destruct b' as [|c b']; [by apply parse_escaped_ascii, Ha|].
  cbn [escape_rune default]. assert (128 ≤ code a) as Hge by (destruct (decide (code a < 128)); [naive_solver|lia]).
  destruct (_ == _) eqn:E1; [bool_simp; rewrite E1; reflexivity|].
  destruct (String a (String c b') == String "226" (String "128" (str1 "169"))) eqn:E2;
    [bool_simp; rewrite E2; reflexivity|].
  rewrite app_string_cons. cbn [parse_string].
  rewrite !bool_decide_false by (intros ->; vm_compute in Hge; done).
  destruct (Z.ltb_spec (code a) 32); [lia|]. rewrite (Happ t). reflexivity.
Qed.

Lemma rune_cut_ok a s r rest : rune_cut a s = (r, rest) → rune_ok r.
Proof. intros E b ->. by exists a, s, rest. Qed.

Lemma escape_rune_length r : rune_ok r → (1 ≤ String.length (escape_rune r))%nat.
Proof.
  destruct r as [b|]; [|cbn; lia]. intros Hr.
  destruct (Hr b eq_refl) as (a & s & rest & Hcut). apply rune_cut_some in Hcut as (_ & b' & -> & _ & _).
  destruct b' as [|c b']; cbn [escape_rune].
  - unfold escape_ascii. repeat case_next; cbn; lia.
  - repeat case_next; cbn; lia.
Qed.

Lemma parse_string_escape n f s rest :
  (String.length s ≤ n)%nat → (String.length (escape n s) < f)%nat →
  parse_string f (escape n s +:+ String quote rest) = Some (valid_utf8 n s, rest).
Proof.
  revert f s. induction n as [|n IH]; intros [|f] [|a s] Hn Hf; cbn in Hn; try lia; try reflexivity.
  cbn [escape valid_utf8] in *. destruct (rune_cut a s) as [r rest'] eqn:Ec.
  pose proof (rune_cut_ok _ _ _ _ Ec) as Hok. pose proof (rune_cut_shorter _ _ _ _ Ec).
  pose proof (escape_rune_length r Hok). rewrite length_app_string in Hf.
  rewrite <- app_string_assoc, (parse_escaped _ _ _ Hok), IH by lia. reflexivity.
Qed.

Lemma expect_here c s : json_space c = false → expect c (String c s) = Some s.
Proof. intros Hc. unfold expect. cbn. rewrite Hc. by rewrite bool_decide_true. Qed.

Lemma string_lit_encode s rest : string_lit (encode_string s +:+ rest) = Some (ToValidUTF8 s, rest).
Proof.
  unfold string_lit, encode_string. rewrite app_string_cons, expect_here by done. cbn [mbind option_bind].
  rewrite <- app_string_assoc. apply parse_string_escape; [lia|].
  rewrite !length_app_string. cbn [String.length str1]. lia.
Qed.

(** ** Numbers round trip *)

(** Text that does not continue a number. *)
Definition num_end (t : string) : bool :=
  match t with
  | EmptyString => true
  | String c _ => negb (is_digit c || (c == "."%char) || (c == "e"%char) || (c == "E"%char))
  end.

Lemma take_digits_app d t :
  string_all is_digit d = true → num_end t = true → take_digits (d +:+ t) = (d, t).
Proof.
  intros Hd Ht. induction d as [|c d IH].
  - rewrite app_string_nil_l. destruct t as [|c t]; [done|]. cbn in *. bool_simp.
    by destruct (is_digit c).
  - rewrite app_string_cons. cbn in *. bool_simp. by rewrite H, IH.
Qed.

Lemma digit_val_is_digit c d : digit_val c = Some d → is_digit c = true.
Proof. destruct c as [[] [] [] [] [] [] [] []]; by cbn. Qed.

Lemma parse_digits_all acc s v : parse_digits acc s = Some v → string_all is_digit s = true.
Proof.
  revert acc. induction s as [|c s IH]; intros acc; cbn; [done|].
  destruct (digit_val c) as [d|] eqn:E; [|done]. intros Hs.
  by rewrite (digit_val_is_digit _ _ E), (IH _ Hs).
Qed.

Lemma format_nat_digits n : string_all is_digit (format_nat n) = true.
Proof. eapply parse_digits_all, parse_format_nat. Qed.

Lemma format_nat_zero n s : format_nat n = String "0" s → s = "".
Proof.
  unfold format_nat. pose proof (Unsigned.to_of (N.to_uint n)) as E. rewrite Unsigned.of_to in E.
  destruct (N.to_uint n) as [|d|d|d|d|d|d|d|d|d|d]; cbn; try done. intros [= <-].
  unfold unorm in E. destruct (nzhead (D0 d)) eqn:En; try discriminate; [by injection E as ->|].
  exfalso. eapply nzhead_nonzero; exact En.
Qed.

Lemma lex_int_format n t :
  num_end t = true → lex_int (format_nat n +:+ t) = Some (format_nat n, t).
Proof.
  intros Ht. pose proof (take_digits_app _ t (format_nat_digits n) Ht) as Hd.
  pose proof (format_nat_zero n) as Hz. destruct (format_nat_head n) as (c & s & d & E & _).
  rewrite E in *. rewrite app_string_cons in *. unfold lex_int. destruct (c == "0"%char) eqn:Ec.
  - bool_simp. subst c. rewrite (Hz s eq_refl). done.
  - unfold digits1. rewrite Hd. done.
Qed.

Lemma num_end_tail t :
  num_end t = true → lex_frac t = Some (EmptyString, t) ∧ lex_exp t = Some (EmptyString, t).
Proof.
  destruct t as [|c t]; [done|]. cbn. intros E. bool_simp.
  rewrite !bool_decide_false by done. done.
Qed.

Lemma lex_number_FormatInt n t :
  num_end t = true → lex_number (FormatInt n +:+ t) = Some (FormatInt n, t).
Proof.
  intros Ht. destruct (num_end_tail t Ht) as [Hf He].
  assert (∀ m sign,
    ('(i, s2) ← lex_int (format_nat m +:+ t); '(fr, s3) ← lex_frac s2;
     '(ex, s4) ← lex_exp s3; Some (sign +:+ i +:+ fr +:+ ex, s4)) = Some (sign +:+ format_nat m, t)) as Hm.
  { intros m sign. rewrite lex_int_format by done. cbn. rewrite Hf. cbn. rewrite He. cbn.
    by rewrite !app_string_nil_r. }
  assert (∀ m, lex_number (format_nat m +:+ t) = Some (format_nat m, t)) as Hpos.
  { intros m. specialize (Hm m ""). unfold lex_number.
    destruct (format_nat_head m) as (c & s & d & E & Hc). rewrite E in *. rewrite app_string_cons in *.
    assert ((c == "-"%char) = false) as -> by (apply bool_decide_eq_false_2; intros ->; done). exact Hm. }
  destruct n as [|p|p]; [apply Hpos..|]. apply (Hm (Npos p) "-").
Qed.

(** ** Values round trip *)

Definition decoded (v : scalar) : jval :=
  match v with EString s => VStr (ToValidUTF8 s) | EInt n => VNum (FormatInt n) end.

Definition decoded_members (m : list (string * scalar)) : list (string * jval) :=
  (λ '(k, v), (ToValidUTF8 k, decoded v)) <$> m.

(** The first byte of a number. *)
Definition num_head (c : ascii) : bool := is_digit c || (c == "-"%char).

Lemma num_head_scalar c s :
  num_head c = true →
  expect "{" (String c s) = None ∧ expect "[" (String c s) = None ∧
  parse_scalar (skip_ws (String c s)) = ('(lit, r) ← lex_number (String c s); Some (VNum lit, r)).
Proof. destruct c as [[] [] [] [] [] [] [] []]; intros Hc; try discriminate; done. Qed.

Lemma quote_scalar s :
  expect "{" (String quote s) = None ∧ expect "[" (String quote s) = None ∧
  parse_scalar (skip_ws (String quote s)) =
    ('(t, r) ← string_lit (String quote s); Some (VStr t, r)).
Proof. done. Qed.

Lemma FormatInt_head n : ∃ c s, FormatInt n = String c s ∧ num_head c = true.
Proof.
  assert (∀ m, ∃ c s, format_nat m = String c s ∧ num_head c = true) as Hm.
  { intros m. destruct (format_nat_head m) as (c & s & d & -> & Hc). exists c, s. split; [done|].
    unfold num_head. by rewrite (digit_val_is_digit _ _ Hc). }
  destruct n as [|p|p]; [apply Hm..|]. by exists "-"%char, (format_nat (Npos p)).
Qed.

Lemma parse_value_scalar f v t :
  num_end t = true → parse_value (S f) (encode_scalar v +:+ t) = Some (decoded v, t).
Proof.
  intros Ht. destruct v as [s|n]; cbn [encode_scalar decoded].
  - pose proof (string_lit_encode s t) as Hs. unfold encode_string in *. rewrite app_string_cons in *.
    cbn [parse_value]. destruct (quote_scalar ((escape (String.length s) s +:+ str1 quote) +:+ t))
      as (-> & -> & ->). by rewrite Hs.
  - pose proof (lex_number_FormatInt n t Ht) as Hn. destruct (FormatInt_head n) as (c & s & E & Hc).
    rewrite E in *. rewrite app_string_cons in *. cbn [parse_value].
    destruct (num_head_scalar c (s +:+ t) Hc) as (-> & -> & ->). by rewrite Hn.
Qed.

Lemma parse_members_encode m f t :
  m ≠ [] → (length m < f)%nat →
  parse_members f (encode_members m +:+ String "}" t) = Some (decoded_members m, t).
Proof.
  revert f. induction m as [|[k v] m IH]; intros f Hm Hf; [done|].
  destruct f as [|[|f]]; cbn in Hf; [lia..|].
  assert (∃ tail, encode_members ((k, v) :: m) +:+ String "}" t =
                  encode_string k +:+ String ":" (encode_scalar v +:+ tail) ∧ num_end tail = true ∧
                  match expect "," tail with
                  | Some s4 => '(m, r) ← parse_members (S f) s4; Some ((ToValidUTF8 k, decoded v) :: m, r)
                  | None => r ← expect "}" tail; Some ([(ToValidUTF8 k, decoded v)], r)
                  end = Some (decoded_members ((k, v) :: m), t)) as (tail & -> & Ht & Htail).
  { destruct m as [|kv m].
    - exists (String "}" t). split_and!; [|done..]. unfold encode_members. cbn [fmap list_fmap Join].
      by rewrite <- !app_string_assoc.
    - exists (String "," (encode_members (kv :: m) +:+ String "}" t)). split_and!; [|done|].
      + unfold encode_members. cbn [fmap list_fmap Join]. by rewrite <- !app_string_assoc.
      + rewrite expect_here, IH by (done || cbn in *; lia). done. }
  cbn [parse_members]. rewrite string_lit_encode. cbn [mbind option_bind].
  rewrite expect_here by done. cbn [mbind option_bind]. rewrite parse_value_scalar by done. exact Htail.
Qed.

(** What [json.Marshal] writes, the decoder reads back, whatever follows. *)
Lemma parse_Marshal m t : parse (Marshal m +:+ t) = Some (VObj (decoded_members m), t).
Proof.
  unfold parse, Marshal. rewrite <- !app_string_assoc. change ("{" +:+ ?x) with (String "{" x).
  set (body := encode_members m +:+ "}" +:+ t).
  assert (length m < 2 * String.length (String "{" body) + 1)%nat as Hf.
  { subst body. rewrite <- app_string_cons, !length_app_string. cbn.
    assert (length m ≤ String.length (encode_members m) + 1)%nat; [|lia].
    unfold encode_members. induction m as [|[k v] [|kv m] IH]; cbn in *; [lia..|].
    rewrite !length_app_string. cbn. lia. }
  destruct (parse_fuel _) as [|f] eqn:Ef; unfold parse_fuel in Ef; [lia|].
  cbn [parse_value]. rewrite expect_here by done. destruct m as [|kv m]; [done|].
  assert (expect "}" body = None) as ->.
  { subst body. unfold encode_members. destruct kv as [k v], m as [|kv m]; done. }
  change body with (encode_members (kv :: m) +:+ String "}" t).
  rewrite parse_members_encode; [done..|]. lia.
Qed.

Lemma decode_Marshal_ascii s : string_all (λ c, code c <? 128) s = true → ToValidUTF8 s = s.
Proof.
  unfold ToValidUTF8. induction s as [|c s IH]; cbn; [done|]. intros [Hc Hs]%andb_prop.
  unfold rune_cut. rewrite Hc. cbn. unfold str1. by rewrite app_string_cons, app_string_nil_l, IH.
Qed.

(** ** The fuel is enough *)

Definition shorter (r s : string) : Prop := (String.length r < String.length s)%nat.

Lemma skip_ws_length s : (String.length (skip_ws s) ≤ String.length s)%nat.
Proof. induction s as [|c s IH]; cbn; [lia|]. destruct (json_space c); cbn; lia. Qed.

Lemma expect_shorter c s r : expect c s = Some r → shorter r s.
Proof.
  unfold expect, shorter. pose proof (skip_ws_length s). destruct (skip_ws s) as [|d s'] eqn:E; [done|].
  destruct (d == c); [|done]. intros [= ->]. cbn in *. lia.
Qed.

Lemma hex4_shorter s z r : hex4 s = Some (z, r) → shorter r s.
Proof.
  unfold hex4, shorter. intros E. repeat case_next; simplify_eq. cbn. lia.
Qed.

Lemma low_surrogate_shorter s z r : low_surrogate s = Some (z, r) → shorter r s.
Proof.
  unfold low_surrogate. intros E. repeat case_next; simplify_eq.
  match goal with H : hex4 _ = _ |- _ => apply hex4_shorter in H; unfold shorter in *; cbn; lia end.
Qed.

Lemma unicode_escape_shorter s t r : unicode_escape s = Some (t, r) → shorter r s.
Proof.
  unfold unicode_escape. destruct (hex4 s) as [[z s']|] eqn:Eh; [|done]. apply hex4_shorter in Eh.
  intros E. destruct (between _ _ _); [|by simplify_eq].
  destruct (low_surrogate s') as [[z' s'']|] eqn:El; [|by simplify_eq].
  apply low_surrogate_shorter in El. destruct (_ <? _); simplify_eq; unfold shorter in *; lia.
Qed.

Lemma parse_string_shorter f s t r : parse_string f s = Some (t, r) → shorter r s.
Proof.
  revert s t. induction f as [|f IH]; intros [|a s] t; cbn [parse_string]; try done.
  destruct (a == quote); [intros [= <- <-]; unfold shorter; cbn; lia|].
  intros (chunk & Ec & ((t' & r') & Er & [= <- <-])%bind_Some)%bind_Some. apply IH in Er.
  enough (String.length chunk.2 ≤ String.length s)%nat by (unfold shorter in *; cbn; lia).
  destruct (a == backslash).
  - destruct s as [|b s]; [done|]. destruct (b == "u"%char).
    + destruct chunk as [c1 c2]. apply unicode_escape_shorter in Ec. unfold shorter in Ec. cbn in *. lia.
    + destruct (simple_escape b); simplify_eq. cbn. lia.
  - destruct (code a <? 32); [done|]. destruct (rune_cut a s) as [r0 rest] eqn:Ecut.
    apply rune_cut_shorter in Ecut. by simplify_eq.
Qed.

Lemma string_lit_shorter s t r : string_lit s = Some (t, r) → shorter r s.
Proof.
  unfold string_lit. intros (s' & Es & Ep)%bind_Some. apply expect_shorter in Es.
  apply parse_string_shorter in Ep. unfold shorter in *. lia.
Qed.

Lemma take_digits_shorter s d r : take_digits s = (d, r) → d ≠ "" → shorter r s.
Proof.
  intros E Hd. assert (s = d +:+ r) as ->.
  { clear Hd. revert d r E. induction s as [|c s IH]; intros d r; cbn; [by intros [= <- <-]|].
    destruct (is_digit c); [|by intros [= <- <-]].
    destruct (take_digits s) as [d' r'] eqn:Et. intros [= <- <-]. by rewrite app_string_cons, <- (IH _ _ eq_refl). }
  unfold shorter. rewrite length_app_string. destruct d; [done|]. cbn. lia.
Qed.

Lemma digits1_shorter s d r : digits1 s = Some (d, r) → shorter r s.
Proof.
  unfold digits1. destruct (take_digits s) as [d' r'] eqn:E. destruct (d' == "") eqn:Ed; [done|].
  intros [= <- <-]. bool_simp. by eapply take_digits_shorter.
Qed.

Lemma lex_int_shorter s d r : lex_int s = Some (d, r) → shorter r s.
Proof.
  unfold lex_int. destruct s as [|c s]; [done|]. destruct (c == "0"%char); [|apply digits1_shorter].
  intros [= <- <-]. unfold shorter. cbn. lia.
Qed.

Lemma lex_frac_length s d r : lex_frac s = Some (d, r) → (String.length r ≤ String.length s)%nat.
Proof.
  unfold lex_frac. destruct s as [|c s]; [by intros [= <- <-]|].
  destruct (c == "."%char); [|by intros [= <- <-]].
  intros ((d' & r') & E & [= <- <-])%bind_Some. apply digits1_shorter in E. unfold shorter in E. cbn. lia.
Qed.

Lemma lex_exp_length s d r : lex_exp s = Some (d, r) → (String.length r ≤ String.length s)%nat.
Proof.
  unfold lex_exp. destruct s as [|c s]; [by intros [= <- <-]|].
  destruct (_ || _); [|by intros [= <- <-]].
  destruct (match s with EmptyString => _ | _ => _ end) as [sign s2] eqn:Es.
  intros ((d' & r') & E & [= <- <-])%bind_Some. apply digits1_shorter in E. unfold shorter in E.
  assert (String.length s2 ≤ String.length s)%nat; [|cbn; lia].
  destruct s as [|g s]; [by simplify_eq|]. destruct (_ || _); simplify_eq; cbn; lia.
Qed.

Lemma lex_number_shorter s d r : lex_number s = Some (d, r) → shorter r s.
Proof.
  unfold lex_number. destruct (match s with EmptyString => _ | _ => _ end) as [sign s1] eqn:Es.
  intros ((i & s2) & Ei & ((fr & s3) & Ef & ((ex & s4) & Ee & [= <- <-])%bind_Some)%bind_Some)%bind_Some.
  apply lex_int_shorter in Ei. apply lex_frac_length in Ef. apply lex_exp_length in Ee.
  assert (String.length s1 ≤ String.length s)%nat; [|unfold shorter in *; lia].
  destruct s as [|c s]; [by simplify_eq|]. destruct (c == "-"%char); simplify_eq; cbn; lia.
Qed.

Lemma literal_shorter name s v w r : name ≠ "" → literal name s v = Some (w, r) → shorter r s.
Proof.
  unfold literal. intros Hn (r' & ->%CutPrefix_inv & [= _ <-])%bind_Some.
  unfold shorter. rewrite length_app_string. destruct name; [done|]. cbn. lia.
Qed.

Lemma parse_scalar_shorter s v r : parse_scalar s = Some (v, r) → shorter r s.
Proof.
  unfold parse_scalar. destruct s as [|c s]; [done|]. destruct (c == quote).
  { intros ((t & r') & E & [= <- <-])%bind_Some. apply parse_string_shorter in E.
    unfold shorter in *. cbn. lia. }
  destruct (c == "t"%char); [by apply literal_shorter|]. destruct (c == "f"%char); [by apply literal_shorter|].
  destruct (c == "n"%char); [by apply literal_shorter|].
  intros ((lit & r') & E & [= <- <-])%bind_Some. by apply lex_number_shorter in E.
Qed.

(** Every parser consumes something. *)
Ltac shorter :=
  repeat match goal with
  | H : expect _ _ = Some _ |- _ => apply expect_shorter in H
  | H : string_lit _ = Some _ |- _ => apply string_lit_shorter in H
  end; unfold shorter in *; cbn in *; lia.

Lemma parse_shorter f :
  (∀ s v r, parse_value f s = Some (v, r) → shorter r s) ∧
  (∀ s m r, parse_members f s = Some (m, r) → shorter r s) ∧
  (∀ s l r, parse_elems f s = Some (l, r) → shorter r s).
Proof.
  induction f as [|f (IHv & IHm & IHe)]; [done|]. split_and!; intros s v r; cbn [parse_value parse_members parse_elems].
  - destruct (expect "{" s) as [s1|] eqn:E1; [|destruct (expect "[" s) as [s1|] eqn:E2].
    + destruct (expect "}" s1) as [r'|] eqn:E3; [intros [= <- <-]; shorter|].
      intros ((m & r') & E & [= <- <-])%bind_Some. apply IHm in E. shorter.
    + destruct (expect "]" s1) as [r'|] eqn:E3; [intros [= <- <-]; shorter|].
      intros ((m & r') & E & [= <- <-])%bind_Some. apply IHe in E. shorter.
    + intros E%parse_scalar_shorter. pose proof (skip_ws_length s). shorter.
  - intros ((k & s1) & Ek & (s2 & Ec & ((w & s3) & Ev & E)%bind_Some)%bind_Some)%bind_Some. apply IHv in Ev.
    destruct (expect "," s3) as [s4|] eqn:E4.
    + apply bind_Some in E as ((m & r') & Em & [= <- <-]). apply IHm in Em. shorter.
    + apply bind_Some in E as (r' & Er & [= <- <-]). shorter.
  - intros ((w & s3) & Ev & E)%bind_Some. apply IHv in Ev.
    destruct (expect "," s3) as [s4|] eqn:E4.
    + apply bind_Some in E as ((m & r') & Em & [= <- <-]). apply IHe in Em. shorter.
    + apply bind_Some in E as (r' & Er & [= <- <-]). shorter.
Qed.

(** One more unit of fuel changes nothing once there is enough. *)
Lemma parse_fuel_S f :
  (∀ s, (2 * String.length s + 1 ≤ f)%nat → parse_value (S f) s = parse_value f s) ∧
  (∀ s, (2 * String.length s + 1 ≤ f)%nat → parse_members (S f) s = parse_members f s) ∧
  (∀ s, (2 * String.length s + 2 ≤ f)%nat → parse_elems (S f) s = parse_elems f s).
Proof.
  induction f as [|f (IHv & IHm & IHe)]; [split_and!; intros; lia|].
  pose proof (parse_shorter f) as (Hv & _ & _).
  remember (S f) as g eqn:Eg.
  split_and!; intros s Hs; cbn [parse_value parse_members parse_elems];
    (match goal with |- ?l = _ => set (lhs := l) end); rewrite Eg;
    cbn [parse_value parse_members parse_elems]; subst lhs.
  - destruct (expect "{" s) as [s1|] eqn:E1; [|destruct (expect "[" s) as [s1|] eqn:E2; [|done]];
      [apply expect_shorter in E1|apply expect_shorter in E2]; unfold shorter in *.
    + destruct (expect "}" s1); [done|]. rewrite IHm by lia. done.
    + destruct (expect "]" s1); [done|]. rewrite IHe by lia. done.
  - destruct (string_lit s) as [[k s1]|] eqn:Ek; [|done]. cbn.
    destruct (expect ":" s1) as [s2|] eqn:Ec; [|done]. cbn.
    apply string_lit_shorter in Ek. apply expect_shorter in Ec. unfold shorter in *.
    rewrite IHv by lia. destruct (parse_value f s2) as [[v s3]|] eqn:Ev; [|done]. cbn.
    apply Hv in Ev. destruct (expect "," s3) as [s4|] eqn:E4; [|done]. apply expect_shorter in E4.
    unfold shorter in *. rewrite IHm by lia. done.
  - rewrite IHv by lia. destruct (parse_value f s) as [[v s3]|] eqn:Ev; [|done]. cbn.
    apply Hv in Ev. destruct (expect "," s3) as [s4|] eqn:E4; [|done]. apply expect_shorter in E4.
    unfold shorter in *. rewrite IHe by lia. done.
Qed.

(** The parser never stops for want of fuel. *)
Lemma parse_fuel_enough f s : (parse_fuel s ≤ f)%nat → parse_value f s = parse s.
Proof.
  unfold parse. induction 1 as [|f Hf IH]; [done|]. rewrite <- IH. apply parse_fuel_S.
  unfold parse_fuel in Hf. lia.
Qed.
