(* ===== verification/Api.v ===== *)
(** * The HTTP API

    [internal/api]: routing, bearer authentication, the three lease handlers,
    request bodies and error envelopes, correlation IDs and the readiness gate.
    Handlers are programs over the lease manager's three calls. A response
    keeps its JSON body as a tree of fields; logging and metrics appear as the
    outcome and the error detail that a request leaves for them. *)

From S2P Require Import Prelude GoStrings Store Manager Json Operator Auth JsonText.

(** ** Requests and responses *)

Record AcquireRequest := MkAcquireRequest { aqHolder : string; aqTTLSeconds : Z }.
Record RenewRequest := MkRenewRequest { nqHolder : string; nqFencingToken : Z; nqTTLSeconds : Z }.
Record ReleaseRequest := MkReleaseRequest { lqHolder : string; lqFencingToken : Z }.

Definition AcquireRequest_fields : list (string * field AcquireRequest) :=
  [("holder", FString (λ s r, MkAcquireRequest s (aqTTLSeconds r)));
   ("ttlSeconds", FInt32 (λ n r, MkAcquireRequest (aqHolder r) n))].

Definition RenewRequest_fields : list (string * field RenewRequest) :=
  [("holder", FString (λ s r, MkRenewRequest s (nqFencingToken r) (nqTTLSeconds r)));
   ("fencingToken", FInt32 (λ n r, MkRenewRequest (nqHolder r) n (nqTTLSeconds r)));
   ("ttlSeconds", FInt32 (λ n r, MkRenewRequest (nqHolder r) (nqFencingToken r) n))].

Definition ReleaseRequest_fields : list (string * field ReleaseRequest) :=
  [("holder", FString (λ s r, MkReleaseRequest s (lqFencingToken r)));
   ("fencingToken", FInt32 (λ n r, MkReleaseRequest (lqHolder r) n))].

(** The response fields mirror [lease.AcquireResult]. *)
Record LeaseResponse := MkLeaseResponse {
  pAcquired : bool;
  pHolder : string;
  pFencingToken : Z;
  pExpiresAt : Z;
  pAcquiredAt : Z }.

Definition leaseResponseFrom (r : AcquireResult) : LeaseResponse :=
  MkLeaseResponse (aAcquired r) (aHolder r) (aFencingToken r) (aExpiresAt r) (aAcquiredAt r).

Inductive body :=
| BLease (r : LeaseResponse)
| BError (msg requestID : string)
| BPlain (text : string)
| BNone.

(** A response with what it recorded on the request context. *)
Record response := MkResponse {
  status : Z;
  rbody : body;
  outcome : string;
  errDetail : option error }.

(** An HTTP request: the body is what could be read of it and the error that
    ended the reading. *)
Record request := MkRequest {
  qMethod : string;
  qPath : string;
  qAuthorization : string;
  qRequestId : string;
  qTraceparent : string;
  qBody : string;
  qBodyErr : option error }.

(** What the context carries: the correlation ID of the observability
    middleware, if it is installed, and the authenticated identity. *)
Record context := MkContext { cRequestID : option string; cIdentity : option Identity }.

Definition WithIdentity (c : context) (id : Identity) : context := MkContext (cRequestID c) (Some id).

Definition outcomeAcquired : string := "acquired".
Definition outcomeHeldByOther : string := "held-by-other".
Definition outcomeRenewed : string := "renewed".
Definition outcomeReleased : string := "released".
Definition outcomeConflict : string := "conflict".
Definition outcomeUnauthorized : string := "unauthorized".
Definition outcomeInvalidKey : string := "invalid-key".
Definition outcomeError : string := "error".

(** [recordOutcome] has an effect only when a request context is installed. *)
Definition recordOutcome (c : context) (o : string) : string :=
  if bool_decide (is_Some (cRequestID c)) then o else "".

Definition recordError (c : context) (e : error) : option error :=
  if bool_decide (is_Some (cRequestID c)) then Some e else None.

(** [err.Error()] *)
Fixpoint err_text (e : error) : string :=
  match e with
  | ErrNotFound => "lease not found" | ErrConflict => "lease conflict"
  | ErrCtx => "context canceled" | ErrNotExist => "file does not exist"
  | ErrSRCH => "no such process" | ErrMsg m => m
  | ErrWrap m e => m +:+ ": " +:+ err_text e
  end.

Definition writeError (st : Z) (msg : string) : response := MkResponse st (BError msg "") "" None.

Definition with_outcome (o : string) (r : response) : response :=
  MkResponse (status r) (rbody r) o (errDetail r).

(** ** Correlation IDs *)

Definition safe_id_char (c : ascii) : bool :=
  let n := code c in
  between 97 n 122 || between 65 n 90 || between 48 n 57 || (n =? 45) || (n =? 95).

Definition isSafeRequestID (s : string) : bool :=
  if (s == "") || (len s >? 64) then false else string_all safe_id_char s.

Definition isHex (s : string) : bool := string_all hex_digit s && (len s >? 0).

(** The byte at an index within the string. *)
Definition byte_at (s : string) (i : nat) : option ascii := String.get i s.

Definition traceID (traceparent : string) : string :=
  if (len traceparent <? 2 + 1 + 32 + 1) || negb (bool_decide (byte_at traceparent 2 = Some "-"%char))
  then ""
  else
    let id := String.substring 3 32 traceparent in
    if negb (bool_decide (byte_at traceparent 35 = Some "-"%char)) || negb (isHex id) then "" else id.

(** [random] is what [randomID] returns on this request: the hexadecimal form
    of 16 random bytes, or "unknown" when there is no randomness. *)
Definition requestID (random : string) (r : request) : string :=
  if isSafeRequestID (qRequestId r) then qRequestId r
  else if qTraceparent r != "" then
    let id := traceID (qTraceparent r) in
    if id != "" then id else random
  else random.

Definition writeInternalError (random : string) (c : context) (r : request) (e : error) : response :=
  let id := default "" (cRequestID c) in
  MkResponse 500 (BError "internal error" (if id == "" then requestID random r else id))
    (recordOutcome c outcomeError) (recordError c e).

(** ** Bodies *)

Definition maxLeaseBodyBytes : Z := 4096.

(** [io.ReadAll] of the limited reader, then one JSON value into the struct and
    nothing but white space after it. *)
Definition decodeJSON {T} (fs : list (string * field T)) (zero : T) (r : request) : response + T :=
  if len (qBody r) >? maxLeaseBodyBytes
  then inl (writeError 413 "request body must be at most 4096 bytes")
  else
    match qBodyErr r with
    | Some _ => inl (writeError 400 "could not read request body")
    | None =>
      match parse (qBody r) with
      | None => inl (writeError 400 "invalid json body")
      | Some (v, rest) =>
        match store_struct fs v zero with
        | None => inl (writeError 400 "invalid json body")
        | Some x =>
          if skip_ws rest == "" then inr x
          else inl (writeError 400 "request body must contain one JSON object")
        end
      end
    end.

(** ** Handlers *)

Inductive managerE : Type → Type :=
| MAcquire (key : Key) (holder : string) (ttl : Z) : managerE (result AcquireResult)
| MRenew (key : Key) (holder : string) (token ttl : Z) : managerE (result AcquireResult)
| MRelease (key : Key) (holder : string) (token : Z) : managerE (result unit).

(** [authorize]: [None] lets the request through. *)
Definition authorize (c : context) (authz : option Authorizer) (namespace holder : string)
    : option response :=
  match cIdentity c with
  | None => None
  | Some id =>
    match authz with
    | None => Some (writeError 403 "forbidden")
    | Some a =>
      if negb (is_ok (AuthorizeNamespace a (Some id) namespace))
      then Some (writeError 403 "not authorized for this namespace")
      else if negb (is_ok (AuthorizeHolder a (Some id) holder))
      then Some (writeError 403 "holder not authorized for this identity")
      else None
    end
  end.

Section handlers.
Context `{DNSValidation} (random : string) (authz : option Authorizer).

Definition validateKey (c : context) (key : Key) : option response :=
  match ValidateKey key with
  | Err e => Some (with_outcome (recordOutcome c outcomeInvalidKey) (writeError 400 (err_text e)))
  | Ok _ => None
  end.

(** The checks shared by the handlers, in their order. *)
Definition guarded (c : context) (key : Key) (holder : string) (k : prog managerE response)
    : prog managerE response :=
  match authorize c authz (kNamespace key) holder with
  | Some resp => mret resp
  | None => match validateKey c key with Some resp => mret resp | None => k end
  end.

(** [time.Duration(s) * time.Second] *)
Definition seconds (s : Z) : Z := wrap64 (s * Second).

Definition granted (c : context) (won : string) (res : AcquireResult) : response :=
  MkResponse 200 (BLease (leaseResponseFrom res))
    (recordOutcome c (if aAcquired res then won else outcomeHeldByOther)) None.

Definition handleAcquire (c : context) (key : Key) (r : request) : prog managerE response :=
  match decodeJSON AcquireRequest_fields (MkAcquireRequest "" 0) r with
  | inl resp => mret resp
  | inr req =>
    match ValidateHolder (aqHolder req) with
    | Err e => mret (writeError 400 (err_text e))
    | Ok _ =>
      if aqTTLSeconds req <=? 0 then mret (writeError 400 "ttlSeconds must be positive")
      else
        guarded c key (aqHolder req) (
          res ← trigger (MAcquire key (aqHolder req) (seconds (aqTTLSeconds req)));
          match res with
          | Err e => mret (writeInternalError random c r e)
          | Ok res => mret (granted c outcomeAcquired res)
          end)
    end
  end.

Definition handleRenew (c : context) (key : Key) (r : request) : prog managerE response :=
  match decodeJSON RenewRequest_fields (MkRenewRequest "" 0 0) r with
  | inl resp => mret resp
  | inr req =>
    match ValidateHolder (nqHolder req) with
    | Err e => mret (writeError 400 (err_text e))
    | Ok _ =>
      if nqFencingToken req =? 0 then mret (writeError 400 "fencingToken must be non-zero")
      else if nqTTLSeconds req <=? 0 then mret (writeError 400 "ttlSeconds must be positive")
      else
        guarded c key (nqHolder req) (
          res ← trigger (MRenew key (nqHolder req) (nqFencingToken req) (seconds (nqTTLSeconds req)));
          match res with
          | Err e => mret (writeInternalError random c r e)
          | Ok res => mret (granted c outcomeRenewed res)
          end)
    end
  end.

Definition handleRelease (c : context) (key : Key) (r : request) : prog managerE response :=
  match decodeJSON ReleaseRequest_fields (MkReleaseRequest "" 0) r with
  | inl resp => mret resp
  | inr req =>
    if lqHolder req == "" then mret (writeError 400 "holder is required")
    else
      guarded c key (lqHolder req) (
        res ← trigger (MRelease key (lqHolder req) (lqFencingToken req));
        match res with
        | Err e =>
          if errors_Is e ErrConflict then
            mret (with_outcome (recordOutcome c outcomeConflict)
                    (writeError 409 "lease held by another identity or token"))
          else mret (writeInternalError random c r e)
        | Ok _ => mret (MkResponse 204 BNone (recordOutcome c outcomeReleased) None)
        end)
  end.
End handlers.

(** ** Authentication *)

Definition bearerToken (r : request) : option string :=
  let h := qAuthorization r in
  if h == "" then None
  else if negb (HasPrefix h "Bearer ") then None
  else
    let token := TrimSpace (TrimPrefix h "Bearer ") in
    if token == "" then None else Some token.

Definition AuthMiddleware `{Authenticator A} (authn : A)
    (next : context → request → prog managerE response) (c : context) (r : request)
    : prog managerE response :=
  match bearerToken r with
  | None =>
    mret (with_outcome (recordOutcome c outcomeUnauthorized)
            (writeError 401 "missing or malformed Authorization header"))
  | Some token =>
    match Authenticate authn token with
    | Ok (Some id) => next (WithIdentity c id) r
    | _ => mret (with_outcome (recordOutcome c outcomeUnauthorized) (writeError 401 "unauthorized"))
    end
  end.

(** ** Routing *)

(** [url.PathUnescape], [None] on a malformed escape. *)
Fixpoint PathUnescape (s : string) : option string :=
  match s with
  | EmptyString => Some EmptyString
  | String c s' =>
    if c == "%"%char then
      match s' with
      | String a (String b s2) =>
        match hex_val a, hex_val b with
        | Some x, Some y => String (chr (x * 16 + y)) <$> PathUnescape s2
        | _, _ => None
        end
      | _ => None
      end
    else String c <$> PathUnescape s'
  end.

(** The segments of a path in the form [cleanPath] leaves alone, unescaped
    where that is possible. *)
Definition segments (path : string) : option (list string) :=
  match Split "/" path with
  | EmptyString :: segs =>
    if forallb (λ s, negb ((s == "") || (s == ".") || (s == ".."))) segs
    then Some ((λ s, default s (PathUnescape s)) <$> segs)
    else None
  | _ => None
  end.

Inductive lease_op := OpAcquire | OpRenew | OpRelease.

Inductive route := RHealthz | RReadyz | RLease (op : lease_op) (key : Key).

Definition op_name (op : lease_op) : string :=
  match op with OpAcquire => "acquire" | OpRenew => "renew" | OpRelease => "release" end.

Definition lease_route (segs : list string) : option route :=
  match segs with
  | [v; nss; ns; ls; name; op] =>
    if (v == "v1alpha1") && (nss == "namespaces") && (ls == "leases") then
      if op == op_name OpAcquire then Some (RLease OpAcquire (MkKey ns name))
      else if op == op_name OpRenew then Some (RLease OpRenew (MkKey ns name))
      else if op == op_name OpRelease then Some (RLease OpRelease (MkKey ns name))
      else None
    else None
  | _ => None
  end.

(** The patterns [NewMux] registers; [None] for a request none of them matches,
    which the mux answers itself. *)
Definition match_route (leases : bool) (r : request) : option route :=
  segs ← segments (qPath r);
  if (qMethod r == "GET") || (qMethod r == "HEAD") then
    if bool_decide (segs = ["healthz"]) then Some RHealthz
    else if bool_decide (segs = ["readyz"]) then Some RReadyz
    else None
  else if (qMethod r == "POST") && leases then lease_route segs
  else None.

(** ** Readiness *)

Definition readinessCacheTTL : Z := Second.
Definition readinessProbeTimeout : Z := 2 * Second.

Inductive gateE : Type → Type :=
| GNow : gateE Z
| GReady (timeout : Z) : gateE (result unit).

Record readinessGate := MkGate { checkedAt : Z; lastErr : result unit; primed : bool }.

Definition new_gate : readinessGate := MkGate 0 (Ok ()) false.

(** The cached answer is still within its window. *)
Definition cached (ttl : Z) (g : readinessGate) : prog gateE bool :=
  if primed g then now ← trigger GNow; mret (Sub now (checkedAt g) <? ttl) else mret false.

(** [ready] under the gate's mutex; [checker] tells whether there is a backend. *)
Definition ready (checker : bool) (ttl timeout : Z) (g : readinessGate)
    : prog gateE (result unit * readinessGate) :=
  if negb checker then mret (Ok (), g)
  else
    fresh ← cached ttl g;
    match fresh with
    | true => mret (lastErr g, g)
    | false =>
      err ← trigger (GReady timeout);
      now ← trigger GNow;
      mret (err, MkGate now err true)
    end.

Definition writePlain (st : Z) (text : string) : response := MkResponse st (BPlain text) "" None.

Definition line (s : string) : string := s +:+ newline.

Definition readyzHandler (checker : bool) (g : readinessGate) : prog gateE (response * readinessGate) :=
  '(err, g') ← ready checker readinessCacheTTL readinessProbeTimeout g;
  mret (if is_ok err then writePlain 200 (line "ok") else writePlain 503 (line "not ready"), g').

Definition handleHealthz : response := writePlain 200 (line "ok").

(** ** The server *)

Section server.
Context `{DNSValidation} `{Authenticator A}.

(** The lease routes of [NewMux]: wrapped in authentication when there is an
    authenticator, with the default authorizer when none is given. *)
Definition lease_handler (random : string) (authz : option Authorizer) (op : lease_op) (key : Key)
    (c : context) (r : request) : prog managerE response :=
  match op with
  | OpAcquire => handleAcquire random authz c key r
  | OpRenew => handleRenew random authz c key r
  | OpRelease => handleRelease random authz c key r
  end.

Definition serve_lease (authn : option A) (authz : option Authorizer) (random : string)
    (op : lease_op) (key : Key) (c : context) (r : request) : prog managerE response :=
  match authn with
  | Some a =>
    let authz := Some (default NewDefaultAuthorizer authz) in
    AuthMiddleware a (lease_handler random authz op key) c r
  | None => lease_handler random authz op key c r
  end.

(** [ensureRequestContext] of the observability middleware. *)
Definition ensureRequestContext (random : string) (c : context) (r : request) : context :=
  match cRequestID c with
  | Some _ => c
  | None => MkContext (Some (requestID random r)) (cIdentity c)
  end.

(** A request for a lease route, behind the observability middleware when
    [obs] is set. *)
Definition serve (obs : bool) (authn : option A) (authz : option Authorizer) (random : string)
    (r : request) : option (prog managerE response) :=
  let c := MkContext None None in
  let c := if obs then ensureRequestContext random c r else c in
  match match_route true r with
  | Some (RLease op key) => Some (serve_lease authn authz random op key c r)
  | _ => None
  end.
End server.

(** The manager's calls as programs over the store. *)
Definition run_manager `{DNSValidation} X (e : managerE X) : prog storeE X :=
  match e with
  | MAcquire key holder ttl => Acquire key holder ttl
  | MRenew key holder token ttl => Renew key holder token ttl
  | MRelease key holder token => Release key holder token
  end.

Fixpoint interp {E F : Type → Type} (h : ∀ X, E X → prog F X) {A} (p : prog E A) : prog F A :=
  match p with
  | Ret a => Ret a
  | Op e k => h _ e ≫= λ x, interp h (k x)
  end.
