(* ===== verification/ApiTheorems.v ===== *)
(** * Theorems on the HTTP API

    Who reaches the lease manager and with what, what a failing backend shows
    to a caller, and how often the readiness route probes the backend. *)

From S2P Require Import Prelude GoStrings Store MemStore Manager RFC1123 Auth JsonText Api.

(** ** Calls of the manager *)

(** A call of the lease manager, with the arguments that matter to the checks. *)
Record call := MkCall { cOp : lease_op; cKey : Key; cHolder : string; cTTL : option Z }.

Definition call_of X (e : managerE X) (_ : X) : call :=
  match e with
  | MAcquire key holder ttl => MkCall OpAcquire key holder (Some ttl)
  | MRenew key holder _ ttl => MkCall OpRenew key holder (Some ttl)
  | MRelease key holder _ => MkCall OpRelease key holder None
  end.

(** A lease duration the API lets through: whole seconds within int32. *)
Definition ttl_ok (ttl : Z) : Prop := ∃ n, 1 ≤ n ≤ MaxInt32 ∧ ttl = n * Second.

Lemma seconds_exact n : 1 ≤ n ≤ MaxInt32 → seconds n = n * Second.
Proof.
  intros Hn. apply wrap64_id. unfold int64, MinInt64, MaxInt64, MaxInt32, Second in *. lia.
Qed.

(** What the handlers guarantee of a call for [op] on [key]. *)
Definition call_checked `{DNSValidation} (op : lease_op) (key : Key) (v : call) : Prop :=
  cOp v = op ∧ cKey v = key ∧ cHolder v ≠ "" ∧ ValidateKey key = Ok () ∧
  (op ≠ OpRelease → len (cHolder v) ≤ MaxHolderBytes) ∧ ∀ ttl, cTTL v = Some ttl → ttl_ok ttl.

(** At most one call, and only one that [P] allows. *)
Definition once (P : call → Prop) (pre : list call) (v : call) : Prop := pre = [] ∧ P v.

Section checks.
Context `{DNSValidation} (random : string) (authz : option Authorizer).

Lemma ValidateHolder_ok h u : ValidateHolder h = Ok u → h ≠ "" ∧ len h ≤ MaxHolderBytes.
Proof.
  unfold ValidateHolder. intros E. repeat case_next; simplify_eq. bool_simp. split; [done|lia].
Qed.

Lemma ValidateKey_unit key u : ValidateKey key = Ok u → ValidateKey key = Ok ().
Proof. by destruct u. Qed.

(** int32 fields hold int32 values. *)
Lemma store_int32 {T} (set : Z → T → T) v x y :
  store (FInt32 set) v x = Some y → y = x ∨ ∃ n, int32 n ∧ y = set n x.
Proof.
  destruct v; cbn; try done; [intros [= <-]; by left|].
  destruct (ParseInt lit 64) as [n|]; [|done]. cbn. destruct (_ && _) eqn:E; [|done].
  intros [= <-]. right. exists n. split; [|done]. unfold int32. lia.
Qed.

Lemma store_members_inv {T} (P : T → Prop) (fs : list (string * field T)) m x y :
  (∀ k f v x y, (k, f) ∈ fs → P x → store f v x = Some y → P y) →
  P x → store_members fs m x = Some y → P y.
Proof.
  intros Hf. revert x. induction m as [|[k v] m IH]; intros x Hx; cbn; [by intros [= <-]|].
  intros (f & Ef & (x' & Ex & E)%bind_Some)%bind_Some. eapply IH; [|done].
  assert (∃ k', (k', f) ∈ fs) as [k' Hin].
  { unfold find_field in Ef. destruct (List.find (λ f, f.1 == k) fs) as [[k' f']|] eqn:E1.
    - apply find_some in E1 as [Hin _]. injection Ef as ->. exists k'. by apply list_elem_of_In.
    - apply fmap_Some in Ef as ([k' f'] & E2 & ->). apply find_some in E2 as [Hin _].
      exists k'. by apply list_elem_of_In. }
  by eapply Hf.
Qed.

Lemma decodeJSON_inv {T} (P : T → Prop) (fs : list (string * field T)) zero r req :
  (∀ k f v x y, (k, f) ∈ fs → P x → store f v x = Some y → P y) →
  P zero → decodeJSON fs zero r = inr req → P req.
Proof.
  intros Hf Hz. unfold decodeJSON. intros E. repeat case_next; simplify_eq.
  unfold store_struct in *. repeat case_next; simplify_eq; [done|]. by eapply store_members_inv.
Qed.

Lemma decode_acquire_ttl r req :
  decodeJSON AcquireRequest_fields (MkAcquireRequest "" 0) r = inr req → int32 (aqTTLSeconds req).
Proof.
  apply (decodeJSON_inv (λ req, int32 (aqTTLSeconds req))); [|done].
  intros k f v x y Hin Hx. unfold AcquireRequest_fields in Hin.
  repeat (apply elem_of_cons in Hin as [[= -> ->]|Hin]); [|..|by apply elem_of_nil in Hin].
  - by destruct v; cbn; intros E; simplify_eq.
  - intros [->|(n & Hn & ->)]%store_int32; done.
Qed.

Lemma decode_renew_ttl r req :
  decodeJSON RenewRequest_fields (MkRenewRequest "" 0 0) r = inr req → int32 (nqTTLSeconds req).
Proof.
  apply (decodeJSON_inv (λ req, int32 (nqTTLSeconds req))); [|done].
  intros k f v x y Hin Hx. unfold RenewRequest_fields in Hin.
  repeat (apply elem_of_cons in Hin as [[= -> ->]|Hin]); [|..|by apply elem_of_nil in Hin].
  - by destruct v; cbn; intros E; simplify_eq.
  - intros [->|(n & Hn & ->)]%store_int32; done.
  - intros [->|(n & Hn & ->)]%store_int32; done.
Qed.

Lemma ttl_ok_seconds n : int32 n → (n <=? 0) = false → ttl_ok (seconds n).
Proof.
  intros Hn H0. unfold int32 in Hn. exists n. split; [lia|]. apply seconds_exact. lia.
Qed.

(** A request that passes the shared checks is authorized and its key valid. *)
Lemma wp_guarded P c key holder k :
  (authorize c authz (kNamespace key) holder = None → ValidateKey key = Ok () →
   wp call_of (once P) [] k (λ _ tr, (length tr ≤ 1)%nat)) →
  wp call_of (once P) [] (guarded authz c key holder k) (λ _ tr, (length tr ≤ 1)%nat).
Proof.
  intros Hk. unfold guarded. destruct (authorize _ _ _ _) eqn:Ea; [cbn; lia|].
  unfold validateKey. destruct (ValidateKey key) as [[]|e] eqn:Ek; [auto|cbn; lia].
Qed.

Lemma wp_lease_handler op key c r :
  wp call_of (once (λ v, call_checked op key v ∧ authorize c authz (kNamespace key) (cHolder v) = None)) []
    (lease_handler random authz op key c r) (λ _ tr, (length tr ≤ 1)%nat).
Proof.
  destruct op; cbn [lease_handler]; [unfold handleAcquire|unfold handleRenew|unfold handleRelease].
  - destruct (decodeJSON _ _ _) as [|req] eqn:Ed; [cbn; lia|]. apply decode_acquire_ttl in Ed.
    destruct (ValidateHolder _) eqn:Eh; [|cbn; lia]. apply ValidateHolder_ok in Eh as [Hne Hl].
    destruct (_ <=? 0) eqn:Et; [cbn; lia|]. apply wp_guarded. intros Ha Hk. apply wp_op. intros res.
    split; [split; [done|]; unfold call_checked; naive_solver eauto using ttl_ok_seconds|].
    destruct res; cbn; lia.
  - destruct (decodeJSON _ _ _) as [|req] eqn:Ed; [cbn; lia|]. apply decode_renew_ttl in Ed.
    destruct (ValidateHolder _) eqn:Eh; [|cbn; lia]. apply ValidateHolder_ok in Eh as [Hne Hl].
    destruct (_ =? 0); [cbn; lia|]. destruct (_ <=? 0) eqn:Et; [cbn; lia|].
    apply wp_guarded. intros Ha Hk. apply wp_op. intros res.
    split; [split; [done|]; unfold call_checked; naive_solver eauto using ttl_ok_seconds|].
    destruct res; cbn; lia.
  - destruct (decodeJSON _ _ _) as [|req] eqn:Ed; [cbn; lia|].
    destruct (_ == _) eqn:Eh; [cbn; lia|]. bool_simp.
    apply wp_guarded. intros Ha Hk. apply wp_op. intros res.
    split; [split; [done|]; unfold call_checked; naive_solver|].
    destruct res; [|destruct (errors_Is _ _)]; cbn; lia.
Qed.
End checks.

(** 5xx comes from [writeInternalError] only. *)
Definition only_internal (random : string) (c : context) (r : request) (resp : response) : Prop :=
  500 ≤ status resp → ∃ e, resp = writeInternalError random c r e.

Lemma only_internal_small random c r resp : status resp < 500 → only_internal random c r resp.
Proof. unfold only_internal. lia. Qed.

Lemma authorize_status c authz ns h resp : authorize c authz ns h = Some resp → status resp < 500.
Proof. unfold authorize. intros E. repeat case_next; simplify_eq; done. Qed.

Lemma decodeJSON_status {T} (fs : list (string * field T)) zero r resp :
  decodeJSON fs zero r = inl resp → status resp < 500.
Proof. unfold decodeJSON. intros E. repeat case_next; simplify_eq; done. Qed.

Section internal.
Context `{DNSValidation} (random : string) (authz : option Authorizer).

Lemma wp_guarded_5xx c r key holder k :
  wp call_of (λ _ _, True) [] k (λ resp _, only_internal random c r resp) →
  wp call_of (λ _ _, True) [] (guarded authz c key holder k) (λ resp _, only_internal random c r resp).
Proof.
  intros Hk. unfold guarded. destruct (authorize _ _ _ _) eqn:Ea.
  - by eapply only_internal_small, authorize_status.
  - unfold validateKey. destruct (ValidateKey key); [done|]. by apply only_internal_small.
Qed.

Lemma wp_lease_handler_5xx op key c r :
  wp call_of (λ _ _, True) [] (lease_handler random authz op key c r)
    (λ resp _, only_internal random c r resp).
Proof.
  destruct op; cbn [lease_handler]; [unfold handleAcquire|unfold handleRenew|unfold handleRelease];
    (destruct (decodeJSON _ _ _) as [|req] eqn:Ed; [by eapply only_internal_small, decodeJSON_status|]);
    repeat (destruct (ValidateHolder _) || destruct (_ <=? 0) || destruct (_ =? 0) || destruct (_ == "");
            try by apply only_internal_small);
    apply wp_guarded_5xx, wp_op; intros res; (split; [done|]);
    destruct res as [res|e]; try (by apply only_internal_small); try (by exists e).
  destruct (errors_Is _ _); [by apply only_internal_small|by exists e].
Qed.
End internal.

(** An identity is let through only as a holder of its own tenant. *)
Lemma authorize_default c id ns h :
  cIdentity c = Some id → authorize c (Some NewDefaultAuthorizer) ns h = None →
  iTenant id ≠ "" ∧ contains_char "/" (iTenant id) = false ∧ root h = iTenant id.
Proof.
  intros Hid. unfold authorize. rewrite Hid.
  destruct (is_ok (AuthorizeNamespace _ _ _)); cbn [negb]; [|intros [=]].
  destruct (AuthorizeHolder _ _ _) as [[]|e] eqn:E; cbn [is_ok negb]; [|intros [=]]. intros _.
  unfold NewDefaultAuthorizer, DefaultAuthorizer in E. cbn [AuthorizeHolder] in E.
  apply AuthorizeHolder_ok in E as (t & Et & Hs & Hr).
  unfold ResolveTenant, IdentityResolver in Et. destruct (iTenant id == "") eqn:En; simplify_eq. bool_simp. by rewrite Et in *.
Qed.

(** ** Correlation IDs *)

Lemma hex_digit_safe c : hex_digit c = true → safe_id_char c = true.
Proof. destruct c as [[] [] [] [] [] [] [] []]; by cbn. Qed.

Lemma string_all_mono f g s :
  (∀ c, f c = true → g c = true) → string_all f s = true → string_all g s = true.
Proof.
  intros Hfg. induction s as [|c s IH]; cbn; [done|]. intros [Hc Hs]%andb_prop.
  by rewrite (Hfg _ Hc), (IH Hs).
Qed.

Lemma substring_length n m s : (String.length (String.substring n m s) ≤ m)%nat.
Proof.
  revert n m. induction s as [|c s IH]; intros [|n] [|m]; cbn; try lia; [|apply IH..].
  specialize (IH 0%nat m). lia.
Qed.

Lemma isHex_safe s : isHex s = true → len s ≤ 64 → isSafeRequestID s = true.
Proof.
  unfold isHex, isSafeRequestID. intros [Hall Hpos]%andb_prop Hlen.
  rewrite bool_decide_false by (intros ->; done). cbn [orb].
  destruct (len s >? 64) eqn:E; [lia|]. eapply string_all_mono; [apply hex_digit_safe|done].
Qed.

Lemma traceID_safe tp : traceID tp ≠ "" → isSafeRequestID (traceID tp) = true.
Proof.
  unfold traceID. destruct (_ || _); [done|]. destruct (_ || _) eqn:E; [done|]. intros _.
  bool_simp. apply isHex_safe; [done|]. unfold len.
  pose proof (substring_length 3 32 tp). lia.
Qed.

(** A correlation ID cannot inject anything into a log line. *)
Lemma requestID_safe random r :
  isSafeRequestID random = true → isSafeRequestID (requestID random r) = true.
Proof.
  intros Hr. unfold requestID. destruct (isSafeRequestID (qRequestId r)) eqn:E; [done|].
  destruct (_ != _); [|done]. destruct (_ != _) eqn:En; [|done]. bool_simp. by apply traceID_safe.
Qed.

(** ** The readiness gate *)

Inductive gate_event := EvNow (t : Z) | EvProbe (r : result unit).

Definition gate_ev X (e : gateE X) : X → gate_event :=
  match e with GNow => EvNow | GReady _ => EvProbe end.

(** The requests of the readiness route, one after the other as the mutex
    lets them in, and their answers. *)
Fixpoint ready_calls (n : nat) (ttl timeout : Z) (g : readinessGate) : prog gateE (list (result unit)) :=
  match n with
  | O => mret []
  | S n =>
    '(r, g') ← ready true ttl timeout g;
    rs ← ready_calls n ttl timeout g';
    mret (r :: rs)
  end.

Definition no_probe (tr : list gate_event) : Prop := ∀ r, EvProbe r ∉ tr.

(** The last probe before now, its answer and the time it was read at. *)
Definition last_probe (tr : list gate_event) (r : result unit) (at_ : Z) : Prop :=
  ∃ t1 t2, tr = t1 ++ EvProbe r :: EvNow at_ :: t2 ∧ no_probe t2.

(** A probe is the first one, or the clock, just read, is past the window of
    the last one. *)
Definition probe_ok (ttl : Z) (pre : list gate_event) (v : gate_event) : Prop :=
  ∀ r, v = EvProbe r →
    no_probe pre ∨
    ∃ pre' r' at_ now, pre = pre' ++ [EvNow now] ∧ last_probe pre r' at_ ∧ ttl ≤ Sub now at_.

Definition gate_inv (g : readinessGate) (pre : list gate_event) : Prop :=
  if primed g then last_probe pre (lastErr g) (checkedAt g) else no_probe pre.

Lemma last_probe_now tr r at_ t : last_probe tr r at_ → last_probe (tr ++ [EvNow t]) r at_.
Proof.
  intros (t1 & t2 & -> & Hn). exists t1, (t2 ++ [EvNow t]). split; [by rewrite <- app_assoc|].
  intros r' [Hin|Hin]%elem_of_app; [by apply (Hn r')|set_solver].
Qed.

Lemma wp_ready ttl timeout g pre :
  gate_inv g pre →
  wp gate_ev (probe_ok ttl) pre (ready true ttl timeout g)
    (λ '(r, g') pre', gate_inv g' pre' ∧ EvProbe r ∈ pre').
Proof.
  unfold ready, cached, gate_inv. intros Hinv. cbn [negb].
  assert (∀ pre, (∀ r, probe_ok ttl pre (EvProbe r)) →
    wp gate_ev (probe_ok ttl) pre
      (err ← trigger (GReady timeout); now ← trigger GNow; mret (err, MkGate now err true))
      (λ '(r, g') pre', gate_inv g' pre' ∧ EvProbe r ∈ pre')) as Hprobe.
  { intros pre0 Hok. apply wp_op. intros err. split; [apply Hok|]. apply wp_op. intros now.
    split; [done|]. cbn. split; [|set_solver]. exists pre0, []. split; [by rewrite <- app_assoc|].
    by intros r' ?%elem_of_nil. }
  destruct (primed g) eqn:Eg.
  - apply wp_bind, wp_op. intros now. split; [done|]. apply (last_probe_now _ _ _ now) in Hinv.
    cbn. destruct (Sub now (checkedAt g) <? ttl) eqn:Et.
    + cbn. rewrite Eg. split; [done|]. destruct Hinv as (t1 & t2 & -> & _). set_solver.
    + apply Hprobe. intros r. right. exists pre, (lastErr g), (checkedAt g), now. split_and!; [done..|lia].
  - cbn. apply Hprobe. by left.
Qed.

Lemma wp_ready_calls n ttl timeout g pre :
  gate_inv g pre →
  wp gate_ev (probe_ok ttl) pre (ready_calls n ttl timeout g)
    (λ rs pre', length rs = n ∧ ∀ r, r ∈ rs → EvProbe r ∈ pre').
Proof.
  revert g pre. induction n as [|n IH]; intros g pre Hinv; cbn [ready_calls]; [cbn; set_solver|].
  apply wp_bind. eapply wp_mono; [|by apply wp_ready]. intros [r g'] tr [Hg Hr]. apply wp_bind.
  eapply wp_mono; [|by apply IH]. intros rs tr' [<- Hrs]. cbn. split; [done|].
  intros r' [->|Hin]%elem_of_cons; [set_solver|by apply Hrs].
Qed.

(** ** The theorems *)

Section theorems.
Context `{DNSValidation} `{Authenticator A}.

(** C26: with an authenticator and the default authorizer, whatever the
    request, the lease manager is called at most once, and only for a request
    whose bearer token authenticated, for the operation and the valid key that
    its path names, as a non-empty holder whose root is the caller's own
    tenant, and with a duration of 1 to 2^31-1 whole seconds. *)
Theorem api_calls_authorized (a : A) obs random r p tr resp :
  serve obs (Some a) None random r = Some p → traces call_of p tr resp →
  (length tr ≤ 1)%nat ∧
  ∀ v, v ∈ tr → ∃ token id op key,
    bearerToken r = Some token ∧ Authenticate a token = Ok (Some id) ∧
    match_route true r = Some (RLease op key) ∧ call_checked op key v ∧
    iTenant id ≠ "" ∧ contains_char "/" (iTenant id) = false ∧ root (cHolder v) = iTenant id.
Proof.
  unfold serve. destruct (match_route true r) as [[| |op key]|] eqn:Er; try done.
  intros [= <-]. cbn [serve_lease default from_option]. unfold AuthMiddleware.
  set (c := if obs then _ else _).
  destruct (bearerToken r) as [token|]; [|intros [-> _]; split; [cbn; lia|set_solver]].
  destruct (Authenticate a token) as [[id|]|e] eqn:Ea;
    [|intros [-> _]; split; [cbn; lia|set_solver]..].
  intros Htr. pose proof (wp_sound call_of _ _ _ _ _ _ (wp_lease_handler _ _ _ _ _ _) Htr) as [Hall Hlen].
  split; [done|]. intros v (t1 & t2 & ->)%list_elem_of_split.
  destruct (Hall _ _ _ eq_refl) as (_ & Hc & Hauth).
  destruct (authorize_default (WithIdentity c id) id _ _ eq_refl Hauth) as (? & ? & ?). by exists token, id, op, key.
Qed.

End theorems.

(** The readiness route probes the backend at most once per cache window,
    however many requests arrive: before every probe but the first, the clock
    was read at least [ttl] past the completion of the previous one. Each
    answer is the result of a probe of this run. *)
Theorem gate_probe_spacing n ttl timeout tr answers :
  traces gate_ev (ready_calls n ttl timeout new_gate) tr answers →
  (∀ t1 v t2, tr = t1 ++ v :: t2 → probe_ok ttl t1 v) ∧
  length answers = n ∧ ∀ r, r ∈ answers → EvProbe r ∈ tr.
Proof.
  assert (gate_inv new_gate []) as Hinv by by intros r ?%elem_of_nil.
  intros Htr. exact (wp_sound _ _ _ _ _ _ _ (wp_ready_calls n ttl timeout _ _ Hinv) Htr).
Qed.

(** A renewal with a negative fencing token is a client's mistake, but the
    handler rejects only zero: the manager's own check fails and the caller
    gets the 500 envelope of a backend failure, with nothing read or written. *)
Theorem renew_negative_token `{DNSValidation} random authz c key r req {S} (h : ∀ X, storeE X → S → X * S) s :
  decodeJSON RenewRequest_fields (MkRenewRequest "" 0 0) r = inr req →
  ValidateHolder (nqHolder req) = Ok () → nqFencingToken req < 0 → 0 < nqTTLSeconds req →
  authorize c authz (kNamespace key) (nqHolder req) = None → ValidateKey key = Ok () →
  run h (interp run_manager (handleRenew random authz c key r)) s =
    (writeInternalError random c r (ErrMsg "renew: token must be positive"), s).
Proof.
  intros Hd Hh Ht Httl Ha Hk. unfold handleRenew. rewrite Hd, Hh.
  destruct (Z.eqb_spec (nqFencingToken req) 0); [lia|]. destruct (Z.leb_spec (nqTTLSeconds req) 0); [lia|].
  unfold guarded, validateKey. rewrite Ha, Hk. cbn. unfold Renew. rewrite Hk, Hh.
  destruct (Z.leb_spec (nqFencingToken req) 0); [|lia]. done.
Qed.

(** ** Witnesses *)

Definition demo_request (op body : string) : request :=
  MkRequest "POST" ("/v1alpha1/namespaces/pipeline/leases/ingest-worker/" +:+ op)
    "Bearer s3cret" "" "" body None.

Definition acquire_request : request :=
  demo_request "acquire" (Marshal [("holder", EString "cluster-a/ingest"); ("ttlSeconds", EInt 30)]).

(** A manager whose backend is down. *)
Definition down : error := ErrMsg "dial tcp 10.0.0.7:5432: connection refused".

Definition demo_manager (up : bool) X (e : managerE X) (s : unit) : X * unit :=
  match e with
  | MAcquire _ holder ttl => (if up then Ok (MkAcquireResult true holder 1 ttl 0) else Err down, s)
  | MRenew _ holder token ttl => (if up then Ok (MkAcquireResult true holder token ttl 0) else Err down, s)
  | MRelease _ _ _ => (if up then Ok () else Err down, s)
  end.

Definition demo_serve (r : request) : prog managerE response :=
  default (mret (writeError 404 ""))
    (serve (H0 := static_Authenticate (H := demo_sha256)) true (Some demo_static) None "unknown" r).

Lemma api_calls_authorized_witness :
  let run1 := run_trace call_of (demo_manager true) (demo_serve acquire_request) () in
  run1.1 = [MkCall OpAcquire (MkKey "pipeline" "ingest-worker") "cluster-a/ingest" (Some (30 * Second))] ∧
  status run1.2 = 200 ∧
  ∀ v, v ∈ run1.1 → ∃ token id op key,
    bearerToken acquire_request = Some token ∧
    Authenticate (Authenticator := static_Authenticate (H := demo_sha256)) demo_static token = Ok (Some id) ∧
    match_route true acquire_request = Some (RLease op key) ∧ call_checked op key v ∧
    iTenant id ≠ "" ∧ contains_char "/" (iTenant id) = false ∧ root (cHolder v) = iTenant id.
Proof.
  intros run1. split; [vm_compute; reflexivity|]. split; [vm_compute; reflexivity|].
  apply (api_calls_authorized (H0 := static_Authenticate (H := demo_sha256)) demo_static true "unknown"
           acquire_request (demo_serve acquire_request) run1.1 run1.2).
  - vm_compute. reflexivity.
  - apply run_trace_traces.
Defined.


(** A backend that fails once, and a clock that advances 400 ms per reading. *)
Definition demo_gate X (e : gateE X) (s : Z * result unit) : X * (Z * result unit) :=
  match e with
  | GNow => (s.1, (s.1 + 400 * Millisecond, s.2))
  | GReady _ => (s.2, (s.1, Ok ()))
  end.

Lemma gate_probe_spacing_witness :
  let run1 := run_trace gate_ev demo_gate (ready_calls 5 readinessCacheTTL readinessProbeTimeout new_gate)
                (0, Err down) in
  run1.2 = [Err down; Err down; Err down; Ok (); Ok ()] ∧
  (∀ t1 v t2, run1.1 = t1 ++ v :: t2 → probe_ok readinessCacheTTL t1 v).
Proof.
  intros run1. split; [vm_compute; reflexivity|].
  apply (gate_probe_spacing 5 readinessCacheTTL readinessProbeTimeout run1.1 run1.2), run_trace_traces.
Defined.

Definition negative_request : request :=
  demo_request "renew"
    (Marshal [("fencingToken", EInt (-1)); ("holder", EString "cluster-a"); ("ttlSeconds", EInt 30)]).

Lemma renew_negative_token_witness :
  (run (λ X e, impl_handler None 0 e)
     (interp run_manager (handleRenew "unknown" None (MkContext None None)
        (MkKey "pipeline" "ingest-worker") negative_request)) (MkMemStore ∅)).1 =
  writeInternalError "unknown" (MkContext None None) negative_request
    (ErrMsg "renew: token must be positive").
Proof.
  rewrite (renew_negative_token "unknown" None (MkContext None None) (MkKey "pipeline" "ingest-worker")
    negative_request (MkRenewRequest "cluster-a" (-1) 30) (λ X e, impl_handler None 0 e)
    (MkMemStore ∅)); vm_compute; reflexivity.
Defined.
