(* ===== verification/Client.v ===== *)
(** * The API client

    [pkg/client]: the HTTP client of the sidecar and the operator, and its
    composition with the server of [Api]: what a caller of the client gets when
    the request travels through the path, the headers and the JSON body to the
    lease manager and back. Requests travel as text; of the response, the JSON
    body is the server's tree of fields. *)

From S2P Require Import Prelude GoStrings Store MemStore Manager RFC1123 Json Operator ClientAuth Auth JsonText Api ApiTheorems.

Definition DefaultTimeout : Z := 10 * Second.

(** [http.Client] with the timeout the options work on. *)
Record http_client := MkHTTP { hcTimeout : Z; hcTLS : option tlsConfig }.

(** A key getter: the closure of [WithAPIKey], or a caller's own function. *)
Inductive key_getter := StaticKey (key : string) | CallerKey.

Record Client := MkClient {
  baseURL : string;
  httpClient : http_client;
  timeout : option Z;
  apiKeyFunc : option key_getter }.

(** ** Options *)

Definition WithAPIKey (key : string) (c : Client) : Client :=
  MkClient (baseURL c) (httpClient c) (timeout c) (Some (StaticKey key)).

Definition WithAPIKeyFunc (getter : option key_getter) (c : Client) : Client :=
  MkClient (baseURL c) (httpClient c) (timeout c) getter.

Definition WithHTTPClient (h : option http_client) (c : Client) : Client :=
  match h with
  | Some h => MkClient (baseURL c) h (timeout c) (apiKeyFunc c)
  | None => c
  end.

Definition WithTimeout (d : Z) (c : Client) : Client :=
  MkClient (baseURL c) (httpClient c) (Some (if d <? 0 then 0 else d)) (apiKeyFunc c).

Definition WithTLSConfig (cfg : option tlsConfig) (c : Client) : Client :=
  match cfg with
  | None => c
  | Some cfg => MkClient (baseURL c) (MkHTTP (hcTimeout (httpClient c)) (Some cfg)) (timeout c) (apiKeyFunc c)
  end.

Definition New (base : string) (opts : list (Client → Client)) : Client :=
  let c := MkClient (TrimSuffix1 "/" base) (MkHTTP DefaultTimeout None) None None in
  let c := foldl (λ c opt, opt c) c opts in
  match timeout c with
  | Some d => MkClient (baseURL c) (MkHTTP d (hcTLS (httpClient c))) (timeout c) (apiKeyFunc c)
  | None => c
  end.

(** ** Paths *)

(** [url.PathEscape] *)
Definition path_safe (c : ascii) : bool :=
  let n := code c in
  between 97 n 122 || between 65 n 90 || between 48 n 57 ||
  contains_char c "-_.~$&+=:@".

Definition hex_upper (n : Z) : ascii := chr (if n <? 10 then 48 + n else 55 + n).

Fixpoint PathEscape (s : string) : string :=
  match s with
  | EmptyString => EmptyString
  | String c s' =>
    if path_safe c then String c (PathEscape s')
    else String "%" (String (hex_upper (code c / 16)) (String (hex_upper (code c mod 16)) (PathEscape s')))
  end.

Definition leasePath (namespace name op : string) : string :=
  "/v1alpha1/namespaces/" +:+ PathEscape namespace +:+ "/leases/" +:+ PathEscape name +:+ "/" +:+ op.

(** ** Calls *)

(** What the client uses of a response: its status and what decoding its body
    into an [AcquireResult] gives. *)
Record http_response := MkHTTPResponse {
  hStatus : Z;
  hDecoded : result AcquireResult }.

Record http_request := MkHTTPRequest {
  hMethod : string;
  hURL : string;
  hAuthorization : string;
  hBody : string }.

(** The client's effects: calling a caller's key getter, building a request (which
    parses its URL) and performing it. *)
Inductive clientE : Type → Type :=
| CKey : clientE string
| CNewRequest (url : string) : clientE (result unit)
| CDo (timeout : Z) (r : http_request) : clientE (result http_response).

Definition bearer (key : string) : string := if key == "" then "" else "Bearer " +:+ key.

(** The [Authorization] header of a request, empty when none is sent. *)
Definition auth_header (c : Client) : prog clientE string :=
  match apiKeyFunc c with
  | None => mret ""
  | Some (StaticKey key) => mret (bearer key)
  | Some CallerKey => key ← trigger CKey; mret (bearer key)
  end.

(** [out] tells whether the caller wants the body decoded. *)
Definition postJSON (c : Client) (path : string) (fields : list (string * scalar)) (out : bool)
    : prog clientE (result AcquireResult) :=
  if baseURL c == "" then mret (Err (ErrMsg "client: base URL is required"))
  else
    built ← trigger (CNewRequest (baseURL c +:+ path));
    match built with
    | Err e => mret (Err (ErrWrap "build request" e))
    | Ok _ =>
      hdr ← auth_header c;
      resp ← trigger (CDo (hcTimeout (httpClient c))
                        (MkHTTPRequest "POST" (baseURL c +:+ path) hdr (Marshal fields)));
      match resp with
      | Err e => mret (Err (ErrWrap "do request" e))
      | Ok resp =>
        if hStatus resp =? 409 then mret (Err ErrConflict)
        else if hStatus resp =? 204 then mret (Ok not_acquired)
        else if 400 <=? hStatus resp then mret (Err (ErrMsg ("server status " +:+ FormatInt (hStatus resp))))
        else if negb out then mret (Ok not_acquired)
        else mret (wrap_err "decode response" (hDecoded resp))
      end
    end.

(** [int32(ttl / time.Second)] *)
Definition ttl_seconds (ttl : Z) : Z := wrap32 (Z.quot ttl Second).

Definition client_Acquire (c : Client) (namespace name holder : string) (ttl : Z)
    : prog clientE (result AcquireResult) :=
  postJSON c (leasePath namespace name "acquire")
    [("holder", EString holder); ("ttlSeconds", EInt (ttl_seconds ttl))] true.

Definition client_Renew (c : Client) (namespace name holder : string) (fencingToken ttl : Z)
    : prog clientE (result AcquireResult) :=
  postJSON c (leasePath namespace name "renew")
    [("fencingToken", EInt fencingToken); ("holder", EString holder); ("ttlSeconds", EInt (ttl_seconds ttl))] true.

Definition client_Release (c : Client) (namespace name holder : string) (fencingToken : Z)
    : prog clientE (result unit) :=
  r ← postJSON c (leasePath namespace name "release")
    [("fencingToken", EInt fencingToken); ("holder", EString holder)] false;
  mret (match r with Ok _ => Ok () | Err e => Err e end).

Definition Ping (c : Client) : prog clientE (result unit) :=
  if baseURL c == "" then mret (Err (ErrMsg "client: base URL is required"))
  else
    built ← trigger (CNewRequest (baseURL c +:+ "/healthz"));
    match built with
    | Err e => mret (Err (ErrWrap "build request" e))
    | Ok _ =>
      resp ← trigger (CDo (hcTimeout (httpClient c)) (MkHTTPRequest "GET" (baseURL c +:+ "/healthz") "" ""));
      match resp with
      | Err e => mret (Err (ErrWrap "do request" e))
      | Ok resp =>
        if (hStatus resp <? 200) || (300 <=? hStatus resp)
        then mret (Err (ErrMsg ("berth api healthz: status " +:+ FormatInt (hStatus resp))))
        else mret (Ok ())
      end
    end.

(** ** The client against the server *)

(** The response as the client decodes it: the fields of a lease response are
    those of the result. *)
Definition seen (resp : response) : http_response :=
  MkHTTPResponse (status resp)
    match rbody resp with
    | BLease p => Ok (MkAcquireResult (pAcquired p) (pHolder p) (pFencingToken p) (pExpiresAt p) (pAcquiredAt p))
    | _ => Err (ErrMsg "invalid character")
    end.

Section network.
Context `{DNSValidation} `{Authenticator A} {S : Type}.
Context (base : string) (obs : bool) (authn : option A) (random : string)
  (h : ∀ X, storeE X → S → X * S).

(** A network on which requests for [base] reach the server, whose manager works
    on a store [h]. [key] is what the caller's key getter returns. *)
Definition network (key : string) X (e : clientE X) (s : S) : X * S :=
  match e with
  | CKey => (key, s)
  | CNewRequest _ => (Ok (), s)
  | CDo _ r =>
    match CutPrefix (hURL r) base with
    | None => (Err (ErrMsg "no such host"), s)
    | Some path =>
      match serve obs authn None random
              (MkRequest (hMethod r) path (hAuthorization r) "" "" (hBody r) None) with
      | None => (Ok (MkHTTPResponse 404 (Err (ErrMsg "invalid character"))), s)
      | Some p => let '(resp, s') := run h (interp run_manager p) s in (Ok (seen resp), s')
      end
    end
  end.
End network.

(** ** Paths round trip *)

(** One escaped byte. *)
Definition escape_byte (c : ascii) : string :=
  if path_safe c then str1 c
  else String "%" (String (hex_upper (code c / 16)) (str1 (hex_upper (code c mod 16)))).

Lemma PathEscape_cons c s : PathEscape (String c s) = escape_byte c +:+ PathEscape s.
Proof. unfold escape_byte. cbn. by destruct (path_safe c). Qed.

Lemma escape_byte_slash c : contains_char "/" (escape_byte c) = false.
Proof. destruct c as [[] [] [] [] [] [] [] []]; reflexivity. Qed.

Lemma escape_byte_unescape c s : PathUnescape (escape_byte c +:+ s) = String c <$> PathUnescape s.
Proof. destruct c as [[] [] [] [] [] [] [] []]; reflexivity. Qed.

Lemma PathEscape_slash s : contains_char "/" (PathEscape s) = false.
Proof.
  induction s as [|c s IH]; [done|]. by rewrite PathEscape_cons, contains_char_app, escape_byte_slash, IH.
Qed.

Lemma PathUnescape_PathEscape s : PathUnescape (PathEscape s) = Some s.
Proof. induction s as [|c s IH]; [done|]. by rewrite PathEscape_cons, escape_byte_unescape, IH. Qed.

(** The segments that [cleanPath] would remove. *)
Definition unclean (s : string) : bool := (s == "") || (s == ".") || (s == "..").

Lemma unclean_PathEscape s : unclean (PathEscape s) = unclean s.
Proof.
  unfold unclean. pose proof (PathUnescape_PathEscape s) as E.
  destruct ((s == "") || (s == ".") || (s == "..")) eqn:Eu.
  - destruct (s == "") eqn:E1; [by bool_simp; subst|]. destruct (s == ".") eqn:E2; [by bool_simp; subst|].
    destruct (s == "..") eqn:E3; [by bool_simp; subst|done].
  - bool_simp. rewrite !bool_decide_false; [done|..]; intros E'; rewrite E' in E; vm_compute in E; by simplify_eq.
Qed.

Lemma leasePath_segments ns name op :
  unclean ns = false → unclean name = false →
  segments (leasePath ns name (op_name op)) =
    Some ["v1alpha1"; "namespaces"; ns; "leases"; name; op_name op].
Proof.
  intros Hns Hname. unfold segments, leasePath.
  change ("/v1alpha1/namespaces/" +:+ ?x) with (String "/" ("v1alpha1" +:+ String "/" ("namespaces" +:+ String "/" x))).
  change ("/leases/" +:+ ?x) with (String "/" ("leases" +:+ String "/" x)).
  change ("/" +:+ op_name op) with (String "/" (op_name op)).
  rewrite <- (app_string_nil_l (String "/" ("v1alpha1" +:+ _))).
  rewrite !Split_app by (done || apply PathEscape_slash).
  rewrite Split_none by by destruct op.
  cbn [forallb fmap list_fmap]. fold (unclean (PathEscape ns)) (unclean (PathEscape name)).
  rewrite !unclean_PathEscape, Hns, Hname, !PathUnescape_PathEscape. by destruct op.
Qed.

(** ** Bodies round trip *)

Lemma escape_rune_bound r :
  rune_ok r → (String.length (escape_rune r) ≤ 6 * String.length (default "x" r))%nat.
Proof.
  destruct r as [b|]; [|cbn; lia]. intros Hr.
  destruct (Hr b eq_refl) as (a & s & rest & Hcut). apply rune_cut_some in Hcut as (_ & b' & -> & _ & _).
  destruct b' as [|c b']; cbn [escape_rune default from_option].
  - unfold escape_ascii. repeat case_next; cbn [String.length str1]; rewrite ?length_app_string; cbn; lia.
  - cbn [String.length id]. repeat case_next; cbn [String.length id]; lia.
Qed.

Lemma escape_bound n s : (String.length (escape n s) ≤ 6 * String.length s)%nat.
Proof.
  revert s. induction n as [|n IH]; intros [|a s]; cbn [escape]; try (cbn; lia).
  destruct (rune_cut a s) as [r rest] eqn:Ec. pose proof (escape_rune_bound r (rune_cut_ok _ _ _ _ Ec)) as Hb.
  rewrite length_app_string. specialize (IH rest).
  enough (String.length (default "x" r) + String.length rest ≤ String.length (String a s))%nat by lia.
  destruct r as [b|]; cbn [default from_option].
  - apply rune_cut_some in Ec as [E _]. by rewrite E, length_app_string.
  - apply rune_cut_none in Ec as ->. cbn. lia.
Qed.

Lemma parse_digits_lower acc s v :
  0 ≤ acc → parse_digits acc s = Some v → acc * 10 ^ len s ≤ v.
Proof.
  unfold len. revert acc. induction s as [|c s IH]; intros acc Hacc.
  { cbn. intros [= <-]. lia. }
  cbn [parse_digits String.length]. destruct (digit_val c) as [d|] eqn:Ed; [|done].
  assert (0 ≤ d) as Hd by (destruct c as [[] [] [] [] [] [] [] []]; vm_compute in Ed; simplify_eq; lia).
  intros Hp. apply IH in Hp; [|lia]. rewrite Nat2Z.inj_succ, Z.pow_succ_r by lia. nia.
Qed.

Lemma format_nat_length n : (n < 10 ^ 10)%N → len (format_nat n) ≤ 10.
Proof.
  intros Hn. destruct (Z.le_gt_cases (len (format_nat n)) 10) as [|Hlen]; [done|]. exfalso.
  pose proof (parse_format_nat n) as Hp. pose proof (format_nat_zero n) as Hz.
  destruct (format_nat_head n) as (c & s & d & E & Hc). rewrite E in *.
  cbn [parse_digits] in Hp. rewrite Hc in Hp.
  assert (len (String c s) = 1 + len s) as El by (unfold len; cbn [String.length]; lia).
  assert (1 ≤ d) as Hd.
  { destruct c as [[] [] [] [] [] [] [] []]; vm_compute in Hc; simplify_eq; try lia.
    rewrite (Hz s eq_refl) in Hlen. by vm_compute in Hlen. }
  apply parse_digits_lower in Hp; [|lia].
  pose proof (Z.pow_le_mono_r 10 10 (len s) ltac:(lia) ltac:(lia)).
  assert (Z.of_N n < 10 ^ 10) by lia. nia.
Qed.

Lemma FormatInt_length n : int32 n → len (FormatInt n) ≤ 11.
Proof.
  unfold int32, MinInt32, MaxInt32. intros Hn.
  assert (∀ m, Z.of_N m ≤ 2147483648 → len (format_nat m) ≤ 10) as Hm.
  { intros m Hm. apply format_nat_length. lia. }
  destruct n as [|p|p]; [vm_compute; discriminate|..].
  - cbn [FormatInt]. specialize (Hm (Z.to_N (Z.pos p)) ltac:(lia)). lia.
  - cbn [FormatInt]. specialize (Hm (Npos p) ltac:(lia)). unfold len in *. cbn [String.length]. lia.
Qed.

(** An encoded scalar that a request carries is small. *)
Definition small (v : scalar) : Prop :=
  match v with EString s => len s ≤ MaxHolderBytes | EInt n => int32 n end.

Lemma encode_string_length s : len (encode_string s) ≤ 6 * len s + 2.
Proof.
  unfold encode_string, len. pose proof (escape_bound (String.length s) s).
  cbn [String.length]. rewrite length_app_string. cbn. lia.
Qed.

Lemma encode_scalar_length v : small v → len (encode_scalar v) ≤ 1520.
Proof.
  destruct v as [s|n]; cbn; intros Hv.
  - pose proof (encode_string_length s). unfold MaxHolderBytes in Hv. lia.
  - pose proof (FormatInt_length n Hv). lia.
Qed.

Lemma len_app s t : len (s +:+ t) = len s + len t.
Proof. unfold len. rewrite length_app_string. lia. Qed.

Fixpoint string_count (m : list (string * scalar)) : Z :=
  match m with
  | [] => 0
  | (_, EString _) :: m => 1 + string_count m
  | (_, EInt _) :: m => string_count m
  end.

(** At most one string and two numbers: well under the server's limit. *)
Lemma Marshal_length m :
  (length m ≤ 3)%nat →
  Forall (λ kv, len kv.1 ≤ 16) m →
  string_count m ≤ 1 →
  Forall (λ kv, small kv.2) m → len (Marshal m) ≤ maxLeaseBodyBytes.
Proof.
  intros Hl Hk Hs Hv. unfold Marshal, maxLeaseBodyBytes. rewrite !len_app.
  enough (len (encode_members m) ≤ Z.of_nat (length m) * 111 + 1520 * string_count m)
    by (change (len "{") with 1; change (len "}") with 1; lia).
  clear Hl Hs. induction m as [|[k v] m IH]; [vm_compute; discriminate|].
  apply Forall_cons in Hk as [Hk Hks], Hv as [Hv Hvs]. specialize (IH Hks Hvs). cbn in Hk.
  assert (len (encode_string k +:+ ":" +:+ encode_scalar v) ≤
    110 + 1520 * string_count [(k, v)]) as He.
  { rewrite !len_app. pose proof (encode_string_length k). change (len ":") with 1. destruct v as [s|n].
    - pose proof (encode_scalar_length (EString s) Hv). cbn in *. lia.
    - pose proof (FormatInt_length n Hv). cbn in *. lia. }
  assert (string_count ((k, v) :: m) = string_count [(k, v)] + string_count m) as -> by (destruct v; cbn; lia).
  revert He. generalize (string_count [(k, v)]). intros n He. unfold encode_members in *. destruct m as [|kv m]; [cbn [Join fmap list_fmap] in *; cbn [length string_count]; lia|].
  cbn [Join fmap list_fmap] in *. rewrite !len_app in *. change (len ",") with 1. cbn [length] in *. lia.
Qed.

(** The server decodes the body a client marshals. *)
Lemma decodeJSON_Marshal {T} (fs : list (string * field T)) zero r m x :
  qBody r = Marshal m → qBodyErr r = None → len (Marshal m) ≤ maxLeaseBodyBytes →
  store_members fs (decoded_members m) zero = Some x → decodeJSON fs zero r = inr x.
Proof.
  intros Hb He Hl Hs. unfold decodeJSON. rewrite Hb, He.
  destruct (len (Marshal m) >? maxLeaseBodyBytes) eqn:E; [lia|].
  pose proof (parse_Marshal m "") as Hp. rewrite app_string_nil_r in Hp. rewrite Hp. cbn [store_struct].
  rewrite Hs. done.
Qed.

Lemma store_FInt32 {T} (set : Z → T → T) n x :
  int32 n → store (FInt32 set) (VNum (FormatInt n)) x = Some (set n x).
Proof.
  unfold int32, MinInt32, MaxInt32. intros Hn. cbn -[ParseInt]. rewrite ParseInt_FormatInt by lia. cbn.
  unfold MinInt32, MaxInt32. by rewrite (proj2 (Z.leb_le _ _)), (proj2 (Z.leb_le _ _)) by lia.
Qed.

Lemma store_FString {T} (set : string → T → T) v x : store (FString set) (VStr v) x = Some (set v x).
Proof. done. Qed.

Section bodies.
Context (r : request) (holder : string) (Herr : qBodyErr r = None).
Context (Hutf : ToValidUTF8 holder = holder) (Hlen : len holder ≤ MaxHolderBytes).

(** Reduce the decoding of a marshalled body to storing its members. *)
Ltac marshalled Hb :=
  eapply decodeJSON_Marshal; [exact Hb|eassumption|apply Marshal_length|];
  [cbn; lia|repeat constructor; vm_compute; discriminate|cbn; lia|by rewrite !Forall_cons, Forall_nil|];
  unfold decoded_members; cbn [fmap list_fmap decoded store_members].

Lemma decode_acquire n :
  qBody r = Marshal [("holder", EString holder); ("ttlSeconds", EInt n)] → int32 n →
  decodeJSON AcquireRequest_fields (MkAcquireRequest "" 0) r = inr (MkAcquireRequest holder n).
Proof.
  intros Hb Hn. marshalled Hb. rewrite Hutf.
  change (find_field (ToValidUTF8 "holder") AcquireRequest_fields)
    with (Some (FString (λ s r, MkAcquireRequest s (aqTTLSeconds r)))).
  cbn [mbind option_bind]. rewrite store_FString. cbn [mbind option_bind].
  change (find_field (ToValidUTF8 "ttlSeconds") AcquireRequest_fields)
    with (Some (FInt32 (λ n r, MkAcquireRequest (aqHolder r) n))).
  cbn [mbind option_bind]. by rewrite store_FInt32.
Qed.

Lemma decode_renew token n :
  qBody r = Marshal [("fencingToken", EInt token); ("holder", EString holder); ("ttlSeconds", EInt n)] →
  int32 token → int32 n →
  decodeJSON RenewRequest_fields (MkRenewRequest "" 0 0) r = inr (MkRenewRequest holder token n).
Proof.
  intros Hb Ht Hn. marshalled Hb. rewrite Hutf.
  change (find_field (ToValidUTF8 "fencingToken") RenewRequest_fields)
    with (Some (FInt32 (λ n r, MkRenewRequest (nqHolder r) n (nqTTLSeconds r)))).
  cbn [mbind option_bind]. rewrite store_FInt32 by done. cbn [mbind option_bind].
  change (find_field (ToValidUTF8 "holder") RenewRequest_fields)
    with (Some (FString (λ s r, MkRenewRequest s (nqFencingToken r) (nqTTLSeconds r)))).
  cbn [mbind option_bind]. rewrite store_FString. cbn [mbind option_bind].
  change (find_field (ToValidUTF8 "ttlSeconds") RenewRequest_fields)
    with (Some (FInt32 (λ n r, MkRenewRequest (nqHolder r) (nqFencingToken r) n))).
  cbn [mbind option_bind]. by rewrite store_FInt32.
Qed.

Lemma decode_release token :
  qBody r = Marshal [("fencingToken", EInt token); ("holder", EString holder)] → int32 token →
  decodeJSON ReleaseRequest_fields (MkReleaseRequest "" 0) r = inr (MkReleaseRequest holder token).
Proof.
  intros Hb Ht. marshalled Hb. rewrite Hutf.
  change (find_field (ToValidUTF8 "fencingToken") ReleaseRequest_fields)
    with (Some (FInt32 (λ n r, MkReleaseRequest (lqHolder r) n))).
  cbn [mbind option_bind]. rewrite store_FInt32 by done. cbn [mbind option_bind].
  change (find_field (ToValidUTF8 "holder") ReleaseRequest_fields)
    with (Some (FString (λ s r, MkReleaseRequest s (lqFencingToken r)))).
  done.
Qed.
End bodies.

(** ** A call from end to end *)

Lemma bearerToken_bearer r tok :
  qAuthorization r = bearer tok → tok ≠ "" → TrimSpace tok = tok → bearerToken r = Some tok.
Proof.
  intros Hh Hne Htrim. unfold bearerToken, bearer in *. rewrite (bool_decide_false _ Hne) in Hh. rewrite Hh.
  rewrite (bool_decide_false ("Bearer " +:+ tok = "")) by done. rewrite HasPrefix_app. cbn [negb].
  unfold TrimPrefix. rewrite CutPrefix_app. cbn [default from_option id]. rewrite Htrim.
  by rewrite bool_decide_false.
Qed.

Lemma valid_key_clean `{DNSValidationLaws} key :
  ValidateKey key = Ok () → unclean (kNamespace key) = false ∧ unclean (kName key) = false.
Proof.
  unfold ValidateKey. destruct (IsDNS1123Label _) eqn:El; [|done].
  destruct (IsDNS1123Subdomain _) eqn:Es; [|done]. intros _.
  pose proof (label_sound _ El) as (Hn1 & _ & Hall). pose proof (subdomain_sound _ Es) as (Hn2 & _ & _).
  pose proof (subdomain_start _ Es) as Hdot. unfold unclean.
  split; rewrite !bool_decide_false; try done; intros E; rewrite E in *; vm_compute in *; done.
Qed.

Section end_to_end.
Context `{DNSValidationLaws} `{Authenticator A} {S : Type}.
Context (obs : bool) (a : A) (random : string) (h : ∀ X, storeE X → S → X * S).
Context (c : Client) (tok : string) (who : Identity) (key : Key) (holder : string).
Context (Hbase : baseURL c ≠ "") (Hkey : apiKeyFunc c = Some (StaticKey tok) ∨ apiKeyFunc c = Some CallerKey).
Context (Htok : tok ≠ "") (Htrim : TrimSpace tok = tok) (Hauthn : Authenticate a tok = Ok (Some who)).
Context (Htenant : iTenant who ≠ "") (Hown : root holder = iTenant who).
Context (Hvk : ValidateKey key = Ok ()) (Hvh : ValidateHolder holder = Ok ()).
Context (Hutf : ToValidUTF8 holder = holder).

(** The request a call sends, and the context its handler runs in. *)
Definition sent (op : lease_op) (fields : list (string * scalar)) : request :=
  MkRequest "POST" (leasePath (kNamespace key) (kName key) (op_name op)) (bearer tok) "" "" (Marshal fields) None.

Definition sent_context (r : request) : context :=
  WithIdentity (if obs then ensureRequestContext random (MkContext None None) r else MkContext None None) who.

(** What the client makes of a response. *)
Definition understood (out : bool) (resp : response) : result AcquireResult :=
  if status resp =? 409 then Err ErrConflict
  else if status resp =? 204 then Ok not_acquired
  else if 400 <=? status resp then Err (ErrMsg ("server status " +:+ FormatInt (status resp)))
  else if negb out then Ok not_acquired
  else wrap_err "decode response" (hDecoded (seen resp)).

Lemma run_postJSON op fields out s :
  run (network (baseURL c) obs (Some a) random h tok)
    (postJSON c (leasePath (kNamespace key) (kName key) (op_name op)) fields out) s =
  let '(resp, s') := run h (interp run_manager
    (lease_handler random (Some NewDefaultAuthorizer) op key (sent_context (sent op fields)) (sent op fields))) s in
  (understood out resp, s').
Proof.
  destruct (valid_key_clean key Hvk) as [Hns Hname].
  assert (serve obs (Some a) None random (sent op fields) =
    Some (lease_handler random (Some NewDefaultAuthorizer) op key (sent_context (sent op fields)) (sent op fields))) as Hserve.
  { unfold serve, match_route. cbn [sent qPath qMethod]. rewrite leasePath_segments by done.
    cbn [mbind option_bind orb andb]. destruct key as [ns name]. destruct op; cbn;
    unfold AuthMiddleware; rewrite (bearerToken_bearer _ tok), Hauthn by done; done. }
  unfold postJSON. rewrite (bool_decide_false _ Hbase). cbn [run mbind prog_mbind trigger prog_bind].
  assert (∀ k : string → prog clientE (result AcquireResult), ∀ s, run (network (baseURL c) obs (Some a) random h tok)
    (auth_header c ≫= k) s = run (network (baseURL c) obs (Some a) random h tok) (k (bearer tok)) s) as Hhdr.
  { intros k s0. unfold auth_header. by destruct Hkey as [-> | ->]. }
  cbn [network]. rewrite Hhdr. cbn [run mbind prog_mbind trigger prog_bind network hURL hMethod hAuthorization hBody].
  rewrite CutPrefix_app. fold (sent op fields). rewrite Hserve. destruct (run h _ s) as [resp s'].
  unfold understood. cbn [seen hStatus]. repeat case_match; done.
Qed.

Lemma sent_authorized r : authorize (sent_context r) (Some NewDefaultAuthorizer) (kNamespace key) holder = None.
Proof.
  unfold authorize, sent_context, WithIdentity. cbn [cIdentity].
  assert (contains_char "/" (iTenant who) = false) as Hs by (rewrite <- Hown; apply cut_spec).
  assert (ResolveTenant (Resolver := IdentityResolver) (Some who) = Ok (iTenant who)) as Hres.
  { unfold ResolveTenant, IdentityResolver. by rewrite bool_decide_false. }
  assert (AuthorizeHolder NewDefaultAuthorizer (Some who) holder = Ok ()) as ->.
  { apply (AuthorizeHolder_ok (H := IdentityResolver)). eauto. }
  unfold NewDefaultAuthorizer, DefaultAuthorizer, default_AuthorizeNamespace. cbn [AuthorizeNamespace].
  by rewrite (proj2 (resolveTenant_ok (H := IdentityResolver) _ _) (conj Hres Hs)).
Qed.

Lemma guarded_passes r k :
  guarded (Some NewDefaultAuthorizer) (sent_context r) key holder k = k.
Proof. unfold guarded, validateKey. by rewrite sent_authorized, Hvk. Qed.

(** The answer to a call that the manager answered with [res]. *)
Definition answer (res : result AcquireResult) : result AcquireResult :=
  match res with Ok r => Ok r | Err _ => Err (ErrMsg "server status 500") end.

Lemma int32_pos n : 1 ≤ n ≤ MaxInt32 → int32 n.
Proof. unfold int32, MinInt32. lia. Qed.

Lemma end_to_end_acquire n s :
  1 ≤ n ≤ MaxInt32 →
  run (network (baseURL c) obs (Some a) random h tok)
    (postJSON c (leasePath (kNamespace key) (kName key) (op_name OpAcquire))
       [("holder", EString holder); ("ttlSeconds", EInt n)] true) s =
  let '(res, s') := run h (Acquire key holder (n * Second)) s in (answer res, s').
Proof.
  intros Hn. pose proof (ValidateHolder_ok _ _ Hvh) as [_ Hlen].
  rewrite run_postJSON. cbn [lease_handler]. unfold handleAcquire.
  erewrite decode_acquire by (done || by apply int32_pos). cbn [aqHolder aqTTLSeconds].
  rewrite Hvh, (proj2 (Z.leb_gt _ _)) by lia. rewrite guarded_passes, seconds_exact by done.
  cbn [mbind prog_mbind trigger prog_bind interp run_manager]. rewrite run_bind.
  destruct (run h (Acquire key holder (n * Second)) s) as [[res|e] s']; [|done].
  destruct res. done.
Qed.
Lemma end_to_end_renew token n s :
  int32 token → token ≠ 0 → 1 ≤ n ≤ MaxInt32 →
  run (network (baseURL c) obs (Some a) random h tok)
    (postJSON c (leasePath (kNamespace key) (kName key) (op_name OpRenew))
       [("fencingToken", EInt token); ("holder", EString holder); ("ttlSeconds", EInt n)] true) s =
  let '(res, s') := run h (Renew key holder token (n * Second)) s in (answer res, s').
Proof.
  intros Ht Ht0 Hn. pose proof (ValidateHolder_ok _ _ Hvh) as [_ Hlen].
  rewrite run_postJSON. cbn [lease_handler]. unfold handleRenew.
  erewrite decode_renew by (done || by apply int32_pos). cbn [nqHolder nqTTLSeconds nqFencingToken].
  rewrite Hvh, (proj2 (Z.eqb_neq _ _) Ht0), (proj2 (Z.leb_gt _ _)) by lia.
  rewrite guarded_passes, seconds_exact by done.
  cbn [mbind prog_mbind trigger prog_bind interp run_manager]. rewrite run_bind.
  destruct (run h (Renew key holder token (n * Second)) s) as [[res|e] s']; [|done].
  destruct res. done.
Qed.

Definition release_answer (res : result unit) : result unit :=
  match res with
  | Ok _ => Ok ()
  | Err e => Err (if errors_Is e ErrConflict then ErrConflict else ErrMsg "server status 500")
  end.

Lemma end_to_end_release token s :
  int32 token →
  run (network (baseURL c) obs (Some a) random h tok)
    (client_Release c (kNamespace key) (kName key) holder token) s =
  let '(res, s') := run h (Release key holder token) s in (release_answer res, s').
Proof.
  intros Ht. pose proof (ValidateHolder_ok _ _ Hvh) as [Hne Hlen].
  unfold client_Release. rewrite run_bind. change "release" with (op_name OpRelease).
  rewrite run_postJSON. cbn [lease_handler]. unfold handleRelease.
  erewrite decode_release by done. cbn [lqHolder lqFencingToken].
  rewrite (bool_decide_false _ Hne), guarded_passes.
  cbn [mbind prog_mbind trigger prog_bind interp run_manager]. rewrite run_bind.
  destruct (run h (Release key holder token) s) as [[[]|e] s']; [done|].
  cbn [release_answer]. destruct (errors_Is e ErrConflict); done.
Qed.
End end_to_end.

Lemma ttl_seconds_exact ttl :
  Second ≤ ttl ≤ MaxInt32 * Second → ttl_seconds ttl = ttl / Second ∧ 1 ≤ ttl / Second ≤ MaxInt32.
Proof.
  unfold ttl_seconds. intros Ht. rewrite Z.quot_div_nonneg by (unfold Second in *; lia).
  assert (1 ≤ ttl / Second ≤ MaxInt32) as Hr.
  { unfold Second, MaxInt32 in *. split; [apply Z.div_le_lower_bound; lia|].
    apply Z.div_le_upper_bound; lia. }
  split; [|done]. by apply wrap32_id, int32_pos.
Qed.

(** ** The theorems *)

(** A path the client builds is routed to the operation and key it was
    built from, whatever bytes the namespace and the name hold, as long as the
    HTTP mux does not clean them away (empty, a dot or two dots). *)
Theorem lease_path_roundtrip op key r :
  unclean (kNamespace key) = false → unclean (kName key) = false →
  qMethod r = "POST" → qPath r = leasePath (kNamespace key) (kName key) (op_name op) →
  match_route true r = Some (RLease op key).
Proof.
  intros Hns Hname Hm Hp. unfold match_route. rewrite Hp, Hm, leasePath_segments by done.
  destruct key as [ns name]. by destruct op.
Qed.

Lemma lease_path_roundtrip_witness :
  match_route true (sent "t" (MkKey "a/b" "100%") OpRenew []) = Some (RLease OpRenew (MkKey "a/b" "100%")).
Proof. apply (lease_path_roundtrip OpRenew (MkKey "a/b" "100%")); reflexivity. Defined.


Definition demo_client : Client := New "https://berth/" [WithAPIKey "s3cret"; WithTimeout (5 * Second)].

