(* ===== verification/Helper.v ===== *)
(** * The injected helper's command

    [cmd/berth-acquire]: the three subcommands of the helper, the flags layered
    over the environment, and the client built from the configuration
    ([internal/acquire/config.go], [NewClient]). The command-line parser is
    cobra's: what it makes of the arguments is a parameter. *)

From S2P Require Import Prelude GoStrings GoPath Store State ClientAuth Manager AcquireConfig Renewer Client.

(** ** The client *)

(** The client, and the token source its getter reads when a key file is set. *)
Definition NewClient `{X509} (c : Config) : prog fileE (result (Client * option FileTokenSource)) :=
  and_then
    (if APIKeyFile c != "" then
       and_then (try "load api key file" (NewFileTokenSource (APIKeyFile c) Second)) (λ ts,
       mret (Ok ([WithAPIKeyFunc (Some CallerKey)], Some ts)))
     else if APIKey c != "" then mret (Ok ([WithAPIKey (APIKey c)], None))
     else mret (Ok ([], None))) (λ '(opts, ts),
  and_then (try "load TLS config" (LoadTLSConfig (CABundleFile c) (ServerName c) (InsecureSkipVerify c))) (λ tls,
  mret (Ok (New (APIServer c) (opts ++ [WithTLSConfig (Some tls)]), ts)))).

(** ** Flags *)

Record cliFlags := MkFlags {
  f_leaseName : string; f_leaseNamespace : string; f_mode : string; f_enforce : string;
  f_ttlSeconds : Z; f_heartbeatSecs : Z; f_enforceGrace : Z; f_releaseOnDown : bool;
  f_holderIdentity : string; f_clusterID : string; f_podNamespace : string; f_podName : string;
  f_podUID : string; f_workloadKind : string; f_workloadName : string; f_stateDir : string;
  f_apiServer : string; f_apiKey : string; f_apiKeyFile : string; f_caBundleFile : string;
  f_serverName : string; f_insecure : bool }.

(** The flags' default values. *)
Definition noFlags : cliFlags :=
  MkFlags "" "" "" "" 0 0 0 false "" "" "" "" "" "" "" "" "" "" "" "" "" false.

(** The environment's configuration with the explicitly set flags on top. *)
Definition override (f : cliFlags) (changed : string → bool) (c : Config) : Config :=
  let pick {A} (flag : string) (v old : A) : A := if changed flag then v else old in
  {| LeaseName := pick "lease-name" (f_leaseName f) (LeaseName c);
     LeaseNamespace := pick "lease-namespace" (f_leaseNamespace f) (LeaseNamespace c);
     Mode := pick "mode" (f_mode f) (Mode c);
     Enforce := pick "enforce" (f_enforce f) (Enforce c);
     cTTL := pick "ttl-seconds" (wrap64 (f_ttlSeconds f * Second)) (cTTL c);
     HeartbeatInterval := pick "heartbeat-seconds" (wrap64 (f_heartbeatSecs f * Second)) (HeartbeatInterval c);
     EnforceGrace := pick "enforce-grace-seconds" (wrap64 (f_enforceGrace f * Second)) (EnforceGrace c);
     SignalTarget := SignalTarget c;
     ReleaseOnShutdown := pick "release-on-shutdown" (Some (f_releaseOnDown f)) (ReleaseOnShutdown c);
     HolderIdentity := pick "holder-identity" (f_holderIdentity f) (HolderIdentity c);
     ClusterID := pick "cluster-id" (f_clusterID f) (ClusterID c);
     PodNamespace := pick "pod-namespace" (f_podNamespace f) (PodNamespace c);
     PodName := pick "pod-name" (f_podName f) (PodName c);
     PodUID := pick "pod-uid" (f_podUID f) (PodUID c);
     WorkloadKind := pick "workload-kind" (f_workloadKind f) (WorkloadKind c);
     WorkloadName := pick "workload-name" (f_workloadName f) (WorkloadName c);
     StateDir := pick "state-dir" (f_stateDir f) (StateDir c);
     APIServer := pick "api-server" (f_apiServer f) (APIServer c);
     APIKey := pick "api-key" (f_apiKey f) (APIKey c);
     APIKeyFile := pick "api-key-file" (f_apiKeyFile f) (APIKeyFile c);
     CABundleFile := pick "ca-bundle-file" (f_caBundleFile f) (CABundleFile c);
     ServerName := pick "server-name" (f_serverName f) (ServerName c);
     InsecureSkipVerify := pick "insecure-skip-tls-verify" (f_insecure f) (InsecureSkipVerify c) |}.

Definition config (f : cliFlags) (changed : string → bool) (getenv : string → string) : result Config :=
  c ← ConfigFromEnv getenv;
  let '(verdict, c') := Validate (override f changed c) in
  _ ← verdict; Ok c'.

Definition markerPath (args : list string) (getenv : string → string) (f : cliFlags) : string :=
  let fallback :=
    let dir := f_stateDir f in
    let dir := if dir == "" then getenv EnvStateDir else dir in
    let dir := if dir == "" then DefaultStateDir else dir in
    dir +:+ "/healthy" in
  match args with
  | a :: _ => if a != "" then a else fallback
  | [] => fallback
  end.

(** ** Subcommands *)

Inductive subcommand :=
| CmdAcquire (acquireTimeout : Z)
| CmdRenew
| CmdCheck (args : list string) (checkMaxAge : Z).

(** A parsed command line: the subcommand with its own flags and arguments, the
    shared flags, and which of them were set. *)
Record invocation := MkInvocation {
  inv_cmd : subcommand; inv_flags : cliFlags; inv_changed : string → bool }.

(** [cobra] and [pflag]: parsing, with the argument-count checks of the commands. *)
Class Cobra := cobra_parse : list string → result invocation.

Inductive helperE : Type → Type :=
| OnFiles {X : Type} (e : fileE X) : helperE X
| OnHold {X : Type} (e : holdE X) : helperE X
| OnSide {X : Type} (e : sideE X) : helperE X
| WithTimeoutCtx (d : Z) : helperE unit.

Definition errUnhealthy : error := ErrMsg "health check failed".

(** [None]: the command is still running after [fuel] iterations. *)
Definition run_command `{X509} (fuel : nat) (inv : invocation) (getenv : string → string)
    : prog helperE (option (result unit)) :=
  let cfg := config (inv_flags inv) (inv_changed inv) getenv in
  match inv_cmd inv with
  | CmdAcquire acquireTimeout =>
    match cfg with
    | Err e => mret (Some (Err e))
    | Ok cfg =>
      lc ← lift (@OnFiles) (NewClient cfg);
      match lc with
      | Err e => mret (Some (Err e))
      | Ok _ =>
        _ ← (if acquireTimeout >? 0 then trigger (WithTimeoutCtx acquireTimeout) else mret ());
        out ← lift (@OnHold) (Hold fuel cfg);
        mret ((λ r, match r with Ok _ => Ok () | Err e => Err (ErrWrap "acquire" e) end) <$> out)
      end
    end
  | CmdRenew =>
    match cfg with
    | Err e => mret (Some (Err e))
    | Ok cfg =>
      if Mode cfg != ModeRuntimeSingleton then mret (Some (Err (ErrMsg "renew requires mode=runtime-singleton")))
      else
        lc ← lift (@OnFiles) (NewClient cfg);
        match lc with
        | Err e => mret (Some (Err e))
        | Ok _ => lift (@OnSide) (Run fuel cfg)
        end
    end
  | CmdCheck args checkMaxAge =>
    res ← lift (@OnFiles) (EvaluateMarker (file_of (markerPath args getenv (inv_flags inv))) checkMaxAge);
    mret (Some (if HealthResult_OK res then Ok () else Err errUnhealthy))
  end.

(** The exit code. *)
Definition helper_run `{X509} `{Cobra} (fuel : nat) (args : list string) (getenv : string → string)
    : prog helperE (option Z) :=
  match cobra_parse args with
  | Err _ => mret (Some 1)
  | Ok inv =>
    out ← run_command fuel inv getenv;
    mret (match out with Some r => Some (if is_ok r then 0 else 1) | None => None end)
  end.
