(* ===== verification/TimeText.v ===== *)
(** * Times as text

    The parts of Go's [time] package that timestamps go through on their way
    into a text column and back: the calendar, [Format(time.RFC3339Nano)] of a
    UTC time and [time.Parse] for the layouts the SQL backend accepts. Times
    are nanoseconds since the zero time, 0001-01-01T00:00:00Z. *)

From S2P Require Import Prelude GoStrings JsonText.

(** ** The calendar *)

Definition Hour : Z := 60 * Minute.
Definition Day : Z := 24 * Hour.

Definition is_leap (y : Z) : bool := (y mod 4 =? 0) && (negb (y mod 100 =? 0) || (y mod 400 =? 0)).

(** Days of the year before a month. *)
Definition days_before (leap : bool) (m : Z) : Z :=
  let d := nth (Z.to_nat (m - 1)) [0; 31; 59; 90; 120; 151; 181; 212; 243; 273; 304; 334] 365 in
  if leap && (2 <? m) then d + 1 else d.

Definition days_in (leap : bool) (m : Z) : Z :=
  days_before leap (m + 1) - days_before leap m.

(** Days from 0001-01-01 to the first day of a year. *)
Definition days_to_year (y : Z) : Z :=
  let n := y - 1 in 365 * n + n / 4 - n / 100 + n / 400.

Definition date_days (y m d : Z) : Z := days_to_year y + days_before (is_leap y) m + (d - 1).

(** The year of a day and the day of that year, cycle by cycle. *)
Definition year_day (days : Z) : Z * Z :=
  let a := days / 146097 in let r := days mod 146097 in
  let b := Z.min (r / 36524) 3 in let r := r - 36524 * b in
  let c := r / 1461 in let r := r mod 1461 in
  let e := Z.min (r / 365) 3 in let r := r - 365 * e in
  (400 * a + 100 * b + 4 * c + e + 1, r).

(** The month that holds a day of the year: count the months that start by it. *)
Definition month_of (leap : bool) (yday : Z) : Z :=
  Z.of_nat (length (List.filter (λ m, days_before leap m <=? yday) [1; 2; 3; 4; 5; 6; 7; 8; 9; 10; 11; 12])).

Definition civil (days : Z) : Z * Z * Z :=
  let '(y, yday) := year_day days in
  let m := month_of (is_leap y) yday in
  (y, m, yday - days_before (is_leap y) m + 1).

(** ** Formatting *)

Definition digit (n : Z) : ascii := chr (48 + n).
Definition pad2 (n : Z) : string := String (digit (n / 10)) (str1 (digit (n mod 10))).
Definition pad4 (n : Z) : string := pad2 (n / 100) +:+ pad2 (n mod 100).

(** [k] digits of a fraction, trailing zeros removed. *)
Fixpoint frac_digits (k : nat) (ns : Z) : string :=
  match k with
  | O => EmptyString
  | S k =>
    if ns =? 0 then EmptyString
    else String (digit (ns / 10 ^ Z.of_nat k)) (frac_digits k (ns mod 10 ^ Z.of_nat k))
  end.

Definition format_frac (ns : Z) : string := if ns =? 0 then "" else String "." (frac_digits 9 ns).

(** A UTC time in [time.RFC3339Nano], for years of four digits. *)
Definition format_clock (ns : Z) : string :=
  pad2 (ns / Hour) +:+ ":" +:+ pad2 (ns / Minute mod 60) +:+ ":" +:+ pad2 (ns / Second mod 60) +:+
  format_frac (ns mod Second).

Definition FormatRFC3339Nano (t : Z) : string :=
  let '(y, m, d) := civil (t / Day) in
  pad4 y +:+ "-" +:+ pad2 m +:+ "-" +:+ pad2 d +:+ "T" +:+ format_clock (t mod Day) +:+ "Z".

(** ** Parsing *)

Definition digit_of (c : ascii) : option Z := if is_digit c then Some (code c - 48) else None.

(** [getnum] with a fixed width of two digits. *)
Definition get2 (s : string) : option (Z * string) :=
  match s with
  | String a (String b s') => x ← digit_of a; y ← digit_of b; Some (x * 10 + y, s')
  | _ => None
  end.

(** [getnum] of one or two digits. *)
Definition get12 (s : string) : option (Z * string) :=
  match s with
  | String a s' =>
    x ← digit_of a;
    match s' with
    | String b s2 => match digit_of b with Some y => Some (x * 10 + y, s2) | None => Some (x, s') end
    | EmptyString => Some (x, s')
    end
  | EmptyString => None
  end.

Definition get4 (s : string) : option (Z * string) :=
  '(x, s1) ← get2 s; '(y, s2) ← get2 s1; Some (x * 100 + y, s2).

Definition skip (c : ascii) (s : string) : option string :=
  match s with String d s' => if d == c then Some s' else None | EmptyString => None end.

(** [parseNanoseconds]: the first nine digits of a fraction. *)
Fixpoint frac_value (k : nat) (s : string) : Z :=
  match k, s with
  | S k, String c s' =>
    match digit_of c with Some d => d * 10 ^ Z.of_nat k + frac_value k s' | None => 0 end
  | _, _ => 0
  end.

(** An optional fraction of a second, with a period or a comma. *)
Definition get_frac (s : string) : Z * string :=
  match s with
  | String p s' =>
    if (p == "."%char) || (p == ","%char) then
      let '(d, r) := take_digits s' in if d == "" then (0, s) else (frac_value 9 d, r)
    else (0, s)
  | EmptyString => (0, s)
  end.

(** The zone of [Z07:00]: the offset in seconds. *)
Definition get_zone (s : string) : option (Z * string) :=
  match s with
  | String c s' =>
    if c == "Z"%char then Some (0, s')
    else if (c == "+"%char) || (c == "-"%char) then
      '(hr, s1) ← get2 s'; s2 ← skip ":" s1; '(mm, s3) ← get2 s2;
      if (24 <? hr) || (60 <? mm) then None
      else Some ((if c == "+"%char then 1 else -1) * (hr * 60 + mm) * 60, s3)
    else None
  | EmptyString => None
  end.

Definition get_clock (s : string) : option (Z * string) :=
  '(hh, s1) ← get12 s; s2 ← skip ":" s1;
  '(mm, s3) ← get2 s2; s4 ← skip ":" s3;
  '(ss, s5) ← get2 s4;
  if (24 <=? hh) || (60 <=? mm) || (60 <=? ss) then None
  else let '(ns, s6) := get_frac s5 in Some (hh * Hour + mm * Minute + ss * Second + ns, s6).

(** [time.Parse] of a layout [2006-01-02?15:04:05.999...] with separator [sep]
    and, if [zone] is set, [Z07:00] at the end; then [UTC]. *)
Definition time_Parse (sep : ascii) (zone : bool) (s : string) : option Z :=
  '(y, s1) ← get4 s; s2 ← skip "-" s1;
  '(m, s3) ← get2 s2; s4 ← skip "-" s3;
  '(d, s5) ← get2 s4; s6 ← skip sep s5;
  '(ns, s7) ← get_clock s6;
  '(off, rest) ← (if zone then get_zone s7 else Some (0, s7));
  if (rest == "") && (1 <=? m) && (m <=? 12) && (1 <=? d) && (d <=? days_in (is_leap y) m)
  then Some (date_days y m d * Day + ns - off * Second)
  else None.

(** ** The calendar is a bijection *)

Lemma year_day_spec days :
  0 ≤ days → let '(y, yd) := year_day days in
  days_to_year y + yd = days ∧ 0 ≤ yd < 365 + (if is_leap y then 1 else 0) ∧ 1 ≤ y.
Proof.
  intros Hd. unfold year_day.
  pose proof (Z.div_mod days 146097 ltac:(lia)). pose proof (Z.mod_pos_bound days 146097 ltac:(lia)).
  set (a := days / 146097) in *. set (r1 := days mod 146097) in *.
  assert (0 ≤ a) by (apply Z.div_pos; lia).
  remember (Z.min (r1 / 36524) 3) as b eqn:Eb. remember (r1 - 36524 * b) as r2 eqn:Er2.
  assert (0 ≤ b ≤ 3 ∧ 0 ≤ r2 ∧ (b < 3 → r2 < 36524) ∧ r2 < 36525) as (Hb & Hr2 & Hr2' & Hr2'').
  { pose proof (Z.div_mod r1 36524 ltac:(lia)). pose proof (Z.mod_pos_bound r1 36524 ltac:(lia)). lia. }
  pose proof (Z.div_mod r2 1461 ltac:(lia)). pose proof (Z.mod_pos_bound r2 1461 ltac:(lia)).
  set (c := r2 / 1461) in *. set (r3 := r2 mod 1461) in *.
  remember (Z.min (r3 / 365) 3) as e eqn:Ee. remember (r3 - 365 * e) as r4 eqn:Er4.
  assert (0 ≤ e ≤ 3 ∧ 0 ≤ r4 ∧ (e < 3 → r4 < 365)) as (He & Hr4 & Hr4').
  { pose proof (Z.div_mod r3 365 ltac:(lia)). pose proof (Z.mod_pos_bound r3 365 ltac:(lia)). lia. }
  assert (0 ≤ c ≤ 24) as Hc by lia.
  unfold days_to_year, is_leap. remember (400 * a + 100 * b + 4 * c + e) as n eqn:En.
  replace (n + 1 - 1) with n by lia.
  assert (n / 4 = 100 * a + 25 * b + c) as -> by (symmetry; apply (Z.div_unique n 4 _ e); lia).
  assert (n / 100 = 4 * a + b) as -> by (symmetry; apply (Z.div_unique n 100 _ (4 * c + e)); lia).
  assert (n / 400 = a) as -> by (symmetry; apply (Z.div_unique n 400 _ (100 * b + 4 * c + e)); lia).
  split; [lia|]. split; [|lia]. split; [lia|].
  destruct (Z.eq_dec e 3) as [He3|]; [|destruct (_ && _); lia].
  assert ((n + 1) mod 4 = 0) as ->.
  { symmetry; apply (Z.mod_unique_pos _ 4 (100 * a + 25 * b + c + 1)); lia. }
  destruct (Z.eq_dec c 24) as [Hc24|].
  - assert ((n + 1) mod 100 = 0) as ->.
    { symmetry; apply (Z.mod_unique_pos _ 100 (4 * a + b + 1)); lia. }
    destruct (Z.eq_dec b 3).
    + assert ((n + 1) mod 400 = 0) as -> by (symmetry; apply (Z.mod_unique_pos _ 400 (a + 1)); lia).
      cbn. lia.
    + destruct (_ && _); lia.
  - assert ((n + 1) mod 100 = 4 * c + 4) as ->.
    { symmetry; apply (Z.mod_unique_pos _ 100 (4 * a + b)); lia. }
    rewrite (proj2 (Z.eqb_neq (4 * c + 4) 0)) by lia. cbn. lia.
Qed.

(** Every day of a year is in a month. *)
Definition month_ok (leap : bool) (yd : nat) : bool :=
  let m := month_of leap (Z.of_nat yd) in
  (1 <=? m) && (m <=? 12) && (days_before leap m <=? Z.of_nat yd) &&
  (Z.of_nat yd <? days_before leap m + days_in leap m).

Lemma months_checked :
  forallb (month_ok false) (seq 0 365) && forallb (month_ok true) (seq 0 366) = true.
Proof. vm_compute. reflexivity. Qed.

Lemma month_of_spec leap yd :
  0 ≤ yd < 365 + (if leap : bool then 1 else 0) →
  let m := month_of leap yd in
  1 ≤ m ≤ 12 ∧ 1 ≤ yd - days_before leap m + 1 ≤ days_in leap m.
Proof.
  intros Hyd. assert (month_ok leap (Z.to_nat yd) = true) as Hok.
  { pose proof months_checked as [Hf Ht]%andb_prop. rewrite forallb_forall in Hf, Ht.
    destruct leap; [apply Ht|apply Hf]; apply in_seq; lia. }
  unfold month_ok in Hok. rewrite Z2Nat.id in Hok by lia. cbv zeta. lia.
Qed.

Lemma civil_spec days :
  0 ≤ days → let '(y, m, d) := civil days in
  date_days y m d = days ∧ 1 ≤ m ≤ 12 ∧ 1 ≤ d ≤ days_in (is_leap y) m ∧ 1 ≤ y.
Proof.
  intros Hd. unfold civil. pose proof (year_day_spec days Hd) as Hy. destruct (year_day days) as [y yd].
  destruct Hy as (Hsum & Hyd & Hy1). pose proof (month_of_spec (is_leap y) yd Hyd) as [Hm Hd'].
  unfold date_days. split_and!; try done; lia.
Qed.

(** ** Text round trips *)

Lemma digit_of_digit n : 0 ≤ n < 10 → digit_of (digit n) = Some n ∧ is_digit (digit n) = true.
Proof.
  intros Hn. assert (n = 0 ∨ n = 1 ∨ n = 2 ∨ n = 3 ∨ n = 4 ∨ n = 5 ∨ n = 6 ∨ n = 7 ∨ n = 8 ∨ n = 9) as H by lia.
  by repeat destruct H as [->|H]; [..|subst n].
Qed.

Lemma get2_pad2 n s : 0 ≤ n < 100 → get2 (pad2 n +:+ s) = Some (n, s).
Proof.
  intros Hn. unfold pad2, str1. rewrite !app_string_cons, app_string_nil_l. cbn [get2].
  assert (0 ≤ n / 10 < 10) as H1 by (split; [apply Z.div_pos|apply Z.div_lt_upper_bound]; lia).
  pose proof (Z.mod_pos_bound n 10 ltac:(lia)) as H2.
  rewrite (proj1 (digit_of_digit _ H1)), (proj1 (digit_of_digit _ H2)). cbn.
  pose proof (Z.div_mod n 10 ltac:(lia)). do 2 f_equal. lia.
Qed.

Lemma get12_pad2 n s : 0 ≤ n < 100 → get12 (pad2 n +:+ s) = Some (n, s).
Proof.
  intros Hn. pose proof (get2_pad2 n s Hn) as H. revert H.
  unfold pad2, str1. rewrite !app_string_cons, app_string_nil_l. cbn [get2 get12].
  destruct (digit_of (digit (n / 10))); [|done]. cbn. by destruct (digit_of (digit (n mod 10))).
Qed.

Lemma get4_pad4 n s : 0 ≤ n < 10000 → get4 (pad4 n +:+ s) = Some (n, s).
Proof.
  intros Hn. unfold get4, pad4. rewrite <- app_string_assoc.
  assert (0 ≤ n / 100 < 100) by (split; [apply Z.div_pos|apply Z.div_lt_upper_bound]; lia).
  pose proof (Z.mod_pos_bound n 100 ltac:(lia)). rewrite get2_pad2 by lia. cbn. rewrite get2_pad2 by lia. cbn.
  pose proof (Z.div_mod n 100 ltac:(lia)). do 2 f_equal. lia.
Qed.

Lemma frac_digits_value k ns :
  0 ≤ ns < 10 ^ Z.of_nat k →
  frac_value k (frac_digits k ns) = ns ∧ string_all is_digit (frac_digits k ns) = true.
Proof.
  revert ns. induction k as [|k IH]; intros ns Hns; [cbn in *; split; [lia|done]|].
  cbn [frac_digits]. destruct (Z.eqb_spec ns 0) as [->|Hne]; [done|].
  rewrite Nat2Z.inj_succ, Z.pow_succ_r in Hns by lia.
  set (p := 10 ^ Z.of_nat k) in *. assert (0 < p) as Hp by (apply Z.pow_pos_nonneg; lia).
  assert (0 ≤ ns / p < 10) as Hq by (split; [apply Z.div_pos|apply Z.div_lt_upper_bound]; lia).
  pose proof (Z.mod_pos_bound ns p Hp) as Hm. destruct (IH _ Hm) as [Hv Hall].
  destruct (digit_of_digit _ Hq) as [Hd Hdig]. cbn [frac_value string_all]. fold p.
  rewrite Hd, Hv, Hdig, Hall. split; [|done]. pose proof (Z.div_mod ns p ltac:(lia)). lia.
Qed.

Lemma skip_here c s : skip c (String c EmptyString +:+ s) = Some s.
Proof. rewrite app_string_cons, app_string_nil_l. cbn. by rewrite bool_decide_true. Qed.

Lemma get_frac_format ns s :
  0 ≤ ns < Second → get_frac (format_frac ns +:+ String "Z" s) = (ns, String "Z" s).
Proof.
  intros Hns. unfold format_frac. destruct (Z.eqb_spec ns 0) as [->|Hne]; [done|].
  rewrite app_string_cons. cbn [get_frac]. rewrite bool_decide_true by done. cbn [orb].
  destruct (frac_digits_value 9 ns) as [Hv Hall]; [unfold Second in Hns; cbn; lia|].
  rewrite take_digits_app, Hv by done. rewrite bool_decide_false; [done|].
  cbn [frac_digits]. by rewrite (proj2 (Z.eqb_neq ns 0) Hne).
Qed.

Lemma get_clock_format ns s :
  0 ≤ ns < Day → get_clock (format_clock ns +:+ String "Z" s) = Some (ns, String "Z" s).
Proof.
  intros Hns. unfold format_clock, get_clock. rewrite <- !app_string_assoc.
  assert (0 ≤ ns / Hour < 24) as Hh.
  { split; [apply Z.div_pos|apply Z.div_lt_upper_bound]; unfold Day, Hour, Minute, Second in *; lia. }
  pose proof (Z.mod_pos_bound (ns / Minute) 60 ltac:(lia)) as Hm.
  pose proof (Z.mod_pos_bound (ns / Second) 60 ltac:(lia)) as Hse.
  pose proof (Z.mod_pos_bound ns Second ltac:(unfold Second; lia)) as Hn.
  rewrite get12_pad2 by lia. cbn [mbind option_bind]. rewrite skip_here. cbn [mbind option_bind].
  rewrite get2_pad2 by lia. cbn [mbind option_bind]. rewrite skip_here. cbn [mbind option_bind].
  rewrite get2_pad2 by lia. cbn [mbind option_bind].
  rewrite (proj2 (Z.leb_gt 24 _)), !(proj2 (Z.leb_gt 60 _)) by lia. cbn [orb].
  rewrite get_frac_format by done. do 2 f_equal.
  pose proof (Z.div_mod ns Second ltac:(unfold Second; lia)) as E1.
  pose proof (Z.div_mod (ns / Second) 60 ltac:(lia)) as E2.
  pose proof (Z.div_mod (ns / Minute) 60 ltac:(lia)) as E3.
  assert (ns / Second / 60 = ns / Minute) as E4 by (rewrite Z.div_div by (unfold Second; lia); f_equal).
  assert (ns / Minute / 60 = ns / Hour) as E5.
  { rewrite Z.div_div by (unfold Minute, Second; lia). f_equal. }
  rewrite E4 in E2. rewrite E5 in E3. unfold Hour, Minute in *. lia.
Qed.

(** Years of four digits. *)
Definition max_time : Z := days_to_year 10000 * Day.

Lemma days_to_year_mono y y' : y ≤ y' → days_to_year y ≤ days_to_year y'.
Proof.
  intros Hy. unfold days_to_year. set (n := y - 1). set (n' := y' - 1).
  assert (n / 4 ≤ n' / 4) by (apply Z.div_le_mono; lia).
  assert (n / 400 ≤ n' / 400) by (apply Z.div_le_mono; lia).
  assert (n' / 100 - n / 100 ≤ n' - n) ; [|lia].
  pose proof (Z.div_mod n 100 ltac:(lia)). pose proof (Z.div_mod n' 100 ltac:(lia)).
  pose proof (Z.mod_pos_bound n 100 ltac:(lia)). pose proof (Z.mod_pos_bound n' 100 ltac:(lia)). lia.
Qed.

Lemma month_bounds leap m : 1 ≤ m ≤ 12 → 0 ≤ days_before leap m ∧ days_in leap m ≤ 31.
Proof.
  intros Hm. assert (∃ n, (n < 12)%nat ∧ m = Z.of_nat n + 1) as (n & Hn & ->).
  { exists (Z.to_nat (m - 1)). lia. }
  do 12 (destruct n as [|n]; [destruct leap; vm_compute; split; discriminate|]). lia.
Qed.

(** What [Format] writes, [Parse] reads back to the nanosecond. *)
Lemma time_Parse_Format t :
  0 ≤ t < max_time → time_Parse "T" true (FormatRFC3339Nano t) = Some t.
Proof.
  intros Ht. assert (0 < Day) as HDay by (unfold Day, Hour, Minute, Second; lia).
  assert (0 ≤ t / Day < days_to_year 10000) as Hdays.
  { split; [apply Z.div_pos; lia|]. apply Z.div_lt_upper_bound; [done|]. unfold max_time in Ht. lia. }
  unfold FormatRFC3339Nano, time_Parse. pose proof (civil_spec (t / Day) ltac:(lia)) as Hc.
  destruct (civil (t / Day)) as [[y m] d]. destruct Hc as (Hdate & Hm & Hd & Hy).
  assert (y < 10000) as Hy'.
  { destruct (Z.lt_ge_cases y 10000) as [|Hge]; [done|]. exfalso.
    pose proof (days_to_year_mono _ _ Hge). unfold date_days in Hdate.
    pose proof (month_bounds (is_leap y) m Hm). lia. }
  pose proof (month_bounds (is_leap y) m Hm) as [_ Hdim].
  rewrite get4_pad4 by lia. cbn [mbind option_bind]. rewrite skip_here. cbn [mbind option_bind].
  rewrite get2_pad2 by lia. cbn [mbind option_bind]. rewrite skip_here. cbn [mbind option_bind].
  rewrite get2_pad2 by lia. cbn [mbind option_bind]. rewrite skip_here. cbn [mbind option_bind].
  pose proof (Z.mod_pos_bound t Day HDay) as Hmod.
  rewrite get_clock_format by done. cbn [mbind option_bind get_zone].
  rewrite bool_decide_true by done. cbn [mbind option_bind]. rewrite bool_decide_true by done.
  rewrite !(proj2 (Z.leb_le _ _)) by lia. cbn [andb]. f_equal. rewrite Hdate.
  pose proof (Z.div_mod t Day ltac:(lia)). lia.
Qed.
