(* ===== verification/DurationText.v ===== *)
(** * Durations as text

    [time.Duration.String] and [time.ParseDuration], which carry the age limit
    of the liveness probe from the webhook to the helper. Fractions are parsed
    with float64 arithmetic in Go; that arithmetic is a parameter here, and no
    text of a whole number of seconds uses it. *)

From S2P Require Import Prelude GoStrings TimeText.

(** ** Printing *)

(** A number of [unit]s with the remaining [k] digits as its fraction. *)
Definition with_frac (u unit : Z) (k : nat) : string :=
  FormatInt (u / unit) +:+
  (if u mod unit =? 0 then "" else String "." (frac_digits k (u mod unit))).

(** Durations of a second and more. *)
Definition format_hms (u : Z) : string :=
  let m := u / Minute in
  (if m =? 0 then ""
   else (if m / 60 =? 0 then "" else FormatInt (m / 60) +:+ "h") +:+ FormatInt (m mod 60) +:+ "m") +:+
  with_frac (u mod Minute) Second 9 +:+ "s".

(** The micro sign is the two bytes 0xC2 0xB5. *)
Definition micro : string := String "194" (String "181" "s").

Definition Duration_String (d : Z) : string :=
  let u := Z.abs d in
  (if d <? 0 then "-" else "") +:+
  (if u =? 0 then "0s"
   else if u <? Microsecond then FormatInt u +:+ "ns"
   else if u <? Millisecond then with_frac u Microsecond 3 +:+ micro
   else if u <? Second then with_frac u Millisecond 6 +:+ "ms"
   else format_hms u).

(** ** Parsing *)

Definition two63 : Z := 9223372036854775808.

(** [leadingInt]: [None] on overflow. *)
Fixpoint leading_int (acc : Z) (s : string) : option (Z * string) :=
  match s with
  | EmptyString => Some (acc, EmptyString)
  | String c s' =>
      match digit_val c with
      | None => Some (acc, s)
      | Some d =>
          if acc >? two63 / 10 then None
          else if acc * 10 + d >? two63 then None
          else leading_int (acc * 10 + d) s'
      end
  end.

(** The digits after a point, and the rest. *)
Fixpoint fraction (s : string) : string * string :=
  match s with
  | EmptyString => (EmptyString, EmptyString)
  | String c s' =>
      match digit_val c with
      | None => (EmptyString, s)
      | Some _ => let '(f, r) := fraction s' in (String c f, r)
      end
  end.

(** The unit: everything up to the next digit or point. *)
Fixpoint unit_text (s : string) : string * string :=
  match s with
  | EmptyString => (EmptyString, EmptyString)
  | String c s' =>
      match digit_val c with
      | Some _ => (EmptyString, s)
      | None =>
          if c == "."%char then (EmptyString, s)
          else let '(u, r) := unit_text s' in (String c u, r)
      end
  end.

Definition unitMap (u : string) : option Z :=
  if u == "ns" then Some Nanosecond
  else if (u == "us") || (u == micro) || (u == String "206" (String "188" "s")) then Some Microsecond
  else if u == "ms" then Some Millisecond
  else if u == "s" then Some Second
  else if u == "m" then Some Minute
  else if u == "h" then Some Hour
  else None.

(** The nanoseconds of a fraction, given by its digits, of a unit: Go computes
    them in float64. *)
Class FloatFraction := frac_nanos : string → Z → Z.

Section parse.
Context `{FloatFraction}.

(** One number with its unit. *)
Definition duration_item (s : string) : option (Z * string) :=
  '(v, s1) ← leading_int 0 s;
  let '(f, s2) :=
    match s1 with String "." s1' => fraction s1' | _ => (EmptyString, s1) end in
  if (s1 == s) && (f == "") then None
  else
    let '(u, rest) := unit_text s2 in
    unit ← unitMap u;
    if v >? two63 / unit then None
    else let v' := v * unit + (if f == "" then 0 else frac_nanos f unit) in
         if v' >? two63 then None else Some (v', rest).

(** The loop; every item consumes at least one byte. *)
Fixpoint duration_items (fuel : nat) (d : Z) (s : string) : option Z :=
  match s, fuel with
  | EmptyString, _ => Some d
  | _, O => None
  | _, S fuel =>
      '(v, rest) ← duration_item s;
      let d' := (d + v) mod 2 ^ 64 in
      if d' >? two63 then None else duration_items fuel d' rest
  end.

Definition ParseDuration (s : string) : option Z :=
  let '(neg, s') :=
    match s with
    | String "-" s' => (true, s') | String "+" s' => (false, s') | _ => (false, s)
    end in
  if s' == "0" then Some 0
  else if s' == "" then None
  else
    d ← duration_items (String.length s') 0 s';
    if neg then Some (- d) else if d >? two63 - 1 then None else Some d.
End parse.

(** ** Whole seconds round trip *)

Lemma digit_val_bounds c d : digit_val c = Some d → 0 ≤ d < 10.
Proof. unfold digit_val. case_match; intros; simplify_eq. lia. Qed.

Lemma parse_digits_ge acc s v : 0 ≤ acc → parse_digits acc s = Some v → acc ≤ v.
Proof.
  revert acc. induction s as [|c s IH]; intros acc Hacc; cbn; [intros [= ->]; lia|].
  destruct (digit_val c) as [d|] eqn:Ed; [|done]. apply digit_val_bounds in Ed.
  intros Hv%IH; lia.
Qed.

Lemma leading_int_digits acc s v c t :
  0 ≤ acc → parse_digits acc s = Some v → v ≤ two63 → digit_val c = None →
  leading_int acc (s +:+ String c t) = Some (v, String c t).
Proof.
  intros Hacc Hs Hv Hc. revert acc Hacc Hs. induction s as [|e s IH]; intros acc Hacc; cbn [parse_digits].
  - intros [= ->]. rewrite app_string_nil_l. cbn. by rewrite Hc.
  - rewrite app_string_cons. cbn [leading_int]. destruct (digit_val e) as [d|] eqn:Ed; [|done].
    apply digit_val_bounds in Ed. intros Hs. pose proof (parse_digits_ge (acc * 10 + d) s v ltac:(lia) Hs).
    destruct (Z.gtb_spec acc (two63 / 10)).
    { exfalso. pose proof (Z.div_mod two63 10). pose proof (Z.mod_pos_bound two63 10). lia. }
    destruct (Z.gtb_spec (acc * 10 + d) two63); [lia|]. apply IH; [lia|done].
Qed.

(** A text that a number cannot continue into. *)
Definition digit_headed (s : string) : Prop :=
  match s with EmptyString => True | String c _ => is_Some (digit_val c) end.

Lemma unit_text_app u s :
  string_all (λ c, (digit_val c == None) && (c != "."%char)) u = true → digit_headed s →
  unit_text (u +:+ s) = (u, s).
Proof.
  intros Hu Hs. induction u as [|c u IH]; cbn in Hu.
  - rewrite app_string_nil_l. destruct s as [|c s]; [done|]. cbn. by destruct Hs as [d ->].
  - apply andb_prop in Hu as [[Hc Hdot]%andb_prop Hu]. bool_simp. rewrite app_string_cons. cbn [unit_text].
    rewrite Hc, bool_decide_false, IH by done. done.
Qed.

Lemma FormatInt_digits n : 0 ≤ n → parse_digits 0 (FormatInt n) = Some n ∧ FormatInt n ≠ "" ∧ digit_headed (FormatInt n).
Proof.
  intros Hn. assert (FormatInt n = format_nat (Z.to_N n)) as -> by (destruct n; done || lia).
  rewrite parse_format_nat, Z2N.id by done.
  destruct (format_nat_head (Z.to_N n)) as (c & s & d & -> & Hd). split_and!; [done|done|]. by exists d.
Qed.

Section roundtrip.
Context `{FloatFraction}.

(** The items [String] prints. *)
Lemma duration_item_print n u unit s :
  unitMap u = Some unit → (∃ c t, u = String c t ∧ c ≠ "."%char) →
  string_all (λ c, (digit_val c == None) && (c != "."%char)) u = true →
  0 ≤ n → 0 < unit → n * unit ≤ two63 → digit_headed s →
  duration_item (FormatInt n +:+ u +:+ s) = Some (n * unit, s).
Proof.
  intros Hunit (c & t & -> & Hdot) Hu Hn Hpos Hle Hs.
  destruct (FormatInt_digits n Hn) as (Hd & Hne & _).
  assert (digit_val c = None) as Hc by (cbn in Hu; by bool_simp).
  unfold duration_item. rewrite app_string_cons.
  rewrite (leading_int_digits _ _ n) by (done || nia). cbn [mbind option_bind].
  rewrite (bool_decide_false (String c _ = _)).
  2:{ intros E. apply (f_equal String.length) in E. rewrite length_app_string in E.
      destruct (FormatInt n); cbn in *; [done|lia]. }
  assert (match String c (t +:+ s) with String "." s1' => fraction s1' | _ => (EmptyString, String c (t +:+ s)) end
    = (EmptyString, String c (t +:+ s))) as ->.
  { destruct c as [[] [] [] [] [] [] [] []]; done. }
  cbn [andb]. rewrite <- app_string_cons, unit_text_app by done. rewrite Hunit. cbn [mbind option_bind].
  destruct (Z.gtb_spec n (two63 / unit)).
  { exfalso. pose proof (Z.div_mod two63 unit). pose proof (Z.mod_pos_bound two63 unit). nia. }
  rewrite bool_decide_true by done. rewrite Z.add_0_r. destruct (Z.gtb_spec (n * unit) two63); [lia|done].
Qed.

Lemma duration_items_step fuel d s v rest :
  s ≠ "" → duration_item s = Some (v, rest) → 0 ≤ d + v ≤ two63 →
  duration_items (S fuel) d s = duration_items fuel (d + v) rest.
Proof.
  intros Hs Hitem Hle. destruct s as [|c s]; [done|]. cbn [duration_items]. rewrite Hitem.
  cbn [mbind option_bind]. rewrite Z.mod_small by (unfold two63 in *; lia).
  destruct (Z.gtb_spec (d + v) two63); [lia|done].
Qed.

(** What [String] prints, item by item: a count, its unit's text and value. *)
Definition item : Type := Z * string * Z.

Definition item_ok (i : item) : Prop :=
  let '(n, u, unit) := i in
  0 ≤ n ∧ 0 < unit ∧ unitMap u = Some unit ∧ (∃ c t, u = String c t ∧ c ≠ "."%char) ∧
  string_all (λ c, (digit_val c == None) && (c != "."%char)) u = true.

Fixpoint items_text (l : list item) : string :=
  match l with [] => EmptyString | (n, u, _) :: l => FormatInt n +:+ u +:+ items_text l end.

Fixpoint items_value (l : list item) : Z :=
  match l with [] => 0 | (n, _, unit) :: l => n * unit + items_value l end.

Lemma items_text_headed l : Forall item_ok l → digit_headed (items_text l).
Proof.
  intros [|[[n u] unit] l' (Hn & _) _]; [done|]. cbn [items_text].
  destruct (FormatInt_digits n Hn) as (_ & Hne & Hh). by destruct (FormatInt n).
Qed.

Lemma items_value_nonneg l : Forall item_ok l → 0 ≤ items_value l.
Proof. induction 1 as [|[[n u] unit] l (Hn & Hu & _) _ IH]; cbn [items_value]; [done|nia]. Qed.

Lemma duration_items_print l fuel d :
  Forall item_ok l → (length l ≤ fuel)%nat → 0 ≤ d → d + items_value l ≤ two63 →
  duration_items fuel d (items_text l) = Some (d + items_value l).
Proof.
  intros Hl. revert fuel d. induction Hl as [|[[n u] unit] l Hi Hl IH]; intros fuel d Hf Hd Hle.
  { cbn. rewrite Z.add_0_r. by destruct fuel. }
  pose proof (items_value_nonneg l Hl). pose proof (items_text_headed l Hl).
  destruct Hi as (Hn & Hu & Hmap & Hhead & Hall). cbn [items_text items_value length] in *.
  destruct fuel as [|fuel]; [lia|].
  rewrite (duration_items_step _ _ _ (n * unit) (items_text l)).
  - rewrite IH by (done || nia). f_equal. lia.
  - destruct (FormatInt_digits n Hn) as (_ & Hne & _). by destruct (FormatInt n).
  - apply duration_item_print; (done || nia).
  - nia.
Qed.

Lemma items_text_length l : Forall item_ok l → (length l ≤ String.length (items_text l))%nat.
Proof.
  induction 1 as [|[[n u] unit] l (Hn & _) Hl IH]; [done|]. cbn [items_text length].
  destruct (FormatInt_digits n Hn) as (_ & Hne & _). rewrite length_app_string, length_app_string.
  destruct (FormatInt n); [done|]. cbn [String.length]. lia.
Qed.

(** The items of a whole number of seconds. *)
Definition seconds_items (n : Z) : list item :=
  (if n / 60 =? 0 then []
   else (if n / 3600 =? 0 then [] else [(n / 3600, "h", Hour)]) ++ [(n / 60 mod 60, "m", Minute)]) ++
  [(n mod 60, "s", Second)].

Lemma Duration_String_seconds n : 1 ≤ n → Duration_String (n * Second) = items_text (seconds_items n).
Proof.
  intros Hn. unfold Duration_String. rewrite Z.abs_eq by (unfold Second; lia).
  destruct (Z.ltb_spec (n * Second) 0); [unfold Second in *; lia|].
  destruct (Z.eqb_spec (n * Second) 0); [unfold Second in *; lia|].
  destruct (Z.ltb_spec (n * Second) Microsecond); [unfold Second, Microsecond in *; lia|].
  destruct (Z.ltb_spec (n * Second) Millisecond); [unfold Second, Millisecond in *; lia|].
  destruct (Z.ltb_spec (n * Second) Second); [unfold Second in *; lia|].
  rewrite app_string_nil_l. unfold format_hms, with_frac, Minute.
  rewrite Z.div_mul_cancel_r, Z.mul_mod_distr_r by (unfold Second; lia).
  rewrite Z.div_mul, Z.mod_mul by (unfold Second; lia). change (0 =? 0) with true. cbv iota.
  rewrite app_string_nil_r, Z.div_div by lia. change (60 * 60) with 3600. unfold seconds_items.
  destruct (n / 60 =? 0); [by rewrite app_string_nil_l; cbn; rewrite app_string_nil_r|].
  destruct (n / 3600 =? 0); cbn [app items_text]; by rewrite ?app_string_nil_l, ?app_string_nil_r, ?app_string_assoc.
Qed.

Lemma seconds_items_ok n : 1 ≤ n → Forall item_ok (seconds_items n) ∧ items_value (seconds_items n) = n * Second.
Proof.
  intros Hn. assert (item_ok (n mod 60, "s", Second)) as Hs.
  { split_and!; [Z.to_euclidean_division_equations; lia|done|done|by eexists _, _|done]. }
  assert (item_ok (n / 60 mod 60, "m", Minute)) as Hm.
  { split_and!; [Z.to_euclidean_division_equations; lia|done|done|by eexists _, _|done]. }
  assert (item_ok (n / 3600, "h", Hour)) as Hh.
  { split_and!; [Z.to_euclidean_division_equations; lia|done|done|by eexists _, _|done]. }
  unfold seconds_items. destruct (Z.eqb_spec (n / 60) 0).
  { split; [cbn [app]; rewrite ?Forall_cons, Forall_nil; auto|]. cbn [items_value app]. unfold Second. Z.to_euclidean_division_equations; lia. }
  destruct (Z.eqb_spec (n / 3600) 0); (split; [cbn [app]; rewrite ?Forall_cons, Forall_nil; auto|]);
    cbn [items_value app]; unfold Second, Minute, Hour, Minute, Second; Z.to_euclidean_division_equations; lia.
Qed.

(** Printing a whole number of seconds and parsing the text gives it back. *)
Lemma ParseDuration_seconds n :
  1 ≤ n → n * Second < two63 → ParseDuration (Duration_String (n * Second)) = Some (n * Second).
Proof.
  intros Hn Hlt. rewrite Duration_String_seconds by done. destruct (seconds_items_ok n Hn) as [Hok Hval].
  pose proof (items_text_headed _ Hok) as Hhead. pose proof (items_text_length _ Hok) as Hlen.
  assert (items_text (seconds_items n) ≠ "" ∧ (1 < String.length (items_text (seconds_items n)))%nat) as [Hne Hlen2].
  { destruct (seconds_items n) as [|[[k u] unit] l] eqn:E.
    { unfold seconds_items in E. by destruct (n / 60 =? 0), (n / 3600 =? 0). }
    apply Forall_cons in Hok as [(Hk & _ & _ & (c & t & -> & _) & _) _].
    cbn [items_text]. destruct (FormatInt_digits k Hk) as (_ & Hne & _). rewrite length_app_string.
    destruct (FormatInt k) as [|e s]; [done|]. split; [done|]. cbn [String.length].
    rewrite app_string_cons. cbn [String.length]. lia. }
  unfold ParseDuration. destruct (items_text (seconds_items n)) as [|c s] eqn:E; [done|].
  assert (c ≠ "-"%char ∧ c ≠ "+"%char) as [H1 H2].
  { destruct Hhead as [d Hd]. by split; intros ->. }
  assert (match String c s with String "-" s' => (true, s') | String "+" s' => (false, s') | _ => (false, String c s) end
          = (false, String c s)) as ->.
  { destruct c as [[] [] [] [] [] [] [] []]; done. }
  rewrite bool_decide_false, bool_decide_false.
  2:done. 2:{ intros E0. rewrite E0 in Hlen2. cbn in Hlen2. lia. }
  rewrite <- E. rewrite duration_items_print by (done || lia || (rewrite E; lia)).
  cbn [mbind option_bind]. rewrite Z.add_0_l, Hval. destruct (Z.gtb_spec (n * Second) (two63 - 1)); [lia|done].
Qed.
End roundtrip.
