(* ===== verification/Webhook.v ===== *)
(** * The injection webhook

    [internal/webhook]: the mutating webhook that injects the lease helper into
    opted-in pods ([PodInjector.Default]) and the validating webhook that
    checks the final pod ([PodInjector.ValidateCreate]). A pod is the part of
    the Kubernetes type the code looks at; what it never touches is carried in
    the [..Rest] fields. Texts of errors are shortened. *)

From S2P Require Import Prelude GoStrings GoPath Store AcquireConfig TimeText DurationText.

(** ** Pods *)

Record VolumeMount := MkMount {
  mName : string; mMountPath : string; mReadOnly : bool; mSubPath : string; mSubPathExpr : string }.

(** A probe; [prNet] is an HTTP, TCP or gRPC handler. *)
Record Probe := MkProbe {
  prExec : option (list string); prNet : option string;
  InitialDelaySeconds : Z; TimeoutSeconds : Z; PeriodSeconds : Z;
  SuccessThreshold : Z; FailureThreshold : Z; TerminationGracePeriodSeconds : option Z }.

#[export] Instance Probe_eq_dec : EqDecision Probe.
Proof. solve_decision. Defined.

(** A variable of a container: a literal value or a field of the pod. *)
Record EnvVar := MkEnv { evName : string; evValue : string; evFieldRef : option string }.

Record Container := MkContainer {
  cnName : string; cnImage : string; cnPullPolicy : string; cnArgs : list string;
  cnEnv : list EnvVar; cnMounts : list VolumeMount;
  LivenessProbe : option Probe; StartupProbe : option Probe; cnRestartPolicy : option string;
  cnRest : string }.

Record KeyToPath := MkKeyToPath { kpKey : string; kpPath : string }.

Record Volume := MkVolume {
  vName : string; vEmptyDir : option string; vSecret : option (string * list KeyToPath);
  vConfigMap : option (string * list KeyToPath); vRest : string }.

Record OwnerReference := MkOwner { oKind : string; oName : string; oController : option bool }.

Record Pod := MkPod {
  podNamespace : string;
  podLabels : gmap string string;
  podAnnotations : option (gmap string string);
  OwnerReferences : list OwnerReference;
  Volumes : list Volume;
  InitContainers : list Container;
  Containers : list Container;
  EphemeralContainers : list Container;
  ShareProcessNamespace : option bool;
  podRest : string }.

(** What [admission.RequestFromContext] finds in the context. *)
Record AdmissionRequest := MkAdmission { reqNamespace : string; reqSubResource : string }.

(** ** The contract *)

Definition LabelInject : string := "berth.skaphos.io/inject".
Definition InjectValueAcquire : string := "acquire".
Definition AnnLeaseName : string := "berth.skaphos.io/lease-name".
Definition AnnLeaseNamespace : string := "berth.skaphos.io/lease-namespace".
Definition AnnMode : string := "berth.skaphos.io/mode".
Definition AnnHolderIdentity : string := "berth.skaphos.io/holder-identity".
Definition AnnTTLSeconds : string := "berth.skaphos.io/ttl-seconds".
Definition AnnHeartbeatSeconds : string := "berth.skaphos.io/heartbeat-interval-seconds".
Definition AnnReleaseOnShutdown : string := "berth.skaphos.io/release-on-shutdown".
Definition AnnEnforce : string := "berth.skaphos.io/enforce".
Definition AnnEnforceGraceSeconds : string := "berth.skaphos.io/enforce-grace-seconds".
Definition AnnSignalTarget : string := "berth.skaphos.io/signal-target".
Definition AnnInjected : string := "berth.skaphos.io/injected".

Definition VolumeName : string := "berth-state".
Definition InitContainerName : string := "berth-acquire".
Definition SidecarContainerName : string := "berth-sidecar".
Definition AuthTokenVolume : string := "berth-auth-token".
Definition AuthCABundleVolume : string := "berth-auth-ca".
Definition subresourceEphemeralContainers : string := "ephemeralcontainers".

Inductive RejectReason := ReasonWritableStateMount | ReasonWritableStateMountEphemeral.

#[export] Instance RejectReason_eq_dec : EqDecision RejectReason.
Proof. solve_decision. Defined.

Definition admissionPathPods : string := "pods".
Definition admissionPathEphemeralContainers : string := "pods/ephemeralcontainers".

(** ** Operator configuration *)

Record InjectorConfig := MkInjector {
  HelperImage : string;
  ImagePullPolicy : string;
  iAPIServer : string;
  iAPIKeyFile : string;
  iCABundleFile : string;
  iServerName : string;
  iClusterID : string;
  iInsecureSkipVerify : bool;
  APIKeySecretName : string;
  APIKeySecretKey : string;
  CABundleConfigMapName : string;
  CABundleKey : string;
  ControlPlaneNamespaces : list string;
  DefaultTTLSeconds : Z;
  DefaultMode : string;
  DefaultEnforce : string;
  iStateDir : string }.

Definition validateMountableFile (field p : string) : result unit :=
  if negb (IsAbs p) then Err (ErrMsg (field +:+ " must be an absolute path"))
  else if Clean p != p then Err (ErrMsg (field +:+ " must be a clean path"))
  else if Dir p == "/" then Err (ErrMsg (field +:+ " must have a non-root parent directory"))
  else Ok ().

Definition injector_Validate (c : InjectorConfig) : result unit :=
  if HelperImage c == "" then Err (ErrMsg "helper image is required")
  else if negb ((ImagePullPolicy c == "") || (ImagePullPolicy c == "Always") ||
                (ImagePullPolicy c == "IfNotPresent") || (ImagePullPolicy c == "Never"))
  then Err (ErrMsg "invalid helper image pull policy")
  else if (DefaultMode c != ModeStartupGate) && (DefaultMode c != ModeRuntimeSingleton)
  then Err (ErrMsg "invalid default mode")
  else if (DefaultEnforce c != EnforceProbe) && (DefaultEnforce c != EnforceSignal)
  then Err (ErrMsg "invalid default enforce")
  else if (DefaultTTLSeconds c <=? 0) || (DefaultTTLSeconds c >? MaxInt32)
  then Err (ErrMsg "default ttl-seconds must be between 1 and 2147483647 seconds")
  else if negb (IsAbs (iStateDir c)) then Err (ErrMsg "state-dir must be an absolute path")
  else if negb (Bool.eqb (iAPIKeyFile c == "") (APIKeySecretName c == ""))
  then Err (ErrMsg "api-key file and secret must be set together")
  else if negb (Bool.eqb (iCABundleFile c == "") (CABundleConfigMapName c == ""))
  then Err (ErrMsg "ca-bundle file and configmap must be set together")
  else
    _ ← (if iAPIKeyFile c != "" then validateMountableFile "api-key file" (iAPIKeyFile c) else Ok ());
    _ ← (if iCABundleFile c != "" then validateMountableFile "ca-bundle file" (iCABundleFile c) else Ok ());
    let stateDir := Clean (iStateDir c) in
    if (iAPIKeyFile c != "") && (Dir (iAPIKeyFile c) == stateDir)
    then Err (ErrMsg "api-key file directory must differ from state-dir")
    else if (iCABundleFile c != "") && (Dir (iCABundleFile c) == stateDir)
    then Err (ErrMsg "ca-bundle file directory must differ from state-dir")
    else if (iAPIKeyFile c != "") && (iCABundleFile c != "") && (Dir (iAPIKeyFile c) == Dir (iCABundleFile c))
    then Err (ErrMsg "api-key and ca-bundle files must be in different directories")
    else Ok ().

Definition withDefaults (c : InjectorConfig) : InjectorConfig := {|
  HelperImage := HelperImage c;
  ImagePullPolicy := or_default "IfNotPresent" (ImagePullPolicy c);
  iAPIServer := iAPIServer c;
  iAPIKeyFile := iAPIKeyFile c;
  iCABundleFile := iCABundleFile c;
  iServerName := iServerName c;
  iClusterID := iClusterID c;
  iInsecureSkipVerify := iInsecureSkipVerify c;
  APIKeySecretName := APIKeySecretName c;
  APIKeySecretKey :=
    if (APIKeySecretName c != "") && (APIKeySecretKey c == "") then "token" else APIKeySecretKey c;
  CABundleConfigMapName := CABundleConfigMapName c;
  CABundleKey :=
    if (CABundleConfigMapName c != "") && (CABundleKey c == "") then "ca.crt" else CABundleKey c;
  ControlPlaneNamespaces := ControlPlaneNamespaces c;
  DefaultTTLSeconds := DefaultTTLSeconds c;
  DefaultMode := or_default ModeRuntimeSingleton (DefaultMode c);
  DefaultEnforce := or_default EnforceProbe (DefaultEnforce c);
  iStateDir := or_default DefaultStateDir (iStateDir c) |}.

(** The injector's state is its defaulted configuration. *)
Definition NewPodInjector (cfg : InjectorConfig) : InjectorConfig := withDefaults cfg.

(** [SetupWithManager]: the injector that is registered, or the reason why none is. *)
Definition SetupWithManager (cfg : InjectorConfig) : result InjectorConfig :=
  let injector := NewPodInjector cfg in
  _ ← injector_Validate injector; Ok injector.

(** ** The reserved state volume *)

Definition isInjectorOwnedContainer (name : string) : bool :=
  (name == InitContainerName) || (name == SidecarContainerName).

(** What an admission answers, and the rejections it counted. *)
Definition admission (A : Type) : Type := result A * list (RejectReason * string).

Definition rejectStateMount {A} (reason : RejectReason) (container : string) (m : VolumeMount) : admission A :=
  if reason == ReasonWritableStateMountEphemeral
  then (Err (ErrMsg ("cannot attach ephemeral container " +:+ container +:+
               ": it mounts the Berth state volume writably at " +:+ mMountPath m)),
        [(reason, admissionPathEphemeralContainers)])
  else (Err (ErrMsg ("cannot inject: container " +:+ container +:+
               " mounts the Berth state volume writably at " +:+ mMountPath m)),
        [(reason, admissionPathPods)]).

Definition set_read_only (m : VolumeMount) : VolumeMount :=
  MkMount (mName m) (mMountPath m) true (mSubPath m) (mSubPathExpr m).

(** The loop over a container's mounts: the mount that is refused, or the
    mounts with the repaired ones set read-only. *)
Fixpoint check_mounts (repair : VolumeMount → bool) (ms : list VolumeMount) : VolumeMount + list VolumeMount :=
  match ms with
  | [] => inr []
  | m :: ms' =>
      if (mName m != VolumeName) || mReadOnly m then
        match check_mounts repair ms' with inl e => inl e | inr l => inr (m :: l) end
      else if repair m then
        match check_mounts repair ms' with inl e => inl e | inr l => inr (set_read_only m :: l) end
      else inl m
  end.

Definition set_mounts (ms : list VolumeMount) (c : Container) : Container :=
  MkContainer (cnName c) (cnImage c) (cnPullPolicy c) (cnArgs c) (cnEnv c) ms
    (LivenessProbe c) (StartupProbe c) (cnRestartPolicy c) (cnRest c).

Fixpoint check_containers (owned : string → bool) (repair : VolumeMount → bool) (cs : list Container)
    : string * VolumeMount + list Container :=
  match cs with
  | [] => inr []
  | c :: cs' =>
      match (if owned (cnName c) then inr (cnMounts c) else check_mounts repair (cnMounts c)) with
      | inl m => inl (cnName c, m)
      | inr ms =>
          match check_containers owned repair cs' with
          | inl e => inl e
          | inr l => inr (set_mounts ms c :: l)
          end
      end
  end.

Definition set_containers (ics cs : list Container) (p : Pod) : Pod :=
  MkPod (podNamespace p) (podLabels p) (podAnnotations p) (OwnerReferences p) (Volumes p)
    ics cs (EphemeralContainers p) (ShareProcessNamespace p) (podRest p).

Definition checkStateVolumeMounts (i : InjectorConfig) (pod : Pod) (alreadyInjected : bool) : admission Pod :=
  let owned name := alreadyInjected && isInjectorOwnedContainer name in
  let repair m := negb alreadyInjected && (mMountPath m == iStateDir i) in
  match check_containers owned repair (Containers pod) with
  | inl (c, m) => rejectStateMount ReasonWritableStateMount c m
  | inr cs =>
      match check_containers owned repair (InitContainers pod) with
      | inl (c, m) => rejectStateMount ReasonWritableStateMount c m
      | inr ics =>
          match check_containers owned (λ _, false) (EphemeralContainers pod) with
          | inl (c, m) => rejectStateMount ReasonWritableStateMountEphemeral c m
          | inr _ => (Ok (set_containers ics cs pod), [])
          end
      end
  end.

(** ** The pod's own configuration *)

Record resolved := MkResolved {
  leaseName : string;
  leaseNamespace : string;
  rmode : string;
  renforce : string;
  signalTarget : string;
  ttlSeconds : Z;
  heartbeatSeconds : Z;
  enforceGrace : Z;
  releaseOnDown : string;
  holderIdentity : string;
  workloadKind : string;
  workloadName : string }.

(** A Go map read: a missing key gives the zero value. *)
Definition ann_get (ann : gmap string string) (k : string) : string := default "" (ann !! k).

Definition intAnn (ann : gmap string string) (key : string) (def : Z) : result Z :=
  if ann_get ann key == "" then Ok def
  else match Atoi (ann_get ann key) with
       | None => Err (ErrMsg ("invalid " +:+ key +:+ ": must be an integer"))
       | Some n => Ok n
       end.

Fixpoint controllerOwner (os : list OwnerReference) : option (string * string) :=
  match os with
  | [] => None
  | o :: os' => if oController o == Some true then Some (oKind o, oName o) else controllerOwner os'
  end.

Definition resolved_validate (r : resolved) : result unit :=
  if leaseName r == "" then Err (ErrMsg (AnnLeaseName +:+ " is required"))
  else if (rmode r != ModeStartupGate) && (rmode r != ModeRuntimeSingleton)
  then Err (ErrMsg ("invalid " +:+ AnnMode))
  else if (renforce r != EnforceProbe) && (renforce r != EnforceSignal)
  then Err (ErrMsg ("invalid " +:+ AnnEnforce))
  else if (rmode r == ModeRuntimeSingleton) && (renforce r == EnforceSignal) && (signalTarget r == "")
  then Err (ErrMsg (AnnSignalTarget +:+ " is required"))
  else if (ttlSeconds r <=? 0) || (ttlSeconds r >? MaxInt32)
  then Err (ErrMsg (AnnTTLSeconds +:+ " must be between 1 and 2147483647 seconds"))
  else if heartbeatSeconds r <? 0 then Err (ErrMsg (AnnHeartbeatSeconds +:+ " must not be negative"))
  else if (heartbeatSeconds r >? 0) && (heartbeatSeconds r >=? ttlSeconds r)
  then Err (ErrMsg (AnnHeartbeatSeconds +:+ " must be less than " +:+ AnnTTLSeconds))
  else if enforceGrace r <? 0 then Err (ErrMsg (AnnEnforceGraceSeconds +:+ " must not be negative"))
  else if negb ((releaseOnDown r == "") || (releaseOnDown r == "true") || (releaseOnDown r == "false"))
  then Err (ErrMsg ("invalid " +:+ AnnReleaseOnShutdown))
  else Ok ().

Definition resolve (i : InjectorConfig) (pod : Pod) (ns : string) : result resolved :=
  let ann := default ∅ (podAnnotations pod) in
  let owner := default ("", "") (controllerOwner (OwnerReferences pod)) in
  ttl ← intAnn ann AnnTTLSeconds (DefaultTTLSeconds i);
  heartbeat ← intAnn ann AnnHeartbeatSeconds 0;
  grace ← intAnn ann AnnEnforceGraceSeconds 0;
  let r := {|
    leaseName := ann_get ann AnnLeaseName;
    leaseNamespace := or_default ns (ann_get ann AnnLeaseNamespace);
    rmode := or_default (DefaultMode i) (ann_get ann AnnMode);
    renforce := or_default (DefaultEnforce i) (ann_get ann AnnEnforce);
    signalTarget := ann_get ann AnnSignalTarget;
    ttlSeconds := ttl;
    heartbeatSeconds := heartbeat;
    enforceGrace := grace;
    releaseOnDown := ann_get ann AnnReleaseOnShutdown;
    holderIdentity := ann_get ann AnnHolderIdentity;
    workloadKind := owner.1;
    workloadName := owner.2 |} in
  _ ← resolved_validate r;
  if (rmode r == ModeRuntimeSingleton) && (renforce r == EnforceSignal) &&
     (ShareProcessNamespace pod == Some false)
  then Err (ErrMsg "enforce=signal requires shareProcessNamespace, but the pod sets it to false")
  else Ok r.

(** ** Injection *)

Definition hasVolume (vs : list Volume) (name : string) : bool := existsb (λ v, vName v == name) vs.

Definition hasContainerNamed (cs : list Container) (name : string) : bool := existsb (λ c, cnName c == name) cs.

Definition containerHasMountAt (c : Container) (name path : string) : bool :=
  existsb (λ m, (mName m == name) && (mMountPath m == path)) (cnMounts c).

(** A mount at the state directory or below it. *)
Definition under_state (root mount : string) : bool :=
  (mount == root) || HasPrefix mount (TrimSuffix1 "/" root +:+ "/").

(** The mount the probe needs. *)
Definition is_state_mount (i : InjectorConfig) (m : VolumeMount) : bool :=
  (mMountPath m == iStateDir i) && (mName m == VolumeName) && (mSubPath m == "") &&
  (mSubPathExpr m == "") && mReadOnly m.

(** The loop of [validateProbeMounts]; [found] says whether the state mount was seen. *)
Fixpoint probe_mounts (i : InjectorConfig) (ms : list VolumeMount) (found : bool) : result bool :=
  match ms with
  | [] => Ok found
  | m :: ms' =>
      let under := under_state (Clean (iStateDir i)) (Clean (mMountPath m)) in
      if under && negb (is_state_mount i m)
      then Err (ErrMsg "mount hides or alters the required read-only Berth state mount")
      else if (mName m == VolumeName) && negb (mReadOnly m)
      then Err (ErrMsg "writable Berth state mount")
      else probe_mounts i ms' (found || under)
  end.

Definition validateProbeMounts (i : InjectorConfig) (c : Container) (required : bool) : result unit :=
  found ← probe_mounts i (cnMounts c) false;
  if required && negb found then Err (ErrMsg "missing Berth state mount") else Ok ().

Fixpoint for_each {A} (f : A → result unit) (l : list A) : result unit :=
  match l with
  | [] => Ok ()
  | x :: l' => _ ← f x; for_each f l'
  end.

Definition preflight (i : InjectorConfig) (pod : Pod) (r : resolved) : result unit :=
  let runtime := rmode r == ModeRuntimeSingleton in
  let reserved := InitContainerName :: (if runtime then [SidecarContainerName] else []) in
  _ ← for_each (λ name,
        if hasContainerNamed (InitContainers pod) name || hasContainerNamed (Containers pod) name
        then Err (ErrMsg ("cannot inject: pod already has a container named " +:+ name)) else Ok ()) reserved;
  if runtime && (0 <? Z.of_nat (length (InitContainers pod)))
  then Err (ErrMsg "cannot inject runtime-singleton: workload init containers are unsupported")
  else
  _ ← for_each (λ v,
        if (vName v == VolumeName) && (vEmptyDir v == None)
        then Err (ErrMsg "cannot inject: pod already has a state volume that is not an emptyDir") else Ok ())
        (Volumes pod);
  if (APIKeySecretName i != "") && hasVolume (Volumes pod) AuthTokenVolume
  then Err (ErrMsg "cannot inject: the auth token volume name is reserved")
  else if (CABundleConfigMapName i != "") && hasVolume (Volumes pod) AuthCABundleVolume
  then Err (ErrMsg "cannot inject: the CA bundle volume name is reserved")
  else if runtime then
    for_each (λ c,
      if LivenessProbe c != None then Err (ErrMsg "container already defines a livenessProbe")
      else if StartupProbe c != None then Err (ErrMsg "container defines a startupProbe")
      else validateProbeMounts i c false) (Containers pod)
  else Ok ().

Definition isControlPlane (i : InjectorConfig) (ns : string) : bool :=
  existsb (λ cp, ns == cp) (ControlPlaneNamespaces i).

Definition authVolumeMounts (i : InjectorConfig) : list Volume * list VolumeMount :=
  let token := APIKeySecretName i != "" in
  let ca := CABundleConfigMapName i != "" in
  ((if token then
      [MkVolume AuthTokenVolume None
         (Some (APIKeySecretName i, [MkKeyToPath (APIKeySecretKey i) (Base (iAPIKeyFile i))])) None ""]
    else []) ++
   (if ca then
      [MkVolume AuthCABundleVolume None None
         (Some (CABundleConfigMapName i, [MkKeyToPath (CABundleKey i) (Base (iCABundleFile i))])) ""]
    else []),
   (if token then [MkMount AuthTokenVolume (Dir (iAPIKeyFile i)) true "" ""] else []) ++
   (if ca then [MkMount AuthCABundleVolume (Dir (iCABundleFile i)) true "" ""] else [])).

Definition freshnessProbe (i : InjectorConfig) (r : resolved) : Probe :=
  let marker := iStateDir i +:+ "/healthy" in
  let check := iStateDir i +:+ "/check" in
  let maxAge := Duration_String (wrap64 (ttlSeconds r * Second)) in
  {| prExec := Some [check; "check"; marker; "--max-age"; maxAge];
     prNet := None; InitialDelaySeconds := 0; TimeoutSeconds := 1; PeriodSeconds := 2;
     SuccessThreshold := 1; FailureThreshold := 1; TerminationGracePeriodSeconds := Some 1 |}.

Definition enforce_container (i : InjectorConfig) (r : resolved) (c : Container) : Container :=
  let roMount := MkMount VolumeName (iStateDir i) true "" "" in
  MkContainer (cnName c) (cnImage c) (cnPullPolicy c) (cnArgs c) (cnEnv c)
    (if containerHasMountAt c VolumeName (iStateDir i) then cnMounts c else cnMounts c ++ [roMount])
    (Some (freshnessProbe i r)) (StartupProbe c) (cnRestartPolicy c) (cnRest c).

Definition applyEnforcement (i : InjectorConfig) (pod : Pod) (r : resolved) : Pod :=
  MkPod (podNamespace pod) (podLabels pod) (podAnnotations pod) (OwnerReferences pod) (Volumes pod)
    (InitContainers pod) (enforce_container i r <$> Containers pod) (EphemeralContainers pod)
    (if renforce r == EnforceSignal then Some true else ShareProcessNamespace pod) (podRest pod).

Definition fieldRef (name path : string) : EnvVar := MkEnv name "" (Some path).

Definition appendIf (env : list EnvVar) (cond : bool) (name value : string) : list EnvVar :=
  if cond then env ++ [MkEnv name value None] else env.

Definition buildEnv (i : InjectorConfig) (r : resolved) : list EnvVar :=
  let env := [MkEnv EnvLeaseName (leaseName r) None;
              MkEnv EnvLeaseNamespace (leaseNamespace r) None;
              MkEnv EnvMode (rmode r) None;
              MkEnv EnvEnforce (renforce r) None;
              MkEnv EnvTTLSeconds (FormatInt (ttlSeconds r)) None;
              MkEnv EnvStateDir (iStateDir i) None;
              fieldRef EnvPodNamespace "metadata.namespace";
              fieldRef EnvPodName "metadata.name";
              fieldRef EnvPodUID "metadata.uid"] in
  let env := appendIf env ((signalTarget r != "") && (renforce r == EnforceSignal)) EnvSignalTarget (signalTarget r) in
  let env := appendIf env (heartbeatSeconds r >? 0) EnvHeartbeatSecs (FormatInt (heartbeatSeconds r)) in
  let env := appendIf env (enforceGrace r >? 0) EnvEnforceGrace (FormatInt (enforceGrace r)) in
  let env := appendIf env (releaseOnDown r != "") EnvReleaseOnDown (releaseOnDown r) in
  let env := appendIf env (holderIdentity r != "") EnvHolderIdentity (holderIdentity r) in
  let env := appendIf env (workloadKind r != "") EnvWorkloadKind (workloadKind r) in
  let env := appendIf env (workloadName r != "") EnvWorkloadName (workloadName r) in
  let env := appendIf env (iClusterID i != "") EnvClusterID (iClusterID i) in
  let env := appendIf env (iAPIServer i != "") EnvAPIServer (iAPIServer i) in
  let env := appendIf env (iAPIKeyFile i != "") EnvAPIKeyFile (iAPIKeyFile i) in
  let env := appendIf env (iCABundleFile i != "") EnvCABundleFile (iCABundleFile i) in
  let env := appendIf env (iServerName i != "") EnvServerName (iServerName i) in
  appendIf env (iInsecureSkipVerify i) EnvInsecure "true".

(** A helper container: the blocking hold, or the sidecar. *)
Definition helper_container (i : InjectorConfig) (r : resolved) (name arg : string) (restart : option string)
    : Container :=
  MkContainer name (HelperImage i) (ImagePullPolicy i) [arg] (buildEnv i r)
    (MkMount VolumeName (iStateDir i) false "" "" :: (authVolumeMounts i).2) None None restart "".

Definition mutate (i : InjectorConfig) (pod : Pod) (r : resolved) : Pod :=
  let runtime := rmode r == ModeRuntimeSingleton in
  let vols := if hasVolume (Volumes pod) VolumeName then Volumes pod
              else Volumes pod ++ [MkVolume VolumeName (Some "") None None ""] in
  let vols := foldl (λ vs v, if hasVolume vs (vName v) then vs else vs ++ [v]) vols (authVolumeMounts i).1 in
  let injected := helper_container i r InitContainerName "acquire" None ::
    (if runtime then [helper_container i r SidecarContainerName "renew" (Some "Always")] else []) in
  let pod1 := MkPod (podNamespace pod) (podLabels pod) (podAnnotations pod) (OwnerReferences pod) vols
    (injected ++ InitContainers pod) (Containers pod) (EphemeralContainers pod)
    (ShareProcessNamespace pod) (podRest pod) in
  let pod2 := if runtime then applyEnforcement i pod1 r else pod1 in
  MkPod (podNamespace pod2) (podLabels pod2)
    (Some (<[AnnInjected := "true"]> (default ∅ (podAnnotations pod2)))) (OwnerReferences pod2) (Volumes pod2)
    (InitContainers pod2) (Containers pod2) (EphemeralContainers pod2) (ShareProcessNamespace pod2)
    (podRest pod2).

(** The namespace a request is about. *)
Definition admission_ns (req : option AdmissionRequest) (pod : Pod) : string :=
  match req with
  | Some q => or_default (podNamespace pod) (reqNamespace q)
  | None => podNamespace pod
  end.

(** The mutating webhook: the pod afterwards, or the reason it is refused. *)
Definition Default (i : InjectorConfig) (req : option AdmissionRequest) (pod : Pod) : admission Pod :=
  let ns := admission_ns req pod in
  if isControlPlane i ns then (Ok pod, [])
  else if ann_get (podLabels pod) LabelInject != InjectValueAcquire then (Ok pod, [])
  else
    let onEphemeralPath := default "" (reqSubResource <$> req) == subresourceEphemeralContainers in
    match checkStateVolumeMounts i pod onEphemeralPath with
    | (Err e, counted) => (Err e, counted)
    | (Ok pod1, counted) =>
        if onEphemeralPath then (Ok pod1, counted)
        else
          (r ← resolve i pod1 ns;
           _ ← preflight i pod1 r;
           Ok (mutate i pod1 r), counted)
    end.

(** ** Validation of the final pod *)

(** The loop over the volumes: is there a state volume, and is each one an emptyDir? *)
Fixpoint state_volume (vs : list Volume) (found : bool) : result bool :=
  match vs with
  | [] => Ok found
  | v :: vs' =>
      if vName v == VolumeName then
        if vEmptyDir v == None then Err (ErrMsg "Berth state volume must remain an emptyDir")
        else state_volume vs' true
      else state_volume vs' found
  end.

Definition only_helpers (ics : list Container) : bool :=
  match ics with
  | [hold; side] =>
      (cnName hold == InitContainerName) && (cnName side == SidecarContainerName) &&
      (cnRestartPolicy hold == None) && (cnRestartPolicy side == Some "Always")
  | _ => false
  end.

Definition ValidateCreate (i : InjectorConfig) (req : option AdmissionRequest) (pod : Pod) : result unit :=
  let ns := admission_ns req pod in
  if isControlPlane i ns || (ann_get (podLabels pod) LabelInject != InjectValueAcquire) then Ok ()
  else
    r ← resolve i pod ns;
    if rmode r != ModeRuntimeSingleton then Ok ()
    else if negb (only_helpers (InitContainers pod))
    then Err (ErrMsg "cannot admit runtime-singleton: only the injected init containers are supported")
    else
      found ← state_volume (Volumes pod) false;
      if negb found then Err (ErrMsg "Berth state volume is missing")
      else
        for_each (λ c,
          if (StartupProbe c != None) || (LivenessProbe c != Some (freshnessProbe i r))
          then Err (ErrMsg "the unmodified Berth liveness probe is required")
          else validateProbeMounts i c true) (Containers pod).

Definition ValidateUpdate (old new : Pod) : result unit := Ok ().
Definition ValidateDelete (old : Pod) : result unit := Ok ().
