(* ===== verification/WebhookTheorems.v ===== *)
(** * The webhook enforces what it injects

    The validating webhook accepts exactly the pods in which the lease is
    enforced; what the mutating webhook lets through is such a pod, and no
    container of the workload can write the state volume. *)

From S2P Require Import Prelude GoStrings GoPath Store AcquireConfig TimeText DurationText Webhook.

(** ** Mounts *)

(** A container that cannot write the state volume. *)
Definition no_writable (c : Container) : Prop :=
  Forall (λ m, mName m = VolumeName → mReadOnly m = true) (cnMounts c).

Definition is_under (i : InjectorConfig) (m : VolumeMount) : bool :=
  under_state (Clean (iStateDir i)) (Clean (mMountPath m)).

(** A mount that leaves the probe's view of the state directory intact. *)
Definition mount_ok (i : InjectorConfig) (m : VolumeMount) : Prop :=
  (is_under i m = true → is_state_mount i m = true) ∧ (mName m = VolumeName → mReadOnly m = true).

(** The container sees the whole state volume, read-only, at the state directory. *)
Definition sees_state (i : InjectorConfig) (c : Container) : Prop :=
  Forall (mount_ok i) (cnMounts c) ∧ Exists (λ m, is_under i m = true) (cnMounts c).

Lemma for_each_ok {A} (f : A → result unit) l : for_each f l = Ok () ↔ Forall (λ x, f x = Ok ()) l.
Proof.
  induction l as [|x l IH]; cbn [for_each]; [by rewrite Forall_nil|]. rewrite Forall_cons, <- IH.
  destruct (f x) as [[]|e] eqn:E; cbn; naive_solver.
Qed.

Lemma probe_mounts_ok i ms found b :
  probe_mounts i ms found = Ok b ↔ Forall (mount_ok i) ms ∧ b = found || existsb (is_under i) ms.
Proof.
  revert found. induction ms as [|m ms IH]; intros found; cbn [probe_mounts existsb].
  { rewrite Forall_nil, orb_false_r. naive_solver. }
  rewrite Forall_cons. unfold mount_ok at 1. fold (is_under i m).
  destruct (is_under i m && negb (is_state_mount i m)) eqn:E1.
  { apply andb_prop in E1 as [Hu Hn]. bool_simp. split; [done|]. intros [[[Hf _] _] _]. by rewrite Hf in Hn. }
  destruct ((mName m == VolumeName) && negb (mReadOnly m)) eqn:E2.
  { bool_simp. split; [done|]. intros [[[_ Hf] _] _]. by rewrite Hf in *. }
  rewrite IH, orb_assoc. split; [|naive_solver]. intros [Hms ->]. split_and!; try done.
  - intros Hu. rewrite Hu in E1. cbn in E1. by bool_simp.
  - intros Hn. rewrite bool_decide_true in E2 by done. cbn in E2. by bool_simp.
Qed.

Lemma validateProbeMounts_ok i c required :
  validateProbeMounts i c required = Ok () ↔
  Forall (mount_ok i) (cnMounts c) ∧ (required = true → Exists (λ m, is_under i m = true) (cnMounts c)).
Proof.
  unfold validateProbeMounts.
  assert (Exists (λ m, is_under i m = true) (cnMounts c) ↔ existsb (is_under i) (cnMounts c) = true) as ->.
  { rewrite existsb_exists, Exists_exists. by setoid_rewrite list_elem_of_In. }
  destruct (probe_mounts i (cnMounts c) false) as [b|e] eqn:E; cbn.
  - apply probe_mounts_ok in E as [Hall ->]. cbn. destruct required, (existsb _ _); naive_solver.
  - split; [done|]. intros [Hall _].
    by rewrite (proj2 (probe_mounts_ok i (cnMounts c) false _) (conj Hall eq_refl)) in E.
Qed.

(** ** Volumes *)

Definition state_volume_ok (vs : list Volume) : Prop :=
  Forall (λ v, vName v = VolumeName → vEmptyDir v ≠ None) vs ∧ Exists (λ v, vName v = VolumeName) vs.

Lemma state_volume_spec vs found b :
  state_volume vs found = Ok b ↔
  Forall (λ v, vName v = VolumeName → vEmptyDir v ≠ None) vs ∧ b = found || hasVolume vs VolumeName.
Proof.
  revert found. induction vs as [|v vs IH]; intros found; cbn [state_volume hasVolume existsb].
  { rewrite Forall_nil, orb_false_r. naive_solver. }
  rewrite Forall_cons. fold (hasVolume vs VolumeName). destruct (vName v == VolumeName) eqn:En; bool_simp.
  - destruct (vEmptyDir v == None) eqn:Ee; bool_simp.
    + split; [done|]. intros [[Hf _] _]. by destruct (Hf En).
    + rewrite IH. cbn. rewrite orb_true_r. naive_solver.
  - rewrite IH. cbn. naive_solver.
Qed.

Lemma hasVolume_Exists vs name : hasVolume vs name = true ↔ Exists (λ v, vName v = name) vs.
Proof.
  unfold hasVolume. rewrite existsb_exists, Exists_exists. setoid_rewrite list_elem_of_In.
  by setoid_rewrite bool_decide_eq_true.
Qed.

(** ** What the validating webhook accepts *)

(** The pod runs the two helpers and nothing else as init containers, the
    state volume is an emptyDir, and every workload container has exactly the
    liveness probe of the lease and sees the whole state volume read-only. *)
Record enforced (i : InjectorConfig) (r : resolved) (pod : Pod) : Prop := {
  en_helpers : only_helpers (InitContainers pod) = true;
  en_volume : state_volume_ok (Volumes pod);
  en_containers : Forall (λ c,
    LivenessProbe c = Some (freshnessProbe i r) ∧ StartupProbe c = None ∧ sees_state i c) (Containers pod) }.

Definition opted_in (i : InjectorConfig) (req : option AdmissionRequest) (pod : Pod) : Prop :=
  isControlPlane i (admission_ns req pod) = false ∧ ann_get (podLabels pod) LabelInject = InjectValueAcquire.

Lemma validate_containers i r cs :
  for_each (λ c,
    if (StartupProbe c != None) || (LivenessProbe c != Some (freshnessProbe i r))
    then Err (ErrMsg "the unmodified Berth liveness probe is required")
    else validateProbeMounts i c true) cs = Ok () ↔
  Forall (λ c, LivenessProbe c = Some (freshnessProbe i r) ∧ StartupProbe c = None ∧ sees_state i c) cs.
Proof.
  rewrite for_each_ok. apply Forall_iff. intros c. unfold sees_state.
  destruct (StartupProbe c != None) eqn:E1; cbn [orb]; bool_simp; [naive_solver|].
  destruct (LivenessProbe c != Some (freshnessProbe i r)) eqn:E2; bool_simp; [naive_solver|].
  rewrite validateProbeMounts_ok. naive_solver.
Qed.

Lemma ValidateCreate_enforced i req pod r :
  opted_in i req pod → resolve i pod (admission_ns req pod) = Ok r →
  ValidateCreate i req pod = Ok () ↔ rmode r ≠ ModeRuntimeSingleton ∨ enforced i r pod.
Proof.
  intros [Hcp Hl] Hr. unfold ValidateCreate. rewrite Hcp, Hl, bool_decide_true, Hr by done.
  cbn [orb negb mbind result_bind].
  destruct (rmode r != ModeRuntimeSingleton) eqn:Em; bool_simp; [naive_solver|].
  destruct (only_helpers (InitContainers pod)) eqn:Eh; cbn [negb].
  2:{ split; [done|]. intros [|[Hf _ _]]; [done|]. congruence. }
  destruct (state_volume (Volumes pod) false) as [found|e] eqn:Ev; cbn.
  - apply state_volume_spec in Ev as [Hall ->]. cbn. destruct (hasVolume _ _) eqn:Ehas; cbn [negb].
    + rewrite validate_containers. apply hasVolume_Exists in Ehas. split; [|by intros [|[]]].
      intros Hcs. right. by split.
    + split; [done|]. intros [|[_ [_ Hx] _]]; [done|]. apply hasVolume_Exists in Hx. congruence.
  - split; [done|]. intros [|[_ [Hall _] _]]; [done|].
    by rewrite (proj2 (state_volume_spec _ false _) (conj Hall eq_refl)) in Ev.
Qed.

(** ** What the mutating webhook repairs *)

Definition seal (m : VolumeMount) : VolumeMount := if mName m == VolumeName then set_read_only m else m.
Definition seal_container (c : Container) : Container := set_mounts (seal <$> cnMounts c) c.

Lemma seal_kept m : (mName m != VolumeName) || mReadOnly m = true → seal m = m.
Proof.
  unfold seal. destruct (mName m == VolumeName) eqn:E; [|done]. cbn. intros Hro.
  destruct m. unfold set_read_only. cbn in *. by subst.
Qed.

Lemma check_mounts_seal repair ms ms' : check_mounts repair ms = inr ms' → ms' = seal <$> ms.
Proof.
  revert ms'. induction ms as [|m ms IH]; intros ms'; cbn [check_mounts]; [by intros [= <-]|].
  destruct ((mName m != VolumeName) || mReadOnly m) eqn:E1.
  - destruct (check_mounts repair ms) as [|l]; [done|]. intros [= <-]. rewrite (IH l eq_refl).
    by rewrite fmap_cons, seal_kept.
  - destruct (repair m); [|done]. destruct (check_mounts repair ms) as [|l]; [done|]. intros [= <-].
    rewrite (IH l eq_refl), fmap_cons. bool_simp. f_equal. unfold seal. by rewrite bool_decide_true.
Qed.

Lemma check_mounts_none ms ms' : check_mounts (λ _, false) ms = inr ms' → ms' = ms.
Proof.
  revert ms'. induction ms as [|m ms IH]; intros ms'; cbn [check_mounts]; [by intros [= <-]|].
  destruct ((mName m != VolumeName) || mReadOnly m); [|done].
  destruct (check_mounts _ ms) as [|l]; [done|]. intros [= <-]. by rewrite (IH l eq_refl).
Qed.

Lemma sealed_no_writable c : no_writable (seal_container c).
Proof.
  unfold no_writable, seal_container, set_mounts. cbn [cnMounts]. apply Forall_fmap, Forall_true. intros m.
  unfold compose, seal. destruct (mName m == VolumeName) eqn:E; bool_simp; [done|]. congruence.
Qed.

Lemma set_mounts_same c : set_mounts (cnMounts c) c = c.
Proof. by destruct c. Qed.

(** Without exemptions, a list of containers passes exactly as its sealed form. *)
Lemma check_containers_seal repair cs cs' :
  check_containers (λ _, false) repair cs = inr cs' → cs' = seal_container <$> cs.
Proof.
  revert cs'. induction cs as [|c cs IH]; intros cs'; cbn [check_containers]; [by intros [= <-]|].
  destruct (check_mounts repair (cnMounts c)) as [|ms] eqn:E; [done|].
  destruct (check_containers _ repair cs) as [|l]; [done|]. intros [= <-].
  apply check_mounts_seal in E as ->. by rewrite (IH l eq_refl).
Qed.

(** Without repairs, the containers that pass are unchanged, and those that are
    not exempt cannot write the state volume. *)
Lemma check_containers_keep owned cs cs' :
  check_containers owned (λ _, false) cs = inr cs' →
  cs' = cs ∧ Forall (λ c, owned (cnName c) = false → no_writable c) cs.
Proof.
  revert cs'. induction cs as [|c cs IH]; intros cs'; cbn [check_containers]; [by intros [= <-]|].
  destruct (if owned (cnName c) then inr (cnMounts c) else check_mounts (λ _, false) (cnMounts c))
    as [|ms] eqn:E; [done|].
  destruct (check_containers owned _ cs) as [|l]; [done|]. intros [= <-].
  destruct (IH l eq_refl) as [-> Hcs].
  assert (ms = cnMounts c ∧ (owned (cnName c) = false → no_writable c)) as [-> Hc].
  { destruct (owned (cnName c)); [by simplify_eq|]. pose proof (check_mounts_none _ _ E) as ->.
    split; [done|]. intros _. pose proof (check_mounts_seal _ _ _ E) as Hs.
    pose proof (sealed_no_writable c) as Hn. unfold no_writable, seal_container in *. cbn in Hn.
    by rewrite <- Hs in Hn. }
  rewrite set_mounts_same. by rewrite Forall_cons.
Qed.

Definition seal_pod (pod : Pod) : Pod :=
  set_containers (seal_container <$> InitContainers pod) (seal_container <$> Containers pod) pod.

Lemma checkStateVolumeMounts_create i pod pod1 counted :
  checkStateVolumeMounts i pod false = (Ok pod1, counted) →
  pod1 = seal_pod pod ∧ counted = [] ∧ Forall no_writable (EphemeralContainers pod).
Proof.
  unfold checkStateVolumeMounts. cbn [andb].
  destruct (check_containers _ _ (Containers pod)) as [[]|cs] eqn:E1; [done|].
  destruct (check_containers _ _ (InitContainers pod)) as [[]|ics] eqn:E2; [done|].
  destruct (check_containers _ _ (EphemeralContainers pod)) as [[]|ecs] eqn:E3; [done|].
  intros [= <- <-]. apply check_containers_seal in E1 as ->. apply check_containers_seal in E2 as ->.
  apply check_containers_keep in E3 as [_ He]. split_and!; [done..|].
  eapply Forall_impl; [exact He|]. auto.
Qed.

Lemma checkStateVolumeMounts_ephemeral i pod pod1 counted :
  checkStateVolumeMounts i pod true = (Ok pod1, counted) →
  pod1 = pod ∧ counted = [] ∧
  Forall (λ c, isInjectorOwnedContainer (cnName c) = false → no_writable c)
    (Containers pod ++ InitContainers pod ++ EphemeralContainers pod).
Proof.
  unfold checkStateVolumeMounts. cbn [andb negb].
  destruct (check_containers _ _ (Containers pod)) as [[]|cs] eqn:E1; [done|].
  destruct (check_containers _ _ (InitContainers pod)) as [[]|ics] eqn:E2; [done|].
  destruct (check_containers _ _ (EphemeralContainers pod)) as [[]|ecs] eqn:E3; [done|].
  intros [= <- <-]. apply check_containers_keep in E1 as [-> H1]. apply check_containers_keep in E2 as [-> H2].
  apply check_containers_keep in E3 as [_ H3]. rewrite !Forall_app. split_and!; try done. by destruct pod.
Qed.

(** ** The injected pod *)

Lemma ann_get_injected ann k : k ≠ AnnInjected → ann_get (<[AnnInjected := "true"]> ann) k = ann_get ann k.
Proof. intros Hk. unfold ann_get. by rewrite lookup_insert_ne. Qed.

(** Injection does not change what a pod asks for. *)
Lemma resolve_mutate i pod ns r :
  resolve i pod ns = Ok r → resolve i (mutate i pod r) ns = Ok r.
Proof.
  unfold resolve. intros Hr.
  assert (podAnnotations (mutate i pod r) = Some (<[AnnInjected := "true"]> (default ∅ (podAnnotations pod)))) as ->.
  { unfold mutate. by destruct (rmode r == ModeRuntimeSingleton). }
  assert (OwnerReferences (mutate i pod r) = OwnerReferences pod) as ->.
  { unfold mutate. by destruct (rmode r == ModeRuntimeSingleton). }
  cbn [default from_option id]. unfold intAnn in *. rewrite !ann_get_injected by done.
  repeat (apply result_bind_ok in Hr as (? & ? & Hr); rewrite H; clear H; cbn [mbind result_bind]).
  destruct (_ && _ && (ShareProcessNamespace pod == Some false)) eqn:E; [done|]. injection Hr as <-.
  match goal with |- (if ?b then _ else _) = _ => destruct b eqn:E' end; [|done].
  cbn [rmode renforce] in *. bool_simp. unfold mutate in *. cbn [rmode renforce] in *.
  rewrite !bool_decide_true in * by done. cbn in *. rewrite bool_decide_true in * by done. done.
Qed.

(** What preflight established, for a runtime pod. *)
Lemma preflight_runtime i pod r :
  preflight i pod r = Ok () → rmode r = ModeRuntimeSingleton →
  InitContainers pod = [] ∧
  Forall (λ v, vName v = VolumeName → vEmptyDir v ≠ None) (Volumes pod) ∧
  Forall (λ c, StartupProbe c = None ∧ Forall (mount_ok i) (cnMounts c)) (Containers pod).
Proof.
  unfold preflight. intros Hp Hm. rewrite !(bool_decide_true _ Hm) in Hp.
  apply result_bind_ok in Hp as ([] & _ & Hp). cbn [andb] in Hp.
  destruct (InitContainers pod) as [|ic ics]; [|done]. cbn in Hp.
  apply result_bind_ok in Hp as ([] & Hv%for_each_ok & Hp).
  destruct (_ && hasVolume (Volumes pod) AuthTokenVolume); [done|].
  destruct (_ && hasVolume (Volumes pod) AuthCABundleVolume); [done|].
  apply for_each_ok in Hp. split_and!; [done|..].
  - eapply Forall_impl; [exact Hv|]. cbn. intros v Hv' Hn Hnone. by rewrite Hn, Hnone in Hv'.
  - eapply Forall_impl; [exact Hp|]. cbn. intros c Hc.
    destruct (LivenessProbe c != None); [done|]. destruct (StartupProbe c != None) eqn:E; [done|].
    bool_simp. by apply validateProbeMounts_ok in Hc as [? _].
Qed.

Lemma state_mount_under i m : mMountPath m = iStateDir i → is_under i m = true.
Proof. unfold is_under, under_state. intros ->. by rewrite bool_decide_true. Qed.

(** A container that passed preflight sees the state volume once it is enforced. *)
Lemma enforce_container_sees i r c : Forall (mount_ok i) (cnMounts c) → sees_state i (enforce_container i r c).
Proof.
  intros Hc. unfold sees_state, enforce_container. cbn [cnMounts].
  destruct (containerHasMountAt c VolumeName (iStateDir i)) eqn:E.
  - split; [done|]. unfold containerHasMountAt in E. apply existsb_exists in E as (m & Hin & Hm).
    apply Exists_exists. exists m. rewrite list_elem_of_In. split; [done|]. apply andb_prop in Hm as [_ Hm].
    bool_simp. by apply state_mount_under.
  - rewrite Forall_app, Forall_singleton, Exists_app. split; [split; [done|]|right; constructor].
    + split; [|done]. intros _. unfold is_state_mount. cbn. by rewrite !bool_decide_true.
    + by apply state_mount_under.
Qed.

Lemma foldl_add_volumes P vs new :
  Forall P vs → Forall P new →
  Forall P (foldl (λ vs v, if hasVolume vs (vName v) then vs else vs ++ [v]) vs new) ∧
  vs `prefix_of` foldl (λ vs v, if hasVolume vs (vName v) then vs else vs ++ [v]) vs new.
Proof.
  revert vs. induction new as [|v new IH]; intros vs Hvs Hnew; cbn [foldl]; [done|].
  apply Forall_cons in Hnew as [Hv Hnew]. destruct (hasVolume vs (vName v)); [by apply IH|].
  destruct (IH (vs ++ [v])) as [Hall Hpre]; [by rewrite Forall_app, Forall_singleton|done|].
  split; [done|]. etrans; [|exact Hpre]. by apply prefix_app_r.
Qed.

Lemma authVolumes_named i name :
  name ≠ AuthTokenVolume → name ≠ AuthCABundleVolume →
  Forall (λ v, vName v = name → vEmptyDir v ≠ None) (authVolumeMounts i).1.
Proof.
  intros H1 H2. unfold authVolumeMounts. cbn [fst].
  apply Forall_app. split; case_match; repeat constructor; cbn; congruence.
Qed.

Lemma mutate_volumes i pod r :
  Forall (λ v, vName v = VolumeName → vEmptyDir v ≠ None) (Volumes pod) →
  state_volume_ok (Volumes (mutate i pod r)).
Proof.
  intros Hv.
  set (vs := if hasVolume (Volumes pod) VolumeName then Volumes pod
             else Volumes pod ++ [MkVolume VolumeName (Some "") None None ""]).
  assert (Volumes (mutate i pod r) =
    foldl (λ vs v, if hasVolume vs (vName v) then vs else vs ++ [v]) vs (authVolumeMounts i).1) as ->.
  { unfold mutate. by destruct (rmode r == ModeRuntimeSingleton). }
  assert (state_volume_ok vs) as [Hall Hsome].
  { unfold vs, state_volume_ok. destruct (hasVolume _ _) eqn:E; [by apply hasVolume_Exists in E|].
    rewrite Forall_app, Forall_singleton, Exists_app. split; [done|]. right. by constructor. }
  destruct (foldl_add_volumes _ vs (authVolumeMounts i).1 Hall) as [Hall' [l E]];
    [by apply authVolumes_named|].
  rewrite E in *. split; [done|]. rewrite Exists_app. by left.
Qed.

Lemma mutate_enforced i pod r :
  preflight i pod r = Ok () → rmode r = ModeRuntimeSingleton → enforced i r (mutate i pod r).
Proof.
  intros Hp Hm. destruct (preflight_runtime _ _ _ Hp Hm) as (Hics & Hv & Hcs). split.
  - unfold mutate. rewrite !(bool_decide_true _ Hm), Hics. done.
  - by apply mutate_volumes.
  - unfold mutate. rewrite !(bool_decide_true _ Hm). cbn [Containers applyEnforcement].
    apply Forall_fmap. eapply Forall_impl; [exact Hcs|]. intros c [Hs Hms]. unfold compose.
    split_and!; [done|done|by apply enforce_container_sees].
Qed.

(** The pod after a create that was let through. *)
Lemma Default_create i req pod pod' counted :
  opted_in i req pod → default "" (reqSubResource <$> req) ≠ subresourceEphemeralContainers →
  Default i req pod = (Ok pod', counted) →
  ∃ r, resolve i pod (admission_ns req pod) = Ok r ∧ preflight i (seal_pod pod) r = Ok () ∧
    pod' = mutate i (seal_pod pod) r ∧ counted = [] ∧ Forall no_writable (EphemeralContainers pod).
Proof.
  intros [Hcp Hl] Hsub. unfold Default. rewrite Hcp, Hl, bool_decide_true by done. cbn [negb].
  rewrite bool_decide_false by done.
  destruct (checkStateVolumeMounts i pod false) as [[pod1|e] cnt] eqn:E; [|done].
  apply checkStateVolumeMounts_create in E as (-> & -> & He).
  destruct (resolve i (seal_pod pod) _ ≫= _) as [p|] eqn:Er; [|done]. intros [= -> <-].
  apply result_bind_ok in Er as (r & Hr & Er). apply result_bind_ok in Er as ([] & Hp & Er).
  injection Er as <-. exists r. split_and!; done.
Qed.

Lemma enforce_no_writable i r c : no_writable c → no_writable (enforce_container i r c).
Proof.
  unfold no_writable, enforce_container. cbn [cnMounts]. case_match; [done|]. intros Hc.
  rewrite Forall_app, Forall_singleton. by split.
Qed.

Lemma resolve_mode i pod ns r :
  resolve i pod ns = Ok r → resolved_validate r = Ok () ∧ (rmode r = ModeStartupGate ∨ rmode r = ModeRuntimeSingleton).
Proof.
  unfold resolve. intros Hr. do 3 apply result_bind_ok in Hr as (? & _ & Hr).
  apply result_bind_ok in Hr as ([] & Hv & Hr). case_match; [done|]. injection Hr as Hr.
  rewrite Hr in Hv. split; [done|]. unfold resolved_validate in Hv.
  destruct (leaseName r == ""); [done|].
  destruct ((rmode r != ModeStartupGate) && (rmode r != ModeRuntimeSingleton)) eqn:E; [done|].
  apply andb_false_iff in E as [E|E]; bool_simp; auto.
Qed.

(** ** The theorems *)

Definition demo_injector : InjectorConfig := withDefaults {|
  HelperImage := "berth-acquire:v1"; ImagePullPolicy := ""; iAPIServer := "https://berth";
  iAPIKeyFile := "/var/run/berth/auth/token"; iCABundleFile := ""; iServerName := ""; iClusterID := "east";
  iInsecureSkipVerify := false; APIKeySecretName := "berth-token"; APIKeySecretKey := "";
  CABundleConfigMapName := ""; CABundleKey := ""; ControlPlaneNamespaces := ["berth-system"];
  DefaultTTLSeconds := 30; DefaultMode := ""; DefaultEnforce := ""; iStateDir := "" |}.

Definition demo_container : Container :=
  MkContainer "app" "ingest:v1" "" [] [] [MkMount "berth-state" "/berth" false "" ""] None None None "".

Definition demo_pod : Pod :=
  MkPod "" {[ LabelInject := "acquire" ]}
    (Some {[ AnnLeaseName := "ingest-worker"; AnnInjected := "true" ]})
    [MkOwner "ReplicaSet" "ingest" (Some true)] [] [] [demo_container] [] None "".

Definition demo_admission : option AdmissionRequest := Some (MkAdmission "pipeline" "").

(** The pod the mutating webhook makes of the demo pod. *)
Definition demo_injected : Pod :=
  match (Default demo_injector demo_admission demo_pod).1 with Ok p => p | Err _ => demo_pod end.



(** C32: a pod the mutating webhook lets through is gated, whatever the
    submitter wrote into it. On creation the lease hold is the first init
    container, followed by the sidecar in runtime mode and then the workload's
    own init containers; no container of the workload, init, main or ephemeral,
    mounts the state volume writably; injection leaves the pod's lease request
    as it was and its result passes the validating webhook. An attachment of
    ephemeral containers changes nothing and is let through only if no
    container but the helpers can write the state volume. Nothing is counted as
    rejected when a pod is let through. *)
Theorem injected_pod_gated i req pod pod' counted :
  opted_in i req pod → Default i req pod = (Ok pod', counted) →
  counted = [] ∧
  if decide (default "" (reqSubResource <$> req) = subresourceEphemeralContainers) then
    pod' = pod ∧
    Forall (λ c, isInjectorOwnedContainer (cnName c) = false → no_writable c)
      (Containers pod ++ InitContainers pod ++ EphemeralContainers pod)
  else ∃ r,
    resolve i pod (admission_ns req pod) = Ok r ∧ resolve i pod' (admission_ns req pod') = Ok r ∧
    ValidateCreate i req pod' = Ok () ∧
    InitContainers pod' =
      helper_container i r InitContainerName "acquire" None ::
      (if rmode r == ModeRuntimeSingleton
       then [helper_container i r SidecarContainerName "renew" (Some "Always")] else []) ++
      (seal_container <$> InitContainers pod) ∧
    Forall no_writable (Containers pod' ++ (seal_container <$> InitContainers pod) ++ EphemeralContainers pod').
Proof.
  intros Hin Hd. case_decide as Hsub.
  - destruct Hin as [Hcp Hl]. unfold Default in Hd. rewrite Hcp, Hl, Hsub, !bool_decide_true in Hd by done.
    cbn [negb] in Hd. destruct (checkStateVolumeMounts i pod true) as [[pod1|e] cnt] eqn:E; [|done].
    injection Hd as <- <-. by apply checkStateVolumeMounts_ephemeral in E as (-> & -> & ?).
  - destruct (Default_create _ _ _ _ _ Hin Hsub Hd) as (r & Hr & Hp & -> & -> & He). split; [done|].
    assert (admission_ns req (mutate i (seal_pod pod) r) = admission_ns req pod ∧
            podLabels (mutate i (seal_pod pod) r) = podLabels pod ∧
            EphemeralContainers (mutate i (seal_pod pod) r) = EphemeralContainers pod) as (Hns & Hlab & Heph).
    { unfold admission_ns, mutate. by destruct req, (rmode r == ModeRuntimeSingleton). }
    exists r. rewrite Hns, Heph. split_and!; [done| |..].
    + by apply resolve_mutate.
    + apply (ValidateCreate_enforced _ _ _ r).
      * unfold opted_in. by rewrite Hns, Hlab.
      * rewrite Hns. by apply resolve_mutate.
      * destruct (decide (rmode r = ModeRuntimeSingleton)); [right|by left]. by apply mutate_enforced.
    + unfold mutate. destruct (rmode r == ModeRuntimeSingleton); done.
    + rewrite !Forall_app. split_and!; [|apply Forall_fmap, Forall_true; intros; apply sealed_no_writable|done].
      unfold mutate. destruct (rmode r == ModeRuntimeSingleton); cbn [Containers applyEnforcement].
      all: change (Containers (seal_pod pod)) with (seal_container <$> Containers pod).
      all: rewrite !Forall_fmap; apply Forall_true; intros c; unfold compose;
        try apply enforce_no_writable; apply sealed_no_writable.
Qed.

Lemma injected_pod_gated_witness :
  ValidateCreate demo_injector demo_admission demo_injected = Ok () ∧
  map cnName (InitContainers demo_injected) = ["berth-acquire"; "berth-sidecar"].
Proof.
  assert (opted_in demo_injector demo_admission demo_pod) as Hin by (split; vm_compute; reflexivity).
  assert (Default demo_injector demo_admission demo_pod = (Ok demo_injected, [])) as Hd by (vm_compute; reflexivity).
  destruct (injected_pod_gated _ _ _ _ _ Hin Hd) as [_ H].
  destruct (decide _) as [E|_] in H; [vm_compute in E; discriminate E|].
  destruct H as (r & Hr & _ & Hv & Hics & _). split; [exact Hv|]. rewrite Hics.
  vm_compute in Hr. injection Hr as <-. vm_compute. reflexivity.
Defined.
