(* ===== verification/Injection.v ===== *)
(** * From the webhook to the helper

    The contract between [internal/webhook] and the helper it injects: the
    environment of the injected containers read back by [ConfigFromEnv], the
    credential files at the paths the environment names, and the liveness
    probe's command run by [berth-acquire check]. Kubernetes stands between the
    two: field references and [$(VAR)] expansion are parameters. *)

From S2P Require Import Prelude GoStrings GoPath Store State ClientAuth Manager AcquireConfig Renewer Client Helper TimeText DurationText Webhook WebhookTheorems.

(** ** The container's environment *)

(** Kubernetes replaces [$(VAR)] references in a literal value; a value without
    a dollar sign is taken as it is. *)
Class VarExpansion := expand : string → string.
Class VarExpansionDocumented `{VarExpansion} :=
  expand_literal : ∀ s, contains_char "$" s = false → expand s = s.

Section environment.
Context `{VarExpansionDocumented} (field : string → string).

Definition env_value (ev : EnvVar) : string :=
  match evFieldRef ev with Some p => field p | None => expand (evValue ev) end.

(** What [os.Getenv] answers in the container; a later variable overrides an
    earlier one of the same name, an absent one is empty. *)
Fixpoint env_lookup (env : list EnvVar) (k acc : string) : string :=
  match env with
  | [] => acc
  | ev :: env' => env_lookup env' k (if String.eqb (evName ev) k then env_value ev else acc)
  end.

Definition container_env (env : list EnvVar) (k : string) : string := env_lookup env k "".

Lemma env_lookup_app a b k acc : env_lookup (a ++ b) k acc = env_lookup b k (env_lookup a k acc).
Proof. revert acc. induction a as [|ev a IH]; intros acc; cbn; [done|apply IH]. Qed.

Lemma container_env_appendIf env c n v k :
  container_env (appendIf env c n v) k = if c && String.eqb n k then expand v else container_env env k.
Proof.
  unfold container_env, appendIf. destruct c; cbn [andb]; [|done]. rewrite env_lookup_app. cbn.
  by destruct (String.eqb n k).
Qed.

(** The configuration the helper is meant to run with. *)
Definition injected_config (i : InjectorConfig) (r : resolved) : Config := {|
  LeaseName := leaseName r;
  LeaseNamespace := leaseNamespace r;
  Mode := rmode r;
  Enforce := renforce r;
  cTTL := ttlSeconds r * Second;
  HeartbeatInterval := heartbeatSeconds r * Second;
  EnforceGrace := wrap64 (enforceGrace r * Second);
  SignalTarget := if renforce r == EnforceSignal then signalTarget r else "";
  ReleaseOnShutdown :=
    if releaseOnDown r == "" then None else Some (releaseOnDown r == "true");
  HolderIdentity := holderIdentity r;
  ClusterID := iClusterID i;
  PodNamespace := field "metadata.namespace";
  PodName := field "metadata.name";
  PodUID := field "metadata.uid";
  WorkloadKind := workloadKind r;
  WorkloadName := workloadName r;
  StateDir := iStateDir i;
  APIServer := iAPIServer i;
  APIKey := "";
  APIKeyFile := iAPIKeyFile i;
  CABundleFile := iCABundleFile i;
  ServerName := iServerName i;
  InsecureSkipVerify := iInsecureSkipVerify i |}.

(** No value of the environment refers to a variable. *)
Definition literal (i : InjectorConfig) (r : resolved) : Prop :=
  Forall (λ s, contains_char "$" s = false)
    [leaseName r; leaseNamespace r; signalTarget r; holderIdentity r; workloadKind r; workloadName r;
     iClusterID i; iAPIServer i; iAPIKeyFile i; iCABundleFile i; iServerName i; iStateDir i].
End environment.

(** Decide the comparisons of variable names. *)
Ltac env_eqb :=
  repeat match goal with
  | |- context [String.eqb ?a ?b] =>
      let v := eval vm_compute in (String.eqb a b) in change (String.eqb a b) with v
  end; rewrite ?andb_false_r, ?andb_true_r; cbv iota.

Lemma if_same (s : string) : (if s != "" then s else "") = s.
Proof. by destruct (s == "") eqn:E; bool_simp; subst. Qed.

Lemma format_nat_dollar n : contains_char "$" (format_nat n) = false.
Proof.
  assert (∀ s acc v, parse_digits acc s = Some v → contains_char "$" s = false) as Hd.
  { induction s as [|c s IH]; intros acc v; cbn; [done|]. destruct (digit_val c) as [d|] eqn:E; [|done].
    intros Hp%IH. rewrite Hp, orb_false_r. apply bool_decide_false. by intros <-. }
  eapply Hd, parse_format_nat.
Qed.

Lemma FormatInt_dollar n : contains_char "$" (FormatInt n) = false.
Proof. destruct n; cbn -[format_nat]; by rewrite format_nat_dollar. Qed.

Section roundtrip.
Context `{VarExpansionDocumented} (field : string → string) (i : InjectorConfig) (r : resolved).
Abbreviation get := (container_env field (buildEnv i r)).

(** Each variable, before the conditions are resolved. *)
Lemma get_always :
  get EnvLeaseName = expand (leaseName r) ∧ get EnvLeaseNamespace = expand (leaseNamespace r) ∧
  get EnvMode = expand (rmode r) ∧ get EnvEnforce = expand (renforce r) ∧
  get EnvTTLSeconds = expand (FormatInt (ttlSeconds r)) ∧ get EnvStateDir = expand (iStateDir i) ∧
  get EnvPodNamespace = field "metadata.namespace" ∧ get EnvPodName = field "metadata.name" ∧
  get EnvPodUID = field "metadata.uid" ∧ get EnvAPIKey = "".
Proof.
  unfold buildEnv. rewrite !container_env_appendIf. env_eqb. unfold container_env. cbn [env_lookup evName fieldRef].
  env_eqb. by split_and!.
Qed.

Lemma get_optional :
  get EnvSignalTarget = (if (signalTarget r != "") && (renforce r == EnforceSignal) then expand (signalTarget r) else "") ∧
  get EnvHeartbeatSecs = (if heartbeatSeconds r >? 0 then expand (FormatInt (heartbeatSeconds r)) else "") ∧
  get EnvEnforceGrace = (if enforceGrace r >? 0 then expand (FormatInt (enforceGrace r)) else "") ∧
  get EnvReleaseOnDown = (if releaseOnDown r != "" then expand (releaseOnDown r) else "") ∧
  get EnvHolderIdentity = (if holderIdentity r != "" then expand (holderIdentity r) else "") ∧
  get EnvWorkloadKind = (if workloadKind r != "" then expand (workloadKind r) else "") ∧
  get EnvWorkloadName = (if workloadName r != "" then expand (workloadName r) else "") ∧
  get EnvClusterID = (if iClusterID i != "" then expand (iClusterID i) else "") ∧
  get EnvAPIServer = (if iAPIServer i != "" then expand (iAPIServer i) else "") ∧
  get EnvAPIKeyFile = (if iAPIKeyFile i != "" then expand (iAPIKeyFile i) else "") ∧
  get EnvCABundleFile = (if iCABundleFile i != "" then expand (iCABundleFile i) else "") ∧
  get EnvServerName = (if iServerName i != "" then expand (iServerName i) else "") ∧
  get EnvInsecure = (if iInsecureSkipVerify i then expand "true" else "").
Proof.
  unfold buildEnv. rewrite !container_env_appendIf. env_eqb. unfold container_env. cbn [env_lookup evName fieldRef].
  env_eqb. by split_and!.
Qed.
End roundtrip.

(** ** What resolution guarantees *)

Record resolved_ok (r : resolved) : Prop := {
  ro_lease : leaseName r ≠ "";
  ro_mode : rmode r = ModeStartupGate ∨ rmode r = ModeRuntimeSingleton;
  ro_enforce : renforce r = EnforceProbe ∨ renforce r = EnforceSignal;
  ro_signal : rmode r = ModeRuntimeSingleton → renforce r = EnforceSignal → signalTarget r ≠ "";
  ro_ttl : 0 < ttlSeconds r ≤ MaxInt32;
  ro_heartbeat : 0 ≤ heartbeatSeconds r < ttlSeconds r;
  ro_grace : 0 ≤ enforceGrace r ≤ MaxInt64;
  ro_release : releaseOnDown r = "" ∨ releaseOnDown r = "true" ∨ releaseOnDown r = "false" }.

Lemma intAnn_int64 ann key def n : int64 def → intAnn ann key def = Ok n → int64 n.
Proof.
  unfold intAnn, Atoi. intros Hd. case_match; [by intros [= <-]|].
  destruct (ParseInt _ 64) as [m|] eqn:E; [|done]. intros [= <-]. apply ParseInt_range in E.
  unfold int64, MinInt64, MaxInt64. change (2 ^ (64 - 1)) with 9223372036854775808 in E. lia.
Qed.

Lemma resolve_ok i pod ns r : resolve i pod ns = Ok r → resolved_ok r.
Proof.
  unfold resolve. intros Hr. apply result_bind_ok in Hr as (ttl & _ & Hr).
  apply result_bind_ok in Hr as (hb & _ & Hr). apply result_bind_ok in Hr as (grace & Hg%intAnn_int64 & Hr); [|done].
  apply result_bind_ok in Hr as ([] & Hv & Hr).
  match type of Hr with (if ?b then _ else _) = _ => destruct b; [done|] end. injection Hr as Hr.
  assert (enforceGrace r = grace) as Eg by (by rewrite <- Hr). rewrite Hr in Hv. clear Hr.
  unfold resolved_validate in Hv.
  repeat match type of Hv with
  | (if ?b then _ else _) = _ => let E := fresh "E" in destruct b eqn:E; [discriminate Hv|]
  end.
  bool_simp. split.
  - done.
  - apply andb_false_iff in E0 as []; bool_simp; auto.
  - apply andb_false_iff in E1 as []; bool_simp; auto.
  - intros Hm He Ht. by rewrite !bool_decide_true in E2 by done.
  - lia.
  - lia.
  - rewrite Eg. unfold int64 in Hg. lia.
  - apply orb_prop in E7 as [[E7|E7]%orb_prop|E7]; bool_simp; auto.
Qed.

(** ** The environment read back *)

Section readback.
Context `{VarExpansionDocumented} (field : string → string) (i : InjectorConfig) (r : resolved).
Hypothesis (Hr : resolved_ok r) (Hlit : literal i r).
Abbreviation get := (container_env field (buildEnv i r)).

Lemma expand_known s : contains_char "$" s = false → expand s = s.
Proof. apply expand_literal. Qed.

Lemma injected_seconds :
  secondsEnv get EnvTTLSeconds = Ok (ttlSeconds r * Second) ∧
  secondsEnv get EnvHeartbeatSecs = Ok (heartbeatSeconds r * Second) ∧
  secondsEnv get EnvEnforceGrace = Ok (wrap64 (enforceGrace r * Second)).
Proof.
  destruct (get_always field i r) as (_ & _ & _ & _ & Httl & _).
  destruct (get_optional field i r) as (_ & Hhb & Hgr & _).
  rewrite !expand_known in Httl, Hhb, Hgr by apply FormatInt_dollar.
  destruct Hr. unfold MaxInt32, MaxInt64 in *. split_and!.
  - rewrite (secondsEnv_format _ _ _ Httl) by (unfold int64, MinInt64, MaxInt64; lia).
    rewrite wrap64_id; [done|]. unfold int64, MinInt64, MaxInt64, Second. lia.
  - destruct (Z.gtb_spec (heartbeatSeconds r) 0).
    + rewrite (secondsEnv_format _ _ _ Hhb) by (unfold int64, MinInt64, MaxInt64; lia).
      rewrite wrap64_id; [done|]. unfold int64, MinInt64, MaxInt64, Second. lia.
    + unfold secondsEnv. rewrite Hhb. replace (heartbeatSeconds r) with 0 by lia. done.
  - destruct (Z.gtb_spec (enforceGrace r) 0).
    + by rewrite (secondsEnv_format _ _ _ Hgr) by (unfold int64, MinInt64, MaxInt64; lia).
    + unfold secondsEnv. rewrite Hgr. replace (enforceGrace r) with 0 by lia. done.
Qed.

Lemma injected_bools :
  boolEnv get EnvReleaseOnDown =
    Ok (if releaseOnDown r == "" then None else Some (releaseOnDown r == "true")) ∧
  boolEnv get EnvInsecure = Ok (if iInsecureSkipVerify i then Some true else None).
Proof.
  destruct (get_optional field i r) as (_ & _ & _ & Hrel & _ & _ & _ & _ & _ & _ & _ & _ & Hins).
  unfold boolEnv. rewrite Hrel, Hins. split.
  - destruct (ro_release _ Hr) as [E|[E|E]]; rewrite E; cbn [negb]; rewrite ?expand_known by done; reflexivity.
  - destruct (iInsecureSkipVerify i); [|done]. by rewrite expand_known.
Qed.

Lemma known_no_dollar :
  contains_char "$" (rmode r) = false ∧ contains_char "$" (renforce r) = false.
Proof. by destruct (ro_mode _ Hr) as [-> | ->], (ro_enforce _ Hr) as [-> | ->]. Qed.

Lemma injected_env : ConfigFromEnv get = Ok (injected_config field i r).
Proof.
  unfold ConfigFromEnv. destruct injected_seconds as (-> & -> & ->). destruct injected_bools as [-> ->].
  cbn [mbind result_bind]. f_equal. unfold injected_config.
  destruct (get_always field i r) as (-> & -> & -> & -> & _ & -> & -> & -> & -> & ->).
  destruct (get_optional field i r) as (-> & _ & _ & _ & -> & -> & -> & -> & -> & -> & -> & -> & _).
  destruct known_no_dollar as [Hm He]. unfold literal in Hlit. rewrite !Forall_cons in Hlit.
  destruct Hlit as (H1 & H2 & H3 & H4 & H5 & H6 & H7 & H8 & H9 & H10 & H11 & H12 & _).
  rewrite !expand_known by done. rewrite !if_same. f_equal.
  - destruct (renforce r == EnforceSignal); [rewrite andb_true_r; by rewrite if_same|by rewrite andb_false_r].
  - by destruct (iInsecureSkipVerify i).
Qed.

(** ** The helper starts *)

(** What Kubernetes and the operator have to provide. *)
Record startable : Prop := {
  st_namespace : field "metadata.namespace" ≠ "";
  st_server : iAPIServer i ≠ "";
  st_grace : enforceGrace r * Second ≤ MaxInt64;
  st_uid : rmode r = ModeRuntimeSingleton → holderIdentity r = "" →
    let uid := field "metadata.uid" in
    uid ≠ "" ∧ ContainsAny uid uid_forbidden = false ∧ TrimSpace uid = uid ∧
    len (Holder (ApplyDefaults (injected_config field i r))) ≤ 253 }.

Lemma injected_valid : startable → fst (Validate (injected_config field i r)) = Ok ().
Proof.
  intros [Hns Hsrv Hgrace Huid]. destruct Hr. unfold Validate. cbn [fst].
  assert (HeartbeatInterval (ApplyDefaults (injected_config field i r)) =
    if heartbeatSeconds r <=? 0 then Z.quot (ttlSeconds r * Second) 3 else heartbeatSeconds r * Second) as Hhb.
  { cbn. unfold Second in *. repeat case_match; lia. }
  assert (0 < HeartbeatInterval (ApplyDefaults (injected_config field i r)) < ttlSeconds r * Second) as Hb.
  { rewrite Hhb. unfold Second, MaxInt32 in *. case_match; [|lia].
    pose proof (Z.quot_le_lower_bound (ttlSeconds r * 1000000000) 3 1).
    pose proof (Z.quot_lt (ttlSeconds r * 1000000000) 3). lia. }
  assert (rmode r ≠ "" ∧ renforce r ≠ "") as [Hm He].
  { by destruct ro_mode0 as [-> | ->], ro_enforce0 as [-> | ->]. }
  unfold validate_defaulted.
  remember (HeartbeatInterval (ApplyDefaults (injected_config field i r))) as h eqn:Eh.
  remember (Holder (ApplyDefaults (injected_config field i r))) as hold eqn:Ehold.
  cbn [ApplyDefaults injected_config LeaseName LeaseNamespace Mode Enforce cTTL EnforceGrace SignalTarget
    HolderIdentity PodNamespace PodUID APIServer APIKey APIKeyFile].
  unfold or_default. rewrite (bool_decide_false _ Hm), (bool_decide_false _ He).
  rewrite wrap64_id by (unfold int64, MinInt64, Second in *; lia).
  rewrite (bool_decide_false _ ro_lease0).
  rewrite (bool_decide_false ((if leaseNamespace r == "" then _ else _) = "")) by (by case_bool_decide).
  assert ((rmode r != ModeStartupGate) && (rmode r != ModeRuntimeSingleton) = false) as ->.
  { destruct ro_mode0 as [-> | ->]; reflexivity. }
  assert ((renforce r != EnforceProbe) && (renforce r != EnforceSignal) = false) as ->.
  { destruct ro_enforce0 as [-> | ->]; reflexivity. }
  destruct (Z.leb_spec (ttlSeconds r * Second) 0); [unfold Second in *; lia|].
  destruct (Z.gtb_spec (ttlSeconds r * Second) (MaxInt32 * Second)); [unfold Second in *; lia|].
  destruct (Z.leb_spec h 0); [lia|]. rewrite Z.geb_leb. destruct (Z.leb_spec (ttlSeconds r * Second) h); [lia|].
  destruct (Z.ltb_spec (enforceGrace r * Second) 0); [unfold Second in *; lia|].
  rewrite (bool_decide_false _ Hsrv). change (bool_decide (@eq string "" "")) with true. cbn [orb andb negb].
  assert ((rmode r == ModeRuntimeSingleton) && (renforce r == EnforceSignal) &&
          ((if renforce r == EnforceSignal then signalTarget r else "") == "") = false) as ->.
  { destruct (rmode r == ModeRuntimeSingleton) eqn:E1; [|done].
    destruct (renforce r == EnforceSignal) eqn:E2; [|done]. bool_simp. apply bool_decide_false. auto. }
  destruct (rmode r == ModeRuntimeSingleton) eqn:Em; cbn [andb]; [|done].
  destruct (holderIdentity r == "") eqn:Ei; cbn [andb]; [|done]. bool_simp.
  destruct (Huid Em Ei) as (Hu1 & Hu2 & Hu3 & Hu4). rewrite (bool_decide_false _ Hu1), Hu2, Hu3.
  rewrite bool_decide_true by done. cbn [negb orb]. destruct (Z.gtb_spec (len hold) 253); [lia|done].
Qed.

Lemma injected_starts : startable →
  config noFlags (λ _, false) get = Ok (ApplyDefaults (injected_config field i r)).
Proof.
  intros Hst. unfold config. rewrite injected_env. cbn [mbind result_bind].
  assert (override noFlags (λ _, false) (injected_config field i r) = injected_config field i r) as -> by done.
  pose proof (injected_valid Hst) as Hv. unfold Validate in *. cbn [fst] in Hv. by rewrite Hv.
Qed.
End readback.

(** ** Credential files *)

(** A volume of [vs], mounted read-only by one of [ms], has a file at [p]. *)
Definition mounted_at (vs : list Volume) (ms : list VolumeMount) (p : string) : Prop :=
  ∃ v m items k f, v ∈ vs ∧ m ∈ ms ∧ vName v = mName m ∧ mReadOnly m = true ∧
    (vSecret v = Some (items, [MkKeyToPath k f]) ∨ vConfigMap v = Some (items, [MkKeyToPath k f])) ∧
    mMountPath m +:+ String "/" f = p.

Lemma validateMountableFile_ok field p : validateMountableFile field p = Ok () → p = Dir p +:+ String "/" (Base p).
Proof.
  unfold validateMountableFile. destruct (IsAbs p) eqn:Ea; cbn [negb]; [|done].
  destruct (Clean p != p) eqn:Ec; [done|]. destruct (Dir p == "/") eqn:Ed; [done|]. bool_simp. intros _.
  by apply Dir_Base.
Qed.

Lemma injector_files i :
  injector_Validate i = Ok () →
  (iAPIKeyFile i ≠ "" → APIKeySecretName i ≠ "" ∧ iAPIKeyFile i = Dir (iAPIKeyFile i) +:+ String "/" (Base (iAPIKeyFile i))) ∧
  (iCABundleFile i ≠ "" → CABundleConfigMapName i ≠ "" ∧ iCABundleFile i = Dir (iCABundleFile i) +:+ String "/" (Base (iCABundleFile i))) ∧
  IsAbs (iStateDir i) = true.
Proof.
  unfold injector_Validate. intros Hv.
  repeat match type of Hv with
  | (if ?b then _ else _) = _ => let E := fresh "E" in destruct b eqn:E; [discriminate Hv|]
  end.
  apply result_bind_ok in Hv as ([] & H1 & Hv). apply result_bind_ok in Hv as ([] & H2 & _).
  apply negb_false_iff in E5, E6. apply eqb_prop in E5, E6. bool_simp. split_and!; [..|done].
  - intros Hk. rewrite (bool_decide_false _ Hk) in H1. cbn [negb] in H1. split; [|by eapply validateMountableFile_ok].
    intros Hs. by rewrite (bool_decide_true _ Hs), (bool_decide_false _ Hk) in E5.
  - intros Hk. rewrite (bool_decide_false _ Hk) in H2. cbn [negb] in H2. split; [|by eapply validateMountableFile_ok].
    intros Hs. by rewrite (bool_decide_true _ Hs), (bool_decide_false _ Hk) in E6.
Qed.

Lemma credentials_mounted i p :
  injector_Validate i = Ok () → p ≠ "" → p = iAPIKeyFile i ∨ p = iCABundleFile i →
  mounted_at (authVolumeMounts i).1 (authVolumeMounts i).2 p.
Proof.
  intros (Hk & Hc & _)%injector_files Hne Hp. unfold mounted_at, authVolumeMounts. cbn [fst snd].
  destruct Hp as [-> | ->].
  - destruct (Hk Hne) as [Hs Hp]. rewrite (bool_decide_false _ Hs). cbn [negb app].
    eexists _, _, _, _, _. split_and!; [by left|by left|done|done|by left|by symmetry].
  - destruct (Hc Hne) as [Hs Hp]. rewrite (bool_decide_false _ Hs). cbn [negb].
    eexists (MkVolume AuthCABundleVolume _ _ _ _), (MkMount AuthCABundleVolume _ _ _ _), _, _, _.
    split_and!; [apply elem_of_app; right; by left|apply elem_of_app; right; by left|done|done|by right|by symmetry].
Qed.

(** ** The probe's command *)

(** What cobra documents for [check PATH --max-age D]: one positional argument
    and a duration in the syntax of [time.ParseDuration]. *)
Class CobraDocumented `{Cobra} `{FloatFraction} :=
  cobra_check : ∀ marker age d, HasPrefix marker "-" = false → ParseDuration age = Some d →
    cobra_parse ["check"; marker; "--max-age"; age] = Ok (MkInvocation (CmdCheck [marker] d) noFlags (λ _, false)).

(** Running the helper on the pod's files at an instant: every file operation
    may fail, the clock shows [now], and no other effect is possible. *)
Definition probe_step (now : Z) (X : Type) (s : volume) (e : helperE X) : X → volume → Prop :=
  match e with
  | OnFiles e' =>
      match e' in fileE X return X → volume → Prop with
      | FNow => λ x s', x = now ∧ s' = s
      | e' => fs_step _ s e'
      end
  | _ => λ _ _, False
  end.

(** The paths of the probe are those of the helper's state directory. *)
Lemma state_file i name :
  IsAbs (iStateDir i) = true → name ≠ "" → contains_char "/" name = false →
  file_of (iStateDir i +:+ String "/" name) = (Clean (iStateDir i), name).
Proof. intros Hd Hn Hs. unfold file_of. by rewrite Dir_app, Base_app. Qed.

Lemma HasPrefix_abs p s : IsAbs p = true → HasPrefix (p +:+ s) "-" = false.
Proof. by intros [q ->]%IsAbs_cons. Qed.

(** The check, run on a marker: exit code 0 only on a readable, fresh one. *)
Lemma check_run `{X509} (fuel : nat) (getenv : string → string) (marker : string) (now maxAge : Z) (v : volume) (tr : list volume) (code : option Z)
    (v' : volume) :
  0 < maxAge → marker ≠ "" →
  exec_rel (probe_step now)
    (out ← run_command fuel (MkInvocation (CmdCheck [marker] maxAge) noFlags (λ _, false)) getenv;
     mret (match out with Some r => Some (if is_ok r then 0 else 1) | None => None end)) v tr code v' →
  v' = v ∧ (code = Some 0 ∨ code = Some 1) ∧
  (code = Some 0 → ∃ f, v !! file_of marker = Some f ∧ Sub now (f_mtime f) ≤ maxAge).
Proof.
  intros Hage Hm Hrun. unfold run_command, markerPath in Hrun. cbn [inv_cmd inv_flags] in Hrun.
  rewrite (bool_decide_false _ Hm) in Hrun. cbn [negb] in Hrun.
  destruct Hrun as (x & s1 & tr1 & [-> Hx] & -> & Hrun). cbn in Hrun. destruct x as [t|e].
  - destruct Hrun as (now' & s2 & tr2 & [-> ->] & -> & (-> & -> & ->)). split; [done|].
    unfold evaluateMarkerAge. destruct (Z.leb_spec maxAge 0); [lia|].
    destruct (v !! file_of marker) as [f|]; [|done]. cbn in Hx. injection Hx as <-.
    destruct (Z.gtb_spec (Sub now (f_mtime f)) maxAge); cbn; split; auto; [done|]. intros _. by exists f.
  - destruct Hrun as (-> & -> & ->). split; [done|]. by destruct (errors_Is e ErrNotExist); cbn; split; auto.
Qed.

Lemma check_fresh `{X509} (fuel : nat) (getenv : string → string) (marker : string) (now maxAge : Z) (v : volume) (f : file) :
  0 < maxAge → marker ≠ "" → v !! file_of marker = Some f → Sub now (f_mtime f) ≤ maxAge →
  ∃ tr, exec_rel (probe_step now)
    (out ← run_command fuel (MkInvocation (CmdCheck [marker] maxAge) noFlags (λ _, false)) getenv;
     mret (match out with Some r => Some (if is_ok r then 0 else 1) | None => None end)) v tr (Some 0) v.
Proof.
  intros Hage Hm Hf Hle. unfold run_command, markerPath. cbn [inv_cmd inv_flags].
  rewrite (bool_decide_false _ Hm). cbn [negb]. exists [v; v].
  exists (Ok (f_mtime f)), v, [v]. split; [cbn; by rewrite Hf|]. split; [done|].
  exists now, v, []. split; [done|]. split; [done|]. split; [|done]. cbn. unfold evaluateMarkerAge.
  destruct (Z.leb_spec maxAge 0); [lia|]. by destruct (Z.gtb_spec (Sub now (f_mtime f)) maxAge); [lia|].
Qed.

(** ** The theorems *)

(** C33: the helper runs with the configuration the webhook resolved. From the
    environment of an injected container it reads back exactly the lease, mode,
    enforcement, durations, identity and endpoint that were resolved; every
    credential file the environment names is there, projected read-only to that
    very path; and the configuration passes the helper's own validation,
    whenever the operator configured an endpoint, the grace period fits a
    duration, and Kubernetes provides a namespace and a well-formed pod UID. *)
Theorem injected_config_roundtrip `{VarExpansionDocumented} (i : InjectorConfig) (pod : Pod) (ns : string)
    (r : resolved) (field : string → string) :
  injector_Validate i = Ok () → resolve i pod ns = Ok r → literal i r →
  let get := container_env field (buildEnv i r) in
  ConfigFromEnv get = Ok (injected_config field i r) ∧
  (∀ k, (k = EnvAPIKeyFile ∨ k = EnvCABundleFile) → get k ≠ "" →
     mounted_at (authVolumeMounts i).1 (authVolumeMounts i).2 (get k)) ∧
  (startable field i r → config noFlags (λ _, false) get = Ok (ApplyDefaults (injected_config field i r))).
Proof.
  intros Hi Hr%resolve_ok Hlit get. split_and!.
  - by apply injected_env.
  - intros k Hk Hne. apply credentials_mounted; [done..|].
    pose proof (injected_env field i r Hr Hlit) as Henv. unfold ConfigFromEnv in Henv.
    do 5 apply result_bind_ok in Henv as (? & _ & Henv).
    assert (∀ c c' : Config, Ok c = Ok c' → c = c') as Hok by (by intros ? ? [= ?]). apply Hok in Henv.
    destruct Hk as [-> | ->]; [left; exact (f_equal APIKeyFile Henv)|right; exact (f_equal CABundleFile Henv)].
  - by apply injected_starts.
Qed.

(** The injected liveness probe is the freshness test of the lease. Its
    command names the check binary and the health marker of the helper's own
    state directory, carries the TTL as text that parses back exactly, and
    needs nothing of the container's environment. Run at any instant, with any
    file operation failing, it exits 0 or 1, and 0 only if the marker is there
    and was refreshed within one TTL; on a fresh, readable marker it can exit 0. *)
Theorem probe_is_freshness `{X509} `{CobraDocumented} (i : InjectorConfig) (pod : Pod) (ns : string) (r : resolved) :
  injector_Validate i = Ok () → resolve i pod ns = Ok r →
  let dir := Clean (iStateDir i) in
  let ttl := ttlSeconds r * Second in
  ∃ check args, prExec (freshnessProbe i r) = Some (check :: args) ∧ file_of check = CheckPath dir ∧
    ∀ (fuel : nat) (getenv : string → string) (now : Z) (v : volume),
      (∀ (tr : list volume) (code : option Z) (v' : volume), exec_rel (probe_step now) (helper_run fuel args getenv) v tr code v' →
         v' = v ∧ (code = Some 0 ∨ code = Some 1) ∧
         (code = Some 0 → ∃ f, v !! healthyPath dir = Some f ∧ Sub now (f_mtime f) ≤ ttl)) ∧
      (∀ f : file, v !! healthyPath dir = Some f → Sub now (f_mtime f) ≤ ttl →
         ∃ tr, exec_rel (probe_step now) (helper_run fuel args getenv) v tr (Some 0) v).
Proof.
  intros (_ & _ & Habs)%injector_files Hr%resolve_ok dir ttl.
  assert (0 < ttl ∧ wrap64 ttl = ttl ∧ ttl < two63) as (Hpos & Hwrap & Hlt).
  { destruct Hr. unfold ttl, Second, MaxInt32, two63 in *. split_and!; [lia| |lia].
    apply wrap64_id. unfold int64, MinInt64, MaxInt64. lia. }
  assert (ParseDuration (Duration_String ttl) = Some ttl) as Hparse.
  { apply ParseDuration_seconds; [destruct Hr; lia|done]. }
  set (marker := iStateDir i +:+ "/healthy").
  assert (file_of marker = healthyPath dir) as Hmark by (by apply (state_file i "healthy")).
  assert (marker ≠ "") as Hne by (unfold marker; apply IsAbs_cons in Habs as [q ->]; done).
  exists (iStateDir i +:+ "/check"), ["check"; marker; "--max-age"; Duration_String ttl].
  split_and!; [|by apply (state_file i "check")|].
  { unfold freshnessProbe. cbn [prExec]. fold ttl. by rewrite Hwrap. }
  intros fuel getenv now v. unfold helper_run.
  rewrite (cobra_check marker (Duration_String ttl) ttl (HasPrefix_abs _ _ Habs) Hparse). split.
  - intros tr code v' Hrun. apply check_run in Hrun; [|done..]. by rewrite Hmark in Hrun.
  - intros f Hf Hle. rewrite <- Hmark in Hf. by eapply check_fresh.
Qed.

(** ** Concrete parameters *)

(** A pod whose values refer to no variables. *)
#[local] Instance literal_expansion : VarExpansion := λ s, s.

#[local] Instance literal_expansion_documented : VarExpansionDocumented.
Proof. by intros s _. Qed.

(** Exact fractions, rounded down. *)
#[local] Instance exact_fraction : FloatFraction := λ f unit,
  default 0 (parse_digits 0 f) * unit / 10 ^ Z.of_nat (String.length f).

(** The part of the command line the probe uses. *)
#[local] Instance check_cobra : Cobra := λ args,
  match args with
  | [sub; marker; flag; age] =>
      match ParseDuration age with
      | Some d =>
          if (sub == "check") && negb (HasPrefix marker "-") && (flag == "--max-age")
          then Ok (MkInvocation (CmdCheck [marker] d) noFlags (λ _, false)) else Err (ErrMsg "usage")
      | None => Err (ErrMsg "invalid duration")
      end
  | _ => Err (ErrMsg "usage")
  end.

#[local] Instance check_cobra_documented : CobraDocumented.
Proof. intros marker age d Hm Hd. unfold cobra_parse, check_cobra. by rewrite Hd, Hm. Qed.

#[local] Instance no_system_roots : X509 := {| SystemCertPool := None; AppendCertsFromPEM := λ _, true |}.

Definition demo_resolved : resolved :=
  MkResolved "ingest-worker" "pipeline" ModeRuntimeSingleton EnforceProbe "" 30 0 0 "" "" "ReplicaSet" "ingest".

Definition demo_field (p : string) : string :=
  if p == "metadata.namespace" then "pipeline" else if p == "metadata.name" then "ingest-0"
  else if p == "metadata.uid" then "3f1c" else "".

Lemma injected_config_roundtrip_witness :
  ∃ c, config noFlags (λ _, false) (container_env demo_field (buildEnv demo_injector demo_resolved)) = Ok c ∧
    Holder c = "east/pipeline:ReplicaSet:ingest:pod:ingest-0:uid:3f1c" ∧ cTTL c = 30 * Second ∧
    HeartbeatInterval c = 10 * Second ∧ APIKeyFile c = "/var/run/berth/auth/token".
Proof.
  eexists. split.
  - refine (proj2 (proj2 (injected_config_roundtrip demo_injector demo_pod "pipeline" demo_resolved demo_field
      _ _ _)) _); [vm_compute; reflexivity|vm_compute; reflexivity|repeat constructor|].
    split; [discriminate|discriminate|vm_compute; discriminate|].
    intros _ _. vm_compute. repeat split; discriminate.
  - vm_compute. repeat split; reflexivity.
Defined.

Definition marked (t : Z) : volume := {[ healthyPath "/berth" := MkFile ok_content 420 t ]}.

Lemma probe_is_freshness_witness :
  ∃ args tr, args = ["check"; "/berth/healthy"; "--max-age"; "30s"] ∧
    exec_rel (probe_step (50 * Second)) (helper_run 1 args (λ _, "")) (marked (20 * Second)) tr (Some 0)
      (marked (20 * Second)) ∧
    ¬ exec_rel (probe_step (51 * Second)) (helper_run 1 args (λ _, "")) (marked (20 * Second)) tr (Some 0)
      (marked (20 * Second)).
Proof.
  destruct (probe_is_freshness demo_injector demo_pod "pipeline" demo_resolved ltac:(vm_compute; reflexivity)
    ltac:(vm_compute; reflexivity)) as (check & args & Hexec & _ & Hrun).
  vm_compute in Hexec. injection Hexec as <- <-. eexists.
  destruct (proj2 (Hrun 1%nat (λ _, "") (50 * Second) (marked (20 * Second))) (MkFile ok_content 420 (20 * Second))
    ltac:(vm_compute; reflexivity) ltac:(vm_compute; discriminate)) as [tr Htr].
  exists tr. split; [reflexivity|]. split; [exact Htr|]. intros Hbad.
  destruct (proj1 (Hrun 1%nat (λ _, "") (51 * Second) (marked (20 * Second))) _ _ _ Hbad) as (_ & _ & Hf).
  destruct (Hf eq_refl) as (f & Hm & Hle). vm_compute in Hm. injection Hm as <-.
  vm_compute in Hle. by apply Hle.
Defined.
