(* ===== verification/SqlStore.v ===== *)
(** * The SQL backend

    [internal/lease/sqlstore]: one row per lease in a PostgreSQL, MySQL or
    SQLite table. The calls are programs over database requests. The database
    is not part of the repository: it is a parameter, with the documented
    behaviour of its transactions as a hypothesis, and other replicas write the
    same table between any two requests of a call. *)

From S2P Require Import Prelude GoStrings Store JsonText TimeText.

(** ** Values and errors of the driver *)

(** What a column holds, or a driver hands out, for a timestamp. *)
Inductive colval := VTime (t : Z) | VText (s : string) | VBytes (s : string) | VOther.

(** A driver's error: MySQL's number, if it has one, and its text. *)
Record sqlerr := MkSqlErr { eNumber : option Z; eText : string }.

Definition of_sqlerr (e : sqlerr) : error := ErrMsg (eText e).

(** [strings.Contains] *)
Fixpoint Contains (s sub : string) : bool :=
  HasPrefix s sub || match s with EmptyString => false | String _ s' => Contains s' sub end.

Definition isMySQLDuplicateKey (e : sqlerr) : bool := bool_decide (eNumber e = Some 1062).
Definition isMySQLDuplicateColumn (e : sqlerr) : bool := bool_decide (eNumber e = Some 1060).
Definition isSQLiteDuplicateColumn (e : sqlerr) : bool := Contains (eText e) "duplicate column name".

(** A row as [Scan] reads it, in the order of the columns. *)
Record row := MkRow {
  w_namespace : string;
  w_name : string;
  w_holder : string;
  w_ttl_ms : Z;
  w_acquired_at : colval;
  w_renewed_at : colval;
  w_fencing_token : Z;
  w_version : Z }.

(** ** Times *)

Definition sqlTimeValue (t : Z) : colval := VTime (Truncate t Microsecond).
Definition sqliteTimeValue (t : Z) : colval := VText (FormatRFC3339Nano t).

(** The layouts in their order: the separator and whether a zone follows. *)
Definition layouts : list (ascii * bool) :=
  [("T"%char, true); (" "%char, true); (" "%char, true); (" "%char, true);
   (" "%char, false); (" "%char, false); (" "%char, false); (" "%char, false)].

Definition parseTimeString (s : string) : result Z :=
  (fix go ls := match ls with
   | [] => Err (ErrMsg "unsupported format")
   | (sep, zone) :: ls => match time_Parse sep zone s with Some t => Ok t | None => go ls end
   end) layouts.

Definition parseTime (v : colval) : result Z :=
  match v with
  | VTime t => Ok t
  | VText s => parseTimeString s
  | VBytes s => parseTimeString s
  | VOther => Err (ErrMsg "unsupported value")
  end.

(** ** Dialects *)

Definition DriverPostgres : string := "postgres".
Definition DriverMySQL : string := "mysql".
Definition DriverSQLite : string := "sqlite".
Definition MigrateAuto : string := "auto".
Definition MigrateOff : string := "off".

(** Isolation and access of a transaction; [None] is the driver's default. *)
Record tx_options := MkTxOptions { ReadCommitted : bool; ReadOnly : bool }.

Inductive ddl := CreateTable | AddVersionColumn (ifNotExists : bool).

(** What distinguishes the dialects. [insertIgnores]: a duplicate key makes the
    insert a no-op (ON CONFLICT DO NOTHING, INSERT OR IGNORE), not an error. *)
Record dialect := MkDialect {
  driverName : string;
  schema : list ddl;
  alterations : list ddl;
  insertIgnores : bool;
  timeValue : Z → colval;
  readTx : option tx_options;
  writeTx : option tx_options;
  duplicateKey : option (sqlerr → bool);
  duplicateColumn : option (sqlerr → bool) }.

Definition postgres : dialect :=
  MkDialect "pgx" [CreateTable] [AddVersionColumn true] true sqlTimeValue
    (Some (MkTxOptions false true)) None None None.

Definition mysql : dialect :=
  MkDialect "mysql" [CreateTable] [AddVersionColumn false] false sqlTimeValue
    (Some (MkTxOptions true true)) (Some (MkTxOptions true false))
    (Some isMySQLDuplicateKey) (Some isMySQLDuplicateColumn).

Definition sqlite : dialect :=
  MkDialect "sqlite" [CreateTable] [AddVersionColumn false] true sqliteTimeValue
    (Some (MkTxOptions false true)) None None (Some isSQLiteDuplicateColumn).

Definition dialectFor (driver : string) : result dialect :=
  if driver == DriverPostgres then Ok postgres
  else if driver == DriverMySQL then Ok mysql
  else if driver == DriverSQLite then Ok sqlite
  else Err (ErrMsg "sql store: driver must be one of postgres, mysql, sqlite").

(** ** Requests *)

(** The arguments of the insert and update statements. *)
Record args := MkArgs {
  g_key : Key;
  g_holder : string;
  g_ttl_ms : Z;
  g_acquired_at : colval;
  g_renewed_at : colval;
  g_token : Z }.

Definition Milliseconds (d : Z) : Z := Z.quot d Millisecond.

(** [recordArgs] and, without the key, [recordUpdateArgs]. *)
Definition recordArgs (d : dialect) (rec : LeaseRecord) : args :=
  MkArgs (rKey rec) (rHolder rec) (Milliseconds (rTTL rec))
    (timeValue d (rAcquiredAt rec)) (timeValue d (rRenewedAt rec)) (rFencingToken rec).

Inductive sqlE : Type → Type :=
| QPing : sqlE (sqlerr + unit)
| QBegin (opts : option tx_options) : sqlE (sqlerr + unit)
| QSelect (key : Key) : sqlE (sqlerr + option row)
| QSelectAll : sqlE (sqlerr + list row * option sqlerr)
| QInsert (ignore : bool) (a : args) : sqlE (sqlerr + (sqlerr + Z))
| QUpdate (a : args) (version : Z) : sqlE (sqlerr + (sqlerr + Z))
| QCommit : sqlE (sqlerr + unit)
| QRollback : sqlE unit
| QDDL (s : ddl) : sqlE (sqlerr + unit)
| QVerify : sqlE (sqlerr + option sqlerr)
| QOpen (driver dsn : string) : sqlE (sqlerr + unit)
| QSetMaxOpenConns (n : Z) : sqlE unit
| QClose : sqlE (sqlerr + unit).

(** The deferred rollback at a return. *)
Definition finish {A} (r : result A) : prog sqlE (result A) := _ ← trigger QRollback; mret r.

Definition fail_sql {A} (msg : string) (e : sqlerr) : result A := Err (ErrWrap msg (of_sqlerr e)).

Definition scanRecord (w : row) : result LeaseRecord :=
  acquiredAt ← wrap_err "parse acquired_at" (parseTime (w_acquired_at w));
  renewedAt ← wrap_err "parse renewed_at" (parseTime (w_renewed_at w));
  Ok (MkRecord (MkKey (w_namespace w) (w_name w)) (w_holder w) (wrap64 (w_ttl_ms w * Millisecond))
        acquiredAt renewedAt (w_fencing_token w) (w_version w)).

Definition sql_Ping : prog sqlE (result unit) :=
  p ← trigger QPing;
  mret (match p with inl e => fail_sql "sql store: ping" e | inr _ => Ok () end).

Definition getTx (key : Key) : prog sqlE (result LeaseRecord) :=
  got ← trigger (QSelect key);
  mret (match got with
        | inl e => fail_sql "sql store: get" e
        | inr None => Err ErrNotFound
        | inr (Some w) => wrap_err "sql store: get" (scanRecord w)
        end).

Definition sql_Get (d : dialect) (key : Key) : prog sqlE (result LeaseRecord) :=
  b ← trigger (QBegin (readTx d));
  match b with
  | inl e => mret (fail_sql "sql store: begin get" e)
  | inr _ =>
    rec ← getTx key;
    match rec with
    | Err e => finish (Err e)
    | Ok rec =>
      c ← trigger QCommit;
      finish (match c with inl e => fail_sql "sql store: commit get" e | inr _ => Ok rec end)
    end
  end.

Fixpoint scan_all (ws : list row) : result (list LeaseRecord) :=
  match ws with
  | [] => Ok []
  | w :: ws => r ← wrap_err "sql store: scan list" (scanRecord w); rs ← scan_all ws; Ok (r :: rs)
  end.

Definition sql_List (d : dialect) : prog sqlE (result (list LeaseRecord)) :=
  b ← trigger (QBegin (readTx d));
  match b with
  | inl e => mret (fail_sql "sql store: begin list" e)
  | inr _ =>
    got ← trigger QSelectAll;
    match got with
    | inl e => finish (fail_sql "sql store: list" e)
    | inr (ws, rowsErr) =>
      match scan_all ws, rowsErr with
      | Err e, _ => finish (Err e)
      | Ok _, Some e => finish (fail_sql "sql store: list rows" e)
      | Ok out, None =>
        c ← trigger QCommit;
        finish (match c with inl e => fail_sql "sql store: commit list" e | inr _ => Ok out end)
      end
    end
  end.

(** The tail of [Put]: rows affected, then the commit. *)
Definition put_affected (affected : sqlerr + Z) : prog sqlE (result unit) :=
  match affected with
  | inl e => finish (fail_sql "sql store: rows affected" e)
  | inr n =>
    if negb (n =? 1) then finish (Err ErrConflict)
    else
      c ← trigger QCommit;
      finish (match c with inl e => fail_sql "sql store: commit put" e | inr _ => Ok () end)
  end.

Definition sql_Put (d : dialect) (expectedVersion : Z) (rec : option LeaseRecord) : prog sqlE (result unit) :=
  match rec with
  | None => mret (Err ErrConflict)
  | Some rec =>
    b ← trigger (QBegin (writeTx d));
    match b with
    | inl e => mret (fail_sql "sql store: begin put" e)
    | inr _ =>
      if expectedVersion =? 0 then
        res ← trigger (QInsert (insertIgnores d) (recordArgs d rec));
        match res with
        | inl e =>
          if from_option (λ dup, dup e) false (duplicateKey d) then finish (Err ErrConflict)
          else finish (fail_sql "sql store: insert" e)
        | inr affected => put_affected affected
        end
      else
        res ← trigger (QUpdate (recordArgs d rec) expectedVersion);
        match res with
        | inl e => finish (fail_sql "sql store: update" e)
        | inr affected => put_affected affected
        end
    end
  end.

(** ** Opening a store *)

Record Config := MkConfig { cfgDriver : string; cfgDSN : string; cfgMigrate : string }.

Definition verifySchema : prog sqlE (result unit) :=
  v ← trigger QVerify;
  mret (match v with
        | inl e | inr (Some e) => fail_sql "sql store: verify schema" e
        | inr None => Ok ()
        end).

Fixpoint run_schema (stmts : list ddl) : prog sqlE (result unit) :=
  match stmts with
  | [] => mret (Ok ())
  | stmt :: stmts =>
    r ← trigger (QDDL stmt);
    match r with inl e => mret (fail_sql "sql store: migrate" e) | inr _ => run_schema stmts end
  end.

Fixpoint run_alterations (d : dialect) (stmts : list ddl) : prog sqlE (result unit) :=
  match stmts with
  | [] => mret (Ok ())
  | stmt :: stmts =>
    r ← trigger (QDDL stmt);
    match r with
    | inr _ => run_alterations d stmts
    | inl e =>
      if from_option (λ dup, dup e) false (duplicateColumn d) then run_alterations d stmts
      else mret (fail_sql "sql store: migrate alteration" e)
    end
  end.

(** The deferred rollback of [migrate] runs when it returns, after the
    alterations. *)
Definition migrate (d : dialect) : prog sqlE (result unit) :=
  b ← trigger (QBegin None);
  match b with
  | inl e => mret (fail_sql "sql store: begin migrate" e)
  | inr _ =>
    s ← run_schema (schema d);
    match s with
    | Err e => finish (Err e)
    | Ok _ =>
      c ← trigger QCommit;
      match c with
      | inl e => finish (fail_sql "sql store: commit migrate" e)
      | inr _ => r ← run_alterations d (alterations d); finish r
      end
    end
  end.

(** [go-sql-driver]: parsing a DSN into the location it names, if any, and the
    DSN with location UTC and parsed times. *)
Class MySQLDriver := ParseDSN : string → result (option string * string).

Definition normalizeMySQLDSN `{MySQLDriver} (dsn : string) : result string :=
  mcfg ← wrap_err "sql store: parse mysql dsn" (ParseDSN dsn);
  if bool_decide (is_Some mcfg.1) && negb (bool_decide (mcfg.1 = Some "UTC"))
  then Err (ErrMsg "sql store: mysql dsn loc is not supported")
  else Ok mcfg.2.

Definition open_store (cfg : Config) (d : dialect) (mig dsn : string) : prog sqlE (result dialect) :=
  o ← trigger (QOpen (driverName d) dsn);
  match o with
  | inl e => mret (fail_sql "sql store: open" e)
  | inr _ =>
    _ ← (if cfgDriver cfg == DriverSQLite then trigger (QSetMaxOpenConns 1) else mret ());
    p ← trigger QPing;
    match p with
    | inl e => _ ← trigger QClose; mret (fail_sql "sql store: ping" e)
    | inr _ =>
      r ← (if mig == MigrateAuto then migrate d else verifySchema);
      match r with
      | Err e => _ ← trigger QClose; mret (Err e)
      | Ok _ => mret (Ok d)
      end
    end
  end.

Definition New `{MySQLDriver} (cfg : Config) : prog sqlE (result dialect) :=
  match dialectFor (cfgDriver cfg) with
  | Err e => mret (Err e)
  | Ok d =>
    if cfgDSN cfg == "" then mret (Err (ErrMsg "sql store: dsn is required"))
    else
      let mig := if cfgMigrate cfg == "" then MigrateAuto else cfgMigrate cfg in
      if negb (mig == MigrateAuto) && negb (mig == MigrateOff)
      then mret (Err (ErrMsg "sql store: migrate must be auto or off"))
      else
        match (if cfgDriver cfg == DriverMySQL then normalizeMySQLDSN (cfgDSN cfg) else Ok (cfgDSN cfg)) with
        | Err e => mret (Err e)
        | Ok dsn => open_store cfg d mig dsn
        end
  end.

(** ** The database *)

(** The committed rows, and the transaction of the call under way: none, or an
    open one with the row it wrote, if any. *)
Record db := MkDB { d_rows : gmap Key row; d_tx : option (option (Key * row)) }.

Definition row_of (a : args) (version : Z) : row :=
  MkRow (kNamespace (g_key a)) (kName (g_key a)) (g_holder a) (g_ttl_ms a)
    (g_acquired_at a) (g_renewed_at a) (g_token a) version.

(** Text may come back as bytes. *)
Definition same_col (v v' : colval) : Prop :=
  v' = v ∨ ∃ s, v = VText s ∧ v' = VBytes s.

(** The row a driver hands out for a stored row. *)
Definition read_as (w w' : row) : Prop :=
  ∃ a r, same_col (w_acquired_at w) a ∧ same_col (w_renewed_at w) r ∧
    w' = MkRow (w_namespace w) (w_name w) (w_holder w) (w_ttl_ms w) a r (w_fencing_token w) (w_version w).

Definition set_tx (tx : option (option (Key * row))) (s : db) : db := MkDB (d_rows s) tx.

(** The rows once the open transaction is committed. *)
Definition committed (s : db) : gmap Key row :=
  match d_tx s with Some (Some (k, w)) => <[k := w]> (d_rows s) | _ => d_rows s end.

(** The documented behaviour of the three engines at these isolation levels:
    statements read committed rows; an insert needs the key free and an update
    its row at the version asked for, and the affected-row count says whether
    they found it so; the effect appears at the commit, and a commit that
    reports an error may have happened. *)
Definition sql_doc (s : db) {X} (e : sqlE X) : X → db → Prop :=
  match e with
  | QBegin _ => λ x s', match x with inl _ => s' = s | inr _ => s' = set_tx (Some None) s end
  | QSelect k => λ x s', s' = s ∧
      match x with
      | inr (Some w) => ∃ w0, d_rows s !! k = Some w0 ∧ read_as w0 w
      | inr None => d_rows s !! k = None
      | inl _ => True
      end
  | QSelectAll => λ x s', s' = s ∧
      match x with
      | inr (ws, _) => ∀ w, w ∈ ws → ∃ k w0, d_rows s !! k = Some w0 ∧ read_as w0 w
      | inl _ => True
      end
  | QInsert ignore a => λ x s',
      let wrote := d_rows s !! g_key a = None ∧ s' = set_tx (Some (Some (g_key a, row_of a 1))) s in
      match x with
      | inl _ => s' = s
      | inr (inl _) => s' = s ∨ wrote
      | inr (inr n) => if n =? 1 then wrote else s' = s
      end
  | QUpdate a v => λ x s',
      let wrote := w_version <$> d_rows s !! g_key a = Some v ∧
                   s' = set_tx (Some (Some (g_key a, row_of a (wrap64 (v + 1))))) s in
      match x with
      | inl _ => s' = s
      | inr (inl _) => s' = s ∨ wrote
      | inr (inr n) => if n =? 1 then wrote else s' = s
      end
  | QCommit => λ x s',
      match x with
      | inr _ => s' = MkDB (committed s) None
      | inl _ => s' = MkDB (committed s) None ∨ s' = set_tx None s
      end
  | QRollback => λ _ s', s' = set_tx None s
  | _ => λ _ s', d_rows s' = d_rows s
  end.

(** Some database: which answers and next states it can give. *)
Class Sql := sql_step : ∀ X, db → sqlE X → X → db → Prop.
Class SqlDocumented `{Sql} : Prop :=
  sql_documented : ∀ X s (e : sqlE X) x s', sql_step X s e x s' → sql_doc s e x s'.

(** Every row is stored under its key and reads as a record. *)
Definition row_wf (k : Key) (w : row) : Prop :=
  MkKey (w_namespace w) (w_name w) = k ∧ is_ok (scanRecord w) = true.

Definition db_wf (s : db) : Prop := ∀ k w, d_rows s !! k = Some w → row_wf k w.

(** What the other replicas may do between two requests: write any rows but
    the one our transaction has written, which is locked until it ends. *)
Definition sql_rely (s s' : db) : Prop :=
  db_wf s' ∧ d_tx s' = d_tx s ∧
  ∀ k w, d_tx s = Some (Some (k, w)) → d_rows s' !! k = d_rows s !! k.

Definition sexec `{Sql} {A} (p : prog sqlE A) (s : db) (tr : list (db * db)) (a : A) (s' : db) : Prop :=
  exec_rely sql_rely sql_step p s tr a s'.

(** The records of the table. *)
Definition sql_abs (s : db) : gmap Key LeaseRecord :=
  omap (λ w, match scanRecord w with Ok r => Some r | Err _ => None end) (d_rows s).

(** ** Encoding *)

(** What a record becomes on its way through a row. *)
Definition time_norm (d : dialect) (t : Z) : Z :=
  if driverName d == "sqlite" then t else Truncate t Microsecond.

Definition norm_sql (d : dialect) (r : LeaseRecord) : LeaseRecord :=
  MkRecord (rKey r) (rHolder r) (wrap64 (Milliseconds (rTTL r) * Millisecond))
    (time_norm d (rAcquiredAt r)) (time_norm d (rRenewedAt r)) (rFencingToken r) (rVersion r).

#[export] Instance norm_sql_ok d : NormOK (norm_sql d).
Proof. by split. Qed.

(** Timestamps a text column can hold: years 1 to 9999. *)
Definition storable (r : LeaseRecord) : Prop :=
  0 ≤ rAcquiredAt r < max_time ∧ 0 ≤ rRenewedAt r < max_time.

Lemma parseTime_timeValue driver d t :
  dialectFor driver = Ok d → 0 ≤ t < max_time → parseTime (timeValue d t) = Ok (time_norm d t).
Proof.
  unfold dialectFor. intros E Ht. repeat case_next; simplify_eq; try done.
  cbn [timeValue sqlite]. unfold parseTime, sqliteTimeValue, parseTimeString, layouts.
  by rewrite time_Parse_Format.
Qed.

Lemma scanRecord_row_of driver d r v :
  dialectFor driver = Ok d → storable r →
  scanRecord (row_of (recordArgs d r) v) = Ok (set_version v (norm_sql d r)).
Proof.
  intros Hd [Ha Hr]. unfold scanRecord, row_of, recordArgs. cbn.
  rewrite !(parseTime_timeValue driver) by done. cbn. unfold set_version, norm_sql. cbn. by destruct (rKey r).
Qed.

Lemma same_col_parse v v' : same_col v v' → parseTime v' = parseTime v.
Proof. intros [->|(s & -> & ->)]; done. Qed.

Lemma read_as_scan w w' : read_as w w' → scanRecord w' = scanRecord w.
Proof.
  intros (a & r & Ha%same_col_parse & Hr%same_col_parse & ->). unfold scanRecord. cbn. by rewrite Ha, Hr.
Qed.

(** ** The records of the table *)

Lemma sql_abs_lookup s k w r :
  d_rows s !! k = Some w → scanRecord w = Ok r → sql_abs s !! k = Some r.
Proof. intros Hw Hr. unfold sql_abs. rewrite lookup_omap, Hw. cbn. by rewrite Hr. Qed.

Lemma sql_abs_none s k : d_rows s !! k = None → sql_abs s !! k = None.
Proof. intros Hw. unfold sql_abs. by rewrite lookup_omap, Hw. Qed.

Lemma scanRecord_key w r : scanRecord w = Ok r → rKey r = MkKey (w_namespace w) (w_name w) ∧ rVersion r = w_version w.
Proof.
  unfold scanRecord. intros (a & _ & (b & _ & [= <-])%result_bind_ok)%result_bind_ok. done.
Qed.

Lemma sql_abs_insert s k w r tx :
  scanRecord w = Ok r → sql_abs (MkDB (<[k := w]> (d_rows s)) tx) = <[k := r]> (sql_abs s).
Proof. intros Hr. unfold sql_abs. cbn. by rewrite omap_insert, Hr. Qed.

Lemma sql_put_pred s v k w :
  db_wf s → v ≠ 0 → d_rows s !! k = Some w → w_version w = v → put_pred (sql_abs s) v k.
Proof.
  intros Hwf Hv Hw Hver. unfold put_pred. rewrite (proj2 (Z.eqb_neq _ _) Hv).
  destruct (Hwf _ _ Hw) as [_ Hok]. destruct (scanRecord w) as [r|] eqn:Er; [|done].
  rewrite (sql_abs_lookup _ _ _ _ Hw Er). cbn. f_equal. rewrite <- Hver. by apply scanRecord_key.
Qed.

(** ** Every call takes effect at one point *)

Section runs.
Context `{SqlDocumented} (driver : string) (d : dialect) (Hd : dialectFor driver = Ok d).

Abbreviation lin := (linearized_then sql_abs (norm_sql d)).
Abbreviation idle tr := (Forall (λ ss, sql_abs ss.1 = sql_abs ss.2) tr).

Lemma sexec_op {A X} (e : sqlE X) (k : X → prog sqlE A) s tr a s' :
  sexec (trigger e ≫= k) s tr a s' →
  ∃ s1 x s2 tr', sql_rely s s1 ∧ sql_doc s1 e x s2 ∧ tr = (s1, s2) :: tr' ∧ sexec (k x) s2 tr' a s'.
Proof.
  intros (s1 & x & s2 & tr' & Hrely & Hstep & -> & Hk)%exec_rely_op.
  apply sql_documented in Hstep. eauto 10.
Qed.

Lemma sexec_ret {A} (a a' : A) s tr s' : sexec (mret a') s tr a s' → a = a' ∧ tr = [] ∧ s' = s.
Proof. done. Qed.

Lemma sexec_finish {A} (r a : result A) s tr s' :
  sexec (finish r) s tr a s' → db_wf s' ∧ a = r ∧ ∃ s1, tr = [(s1, s')] ∧ sql_abs s' = sql_abs s1.
Proof.
  intros (s1 & x & s2 & tr' & (Hwf & _ & _) & Hdoc & -> & (-> & -> & ->)%sexec_ret)%sexec_op.
  cbn in Hdoc. subst s2. split; [done|]. split; [done|]. by exists s1.
Qed.

(** A finish after the point. *)
Lemma finish_idle {A} (r a : result A) s tr s' :
  sexec (finish r) s tr a s' → db_wf s' ∧ a = r ∧ idle tr.
Proof.
  intros (Hwf & -> & s1 & -> & Habs)%sexec_finish. split_and!; [done..|]. by constructor.
Qed.

(** A finish that is itself the point: the call failed without effect. *)
Lemma finish_failed v r e (a : result unit) s tr s' :
  sexec (finish (Err e)) s tr a s' → db_wf s' ∧ lin (EPut v (Some r)) tr a.
Proof.
  intros (Hwf & -> & s1 & -> & Habs)%sexec_finish. split; [done|].
  apply linearized_then_here; [|constructor]. by left.
Qed.

Lemma sql_get_linearized k s tr x s' :
  sexec (sql_Get d k) s tr x s' → db_wf s' ∧ lin (EGet k) tr x.
Proof.
  intros (s1 & b & s2 & tr1 & (Hwf1 & _ & _) & Hb & -> & Hrun)%sexec_op. destruct b as [e|[]]; cbn in Hb; subst s2.
  { apply sexec_ret in Hrun as (-> & -> & ->). split; [done|].
    apply linearized_then_here; [|constructor]. by split. }
  unfold getTx in Hrun. rewrite prog_bind_assoc in Hrun.
  apply sexec_op in Hrun as (s3 & got & s4 & tr2 & (Hwf3 & Htx3 & _) & (-> & Hgot) & -> & Hrun).
  rewrite prog_bind_ret in Hrun.
  assert (∀ (x : result LeaseRecord) tr, idle tr →
    match x with Ok r => sql_abs s3 !! k = Some r | Err e => errors_Is e ErrNotFound = true → sql_abs s3 !! k = None end →
    lin (EGet k) ((s1, set_tx (Some None) s1) :: (s3, s3) :: tr) x) as Hpoint.
  { intros x0 tr0 Hidle Hx. apply linearized_then_cons; [done|]. by apply linearized_then_here. }
  destruct got as [e|[w|]].
  - apply finish_idle in Hrun as (? & -> & Hi). split; [done|]. by apply Hpoint.
  - destruct Hgot as (w0 & Hw0 & Hread%read_as_scan). rewrite Hread in Hrun.
    destruct (Hwf3 _ _ Hw0) as [_ Hok]. destruct (scanRecord w0) as [r|] eqn:Er; [|done]. cbn [wrap_err] in Hrun.
    apply sexec_op in Hrun as (s5 & c & s6 & tr3 & (Hwf5 & Htx5 & _) & Hc & -> & Hrun).
    apply finish_idle in Hrun as (? & -> & Hi). split; [done|]. apply Hpoint.
    + constructor; [|done]. cbn. assert (committed s5 = d_rows s5) as Hcom.
      { unfold committed. by rewrite Htx5, Htx3. }
      unfold sql_abs. destruct c; cbn in Hc; [destruct Hc as [-> | ->]|subst s6]; cbn; by rewrite ?Hcom.
    + destruct c; [done|]. by apply (sql_abs_lookup _ _ w0).
  - apply finish_idle in Hrun as (? & -> & Hi). split; [done|]. apply Hpoint; [done|].
    intros _. by apply sql_abs_none.
Qed.

Lemma scan_all_abs s ws rs :
  db_wf s → (∀ w, w ∈ ws → ∃ k w0, d_rows s !! k = Some w0 ∧ read_as w0 w) →
  scan_all ws = Ok rs → ∀ r, r ∈ rs → sql_abs s !! rKey r = Some r.
Proof.
  intros Hwf. revert rs. induction ws as [|w ws IH]; intros rs Hws; cbn.
  { intros [= <-] r ?%elem_of_nil. done. }
  intros (r0 & Hr0 & (rs' & Hrs & [= <-])%result_bind_ok)%result_bind_ok r.
  destruct (scanRecord w) as [r1|] eqn:Er; [|done]. injection Hr0 as ->.
  intros [->|Hin]%elem_of_cons; [|by eapply IH; [set_solver|..]].
  destruct (Hws w ltac:(set_solver)) as (k & w0 & Hw0 & Hread%read_as_scan).
  rewrite Er in Hread. destruct (Hwf _ _ Hw0) as [Hk _]. destruct (scanRecord_key _ _ (eq_sym Hread)) as [Hkey _].
  rewrite Hkey, Hk. by eapply sql_abs_lookup.
Qed.

(** The commit of a transaction that wrote nothing. *)
Lemma commit_idle s s1 c s2 :
  sql_rely s s1 → d_tx s = Some None → sql_doc s1 QCommit c s2 → sql_abs s1 = sql_abs s2.
Proof.
  intros (_ & Htx & _) Htx0 Hc. assert (committed s1 = d_rows s1) as Hcom by (unfold committed; by rewrite Htx, Htx0).
  unfold sql_abs. destruct c; cbn in Hc; [destruct Hc as [-> | ->]|subst s2]; cbn; by rewrite ?Hcom.
Qed.

Lemma sql_list_linearized s tr x s' :
  sexec (sql_List d) s tr x s' → db_wf s' ∧ lin EList tr x.
Proof.
  intros (s1 & b & s2 & tr1 & (Hwf1 & _ & _) & Hb & -> & Hrun)%sexec_op. destruct b as [e|[]]; cbn in Hb; subst s2.
  { apply sexec_ret in Hrun as (-> & -> & ->). split; [done|].
    apply linearized_then_here; [|constructor]. by split. }
  apply sexec_op in Hrun as (s3 & got & s4 & tr2 & (Hwf3 & Htx3 & _) & (-> & Hgot) & -> & Hrun).
  assert (∀ (x : result (list LeaseRecord)) tr, idle tr →
    match x with Ok l => ∀ r, r ∈ l → sql_abs s3 !! rKey r = Some r | Err _ => True end →
    lin EList ((s1, set_tx (Some None) s1) :: (s3, s3) :: tr) x) as Hpoint.
  { intros x0 tr0 Hidle Hx. apply linearized_then_cons; [done|]. by apply linearized_then_here. }
  destruct got as [e|[ws re]].
  { apply finish_idle in Hrun as (? & -> & Hi). split; [done|]. by apply Hpoint. }
  destruct (scan_all ws) as [out|e] eqn:Es; [destruct re as [e|]|];
    try (apply finish_idle in Hrun as (? & -> & Hi); split; [done|]; by apply Hpoint).
  apply sexec_op in Hrun as (s5 & c & s6 & tr3 & Hrely5 & Hc & -> & Hrun).
  apply finish_idle in Hrun as (? & -> & Hi). split; [done|]. apply Hpoint.
  - constructor; [|done]. cbn. by eapply commit_idle.
  - destruct c; [done|]. by eapply scan_all_abs.
Qed.

(** From a statement that wrote the row to the end of the call. *)
Lemma put_affected_wrote v r w s tr x s' :
  sexec (put_affected (inr 1)) s tr x s' →
  d_tx s = Some (Some (rKey r, w)) → scanRecord w = Ok (stored (norm_sql d) v r) →
  (∀ s1, db_wf s1 → d_rows s1 !! rKey r = d_rows s !! rKey r → put_pred (sql_abs s1) v (rKey r)) →
  db_wf s' ∧ lin (EPut v (Some r)) tr x.
Proof.
  intros Hrun Htx Hscan Hpred.
  apply sexec_op in Hrun as (s1 & c & s2 & tr1 & (Hwf1 & Htx1 & Hlock) & Hc & -> & Hrun).
  specialize (Hpred s1 Hwf1 (Hlock _ _ Htx)).
  assert (sql_abs (MkDB (committed s1) None) = <[rKey r := stored (norm_sql d) v r]> (sql_abs s1)) as Habs.
  { unfold committed. rewrite Htx1, Htx. by apply sql_abs_insert. }
  apply finish_idle in Hrun as (? & -> & Hi). split; [done|]. apply linearized_then_here; [|done].
  destruct c as [e|[]]; cbn in Hc.
  - cbn [store_step]. destruct Hc as [-> | ->]; [right|by left]. rewrite Habs. done.
  - subst s2. rewrite Habs. done.
Qed.

Lemma put_affected_failed v r n s tr x s' :
  match n with inr n => n ≠ 1 | inl _ => True end →
  sexec (put_affected n) s tr x s' → db_wf s' ∧ lin (EPut v (Some r)) tr x.
Proof.
  intros Hn Hrun. unfold put_affected in Hrun. destruct n as [e|n]; [by eapply finish_failed|].
  rewrite (proj2 (Z.eqb_neq _ _) Hn) in Hrun. cbn [negb] in Hrun. by eapply finish_failed.
Qed.

Lemma lin_skip v r s1 s2 tr x s' :
  d_rows s1 = d_rows s2 → db_wf s' ∧ lin (EPut v (Some r)) tr x →
  db_wf s' ∧ lin (EPut v (Some r)) ((s1, s2) :: tr) x.
Proof. intros E [? ?]. split; [done|]. apply linearized_then_cons; [|done]. unfold sql_abs. by rewrite E. Qed.

Lemma sql_put_linearized v r s tr x s' :
  storable r → 0 ≤ v < MaxInt64 →
  sexec (sql_Put d v (Some r)) s tr x s' → db_wf s' ∧ lin (EPut v (Some r)) tr x.
Proof.
  intros Hst Hv (s1 & b & s2 & tr1 & (Hwf1 & _ & _) & Hb & -> & Hrun)%sexec_op.
  destruct b as [e|[]]; cbn in Hb; subst s2.
  { apply sexec_ret in Hrun as (-> & -> & ->). split; [done|].
    apply linearized_then_here; [|constructor]. by left. }
  apply lin_skip; [done|]. destruct (Z.eqb_spec v 0) as [->|Hv0].
  - apply sexec_op in Hrun as (s3 & res & s4 & tr2 & (Hwf3 & _) & Hres & -> & Hrun).
    destruct res as [e|[e|n]]; cbn in Hres.
    + subst s4. apply lin_skip; [done|]. case_match; by eapply finish_failed.
    + apply lin_skip; [by destruct Hres as [->|[_ ->]]|]. by eapply (put_affected_failed _ _ (inl e)).
    + destruct (Z.eqb_spec n 1) as [->|Hn].
      * destruct Hres as [Hfree ->]. apply lin_skip; [done|].
        refine (put_affected_wrote 0 r _ _ _ _ _ Hrun eq_refl _ _).
        { exact (scanRecord_row_of driver d r 1 Hd Hst). }
        intros s5 _ E. apply sql_abs_none. cbn in E. congruence.
      * subst s4. apply lin_skip; [done|]. by eapply (put_affected_failed _ _ (inr n)).
  - apply sexec_op in Hrun as (s3 & res & s4 & tr2 & (Hwf3 & _) & Hres & -> & Hrun).
    destruct res as [e|[e|n]]; cbn in Hres.
    + subst s4. apply lin_skip; [done|]. by eapply finish_failed.
    + apply lin_skip; [by destruct Hres as [->|[_ ->]]|]. by eapply (put_affected_failed _ _ (inl e)).
    + destruct (Z.eqb_spec n 1) as [->|Hn].
      * destruct Hres as [Hver ->]. apply lin_skip; [done|].
        refine (put_affected_wrote v r _ _ _ _ _ Hrun eq_refl _ _).
        { exact (scanRecord_row_of driver d r (wrap64 (v + 1)) Hd Hst). }
        intros s5 Hwf5 E. cbn in E. apply fmap_Some in Hver as (w & Hw & ->).
        eapply sql_put_pred; [done|done| |done]. congruence.
      * subst s4. apply lin_skip; [done|]. by eapply (put_affected_failed _ _ (inr n)).
Qed.
End runs.

(** ** The theorems *)

Lemma Truncate_micro_bounds t : Truncate t Microsecond ≤ t < Truncate t Microsecond + Microsecond.
Proof. apply Truncate_bounds. done. Qed.

Lemma millis_bounds ttl :
  0 ≤ ttl ≤ MaxInt64 →
  wrap64 (Milliseconds ttl * Millisecond) ≤ ttl < wrap64 (Milliseconds ttl * Millisecond) + Millisecond ∧
  (ttl mod Millisecond = 0 → wrap64 (Milliseconds ttl * Millisecond) = ttl).
Proof.
  intros Ht. unfold Milliseconds. rewrite Z.quot_div_nonneg by (unfold Millisecond; lia).
  pose proof (Z.div_mod ttl Millisecond ltac:(unfold Millisecond; lia)).
  pose proof (Z.mod_pos_bound ttl Millisecond ltac:(unfold Millisecond; lia)).
  rewrite wrap64_id; unfold int64, MinInt64, Millisecond in *; lia.
Qed.

(** A record survives its row, on every dialect. What is read back has
    the key, holder and token that were written, a TTL cut to whole
    milliseconds and times cut to microseconds (to the nanosecond on SQLite,
    where they travel as text), so the stored expiry is never later than the
    announced one, less than a millisecond and a microsecond earlier, and less
    than a microsecond earlier for the whole-second TTLs of the API. *)
Theorem sql_encoding_faithful driver d r v :
  dialectFor driver = Ok d → storable r → 0 ≤ rTTL r ≤ MaxInt64 →
  ∃ r', scanRecord (row_of (recordArgs d r) v) = Ok r' ∧
    rKey r' = rKey r ∧ rHolder r' = rHolder r ∧ rFencingToken r' = rFencingToken r ∧ rVersion r' = v ∧
    ExpiresAt r - (Millisecond + Microsecond) < ExpiresAt r' ≤ ExpiresAt r ∧
    (rTTL r mod Second = 0 → ExpiresAt r - Microsecond < ExpiresAt r') ∧
    (driver = DriverSQLite → rTTL r mod Millisecond = 0 → r' = set_version v r).
Proof.
  intros Hd Hst Httl. exists (set_version v (norm_sql d r)).
  split; [by eapply scanRecord_row_of|]. do 4 (split; [done|]).
  pose proof (Truncate_micro_bounds (rRenewedAt r)). pose proof (millis_bounds (rTTL r) Httl) as [Hms Hexact].
  assert (time_norm d (rRenewedAt r) ≤ rRenewedAt r < time_norm d (rRenewedAt r) + Microsecond) as Hr.
  { unfold time_norm. case_bool_decide; unfold Microsecond in *; lia. }
  unfold ExpiresAt. cbn. split_and!; [lia..| |].
  - intros Hs. rewrite Hexact; [lia|]. apply Z.mod_divide in Hs as [q Hq]; [|done].
    rewrite Hq. replace (q * Second) with (q * 1000 * Millisecond) by (unfold Second, Millisecond; lia).
    by apply Z.mod_mul.
  - intros -> Hs. cbn in Hd. injection Hd as <-. unfold set_version, norm_sql. cbn. by rewrite (Hexact Hs).
Qed.

Definition sql_rec : LeaseRecord :=
  MkRecord (MkKey "pipeline" "ingest-worker") "east" (30 * Second)
    (date_days 2024 2 29 * Day + 123456789) (date_days 2024 2 29 * Day + 123456789) 1 0.

Lemma sql_encoding_faithful_witness :
  (∃ r', scanRecord (row_of (recordArgs sqlite sql_rec) 3) = Ok r' ∧ r' = set_version 3 sql_rec) ∧
  recordArgs sqlite sql_rec =
    MkArgs (MkKey "pipeline" "ingest-worker") "east" 30000
      (VText "2024-02-29T00:00:00.123456789Z") (VText "2024-02-29T00:00:00.123456789Z") 1.
Proof.
  split; [|vm_compute; reflexivity].
  destruct (sql_encoding_faithful DriverSQLite sqlite sql_rec 3) as (r' & Hscan & _ & _ & _ & _ & _ & _ & Hex);
    [reflexivity|split; split; vm_compute; (discriminate || reflexivity)|split; vm_compute; discriminate|].
  exists r'. split; [exact Hscan|]. apply Hex; vm_compute; reflexivity.
Defined.


(** A database that never fails. *)
Definition sql_mem X (e : sqlE X) (s : db) : X * db :=
  match e with
  | QPing => (inr (), s)
  | QBegin _ => (inr (), set_tx (Some None) s)
  | QSelect k => (inr (d_rows s !! k), s)
  | QSelectAll => (inr (snd <$> map_to_list (d_rows s), None), s)
  | QInsert ignore a =>
    match d_rows s !! g_key a with
    | None => (inr (inr 1), set_tx (Some (Some (g_key a, row_of a 1))) s)
    | Some _ => (if ignore : bool then inr (inr 0) else inl (MkSqlErr (Some 1062) "Duplicate entry"), s)
    end
  | QUpdate a v =>
    if bool_decide (w_version <$> d_rows s !! g_key a = Some v)
    then (inr (inr 1), set_tx (Some (Some (g_key a, row_of a (wrap64 (v + 1))))) s)
    else (inr (inr 0), s)
  | QCommit => (inr (), MkDB (committed s) None)
  | QRollback => ((), set_tx None s)
  | QDDL _ => (inr (), s)
  | QVerify => (inr None, s)
  | QOpen _ _ => (inr (), s)
  | QSetMaxOpenConns _ => ((), s)
  | QClose => (inr (), s)
  end.

#[export] Instance sql_mem_engine : Sql := λ X s e x s', x = (sql_mem X e s).1 ∧ s' = (sql_mem X e s).2.

Lemma same_col_refl v : same_col v v.
Proof. by left. Qed.

Lemma read_as_refl w : read_as w w.
Proof. exists (w_acquired_at w), (w_renewed_at w). split_and!; [apply same_col_refl..|]. by destruct w. Qed.

#[export] Instance sql_mem_documented : SqlDocumented.
Proof.
  intros X s e x s' [-> ->]. destruct e; cbn; try done.
  - split; [done|]. destruct (d_rows s !! key) as [w|] eqn:E; [|done]. exists w. split; [done|apply read_as_refl].
  - split; [done|]. intros w ([k w0] & -> & Hin%elem_of_map_to_list)%list_elem_of_fmap.
    exists k, w0. split; [done|apply read_as_refl].
  - destruct (d_rows s !! g_key a) eqn:E; cbn; [by destruct ignore|done].
  - case_bool_decide; done.
Qed.

Definition db_empty : db := MkDB ∅ None.
Definition db_open : db := set_tx (Some None) db_empty.
Definition db_wrote : db := set_tx (Some (Some (rKey sql_rec, row_of (recordArgs mysql sql_rec) 1))) db_empty.
Definition db_done : db := MkDB (committed db_wrote) None.

Lemma sql_rely_refl s : db_wf s → sql_rely s s.
Proof. intros Hwf. split; [exact Hwf|]. by split. Qed.

Lemma db_empty_wf tx : db_wf (MkDB ∅ tx).
Proof. intros k w. cbn. by rewrite lookup_empty. Qed.

Lemma db_done_wf : db_wf db_done.
Proof.
  intros k w. unfold db_done, committed. cbn [d_rows d_tx db_wrote set_tx db_empty]. rewrite lookup_insert_Some, lookup_empty.
  intros [[<- <-]|[_ [=]]]. split; vm_compute; reflexivity.
Qed.

