(* ===== verification/StoreTest.v ===== *)
(** * The store conformance suite

    [internal/lease/storetest/storetest.go] and [benchmarks.go]: the subtests every backend runs,
    as programs over the [Store] interface that end in a verdict, and the proof
    that a backend which behaves as a healthy store passes all of them. *)

From S2P Require Import Prelude GoStrings Store MemStore Manager RFC1123 TimeText K8sStore SqlStore.

(** A call with a live context, or with one cancelled beforehand. *)
Inductive callE : Type → Type :=
| CCall {X : Type} (cancelled : bool) (e : storeE X) : callE X.

(** A subtest ends with [Ok] when it passes and with the message of
    [t.Fatal] when it does not. *)
Definition test := prog callE (result unit).
Definition Fatal (msg : string) : test := mret (Err (ErrMsg msg)).
Definition passed : test := mret (Ok ()).

(** The calls the subtests make with [context.Background()]. *)
Definition bg {X} (e : storeE X) : prog callE X := trigger (CCall false e).

Fixpoint on_store {A} (p : prog storeE A) : prog callE A :=
  match p with
  | Ret a => Ret a
  | Op e k => Op (CCall false e) (λ x, on_store (k x))
  end.

Definition put_ok (v : Z) (rec : LeaseRecord) (msg : string) (k : test) : test :=
  err ← bg (EPut v (Some rec));
  match err with Err _ => Fatal msg | Ok _ => k end.

Definition put_conflicts (v : Z) (rec : LeaseRecord) (msg : string) (k : test) : test :=
  err ← bg (EPut v (Some rec));
  match err with
  | Err e => if errors_Is e ErrConflict then k else Fatal msg
  | Ok _ => Fatal msg
  end.

Definition get_ok (key : Key) (msg : string) (k : LeaseRecord → test) : test :=
  got ← bg (EGet key);
  match got with Err _ => Fatal msg | Ok rec => k rec end.

(** The record of the suite and copies of it with fields assigned. *)
Definition sampleRecord : LeaseRecord :=
  let now := date_days 2026 5 24 * Day + 10 * Hour + 30 * Minute + 123456000 in
  MkRecord (MkKey "tenant-a" "ingest") "cluster-east" (30 * Second) now now 1 0.

Definition with_key (k : Key) (r : LeaseRecord) : LeaseRecord :=
  MkRecord k (rHolder r) (rTTL r) (rAcquiredAt r) (rRenewedAt r) (rFencingToken r) (rVersion r).
Definition with_holder (h : string) (r : LeaseRecord) : LeaseRecord :=
  MkRecord (rKey r) h (rTTL r) (rAcquiredAt r) (rRenewedAt r) (rFencingToken r) (rVersion r).
Definition with_token (t : Z) (r : LeaseRecord) : LeaseRecord :=
  MkRecord (rKey r) (rHolder r) (rTTL r) (rAcquiredAt r) (rRenewedAt r) t (rVersion r).
Definition with_renewed (t : Z) (r : LeaseRecord) : LeaseRecord :=
  MkRecord (rKey r) (rHolder r) (rTTL r) (rAcquiredAt r) t (rFencingToken r) (rVersion r).

(** ** [RunStoreConformance] *)

Definition PingReportsReachable : test :=
  err ← bg EPing;
  match err with Err _ => Fatal "ping on a healthy store" | Ok _ => passed end.

Definition GetNotFound : test :=
  got ← bg (EGet (MkKey "x" "y"));
  match got with
  | Err e => if errors_Is e ErrNotFound then passed else Fatal "want ErrNotFound"
  | Ok _ => Fatal "want ErrNotFound"
  end.

Definition PutCreateThenGetRoundTrips : test :=
  let rec := sampleRecord in
  put_ok 0 rec "create" $
  get_ok (rKey rec) "get" $ λ got,
  if bool_decide (rKey got ≠ rKey rec) || (rHolder got != rHolder rec) ||
     negb (rTTL got =? rTTL rec) || negb (rFencingToken got =? rFencingToken rec) ||
     negb (rAcquiredAt got =? rAcquiredAt rec) || negb (rRenewedAt got =? rRenewedAt rec)
  then Fatal "round-trip mismatch"
  else if negb (rVersion got =? 1) then Fatal "created Version, want 1" else passed.

Definition PutCreateConflictsWhenPresent : test :=
  put_ok 0 sampleRecord "create" $ put_conflicts 0 sampleRecord "want ErrConflict" passed.

Definition PutCASRequiresMatchingVersion : test :=
  let first := sampleRecord in
  put_ok 0 first "create" $
  let next := with_token 2 (with_holder "cluster-west" first) in
  put_conflicts 99 next "stale CAS" $
  put_ok 1 next "matching CAS" $
  get_ok (rKey next) "get" $ λ got,
  if (rHolder got != "cluster-west") || negb (rFencingToken got =? 2)
  then Fatal "want cluster-west/2"
  else if negb (rVersion got =? 2) then Fatal "Version after one update, want 2" else passed.

Definition PutStoresExpectedPlusOneIgnoringCallerVersion : test :=
  let rec := set_version 999 sampleRecord in
  put_ok 0 rec "create" $
  get_ok (rKey rec) "get" $ λ got,
  if negb (rVersion got =? 1) then Fatal "created Version, want 1 (caller value ignored)"
  else
    put_ok (rVersion got) (set_version 999 got) "update" $
    get_ok (rKey rec) "get" $ λ got,
    if negb (rVersion got =? 2) then Fatal "updated Version, want 2 (caller value ignored)" else passed.

Definition PutCASOnAbsentReturnsConflict : test :=
  put_conflicts 1 sampleRecord "want ErrConflict" passed.

Definition ListTest : test :=
  let rec := sampleRecord in
  put_ok 0 rec "create" $
  let rec2 := with_key (MkKey "tenant-b" "egress") rec in
  put_ok 0 rec2 "create" $
  got ← bg EList;
  match got with
  | Err _ => Fatal "list"
  | Ok got =>
    if negb (length got =? 2)%nat then Fatal "List len, want 2"
    else if existsb (λ r, negb (rVersion r =? 1)) got then Fatal "listed Version, want 1" else passed
  end.

Definition surfaces {X} (e : storeE (result X)) (msg : string) (k : test) : test :=
  got ← trigger (CCall true e);
  match got with Err _ => k | Ok _ => Fatal msg end.

Definition ContextCancellationIsHonored : test :=
  surfaces (EGet (MkKey "ns" "a")) "Get must surface context cancellation" $
  surfaces EList "List must surface context cancellation" $
  surfaces (EPut 0 (Some sampleRecord)) "Put must surface context cancellation" $
  surfaces EPing "Ping must surface context cancellation" passed.

(** ** [RunStoreSafetyRegressions] *)

Definition StaleWriteLosesAfterInterferingWrite : test :=
  let orig := with_key (MkKey "tenant-a" "order-one") sampleRecord in
  put_ok 0 orig "create" $
  get_ok (rKey orig) "get" $ λ observed,
  let reclaim := with_token (wrap32 (rFencingToken observed + 1)) (with_holder "cluster-west" observed) in
  put_ok (rVersion observed) reclaim "reclaim" $
  let staleRenew := with_renewed (rRenewedAt observed + Minute) observed in
  put_conflicts (rVersion observed) staleRenew "stale renew after reclaim" $
  get_ok (rKey orig) "get" $ λ got,
  if (rHolder got != "cluster-west") || negb (rFencingToken got =? wrap32 (rFencingToken observed + 1))
  then Fatal "reclaimer state clobbered"
  else
    let orig := with_key (MkKey "tenant-a" "order-two") orig in
    put_ok 0 orig "create" $
    get_ok (rKey orig) "get" $ λ observed,
    let renew := with_renewed (rRenewedAt observed + Minute) observed in
    put_ok (rVersion observed) renew "renew" $
    let staleReclaim := with_token (wrap32 (rFencingToken observed + 1)) (with_holder "cluster-west" observed) in
    put_conflicts (rVersion observed) staleReclaim "stale reclaim after renew" passed.

Section manager.
Context `{DNSValidation}.

Fixpoint tombstone_cycles (n : nat) (key : Key) (issued : list Z) (k : list Z → test) : test :=
  match n with
  | O => k issued
  | S n =>
    res ← on_store (Acquire key "cluster-east" Minute);
    match res with
    | Err _ => Fatal "acquire"
    | Ok res =>
      if negb (aAcquired res) then Fatal "acquire on a free lease must succeed"
      else
        err ← on_store (Release key "cluster-east" (aFencingToken res));
        match err with
        | Err _ => Fatal "release"
        | Ok _ =>
          get_ok key "released record must remain as a tombstone" $ λ rec,
          if negb (Tombstone rec) || negb (rFencingToken rec =? aFencingToken res)
          then Fatal "tombstone, want holder empty and token"
          else tombstone_cycles n key (issued ++ [aFencingToken res]) k
        end
    end
  end.

Fixpoint strictly_increasing (l : list Z) : bool :=
  match l with
  | x :: ((y :: _) as l') => negb (y <=? x) && strictly_increasing l'
  | _ => true
  end.

Definition TokensNeverRepeatAcrossTombstoneCycles : test :=
  tombstone_cycles 3 (MkKey "tenant-a" "ingest") [] $ λ issued,
  if strictly_increasing issued then passed else Fatal "issued tokens not strictly increasing".

(** [mgr.Acquire] that must succeed. *)
Definition acquire_ok (key : Key) (holder msg : string) (k : AcquireResult → test) : test :=
  res ← on_store (Acquire key holder Minute);
  match res with
  | Err _ => Fatal msg
  | Ok res => if aAcquired res then k res else Fatal msg
  end.

Definition ScanStaleGCWriteCannotTouchLiveLease : test :=
  let key := MkKey "tenant-a" "ingest" in
  acquire_ok key "cluster-east" "acquire" $ λ res,
  get_ok key "get" $ λ scanned,
  err ← on_store (Release key "cluster-east" (aFencingToken res));
  match err with
  | Err _ => Fatal "release"
  | Ok _ =>
    acquire_ok key "cluster-west" "reacquire" $ λ res2,
    put_conflicts (rVersion scanned) (with_holder "" scanned) "scan-stale GC write" $
    get_ok key "get" $ λ got,
    if (rHolder got != "cluster-west") || negb (rFencingToken got =? aFencingToken res2)
    then Fatal "live lease disturbed by GC" else passed
  end.
End manager.

Definition TombstoneRoundTrips : test :=
  let rec := with_holder "" sampleRecord in
  put_ok 0 rec "create tombstone" $
  get_ok (rKey rec) "get" $ λ got,
  if negb (Tombstone got) || negb (rFencingToken got =? rFencingToken rec)
  then Fatal "tombstone round-trip"
  else
    list ← bg EList;
    match list with
    | Err _ => Fatal "list"
    | Ok [r] => if Tombstone r then passed else Fatal "List must include tombstones"
    | Ok _ => Fatal "List must include tombstones"
    end.

Definition RunStoreSafetyRegressions `{DNSValidation} : list (string * test) :=
  [("StaleWriteLosesAfterInterferingWrite", StaleWriteLosesAfterInterferingWrite);
   ("TokensNeverRepeatAcrossTombstoneCycles", TokensNeverRepeatAcrossTombstoneCycles);
   ("ScanStaleGCWriteCannotTouchLiveLease", ScanStaleGCWriteCannotTouchLiveLease);
   ("TombstoneRoundTrips", TombstoneRoundTrips)].

(** The sequential subtests; the concurrent one is [Race]. *)
Definition RunStoreConformance `{DNSValidation} : list (string * test) :=
  [("PingReportsReachable", PingReportsReachable);
   ("GetNotFound", GetNotFound);
   ("PutCreateThenGetRoundTrips", PutCreateThenGetRoundTrips);
   ("PutCreateConflictsWhenPresent", PutCreateConflictsWhenPresent);
   ("PutCASRequiresMatchingVersion", PutCASRequiresMatchingVersion);
   ("PutStoresExpectedPlusOneIgnoringCallerVersion", PutStoresExpectedPlusOneIgnoringCallerVersion);
   ("PutCASOnAbsentReturnsConflict", PutCASOnAbsentReturnsConflict)] ++
  RunStoreSafetyRegressions ++
  [("List", ListTest);
   ("ContextCancellationIsHonored", ContextCancellationIsHonored)].

(** ** A healthy store *)

(** A cancelled call fails and changes nothing; any other call answers as the
    contract says it must when nothing goes wrong: no spurious failure, no lost
    answer, and a listing of exactly the records. *)
Definition failed {X} (e : storeE X) : X → Prop :=
  match e with
  | EPing => λ x, ∃ err, x = Err err
  | EGet _ => λ x, ∃ err, x = Err err
  | EList => λ x, ∃ err, x = Err err
  | EPut _ _ => λ x, ∃ err, x = Err err
  | ENow | ECtxDone => λ _, True
  end.

Definition healthy_call (norm : LeaseRecord → LeaseRecord) (m : gmap Key LeaseRecord)
    {X} (e : storeE X) : X → gmap Key LeaseRecord → Prop :=
  match e with
  | EPing => λ x m', x = Ok () ∧ m' = m
  | EGet k => λ x m', m' = m ∧
      match m !! k with
      | Some r => x = Ok r
      | None => ∃ err, x = Err err ∧ errors_Is err ErrNotFound = true
      end
  | EList => λ x m', m' = m ∧ ∃ l, x = Ok l ∧ l ≡ₚ (map_to_list m).*2
  | EPut v None => λ x m', m' = m ∧ ∃ err, x = Err err
  | EPut v (Some r) => λ x m',
      if bool_decide (put_pred m v (rKey r)) then x = Ok () ∧ m' = <[rKey r := stored norm v r]> m
      else m' = m ∧ ∃ err, x = Err err ∧ errors_Is err ErrConflict = true
  | ENow => λ _ m', m' = m
  | ECtxDone => λ x m', x = false ∧ m' = m
  end.

Definition healthy_step (norm : LeaseRecord → LeaseRecord) (X : Type) (m : gmap Key LeaseRecord)
    (c : callE X) : X → gmap Key LeaseRecord → Prop :=
  match c with
  | CCall true e => λ x m', failed e x ∧ m' = m
  | CCall false e => healthy_call norm m e
  end.

(** Storing keeps a record whose TTL is in whole seconds and whose times are in
    whole microseconds, as all backends do. *)
Definition aligned (r : LeaseRecord) : bool :=
  (0 <? rTTL r) && (rTTL r <=? MaxInt32 * Second) && (rTTL r mod Second =? 0) &&
  (rAcquiredAt r mod Microsecond =? 0) && (rRenewedAt r mod Microsecond =? 0).

Class NormAligned (norm : LeaseRecord → LeaseRecord) : Prop :=
  norm_aligned r : aligned r = true → norm r = r.

(** Every run of a program from [m] ends well. *)
Fixpoint hwp {A} (norm : LeaseRecord → LeaseRecord) (p : prog callE A)
    (m : gmap Key LeaseRecord) (Q : A → gmap Key LeaseRecord → Prop) : Prop :=
  match p with
  | Ret a => Q a m
  | Op c k => ∀ x m', healthy_step norm _ m c x m' → hwp norm (k x) m' Q
  end.

Section hwp.
Context (norm : LeaseRecord → LeaseRecord) `{!NormOK norm} `{!NormAligned norm}.

Abbreviation wpt := (hwp norm).

Lemma hwp_sound {A} (p : prog callE A) m Q tr a m' :
  wpt p m Q → exec_rel (healthy_step norm) p m tr a m' → Q a m'.
Proof.
  revert m tr. induction p as [a'|X c k IH]; intros m tr Hw; cbn.
  - by intros (-> & _ & ->).
  - intros (x & m1 & tr' & Hs & -> & Hrun). eapply IH; [by apply Hw|done].
Qed.

Lemma hwp_bind {A B} (p : prog callE A) (f : A → prog callE B) m Q :
  wpt p m (λ a m', wpt (f a) m' Q) → wpt (p ≫= f) m Q.
Proof. revert m. induction p as [a|X c k IH]; intros m Hw; [done|]. intros x m' Hs. by apply IH, Hw. Qed.

Lemma hwp_put_ok v r msg k m Q :
  put_pred m v (rKey r) → wpt k (<[rKey r := stored norm v r]> m) Q → wpt (put_ok v r msg k) m Q.
Proof. intros Hp Hk x m' Hs. cbn in Hs. rewrite bool_decide_true in Hs by done. by destruct Hs as [-> ->]. Qed.

Lemma hwp_put_conflicts v r msg k m Q :
  ¬ put_pred m v (rKey r) → wpt k m Q → wpt (put_conflicts v r msg k) m Q.
Proof.
  intros Hp Hk x m' Hs. cbn in Hs. rewrite bool_decide_false in Hs by done.
  destruct Hs as (-> & err & -> & He). cbn. by rewrite He.
Qed.

Lemma hwp_get_ok key msg k m r Q : m !! key = Some r → wpt (k r) m Q → wpt (get_ok key msg k) m Q.
Proof. intros Hr Hk x m' Hs. cbn in Hs. rewrite Hr in Hs. by destruct Hs as [-> ->]. Qed.

Lemma hwp_list (k : result (list LeaseRecord) → test) m Q :
  (∀ l, l ≡ₚ (map_to_list m).*2 → wpt (k (Ok l)) m Q) → wpt (bg EList ≫= k) m Q.
Proof. intros Hk x m' (-> & l & -> & Hl). by apply Hk. Qed.

Lemma hwp_surfaces {X} (e : storeE (result X)) msg k m Q :
  (∀ x, failed e x → ∃ err, x = Err err) → wpt k m Q → wpt (surfaces e msg k) m Q.
Proof. intros He Hk x m' [Hx ->]. destruct (He _ Hx) as [err ->]. done. Qed.

(** [Acquire] of a lease that was never held or was released. *)
Lemma hwp_Acquire_free `{DNSValidation} key holder ttl m Q :
  ValidateKey key = Ok () → ValidateHolder holder = Ok () → 0 < ttl →
  match m !! key with
  | None => True
  | Some r => rHolder r = "" ∧ rFencingToken r ≠ MaxInt32 ∧ rVersion r ≠ 0
  end →
  (∀ now exp, let v := from_option rVersion 0 (m !! key) in
     let tok := match m !! key with None => 1 | Some r => wrap32 (rFencingToken r + 1) end in
     Q (Ok (MkAcquireResult true holder tok exp now))
       (<[key := stored norm v (MkRecord key holder ttl now now tok 0)]> m)) →
  wpt (on_store (Acquire key holder ttl)) m Q.
Proof.
  intros Hk Hh Httl Hcur HQ. unfold Acquire. rewrite Hk, Hh, (proj2 (Z.leb_gt _ _)) by done.
  intros got m0 [-> Hgot]. destruct (m !! key) as [r|] eqn:Hr.
  - subst got. destruct Hcur as (He & Hm & Hv). intros now m1 ->. cbn [cur_of]. unfold acquire_plan, Tombstone.
    assert ("" ≠ holder) as Hne by (intros <-; discriminate Hh).
    rewrite He, (bool_decide_false _ Hne), (proj2 (Z.eqb_neq _ _) Hm). cbn [andb orb bool_decide].
    intros x m2 Hput. cbn in Hput. rewrite bool_decide_true in Hput.
    2:{ unfold put_pred. by rewrite (proj2 (Z.eqb_neq _ _) Hv), Hr. }
    destruct Hput as [-> ->]. apply HQ.
  - destruct Hgot as (err & -> & Herr). cbn -[acquire_plan]. rewrite Herr. intros now m1 ->.
    intros x m2 Hput. cbn in Hput. rewrite bool_decide_true in Hput by done.
    destruct Hput as [-> ->]. apply HQ.
Qed.

(** [Release] by the holder. *)
Lemma hwp_Release `{DNSValidation} key holder m r Q :
  ValidateKey key = Ok () → holder ≠ "" → m !! key = Some r → rKey r = key → rHolder r = holder → rVersion r ≠ 0 →
  (∀ now, Q (Ok ()) (<[key := stored norm (rVersion r) (tombstoneFrom r now)]> m)) →
  wpt (on_store (Release key holder (rFencingToken r))) m Q.
Proof.
  intros Hk Hh Hr Hkey Hhol Hv HQ. unfold Release. rewrite Hk, (bool_decide_false _ Hh).
  intros got m0 [-> Hgot]. rewrite Hr in Hgot. subst got. cbn. unfold Tombstone.
  rewrite Hhol, (bool_decide_false _ Hh), bool_decide_true, Z.eqb_refl by done. cbn [negb orb].
  intros now m1 -> x m2 Hput. cbn in Hput. rewrite bool_decide_true in Hput.
  2:{ unfold put_pred. by rewrite Hkey, (proj2 (Z.eqb_neq _ _) Hv), Hr. }
  destruct Hput as [-> ->]. rewrite Hkey. apply HQ.
Qed.
End hwp.

(** ** The three backends keep aligned records *)

Lemma aligned_spec r : aligned r = true →
  ∃ s, 0 < s ≤ MaxInt32 ∧ rTTL r = s * Second ∧
    rAcquiredAt r mod Microsecond = 0 ∧ rRenewedAt r mod Microsecond = 0.
Proof.
  unfold aligned. intros Ha. repeat apply andb_true_iff in Ha as [Ha ?].
  assert (rTTL r mod Second = 0) as Hm by lia. apply Z.div_exact in Hm; [|done].
  exists (rTTL r / Second). unfold MaxInt32, Second in *. split_and!; lia.
Qed.

#[export] Instance norm_aligned_id : NormAligned id.
Proof. done. Qed.

Lemma Truncate_aligned t : t mod Microsecond = 0 → Truncate t Microsecond = t.
Proof. unfold Truncate. intros ->. cbn. lia. Qed.

#[export] Instance norm_aligned_k8s : NormAligned norm_k8s.
Proof.
  intros r (s & Hs & Ht & Ha & Hr)%aligned_spec. destruct r as [k h ttl acq ren tok ver]. unfold norm_k8s.
  cbn [rKey rHolder rTTL rAcquiredAt rRenewedAt rFencingToken rVersion] in *.
  rewrite !Truncate_aligned by done. rewrite Ht, (proj2 (Z.eqb_neq (s * Second) 0)) by (unfold Second; lia).
  rewrite andb_false_r, Z.quot_mul, wrap32_id, wrap64_id; [done|..]; try done;
    unfold int32, int64, MinInt32, MaxInt32, MinInt64, MaxInt64, Second in *; lia.
Qed.

#[export] Instance norm_aligned_sql d : NormAligned (norm_sql d).
Proof.
  intros r (s & Hs & Ht & Ha & Hr)%aligned_spec. destruct r as [k h ttl acq ren tok ver].
  unfold norm_sql, time_norm, Milliseconds.
  cbn [rKey rHolder rTTL rAcquiredAt rRenewedAt rFencingToken rVersion] in *. rewrite !Truncate_aligned by done. rewrite Ht.
  replace (s * Second) with (s * 1000 * Millisecond) by (unfold Second, Millisecond, Microsecond; lia).
  rewrite Z.quot_mul, wrap64_id; [by destruct (_ == _)|..]; [|done].
  unfold int64, MinInt64, MaxInt64, MaxInt32, Millisecond, Microsecond in *. lia.
Qed.

(** ** Each subtest passes *)

Section suite.
Context (norm : LeaseRecord → LeaseRecord) `{!NormOK norm} `{!NormAligned norm}.

Definition passes (p : test) : Prop := hwp norm p ∅ (λ a _, a = Ok ()).

Lemma stored_aligned v r : aligned r = true → stored norm v r = set_version (wrap64 (v + 1)) r.
Proof. intros Hr. unfold stored. by rewrite (norm_aligned (norm := norm) r Hr). Qed.

Ltac crunch := vm_compute; (reflexivity || discriminate).
Ltac put := apply hwp_put_ok; [crunch|rewrite stored_aligned by crunch].
Ltac conflict := apply hwp_put_conflicts; [crunch|].
Ltac get := eapply hwp_get_ok; [vm_compute; reflexivity|].

Lemma passes_ping : passes PingReportsReachable.
Proof. by intros x m [-> ->]. Qed.

Lemma passes_notfound : passes GetNotFound.
Proof. intros x m [-> (err & -> & He)]. cbn. by rewrite He. Qed.

Lemma passes_roundtrip : passes PutCreateThenGetRoundTrips.
Proof. put. get. crunch. Qed.

Lemma passes_create_conflict : passes PutCreateConflictsWhenPresent.
Proof. put. conflict. crunch. Qed.

Lemma passes_cas : passes PutCASRequiresMatchingVersion.
Proof. put. conflict. put. get. crunch. Qed.

Lemma passes_version : passes PutStoresExpectedPlusOneIgnoringCallerVersion.
Proof. put. get. put. get. crunch. Qed.

Lemma passes_absent : passes PutCASOnAbsentReturnsConflict.
Proof. conflict. crunch. Qed.

Lemma passes_stale : passes StaleWriteLosesAfterInterferingWrite.
Proof. put. get. put. conflict. get. put. get. put. conflict. crunch. Qed.
Lemma passes_list : passes ListTest.
Proof.
  put. put. apply hwp_list. intros l Hl. vm_compute in Hl.
  rewrite (Permutation_length Hl). cbn [length Nat.eqb negb].
  assert (existsb (λ r, negb (rVersion r =? 1)) l = false) as ->; [|done].
  apply not_true_iff_false. intros (r & Hr & Hv)%existsb_exists. apply (Permutation_in _ Hl) in Hr.
  by destruct Hr as [<-|[<-|[]]].
Qed.

Lemma passes_cancel : passes ContextCancellationIsHonored.
Proof. by repeat (apply hwp_surfaces; [done|]). Qed.

Lemma passes_tombstone : passes TombstoneRoundTrips.
Proof.
  put. get. apply hwp_list. intros l Hl. vm_compute in Hl. apply Permutation_singleton_r in Hl as ->. crunch.
Qed.

Context `{DNSValidation} (key : Key) (Hkey : ValidateKey key = Ok ()).

(** After [c] acquisitions and releases. *)
Definition cycled (c : Z) (m : gmap Key LeaseRecord) : Prop :=
  match m !! key with
  | None => c = 0
  | Some r => rHolder r = "" ∧ rFencingToken r = c ∧ rVersion r = 2 * c ∧ 0 < c
  end.

Lemma cycled_free c m : cycled c m → 0 ≤ c < 1000 →
  match m !! key with
  | None => True
  | Some r => rHolder r = "" ∧ rFencingToken r ≠ MaxInt32 ∧ rVersion r ≠ 0
  end ∧
  from_option rVersion 0 (m !! key) = 2 * c ∧
  match m !! key with None => 1 | Some r => wrap32 (rFencingToken r + 1) end = c + 1.
Proof.
  unfold cycled. destruct (m !! key) as [r|]; cbn; [|lia]. intros (He & Ht & Hv & Hp) Hc.
  rewrite He, Ht, Hv, wrap32_id by (unfold int32, MinInt32, MaxInt32; lia).
  unfold MaxInt32. split_and!; [done|lia..].
Qed.

(** One more acquisition, seen from the record it leaves. *)
Lemma passes_acquire c m holder Q :
  cycled c m → 0 ≤ c < 1000 → ValidateHolder holder = Ok () →
  (∀ a r, aAcquired a = true → aFencingToken a = c + 1 → rKey r = key → rHolder r = holder →
     rFencingToken r = c + 1 → rVersion r = 2 * c + 1 → Q (Ok a) (<[key := r]> m)) →
  hwp norm (on_store (Acquire key holder Minute)) m Q.
Proof.
  intros Hc Hb Hh HQ. destruct (cycled_free c m Hc Hb) as (Hfree & Hv & Ht).
  apply hwp_Acquire_free; try done. intros now exp. cbn zeta. rewrite Hv, Ht.
  apply HQ; try done; [by apply stored_key|by apply stored_holder|by apply stored_token|].
  cbn. rewrite wrap64_id; [done|]. unfold int64, MinInt64, MaxInt64. lia.
Qed.

Lemma passes_release c m r holder Q :
  ValidateHolder holder = Ok () → 0 ≤ c < 1000 → rKey r = key → rHolder r = holder →
  rFencingToken r = c + 1 → rVersion r = 2 * c + 1 →
  (∀ r', rKey r' = key → rHolder r' = "" → rFencingToken r' = c + 1 → rVersion r' = 2 * (c + 1) →
     Q (Ok ()) (<[key := r']> m)) →
  hwp norm (on_store (Release key holder (c + 1))) (<[key := r]> m) Q.
Proof.
  intros Hh Hb Hk Hhol Ht Hv HQ. rewrite <- Ht. apply hwp_Release; try done.
  - by intros ->.
  - apply lookup_insert_eq.
  - lia.
  - intros now. rewrite insert_insert_eq.
    apply HQ; [by cbn; rewrite norm_key|by cbn; rewrite norm_holder|by cbn; rewrite norm_token|].
    cbn. rewrite Hv, wrap64_id; [lia|]. unfold int64, MinInt64, MaxInt64. lia.
Qed.

Lemma passes_cycles n c issued k m Q :
  0 ≤ c → c + Z.of_nat n ≤ 1000 → cycled c m →
  (∀ m', hwp norm (k (issued ++ ((λ i, c + 1 + Z.of_nat i) <$> seq 0 n))) m' Q) →
  hwp norm (tombstone_cycles n key issued k) m Q.
Proof.
  revert c issued m. induction n as [|n IH]; intros c issued m Hc Hn Hm Hk; cbn [tombstone_cycles].
  - specialize (Hk m). by rewrite app_nil_r in Hk.
  - apply hwp_bind, (passes_acquire c); [done|lia|done|]. intros a r Ha Hta Hrk Hrh Hrt Hrv.
    rewrite Ha, Hta. cbn [negb]. apply hwp_bind, passes_release; try done; [lia|].
    intros r' Hk' Hh' Ht' Hv'. eapply hwp_get_ok; [apply lookup_insert_eq|].
    unfold Tombstone. rewrite Hh', Ht', Z.eqb_refl. cbn [negb orb bool_decide].
    apply (IH (c + 1)); [lia|lia| |].
    + unfold cycled. rewrite lookup_insert_eq. split_and!; try done. lia.
    + intros m'. rewrite <- app_assoc. cbn [app]. specialize (Hk m'). cbn [seq fmap list_fmap] in Hk.
      rewrite <- fmap_S_seq, <- list_fmap_compose in Hk.
      replace (c + 1 + Z.of_nat 0) with (c + 1) in Hk by lia.
      erewrite list_fmap_ext; [exact Hk|]. intros i x _. cbn. lia.
Qed.
End suite.

Section verdict.
Context `{DNSValidation} (norm : LeaseRecord → LeaseRecord) `{!NormOK norm} `{!NormAligned norm}.
Context (Hkey : ValidateKey (MkKey "tenant-a" "ingest") = Ok ()).

Lemma passes_tokens : passes norm TokensNeverRepeatAcrossTombstoneCycles.
Proof.
  unfold passes, TokensNeverRepeatAcrossTombstoneCycles.
  apply (passes_cycles norm _ Hkey 3 0); [lia|lia|done|]. intros m'. reflexivity.
Qed.

Lemma passes_scan : passes norm ScanStaleGCWriteCannotTouchLiveLease.
Proof.
  unfold passes, ScanStaleGCWriteCannotTouchLiveLease, acquire_ok.
  apply hwp_bind, (passes_acquire norm _ Hkey 0); [done|lia|done|].
  intros a r Ha Hta Hrk Hrh Hrt Hrv. rewrite Ha. eapply hwp_get_ok; [apply lookup_insert_eq|].
  rewrite Hta. apply hwp_bind, (passes_release norm _ Hkey 0); try done.
  intros r1 Hk1 Hh1 Ht1 Hv1. cbn -[Acquire ValidateKey].
  apply hwp_bind, (passes_acquire norm _ Hkey 1); [|lia|done|].
  { unfold cycled. rewrite lookup_insert_eq. by split_and!. }
  intros a2 r2 Ha2 Hta2 Hrk2 Hrh2 Hrt2 Hrv2. rewrite Ha2. apply hwp_put_conflicts.
  - unfold put_pred. rewrite Hrv. cbn [with_holder rKey]. rewrite Hrk, lookup_insert_eq. cbn. intros [= E]. lia.
  - eapply hwp_get_ok; [apply lookup_insert_eq|]. rewrite Hrh2, Hrt2, Hta2, Z.eqb_refl. reflexivity.
Qed.

Lemma conformance_all : Forall (λ t, passes norm t.2) RunStoreConformance.
Proof.
  unfold RunStoreConformance, RunStoreSafetyRegressions.
  repeat (apply Forall_cons_2 || apply Forall_nil_2); cbn [snd];
    eauto using passes_ping, passes_notfound, passes_roundtrip, passes_create_conflict, passes_cas, passes_version,
      passes_absent, passes_stale, passes_tokens, passes_scan, passes_tombstone, passes_list, passes_cancel.
Qed.
End verdict.

(** ** The benchmark workers *)

(** [benchmarks.go]: the seed and one iteration of the contended worker, and
    one renewal of the steady-state worker. A worker fails when it reports an
    error other than a lost compare-and-swap. *)
Definition bench_key : Key := MkKey "bench" "contended".
Definition bench_seed : test := put_ok 0 (with_key bench_key sampleRecord) "seed" passed.

Definition benchmarkAcquireParallel : test :=
  get_ok bench_key "get" $ λ cur,
  let next := with_token (wrap32 (rFencingToken cur + 1)) cur in
  err ← bg (EPut (rVersion cur) (Some next));
  match err with
  | Err e => if errors_Is e ErrConflict then passed else Fatal "put"
  | Ok _ => passed
  end.

Record held := MkHeld { h_key : Key; h_holder : string; h_token : Z }.

Definition benchmarkRenewSteadyState `{DNSValidation} (leases : list held) (idx : nat) : test :=
  match leases !! (idx mod length leases)%nat with
  | None => Fatal "index out of range"
  | Some h =>
    res ← on_store (Renew (h_key h) (h_holder h) (h_token h) Hour);
    match res with
    | Err _ => Fatal "renew"
    | Ok res => if aAcquired res then passed else Fatal "lease unexpectedly lost"
    end
  end.

Section bench.
Context (norm : LeaseRecord → LeaseRecord) `{!NormOK norm}.

(** Other workers write the contended key at any time but never remove it. *)
Definition bench_rely (m m' : gmap Key LeaseRecord) : Prop := is_Some (m !! bench_key) → is_Some (m' !! bench_key).

Lemma bench_acquire_ok m tr a m' :
  is_Some (m !! bench_key) →
  exec_rely bench_rely (healthy_step norm) benchmarkAcquireParallel m tr a m' → a = Ok ().
Proof.
  intros Hm (m1 & x & m2 & tr1 & Hr1 & Hg & -> & Hrun). destruct (Hr1 Hm) as [r Hr].
  cbn in Hg. rewrite Hr in Hg. destruct Hg as [-> ->].
  destruct Hrun as (m3 & y & m4 & tr2 & _ & Hp & -> & Hrun). cbn in Hp. case_bool_decide.
  - destruct Hp as [-> ->]. by destruct Hrun as (-> & _ & _).
  - destruct Hp as (-> & err & -> & He). cbn in Hrun. rewrite He in Hrun. by destruct Hrun as (-> & _ & _).
Qed.

End bench.

(** ** The in-memory store is healthy *)

Definition call_handler {S} `{StoreImpl S} (now : Z) (X : Type) (c : callE X) (s : S) : X * S :=
  match c with CCall cancelled e => impl_handler (if cancelled then Some ErrCtx else None) now e s end.

Lemma mem_healthy now X (c : callE X) s :
  healthy_step id X (records s) c (call_handler now X c s).1 (records (call_handler now X c s).2).
Proof.
  destruct c as [X [] e].
  - destruct e as [|k| |v [r|]| |]; cbn; eauto.
  - destruct e as [|k| |v [r|]| |]; cbn -[mem_Put]; eauto.
    + split; [done|]. destruct (records s !! k); eauto.
    + rewrite mem_Put_spec. case_bool_decide; cbn; eauto.
Qed.

Lemma mem_runs {A} now (p : prog callE A) s :
  ∃ tr, exec_rel (healthy_step id) p (records s) tr (run (call_handler now) p s).1
    (records (run (call_handler now) p s).2).
Proof.
  revert s. induction p as [a|X c k IH]; intros s; cbn; [by exists []|].
  pose proof (mem_healthy now X c s) as Hc. destruct (call_handler now X c s) as [x s1]. cbn in Hc.
  destruct (IH x s1) as [tr Htr]. exists (records s1 :: tr), x, (records s1), tr. auto.
Qed.

(** A renewal of a lease of the fleet that is held and has not run out. *)
Lemma bench_renew_ok `{DNSValidation} leases idx h r now s :
  leases !! (idx mod length leases)%nat = Some h → ValidateKey (h_key h) = Ok () →
  ValidateHolder (h_holder h) = Ok () → 0 < h_token h →
  records s !! h_key h = Some r → rKey r = h_key h → rHolder r = h_holder h → rFencingToken r = h_token h →
  rVersion r ≠ 0 → Expired r now = false →
  (run (call_handler now) (benchmarkRenewSteadyState leases idx) s).1 = Ok ().
Proof.
  intros Hl Hk Hh Ht Hr Hrk Hrh Hrt Hv Hexp. unfold benchmarkRenewSteadyState. rewrite Hl.
  unfold Renew. rewrite Hk, Hh, (proj2 (Z.leb_gt _ _)) by done.
  rewrite run_bind. change (Hour <=? 0) with false. cbn -[mem_Put Expired].
  rewrite Hr. cbn -[mem_Put Expired]. rewrite Hrh, Hrt, Hexp, bool_decide_true, Z.eqb_refl by done.
  cbn -[mem_Put Expired]. rewrite mem_Put_spec, bool_decide_true; [done|].
  unfold put_pred. cbn. by rewrite (proj2 (Z.eqb_neq _ _) Hv), Hrk, Hr.
Qed.

(** ** The theorem *)


