(* ===== verification/Race.v ===== *)
(** * A race for one lease

    The concurrent subtest of [internal/lease/storetest/storetest.go]
    ([ConcurrentAcquireExactlyOneWinner]) and the failover round of
    [benchmarks.go] ([benchmarkFailoverFanout]): any number of holders call
    [Acquire] for a lease that is free, on a store that does not fail, and
    exactly one of them gets it. *)

From S2P Require Import Prelude GoStrings Store MemStore Manager TTL RFC1123 StoreTest Coordination Fencing Exclusion.

(** ** A system whose store does not fail *)

Section healthy.
Context `{DNSValidation} (norm : LeaseRecord → LeaseRecord) `{!NormOK norm} (skew : Z).

(** Requests in progress, and their ends, with the tick of time; none is
    started. *)
Inductive hstep : sys → option (nat * out) → sys → Prop :=
| hstep_op m pool c i o st X (e : storeE X) k x m' :
    pool !! i = Some (MkThread o (Op e k) st) → healthy_call norm m e x m' → clock_ok skew c e x →
    hstep (MkSys m pool c) None (MkSys m' (<[i := MkThread o (k x) st]> pool) c)
| hstep_done m pool c i o st x :
    pool !! i = Some (MkThread o (Ret x) st) →
    hstep (MkSys m pool c) (Some (i, x)) (MkSys m (delete i pool) c)
| hstep_tick m pool c t : c ≤ t → hstep (MkSys m pool c) None (MkSys m pool t).

(** The answers of a run, in the order the requests ended. *)
Definition ended (tr : list (option (nat * out))) : list (nat * out) := omap id tr.

(** Each of its calls is one the contract allows. *)
Lemma healthy_is_step m {X} (e : storeE X) x m' :
  keyed m → healthy_call norm m e x m' → store_step norm m e x m'.
Proof.
  intros Hk. destruct e as [|k| |v [r|]| |]; cbn; try tauto.
  - intros [-> Hx]. split; [done|]. destruct (m !! k) as [r|] eqn:E; [by subst|].
    by destruct Hx as (err & -> & _).
  - intros (-> & l & -> & Hl). split; [done|]. intros r Hr. rewrite Hl in Hr.
    apply list_elem_of_fmap in Hr as ([k r'] & -> & Hr%elem_of_map_to_list). cbn. by rewrite (Hk _ _ Hr).
  - case_bool_decide; [by intros [-> ->]|]. intros (-> & err & -> & _). by left.
  - by intros (-> & err & ->).
Qed.
End healthy.

(** ** The racing requests *)

Section race.
Context `{DNSValidation} (norm : LeaseRecord → LeaseRecord) `{!NormOK norm} (skew loss : Z).
Context (key : Key) (ttl c0 : Z) (m0 : gmap Key LeaseRecord) (v0 tok0 : Z).
Context `{!NormExpiry norm ttl loss}.
Context (Hkey : ValidateKey key = Ok ()) (Httl : 0 < ttl).

(** The lease is free for every reading of a clock from the start on: the
    compare-and-swap of a claim names version [v0] and takes token [tok0]. *)
Context (Hfree : ∀ holder now, c0 - skew ≤ now → acquire_plan holder now (m0 !! key) = PlanWrite v0 tok0 now).
Context (Hput : put_pred m0 v0 key) (Hv0 : 0 ≤ v0 < MaxInt64).

Definition won (h : string) (now : Z) : out := OutLease (Ok (MkAcquireResult true h tok0 (now + ttl) now)).
Definition lost (r : LeaseRecord) : out := OutLease (Ok (lost_to r)).

(** The stations of a request, by what it does next: it has read the winner's
    record; it lost the compare-and-swap; it is about to write; it found the
    lease free; it has not read yet. *)
Definition at_now (Q : (Z → prog storeE out) → Prop) (p : prog storeE out) : Prop :=
  match p with
  | Op e k => match e in storeE X return (X → prog storeE out) → Prop with ENow => Q | _ => λ _, False end k
  | Ret _ => False
  end.

Definition at_get (Q : (result LeaseRecord → prog storeE out) → Prop) (p : prog storeE out) : Prop :=
  match p with
  | Op e k =>
      match e in storeE X return (X → prog storeE out) → Prop with
      | EGet key' => λ k, key' = key ∧ Q k
      | _ => λ _, False
      end k
  | Ret _ => False
  end.

Definition at_put (Q : LeaseRecord → (result unit → prog storeE out) → Prop) (p : prog storeE out) : Prop :=
  match p with
  | Op e k =>
      match e in storeE X return (X → prog storeE out) → Prop with
      | EPut v (Some r) => λ k, v = v0 ∧ Q r k
      | _ => λ _, False
      end k
  | Ret _ => False
  end.

Definition claim (h : string) (now : Z) : LeaseRecord := MkRecord key h ttl now now tok0 0.

Definition st_seen (r : LeaseRecord) : prog storeE out → Prop :=
  at_now (λ k, ∀ now, Expired r now = false → k now = Ret (lost r)).

Definition st_retry (h : string) : prog storeE out → Prop :=
  at_get (λ k, ∀ r, rHolder r ≠ "" → rHolder r ≠ h → st_seen r (k (Ok r))).

Definition st_put (h : string) : prog storeE out → Prop :=
  at_put (λ r k, ∃ now, c0 - skew ≤ now ∧ r = claim h now ∧
    k (Ok ()) = Ret (won h now) ∧ ∀ e, errors_Is e ErrConflict = true → st_retry h (k (Err e))).

Definition st_now (h : string) : prog storeE out → Prop :=
  at_now (λ k, ∀ now, c0 - skew ≤ now → st_put h (k now)).

Definition st_get (h : string) (p : prog storeE out) : Prop :=
  st_retry h p ∧ at_get (λ k, ∀ got, cur_of got = Ok (m0 !! key) → st_now h (k got)) p.

Definition loop (n : nat) (h : string) : prog storeE out :=
  r ← acquire_loop n key h ttl; mret (OutLease r).

Lemma loop_retry n h : st_retry h (loop (S n) h).
Proof.
  split; [done|]. intros r He Hne now Hexp. cbn -[acquire_loop]. unfold Tombstone.
  by rewrite (bool_decide_false _ Hne), Hexp, (bool_decide_false _ He).
Qed.

Lemma loop_get n h : st_get h (loop (S (S n)) h).
Proof.
  split; [by apply loop_retry|]. split; [done|]. intros got Hgot.
  cbn -[acquire_loop acquire_plan cur_of at_now]. rewrite Hgot. intros now Hnow.
  cbn -[acquire_loop acquire_plan at_put]. rewrite Hfree by done.
  split; [done|]. exists now. split_and!; [done|done|done|]. intros e He.
  cbn -[acquire_loop]. rewrite He. by apply (loop_retry n).
Qed.

Lemma op_prog_get h : ValidateHolder h = Ok () → st_get h (op_prog (OAcquire key h ttl)).
Proof.
  intros Hh. cbn [op_prog]. unfold Acquire. rewrite Hkey, Hh, (proj2 (Z.leb_gt _ _)) by done. apply (loop_get 6).
Qed.

(** ** The invariant of the race *)

Context (holders : list string) (Hnodup : NoDup holders).
Context (Hholders : ∀ h, h ∈ holders → ValidateHolder h = Ok ()).

Definition race_pool : gmap nat thread :=
  map_seq 0 ((λ h, MkThread (OAcquire key h ttl) (op_prog (OAcquire key h ttl)) c0) <$> holders).

(** Who has won, with which clock reading. *)
Definition winner : Type := option (nat * string * Z).

Definition won_record (h : string) (now : Z) : LeaseRecord := stored norm v0 (claim h now).

Definition race_store (ph : winner) : gmap Key LeaseRecord :=
  match ph with None => m0 | Some (_, h, now) => <[key := won_record h now]> m0 end.

Definition station (ph : winner) (i : nat) (h : string) (p : prog storeE out) : Prop :=
  match ph with
  | None => st_get h p ∨ st_now h p ∨ st_put h p
  | Some (w, hw, now) =>
      (i = w ∧ p = Ret (won hw now)) ∨
      (i ≠ w ∧ (st_get h p ∨ st_now h p ∨ st_put h p ∨ st_retry h p ∨
         st_seen (won_record hw now) p ∨ p = Ret (lost (won_record hw now))))
  end.

Definition answer_of (ph : winner) (i : nat) (x : out) : Prop :=
  match ph with
  | None => False
  | Some (w, hw, now) => x = if bool_decide (i = w) then won hw now else lost (won_record hw now)
  end.

Record race_inv (ph : winner) (tr : list (option (nat * out))) (s : sys) : Prop := {
  ri_winner : ∀ w h now, ph = Some (w, h, now) → holders !! w = Some h ∧ c0 - skew ≤ now;
  ri_store : s_store s = race_store ph;
  ri_clock : c0 ≤ s_clock s;
  ri_pool : ∀ i t, s_pool s !! i = Some t → ∃ h, holders !! i = Some h ∧ station ph i h (t_prog t);
  ri_ended : ∀ i x, (i, x) ∈ ended tr → s_pool s !! i = None ∧ is_Some (holders !! i) ∧ answer_of ph i x;
  ri_once : NoDup (ended tr).*1;
  ri_all : ∀ i h, holders !! i = Some h → is_Some (s_pool s !! i) ∨ i ∈ (ended tr).*1 }.

Lemma race_init : race_inv None [] (MkSys m0 race_pool c0).
Proof.
  unfold race_pool. split; cbn; try done; try set_solver.
  - intros i t. rewrite lookup_map_seq_0, list_lookup_fmap. destruct (holders !! i) as [h|] eqn:E; [|done].
    intros [= <-]. exists h. split; [done|]. left. apply op_prog_get, Hholders.
    by apply list_elem_of_lookup_2 in E.
  - constructor.
  - intros i h Hi. left. rewrite lookup_map_seq_0, list_lookup_fmap, Hi. eauto.
Qed.
(** A call by a request that has not ended moves it to its next station. *)
Lemma station_call_free i h m c X (e : storeE X) k x m' :
  station None i h (Op e k) → m = m0 → c0 ≤ c → healthy_call norm m e x m' → clock_ok skew c e x →
  (m' = m0 ∧ station None i h (k x)) ∨
  ∃ now, c0 - skew ≤ now ∧ m' = race_store (Some (i, h, now)) ∧ k x = Ret (won h now).
Proof.
  intros Hst -> Hc Hcall Hclk. destruct Hst as [[_ Hst]|[Hst|Hst]].
  - destruct e as [|k'| |v [r|]| |]; try done. destruct Hst as [-> Hst]. destruct Hcall as [-> Hx].
    left. split; [done|]. right. left. apply Hst.
    destruct (m0 !! key) as [r|]; [by subst|]. destruct Hx as (err & -> & He). cbn. by rewrite He.
  - destruct e as [|k'| |v [r|]| |]; try done. cbn in Hst, Hclk. left. split; [done|].
    right. right. apply Hst. lia.
  - destruct e as [|k'| |v [r|]| |]; try done. destruct Hst as (-> & now & Hn & -> & Hok & _).
    cbn in Hcall. rewrite bool_decide_true in Hcall by done. destruct Hcall as [-> ->].
    right. by exists now.
Qed.

Lemma won_record_put h now : ¬ put_pred (<[key := won_record h now]> m0) v0 key.
Proof.
  unfold put_pred. rewrite lookup_insert_eq. destruct (Z.eqb_spec v0 0); cbn; [done|].
  intros [= E]. rewrite wrap64_id in E; [lia|]. unfold int64, MinInt64, MaxInt64 in *. lia.
Qed.

Lemma won_record_live h now t :
  h ≠ "" → c0 - skew ≤ now → t + skew + loss ≤ c0 + ttl → Expired (won_record h now) t = false.
Proof.
  intros Hh Hn Ht. pose proof (norm_expiry (claim h now) eq_refl Hh) as He.
  unfold won_record, Expired, After, ExpiresAt, stored, claim in *. cbn in *.
  apply Z.ltb_ge. lia.
Qed.

Lemma station_call_won w hw now i h c X (e : storeE X) k x m' :
  station (Some (w, hw, now)) i h (Op e k) → hw ≠ "" → (i ≠ w → hw ≠ h) → c0 - skew ≤ now → c0 ≤ c →
  c + 2 * skew + loss ≤ c0 + ttl →
  healthy_call norm (race_store (Some (w, hw, now))) e x m' → clock_ok skew c e x →
  m' = race_store (Some (w, hw, now)) ∧ station (Some (w, hw, now)) i h (k x).
Proof.
  intros [[_ ?]|[Hi Hst]] Hhw Hne Hn Hc0 Hc Hcall Hclk; [done|]. specialize (Hne Hi).
  assert (∀ p, st_seen (won_record hw now) p ∨ st_put h p ∨ st_retry h p ∨ p = Ret (lost (won_record hw now)) →
    station (Some (w, hw, now)) i h p) as Hto by (intros p Hp; right; tauto).
  assert (st_retry h (Op e k) → m' = race_store (Some (w, hw, now)) ∧ station (Some (w, hw, now)) i h (k x)) as Hretry.
  { intros Hr. destruct e as [|k'| |v [r|]| |]; try done. destruct Hr as [-> Hr]. cbn in Hcall.
    rewrite lookup_insert_eq in Hcall. destruct Hcall as [-> ->]. split; [done|]. apply Hto. left.
    apply Hr; unfold won_record; by rewrite stored_holder. }
  destruct Hst as [[Hst _]|[Hst|[Hst|[Hst|[Hst|Hst]]]]]; [by apply Hretry| | |by apply Hretry| |done].
  - destruct e as [|k'| |v [r|]| |]; try done. cbn in Hst, Hclk, Hcall. subst m'. split; [done|].
    apply Hto. right. left. apply Hst. lia.
  - destruct e as [|k'| |v [r|]| |]; try done. destruct Hst as (-> & n & _ & -> & _ & Hcf).
    cbn in Hcall. rewrite bool_decide_false in Hcall by apply won_record_put.
    destruct Hcall as (-> & err & -> & He). split; [done|]. apply Hto. by auto.
  - destruct e as [|k'| |v [r|]| |]; try done. cbn in Hst, Hclk, Hcall. subst m'. split; [done|].
    apply Hto. right. right. right. apply Hst, won_record_live; [done|done|lia].
Qed.
(** The invariant after a call that changes one request's station. *)
Lemma race_inv_call ph ph' tr s i t h p m' :
  race_inv ph tr s → s_pool s !! i = Some t → holders !! i = Some h →
  (∀ w hw now, ph' = Some (w, hw, now) → holders !! w = Some hw ∧ c0 - skew ≤ now) →
  m' = race_store ph' → station ph' i h p →
  (∀ j h' p', j ≠ i → station ph j h' p' → station ph' j h' p') →
  (∀ j x, answer_of ph j x → answer_of ph' j x) →
  race_inv ph' (tr ++ [None]) (MkSys m' (<[i := MkThread (t_op t) p (t_started t)]> (s_pool s)) (s_clock s)).
Proof.
  intros [Hw Hs Hc Hp He Hn Ha] Hi Hh Hw' Hm Hst Hothers Hans.
  assert (ended (tr ++ [None]) = ended tr) as Eend.
  { unfold ended. rewrite omap_app. apply app_nil_r. }
  split; rewrite ?Eend; cbn; try done.
  - intros j tj. rewrite lookup_insert_Some. intros [[<- <-]|[Hne Hj]]; [eauto|].
    destruct (Hp _ _ Hj) as (hj & Hhj & Hsj). exists hj. split; [done|]. by apply Hothers.
  - intros j x Hx. destruct (He _ _ Hx) as (Hj & Hhj & Hxj). split; [|split; [done|by apply Hans]].
    rewrite lookup_insert_ne; [done|]. intros <-. congruence.
  - intros j hj Hj. destruct (Ha _ _ Hj) as [Hs'|?]; [|by right]. left.
    rewrite lookup_insert. case_decide; eauto.
Qed.

Lemma race_inv_done ph tr m pool c i t x :
  race_inv ph tr (MkSys m pool c) → pool !! i = Some t → is_Some (holders !! i) → answer_of ph i x →
  race_inv ph (tr ++ [Some (i, x)]) (MkSys m (delete i pool) c).
Proof.
  intros [Hw Hs Hc Hp He Hn Ha] Hi Hh Hx. cbn in *.
  assert (ended (tr ++ [Some (i, x)]) = ended tr ++ [(i, x)]) as Eend by (unfold ended; by rewrite omap_app).
  assert (i ∉ (ended tr).*1) as Hnew.
  { intros ([i' x'] & -> & Hin)%list_elem_of_fmap. destruct (He _ _ Hin) as [? _]. cbn in *. congruence. }
  split; rewrite ?Eend; cbn; try done.
  - intros j tj [_ Hj]%lookup_delete_Some. by apply Hp.
  - intros j y [Hj|Hj%list_elem_of_singleton]%elem_of_app.
    + destruct (He _ _ Hj) as (Hj' & ? & ?). split; [|done]. rewrite lookup_delete. by case_decide.
    + injection Hj as -> ->. split; [apply lookup_delete_eq|done].
  - rewrite fmap_app. apply NoDup_app. split_and!; [done| |apply NoDup_singleton]. cbn. set_solver.
  - intros j hj Hj. rewrite fmap_app, elem_of_app, lookup_delete. cbn.
    destruct (decide (i = j)) as [->|Hne]; [right; right; apply list_elem_of_here|].
    destruct (Ha _ _ Hj); [by left|by right; left].
Qed.

Lemma race_inv_tick ph tr m pool c t :
  race_inv ph tr (MkSys m pool c) → c ≤ t → race_inv ph (tr ++ [None]) (MkSys m pool t).
Proof.
  intros [Hw Hs Hc Hp He Hn Ha] Ht.
  assert (ended (tr ++ [None]) = ended tr) as Eend. { unfold ended. rewrite omap_app. apply app_nil_r. }
  split; rewrite ?Eend; cbn in *; try done. lia.
Qed.

Lemma holder_nonempty i h : holders !! i = Some h → h ≠ "".
Proof. intros Hi%list_elem_of_lookup_2%Hholders. by intros ->. Qed.

Lemma race_step ph tr s l s' :
  race_inv ph tr s → hstep norm skew s l s' → s_clock s' + 2 * skew + loss ≤ c0 + ttl →
  ∃ ph', race_inv ph' (tr ++ [l]) s'.
Proof.
  intros Hinv Hstep Hclk.
  destruct Hstep as [m pool c i o st X e k x m' Hi Hcall Hck|m pool c i o st x Hi|m pool c t Ht]; cbn in Hclk.
  - destruct (ri_pool _ _ _ Hinv _ _ Hi) as (h & Hh & Hst).
    pose proof (ri_store _ _ _ Hinv) as Em. pose proof (ri_clock _ _ _ Hinv) as Hc0. cbn in Em, Hst, Hc0.
    destruct ph as [[[w hw] now]|].
    + destruct (ri_winner _ _ _ Hinv _ _ _ eq_refl) as [Hw Hn]. subst m.
      assert (i ≠ w → hw ≠ h) as Hdist. { intros Hne ->. apply Hne. by eapply NoDup_lookup. }
      destruct (station_call_won _ _ _ _ _ _ _ _ _ _ _ Hst (holder_nonempty _ _ Hw) Hdist Hn Hc0 Hclk Hcall Hck)
        as [-> Hst'].
      exists (Some (w, hw, now)).
      by eapply (race_inv_call _ _ _ (MkSys _ pool c) _ (MkThread o (Op e k) st)); try apply (ri_winner _ _ _ Hinv).
    + destruct (station_call_free _ _ _ _ _ _ _ _ _ Hst Em Hc0 Hcall Hck) as [[-> Hst']|(now & Hn & -> & Hx)].
      * exists None. by eapply (race_inv_call _ _ _ (MkSys _ pool c) _ (MkThread o (Op e k) st)).
      * exists (Some (i, h, now)).
        eapply (race_inv_call _ _ _ (MkSys _ pool c) _ (MkThread o (Op e k) st)); try done.
        -- by intros ? ? ? [= <- <- <-].
        -- by left.
        -- intros j hj pj Hj Hsj. right. split; [done|]. cbn in Hsj. tauto.
  - destruct (ri_pool _ _ _ Hinv _ _ Hi) as (h & Hh & Hst). cbn in Hst.
    exists ph. eapply race_inv_done; [done|done|by eexists|].
    destruct ph as [[[w hw] now]|]; [|by destruct Hst as [[[] _]|[[]|[]]]]. cbn.
    destruct Hst as [[-> Hx]|[Hne Hx]].
    + rewrite bool_decide_true by done. congruence.
    + rewrite bool_decide_false by done. destruct Hx as [[[] _]|[[]|[[]|[[]|[[]|Hx]]]]]. congruence.
  - exists ph. by eapply race_inv_tick.
Qed.
Lemma hstep_clock s l s' : hstep norm skew s l s' → s_clock s ≤ s_clock s'.
Proof. destruct 1; cbn; lia. Qed.

Lemma race_reach tr s :
  steps (hstep norm skew) (MkSys m0 race_pool c0) tr s → s_clock s + 2 * skew + loss ≤ c0 + ttl →
  ∃ ph, race_inv ph tr s.
Proof.
  remember (MkSys m0 race_pool c0) as s0 eqn:E0. induction 1 as [s|s tr s' l s'' Hs IH Hstep]; intros Hc; subst.
  - exists None. apply race_init.
  - pose proof (hstep_clock _ _ _ Hstep). destruct IH as [ph Hinv]; [done|lia|]. by eapply race_step.
Qed.

(** When all have ended: one winner, and everyone else was told of it. *)
Lemma race_result tr s :
  holders ≠ [] → steps (hstep norm skew) (MkSys m0 race_pool c0) tr s →
  s_clock s + 2 * skew + loss ≤ c0 + ttl → s_pool s = ∅ →
  ∃ w h now, holders !! w = Some h ∧ c0 - skew ≤ now ∧
    (ended tr).*1 ≡ₚ seq 0 (length holders) ∧
    s_store s = <[key := won_record h now]> m0 ∧
    ∀ i x, (i, x) ∈ ended tr → x = if bool_decide (i = w) then won h now else lost (won_record h now).
Proof.
  intros Hne Hrun Hc Hpool. destruct (race_reach _ _ Hrun Hc) as [ph [Hw Hs _ _ He Hn Ha]].
  assert (∀ i h, holders !! i = Some h → i ∈ (ended tr).*1) as Hall.
  { intros i h Hi. destruct (Ha _ _ Hi) as [Hp|?]; [|done]. rewrite Hpool, lookup_empty in Hp. by destruct Hp. }
  destruct ph as [[[w hw] now]|].
  - destruct (Hw _ _ _ eq_refl) as [Hwh Hnow]. exists w, hw, now. split_and!; [done|done| |done|].
    + apply NoDup_Permutation; [done|apply NoDup_seq|]. intros i. rewrite elem_of_seq. split.
      * intros ([i' x] & -> & Hin)%list_elem_of_fmap. destruct (He _ _ Hin) as (_ & Hi & _).
        apply lookup_lt_is_Some in Hi. cbn. lia.
      * intros Hi. destruct (lookup_lt_is_Some_2 holders i) as [h Hh]; [lia|]. by eapply Hall.
    + intros i x Hx. by destruct (He _ _ Hx) as (_ & _ & ?).
  - destruct holders as [|h hs] eqn:Eh; [done|]. specialize (Hall 0%nat h eq_refl).
    apply list_elem_of_fmap in Hall as ([i x] & _ & Hin). by destruct (He _ _ Hin) as (_ & _ & []).
Qed.
End race.

(** ** The verdicts *)

(** The tokens of the answers that said "acquired". *)
Definition token_of (x : out) : option Z :=
  match x with
  | OutLease (Ok a) => if aAcquired a then Some (aFencingToken a) else None
  | _ => None
  end.
Definition acquired_tokens (answers : list (nat * out)) : list Z := omap (λ p, token_of p.2) answers.

Definition acquire_failed (x : out) : bool :=
  match x with OutLease (Ok _) => false | _ => true end.

(** The end of the concurrent subtest: no [Acquire] failed, one won, under
    token 1. *)
Definition ConcurrentAcquireExactlyOneWinner (answers : list (nat * out)) : result unit :=
  if existsb (λ p, acquire_failed p.2) answers then Err (ErrMsg "Acquire")
  else
    match acquired_tokens answers with
    | [tok] => if tok =? 1 then Ok () else Err (ErrMsg "winner token, want 1")
    | _ => Err (ErrMsg "winners, want 1")
    end.

(** The end of a failover round: no [Acquire] failed, and one standby won,
    under the token the teardown then releases. *)
Definition failover_winner (answers : list (nat * out)) : result Z :=
  if existsb (λ p, acquire_failed p.2) answers then Err (ErrMsg "standby acquire")
  else
    match acquired_tokens answers with
    | [tok] => Ok tok
    | _ => Err (ErrMsg "failover winners, want exactly 1")
    end.

Definition racers (prefix : string) (n : nat) : list string :=
  (λ i, prefix +:+ (if (i <? 10)%nat then "0" else "") +:+ FormatInt (Z.of_nat i)) <$> seq 0 n.

Lemma acquired_tokens_none l : (∀ i x, (i, x) ∈ l → token_of x = None) → acquired_tokens l = [].
Proof.
  induction l as [|[i x] l IH]; intros Hl; [done|]. unfold acquired_tokens in *. cbn.
  rewrite (Hl i x (list_elem_of_here _ _)). apply IH. intros j y Hy. apply (Hl j). set_solver.
Qed.

Lemma acquired_tokens_one l w tok :
  NoDup l.*1 → w ∈ l.*1 →
  (∀ i x, (i, x) ∈ l → token_of x = if bool_decide (i = w) then Some tok else None) →
  acquired_tokens l = [tok].
Proof.
  intros Hn Hw Hl. apply list_elem_of_fmap in Hw as ([w' x0] & -> & Hin). cbn in Hl.
  apply list_elem_of_split in Hin as (l1 & l2 & ->). rewrite fmap_app in Hn. cbn in Hn.
  apply NoDup_app in Hn as (_ & Hd & [Hw2 _]%NoDup_cons).
  assert (∀ i x, (i, x) ∈ l1 ∨ (i, x) ∈ l2 → token_of x = None) as Hrest.
  { intros i x Hix. rewrite (Hl i x) by set_solver. rewrite bool_decide_false; [done|]. intros ->.
    destruct Hix as [Hix|Hix].
    - apply (Hd w'); [|set_solver]. apply list_elem_of_fmap. by exists (w', x).
    - apply Hw2. apply list_elem_of_fmap. by exists (w', x). }
  pose proof (Hl w' x0 ltac:(set_solver)) as H0. rewrite bool_decide_true in H0 by done.
  unfold acquired_tokens. rewrite omap_app. cbn. rewrite H0.
  fold (acquired_tokens l1) (acquired_tokens l2).
  rewrite !acquired_tokens_none by naive_solver. done.
Qed.

(** ** A scheduler *)

Inductive ract := RRun (i : nat) | RTick (t : Z).

Definition hexec1 (a : ract) (s : sys) : option (option (nat * out) * sys) :=
  let '(MkSys m pool c) := s in
  match a with
  | RRun i =>
      match pool !! i with
      | Some (MkThread o (Op e k) st) =>
          let '(x, m') := impl_handler None c e (MkMemStore m) in
          Some (None, MkSys (records m') (<[i := MkThread o (k x) st]> pool) c)
      | Some (MkThread o (Ret x) _) => Some (Some (i, x), MkSys m (delete i pool) c)
      | None => None
      end
  | RTick t => if c <=? t then Some (None, MkSys m pool t) else None
  end.

Fixpoint hexec (l : list ract) (s : sys) : option (list (option (nat * out)) * sys) :=
  match l with
  | [] => Some ([], s)
  | a :: l =>
      match hexec1 a s with
      | Some (x, s') => match hexec l s' with Some (tr, s'') => Some (x :: tr, s'') | None => None end
      | None => None
      end
  end.

Lemma hexec1_sound a s x s' : hexec1 a s = Some (x, s') → hstep id 0 s x s'.
Proof.
  destruct s as [m pool c]. destruct a as [i|t]; cbn.
  - destruct (pool !! i) as [[o [y|X e k] st]|] eqn:Hi; [| |done].
    + intros [= <- <-]. by eapply hstep_done.
    + destruct (impl_handler None c e (MkMemStore m)) as [y m'] eqn:Hx. intros [= <- <-].
      pose proof (mem_healthy c X (CCall false e) (MkMemStore m)) as Hh. cbn in Hh. rewrite Hx in Hh.
      eapply hstep_op; [done|exact Hh|]. destruct e; cbn in *; try done. simplify_eq. lia.
  - destruct (Z.leb_spec c t); [|done]. intros [= <- <-]. by apply hstep_tick.
Qed.

Lemma hexec_sound l s tr s' : hexec l s = Some (tr, s') → steps (hstep id 0) s tr s'.
Proof.
  revert s tr. induction l as [|a l IH]; intros s tr; cbn; [intros [= <- <-]; constructor|].
  destruct (hexec1 a s) as [[x s1]|] eqn:E1; [|done].
  destruct (hexec l s1) as [[tr1 s2]|] eqn:E2; [|done]. intros [= <- <-].
  change (x :: tr1) with ([x] ++ tr1). eapply steps_app; [|by apply IH].
  apply (steps_snoc _ s [] s x s1); [apply steps_nil|by apply (hexec1_sound a)].
Qed.

(** ** The theorem *)


(** Sixteen holders as in the subtest: all read first, so fifteen lose the
    compare-and-swap and read again. *)
Definition race_key : Key := MkKey "ns" "a".
Definition race_holders : list string := racers "holder-" 16.
Definition race_start : sys := MkSys ∅ (race_pool race_key Minute Second race_holders) Second.
Definition race_acts : list ract :=
  concat (replicate 3 (RRun <$> seq 0 16)) ++ [RTick (2 * Second)] ++
  concat (replicate 3 (RRun <$> seq 1 15)) ++ [RRun 0].
Definition race_trace : list (option (nat * out)) := from_option fst [] (hexec race_acts race_start).
Definition race_end : sys := from_option snd race_start (hexec race_acts race_start).

