(* ===== verification/ApiServer.v ===== *)
(** * Starting the API server

    [cmd/apiserver] and [internal/api/server.go]: from the command line to a
    listening server. Flags are resolved and checked, the store and the
    authenticator are built, and only then does the server listen. Texts of
    errors are shortened; logging and metrics are left out. *)

From S2P Require Import Prelude GoStrings Store TTL AcquireConfig K8sStore SqlStore Json Operator Auth.

(** ** The store *)

Definition storeBackendUnset : string := "".
Definition storeBackendMem : string := "mem".
Definition storeBackendK8s : string := "k8s".
Definition storeBackendSQL : string := "sql".
Definition sqlDriverPostgres : string := "postgres".
Definition sqlDriverMySQL : string := "mysql".
Definition sqlDriverSQLite : string := "sqlite".
Definition sqlMigrateAuto : string := "auto".
Definition sqlMigrateOff : string := "off".

(** The rate-limit flag is a floating-point number; its text is kept. *)
Record storeConfig := MkStoreConfig {
  scBackend : string;
  coordinationKubeconfig : string;
  coordinationNamespace : string;
  coordinationQPS : string;
  coordinationBurst : Z;
  sqlDriver : string;
  sqlDSN : string;
  sqlDSNFile : string;
  sqlMigrate : string }.

Definition resolveStoreBackend (cfg : storeConfig) : result string :=
  if scBackend cfg != storeBackendUnset then
    if (scBackend cfg == storeBackendMem) || (scBackend cfg == storeBackendK8s) || (scBackend cfg == storeBackendSQL)
    then Ok (scBackend cfg) else Err (ErrMsg "--store-backend must be one of mem, k8s, sql")
  else Ok (if coordinationNamespace cfg != "" then storeBackendK8s else storeBackendMem).

Definition validateStoreConfig (backend : string) (cfg : storeConfig) : result unit :=
  let hasCoordinationFlags := (coordinationNamespace cfg != "") || (coordinationKubeconfig cfg != "") in
  let hasSQLFlags := (sqlDriver cfg != "") || (sqlDSN cfg != "") || (sqlDSNFile cfg != "") || (sqlMigrate cfg != "") in
  if backend == storeBackendMem then
    if hasCoordinationFlags then Err (ErrMsg "--coordination-* flags are only valid with --store-backend=k8s")
    else if hasSQLFlags then Err (ErrMsg "--sql-* flags are only valid with --store-backend=sql")
    else Ok ()
  else if backend == storeBackendK8s then
    if coordinationNamespace cfg == "" then Err (ErrMsg "--coordination-namespace is required")
    else if hasSQLFlags then Err (ErrMsg "--sql-* flags are only valid with --store-backend=sql")
    else Ok ()
  else if backend == storeBackendSQL then
    if hasCoordinationFlags then Err (ErrMsg "--coordination-* flags are only valid with --store-backend=k8s")
    else if negb ((sqlDriver cfg == sqlDriverPostgres) || (sqlDriver cfg == sqlDriverMySQL) ||
                  (sqlDriver cfg == sqlDriverSQLite))
    then if sqlDriver cfg == "" then Err (ErrMsg "--sql-driver is required")
         else Err (ErrMsg "--sql-driver must be one of postgres, mysql, sqlite")
    else if (sqlDSN cfg == "") && (sqlDSNFile cfg == "")
    then Err (ErrMsg "one of --sql-dsn or --sql-dsn-file is required")
    else if (sqlDSN cfg != "") && (sqlDSNFile cfg != "")
    then Err (ErrMsg "--sql-dsn and --sql-dsn-file are mutually exclusive")
    else if negb ((sqlMigrate cfg == "") || (sqlMigrate cfg == sqlMigrateAuto) || (sqlMigrate cfg == sqlMigrateOff))
    then Err (ErrMsg "--sql-migrate must be one of auto, off")
    else Ok ()
  else Err (ErrMsg "internal error: unknown backend").

(** What is built: the in-memory store, a namespace of the coordination
    cluster, or an opened database. *)
Inductive store_kind := StoreMem | StoreK8s (namespace : string) | StoreSQL (d : dialect).

(** ** Authentication *)

Definition authModeNone : string := "none".
Definition authModeStaticKeys : string := "static-keys".
Definition authModeOIDC : string := "oidc".
Definition exitCodeConfigError : Z := 1.

Inductive authenticator := AuthStatic (a : StaticAuthenticator) | AuthOIDC (a : OIDCAuthenticator).

Definition resolveAuthMode (authMode backend : string) : string :=
  if authMode != "" then authMode
  else if backend == storeBackendMem then authModeNone else authModeStaticKeys.

(** [None] is the nil authenticator of the explicit no-auth mode. *)
Definition buildAuthenticator `{OIDCLibrary} (fs : string → file_read) (mode keysFile : string) (oidc : OIDCConfig)
    : result (option authenticator) :=
  if mode == authModeNone then Ok None
  else if mode == authModeStaticKeys then
    if keysFile == "" then Err (ErrMsg "--api-keys-file is required when --auth-mode=static-keys")
    else a ← wrap_err "load static keys" (NewStaticAuthenticatorFromKeysFile fs keysFile); Ok (Some (AuthStatic a))
  else if mode == authModeOIDC then
    if IssuerURL oidc == "" then Err (ErrMsg "--oidc-issuer-url is required when --auth-mode=oidc")
    else if Audience oidc == "" then Err (ErrMsg "--oidc-audience is required when --auth-mode=oidc")
    else a ← wrap_err "init oidc authenticator" (NewOIDCAuthenticator oidc); Ok (Some (AuthOIDC a))
  else Err (ErrMsg "--auth-mode must be none, static-keys, or oidc").

(** The [--oidc-required-claim] flag, once per use. *)
Definition requiredClaim (s : string) (claims : gmap string string) : result (gmap string string) :=
  match cut "=" s with
  | (_, None) => Err (ErrMsg "expected key=value")
  | (k, Some v) => if k == "" then Err (ErrMsg "expected key=value") else Ok (<[k := v]> claims)
  end.

(** A SIGHUP reloads the keys of authenticators that have any. *)
Definition onSIGHUP (fs : string → file_read) (a : authenticator) : authenticator :=
  match a with
  | AuthStatic s => AuthStatic (Reload fs s).2
  | AuthOIDC o => AuthOIDC o
  end.

(** ** Logging flags *)

Definition lower (c : ascii) : ascii :=
  let n := Ascii.nat_of_ascii c in
  if ((65 <=? n) && (n <=? 90))%nat then Ascii.ascii_of_nat (n + 32) else c.

(** [strings.ToLower], exact on ASCII text. *)
Fixpoint ToLower (s : string) : string :=
  match s with EmptyString => EmptyString | String c s' => String (lower c) (ToLower s') end.

Inductive level := LevelDebug | LevelInfo | LevelWarn | LevelError.

Definition parseLogLevel (l : string) : result level :=
  let l := ToLower l in
  if l == "debug" then Ok LevelDebug
  else if l == "info" then Ok LevelInfo
  else if (l == "warn") || (l == "warning") then Ok LevelWarn
  else if l == "error" then Ok LevelError
  else Err (ErrMsg "--log-level must be one of debug, info, warn (or warning), error").

(** Whether the handler writes JSON. *)
Definition newLogHandler (format : string) (lvl : level) : result (bool * level) :=
  let format := ToLower format in
  if format == "json" then Ok (true, lvl)
  else if format == "text" then Ok (false, lvl)
  else Err (ErrMsg "--log-format must be json or text").

Definition setupLogging (format l : string) : result (bool * level) :=
  lvl ← parseLogLevel l; newLogHandler format lvl.

(** ** The server *)

Definition defaultReadHeaderTimeout : Z := 5 * Second.
Definition defaultReadTimeout : Z := 15 * Second.
Definition defaultWriteTimeout : Z := 15 * Second.
Definition defaultIdleTimeout : Z := 120 * Second.
Definition defaultShutdownTimeout : Z := 5 * Second.

Record serverConfig := MkServer {
  svAddress : string; svTLSCert : string; svTLSKey : string;
  svReadHeader : Z; svRead : Z; svWrite : Z; svIdle : Z }.

Definition WithAddress (a : string) (c : serverConfig) : serverConfig :=
  MkServer a (svTLSCert c) (svTLSKey c) (svReadHeader c) (svRead c) (svWrite c) (svIdle c).

Definition WithTLSFiles (cert key : string) (c : serverConfig) : serverConfig :=
  MkServer (svAddress c) cert key (svReadHeader c) (svRead c) (svWrite c) (svIdle c).

Definition WithTimeouts (readHeader read write idle : Z) (c : serverConfig) : serverConfig :=
  let pick v old := if v >? 0 then v else old in
  MkServer (svAddress c) (svTLSCert c) (svTLSKey c) (pick readHeader (svReadHeader c)) (pick read (svRead c))
    (pick write (svWrite c)) (pick idle (svIdle c)).

Definition NewServer (opts : list (serverConfig → serverConfig)) : serverConfig :=
  foldl (λ c opt, opt c)
    (MkServer ":8443" "" "" defaultReadHeaderTimeout defaultReadTimeout defaultWriteTimeout defaultIdleTimeout) opts.

Definition validateTLS (s : serverConfig) : result unit :=
  if (svTLSCert s == "") || (svTLSKey s == "") then Err (ErrMsg "tls cert and key files are required") else Ok ().

(** What the server listens with. *)
Record plan := MkPlan {
  pl_store : store_kind; pl_gc : option TTLEnforcer; pl_authn : option authenticator; pl_server : serverConfig }.

Inductive startE : Type → Type :=
| SReadFile (path : string) : startE (result string)
| SKeysFile (path : string) : startE file_read
| SClientset (kubeconfig qps : string) (burst : Z) : startE (result unit)
| SSql {X : Type} (e : sqlE X) : startE X
| SListen (p : plan) : startE (option (result unit))
| SShutdown (timeout : Z) : startE (result unit)
| SServeExit : startE (result unit).

(** ** The startup sequence *)

Definition resolveSQLDSN (cfg : storeConfig) : prog startE (result string) :=
  if sqlDSN cfg != "" then mret (Ok (sqlDSN cfg))
  else
    data ← trigger (SReadFile (sqlDSNFile cfg));
    mret (match data with
          | Err e => Err (ErrWrap "read --sql-dsn-file" e)
          | Ok data => if TrimSpace data == "" then Err (ErrMsg "--sql-dsn-file is empty") else Ok (TrimSpace data)
          end).

Definition buildStore `{MySQLDriver} (backend : string) (cfg : storeConfig) : prog startE (result store_kind) :=
  if backend == storeBackendMem then mret (Ok StoreMem)
  else if backend == storeBackendK8s then
    cs ← trigger (SClientset (coordinationKubeconfig cfg) (coordinationQPS cfg) (coordinationBurst cfg));
    mret (match cs with
          | Err e => Err e
          | Ok _ => ns ← NewK8sLeaseStore false (coordinationNamespace cfg); Ok (StoreK8s ns)
          end)
  else if backend == storeBackendSQL then
    dsn ← resolveSQLDSN cfg;
    match dsn with
    | Err e => mret (Err e)
    | Ok dsn =>
      let mig := if sqlMigrate cfg == "" then MigrateAuto else sqlMigrate cfg in
      d ← lift (@SSql) (SqlStore.New (SqlStore.MkConfig (sqlDriver cfg) dsn mig));
      mret (match d with Err e => Err e | Ok d => Ok (StoreSQL d) end)
    end
  else mret (Err (ErrMsg "internal error: unknown backend")).

(** The keys file is read only in its mode. *)
Definition start_authenticator `{OIDCLibrary} (mode keysFile : string) (oidc : OIDCConfig)
    : prog startE (result (option authenticator)) :=
  if (mode == authModeStaticKeys) && (keysFile != "") then
    content ← trigger (SKeysFile keysFile);
    mret (buildAuthenticator (λ _, content) mode keysFile oidc)
  else mret (buildAuthenticator (λ _, Err ErrNotExist) mode keysFile oidc).

Definition ErrServerClosed : error := ErrMsg "http: Server closed".

(** [Server.Start]: listen until the server exits or the context is cancelled,
    then shut down within its timeout. *)
Definition server_Start (p : plan) : prog startE (result unit) :=
  match validateTLS (pl_server p) with
  | Err e => mret (Err e)
  | Ok _ =>
    exited ← trigger (SListen p);
    match exited with
    | Some r => mret r
    | None =>
      sh ← trigger (SShutdown defaultShutdownTimeout);
      match sh with
      | Err e => mret (Err (ErrWrap "shutdown server" e))
      | Ok _ => trigger SServeExit
      end
    end
  end.

(** The flags of the server. *)
Record serverFlags := MkServerFlags {
  listenAddr : string; tlsCert : string; tlsKey : string; storeCfg : storeConfig;
  authMode : string; apiKeysFile : string; oidcCfg : OIDCConfig;
  gcIntervalFlag : Z; gcGraceFlag : Z; logLevel : string; logFormat : string }.

(** [run]: the exit code. *)
Definition apiserver_run `{MySQLDriver} `{OIDCLibrary} (f : serverFlags) : prog startE Z :=
  match setupLogging (logFormat f) (logLevel f) with
  | Err _ => mret exitCodeConfigError
  | Ok _ =>
    match resolveStoreBackend (storeCfg f) with
    | Err _ => mret exitCodeConfigError
    | Ok backend =>
      match validateStoreConfig backend (storeCfg f) with
      | Err _ => mret exitCodeConfigError
      | Ok _ =>
        let mode := resolveAuthMode (authMode f) backend in
        store ← buildStore backend (storeCfg f);
        match store with
        | Err _ => mret exitCodeConfigError
        | Ok store =>
          let gc := if gcIntervalFlag f >? 0 then Some (NewTTLEnforcer (gcIntervalFlag f) (gcGraceFlag f)) else None in
          authn ← start_authenticator mode (apiKeysFile f) (oidcCfg f);
          match authn with
          | Err _ => mret exitCodeConfigError
          | Ok authn =>
            let srv := NewServer [WithAddress (listenAddr f); WithTLSFiles (tlsCert f) (tlsKey f)] in
            r ← server_Start (MkPlan store gc authn srv);
            mret (match r with
                  | Ok _ => 0
                  | Err e => if errors_Is e ErrServerClosed then 0 else 1
                  end)
          end
        end
      end
    end
  end.

(** ** What the server listens with *)

(** The only event that matters: listening. *)
Definition listen_event (X : Type) (e : startE X) (_ : X) : option plan :=
  match e with SListen p => Some p | _ => None end.

(** The store is the one the flags select, and no other backend's flags are set. *)
Definition store_selected (cfg : storeConfig) (k : store_kind) : Prop :=
  match k with
  | StoreMem => scBackend cfg = storeBackendMem ∨ scBackend cfg = "" ∧ coordinationNamespace cfg = ""
  | StoreK8s ns => ns = coordinationNamespace cfg ∧ ns ≠ "" ∧ sqlDriver cfg = ""
  | StoreSQL d => dialectFor (sqlDriver cfg) = Ok d ∧ scBackend cfg = storeBackendSQL ∧ coordinationNamespace cfg = ""
  end.

(** Whether the flags ask for an unauthenticated server. *)
Definition unauthenticated (f : serverFlags) (k : store_kind) : Prop :=
  authMode f = authModeNone ∨ authMode f = "" ∧ k = StoreMem.

Definition plan_ok (f : serverFlags) (p : plan) : Prop :=
  store_selected (storeCfg f) (pl_store p) ∧
  (pl_authn p = None ↔ unauthenticated f (pl_store p)) ∧
  svTLSCert (pl_server p) ≠ "" ∧ svTLSKey (pl_server p) ≠ "" ∧
  0 < svReadHeader (pl_server p) ∧ 0 < svRead (pl_server p) ∧ 0 < svWrite (pl_server p) ∧
  (is_Some (pl_gc p) ↔ 0 < gcIntervalFlag f).

(** ** Proofs *)

(** Every result a program can give. *)
Fixpoint results {E A} (p : prog E A) (Q : A → Prop) : Prop :=
  match p with
  | Ret a => Q a
  | Op e k => ∀ x, results (k x) Q
  end.

Lemma results_bind {E A B} (p : prog E A) (f : A → prog E B) Q :
  results (p ≫= f) Q ↔ results p (λ a, results (f a) Q).
Proof. induction p as [a|X e k IH]; cbn; [done|]. split; intros Hk x; by apply IH. Qed.

Lemma results_true {E A} (p : prog E A) : results p (λ _, True).
Proof. by induction p; cbn. Qed.

Lemma results_mono {E A} (p : prog E A) (Q Q' : A → Prop) :
  (∀ a, Q a → Q' a) → results p Q → results p Q'.
Proof. intros HQ. induction p as [a|X e k IH]; cbn; [apply HQ|]. intros Hk x. by apply IH. Qed.

Lemma results_op {E A X} (e : E X) (k : X → prog E A) Q :
  (∀ x, results (k x) Q) → results (trigger e ≫= k) Q.
Proof. done. Qed.

(** Whatever the first part gives. *)
Lemma results_skip {E A B} (p : prog E A) (f : A → prog E B) Q :
  (∀ a, results (f a) Q) → results (p ≫= f) Q.
Proof. intros Hf. apply results_bind. eapply results_mono; [|apply results_true]. intros a _. apply Hf. Qed.

(** A store that opens is of the configured dialect. *)
Lemma open_store_dialect cfg d mig dsn : results (open_store cfg d mig dsn) (λ r, ∀ d', r = Ok d' → d' = d).
Proof.
  unfold open_store. apply results_op. intros [e|[]]; [done|]. apply results_skip. intros _.
  apply results_op. intros [e|[]]; [by apply results_op|]. apply results_skip. intros [[]|e]; [|by apply results_op].
  cbn. by intros ? [= <-].
Qed.

Lemma New_dialect `{MySQLDriver} cfg :
  results (SqlStore.New cfg) (λ r, ∀ d, r = Ok d → dialectFor (cfgDriver cfg) = Ok d).
Proof.
  unfold SqlStore.New. destruct (dialectFor (cfgDriver cfg)) as [d|e]; [|done].
  repeat case_match; try done;
    (eapply results_mono; [|apply open_store_dialect]; intros r Hr d' E; by rewrite (Hr d' E)).
Qed.

Section startup.
Context `{MySQLDriver} `{OIDCLibrary} (f : serverFlags).

Definition listens_ok (pre : list (option plan)) (v : option plan) : Prop :=
  match v with Some p => plan_ok f p | None => True end.

Abbreviation swp := (wp listen_event listens_ok).

Lemma wp_lift_sql {A} (p : prog sqlE A) Q pre :
  results p Q → swp pre (lift (@SSql) p) (λ a _, Q a).
Proof. revert pre. induction p as [a|X e k IH]; intros pre; cbn; [done|]. intros Hk x. split; [done|]. by apply IH. Qed.

Lemma wp_resolveSQLDSN pre : swp pre (resolveSQLDSN (storeCfg f)) (λ _ _, True).
Proof. unfold resolveSQLDSN. case_match; [done|]. intros x. by split. Qed.

(** What the checks of the flags give for each backend. *)
Lemma resolved_backend backend cfg :
  resolveStoreBackend cfg = Ok backend →
  scBackend cfg = backend ∨
  scBackend cfg = "" ∧ backend = (if coordinationNamespace cfg != "" then storeBackendK8s else storeBackendMem).
Proof.
  unfold resolveStoreBackend. destruct (scBackend cfg != storeBackendUnset) eqn:E; bool_simp.
  - match goal with |- (if ?b then _ else _) = _ → _ => destruct b; [|done] end. intros [= ->]. by left.
  - intros [= <-]. by right.
Qed.

Lemma validated backend cfg :
  resolveStoreBackend cfg = Ok backend → validateStoreConfig backend cfg = Ok () →
  (backend = storeBackendMem ∧ (scBackend cfg = storeBackendMem ∨ scBackend cfg = "" ∧ coordinationNamespace cfg = "")) ∨
  (backend = storeBackendK8s ∧ coordinationNamespace cfg ≠ "" ∧ sqlDriver cfg = "") ∨
  (backend = storeBackendSQL ∧ scBackend cfg = storeBackendSQL ∧ coordinationNamespace cfg = "").
Proof.
  unfold validateStoreConfig. intros Hr%resolved_backend Hv.
  destruct (backend == storeBackendMem) eqn:E1; bool_simp.
  { left. split; [done|]. destruct Hr as [->|[Hs Hb]]; [by left|right]. split; [done|].
    destruct (coordinationNamespace cfg != "") eqn:E2; bool_simp; [|done]. by rewrite E1 in Hb. }
  destruct (backend == storeBackendK8s) eqn:E2; bool_simp.
  { right. left. destruct (coordinationNamespace cfg == "") eqn:E3; [done|]. bool_simp.
    match type of Hv with (if ?b then _ else _) = _ => destruct b eqn:E4; [done|] end. by bool_simp. }
  destruct (backend == storeBackendSQL) eqn:E3; bool_simp; [|done]. right. right.
  destruct ((coordinationNamespace cfg != "") || (coordinationKubeconfig cfg != "")) eqn:E4; [done|]. bool_simp.
  split_and!; [done| |done]. destruct Hr as [->|[Hs Hb]]; [done|].
  destruct (coordinationNamespace cfg != "") in Hb; by subst.
Qed.

Lemma wp_buildStore backend pre :
  resolveStoreBackend (storeCfg f) = Ok backend → validateStoreConfig backend (storeCfg f) = Ok () →
  swp pre (buildStore backend (storeCfg f)) (λ r _, ∀ k, r = Ok k →
    store_selected (storeCfg f) k ∧ (backend = storeBackendMem ↔ k = StoreMem)).
Proof.
  intros Hb Hv. unfold buildStore.
  destruct (validated backend (storeCfg f) Hb Hv) as [[-> Hsel]|[(-> & Hns & Hd)|(-> & Hs & Hns)]].
  - by intros k [= <-].
  - cbn -[bool_decide]. intros cs. split; [done|]. destruct cs as [[]|e]; [|done]. cbn.
    unfold NewK8sLeaseStore. rewrite (bool_decide_false _ Hns). by intros k [= <-].
  - change (storeBackendSQL == storeBackendMem) with false. change (storeBackendSQL == storeBackendK8s) with false.
    change (storeBackendSQL == storeBackendSQL) with true. cbv iota.
    apply wp_bind. eapply wp_mono; [|apply wp_resolveSQLDSN]. intros [dsn|e] tr _; [|done].
    apply wp_bind. eapply wp_mono; [|apply wp_lift_sql, New_dialect]. cbn. intros [d|e] tr' Hd k; [|done].
    intros [= <-]. split; [|done]. split; [by apply Hd|done].
Qed.

Lemma buildAuthenticator_none fs mode keysFile oidc a :
  buildAuthenticator fs mode keysFile oidc = Ok a → (a = None ↔ mode = authModeNone).
Proof.
  unfold buildAuthenticator. destruct (mode == authModeNone) eqn:E; bool_simp; [by intros [= <-]|].
  destruct (mode == authModeStaticKeys).
  { case_match; [done|]. intros (s & _ & [= <-])%result_bind_ok. done. }
  destruct (mode == authModeOIDC); [|done].
  do 2 (case_match; [done|]). intros (s & _ & [= <-])%result_bind_ok. done.
Qed.

Lemma resolveAuthMode_none backend k :
  (backend = storeBackendMem ↔ k = StoreMem) →
  resolveAuthMode (authMode f) backend = authModeNone ↔ unauthenticated f k.
Proof.
  unfold resolveAuthMode, unauthenticated. intros Hk. destruct (authMode f != "") eqn:E; bool_simp.
  - naive_solver.
  - rewrite E. destruct (backend == storeBackendMem) eqn:E2; bool_simp; naive_solver.
Qed.

Lemma wp_start_authenticator mode pre :
  swp pre (start_authenticator mode (apiKeysFile f) (oidcCfg f))
    (λ r _, ∀ a, r = Ok a → (a = None ↔ mode = authModeNone)).
Proof.
  unfold start_authenticator. case_match; [intros x; split; [done|]|]; intros a; apply buildAuthenticator_none.
Qed.

(** A server that starts listens with a valid plan, or ends with code 1. *)
Lemma wp_server_Start p pre :
  (svTLSCert (pl_server p) ≠ "" → svTLSKey (pl_server p) ≠ "" → plan_ok f p) →
  swp pre (server_Start p) (λ r tr,
    (∃ e, r = Err e ∧ errors_Is e ErrServerClosed = false) ∨ ∃ q, Some q ∈ tr).
Proof.
  intros Hp. unfold server_Start, validateTLS.
  destruct ((svTLSCert (pl_server p) == "") || (svTLSKey (pl_server p) == "")) eqn:E.
  { left. by eexists. }
  bool_simp. apply wp_op. intros x. split; [by apply Hp|].
  assert (∀ l, ∃ q, Some q ∈ (pre ++ [listen_event _ (SListen p) x]) ++ l) as Hin.
  { intros l. exists p. rewrite !elem_of_app. left. right. by apply list_elem_of_singleton. }
  destruct x as [r|]; [right; specialize (Hin []); by rewrite app_nil_r in Hin|].
  apply wp_op. intros [[]|e]; (split; [done|]); [|right; apply Hin].
  intros r. split; [done|]. right. rewrite <- app_assoc. apply Hin.
Qed.
End startup.

(** ** The theorem *)


#[local] Instance plain_dsn : MySQLDriver := λ dsn, Ok (None, dsn).
#[local] Instance no_oidc : OIDCLibrary := {|
  DiscoverJWKS _ := Err (ErrMsg "unreachable"); VerifyToken _ _ _ _ := Err (ErrMsg "unreachable") |}.

(** One usable keys file, and a server that exits when it is told to. *)
Definition demo_start (X : Type) (e : startE X) (s : db) : X * db :=
  match e with
  | SReadFile _ => (Ok "file:berth.db", s)
  | SKeysFile _ => (Ok (demo_keys, None), s)
  | SClientset _ _ _ => (Ok (), s)
  | SSql e' => sql_mem _ e' s
  | SListen _ => (None, s)
  | SShutdown _ => (Ok (), s)
  | SServeExit => (Err ErrServerClosed, s)
  end.

Definition demo_flags : serverFlags :=
  MkServerFlags ":8443" "/tls/tls.crt" "/tls/tls.key"
    (MkStoreConfig "sql" "" "" "" 0 "sqlite" "" "/etc/berth/dsn" "off")
    "" "/etc/berth/keys" (MkOIDCConfig "" "" "" ∅ "" "") (30 * Second) (5 * Minute) "info" "json".

