(* ===== verification/OperatorMain.v ===== *)
(** * The operator process

    [cmd/operator/main.go]: flags to a checked configuration, and the sequence
    that builds the manager, the lease client, the admission handlers, the
    reconciler and the injection webhook before it starts. The flag parser's
    result is the input; logging is left out. *)

From S2P Require Import Prelude GoStrings GoPath Store State ClientAuth AcquireConfig Manager Renewer Client Json Operator Reconciler Webhook.

(** ** Flags *)

Definition tokenFileCacheTTL : Z := Second.
Definition readyzPingTimeout : Z := 5 * Second.

(** The variables the flags are bound to, after parsing. *)
Record operatorFlags := MkOperatorFlags {
  o_metricsAddr : string; o_probeAddr : string; o_apiServerURL : string;
  o_apiKey : string; o_apiKeyFile : string; o_clusterID : string; o_caBundleFile : string;
  o_enableWebhook : bool; o_managedWorkloads : bool; o_operatorUser : string; o_operatorNamespace : string;
  o_injHelperImage : string; o_injPullPolicy : string; o_injControlPlaneNS : string;
  o_injAPIKeyFile : string; o_injAPIKeySecret : string; o_injAPIKeySecretKey : string;
  o_injCABundleFile : string; o_injCABundleCM : string; o_injCABundleKey : string; o_injStateDir : string;
  o_injDefaultMode : string; o_injDefaultEnforce : string; o_injDefaultTTLSecs : Z;
  o_serverName : string; o_insecureSkipVerify : bool; o_secureMetrics : bool;
  o_leaderElect : bool; o_leaderElectionID : string; o_leaseDuration : Z; o_renewDeadline : Z; o_retryPeriod : Z }.

(** Their default values. *)
Definition operator_defaults : operatorFlags := {|
  o_metricsAddr := ":8080"; o_probeAddr := ":8081"; o_apiServerURL := "";
  o_apiKey := ""; o_apiKeyFile := ""; o_clusterID := ""; o_caBundleFile := "";
  o_enableWebhook := false; o_managedWorkloads := false; o_operatorUser := ""; o_operatorNamespace := "";
  o_injHelperImage := ""; o_injPullPolicy := "IfNotPresent"; o_injControlPlaneNS := "berth-system";
  o_injAPIKeyFile := ""; o_injAPIKeySecret := ""; o_injAPIKeySecretKey := "token";
  o_injCABundleFile := ""; o_injCABundleCM := ""; o_injCABundleKey := "ca.crt"; o_injStateDir := DefaultStateDir;
  o_injDefaultMode := ModeRuntimeSingleton; o_injDefaultEnforce := EnforceProbe; o_injDefaultTTLSecs := 30;
  o_serverName := ""; o_insecureSkipVerify := false; o_secureMetrics := false;
  o_leaderElect := false; o_leaderElectionID := "berth-operator-leader";
  o_leaseDuration := 15 * Second; o_renewDeadline := 10 * Second; o_retryPeriod := 2 * Second |}.

Definition splitCSV (s : string) : list string :=
  filter (λ p, p ≠ "") (TrimSpace <$> Split "," s).

Record operatorConfig := MkOperatorConfig {
  metricsAddr : string; probeAddr : string; apiServerURL : string; apiKey : string; apiKeyFile : string;
  clusterID : string; caBundleFile : string; serverName : string; insecureSkipVerify : bool;
  enableWebhook : bool; managedWorkloads : bool; operatorUser : string; operatorNamespace : string;
  secureMetrics : bool; leaderElect : bool; leaderElectionID : string;
  leaderElectionLeaseDuration : Z; leaderElectionRenewDeadline : Z; leaderElectionRetryPeriod : Z;
  injectorConfig : InjectorConfig }.

(** Whether the user is a service account of the operator's namespace. *)
Definition operator_user_ok (user namespace : string) : bool :=
  match Split ":" user with
  | [a; b; c; d] =>
      (a == "system") && (b == "serviceaccount") && (c == namespace) && (c != "") && (d != "")
  | _ => false
  end.

Definition parseConfig (f : operatorFlags) : result operatorConfig :=
  if o_apiServerURL f == "" then Err (ErrMsg "--berth-api-server is required")
  else if (o_apiKey f != "") && (o_apiKeyFile f != "")
  then Err (ErrMsg "--berth-api-key and --berth-api-key-file are mutually exclusive")
  else if o_managedWorkloads f && negb (operator_user_ok (o_operatorUser f) (o_operatorNamespace f))
  then Err (ErrMsg "workload admission requires its operator namespace and matching service-account username")
  else Ok {|
    metricsAddr := o_metricsAddr f; probeAddr := o_probeAddr f; apiServerURL := o_apiServerURL f;
    apiKey := o_apiKey f; apiKeyFile := o_apiKeyFile f; clusterID := o_clusterID f;
    caBundleFile := o_caBundleFile f; serverName := o_serverName f; insecureSkipVerify := o_insecureSkipVerify f;
    enableWebhook := o_enableWebhook f; managedWorkloads := o_managedWorkloads f;
    operatorUser := o_operatorUser f; operatorNamespace := o_operatorNamespace f; secureMetrics := o_secureMetrics f;
    leaderElect := o_leaderElect f; leaderElectionID := o_leaderElectionID f;
    leaderElectionLeaseDuration := o_leaseDuration f; leaderElectionRenewDeadline := o_renewDeadline f;
    leaderElectionRetryPeriod := o_retryPeriod f;
    injectorConfig := {|
      HelperImage := o_injHelperImage f; ImagePullPolicy := o_injPullPolicy f; iAPIServer := o_apiServerURL f;
      iAPIKeyFile := o_injAPIKeyFile f; iCABundleFile := o_injCABundleFile f; iServerName := o_serverName f;
      iClusterID := o_clusterID f; iInsecureSkipVerify := o_insecureSkipVerify f;
      APIKeySecretName := o_injAPIKeySecret f; APIKeySecretKey := o_injAPIKeySecretKey f;
      CABundleConfigMapName := o_injCABundleCM f; CABundleKey := o_injCABundleKey f;
      ControlPlaneNamespaces := splitCSV (o_injControlPlaneNS f); DefaultTTLSeconds := o_injDefaultTTLSecs f;
      DefaultMode := o_injDefaultMode f; DefaultEnforce := o_injDefaultEnforce f; iStateDir := o_injStateDir f |} |}.

(** ** The process *)

(** What the manager is created with: metrics and probe addresses, whether
    metrics are served securely, and leader election. *)
Record managerOptions := MkManagerOptions {
  mg_metrics : string; mg_secure : bool; mg_probe : string; mg_elect : bool; mg_id : string;
  mg_releaseOnCancel : bool; mg_lease : Z; mg_renew : Z; mg_retry : Z }.

(** What answers a readiness probe: the webhook server's own state, or a ping
    of the central API within the timeout. *)
Inductive readiness := ReadyWebhook | ReadyPing (timeout : Z).

Inductive operE : Type → Type :=
| PFiles {X : Type} (e : fileE X) : operE X
| PNewManager (o : managerOptions) : operE (result unit)
| PNewClient (admission : bool) : operE (result unit)
| PSetupAdmission (user : string) : operE (result unit)
| PSetupReconciler (r : reconciler) (lease : Client) : operE (result unit)
| PSetupWebhook (injector : InjectorConfig) : operE (result unit)
| PHealthz : operE (result unit)
| PReadyz (r : readiness) : operE (result unit)
| PStart : operE (result unit).

Definition manager_options (cfg : operatorConfig) : managerOptions :=
  MkManagerOptions (metricsAddr cfg) (secureMetrics cfg) (probeAddr cfg) (leaderElect cfg) (leaderElectionID cfg)
    true (leaderElectionLeaseDuration cfg) (leaderElectionRenewDeadline cfg) (leaderElectionRetryPeriod cfg).

(** The client of the central API and its token source. *)
Definition operator_client `{X509} (cfg : operatorConfig) : prog fileE (result Client) :=
  and_then
    (if apiKeyFile cfg != "" then
       and_then (NewFileTokenSource (apiKeyFile cfg) tokenFileCacheTTL) (λ _,
       mret (Ok [WithAPIKeyFunc (Some CallerKey)]))
     else if apiKey cfg != "" then mret (Ok [WithAPIKey (apiKey cfg)])
     else mret (Ok [])) (λ opts,
  and_then (LoadTLSConfig (caBundleFile cfg) (serverName cfg) (insecureSkipVerify cfg)) (λ tls,
  mret (Ok (New (apiServerURL cfg) (opts ++ [WithTLSConfig (Some tls)]))))).

(** A step that ends the process with code 1 when it fails. *)
Definition or_exit {A} (p : prog operE (result A)) (k : A → prog operE Z) : prog operE Z :=
  r ← p; match r with Ok a => k a | Err _ => mret 1 end.

Definition readyz_check (cfg : operatorConfig) : readiness :=
  if managedWorkloads cfg then ReadyWebhook else ReadyPing readyzPingTimeout.

(** [run] after the flags: the exit code. *)
Definition operator_start `{X509} (cfg : operatorConfig) : prog operE Z :=
  or_exit (trigger (PNewManager (manager_options cfg))) (λ _,
  or_exit (lift (@PFiles) (operator_client cfg)) (λ leaseClient,
  or_exit (trigger (PNewClient false)) (λ _,
  or_exit (if managedWorkloads cfg then
             c ← trigger (PNewClient true);
             match c with
             | Err e => mret (Err e)
             | Ok _ => trigger (PSetupAdmission (operatorUser cfg))
             end
           else mret (Ok ())) (λ _,
  or_exit (trigger (PSetupReconciler
             (MkReconciler (clusterID cfg) (managedWorkloads cfg) (operatorNamespace cfg)) leaseClient)) (λ _,
  or_exit (if enableWebhook cfg then
             match SetupWithManager (injectorConfig cfg) with
             | Err e => mret (Err e)
             | Ok injector => trigger (PSetupWebhook injector)
             end
           else mret (Ok ())) (λ _,
  or_exit (trigger PHealthz) (λ _,
  or_exit (trigger (PReadyz (readyz_check cfg))) (λ _,
  or_exit (trigger PStart) (λ _, mret 0))))))))).

Definition operator_run `{X509} (f : operatorFlags) : prog operE Z :=
  match parseConfig f with
  | Err _ => mret 1
  | Ok cfg => operator_start cfg
  end.

(** ** What a run did *)

Inductive oevent :=
| VAdmission (user : string) (ok : bool)
| VReconciler (r : reconciler) (lease : Client) (ok : bool)
| VWebhook (injector : InjectorConfig) (ok : bool)
| VReadyz (r : readiness) (ok : bool)
| VStart (ok : bool)
| VOther.

Definition oper_event (X : Type) (e : operE X) : X → oevent :=
  match e with
  | PSetupAdmission user => λ x, VAdmission user (is_ok x)
  | PSetupReconciler r lease => λ x, VReconciler r lease (is_ok x)
  | PSetupWebhook injector => λ x, VWebhook injector (is_ok x)
  | PReadyz r => λ x, VReadyz r (is_ok x)
  | PStart => λ x, VStart (is_ok x)
  | PFiles _ | PNewManager _ | PNewClient _ | PHealthz => λ _, VOther
  end.

(** The operator's user in managed mode. *)
Definition service_account (user namespace : string) : Prop :=
  ∃ name, user = "system:serviceaccount:" +:+ namespace +:+ ":" +:+ name ∧ namespace ≠ "" ∧ name ≠ "" ∧
    contains_char ":" name = false.

Definition admitted (f : operatorFlags) (pre : list oevent) : Prop :=
  o_managedWorkloads f = true →
  service_account (o_operatorUser f) (o_operatorNamespace f) ∧ VAdmission (o_operatorUser f) true ∈ pre.

(** What must have happened before the reconciler is registered, and before
    anything runs. *)
Definition guarded (f : operatorFlags) (pre : list oevent) (v : oevent) : Prop :=
  match v with
  | VReconciler r _ _ =>
      r = MkReconciler (o_clusterID f) (o_managedWorkloads f) (o_operatorNamespace f) ∧ admitted f pre
  | VStart _ =>
      admitted f pre ∧
      (∃ r lease, VReconciler r lease true ∈ pre) ∧
      (o_enableWebhook f = true → ∃ inj, VWebhook inj true ∈ pre ∧ injector_Validate inj = Ok () ∧
         iAPIServer inj = o_apiServerURL f) ∧
      VReadyz (if o_managedWorkloads f then ReadyWebhook else ReadyPing readyzPingTimeout) true ∈ pre
  | _ => True
  end.

(** Splitting loses nothing. *)
Lemma Join_Split c s : Join (Split c s) (String c "") = s.
Proof.
  induction s as [|d s IH]; [done|]. cbn [Split]. pose proof (Split_nonempty c s) as Hne.
  destruct (bool_decide_reflect (d = c)) as [->|_].
  - destruct (Split c s) as [|t l]; [done|].
    change (Join ("" :: t :: l) (String c "")) with ("" +:+ String c (Join (t :: l) (String c ""))). by rewrite IH.
  - destruct (Split c s) as [|t l]; [done|]. destruct l as [|u l].
    + cbn in IH |- *. by rewrite IH.
    + change (Join (String d t :: u :: l) (String c "")) with (String d t +:+ String c (Join (u :: l) (String c ""))).
      change (Join (t :: u :: l) (String c "")) with (t +:+ String c (Join (u :: l) (String c ""))) in IH.
      by rewrite app_string_cons, IH.
Qed.

Lemma operator_user_spec user namespace :
  operator_user_ok user namespace = true → service_account user namespace.
Proof.
  unfold operator_user_ok, service_account. intros Hu. pose proof (Join_Split ":" user) as Hj.
  destruct (Split ":" user) as [|a [|b [|c [|d [|e l]]]]] eqn:E; try done.
  pose proof (Split_segs ":" user) as Hs. rewrite E in Hs. bool_simp. subst.
  exists d. split_and!; [|done|done|].
  - reflexivity.
  - rewrite !Forall_cons in Hs. tauto.
Qed.

(** ** The sequence *)

Section sequence.
Context `{X509} (f : operatorFlags).

Abbreviation wpo := (wp oper_event (guarded f)).

Lemma wp_or_exit {A} pre (p : prog operE (result A)) k Q :
  wpo pre p (λ r pre', match r with Ok a => wpo pre' (k a) Q | Err _ => Q 1 pre' end) → wpo pre (or_exit p k) Q.
Proof.
  intros Hp. apply wp_bind. eapply wp_mono; [|exact Hp]. intros [a|e] tr; [done|]. intros Hq. exact Hq.
Qed.

Lemma wp_files {A} pre (p : prog fileE A) (Q : A → list oevent → Prop) :
  (∀ a tr, VStart true ∉ tr → Q a (pre ++ tr)) → wpo pre (lift (@PFiles) p) Q.
Proof.
  revert pre. induction p as [a|X e k IH]; intros pre HQ; cbn [lift].
  - specialize (HQ a []). rewrite app_nil_r in HQ. apply HQ. set_solver.
  - intros x. split; [done|]. apply IH. intros a tr Htr. rewrite <- app_assoc. apply HQ. set_solver.
Qed.

(** One call that either stops the process or lets it go on. *)
Lemma wp_call {X} pre (e : operE (result X)) k Q :
  (∀ x, guarded f pre (oper_event _ e x)) → (∀ x, Q 1 (pre ++ [oper_event _ e (Err x)])) →
  (∀ a, wpo (pre ++ [oper_event _ e (Ok a)]) (k a) Q) → wpo pre (or_exit (trigger e) k) Q.
Proof. intros Hg He Hk. apply wp_or_exit. intros [a|err]; (split; [apply Hg|]); [apply Hk|apply He]. Qed.

(** The code is 0 exactly when the manager ran to its end. *)
Definition exit_ok (code : Z) (tr : list oevent) : Prop :=
  (code = 0 ∨ code = 1) ∧ (code = 0 ↔ VStart true ∈ tr).

Lemma exit_failed tr : VStart true ∉ tr → exit_ok 1 tr.
Proof. intros Ht. split; [by right|]. split; [done|]. by intros ?. Qed.

(** Adding an event that is not a successful start. *)
Lemma no_start pre tr : VStart true ∉ pre → VStart true ∉ tr → VStart true ∉ pre ++ tr.
Proof. set_solver. Qed.

Lemma parseConfig_ok cfg : parseConfig f = Ok cfg →
  managedWorkloads cfg = o_managedWorkloads f ∧ operatorUser cfg = o_operatorUser f ∧
  operatorNamespace cfg = o_operatorNamespace f ∧ clusterID cfg = o_clusterID f ∧
  enableWebhook cfg = o_enableWebhook f ∧ iAPIServer (injectorConfig cfg) = o_apiServerURL f ∧
  (o_managedWorkloads f = true → service_account (o_operatorUser f) (o_operatorNamespace f)).
Proof.
  unfold parseConfig. destruct (_ == _); [done|]. destruct (_ && _); [done|].
  destruct (o_managedWorkloads f) eqn:Em; cbn [andb negb].
  - destruct (operator_user_ok _ _) eqn:E; [|done]. intros [= <-]. cbn. split_and!; try done.
    intros _. by apply operator_user_spec.
  - intros [= <-]. by cbn.
Qed.

(** From the registered reconciler on. *)
Lemma wp_run_manager cfg pre :
  admitted f pre → VStart true ∉ pre → parseConfig f = Ok cfg → (∃ r lease, VReconciler r lease true ∈ pre) →
  wpo pre
    (or_exit (if enableWebhook cfg then
               match SetupWithManager (injectorConfig cfg) with
               | Err e => mret (Err e)
               | Ok injector => trigger (PSetupWebhook injector)
               end
             else mret (Ok ())) (λ _,
     or_exit (trigger PHealthz) (λ _,
     or_exit (trigger (PReadyz (readyz_check cfg))) (λ _,
     or_exit (trigger PStart) (λ _, mret 0))))) exit_ok.
Proof.
  intros Hadm Hno Hcfg Hrec. destruct (parseConfig_ok _ Hcfg) as (Em & _ & _ & _ & Ew & Ea & _).
  apply wp_or_exit.
  assert (∀ pre', admitted f pre' → VStart true ∉ pre' → (∃ r lease, VReconciler r lease true ∈ pre') →
    (o_enableWebhook f = true → ∃ inj, VWebhook inj true ∈ pre' ∧ injector_Validate inj = Ok () ∧
       iAPIServer inj = o_apiServerURL f) →
    wpo pre' (or_exit (trigger PHealthz) (λ _,
     or_exit (trigger (PReadyz (readyz_check cfg))) (λ _,
     or_exit (trigger PStart) (λ _, mret 0)))) exit_ok) as Hrest.
  { intros pre' Ha Hs (r & lease & Hr) Hweb.
    apply wp_call; [done|intros; apply exit_failed; cbn; set_solver|intros ?].
    apply wp_call; [done|intros; apply exit_failed; cbn; set_solver|intros ?].
    apply wp_call; [|intros; apply exit_failed; cbn; set_solver|intros ?; split; [by left|cbn; set_solver]].
    intros x. cbn [guarded oper_event]. split_and!.
    - intros Hm. destruct (Ha Hm). split; [done|set_solver].
    - exists r, lease. set_solver.
    - intros Hw. destruct (Hweb Hw) as (inj & ? & ?). exists inj. set_solver.
    - unfold readyz_check. rewrite Em. cbn. set_solver. }
  rewrite Ew. destruct (o_enableWebhook f) eqn:Hw; [|by apply Hrest].
  unfold SetupWithManager. destruct (injector_Validate (NewPodInjector (injectorConfig cfg))) as [[]|e] eqn:Ev;
    cbn; [|by apply exit_failed].
  intros [[]|e]; (split; [done|]); cbn; [|apply exit_failed; set_solver].
  apply Hrest.
  - intros Hm. destruct (Hadm Hm). split; [done|set_solver].
  - set_solver.
  - destruct Hrec as (r & lease & ?). exists r, lease. set_solver.
  - intros _. eexists. split_and!; [apply elem_of_app; right; apply list_elem_of_here|done|].
    exact Ea.
Qed.

Lemma wp_operator : wpo [] (operator_run f) exit_ok.
Proof.
  unfold operator_run. destruct (parseConfig f) as [cfg|e] eqn:Hcfg; [|apply exit_failed; set_solver].
  destruct (parseConfig_ok _ Hcfg) as (Em & Eu & En & Ec & _ & _ & Hsa). unfold operator_start.
  apply wp_call; [done|intros; apply exit_failed; cbn; set_solver|intros ?].
  apply wp_or_exit, wp_files. intros [lease|e] tr Htr; [|apply exit_failed; set_solver].
  apply wp_call; [done|intros; apply exit_failed; cbn; set_solver|intros ?]. apply wp_or_exit.
  assert (∀ pre, VStart true ∉ pre → admitted f pre → wpo pre
    (or_exit (trigger (PSetupReconciler
       (MkReconciler (clusterID cfg) (managedWorkloads cfg) (operatorNamespace cfg)) lease)) (λ _,
     or_exit (if enableWebhook cfg then
                match SetupWithManager (injectorConfig cfg) with
                | Err e => mret (Err e)
                | Ok injector => trigger (PSetupWebhook injector)
                end
              else mret (Ok ())) (λ _,
     or_exit (trigger PHealthz) (λ _,
     or_exit (trigger (PReadyz (readyz_check cfg))) (λ _,
     or_exit (trigger PStart) (λ _, mret 0)))))) exit_ok) as Hrest.
  { intros pre Hno Hadm. apply wp_call.
    - intros x. cbn. by rewrite Ec, Em, En.
    - intros x. apply exit_failed. cbn. set_solver.
    - intros ?. apply wp_run_manager; [|cbn; set_solver|done|].
      + intros Hm. destruct (Hadm Hm). split; [done|set_solver].
      + do 2 eexists. apply elem_of_app. right. apply list_elem_of_here. }
  rewrite Em. destruct (o_managedWorkloads f) eqn:Hm.
  - intros [[]|e]; (split; [done|]); cbn -[or_exit]; [|apply exit_failed; set_solver].
    intros [[]|e]; (split; [done|]); cbn -[or_exit]; [|apply exit_failed; set_solver].
    rewrite Em in Hrest. apply Hrest; [set_solver|]. intros _. split; [by apply Hsa|]. rewrite Eu. set_solver.
  - rewrite Em in Hrest. apply Hrest; [set_solver|]. intros Hm'. congruence.
Qed.
End sequence.

(** ** The theorems *)


(** An environment in which every call works. *)
Definition file_fine {X} (e : fileE X) : X :=
  match e in fileE X return X with
  | FMkdirAll _ => Ok ()
  | FCreateTemp dir _ => Ok (dir, "tmp")
  | FWrite _ _ => Ok ()
  | FChmod _ _ => Ok ()
  | FClose _ => Ok ()
  | FRename _ _ => Ok ()
  | FRemove _ => Ok ()
  | FReadFile _ => Ok "secret"
  | FStat _ => Ok 0
  | FNow => 1
  | FExecutable => Ok ("/", "operator")
  end.

Definition oper_fine (X : Type) (e : operE X) (s : unit) : X * unit :=
  (match e in operE X return X with
   | PFiles e => file_fine e
   | PNewManager _ => Ok ()
   | PNewClient _ => Ok ()
   | PSetupAdmission _ => Ok ()
   | PSetupReconciler _ _ => Ok ()
   | PSetupWebhook _ => Ok ()
   | PHealthz => Ok ()
   | PReadyz _ => Ok ()
   | PStart => Ok ()
   end, s).

Definition demo_x509 : X509 := {| SystemCertPool := None; AppendCertsFromPEM := λ _, true |}.

(** A managed operator: the flags of the chart. *)
Definition managed_flags : operatorFlags := {|
  o_metricsAddr := ":8080"; o_probeAddr := ":8081"; o_apiServerURL := "https://berth";
  o_apiKey := ""; o_apiKeyFile := "/var/run/berth/token"; o_clusterID := "east"; o_caBundleFile := "";
  o_enableWebhook := false; o_managedWorkloads := true;
  o_operatorUser := "system:serviceaccount:berth-system:berth-operator"; o_operatorNamespace := "berth-system";
  o_injHelperImage := ""; o_injPullPolicy := "IfNotPresent"; o_injControlPlaneNS := "berth-system";
  o_injAPIKeyFile := ""; o_injAPIKeySecret := ""; o_injAPIKeySecretKey := "token";
  o_injCABundleFile := ""; o_injCABundleCM := ""; o_injCABundleKey := "ca.crt"; o_injStateDir := DefaultStateDir;
  o_injDefaultMode := ModeRuntimeSingleton; o_injDefaultEnforce := EnforceProbe; o_injDefaultTTLSecs := 30;
  o_serverName := ""; o_insecureSkipVerify := false; o_secureMetrics := false;
  o_leaderElect := false; o_leaderElectionID := "berth-operator-leader";
  o_leaseDuration := 15 * Second; o_renewDeadline := 10 * Second; o_retryPeriod := 2 * Second |}.

Definition managed_run : list oevent * Z :=
  run_trace oper_event oper_fine (@operator_run demo_x509 managed_flags) ().


(** The namespaces the webhook leaves alone: trimmed, none empty. *)
Lemma splitCSV_clean s p : p ∈ splitCSV s → p ≠ "" ∧ ∃ q, q ∈ Split "," s ∧ p = TrimSpace q.
Proof.
  unfold splitCSV. rewrite list_elem_of_filter. intros [Hp Hin]. split; [done|].
  apply list_elem_of_fmap in Hin as (q & -> & Hq). by exists q.
Qed.

(** Exactly which flags are refused, in this order. *)
Lemma parseConfig_error f e : parseConfig f = Err e ↔
  (o_apiServerURL f = "" ∧ e = ErrMsg "--berth-api-server is required") ∨
  (o_apiServerURL f ≠ "" ∧ o_apiKey f ≠ "" ∧ o_apiKeyFile f ≠ "" ∧
   e = ErrMsg "--berth-api-key and --berth-api-key-file are mutually exclusive") ∨
  (o_apiServerURL f ≠ "" ∧ (o_apiKey f = "" ∨ o_apiKeyFile f = "") ∧ o_managedWorkloads f = true ∧
   operator_user_ok (o_operatorUser f) (o_operatorNamespace f) = false ∧
   e = ErrMsg "workload admission requires its operator namespace and matching service-account username").
Proof.
  unfold parseConfig.
  destruct (bool_decide_reflect (o_apiServerURL f = "")), (bool_decide_reflect (o_apiKey f = "")),
    (bool_decide_reflect (o_apiKeyFile f = "")), (o_managedWorkloads f),
    (operator_user_ok (o_operatorUser f) (o_operatorNamespace f)); cbn [negb andb].
  all: split; [intros [= <-]; tauto|intuition congruence].
Qed.
