(* ===== verification/Metrics.v ===== *)
(** * Metrics

    [internal/metrics] and [internal/api/metrics.go]: the wrapper that times
    and labels every store call, the middleware that counts requests, and the
    server that exposes them. Prometheus is a set of counters keyed by label
    values; buckets of a histogram are its count and its samples. *)

From S2P Require Import Prelude GoStrings Store MemStore Manager RFC1123.

(** ** The metered store *)

Definition outcomeFor (err : option error) : string :=
  match err with
  | None => "ok"
  | Some e =>
      if errors_Is e ErrConflict then "conflict"
      else if errors_Is e ErrNotFound then "notfound" else "error"
  end.

Definition err_of {A} (r : result A) : option error :=
  match r with Ok _ => None | Err e => Some e end.

(** One observation of the store histogram. *)
Record sample := MkSample { sm_op : string; sm_backend : string; sm_outcome : string; sm_dur : Z }.

(** What a metered call does: it reads the clock around the inner call and
    records a sample. *)
Inductive meterE : Type → Type :=
| MInner {X : Type} (e : storeE X) : meterE X
| MClock : meterE Z
| MObserve (s : sample) : meterE unit.

Definition metered_call {A} (op backend : string) (inner : storeE (result A)) : prog meterE (result A) :=
  start ← trigger MClock;
  res ← trigger (MInner inner);
  now ← trigger MClock;
  _ ← trigger (MObserve (MkSample op backend (outcomeFor (err_of res)) (Sub now start)));
  mret res.

(** The calls of [meteredStore]; the caller's own clock and context are not the
    store's. *)
Definition meteredStore (backend : string) {X} (e : storeE X) : prog meterE X :=
  match e with
  | EPing => metered_call "ping" backend EPing
  | EGet key => metered_call "get" backend (EGet key)
  | EList => metered_call "list" backend EList
  | EPut v rec => metered_call "put" backend (EPut v rec)
  | ENow => trigger (MInner ENow)
  | ECtxDone => trigger (MInner ECtxDone)
  end.

(** A program of the manager, or of the collector, over the wrapper. *)
Fixpoint WrapStore {A} (backend : string) (p : prog storeE A) : prog meterE A :=
  match p with
  | Ret a => Ret a
  | Op e k => meteredStore backend e ≫= λ x, WrapStore backend (k x)
  end.

(** *** Running it *)

Section wrapper.
Context {S : Type} (step : ∀ X, S → storeE X → X → S → Prop).

(** The wrapper over a store that moves as [step] says: the clock reads as it
    likes, and samples are appended. *)
Definition meter_step (X : Type) (s : S * list sample) (e : meterE X) : X → S * list sample → Prop :=
  match e with
  | MInner e => λ x s', step _ s.1 e x s'.1 ∧ s'.2 = s.2
  | MClock => λ _ s', s' = s
  | MObserve o => λ _ s', s' = (s.1, s.2 ++ [o])
  end.

(** The store without the wrapper, with its calls and outcomes noted. *)
Definition label_of (X : Type) (e : storeE X) : X → option (string * string) :=
  match e with
  | EPing => λ x, Some ("ping", outcomeFor (err_of x))
  | EGet _ => λ x, Some ("get", outcomeFor (err_of x))
  | EList => λ x, Some ("list", outcomeFor (err_of x))
  | EPut _ _ => λ x, Some ("put", outcomeFor (err_of x))
  | ENow | ECtxDone => λ _, None
  end.

Definition noted_step (X : Type) (s : S * list (string * string)) (e : storeE X) (x : X)
    (s' : S * list (string * string)) : Prop :=
  step _ s.1 e x s'.1 ∧ s'.2 = s.2 ++ option_list (label_of X e x).

Abbreviation mexec := (exec_rel meter_step).
Abbreviation nexec := (exec_rel noted_step).

Definition labels (l : list sample) : list (string * string) := (λ o, (sm_op o, sm_outcome o)) <$> l.

Lemma metered_call_run {A B} op backend (e : storeE (result A)) (k : result A → prog meterE B) s l tr b s' :
  mexec (metered_call op backend e ≫= k) (s, l) tr b s' →
  ∃ x s1 d tr', step _ s e x s1 ∧
    mexec (k x) (s1, l ++ [MkSample op backend (outcomeFor (err_of x)) d]) tr' b s'.
Proof.
  unfold metered_call. cbn.
  intros (t0 & st0 & tr0 & -> & -> & x & [s1 l1] & tr1 & [Hs Hl] & -> & t1 & st1 & tr2 & -> & -> & u & st2 & tr3 & -> & -> & Hk).
  cbn in *. subst l1. by exists x, s1, (Sub t1 t0), tr3.
Qed.

(** A run over the wrapper is a run of the store, with one sample per call. *)
Lemma wrapper_forward {A} backend (p : prog storeE A) s l c tr a s' l' :
  mexec (WrapStore backend p) (s, l) tr a (s', l') → labels l = c →
  ∃ tr' c', nexec p (s, c) tr' a (s', c') ∧ labels l' = c' ∧
    Forall (λ o, sm_backend o = backend ∨ o ∈ l) l'.
Proof.
  revert s l c tr. induction p as [b|X e k IH]; intros s l c tr Hrun Hc.
  - destruct Hrun as (-> & -> & [= <- <-]). exists [], c. split_and!; [done|done|].
    apply Forall_forall. intros o Ho. by right.
  - assert (∀ x s1 l1 tr1, step _ s e x s1 → labels l1 = c ++ option_list (label_of X e x) →
      Forall (λ o, sm_backend o = backend ∨ o ∈ l) l1 →
      mexec (WrapStore backend (k x)) (s1, l1) tr1 a (s', l') →
      ∃ tr' c', nexec (Op e k) (s, c) tr' a (s', c') ∧ labels l' = c' ∧
        Forall (λ o, sm_backend o = backend ∨ o ∈ l) l') as Hnext.
    { intros x s1 l1 tr1 Hs Hl1 Hb1 Hk. destruct (IH x _ _ _ _ Hk Hl1) as (tr' & c' & Hn & Hc' & Hb).
      exists ((s1, c ++ option_list (label_of X e x)) :: tr'), c'. split_and!; [|done|].
      - exists x, (s1, c ++ option_list (label_of X e x)), tr'. by split_and!.
      - rewrite Forall_forall in Hb, Hb1 |- *. intros o [?|Ho]%Hb; [by left|]. by apply Hb1. }
    assert (∀ o, sm_backend o = backend → Forall (λ o, sm_backend o = backend ∨ o ∈ l) (l ++ [o])) as Happ.
    { intros o Ho. apply Forall_app. split; [|by constructor; [left|]]. apply Forall_forall. auto. }
    destruct e; cbn [WrapStore meteredStore] in Hrun.
    1-4: apply metered_call_run in Hrun as (x & s1 & d & tr1 & Hs & Hk);
      refine (Hnext _ _ _ _ Hs _ _ Hk); [unfold labels; rewrite fmap_app, <- Hc; reflexivity|by apply Happ].
    all: destruct Hrun as (x & [s1 l1] & tr1 & [Hs Hl] & -> & Hk); cbn in Hs, Hl; subst l1;
      refine (Hnext _ _ _ _ Hs _ _ Hk); [cbn; by rewrite app_nil_r|apply Forall_forall; auto].
Qed.

(** And every run of the store is one over the wrapper. *)
Lemma wrapper_backward {A} backend (p : prog storeE A) s l c tr a s' c' :
  nexec p (s, c) tr a (s', c') → labels l = c →
  ∃ tr' l', mexec (WrapStore backend p) (s, l) tr' a (s', l') ∧ labels l' = c'.
Proof.
  revert s l c tr. induction p as [b|X e k IH]; intros s l c tr Hrun Hc.
  - destruct Hrun as (-> & -> & [= <- <-]). by exists [], l.
  - destruct Hrun as (x & [s1 c1] & tr1 & [Hs Hc1] & -> & Hk). cbn in Hs, Hc1. subst c1.
    destruct e; cbn [WrapStore meteredStore]; cbn in Hk.
    1-4: match goal with |- context [metered_call ?op _ _] =>
           destruct (IH x _ (l ++ [MkSample op backend (outcomeFor (err_of x)) (Sub 0 0)]) _ _ Hk) as (tr' & l' & Hm & Hl');
             [unfold labels; rewrite fmap_app, <- Hc; reflexivity|];
           exists ((s, l) :: (s1, l) :: (s1, l) :: (s1, l ++ [MkSample op backend (outcomeFor (err_of x)) (Sub 0 0)]) :: tr'), l'
         end; split; [|done]; cbn;
         exists 0, (s, l); eexists; split_and!; [done|done|]; exists x, (s1, l); eexists; split_and!; [done|done|done|];
         exists 0, (s1, l); eexists; split_and!; [done|done|]; exists (); do 2 eexists; split_and!; [done|done|exact Hm].
    all: destruct (IH x _ l _ _ Hk) as (tr' & l' & Hm & Hl'); [by rewrite app_nil_r|];
         exists ((s1, l) :: tr'), l'; split; [|done]; by exists x, (s1, l), tr'.
Qed.
End wrapper.

(** ** The status recorder *)

(** What a handler does with its response writer. *)
Inductive wop := OpWriteHeader (code : Z) | OpWrite (b : string).

Record statusRecorder := MkRecorder { sr_status : Z; sr_wroteHeader : bool }.

Definition NewStatusRecorder : statusRecorder := MkRecorder 200 false.

Definition sr_WriteHeader (code : Z) (s : statusRecorder) : statusRecorder :=
  if sr_wroteHeader s then s else MkRecorder code true.

Definition sr_Write (s : statusRecorder) : statusRecorder := MkRecorder (sr_status s) true.

Definition sr_step (s : statusRecorder) (o : wop) : statusRecorder :=
  match o with OpWriteHeader code => sr_WriteHeader code s | OpWrite _ => sr_Write s end.

(** [net/http]: the status line that is sent. The first final status counts; a
    body without one is a 200, and so is a handler that writes nothing.
    Informational statuses may be sent before. *)
Definition http_step (sent : option Z) (o : wop) : option Z :=
  match sent, o with
  | Some c, _ => Some c
  | None, OpWriteHeader code => if code <? 200 then None else Some code
  | None, OpWrite _ => Some 200
  end.

Definition http_status (ops : list wop) : Z := default 200 (foldl http_step None ops).

Definition final_codes (ops : list wop) : Prop :=
  Forall (λ o, match o with OpWriteHeader code => 200 ≤ code | OpWrite _ => True end) ops.

Lemma recorder_follows ops s sent :
  final_codes ops → (sr_wroteHeader s = true → sent = Some (sr_status s)) →
  (sr_wroteHeader s = false → sent = None ∧ sr_status s = 200) →
  sr_status (foldl sr_step s ops) = default 200 (foldl http_step sent ops).
Proof.
  intros Hf. revert s sent. induction Hf as [|o ops Ho _ IH]; intros s sent Ht Hn; cbn.
  - destruct (sr_wroteHeader s); [by rewrite Ht|]. by destruct Hn as [-> ->].
  - destruct s as [c []]; cbn in Ht, Hn.
    + rewrite (Ht eq_refl). by apply IH; destruct o.
    + destruct (Hn eq_refl) as [-> ->]. destruct o as [code|b]; cbn in Ho |- *; apply IH; try done.
      by rewrite (proj2 (Z.ltb_ge _ _)).
Qed.

(** ** The request metrics *)

Record Metrics := MkMetrics {
  m_requests : gmap (string * string * string) nat;   (** count by route, method, status *)
  m_inflight : Z;
  m_outcomes : gmap string nat;
  m_store : list sample }.

(** [New]: every collector empty. *)
Definition NewMetrics : Metrics := MkMetrics ∅ 0 ∅ [].

Definition bump {K} `{Countable K} (k : K) (m : gmap K nat) : gmap K nat := <[k := S (default 0%nat (m !! k))]> m.

Definition standardMethods : list string :=
  ["GET"; "HEAD"; "POST"; "PUT"; "DELETE"; "CONNECT"; "OPTIONS"; "TRACE"; "PATCH"].

Definition methodLabel (method : string) : string :=
  if bool_decide (method ∈ standardMethods) then method else "OTHER".

Definition ObserveRequest (route method : string) (status : Z) (m : Metrics) : Metrics :=
  MkMetrics (bump (route, methodLabel method, FormatInt status) (m_requests m)) (m_inflight m) (m_outcomes m) (m_store m).

Definition ObserveOutcome (outcome : string) (m : Metrics) : Metrics :=
  MkMetrics (m_requests m) (m_inflight m) (bump outcome (m_outcomes m)) (m_store m).

Definition IncInflight (m : Metrics) : Metrics :=
  MkMetrics (m_requests m) (m_inflight m + 1) (m_outcomes m) (m_store m).
Definition DecInflight (m : Metrics) : Metrics :=
  MkMetrics (m_requests m) (m_inflight m - 1) (m_outcomes m) (m_store m).
Definition ObserveStoreCall (op backend outcome : string) (dur : Z) (m : Metrics) : Metrics :=
  MkMetrics (m_requests m) (m_inflight m) (m_outcomes m) (m_store m ++ [MkSample op backend outcome dur]).

(** What the inner handlers leave: the matched pattern, what was written, and
    the outcome of a lease request. *)
Record handled := MkHandled { hd_pattern : string; hd_writes : list wop; hd_outcome : string }.

(** [MetricsMiddleware] before and after the inner handler. A handler that
    panics ([None]) still leaves the gauge as it found it. *)
Definition middleware_enter (m : Metrics) : Metrics := IncInflight m.

Definition middleware_leave (method : string) (h : option handled) (m : Metrics) : Metrics :=
  DecInflight
    (match h with
     | None => m
     | Some h =>
         let route := if hd_pattern h == "" then "unmatched" else hd_pattern h in
         let m := ObserveRequest route method (sr_status (foldl sr_step NewStatusRecorder (hd_writes h))) m in
         if hd_outcome h != "" then ObserveOutcome (hd_outcome h) m else m
     end).

(** The events of a server, requests overlapping as they like. *)
Inductive mevent :=
| MEnter (method : string)
| MLeave (method : string) (h : option handled)
| MStore (op backend outcome : string) (dur : Z).

Definition metrics_step (m : Metrics) (e : mevent) : Metrics :=
  match e with
  | MEnter _ => middleware_enter m
  | MLeave method h => middleware_leave method h m
  | MStore op backend outcome dur => ObserveStoreCall op backend outcome dur m
  end.

Definition is_enter (e : mevent) : bool := match e with MEnter _ => true | _ => false end.
Definition is_leave (e : mevent) : bool := match e with MLeave _ _ => true | _ => false end.
Definition is_served (e : mevent) : bool := match e with MLeave _ (Some _) => true | _ => false end.
Definition count (f : mevent → bool) (l : list mevent) : nat := length (List.filter f l).

(** The requests counted, over all labels. *)
Definition total (m : gmap (string * string * string) nat) : nat := map_fold (λ _, Nat.add) 0%nat m.

Lemma total_bump k m : total (bump k m) = S (total m).
Proof.
  unfold total, bump. destruct (m !! k) as [n|] eqn:E; cbn.
  - rewrite <- (insert_id m k n E) at 2. rewrite <- insert_delete_eq, <- (insert_delete_eq m k n).
    rewrite !map_fold_insert_L; try (intros; lia); try apply lookup_delete_eq.
  - rewrite map_fold_insert_L; [done|intros; lia|done].
Qed.

(** Every label the request counter has ever had. *)
Definition labels_ok (m : Metrics) : Prop :=
  ∀ route method code, is_Some (m_requests m !! (route, method, code)) →
    route ≠ "" ∧ (method ∈ standardMethods ∨ method = "OTHER").

Lemma labels_ok_observe route method status m :
  route ≠ "" → labels_ok m → labels_ok (ObserveRequest route method status m).
Proof.
  intros Hr Hm r me c. unfold ObserveRequest, bump. cbn [m_requests]. rewrite lookup_insert. case_decide as Heq; [|apply Hm].
  injection Heq as <- <- <-. intros _. split; [done|]. unfold methodLabel. case_bool_decide; auto.
Qed.

Record metrics_ok (l : list mevent) (m : Metrics) : Prop := {
  mo_inflight : m_inflight m = Z.of_nat (count is_enter l) - Z.of_nat (count is_leave l);
  mo_total : total (m_requests m) = count is_served l;
  mo_labels : labels_ok m }.

Lemma count_snoc f l e : count f (l ++ [e]) = (count f l + (if f e then 1 else 0))%nat.
Proof. unfold count. rewrite List.filter_app, length_app. cbn. by destruct (f e). Qed.

Lemma metrics_step_ok l m e : metrics_ok l m → metrics_ok (l ++ [e]) (metrics_step m e).
Proof.
  intros [Hi Ht Hl]. destruct e as [method|method [h|]|op backend outcome dur]; cbn [metrics_step].
  - split; rewrite ?count_snoc; cbn; [lia|lia|done].
  - unfold middleware_leave. remember (if hd_pattern h == "" then "unmatched" else hd_pattern h) as route eqn:Er.
    assert (route ≠ "") as Hr. { subst route. by case_bool_decide. }
    pose proof (labels_ok_observe route method
      (sr_status (foldl sr_step NewStatusRecorder (hd_writes h))) m Hr Hl) as Hl'.
    split; rewrite ?count_snoc; destruct (hd_outcome h != ""); cbn [is_enter is_leave is_served];
      try (cbn; lia); try (cbn; rewrite total_bump; lia); exact Hl'.
  - split; rewrite ?count_snoc; cbn; [lia|lia|done].
  - split; rewrite ?count_snoc; cbn; [lia|lia|done].
Qed.

Lemma metrics_run_ok l : metrics_ok l (foldl metrics_step NewMetrics l).
Proof.
  induction l as [|e l IH] using rev_ind.
  - split; [done|done|]. intros r me c. cbn. rewrite lookup_empty. by intros [].
  - rewrite foldl_app. by apply metrics_step_ok.
Qed.

(** ** The metrics server *)

Inductive mserveE : Type → Type :=
| VListen : mserveE (option (result unit))     (** [None]: the context ended first *)
| VShutdown (timeout : Z) : mserveE (result unit)
| VServeExit : mserveE (result unit).

Definition errServerClosed : error := ErrMsg "http: Server closed".

Definition Serve : prog mserveE (result unit) :=
  exited ← trigger VListen;
  match exited with
  | Some r => mret r
  | None =>
    sh ← trigger (VShutdown (5 * Second));
    match sh with
    | Err e => mret (Err (ErrWrap "shutdown metrics server" e))
    | Ok _ =>
      r ← trigger VServeExit;
      mret (match r with
            | Err e => if errors_Is e errServerClosed then Ok () else Err e
            | Ok _ => Ok ()
            end)
    end
  end.

(** ** The theorems *)

(** C37: the metered store is transparent. Whatever store is wrapped, whatever
    program of the manager or the collector runs over it and however the clock
    reads: the wrapped run has the same result and leaves the same store as a
    run without the wrapper, records exactly one sample per call to the store,
    in order, labelled with the operation, the configured backend and the class
    of the answer, and every run without the wrapper is also possible with it. *)
Theorem metered_transparent {S A} (step : ∀ X, S → storeE X → X → S → Prop) backend (p : prog storeE A) s a s' :
  (∀ tr l, exec_rel (meter_step step) (WrapStore backend p) (s, []) tr a (s', l) →
     Forall (λ o, sm_backend o = backend) l ∧
     ∃ tr', exec_rel (noted_step step) p (s, []) tr' a (s', labels l)) ∧
  (∀ tr c, exec_rel (noted_step step) p (s, []) tr a (s', c) →
     ∃ tr' l, exec_rel (meter_step step) (WrapStore backend p) (s, []) tr' a (s', l) ∧ labels l = c).
Proof.
  split.
  - intros tr l Hrun. destruct (wrapper_forward step backend p s [] [] tr a s' l Hrun eq_refl) as (tr' & c' & Hn & <- & Hb).
    split; [|by exists tr']. eapply Forall_impl; [exact Hb|]. cbn. set_solver.
  - intros tr c Hrun. by apply (wrapper_backward step backend p s [] [] tr).
Qed.

(** The manager over a metered in-memory store: one absent key read, one
    record created. *)
Definition mem_step (X : Type) (s : MemStore) (e : storeE X) (x : X) (s' : MemStore) : Prop :=
  impl_handler None Second e s = (x, s').
Definition noted_mem (X : Type) (e : storeE X) (s : MemStore * list (string * string))
    : X * (MemStore * list (string * string)) :=
  let '(x, s') := impl_handler None Second e s.1 in (x, (s', s.2 ++ option_list (label_of X e x))).
Definition metered_prog : prog storeE (result AcquireResult) :=
  Acquire (MkKey "pipeline" "ingest") "east" (30 * Second).
Definition noted_run : result AcquireResult * (MemStore * list (string * string)) :=
  run noted_mem metered_prog (NewMemStore, []).

Lemma metered_transparent_witness : ∃ tr l,
  exec_rel (meter_step mem_step) (WrapStore "mem" metered_prog) (NewMemStore, []) tr noted_run.1 (noted_run.2.1, l) ∧
  labels l = [("get", "notfound"); ("put", "ok")].
Proof.
  destruct (run_exec_rel (noted_step mem_step) noted_mem metered_prog (NewMemStore, [])) as [tr Htr].
  { intros X e [s c]. unfold noted_mem, noted_step, mem_step. cbn.
    by destruct (impl_handler None Second e s) as [x s'] eqn:E. }
  destruct (metered_transparent mem_step "mem" metered_prog NewMemStore noted_run.1 noted_run.2.1) as [_ Hback].
  destruct (Hback tr noted_run.2.2) as (tr' & l & Hrun & Hl).
  - unfold noted_run. by destruct (run noted_mem metered_prog (NewMemStore, [])) as [a [s c]].
  - exists tr', l. split; [exact Hrun|]. rewrite Hl. vm_compute. reflexivity.
Defined.

(** Request metrics add up. After any interleaving of requests and store
    calls the in-flight gauge is the number of requests entered and not left,
    panics included; the request counters over all labels add up to the
    requests served; and no label is ever outside the bounded sets, whatever
    method a caller sends: a route is a pattern or "unmatched", a method is a
    standard one or "OTHER". The recorded status is the one the client got. *)
Theorem metrics_add_up l :
  let m := foldl metrics_step NewMetrics l in
  m_inflight m = Z.of_nat (count is_enter l) - Z.of_nat (count is_leave l) ∧
  total (m_requests m) = count is_served l ∧ labels_ok m ∧
  (∀ ops, final_codes ops → sr_status (foldl sr_step NewStatusRecorder ops) = http_status ops).
Proof.
  destruct (metrics_run_ok l) as [Hi Ht Hl]. split_and!; [done|done|done|].
  intros ops Hf. apply recorder_follows; [done|done|]. by intros _.
Qed.
