(* ===== verification/Float64.v ===== *)
(** * Floating-point numbers

    Go's [float64], as the load driver uses it: the binary64 operations of the
    Standard Library's [SpecFloat] (round to nearest, ties to even), the
    conversions from and to integers, and decimal constants. The lemmas bound
    the rounding of sums and products of positive numbers of moderate size, in
    units of [2 ^ -200]. *)

From S2P Require Import Prelude.
From Stdlib Require Import SpecFloat.

Definition float64 : Type := spec_float.

Definition fadd : float64 → float64 → float64 := SFadd 53 1024.
Definition fmul : float64 → float64 → float64 := SFmul 53 1024.
Definition fdiv : float64 → float64 → float64 := SFdiv 53 1024.

(** [float64(n)] of an integer. *)
Definition float_of (n : Z) : float64 := binary_normalize 53 1024 n 0 false.

(** A decimal constant, [num / den] rounded once; both are small enough to be
    exact. *)
Definition decimal (num den : Z) : float64 := fdiv (float_of num) (float_of den).

(** [int(x)] of a finite number: truncation toward zero. *)
Definition int_of (x : float64) : Z :=
  match x with
  | S754_finite s m e => cond_Zopp s (Z.shiftl (Zpos m) e)
  | _ => 0
  end.

(** ** Rounding *)

Lemma digits2_bounds m : 2 ^ (Zpos (digits2_pos m) - 1) ≤ Zpos m < 2 ^ Zpos (digits2_pos m).
Proof.
  induction m as [m IH|m IH|]; cbn [digits2_pos]; [..|done];
    rewrite Pos2Z.inj_succ, <- !Z.add_1_r;
    replace (Zpos (digits2_pos m) + 1 - 1) with (Z.succ (Zpos (digits2_pos m) - 1)) by lia;
    rewrite Z.pow_succ_r, Z.add_1_r, Z.pow_succ_r by lia; lia.
Qed.

(** The digits of a number between two powers of two. *)
Lemma digits2_unique m d : 2 ^ (d - 1) ≤ Zpos m < 2 ^ d → Zpos (digits2_pos m) = d.
Proof.
  intros [Hlo Hhi]. pose proof (digits2_bounds m) as [Hl Hh].
  assert (0 < d) by (destruct (Z.le_gt_cases d 0) as [Hd|]; [|done];
    apply Z.lt_eq_cases in Hd as [Hd | ->]; [rewrite (Z.pow_neg_r 2 d) in Hhi by lia|]; lia).
  apply Z.le_antisymm.
  - apply Z.lt_pred_le, (Z.pow_lt_mono_r_iff 2); [lia..|]. rewrite <- Z.sub_1_r. lia.
  - apply Z.lt_pred_le, (Z.pow_lt_mono_r_iff 2); [lia..|]. rewrite <- Z.sub_1_r. lia.
Qed.

Lemma shr_1_m mrs : 0 ≤ shr_m mrs → shr_m (shr_1 mrs) = shr_m mrs / 2.
Proof.
  destruct mrs as [m r s]. cbn [shr_m]. intros Hm.
  destruct m as [|[p|p|]|p]; [done| | |done|lia]; cbn [shr_1 shr_m].
  - rewrite (Pos2Z.inj_xI p), Z.mul_comm, Z.add_comm, Z.div_add by lia. done.
  - by rewrite (Pos2Z.inj_xO p), Z.mul_comm, Z.div_mul.
Qed.

Lemma iter_shr_m p mrs :
  0 ≤ shr_m mrs → shr_m (iter_pos shr_1 p mrs) = shr_m mrs / 2 ^ Zpos p.
Proof.
  revert mrs. induction p as [p IH|p IH|]; intros mrs Hm; cbn [iter_pos].
  - assert (H1 : 0 ≤ shr_m (shr_1 mrs)) by (rewrite shr_1_m by done; apply Z.div_pos; lia).
    rewrite !IH by (rewrite ?IH by done; try apply Z.div_pos; lia).
    rewrite shr_1_m, !Z.div_div by lia. f_equal. rewrite (Pos2Z.inj_xI p).
    replace (2 * Zpos p + 1) with (1 + Zpos p + Zpos p) by lia. rewrite !Z.pow_add_r by lia. lia.
  - rewrite !IH by (rewrite ?IH by done; try apply Z.div_pos; lia).
    rewrite Z.div_div by lia. f_equal. rewrite (Pos2Z.inj_xO p).
    replace (2 * Zpos p) with (Zpos p + Zpos p) by lia. rewrite Z.pow_add_r by lia. lia.
  - by apply shr_1_m.
Qed.

Lemma round_nearest_even_bounds m l : m ≤ round_nearest_even m l ≤ m + 1.
Proof. destruct l as [|[]]; cbn; [| destruct (Z.even m) | |]; lia. Qed.

(** Shifting a positive number to the exponent of its binary64 form. *)
Lemma shr_fexp_moderate m e :
  -1000 ≤ e → 
  shr_fexp 53 1024 (Zpos m) e loc_Exact =
  shr (Build_shr_record (Zpos m) false false) e (Z.max (Zpos (digits2_pos m) - 53) (-1074 - e)).
Proof.
  intros He. unfold shr_fexp, fexp, emin, Zdigits2, shr_record_of_loc. f_equal. lia.
Qed.

Lemma round_exact m e :
  -1000 ≤ e ≤ 900 → Zpos (digits2_pos m) ≤ 53 →
  binary_round_aux 53 1024 false (Zpos m) e loc_Exact = S754_finite false m e.
Proof.
  intros He Hd. unfold binary_round_aux. rewrite shr_fexp_moderate by lia.
  assert (Hk : ∃ k, Z.max (Zpos (digits2_pos m) - 53) (-1074 - e) = k ∧ k ≤ 0) by (eexists; split; [done|lia]).
  destruct Hk as (k & Hk & Hle). rewrite Hk. unfold shr.
  assert (Hshr : match k with Zpos p => (iter_pos shr_1 p (Build_shr_record (Zpos m) false false), e + k)
                            | _ => (Build_shr_record (Zpos m) false false, e) end
                 = (Build_shr_record (Zpos m) false false, e)) by (destruct k; [done|lia|done]).
  rewrite Hshr. cbn [shr_m loc_of_shr_record round_nearest_even].
  rewrite shr_fexp_moderate, Hk by lia. unfold shr. rewrite Hshr. cbn [shr_m].
  by rewrite (proj2 (Z.leb_le _ _)) by lia.
Qed.

(** Rounding a number of more than 53 digits moves it by less than one unit in
    the last place. *)
Lemma round_long m e :
  -1000 ≤ e ≤ 400 → 53 < Zpos (digits2_pos m) ≤ 400 →
  ∃ m' e', binary_round_aux 53 1024 false (Zpos m) e loc_Exact = S754_finite false m' e' ∧
    e ≤ e' ≤ e + Zpos (digits2_pos m) ∧ Zpos (digits2_pos m') ≤ 53 ∧
    Z.abs (Zpos m' * 2 ^ (e' - e) - Zpos m) ≤ 2 ^ (Zpos (digits2_pos m) - 53).
Proof.
  intros He Hd. unfold binary_round_aux. rewrite shr_fexp_moderate by lia.
  set (k := Zpos (digits2_pos m) - 53). pose proof (digits2_bounds m) as [Hlo Hhi].
  replace (Z.max k (-1074 - e)) with k by lia.
  assert (Hk : 0 < k) by lia. destruct k as [|p|] eqn:Ek; [lia| |lia].
  cbn [shr]. set (mrs := iter_pos shr_1 p _).
  pose proof (iter_shr_m p (Build_shr_record (Zpos m) false false) ltac:(cbn; lia)) as Hm1.
  fold mrs in Hm1. cbn [shr_m] in Hm1.
  set (m2 := round_nearest_even (shr_m mrs) (loc_of_shr_record mrs)).
  pose proof (round_nearest_even_bounds (shr_m mrs) (loc_of_shr_record mrs)) as Hr. fold m2 in Hr.
  replace (Zpos (digits2_pos m)) with (53 + Zpos p) in Hhi, Hlo by lia.
  replace (53 + Zpos p - 1) with (52 + Zpos p) in Hlo by lia. rewrite Z.pow_add_r in Hlo, Hhi by lia.
  assert (Hp : 0 < 2 ^ Zpos p) by (apply Z.pow_pos_nonneg; lia).
  pose proof (Z.div_mod (Zpos m) (2 ^ Zpos p) ltac:(lia)) as Hdm.
  pose proof (Z.mod_pos_bound (Zpos m) (2 ^ Zpos p) Hp) as Hmod. rewrite <- Hm1 in Hdm.
  assert (Hm1lo : 2 ^ 52 ≤ shr_m mrs) by (rewrite Hm1; apply Z.div_le_lower_bound; lia).
  assert (Hm1hi : shr_m mrs < 2 ^ 53) by (rewrite Hm1; apply Z.div_lt_upper_bound; lia).
  assert (Herr : Z.abs (m2 * 2 ^ Zpos p - Zpos m) ≤ 2 ^ Zpos p) by nia.
  clearbody m2. clearbody mrs. destruct m2 as [|q|]; [lia| |lia]. rewrite shr_fexp_moderate by lia.
  destruct (Z.eq_dec (Zpos q) (2 ^ 53)) as [Hq|Hq].
  - rewrite (digits2_unique q 54), Z.max_l by lia. change (54 - 53) with 1.
    unfold shr. cbn [iter_pos]. rewrite shr_1_m by (cbn [shr_m]; lia). cbn [shr_m]. rewrite Hq.
    change (2 ^ 53 / 2) with 4503599627370496. rewrite (proj2 (Z.leb_le _ _)) by lia.
    do 2 eexists. split_and!; [done|lia..|done|]. rewrite Hq in Herr.
    replace (e + Zpos p + 1 - e) with (1 + Zpos p) by lia. rewrite Z.pow_add_r by lia. lia.
  - rewrite (digits2_unique q 53), Z.max_l by lia. change (53 - 53) with 0.
    unfold shr. cbn [shr_m]. rewrite (proj2 (Z.leb_le _ _)) by lia.
    do 2 eexists. split_and!; [done|lia..|by rewrite (digits2_unique q 53) by lia|].
    by replace (e + Zpos p - e) with (Zpos p) by lia.
Qed.

(** ** Values *)

(** [x] is a positive number of exponent between [lo] and [hi], equal to [v]
    units of [2 ^ -200]. *)
Definition value (lo hi : Z) (x : float64) (v : Z) : Prop :=
  ∃ m e, x = S754_finite false m e ∧ lo ≤ e ≤ hi ∧ Zpos (digits2_pos m) ≤ 53 ∧ v = Zpos m * 2 ^ (e + 200).

Lemma value_weaken lo hi lo' hi' x v : value lo hi x v → lo' ≤ lo → hi ≤ hi' → value lo' hi' x v.
Proof. intros (m & e & -> & He & Hd & ->) Hlo Hhi. exists m, e. split_and!; [done|lia..|done|done]. Qed.

(** [v] is [w] but for a relative error of [2 ^ -52]. *)
Definition close (v w : Z) : Prop := Z.abs (v - w) * 2 ^ 52 ≤ w.

Lemma close_scale k v w : 0 ≤ k → close v w → close (v * k) (w * k).
Proof.
  intros Hk. unfold close. rewrite <- Z.mul_sub_distr_r, Z.abs_mul, (Z.abs_eq k) by done. nia.
Qed.

Lemma round_value m e :
  -200 ≤ e ≤ 200 → Zpos (digits2_pos m) ≤ 400 →
  ∃ v, value e (e + Zpos (digits2_pos m)) (binary_round_aux 53 1024 false (Zpos m) e loc_Exact) v ∧
    close v (Zpos m * 2 ^ (e + 200)) ∧ (Zpos (digits2_pos m) ≤ 53 → v = Zpos m * 2 ^ (e + 200)).
Proof.
  intros He Hd. destruct (Z.le_gt_cases (Zpos (digits2_pos m)) 53) as [Hs|Hl].
  - rewrite round_exact by lia. eexists. split_and!; [exists m, e; split_and!; [done|lia..|done|done]| |done].
    unfold close. rewrite Z.sub_diag. cbn. lia.
  - destruct (round_long m e) as (m' & e' & -> & He' & Hd' & Herr); [lia..|].
    eexists. split_and!; [exists m', e'; split_and!; [done|lia..|done|done]| |lia].
    unfold close. replace (e' + 200) with ((e' - e) + (e + 200)) by lia.
    rewrite (Z.pow_add_r 2 (e' - e)), Z.mul_assoc, <- Z.mul_sub_distr_r, Z.abs_mul by lia.
    rewrite (Z.abs_eq (2 ^ _)) by (apply Z.pow_nonneg; lia).
    rewrite <- Z.mul_assoc, (Z.mul_comm (2 ^ _)), Z.mul_assoc. apply Z.mul_le_mono_nonneg_r; [apply Z.pow_nonneg; lia|].
    etrans; [apply Z.mul_le_mono_nonneg_r; [lia|exact Herr]|]. rewrite <- Z.pow_add_r by lia.
    replace (Zpos (digits2_pos m) - 53 + 52) with (Zpos (digits2_pos m) - 1) by lia. apply digits2_bounds.
Qed.

Lemma iter_xO m d : Zpos (Pos.iter xO m d) = Zpos m * 2 ^ Zpos d.
Proof.
  induction d as [|d IH] using Pos.peano_ind; [cbn; lia|].
  rewrite Pos.iter_succ, Pos2Z.inj_succ, Z.pow_succ_r by lia. rewrite (Pos2Z.inj_xO (Pos.iter _ _ _)), IH. lia.
Qed.

(** Lowering the exponent keeps the number. *)
Lemma shl_align_value m e e' :
  Zpos (fst (shl_align m e e')) * 2 ^ (snd (shl_align m e e') - Z.min e e') = Zpos m * 2 ^ (e - Z.min e e') ∧
  snd (shl_align m e e') = Z.min e e'.
Proof.
  unfold shl_align. destruct (e' - e) as [|d|d] eqn:E; cbn [fst snd]; [split; [done|lia]..|].
  split; [|lia]. rewrite iter_xO. replace (e' - Z.min e e') with 0 by lia.
  replace (e - Z.min e e') with (Zpos d) by lia. lia.
Qed.

Lemma binary_round_value m e :
  -147 ≤ e ≤ 110 → Zpos (digits2_pos m) ≤ 400 →
  ∃ v, value (e - 53) (e + Zpos (digits2_pos m)) (binary_round 53 1024 false m e) v ∧
    close v (Zpos m * 2 ^ (e + 200)) ∧ (Zpos (digits2_pos m) ≤ 53 → v = Zpos m * 2 ^ (e + 200)).
Proof.
  intros He Hd. unfold binary_round.
  replace (fexp 53 1024 (Zpos (digits2_pos m) + e)) with (Zpos (digits2_pos m) + e - 53)
    by (unfold fexp, emin; lia).
  set (t := Zpos (digits2_pos m) + e - 53). destruct (shl_align_value m e t) as [Hv Hs].
  destruct (shl_align m e t) as [mz ez]. cbn [fst snd] in Hv, Hs. subst ez.
  rewrite Z.sub_diag, Z.mul_1_r in Hv.
  assert (Hval : Zpos mz * 2 ^ (Z.min e t + 200) = Zpos m * 2 ^ (e + 200)).
  { rewrite Hv, <- Z.mul_assoc, <- Z.pow_add_r by lia. do 2 f_equal. lia. }
  assert (Hdz : Zpos (digits2_pos mz) = Zpos (digits2_pos m) + (e - Z.min e t)).
  { pose proof (digits2_bounds m) as [Hl Hh]. apply digits2_unique.
    replace (Zpos (digits2_pos m) + (e - Z.min e t) - 1) with (Zpos (digits2_pos m) - 1 + (e - Z.min e t)) by lia.
    rewrite !(Z.pow_add_r 2 _ (e - _)), Hv by lia. assert (0 < 2 ^ (e - Z.min e t)) by (apply Z.pow_pos_nonneg; lia). nia. }
  destruct (round_value mz (Z.min e t)) as (v & (m' & e' & Hx & He' & Hd' & ->) & Hc & Hex); [lia..|].
  rewrite Hval in Hc, Hex. eexists. split_and!; [exists m', e'; split_and!; [done|lia..|done|done]|done|].
  intros Hm. apply Hex. lia.
Qed.

Lemma float_of_value n :
  1 ≤ n < 2 ^ 53 → value (-53) 53 (float_of n) (n * 2 ^ 200).
Proof.
  intros Hn. destruct n as [|p|]; [lia| |lia]. unfold float_of, binary_normalize.
  assert (Hd : Zpos (digits2_pos p) ≤ 53).
  { pose proof (digits2_bounds p) as [Hl _]. apply Z.lt_pred_le, (Z.pow_lt_mono_r_iff 2); [lia..|].
    rewrite <- Z.sub_1_r. lia. }
  destruct (binary_round_value p 0) as (v & Hv & _ & Hex); [lia..|]. rewrite Hex in Hv by done.
  eapply value_weaken; [done|lia..].
Qed.

Lemma digits2_mul p q : Zpos (digits2_pos (p * q)) ≤ Zpos (digits2_pos p) + Zpos (digits2_pos q).
Proof.
  pose proof (digits2_bounds p). pose proof (digits2_bounds q). pose proof (digits2_bounds (p * q)) as [Hl _].
  apply Z.lt_pred_le, (Z.pow_lt_mono_r_iff 2); [lia..|]. rewrite <- Z.sub_1_r, Z.pow_add_r by lia.
  rewrite Pos2Z.inj_mul in Hl. nia.
Qed.

Lemma fmul_value lo1 hi1 lo2 hi2 x y a b :
  value lo1 hi1 x a → value lo2 hi2 y b → -200 ≤ lo1 → -200 ≤ lo2 → -200 ≤ lo1 + lo2 → hi1 + hi2 ≤ 100 →
  ∃ v, value (lo1 + lo2) (hi1 + hi2 + 106) (fmul x y) v ∧ close (v * 2 ^ 200) (a * b).
Proof.
  intros (m1 & e1 & -> & He1 & Hd1 & ->) (m2 & e2 & -> & He2 & Hd2 & ->) Hlo1 Hlo2 Hlo Hhi.
  pose proof (digits2_mul m1 m2) as Hd. destruct (round_value (m1 * m2) (e1 + e2)) as (v & Hv & Hc & _); [lia..|].
  exists v. split; [eapply value_weaken; [exact Hv|lia..]|].
  replace (Zpos m1 * 2 ^ (e1 + 200) * (Zpos m2 * 2 ^ (e2 + 200)))
    with (Zpos (m1 * m2) * 2 ^ (e1 + e2 + 200) * 2 ^ 200); [by apply close_scale|].
  rewrite Pos2Z.inj_mul, <- Z.mul_assoc, <- (Z.pow_add_r 2 (e1 + e2 + 200)) by lia.
  replace (e1 + e2 + 200 + 200) with ((e1 + 200) + (e2 + 200)) by lia. rewrite Z.pow_add_r by lia. lia.
Qed.

Lemma fadd_value lo hi x y a b :
  value lo hi x a → value lo hi y b → -147 ≤ lo → hi ≤ 110 →
  ∃ v, value (lo - 53) (hi + 321) (fadd x y) v ∧ close v (a + b).
Proof.
  intros (m1 & e1 & -> & He1 & Hd1 & ->) (m2 & e2 & -> & He2 & Hd2 & ->) Hlo Hhi.
  unfold fadd, SFadd, cond_Zopp. set (ez := Z.min e1 e2).
  destruct (shl_align_value m1 e1 ez) as [H1 S1]. destruct (shl_align_value m2 e2 ez) as [H2 S2].
  rewrite S1 in H1. rewrite S2 in H2. rewrite (Z.min_r e1 ez), Z.sub_diag, Z.mul_1_r in H1 by lia.
  rewrite (Z.min_r e2 ez), Z.sub_diag, Z.mul_1_r in H2 by lia.
  set (z1 := fst (shl_align m1 e1 ez)) in *. set (z2 := fst (shl_align m2 e2 ez)) in *. clearbody z1 z2.
  change (Zpos z1 + Zpos z2) with (Zpos (z1 + z2)). cbn [binary_normalize].
  assert (Hsum : Zpos m1 * 2 ^ (e1 + 200) + Zpos m2 * 2 ^ (e2 + 200) = Zpos (z1 + z2) * 2 ^ (ez + 200)).
  { rewrite Pos2Z.inj_add, H1, H2, Z.mul_add_distr_r, <- !Z.mul_assoc, <- !Z.pow_add_r by lia.
    replace (e1 - ez + (ez + 200)) with (e1 + 200) by lia. by replace (e2 - ez + (ez + 200)) with (e2 + 200) by lia. }
  assert (Hd : Zpos (digits2_pos (z1 + z2)) ≤ 321).
  { pose proof (digits2_bounds (z1 + z2)) as [Hl _]. pose proof (digits2_bounds m1) as [_ Hb1].
    pose proof (digits2_bounds m2) as [_ Hb2].
    assert (Hz : ∀ m z e, Zpos (digits2_pos m) ≤ 53 → Zpos m < 2 ^ Zpos (digits2_pos m) →
      ez ≤ e ≤ hi → Zpos z = Zpos m * 2 ^ (e - ez) → Zpos z < 2 ^ 320).
    { intros m z e Hm Hb He ->. apply Z.lt_le_trans with (2 ^ 53 * 2 ^ (e - ez)).
      - apply Z.mul_lt_mono_pos_r; [apply Z.pow_pos_nonneg; lia|].
        eapply Z.lt_le_trans; [done|]. apply Z.pow_le_mono_r; lia.
      - rewrite <- Z.pow_add_r by lia. apply Z.pow_le_mono_r; lia. }
    pose proof (Hz m1 z1 e1 Hd1 Hb1 ltac:(lia) H1). pose proof (Hz m2 z2 e2 Hd2 Hb2 ltac:(lia) H2).
    apply Z.lt_pred_le, (Z.pow_lt_mono_r_iff 2); [lia..|]. rewrite <- Z.sub_1_r.
    change (2 ^ 321) with (2 * 2 ^ 320). lia. }
  destruct (binary_round_value (z1 + z2) ez) as (v & Hv & Hc & _); [lia..|].
  exists v. rewrite Hsum. split; [|done]. eapply value_weaken; [exact Hv|lia..].
Qed.

(** [int] takes the integral part. *)
Lemma int_of_value lo hi x v : value lo hi x v → -200 ≤ lo → int_of x = v / 2 ^ 200.
Proof.
  intros (m & e & -> & He & _ & ->) Hlo. cbn [int_of cond_Zopp].
  destruct (Z.le_gt_cases 0 e) as [H0|H0].
  - rewrite Z.shiftl_mul_pow2, Z.pow_add_r, Z.mul_assoc, Z.div_mul by lia. done.
  - assert (H200 : 2 ^ 200 = 2 ^ (- e) * 2 ^ (e + 200)) by (rewrite <- Z.pow_add_r by lia; f_equal; lia).
    pose proof (Z.pow_pos_nonneg 2 (e + 200)). pose proof (Z.pow_pos_nonneg 2 (- e)).
    rewrite H200, Z.div_mul_cancel_r by lia. rewrite <- Z.shiftr_div_pow2 by lia.
    by rewrite Z.shiftr_opp_r.
Qed.
