(* ===== verification/LoadStats.v ===== *)
(** * The load driver's configuration and statistics

    [internal/load/config.go] and [internal/load/summary.go]: what a run of the
    driver needs, the names of the leases and holders it drives, the samples it
    collects and the latency distribution it reports. [LoadRun] has the
    scenarios. *)

From stdpp Require Import sorting.
From S2P Require Import Prelude GoStrings Store RFC1123 Auth DurationText Float64.
From Stdlib Require Import SpecFloat.

(** ** Configuration *)

Definition ScenarioSteady : string := "steady".
Definition ScenarioColdStart : string := "coldstart".
Definition ScenarioFailover : string := "failover".
Definition ScenarioChurn : string := "churn".

Definition OpAcquire : string := "acquire".
Definition OpRenew : string := "renew".
Definition OpRelease : string := "release".

Record Config := MkConfig {
  Namespace : string;
  Tenant : string;
  Backend : string;
  Scenario : string;
  Leases : Z;
  Pairs : Z;
  TTL : Z;
  Heartbeat : Z;
  Duration : Z;
  Concurrency : Z;
  ChurnFraction : float64 }.

Definition known_scenario (s : string) : bool :=
  (s == ScenarioSteady) || (s == ScenarioColdStart) || (s == ScenarioFailover) || (s == ScenarioChurn).

(** [Config.Validate]. The value of the churn fraction is left out of its
    message. *)
Definition Validate (c : Config) : result unit :=
  if negb (known_scenario (Scenario c)) then
    if Scenario c == "" then
      Err (ErrMsg ("scenario is required (one of " +:+ ScenarioSteady +:+ ", " +:+ ScenarioColdStart +:+
        ", " +:+ ScenarioFailover +:+ ", " +:+ ScenarioChurn +:+ ")"))
    else Err (ErrMsg "unknown scenario")
  else if Namespace c == "" then Err (ErrMsg "namespace is required")
  else if Leases c <=? 0 then Err (ErrMsg ("leases must be positive, got " +:+ FormatInt (Leases c)))
  else if Pairs c <=? 0 then Err (ErrMsg ("pairs must be positive, got " +:+ FormatInt (Pairs c)))
  else if TTL c <? Second then
    Err (ErrMsg ("ttl must be at least 1s (API granularity is whole seconds), got " +:+ Duration_String (TTL c)))
  else if Heartbeat c <=? 0 then
    Err (ErrMsg ("heartbeat must be positive, got " +:+ Duration_String (Heartbeat c)))
  else if Heartbeat c >=? TTL c then
    Err (ErrMsg ("heartbeat (" +:+ Duration_String (Heartbeat c) +:+ ") must be shorter than ttl (" +:+
      Duration_String (TTL c) +:+ ") or leases expire between renewals"))
  else if Concurrency c <=? 0 then
    Err (ErrMsg ("concurrency must be positive, got " +:+ FormatInt (Concurrency c)))
  else if ((Scenario c == ScenarioSteady) || (Scenario c == ScenarioChurn)) && (Duration c <=? 0) then
    Err (ErrMsg ("duration must be positive for the " +:+ Scenario c +:+ " scenario"))
  else if (Scenario c == ScenarioChurn)
          && (SFleb (ChurnFraction c) (float_of 0) || SFltb (float_of 1) (ChurnFraction c)) then
    Err (ErrMsg "churn-fraction must be in (0,1] for the churn scenario")
  else Ok ().

(** [%06d] of a lease index. *)
Definition zeros (n : nat) : string := Nat.iter n (String "0") EmptyString.
Definition pad6 (i : Z) : string :=
  let s := FormatInt i in zeros (6 - String.length s) +:+ s.

Definition leaseName (i : Z) : string := "lease-" +:+ pad6 i.

Definition holderName (c : Config) (base : string) : string :=
  if Tenant c == "" then base else Tenant c +:+ "/" +:+ base.

Definition activeHolder (c : Config) (i : Z) : string := holderName c ("active-" +:+ pad6 i).
Definition standbyHolder (c : Config) (i : Z) : string := holderName c ("standby-" +:+ pad6 i).

(** ** Samples *)

Record opSamples := MkSamples { durations : list Z; errors : Z }.

(** The recorder's samples, by operation. *)
Definition Samples : Type := gmap string opSamples.

(** What [Recorder.Observe] does under its lock. *)
Definition observe (op : string) (d : Z) (err : bool) (ops : Samples) : Samples :=
  let s := default (MkSamples [] 0) (ops !! op) in
  <[op := MkSamples (durations s ++ [d]) (if err then errors s + 1 else errors s)]> ops.

Record OpResult := MkOpResult {
  Count : Z; Errors : Z;
  Min : Z; Max : Z; Mean : Z; P50 : Z; P95 : Z; P99 : Z; P999 : Z;
  MinMS : float64; MaxMS : float64; MeanMS : float64; P50MS : float64; P95MS : float64;
  P99MS : float64; P999MS : float64 }.

(** The rank [percentile] picks among [n] samples, from 1. *)
Definition rank (n : Z) (p : float64) : Z :=
  let r := int_of (fadd (fmul (float_of n) p) (decimal 9999999 10000000)) in
  let r := if r <? 1 then 1 else r in
  if r >? n then n else r.

Definition percentile (sorted : list Z) (p : float64) : Z :=
  let n := Z.of_nat (length sorted) in
  if n =? 0 then 0 else default 0 (sorted !! Z.to_nat (rank n p - 1)).

Definition ms (d : Z) : float64 := fdiv (float_of d) (float_of Millisecond).

Definition total (l : list Z) : Z := foldl (λ acc d, wrap64 (acc + d)) 0 l.

Definition resultFor (s : opSamples) : OpResult :=
  let n := Z.of_nat (length (durations s)) in
  let zero := float_of 0 in
  if n =? 0 then MkOpResult n (errors s) 0 0 0 0 0 0 0 zero zero zero zero zero zero zero
  else
    let sorted := merge_sort Z.le (durations s) in
    let lo := default 0 (sorted !! 0%nat) in
    let hi := default 0 (sorted !! Z.to_nat (n - 1)) in
    let mean := Z.quot (total sorted) n in
    let p50 := percentile sorted (decimal 50 100) in
    let p95 := percentile sorted (decimal 95 100) in
    let p99 := percentile sorted (decimal 99 100) in
    let p999 := percentile sorted (decimal 999 1000) in
    MkOpResult n (errors s) lo hi mean p50 p95 p99 p999
      (ms lo) (ms hi) (ms mean) (ms p50) (ms p95) (ms p99) (ms p999).

Record Summary := MkSummary {
  sScenario : string; sBackend : string; sLeases : Z; sPairs : Z;
  sTTLMS : float64; sElapsedMS : float64;
  sOps : gmap string OpResult }.

Definition Summarize (ops : Samples) (cfg : Config) (elapsed : Z) : Summary :=
  MkSummary (Scenario cfg) (Backend cfg) (Leases cfg) (Pairs cfg) (ms (TTL cfg)) (ms elapsed) (resultFor <$> ops).

(** ** Ranks *)

(** [p] is [k / d], within a unit in its last place. *)
Definition ratio (k d : Z) (p : float64) : Prop :=
  ∃ b, value (-53) (-53) p b ∧ Z.abs (d * b - k * 2 ^ 200) ≤ d * 2 ^ 147.

Lemma ratio_intro k d m :
  (Zpos (digits2_pos m) <=? 53) = true →
  (Z.abs (d * (Zpos m * 2 ^ 147) - k * 2 ^ 200) <=? d * 2 ^ 147) = true →
  ratio k d (S754_finite false m (-53)).
Proof.
  intros Hd%Z.leb_le Hv%Z.leb_le. exists (Zpos m * 2 ^ 147). split; [|done].
  exists m, (-53). split_and!; [done|lia..|done|done].
Qed.

Lemma half_ratio : ratio 500 1000 (decimal 50 100).
Proof. by apply (ratio_intro 500 1000 4503599627370496). Qed.
Lemma p95_ratio : ratio 950 1000 (decimal 95 100).
Proof. by apply (ratio_intro 950 1000 8556839292003942). Qed.
Lemma p99_ratio : ratio 990 1000 (decimal 99 100).
Proof. by apply (ratio_intro 990 1000 8917127262193582). Qed.
Lemma p999_ratio : ratio 999 1000 (decimal 999 1000).
Proof. by apply (ratio_intro 999 1000 8998192055486251). Qed.
Lemma ceil_ratio : ratio 9999999 10000000 (decimal 9999999 10000000).
Proof. by apply (ratio_intro 9999999 10000000 9007198354021067). Qed.

(** The rank is the least number of samples that covers [k] thousandths of
    them, for up to [2 ^ 26] samples. *)
Lemma rank_ceil n k p :
  1 ≤ n ≤ 2 ^ 26 → 0 < k < 1000 → ratio k 1000 p →
  1 ≤ rank n p ≤ n ∧ k * n ≤ 1000 * rank n p < k * n + 1000.
Proof.
  intros Hn Hk (b & Hb & Herr).
  pose proof (float_of_value n ltac:(lia)) as Hf.
  destruct (fmul_value _ _ _ _ _ _ _ _ Hf Hb) as (v1 & Hv1 & Hc1); [lia..|].
  destruct ceil_ratio as (c & Hc & Hcerr).
  apply (value_weaken _ _ (-106) 110) in Hc; [|lia..].
  apply (value_weaken _ _ (-106) 110) in Hv1; [|lia..].
  destruct (fadd_value _ _ _ _ _ _ Hv1 Hc) as (v2 & Hv2 & Hc2); [lia..|].
  pose proof (int_of_value _ _ _ _ Hv2 ltac:(lia)) as Hint.
  unfold close in Hc1, Hc2.
  assert (Hnb : Z.abs (v1 - n * b) * 2 ^ 52 ≤ n * b).
  { replace (v1 * 2 ^ 200 - n * 2 ^ 200 * b) with ((v1 - n * b) * 2 ^ 200) in Hc1 by lia.
    rewrite Z.abs_mul, (Z.abs_eq (2 ^ 200)) in Hc1 by lia. lia. }
  assert (Hnk : Z.abs (1000 * (n * b) - k * n * 2 ^ 200) ≤ n * (1000 * 2 ^ 147)).
  { replace (1000 * (n * b) - k * n * 2 ^ 200) with (n * (1000 * b - k * 2 ^ 200)) by lia.
    rewrite Z.abs_mul, (Z.abs_eq n) by lia. apply Z.mul_le_mono_nonneg_l; lia. }
  assert (Hkn : k * 1 ≤ k * n < 1000 * n)
    by (split; [apply Z.mul_le_mono_nonneg_l|apply Z.mul_lt_mono_pos_r]; lia).
  clear Hc1 Herr Hb Hf Hv1 Hc Hv2. set (nb := n * b) in *. set (kn := k * n) in *. clearbody nb kn.
  assert (Hlo : (kn + 999) * 2 ^ 200 ≤ 1000 * v2 < (kn + 1000) * 2 ^ 200) by lia.
  unfold rank. rewrite Hint. clear Hint Hc2 Hnb Hnk Hcerr.
  pose proof (Z.div_mod v2 (2 ^ 200) ltac:(lia)) as Hdm. pose proof (Z.mod_pos_bound v2 (2 ^ 200) ltac:(lia)) as Hmod.
  set (q := v2 / 2 ^ 200) in *. clearbody q.
  destruct (Z.ltb_spec q 1), (Z.gtb_spec q n); try destruct (Z.gtb_spec 1 n); lia.
Qed.

(** ** Order statistics *)

Definition at_most (v : Z) (l : list Z) : Z := Z.of_nat (length (filter (λ d, d ≤ v) l)).
Definition below (v : Z) (l : list Z) : Z := Z.of_nat (length (filter (λ d, d < v) l)).

#[local] Instance at_most_perm v : Proper ((≡ₚ) ==> (=)) (at_most v).
Proof. intros l l' E. unfold at_most. by rewrite E. Qed.
#[local] Instance below_perm v : Proper ((≡ₚ) ==> (=)) (below v).
Proof. intros l l' E. unfold below. by rewrite E. Qed.

(** [v] is the nearest-rank quantile of [k] thousandths: the least sample that
    covers them. *)
Definition quantile (k : Z) (l : list Z) (v : Z) : Prop :=
  v ∈ l ∧ k * Z.of_nat (length l) ≤ 1000 * at_most v l ∧ 1000 * below v l < k * Z.of_nat (length l).

Lemma filter_all {A} (P : A → Prop) `{∀ x, Decision (P x)} (l : list A) : Forall P l → filter P l = l.
Proof. induction 1 as [|x l Hx _ IH]; [done|]. by rewrite filter_cons_True, IH. Qed.

Lemma filter_none {A} (P : A → Prop) `{∀ x, Decision (P x)} (l : list A) :
  Forall (λ x, ¬ P x) l → filter P l = [].
Proof. induction 1 as [|x l Hx _ IH]; [done|]. by rewrite filter_cons_False. Qed.

Lemma sorted_split l i v :
  StronglySorted Z.le l → l !! i = Some v →
  ∃ a b, l = a ++ v :: b ∧ length a = i ∧ Forall (λ d, d ≤ v) a ∧ Forall (λ d, v ≤ d) b.
Proof.
  intros Hs Hi. apply list_elem_of_split_length in Hi as (a & b & -> & ->).
  exists a, b. split_and!; [done..| |].
  - clear -Hs. induction a as [|x a IH]; [done|]. inversion_clear Hs as [|?? Hs' Hx].
    apply Forall_app in Hx as [_ Hx]. inversion_clear Hx. constructor; auto.
  - induction a as [|x a IH]; inversion_clear Hs; auto.
Qed.

(** Where a sample stands in the sorted list. *)
Lemma sorted_position l i v :
  StronglySorted Z.le l → l !! i = Some v → Z.of_nat i + 1 ≤ at_most v l ∧ below v l ≤ Z.of_nat i.
Proof.
  intros Hs Hi. destruct (sorted_split l i v Hs Hi) as (a & b & -> & <- & Ha & Hb).
  unfold at_most, below. rewrite !filter_app, !length_app. split.
  - rewrite filter_all by done. rewrite filter_cons_True by lia. cbn [length]. lia.
  - rewrite (filter_none _ (v :: b)).
    + pose proof (length_filter (λ d, d < v) a). cbn [length]. lia.
    + constructor; [lia|]. eapply Forall_impl; [exact Hb|]. cbn. lia.
Qed.

Lemma percentile_quantile l k p :
  StronglySorted Z.le l → 1 ≤ Z.of_nat (length l) ≤ 2 ^ 26 → 0 < k < 1000 → ratio k 1000 p →
  quantile k l (percentile l p).
Proof.
  intros Hs Hn Hk Hp. destruct (rank_ceil _ k p Hn Hk Hp) as [Hr Hc].
  unfold percentile. rewrite (proj2 (Z.eqb_neq _ _)) by lia. set (r := rank _ p) in *.
  destruct (l !! Z.to_nat (r - 1)) as [v|] eqn:E; [|apply lookup_ge_None in E; lia]. change (quantile k l v).
  destruct (sorted_position l _ v Hs E) as [Ha Hb].
  split_and!; [by eapply list_elem_of_lookup_2| |]; lia.
Qed.

Definition sum (l : list Z) : Z := foldr Z.add 0 l.

Lemma foldl_sum acc l :
  0 ≤ acc → Forall (λ d, 0 ≤ d) l → acc + sum l ≤ MaxInt64 →
  foldl (λ acc d, wrap64 (acc + d)) acc l = acc + sum l ∧ 0 ≤ sum l.
Proof.
  revert acc. induction l as [|d l IH]; intros acc Ha Hl Hm; cbn [foldl sum foldr] in *; [lia|].
  inversion_clear Hl as [|?? Hd Hl']. fold (sum l) in *.
  assert (0 ≤ sum l). { clear -Hl'. induction Hl' as [|x l Hx _ IHl]; cbn; [lia|fold (sum l); lia]. }
  rewrite wrap64_id by (unfold int64, MinInt64; lia).
  destruct (IH (acc + d)) as [-> _]; [lia|done|lia|]. lia.
Qed.

Lemma sum_bounds lo hi l :
  Forall (λ d, lo ≤ d ≤ hi) l → lo * Z.of_nat (length l) ≤ sum l ≤ hi * Z.of_nat (length l).
Proof. induction 1 as [|d l Hd _ IH]; cbn [sum foldr length]; [lia|]. fold (sum l). lia. Qed.

#[local] Instance sum_perm : Proper ((≡ₚ) ==> (=)) sum.
Proof. induction 1; cbn [sum foldr] in *; unfold sum in *; lia. Qed.

Lemma at_most_below v w l : v < w → at_most v l ≤ below w l.
Proof.
  intros Hvw. unfold at_most, below. induction l as [|d l IH]; [done|].
  rewrite !filter_cons. destruct (decide (d ≤ v)), (decide (d < w)); cbn [length]; lia.
Qed.

Lemma quantile_mono k k' l v v' : k ≤ k' → quantile k l v → quantile k' l v' → v ≤ v'.
Proof.
  intros Hk (_ & _ & Hb) (_ & Ha & _). destruct (Z.le_gt_cases v v') as [|Hlt]; [done|].
  pose proof (at_most_below v' v l Hlt). nia.
Qed.

(** What the report of one operation says of its latencies. *)
Record distribution (l : list Z) (r : OpResult) : Prop := {
  ds_count : Count r = Z.of_nat (length l);
  ds_min : Min r ∈ l ∧ Forall (λ d, Min r ≤ d) l;
  ds_max : Max r ∈ l ∧ Forall (λ d, d ≤ Max r) l;
  ds_p50 : quantile 500 l (P50 r);
  ds_p95 : quantile 950 l (P95 r);
  ds_p99 : quantile 990 l (P99 r);
  ds_p999 : quantile 999 l (P999 r);
  ds_order : Min r ≤ P50 r ≤ P95 r ∧ P95 r ≤ P99 r ≤ P999 r ∧ P999 r ≤ Max r;
  ds_mean : Forall (λ d, 0 ≤ d) l → sum l ≤ MaxInt64 →
    Min r ≤ Mean r ≤ Max r ∧ Mean r * Count r ≤ sum l < (Mean r + 1) * Count r }.

Lemma sorted_ends l v w :
  StronglySorted Z.le l → l !! 0%nat = Some v → l !! (length l - 1)%nat = Some w →
  Forall (λ d, v ≤ d) l ∧ Forall (λ d, d ≤ w) l.
Proof.
  intros Hs Hv Hw. split.
  - destruct l as [|x l]; simplify_eq/=. inversion_clear Hs. by constructor.
  - destruct (sorted_split l _ w Hs Hw) as (a & b & -> & Hlen & Ha & _).
    rewrite length_app in Hlen. destruct b; cbn in Hlen; [|lia].
    apply Forall_app. split; [done|]. by constructor.
Qed.

Lemma quot_mean s n lo hi :
  0 < n → 0 ≤ s → lo * n ≤ s ≤ hi * n →
  lo ≤ Z.quot s n ≤ hi ∧ Z.quot s n * n ≤ s < (Z.quot s n + 1) * n.
Proof.
  intros Hn Hs Hb. rewrite Z.quot_div_nonneg by lia.
  pose proof (Z.div_mod s n ltac:(lia)). pose proof (Z.mod_pos_bound s n Hn). nia.
Qed.

Section sorted_report.
Context (l : list Z) (Hs : StronglySorted Z.le l) (Hn : 1 ≤ Z.of_nat (length l) ≤ 2 ^ 26).

Let lo : Z := default 0 (l !! 0%nat).
Let hi : Z := default 0 (l !! Z.to_nat (Z.of_nat (length l) - 1)).

Lemma report_ends : (lo ∈ l ∧ Forall (λ d, lo ≤ d) l) ∧ (hi ∈ l ∧ Forall (λ d, d ≤ hi) l).
Proof.
  unfold lo, hi. replace (Z.to_nat (Z.of_nat (length l) - 1)) with (length l - 1)%nat by lia.
  destruct (l !! 0%nat) as [v|] eqn:Ev; [|apply lookup_ge_None in Ev; lia].
  destruct (l !! (length l - 1)%nat) as [w|] eqn:Ew; [|apply lookup_ge_None in Ew; lia].
  destruct (sorted_ends l v w Hs Ev Ew). cbn. by split; (split; [eapply list_elem_of_lookup_2|]).
Qed.

Lemma report_mean :
  Forall (λ d, 0 ≤ d) l → sum l ≤ MaxInt64 →
  let mean := Z.quot (total l) (Z.of_nat (length l)) in
  lo ≤ mean ≤ hi ∧ mean * Z.of_nat (length l) ≤ sum l < (mean + 1) * Z.of_nat (length l).
Proof.
  intros Hpos Hmax. destruct (foldl_sum 0 l) as [Ht H0]; [lia|done|lia|].
  destruct report_ends as [[_ Hlo] [_ Hhi]]. unfold total. rewrite Ht. apply quot_mean; [lia..|].
  apply sum_bounds. apply Forall_and. done.
Qed.

Lemma report_order v k : quantile k l v → lo ≤ v ≤ hi.
Proof.
  intros (Hv & _). destruct report_ends as [[_ Hlo] [_ Hhi]].
  rewrite Forall_forall in Hlo, Hhi. auto.
Qed.
End sorted_report.

Lemma distribution_sorted l :
  StronglySorted Z.le l → 1 ≤ Z.of_nat (length l) ≤ 2 ^ 26 → ∀ e,
  let n := Z.of_nat (length l) in
  let lo := default 0 (l !! 0%nat) in
  let hi := default 0 (l !! Z.to_nat (n - 1)) in
  let mean := Z.quot (total l) n in
  let p := percentile l in
  ∀ a b c d f g h, distribution l
    (MkOpResult n e lo hi mean (p (decimal 50 100)) (p (decimal 95 100)) (p (decimal 99 100))
       (p (decimal 999 1000)) a b c d f g h).
Proof.
  intros Hs Hn e n lo hi mean p a b c d f g h.
  pose proof (percentile_quantile l 500 _ Hs Hn ltac:(lia) half_ratio) as H50.
  pose proof (percentile_quantile l 950 _ Hs Hn ltac:(lia) p95_ratio) as H95.
  pose proof (percentile_quantile l 990 _ Hs Hn ltac:(lia) p99_ratio) as H99.
  pose proof (percentile_quantile l 999 _ Hs Hn ltac:(lia) p999_ratio) as H999.
  destruct (report_ends l Hs Hn) as [Hlo Hhi].
  split; cbn [Count Min Max Mean P50 P95 P99 P999]; try done.
  - pose proof (report_order l Hs Hn _ _ H50). pose proof (report_order l Hs Hn _ _ H999).
    pose proof (quantile_mono 500 950 _ _ _ ltac:(lia) H50 H95). pose proof (quantile_mono 950 990 _ _ _ ltac:(lia) H95 H99).
    pose proof (quantile_mono 990 999 _ _ _ ltac:(lia) H99 H999). unfold p, lo, hi, n. lia.
  - apply (report_mean l Hs Hn).
Qed.

#[local] Instance quantile_perm k : Proper ((≡ₚ) ==> (=) ==> impl) (quantile k).
Proof.
  intros l l' E v ? <- (Hv & Ha & Hb). rewrite (at_most_perm v l l' E) in Ha.
  rewrite (below_perm v l l' E) in Hb. rewrite (Permutation_length E) in Ha, Hb. rewrite E in Hv. done.
Qed.

#[local] Instance distribution_perm : Proper ((≡ₚ) ==> (=) ==> impl) distribution.
Proof.
  intros l l' E r ? <- [Hc [Hmin Hmins] [Hmax Hmaxs] H50 H95 H99 H999 Ho Hm].
  pose proof (λ k v, quantile_perm k l l' E v v eq_refl) as Hq. unfold impl in Hq.
  rewrite (Permutation_length E) in Hc. rewrite E in Hmin, Hmins, Hmax, Hmaxs. rewrite (sum_perm l l' E) in Hm.
  split; auto. intros Hpos. apply Hm. by rewrite E.
Qed.

Lemma resultFor_distribution s :
  1 ≤ Z.of_nat (length (durations s)) ≤ 2 ^ 26 →
  distribution (durations s) (resultFor s) ∧ Errors (resultFor s) = errors s.
Proof.
  intros Hn. unfold resultFor. rewrite (proj2 (Z.eqb_neq _ _)) by lia.
  assert (Hp : merge_sort Z.le (durations s) ≡ₚ durations s) by apply merge_sort_Permutation.
  assert (Hs : StronglySorted Z.le (merge_sort Z.le (durations s))) by (apply StronglySorted_merge_sort; apply _).
  split; [|done]. eapply distribution_perm; [exact Hp|reflexivity|].
  assert (Hlen : length (durations s) = length (merge_sort Z.le (durations s))) by by rewrite Hp.
  rewrite Hlen in Hn |- *. by apply (distribution_sorted _ Hs Hn).
Qed.

(** ** Summaries *)

(** A history of observations: operation, latency, whether it failed. *)
Abbreviation history := (list (string * Z * bool)).

Definition of_op (op : string) (obs : history) : history := filter (λ o, o.1.1 = op) obs.
Definition latencies (op : string) (obs : history) : list Z := (λ o, o.1.2) <$> of_op op obs.
Definition failures (op : string) (obs : history) : Z := Z.of_nat (length (filter (λ o, o.2 = true) (of_op op obs))).
Definition recorded (obs : history) : Samples := foldl (λ ops '(op, d, err), observe op d err ops) ∅ obs.

Lemma of_op_snoc op obs op' d err :
  of_op op (obs ++ [(op', d, err)]) = of_op op obs ++ (if decide (op' = op) then [(op', d, err)] else []).
Proof. unfold of_op. rewrite filter_app, filter_cons, filter_nil. done. Qed.

Lemma observe_lookup op' d err ops op :
  observe op' d err ops !! op =
    if decide (op' = op)
    then let s := default (MkSamples [] 0) (ops !! op) in
         Some (MkSamples (durations s ++ [d]) (if err then errors s + 1 else errors s))
    else ops !! op.
Proof. case_decide as E; [subst op'; apply (lookup_insert_eq (M := gmap string))|by apply (lookup_insert_ne (M := gmap string))]. Qed.

Lemma recorded_lookup op obs :
  recorded obs !! op =
    match of_op op obs with [] => None | _ => Some (MkSamples (latencies op obs) (failures op obs)) end.
Proof.
  induction obs as [|[[op' d] err] obs IH] using rev_ind; [done|].
  unfold recorded in *. rewrite foldl_app. cbn [foldl]. rewrite observe_lookup, IH.
  unfold latencies, failures. rewrite of_op_snoc. case_decide as E; [|by rewrite app_nil_r].
  rewrite filter_app, length_app, fmap_app, Nat2Z.inj_add.
  assert (Hone : Z.of_nat (length (filter (λ o, o.2 = true) [(op', d, err)])) = if err then 1 else 0) by by destruct err.
  rewrite Hone. destruct (of_op op obs) as [|o l]; [by destruct err|].
  set (n := length (filter _ (o :: l))). clearbody n. cbn. f_equal. f_equal. destruct err; lia.
Qed.

(** C40: the summary tells the truth about the samples. An operation that was
    never observed is absent; for any other (of at most [2 ^ 26] samples) the
    count and the errors are exact, [Min] and [Max] are the extreme latencies,
    [P50], [P95], [P99] and [P999] are the nearest-rank quantiles, each the
    least sample that covers its share of the samples although the rank is
    computed in floating point with a constant that stands in for rounding up,
    they are in order, and [Mean] is the average rounded down, when the
    latencies are not negative and their sum fits an int64. *)
Theorem Summarize_faithful obs cfg elapsed op :
  Z.of_nat (length (latencies op obs)) ≤ 2 ^ 26 →
  match sOps (Summarize (recorded obs) cfg elapsed) !! op with
  | None => of_op op obs = []
  | Some r => distribution (latencies op obs) r ∧ Errors r = failures op obs
  end.
Proof.
  intros Hn. cbn [sOps Summarize]. rewrite lookup_fmap, recorded_lookup.
  destruct (of_op op obs) as [|o l] eqn:E; cbn [fmap option_fmap option_map]; [done|].
  apply (resultFor_distribution (MkSamples _ _)). cbn [durations]. split; [|done].
  unfold latencies. rewrite E. cbn. lia.
Qed.

Definition demo_history : history :=
  [(OpAcquire, 30, false); (OpRenew, 5, true); (OpAcquire, 10, true); (OpAcquire, 20, false); (OpRenew, 7, false)].

Lemma Summarize_faithful_witness :
  let c := MkConfig "ns" "" "" ScenarioColdStart 3 1 Second 1 0 1 (float_of 0) in
  match sOps (Summarize (recorded demo_history) c 0) !! OpAcquire with
  | None => of_op OpAcquire demo_history = []
  | Some r => distribution [30; 10; 20] r ∧ Errors r = 1
  end.
Proof. apply (Summarize_faithful demo_history _ 0 OpAcquire). vm_compute. discriminate. Defined.

(** ** Names *)

Lemma zeros_parse n s : s ≠ "" → parse_digits 0 (zeros n +:+ s) = parse_digits 0 s.
Proof. intros Hs. induction n as [|n IH]; [done|]. exact IH. Qed.

(** The index can be read off a padded name. *)
Lemma pad6_inj i j : 0 ≤ i → 0 ≤ j → pad6 i = pad6 j → i = j.
Proof.
  intros Hi Hj E. destruct (FormatInt_digits i Hi) as (Pi & Ni & _). destruct (FormatInt_digits j Hj) as (Pj & Nj & _).
  apply (f_equal (parse_digits 0)) in E. unfold pad6 in E. rewrite !zeros_parse in E by done. congruence.
Qed.

Lemma app_prefix_inj (p s t : string) : p +:+ s = p +:+ t → s = t.
Proof. induction p as [|c p IH]; [done|]. rewrite !app_string_cons. intros [= E]. auto. Qed.

Lemma leaseName_inj i j : 0 ≤ i → 0 ≤ j → leaseName i = leaseName j → i = j.
Proof. intros Hi Hj E%app_prefix_inj. by apply pad6_inj. Qed.

Lemma holderName_inj c s t : holderName c s = holderName c t → s = t.
Proof. unfold holderName. case_match; [done|]. by intros ?%app_prefix_inj%(app_prefix_inj "/"). Qed.

Lemma activeHolder_inj c i j : 0 ≤ i → 0 ≤ j → activeHolder c i = activeHolder c j → i = j.
Proof. intros Hi Hj E%holderName_inj%app_prefix_inj. by apply pad6_inj. Qed.

Lemma active_not_standby c i j : activeHolder c i ≠ standbyHolder c j.
Proof. intros E%holderName_inj. done. Qed.

(** A tenant-scoped driver names only holders its tenant owns. *)
Lemma load_holders_owned c id base :
  Tenant c ≠ "" → contains_char "/" (Tenant c) = false → iTenant id = Tenant c →
  AuthorizeHolder NewDefaultAuthorizer (Some id) (holderName c base) = Ok ().
Proof.
  intros Ht Hs Hid. unfold NewDefaultAuthorizer. cbn [AuthorizeHolder DefaultAuthorizer].
  apply (AuthorizeHolder_ok (H := IdentityResolver)). exists (Tenant c). split_and!; [|done|].
  - cbn. rewrite Hid. by rewrite bool_decide_false.
  - unfold holderName. rewrite bool_decide_false by done. unfold root.
    change ("/" +:+ base) with (String "/" base). by rewrite cut_app.
Qed.

(** A churn fraction that is not a number passes both range tests, and then no
    draw is below it: the run never churns. *)
Lemma churn_nan_accepted :
  Validate (MkConfig "ns" "" "" ScenarioChurn 1 1 Second 1 1 1 S754_nan) = Ok () ∧
  ∀ draw, SFltb draw S754_nan = false.
Proof. split; [vm_compute; reflexivity|]. by intros []. Qed.
