(* ===== verification/LoadRun.v ===== *)
(** * The load driver's scenarios

    [internal/load/run.go]: [Run] and its four scenarios, the fan-out helpers
    and the timing wrappers, as programs of goroutines. A goroutine is a
    [task]; its program issues operations ([loadE]) on what the goroutines
    share: the recorder, the wait groups, the semaphores of the bounded bursts,
    the contexts, the token slice, the start gate and the clock. A loop that
    runs until its context is done ends an iteration by asking to be run again,
    so goroutines run as long as they have to. [machine] interleaves the
    goroutines and answers their operations; the lease API answers a call as it
    pleases. *)

From stdpp Require Import gmultiset.
From S2P Require Import Prelude GoStrings Store Manager Float64 LoadStats.
From Stdlib Require Import SpecFloat.

(** ** Operations *)

(** The calls of [LeaseClient]. *)
Inductive rpc :=
| RpcAcquire (namespace name holder : string) (ttl : Z)
| RpcRenew (namespace name holder : string) (fencingToken ttl : Z)
| RpcRelease (namespace name holder : string) (fencingToken : Z).

Definition rpc_res (r : rpc) : Type :=
  match r with RpcRelease _ _ _ _ => unit | _ => AcquireResult end.

Definition op_of (r : rpc) : string :=
  match r with RpcAcquire _ _ _ _ => OpAcquire | RpcRenew _ _ _ _ _ => OpRenew | RpcRelease _ _ _ _ => OpRelease end.

(** The run's context and the two derived from it. *)
Inductive ctx := CtxRun | CtxDeadline | CtxRenew.

(** The bounded bursts: the initial acquire of the sustained scenarios, and the
    two of the failover. *)
Inductive phase := PInit | PPopulate | PReclaim.

(** The wait groups. *)
Inductive group := WPool (p : phase) | WEach | WCold | WSurvivors.

(** The goroutines, each with the variables it closes over. *)
Inductive task :=
| TPool (p : phase) (i : Z)
| TSteady (i : Z)
| TSteadyLoop (i token : Z)
| TChurn (i : Z)
| TChurnLoop (i : Z) (holder : string) (token gen : Z)
| TCold (i : Z)
| TSurvivor (i token : Z).

Inductive loadE : Type → Type :=
| LNow : loadE Z
| LCall (c : ctx) (r : rpc) : loadE (result (rpc_res r))
| LObserve (op : string) (d : Z) (err : bool) : loadE unit
| LHook (op : string) (d : Z) (err : bool) : loadE unit
| LSamples : loadE Samples
| LErr (c : ctx) : loadE bool
| LTimer (d : Z) : loadE Z
| LSelectTimer (c : ctx) (at_ : Z) : loadE unit
| LFloat : loadE float64
| LWithTimeout (d : Z) : loadE unit
| LCancel (c : ctx) : loadE unit
| LGo (t : task) : loadE unit
| LSelectSlot (c : ctx) (p : phase) : loadE bool
| LFree (p : phase) : loadE unit
| LAdd (w : group) (n : Z) : loadE unit
| LDone (w : group) : loadE unit
| LWait (w : group) : loadE unit
| LGate : loadE unit
| LOpenGate : loadE unit
| LToken (i : Z) : loadE Z
| LSetToken (i token : Z) : loadE unit.

(** A goroutine ends, or runs another iteration. *)
Inductive next := Finished | Again (t : task).

(** ** The source's functions *)

Section programs.
Context (cfg : Config) (hook : bool).

(** [Recorder.Observe]: the samples under the lock, then the hook. *)
Definition Observe (op : string) (d : Z) (err : bool) : prog loadE unit :=
  _ ← trigger (LObserve op d err);
  if hook then trigger (LHook op d err) else mret ().

Definition failed {A} (r : result A) : bool := negb (is_ok r).

Definition timed (c : ctx) (r : rpc) : prog loadE (result (rpc_res r)) :=
  start ← trigger LNow;
  res ← trigger (LCall c r);
  now ← trigger LNow;
  _ ← Observe (op_of r) (Sub now start) (failed res);
  mret res.

Definition recAcquire (c : ctx) (ns name holder : string) (ttl : Z) : prog loadE (result AcquireResult) :=
  timed c (RpcAcquire ns name holder ttl).
Definition recRenew (c : ctx) (ns name holder : string) (token ttl : Z) : prog loadE (result AcquireResult) :=
  timed c (RpcRenew ns name holder token ttl).
Definition recRelease (c : ctx) (ns name holder : string) (token : Z) : prog loadE (result unit) :=
  timed c (RpcRelease ns name holder token).

Definition sleepCtx (c : ctx) (d : Z) : prog loadE unit :=
  at_ ← trigger (LTimer d); trigger (LSelectTimer c at_).

(** [if err == nil && res.Acquired { token = res.FencingToken }]. *)
Definition granted_token (res : result AcquireResult) (token : Z) : Z :=
  match res with Ok r => if aAcquired r then aFencingToken r else token | Err _ => token end.

(** One iteration of a survivor's renew loop in [runFailover]. *)
Definition survivor (i token : Z) : prog loadE next :=
  done ← trigger (LErr CtxRenew);
  if (done : bool) then _ ← trigger (LDone WSurvivors); mret Finished
  else
    res ← recRenew CtxRun (Namespace cfg) (leaseName i) (activeHolder cfg i) token (TTL cfg);
    _ ← sleepCtx CtxRenew (Heartbeat cfg);
    mret (Again (TSurvivor i (granted_token res token))).

(** The functions the bounded bursts run. *)
Definition pool_fn (p : phase) (i : Z) : prog loadE unit :=
  match p with
  | PInit =>
      res ← recAcquire CtxRun (Namespace cfg) (leaseName i) (activeHolder cfg i) (TTL cfg);
      match res with
      | Ok r => if aAcquired r then trigger (LSetToken i (aFencingToken r)) else mret ()
      | Err _ => mret ()
      end
  | PPopulate =>
      res ← recAcquire CtxRun (Namespace cfg) (leaseName i) (activeHolder cfg i) (TTL cfg);
      if Z.rem i 2 =? 0 then mret ()
      else
        _ ← trigger (LAdd WSurvivors 1);
        trigger (LGo (TSurvivor i (granted_token res 0)))
  | PReclaim =>
      if negb (Z.rem i 2 =? 0) then mret ()
      else
        _ ← recAcquire CtxRun (Namespace cfg) (leaseName i) (standbyHolder cfg i) (TTL cfg);
        mret ()
  end.

(** One iteration of a holder and its standby in [runSteady]. *)
Definition steady (i token : Z) : prog loadE next :=
  done ← trigger (LErr CtxDeadline);
  if (done : bool) then _ ← trigger (LDone WEach); mret Finished
  else
    res ← recRenew CtxDeadline (Namespace cfg) (leaseName i) (activeHolder cfg i) token (TTL cfg);
    _ ← recAcquire CtxDeadline (Namespace cfg) (leaseName i) (standbyHolder cfg i) (TTL cfg);
    _ ← sleepCtx CtxDeadline (Heartbeat cfg);
    mret (Again (TSteadyLoop i (granted_token res token))).

(** One iteration of a holder in [runChurn]. *)
Definition churn (i : Z) (holder : string) (token gen : Z) : prog loadE next :=
  done ← trigger (LErr CtxDeadline);
  if (done : bool) then _ ← trigger (LDone WEach); mret Finished
  else
    draw ← trigger LFloat;
    if SFltb draw (ChurnFraction cfg) then
      _ ← recRelease CtxDeadline (Namespace cfg) (leaseName i) holder token;
      let holder := activeHolder cfg i +:+ "-r" +:+ FormatInt (gen + 1) in
      res ← recAcquire CtxDeadline (Namespace cfg) (leaseName i) holder (TTL cfg);
      _ ← sleepCtx CtxDeadline (Heartbeat cfg);
      mret (Again (TChurnLoop i holder (granted_token res token) (gen + 1)))
    else
      res ← recRenew CtxDeadline (Namespace cfg) (leaseName i) holder token (TTL cfg);
      _ ← sleepCtx CtxDeadline (Heartbeat cfg);
      mret (Again (TChurnLoop i holder (granted_token res token) gen)).

(** What each goroutine does. *)
Definition body (t : task) : prog loadE next :=
  match t with
  | TPool p i => _ ← pool_fn p i; _ ← trigger (LFree p); _ ← trigger (LDone (WPool p)); mret Finished
  | TSteady i => token ← trigger (LToken i); mret (Again (TSteadyLoop i token))
  | TSteadyLoop i token => steady i token
  | TChurn i => token ← trigger (LToken i); mret (Again (TChurnLoop i (activeHolder cfg i) token 0))
  | TChurnLoop i holder token gen => churn i holder token gen
  | TCold i =>
      _ ← trigger LGate;
      _ ← recAcquire CtxRun (Namespace cfg) (leaseName i) (activeHolder cfg i) (TTL cfg);
      _ ← trigger (LDone WCold); mret Finished
  | TSurvivor i token => survivor i token
  end.

(** ** Fan-out *)

Fixpoint spawn_all (mk : Z → task) (n : nat) (i : Z) : prog loadE unit :=
  match n with
  | O => mret ()
  | S n => _ ← trigger (LGo (mk i)); spawn_all mk n (i + 1)
  end.

Definition forEachLease (mk : Z → task) (leases : Z) : prog loadE unit :=
  _ ← trigger (LAdd WEach leases);
  _ ← spawn_all mk (Z.to_nat leases) 0;
  trigger (LWait WEach).

Fixpoint bounded_loop (c : ctx) (p : phase) (n : nat) (i : Z) : prog loadE unit :=
  match n with
  | O => mret ()
  | S n =>
      slot ← trigger (LSelectSlot c p);
      if (slot : bool) then
        _ ← trigger (LAdd (WPool p) 1);
        _ ← trigger (LGo (TPool p i));
        bounded_loop c p n (i + 1)
      else mret ()
  end.

Definition forEachLeaseBounded (c : ctx) (p : phase) (leases : Z) : prog loadE unit :=
  _ ← bounded_loop c p (Z.to_nat leases) 0;
  trigger (LWait (WPool p)).

(** ** Scenarios *)

Definition initialAcquire : prog loadE unit := forEachLeaseBounded CtxRun PInit (Leases cfg).

Definition sustained (mk : Z → task) : prog loadE unit :=
  _ ← initialAcquire;
  _ ← trigger (LWithTimeout (Duration cfg));
  _ ← forEachLease mk (Leases cfg);
  trigger (LCancel CtxDeadline).

Definition runSteady : prog loadE unit := sustained TSteady.
Definition runChurn : prog loadE unit := sustained TChurn.

Definition runColdStart : prog loadE unit :=
  _ ← trigger (LAdd WCold (Leases cfg));
  _ ← spawn_all TCold (Z.to_nat (Leases cfg)) 0;
  _ ← trigger LOpenGate;
  trigger (LWait WCold).

Definition margin : Z :=
  let m := Z.quot (TTL cfg) 10 in if m <? 100 * Millisecond then 100 * Millisecond else m.

Definition runFailover : prog loadE unit :=
  _ ← forEachLeaseBounded CtxRun PPopulate (Leases cfg);
  _ ← sleepCtx CtxRun (wrap64 (TTL cfg + margin));
  _ ← forEachLeaseBounded CtxRun PReclaim (Leases cfg);
  _ ← trigger (LCancel CtxRenew);
  trigger (LWait WSurvivors).

Definition scenario : option (prog loadE unit) :=
  if Scenario cfg == ScenarioSteady then Some runSteady
  else if Scenario cfg == ScenarioColdStart then Some runColdStart
  else if Scenario cfg == ScenarioFailover then Some runFailover
  else if Scenario cfg == ScenarioChurn then Some runChurn
  else None.

Definition Run : prog loadE (result Summary) :=
  match Validate cfg with
  | Err e => mret (Err (ErrWrap "invalid config" e))
  | Ok _ =>
      start ← trigger LNow;
      match scenario with
      | None => mret (Err (ErrMsg "unknown scenario"))
      | Some run =>
          _ ← run;
          now ← trigger LNow;
          samples ← trigger LSamples;
          mret (Ok (Summarize samples cfg (Sub now start)))
      end
  end.
End programs.

(** ** The machine *)

#[export] Instance rpc_eq_dec : EqDecision rpc.
Proof. solve_decision. Defined.
#[export] Instance ctx_eq_dec : EqDecision ctx.
Proof. solve_decision. Defined.
#[export] Instance phase_eq_dec : EqDecision phase.
Proof. solve_decision. Defined.
#[export] Instance group_eq_dec : EqDecision group.
Proof. solve_decision. Defined.

(** What goroutines hold: a slot of a semaphore, a count of a wait group. The
    accounting of the proofs adds a call made and not yet recorded, and a call
    still to be made. *)
Inductive token :=
| Slot (p : phase)
| Wg (w : group)
| Pend (op : string) (err : bool)
| Todo (r : rpc).

#[export] Instance token_eq_dec : EqDecision token.
Proof. solve_decision. Defined.

#[export] Instance rpc_countable : Countable rpc.
Proof.
  refine (inj_countable'
    (λ r, match r with
          | RpcAcquire a b c d => inl (a, b, c, d)
          | RpcRenew a b c d e => inr (inl (a, b, c, d, e))
          | RpcRelease a b c d => inr (inr (a, b, c, d))
          end)
    (λ x, match x with
          | inl (a, b, c, d) => RpcAcquire a b c d
          | inr (inl (a, b, c, d, e)) => RpcRenew a b c d e
          | inr (inr (a, b, c, d)) => RpcRelease a b c d
          end) _). by intros [].
Defined.

#[export] Instance phase_countable : Countable phase.
Proof.
  refine (inj_countable' (λ p, match p with PInit => 0%nat | PPopulate => 1%nat | PReclaim => 2%nat end)
    (λ n, match n with 0%nat => PInit | 1%nat => PPopulate | _ => PReclaim end) _). by intros [].
Defined.

#[export] Instance group_countable : Countable group.
Proof.
  refine (inj_countable'
    (λ w, match w with WPool p => inl p | WEach => inr 0%nat | WCold => inr 1%nat | WSurvivors => inr 2%nat end)
    (λ x, match x with inl p => WPool p | inr 0%nat => WEach | inr 1%nat => WCold | inr _ => WSurvivors end) _).
  by intros [].
Defined.

#[export] Instance token_countable : Countable token.
Proof.
  refine (inj_countable'
    (λ t, match t with
          | Slot p => inl (inl p) | Wg w => inl (inr w)
          | Pend op err => inr (inl (op, err)) | Todo r => inr (inr r)
          end)
    (λ x, match x with
          | inl (inl p) => Slot p | inl (inr w) => Wg w
          | inr (inl (op, err)) => Pend op err | inr (inr r) => Todo r
          end) _). by intros [].
Defined.

(** What the goroutines share. [sh_out] counts the slots taken and the wait
    groups; [sh_calls] and [sh_obs] are the history of the calls and of the
    samples. *)
Record shared := MkShared {
  sh_now : Z;
  sh_cancelled : bool;
  sh_deadline : option Z;
  sh_stopDeadline : bool;
  sh_stopRenew : bool;
  sh_gate : bool;
  sh_out : gmultiset token;
  sh_tokens : gmap Z Z;
  sh_samples : Samples;
  sh_hooked : list (string * Z * bool);
  sh_calls : list (rpc * bool);
  sh_obs : list (string * Z * bool) }.

(** [ctx.Err() != nil]. *)
Definition done (s : shared) (c : ctx) : bool :=
  sh_cancelled s ||
  match c with
  | CtxRun => false
  | CtxDeadline => sh_stopDeadline s || match sh_deadline s with Some d => d <=? sh_now s | None => false end
  | CtxRenew => sh_stopRenew s
  end.

Definition set_out (out : gmultiset token) (s : shared) : shared :=
  MkShared (sh_now s) (sh_cancelled s) (sh_deadline s) (sh_stopDeadline s) (sh_stopRenew s) (sh_gate s)
    out (sh_tokens s) (sh_samples s) (sh_hooked s) (sh_calls s) (sh_obs s).

Definition set_now (now : Z) (s : shared) : shared :=
  MkShared now (sh_cancelled s) (sh_deadline s) (sh_stopDeadline s) (sh_stopRenew s) (sh_gate s)
    (sh_out s) (sh_tokens s) (sh_samples s) (sh_hooked s) (sh_calls s) (sh_obs s).

Definition set_cancelled (s : shared) : shared :=
  MkShared (sh_now s) true (sh_deadline s) (sh_stopDeadline s) (sh_stopRenew s) (sh_gate s)
    (sh_out s) (sh_tokens s) (sh_samples s) (sh_hooked s) (sh_calls s) (sh_obs s).

(** The answers an operation may get, and the state it leaves. An operation
    that has no answer blocks: a receive on a full semaphore of a live context,
    a wait on a group that is not empty, a timer that has not fired, a closed
    gate. A [Done] or a [<-sem] too many has none either (the first panics, the
    second blocks for ever). *)
Definition answer (cfg : Config) {X} (e : loadE X) (s : shared) : X → shared → Prop :=
  match e in loadE X return X → shared → Prop with
  | LNow => λ x s', x = sh_now s ∧ s' = s
  | LCall c r => λ x s', s' =
      MkShared (sh_now s) (sh_cancelled s) (sh_deadline s) (sh_stopDeadline s) (sh_stopRenew s) (sh_gate s)
        (sh_out s) (sh_tokens s) (sh_samples s) (sh_hooked s) (sh_calls s ++ [(r, failed x)]) (sh_obs s)
  | LObserve op d err => λ _ s', s' =
      MkShared (sh_now s) (sh_cancelled s) (sh_deadline s) (sh_stopDeadline s) (sh_stopRenew s) (sh_gate s)
        (sh_out s) (sh_tokens s) (observe op d err (sh_samples s)) (sh_hooked s) (sh_calls s) (sh_obs s ++ [(op, d, err)])
  | LHook op d err => λ _ s', s' =
      MkShared (sh_now s) (sh_cancelled s) (sh_deadline s) (sh_stopDeadline s) (sh_stopRenew s) (sh_gate s)
        (sh_out s) (sh_tokens s) (sh_samples s) (sh_hooked s ++ [(op, d, err)]) (sh_calls s) (sh_obs s)
  | LSamples => λ x s', x = sh_samples s ∧ s' = s
  | LErr c => λ x s', x = done s c ∧ s' = s
  | LTimer d => λ x s', x = sh_now s + d ∧ s' = s
  | LSelectTimer c at_ => λ _ s', (done s c = true ∨ at_ ≤ sh_now s) ∧ s' = s
  | LFloat => λ _ s', s' = s
  | LWithTimeout d => λ _ s', s' =
      MkShared (sh_now s) (sh_cancelled s) (Some (sh_now s + d)) (sh_stopDeadline s) (sh_stopRenew s) (sh_gate s)
        (sh_out s) (sh_tokens s) (sh_samples s) (sh_hooked s) (sh_calls s) (sh_obs s)
  | LCancel c => λ _ s', s' =
      MkShared (sh_now s) (sh_cancelled s || (c == CtxRun)) (sh_deadline s)
        (sh_stopDeadline s || (c == CtxDeadline)) (sh_stopRenew s || (c == CtxRenew)) (sh_gate s)
        (sh_out s) (sh_tokens s) (sh_samples s) (sh_hooked s) (sh_calls s) (sh_obs s)
  | LGo _ => λ _ s', s' = s
  | LSelectSlot c p => λ x s',
      (x = false ∧ done s c = true ∧ s' = s) ∨
      (x = true ∧ Z.of_nat (multiplicity (Slot p) (sh_out s)) < Concurrency cfg ∧
       s' = set_out ({[+ Slot p +]} ⊎ sh_out s) s)
  | LFree p => λ _ s', ∃ out, sh_out s = {[+ Slot p +]} ⊎ out ∧ s' = set_out out s
  | LAdd w n => λ _ s', s' = set_out (Z.to_nat n *: {[+ Wg w +]} ⊎ sh_out s) s
  | LDone w => λ _ s', ∃ out, sh_out s = {[+ Wg w +]} ⊎ out ∧ s' = set_out out s
  | LWait w => λ _ s', multiplicity (Wg w) (sh_out s) = 0%nat ∧ s' = s
  | LGate => λ _ s', sh_gate s = true ∧ s' = s
  | LOpenGate => λ _ s', s' =
      MkShared (sh_now s) (sh_cancelled s) (sh_deadline s) (sh_stopDeadline s) (sh_stopRenew s) true
        (sh_out s) (sh_tokens s) (sh_samples s) (sh_hooked s) (sh_calls s) (sh_obs s)
  | LToken i => λ x s', x = default 0 (sh_tokens s !! i) ∧ s' = s
  | LSetToken i token => λ _ s', s' =
      MkShared (sh_now s) (sh_cancelled s) (sh_deadline s) (sh_stopDeadline s) (sh_stopRenew s) (sh_gate s)
        (sh_out s) (<[i := token]> (sh_tokens s)) (sh_samples s) (sh_hooked s) (sh_calls s) (sh_obs s)
  end.

(** The goroutine an operation starts. *)
Definition spawned {X} (e : loadE X) : list task := match e with LGo t => [t] | _ => [] end.

Record machine := MkMachine {
  m_main : prog loadE (result Summary);
  m_threads : list (prog loadE next);
  m_shared : shared }.

Section machine.
Context (cfg : Config) (hook : bool).

(** One operation of the caller's goroutine or of one it started. *)
Inductive gstep : machine → machine → Prop :=
| g_main X (e : loadE X) k x ths s s' :
    answer cfg e s x s' →
    gstep (MkMachine (Op e k) ths s) (MkMachine (k x) (ths ++ (body cfg hook <$> spawned e)) s')
| g_thread main X (e : loadE X) k x before after s s' :
    answer cfg e s x s' →
    gstep (MkMachine main (before ++ Op e k :: after) s)
      (MkMachine main ((before ++ k x :: after) ++ (body cfg hook <$> spawned e)) s')
| g_again main t before after s :
    gstep (MkMachine main (before ++ Ret (Again t) :: after) s)
      (MkMachine main (before ++ body cfg hook t :: after) s).

(** Time passes, and the caller may cancel its context. *)
Inductive mstep : machine → machine → Prop :=
| m_go m m' : gstep m m' → mstep m m'
| m_tick main ths s now : sh_now s ≤ now → mstep (MkMachine main ths s) (MkMachine main ths (set_now now s))
| m_cancel main ths s : mstep (MkMachine main ths s) (MkMachine main ths (set_cancelled s)).

Definition fresh (now : Z) (cancelled : bool) : shared :=
  MkShared now cancelled None false false (Scenario cfg != ScenarioColdStart) ∅ ∅ ∅ [] [] [].

Definition started (now : Z) (cancelled : bool) : machine :=
  MkMachine (Run cfg) [] (fresh now cancelled).
End machine.
