(* ===== verification/LoadSpec.v ===== *)
(** * The load driver's guarantees

    Each goroutine owes what it holds: slots, counts of wait groups, calls it
    has made and not recorded, calls it has still to make. [obeys] checks a
    program against that accounting, operation by operation; the books of the
    whole machine ([books]) balance in every reachable state. From the books:
    a burst never has more goroutines than slots, [Run] returns only when every
    goroutine has ended, its summary covers every call, the one-shot scenarios
    make exactly the calls they are meant to, and no state is stuck. *)

From stdpp Require Import gmultiset.
From S2P Require Import Prelude GoStrings Store Manager Float64 LoadStats LoadRun.

(** ** Accounting *)

Definition tally {A} (f : A → gmultiset token) (l : list A) : gmultiset token :=
  foldr (λ a acc, f a ⊎ acc) ∅ l.

Lemma tally_app {A} (f : A → gmultiset token) l l' : tally f (l ++ l') = tally f l ⊎ tally f l'.
Proof.
  induction l as [|a l IH]; cbn [tally foldr app]; [multiset_solver|].
  fold (tally f (l ++ l')) (tally f l). rewrite IH. multiset_solver.
Qed.

Lemma tally_cons {A} (f : A → gmultiset token) a l : tally f (a :: l) = f a ⊎ tally f l.
Proof. done. Qed.

Lemma tally_snoc {A} (f : A → gmultiset token) l a : tally f (l ++ [a]) = f a ⊎ tally f l.
Proof. rewrite tally_app. cbn [tally foldr]. multiset_solver. Qed.

Lemma tally_fmap {A B} (f : B → gmultiset token) (g : A → B) l : tally f (g <$> l) = tally (λ a, f (g a)) l.
Proof. induction l as [|a l IH]; [done|]. cbn. by f_equal. Qed.

Lemma elem_of_tally {A} (f : A → gmultiset token) l t : t ∈ tally f l ↔ ∃ a, a ∈ l ∧ t ∈ f a.
Proof.
  induction l as [|a l IH]; [set_solver|]. rewrite tally_cons, gmultiset_elem_of_disj_union, IH. set_solver.
Qed.

(** What the caller's goroutine has still to do for the others: wait for a
    group, open the gate. *)
Inductive duty := Join (w : group) | OpenGate.

#[export] Instance duty_eq_dec : EqDecision duty.
Proof. solve_decision. Defined.
#[export] Instance duty_countable : Countable duty.
Proof.
  refine (inj_countable' (λ d, match d with Join w => Some w | OpenGate => None end)
    (λ o, match o with Some w => Join w | None => OpenGate end) _). by intros [].
Defined.

(** Counting up a group is a promise to wait for it; populating leases may
    start survivors. *)
Definition joins (w : group) : gset duty :=
  {[Join w]} ∪ (if decide (w = WPool PPopulate) then {[Join WSurvivors]} else ∅).

Lemma joins_one w : w ≠ WPool PPopulate → joins w = {[Join w]}.
Proof. intros Hw. unfold joins. rewrite decide_False by done. set_solver. Qed.

Lemma joins_populate : joins (WPool PPopulate) = {[Join (WPool PPopulate); Join WSurvivors]}.
Proof. unfold joins. by rewrite decide_True. Qed.

Lemma gate_not_joined w : OpenGate ∉ joins w.
Proof. unfold joins. case_decide; set_solver. Qed.

Section accounting.
Context (cfg : Config) (hook : bool).

(** The one-shot scenarios make a fixed set of calls (but for renewals). *)
Definition one_shot : bool := (Scenario cfg == ScenarioColdStart) || (Scenario cfg == ScenarioFailover).

Definition planned (r : rpc) : bool :=
  one_shot && match r with RpcRenew _ _ _ _ _ => false | _ => true end.

Definition need (r : rpc) : gmultiset token := if planned r then {[+ Todo r +]} else ∅.

Definition active_call (i : Z) : rpc := RpcAcquire (Namespace cfg) (leaseName i) (activeHolder cfg i) (TTL cfg).
Definition standby_call (i : Z) : rpc := RpcAcquire (Namespace cfg) (leaseName i) (standbyHolder cfg i) (TTL cfg).

(** The calls a goroutine has to make, and what it holds when it starts. *)
Definition todo (t : task) : gmultiset token :=
  match t with
  | TPool PReclaim i => if Z.rem i 2 =? 0 then need (standby_call i) else ∅
  | TPool _ i | TCold i => need (active_call i)
  | _ => ∅
  end.

Definition entry (t : task) : gmultiset token :=
  match t with
  | TPool p _ => {[+ Slot p +]} ⊎ {[+ Wg (WPool p) +]} ⊎ todo t
  | TCold _ => {[+ Wg WCold +]} ⊎ todo t
  | TSurvivor _ _ => {[+ Wg WSurvivors +]}
  | _ => {[+ Wg WEach +]}
  end.

(** The goroutines of the sustained scenarios call as long as they run. *)
Definition allowed (t : task) : Prop :=
  match t with
  | TPool _ _ | TCold _ | TSurvivor _ _ => True
  | _ => one_shot = false
  end.

Definition is_todo (t : token) : Prop := match t with Todo _ => True | _ => False end.

Definition is_sync (t : token) : Prop := match t with Slot _ | Wg _ => True | _ => False end.

(** The caller may block: it holds nothing that others wait for. *)
Definition idle (o : gmultiset token) (live : gset duty) : Prop :=
  (∀ t, t ∈ o → is_todo t) ∧ OpenGate ∉ live.

(** What an operation does to the accounts, [main] saying whose operation it
    is: what must be held before it, and what is held after. *)
Definition after (main : bool) {X} (e : loadE X) (o : gmultiset token) (live : gset duty) :
    (X → gmultiset token → gset duty → Prop) → Prop :=
  match e in loadE X return (X → gmultiset token → gset duty → Prop) → Prop with
  | LCall _ r => λ Q, ∃ o', o = need r ⊎ o' ∧ ∀ x, Q x ({[+ Pend (op_of r) (failed x) +]} ⊎ o') live
  | LObserve op _ err => λ Q, ∃ o', o = {[+ Pend op err +]} ⊎ o' ∧ Q () o' live
  | LGo t => λ Q, allowed t ∧ ∃ o', o = entry t ⊎ o' ∧ Q () o' live
  | LSelectSlot c p => λ Q, main = true ∧ c = CtxRun ∧ idle o live ∧ Q true ({[+ Slot p +]} ⊎ o) live ∧
      ∃ o' lost, o = o' ⊎ lost ∧ Q false o' live
  | LFree p => λ Q, ∃ o', o = {[+ Slot p +]} ⊎ o' ∧ Q () o' live
  | LAdd w n => λ Q,
      if main then Q () (Z.to_nat n *: {[+ Wg w +]} ⊎ o) (live ∪ joins w)
      else w = WSurvivors ∧ Wg (WPool PPopulate) ∈ o ∧ Q () (Z.to_nat n *: {[+ Wg w +]} ⊎ o) live
  | LDone w => λ Q, ∃ o', o = {[+ Wg w +]} ⊎ o' ∧ Q () o' live
  | LWait w => λ Q, main = true ∧ idle o live ∧ (w = WSurvivors → Join (WPool PPopulate) ∉ live) ∧
      Q () o (live ∖ {[Join w]})
  | LGate => λ Q, main = false ∧ Q () o live
  | LOpenGate => λ Q, main = true ∧ Q () o (live ∖ {[OpenGate]})
  | LNow => λ Q, ∀ x, Q x o live
  | LHook _ _ _ => λ Q, Q () o live
  | LSamples => λ Q, ∀ x, Q x o live
  | LErr _ => λ Q, ∀ x, Q x o live
  | LTimer _ => λ Q, ∀ x, Q x o live
  | LSelectTimer _ _ => λ Q, Q () o live
  | LFloat => λ Q, ∀ x, Q x o live
  | LWithTimeout _ => λ Q, Q () o live
  | LCancel c => λ Q, c ≠ CtxRun ∧ Q () o live
  | LToken _ => λ Q, ∀ x, Q x o live
  | LSetToken _ _ => λ Q, Q () o live
  end.

Lemma after_mono main {X} (e : loadE X) o live (Q Q' : X → gmultiset token → gset duty → Prop) :
  (∀ x o' live', Q x o' live' → Q' x o' live') → after main e o live Q → after main e o live Q'.
Proof.
  intros HQ. destruct e; cbn [after]; try destruct main; naive_solver.
Qed.

(** A goroutine is counted in a wait group until its last operation. *)
Definition busy (main : bool) (o : gmultiset token) : Prop := main = true ∨ ∃ w, Wg w ∈ o.

Lemma busy_wg main w o : Wg w ∈ o → busy main o.
Proof. right. by exists w. Qed.

Lemma busy_mono main o o' : busy main o → o ⊆ o' → busy main o'.
Proof. intros [->|[w Hw]] Hs; [by left|]. right. exists w. multiset_solver. Qed.

Fixpoint obeys {A} (main : bool) (p : prog loadE A) (o : gmultiset token) (live : gset duty)
    (Q : A → gmultiset token → gset duty → Prop) : Prop :=
  match p with
  | Ret a => Q a o live
  | Op e k => busy main o ∧ after main e o live (λ x o' live', obeys main (k x) o' live' Q)
  end.

Lemma obeys_bind {A B} main (p : prog loadE A) (f : A → prog loadE B) o live Q :
  obeys main p o live (λ a o' live', obeys main (f a) o' live' Q) → obeys main (p ≫= f) o live Q.
Proof.
  revert o live. induction p as [a|X e k IH]; intros o live; [done|].
  cbn [obeys mbind prog_mbind prog_bind]. intros [Hb Ha]. split; [done|]. eapply after_mono; [|exact Ha].
  intros x o' live'. apply IH.
Qed.

Lemma obeys_op {A X} main (e : loadE X) (k : X → prog loadE A) o live Q :
  busy main o → after main e o live (λ x o' live', obeys main (k x) o' live' Q) →
  obeys main (trigger e ≫= k) o live Q.
Proof. done. Qed.

Lemma obeys_last {X} main (e : loadE X) o live Q :
  busy main o → after main e o live Q → obeys main (trigger e) o live Q.
Proof. done. Qed.

Ltac find_wg :=
  first [by apply gmultiset_elem_of_singleton | apply gmultiset_elem_of_disj_union; first [left; find_wg | right; find_wg]].
Ltac count := first [by left | assumption | right; eexists; find_wg | eapply busy_mono; [eassumption|multiset_solver]].
Ltac op := apply obeys_op; [count|].
Ltac last_op := apply obeys_last; [count|].

(** ** The goroutines *)

Definition thread_end (r : next) (o : gmultiset token) (_ : gset duty) : Prop :=
  match r with Finished => o = ∅ | Again t => allowed t ∧ o = entry t end.

Lemma timed_obeys main c r o live (Q : result (rpc_res r) → gmultiset token → gset duty → Prop) :
  busy main o → (∀ res, Q res o live) → obeys main (timed hook c r) (need r ⊎ o) live Q.
Proof.
  intros Hb HQ. unfold timed, Observe. op. intros start. op. exists o. split; [done|].
  intros res. op. intros now. apply obeys_bind. op. exists o. split; [done|].
  destruct hook; [last_op|]; apply HQ.
Qed.

Lemma renew_need a b c d e : need (RpcRenew a b c d e) = ∅.
Proof. unfold need, planned. by rewrite andb_false_r. Qed.

Lemma sustained_need r : one_shot = false → need r = ∅.
Proof. unfold need, planned. by intros ->. Qed.

(** A call that is not planned needs nothing. *)
Lemma timed_free main c r o live (Q : result (rpc_res r) → gmultiset token → gset duty → Prop) :
  need r = ∅ → busy main o → (∀ res, Q res o live) → obeys main (timed hook c r) o live Q.
Proof.
  intros Hr Hb HQ. replace o with (need r ⊎ o) at 1 by (rewrite Hr; multiset_solver). by apply timed_obeys.
Qed.

Lemma sleepCtx_obeys main c d o live (Q : unit → gmultiset token → gset duty → Prop) :
  busy main o → Q () o live → obeys main (sleepCtx c d) o live Q.
Proof. intros Hb HQ. unfold sleepCtx. op. intros at_. by last_op. Qed.

Lemma pool_fn_obeys p i o live (Q : unit → gmultiset token → gset duty → Prop) :
  Wg (WPool p) ∈ o → Q () o live → obeys false (pool_fn cfg hook p i) (todo (TPool p i) ⊎ o) live Q.
Proof.
  intros Hw HQ. pose proof (busy_wg false _ _ Hw) as Hb. destruct p; cbn [pool_fn todo].
  - apply obeys_bind, timed_obeys; [count|]. intros [r|e]; [destruct (aAcquired r); [last_op|]|]; apply HQ.
  - apply obeys_bind, timed_obeys; [count|]. intros res. destruct (Z.rem i 2 =? 0); [apply HQ|].
    op. split_and!; [done|multiset_solver|]. last_op. split; [done|]. exists o. split; [multiset_solver|done].
  - destruct (Z.rem i 2 =? 0); cbn [negb].
    + apply obeys_bind, timed_obeys; [count|]. intros res. apply HQ.
    + cbn [obeys mret prog_mret]. by replace (∅ ⊎ o) with o by multiset_solver.
Qed.

Lemma body_obeys t live : allowed t → obeys false (body cfg hook t) (entry t) live thread_end.
Proof.
  intros Ht. destruct t as [p i|i|i token|i|i holder token gen|i|i token]; cbn [body entry].
  - apply obeys_bind.
    replace ({[+ Slot p +]} ⊎ {[+ Wg (WPool p) +]} ⊎ todo (TPool p i))
      with (todo (TPool p i) ⊎ ({[+ Slot p +]} ⊎ {[+ Wg (WPool p) +]})) by multiset_solver.
    apply pool_fn_obeys; [multiset_solver|]. op. exists {[+ Wg (WPool p) +]}. split; [done|].
    op. exists ∅. split; [multiset_solver|done].
  - op. intros token. done.
  - op. intros []; [op; exists ∅; split; [multiset_solver|done]|].
    apply obeys_bind, timed_free; [by apply sustained_need|count|]. intros res.
    apply obeys_bind, timed_free; [by apply sustained_need|count|]. intros res'.
    apply obeys_bind, sleepCtx_obeys; [count|done].
  - op. intros token. done.
  - op. intros []; [op; exists ∅; split; [multiset_solver|done]|].
    op. intros draw. destruct (SpecFloat.SFltb _ _).
    + apply obeys_bind, timed_free; [by apply sustained_need|count|]. intros res.
      apply obeys_bind, timed_free; [by apply sustained_need|count|]. intros res'.
      apply obeys_bind, sleepCtx_obeys; [count|done].
    + apply obeys_bind, timed_free; [by apply sustained_need|count|]. intros res.
      apply obeys_bind, sleepCtx_obeys; [count|done].
  - op. split; [done|]. apply obeys_bind.
    replace ({[+ Wg WCold +]} ⊎ todo (TCold i)) with (need (active_call i) ⊎ {[+ Wg WCold +]}) by (cbn [todo]; multiset_solver).
    apply timed_obeys; [count|]. intros res. op. exists ∅. split; [multiset_solver|done].
  - op. intros []; [op; exists ∅; split; [multiset_solver|done]|].
    apply obeys_bind, timed_free; [by apply renew_need|count|]. intros res.
    apply obeys_bind, sleepCtx_obeys; [count|done].
Qed.

(** ** The caller *)

Fixpoint todos (mk : Z → task) (n : nat) (i : Z) : gmultiset token :=
  match n with
  | O => ∅
  | S n => todo (mk i) ⊎ todos mk n (i + 1)
  end.

Lemma todos_todo mk n i t : t ∈ todos mk n i → is_todo t.
Proof.
  revert i. induction n as [|n IH]; intros i; cbn [todos]; [set_solver|].
  rewrite gmultiset_elem_of_disj_union. intros [Ht|Ht]; [|by eapply IH].
  unfold todo, need in Ht. repeat case_match; set_solver.
Qed.

Lemma bounded_loop_obeys p n i o live (Q : unit → gmultiset token → gset duty → Prop) :
  idle o live → (∀ live', live' ⊆ live ∪ joins (WPool p) → Q () o live') →
  obeys true (bounded_loop CtxRun p n i) (todos (TPool p) n i ⊎ o) live Q.
Proof.
  revert i live. induction n as [|n IH]; intros i live [Ho Hg] HQ; cbn [todos].
  - replace (∅ ⊎ o) with o by multiset_solver. apply HQ. set_solver.
  - op. split_and!; [done|done| | |].
    + split; [|done]. intros t. rewrite !gmultiset_elem_of_disj_union. intros [Ht|Ht]; [|auto].
      apply (todos_todo (TPool p) (S n) i). cbn [todos]. rewrite gmultiset_elem_of_disj_union. tauto.
    + op. cbn [after]. op. split; [done|].
      exists (todos (TPool p) n (i + 1) ⊎ o). split; [cbn [entry]; multiset_solver|].
      apply IH.
      * split; [done|]. pose proof (gate_not_joined (WPool p)). set_solver.
      * intros live' Hl. apply HQ. set_solver.
    + exists o, (todo (TPool p i) ⊎ todos (TPool p) n (i + 1)). split; [multiset_solver|]. apply HQ. set_solver.
Qed.

Lemma bounded_obeys p leases o live (Q : unit → gmultiset token → gset duty → Prop) :
  idle o live → 
  (∀ live', live' ⊆ live ∪ joins (WPool p) → Join (WPool p) ∉ live' → Q () o live') →
  obeys true (forEachLeaseBounded CtxRun p leases) (todos (TPool p) (Z.to_nat leases) 0 ⊎ o) live Q.
Proof.
  intros Ho HQ. apply obeys_bind, bounded_loop_obeys; [done|]. intros live' Hl. last_op.
  split_and!; [done| |done|apply HQ; set_solver].
  split; [apply Ho|]. destruct Ho as [_ Hg]. pose proof (gate_not_joined (WPool p)). set_solver.
Qed.

Lemma spawn_all_obeys mk w n i o live (Q : unit → gmultiset token → gset duty → Prop) :
  (∀ i, allowed (mk i) ∧ entry (mk i) = {[+ Wg w +]} ⊎ todo (mk i)) → Q () o live →
  obeys true (spawn_all mk n i) (n *: {[+ Wg w +]} ⊎ (todos mk n i ⊎ o)) live Q.
Proof.
  intros Hmk HQ. revert i. induction n as [|n IH]; intros i; cbn [spawn_all todos].
  - by replace (0%nat *: {[+ Wg w +]} ⊎ (∅ ⊎ o)) with o by multiset_solver.
  - destruct (Hmk i) as [Ha He]. op. split; [done|]. eexists. split; [|apply IH].
    rewrite He. multiset_solver.
Qed.

Lemma sustained_todos mk n i : one_shot = false → todos mk n i = ∅.
Proof.
  intros Hs. revert i. induction n as [|n IH]; intros i; cbn [todos]; [done|]. rewrite IH.
  unfold todo. repeat case_match; rewrite ?sustained_need by done; multiset_solver.
Qed.

(** Every call a run of the one-shot scenarios has to make. *)
Definition plan : gmultiset token :=
  if Scenario cfg == ScenarioColdStart then todos TCold (Z.to_nat (Leases cfg)) 0
  else todos (TPool PPopulate) (Z.to_nat (Leases cfg)) 0 ⊎ todos (TPool PReclaim) (Z.to_nat (Leases cfg)) 0.

Definition duties : gset duty := if Scenario cfg == ScenarioColdStart then {[OpenGate]} else ∅.

Definition main_end (r : result Summary) (o : gmultiset token) (live : gset duty) : Prop := o = ∅ ∧ live = ∅.

Lemma sustained_obeys mk (Q : unit → gmultiset token → gset duty → Prop) :
  one_shot = false → (∀ i, allowed (mk i) ∧ entry (mk i) = {[+ Wg WEach +]} ⊎ todo (mk i)) →
  Q () ∅ ∅ → obeys true (sustained cfg mk) ∅ ∅ Q.
Proof.
  intros Hs Hmk HQ. unfold sustained, initialAcquire, forEachLease. apply obeys_bind.
  replace (∅ : gmultiset token) with (todos (TPool PInit) (Z.to_nat (Leases cfg)) 0 ⊎ ∅) at 1
    by (rewrite sustained_todos by done; multiset_solver).
  apply bounded_obeys; [split; set_solver|]. intros live Hl Hj.
  assert (live = ∅) as -> by (rewrite joins_one in Hl by done; set_solver).
  op. cbn [after]. apply obeys_bind. op. cbn [after]. apply obeys_bind.
  replace (∅ : gmultiset token) with (todos mk (Z.to_nat (Leases cfg)) 0 ⊎ ∅) at 1
    by (rewrite sustained_todos by done; multiset_solver).
  apply spawn_all_obeys; [done|]. rewrite joins_one by done. last_op.
  split_and!; [done|split; set_solver|done|]. last_op. split; [done|].
  by replace ((∅ ∪ {[Join WEach]}) ∖ {[Join WEach]}) with (∅ : gset duty) by set_solver.
Qed.

Lemma cold_obeys (Q : unit → gmultiset token → gset duty → Prop) :
  Q () ∅ ∅ → obeys true (runColdStart cfg) (todos TCold (Z.to_nat (Leases cfg)) 0) {[OpenGate]} Q.
Proof.
  intros HQ. unfold runColdStart. op. cbn [after]. apply obeys_bind.
  replace (todos TCold (Z.to_nat (Leases cfg)) 0) with (todos TCold (Z.to_nat (Leases cfg)) 0 ⊎ ∅) by multiset_solver.
  apply spawn_all_obeys; [done|]. op. split; [done|].
  rewrite joins_one by done. last_op. split_and!; [done|split; set_solver|done|].
  by replace (({[OpenGate]} ∪ {[Join WCold]}) ∖ {[OpenGate]} ∖ {[Join WCold]}) with (∅ : gset duty) by set_solver.
Qed.

Lemma failover_obeys (Q : unit → gmultiset token → gset duty → Prop) :
  Q () ∅ ∅ →
  obeys true (runFailover cfg)
    (todos (TPool PPopulate) (Z.to_nat (Leases cfg)) 0 ⊎ todos (TPool PReclaim) (Z.to_nat (Leases cfg)) 0) ∅ Q.
Proof.
  intros HQ. unfold runFailover. apply obeys_bind, bounded_obeys.
  { split; [apply todos_todo|set_solver]. }
  intros live Hl Hj. apply obeys_bind, sleepCtx_obeys; [count|]. apply obeys_bind.
  replace (todos (TPool PReclaim) (Z.to_nat (Leases cfg)) 0)
    with (todos (TPool PReclaim) (Z.to_nat (Leases cfg)) 0 ⊎ ∅) by multiset_solver.
  rewrite joins_populate in Hl.
  apply bounded_obeys; [split; set_solver|]. intros live' Hl' Hj'.
  rewrite joins_one in Hl' by done.
  op. split; [done|]. last_op. split_and!; [done|split; set_solver|set_solver|].
  by replace (live' ∖ {[Join WSurvivors]}) with (∅ : gset duty) by set_solver.
Qed.

Lemma run_obeys : Validate cfg = Ok () → obeys true (Run cfg) plan duties main_end.
Proof.
  intros Hv. unfold Run. rewrite Hv. op. intros start.
  assert (Hend : ∀ (live : gset duty), live = ∅ → obeys true
    (now ← trigger LNow; samples ← trigger LSamples; mret (Ok (Summarize samples cfg (Sub now start))))
    ∅ live main_end) by (intros live ->; op; intros now; op; by intros samples).
  assert (Hk : known_scenario (Scenario cfg) = true)
    by (unfold Validate in Hv; destruct (known_scenario _); [done|]; cbn in Hv; by case_match).
  unfold scenario, plan, duties. unfold known_scenario in Hk.
  destruct (bool_decide_reflect (Scenario cfg = ScenarioSteady)) as [E|_].
  { rewrite bool_decide_false by (rewrite E; done). apply obeys_bind.
    assert (Hs : one_shot = false) by (unfold one_shot; rewrite E; done).
    rewrite !sustained_todos by done. apply sustained_obeys; [done| |by apply Hend].
    intros i. split; [done|]. cbn. multiset_solver. }
  destruct (bool_decide_reflect (Scenario cfg = ScenarioColdStart)) as [E|_].
  { apply obeys_bind, cold_obeys. by apply Hend. }
  destruct (bool_decide_reflect (Scenario cfg = ScenarioFailover)) as [E|_].
  { apply obeys_bind, failover_obeys. by apply Hend. }
  destruct (bool_decide_reflect (Scenario cfg = ScenarioChurn)) as [E|_]; [|done].
  apply obeys_bind. assert (Hs : one_shot = false) by (unfold one_shot; rewrite E; done).
  rewrite !sustained_todos by done. apply sustained_obeys; [done| |by apply Hend].
  intros i. split; [done|]. cbn. multiset_solver.
Qed.

(** ** The books *)

Definition call_toks (s : shared) : gmultiset token := tally (λ c, {[+ Pend (op_of c.1) c.2 +]}) (sh_calls s).
Definition obs_toks (s : shared) : gmultiset token := tally (λ o, {[+ Pend o.1.1 o.2 +]}) (sh_obs s).
Definition made (s : shared) : gmultiset token := tally (λ c, need c.1) (sh_calls s).

(** [owed] is what all goroutines hold together, [live] the caller's duties. *)
Record books (owed : gmultiset token) (live : gset duty) (s : shared) : Prop := {
  bk_balance : ∃ lost, (∀ t, t ∈ lost → is_todo t) ∧ (sh_cancelled s = false → lost = ∅) ∧
    owed ⊎ lost ⊎ obs_toks s ⊎ made s = sh_out s ⊎ call_toks s ⊎ plan;
  bk_out : ∀ t, t ∈ sh_out s → is_sync t;
  bk_cap : ∀ p, Z.of_nat (multiplicity (Slot p) (sh_out s)) ≤ Z.max 0 (Concurrency cfg);
  bk_live : ∀ w, Wg w ∈ owed → Join w ∈ live;
  bk_survivors : Join (WPool PPopulate) ∈ live → Join WSurvivors ∈ live;
  bk_gate : sh_gate s = false → OpenGate ∈ live;
  bk_samples : sh_samples s = recorded (sh_obs s) }.

(** An operation that touches neither the books nor the gate. *)
Lemma books_quiet owed live s s' :
  sh_cancelled s' = sh_cancelled s → sh_gate s' = sh_gate s → sh_out s' = sh_out s →
  sh_samples s' = sh_samples s → sh_calls s' = sh_calls s → sh_obs s' = sh_obs s →
  books owed live s → books owed live s'.
Proof.
  intros E1 E2 E3 E4 E5 E6 [Hb Ho Hc Hl Hs Hg Hm].
  split; unfold obs_toks, call_toks, made in *; rewrite ?E1, ?E2, ?E3, ?E4, ?E5, ?E6; done.
Qed.

(** A token taken from the shared count and given to a goroutine, or back. *)
Lemma books_take t owed live s :
  is_sync t →
  (∀ p, t = Slot p → Z.of_nat (multiplicity t (sh_out s)) < Concurrency cfg) →
  (∀ w, t = Wg w → Join w ∈ live) →
  books owed live s → books ({[+ t +]} ⊎ owed) live (set_out ({[+ t +]} ⊎ sh_out s) s).
Proof.
  intros Ht Hslot Hw [(lost & Hl1 & Hl2 & Heq) Ho Hc Hl Hs Hg Hm]. split; try done.
  - exists lost. split_and!; [done..|]. change (obs_toks (set_out _ s)) with (obs_toks s).
    change (made (set_out _ s)) with (made s). change (call_toks (set_out _ s)) with (call_toks s).
    cbn [sh_out set_out]. rewrite <- (assoc_L _ {[+ t +]} owed), <- !(assoc_L _ {[+ t +]}). by rewrite Heq.
  - intros u [->%gmultiset_elem_of_singleton|Hu]%gmultiset_elem_of_disj_union; auto.
  - intros p. cbn [sh_out set_out]. specialize (Hc p). rewrite multiplicity_disj_union, multiplicity_singleton.
    case_decide as E; [subst t|lia]. specialize (Hslot p eq_refl). lia.
  - intros w. rewrite gmultiset_elem_of_disj_union, gmultiset_elem_of_singleton.
    intros [E|E]; [by apply Hw|by apply Hl].
Qed.

Lemma books_give t owed live s out :
  sh_out s = {[+ t +]} ⊎ out → books ({[+ t +]} ⊎ owed) live s → books owed live (set_out out s).
Proof.
  intros Ho [(lost & Hl1 & Hl2 & Heq) Hout Hc Hl Hs Hg Hm]. split; try done.
  - exists lost. split_and!; [done..|]. change (obs_toks (set_out _ s)) with (obs_toks s).
    change (made (set_out _ s)) with (made s). change (call_toks (set_out _ s)) with (call_toks s).
    cbn [sh_out set_out]. rewrite Ho in Heq. rewrite <- !(assoc_L _ {[+ t +]}) in Heq.
    by apply (inj ({[+ t +]} ⊎.)) in Heq.
  - intros u Hu. apply Hout. rewrite Ho. cbn [sh_out set_out] in Hu. multiset_solver.
  - intros p. specialize (Hc p). rewrite Ho, multiplicity_disj_union in Hc. cbn [sh_out set_out]. lia.
  - intros w Hin. apply Hl. multiset_solver.
Qed.

Lemma books_add w n owed live s :
  Join w ∈ live → books owed live s →
  books (n *: {[+ Wg w +]} ⊎ owed) live (set_out (n *: {[+ Wg w +]} ⊎ sh_out s) s).
Proof.
  intros Hw. induction n as [|n IH]; intros Hb.
  - replace (0%nat *: {[+ Wg w +]} ⊎ owed) with owed by multiset_solver.
    eapply books_quiet; [..|done]; try done. cbn [sh_out set_out]. multiset_solver.
  - specialize (IH Hb). eapply (books_take (Wg w)) in IH; [|done|done|by intros ? [= <-]].
    cbn [set_out sh_out] in IH. replace (S n *: {[+ Wg w +]} ⊎ owed) with ({[+ Wg w +]} ⊎ (n *: {[+ Wg w +]} ⊎ owed)) by multiset_solver.
    by replace (S n *: {[+ Wg w +]} ⊎ sh_out s) with ({[+ Wg w +]} ⊎ (n *: {[+ Wg w +]} ⊎ sh_out s)) by multiset_solver.
Qed.

Lemma books_duties owed live live' s :
  (∀ w, Join w ∈ live → Wg w ∈ owed → Join w ∈ live') →
  (Join (WPool PPopulate) ∈ live' → Join WSurvivors ∈ live') →
  (sh_gate s = false → OpenGate ∈ live') → books owed live s → books owed live' s.
Proof. intros H1 H2 H3 [Hb Ho Hc Hl Hs Hg Hm]. split; auto. Qed.

Lemma books_drop o lost rest live s :
  sh_cancelled s = true → (∀ t, t ∈ o ⊎ lost → is_todo t) →
  books ((o ⊎ lost) ⊎ rest) live s → books (o ⊎ rest) live s.
Proof.
  intros Hcan Ht [(l & Hl1 & Hl2 & Heq) Ho Hc Hl Hs Hg Hm]. split; try done.
  - exists (lost ⊎ l). split_and!; [|by rewrite Hcan|rewrite <- Heq; multiset_solver].
    intros t. rewrite gmultiset_elem_of_disj_union. intros [H|H]; [apply Ht; multiset_solver|auto].
  - intros w Hin. apply Hl. multiset_solver.
Qed.

Lemma need_todo r t : t ∈ need r → t = Todo r.
Proof. unfold need. case_match; set_solver. Qed.

Lemma books_call r err owed live s s' :
  sh_cancelled s' = sh_cancelled s → sh_gate s' = sh_gate s → sh_out s' = sh_out s →
  sh_samples s' = sh_samples s → sh_calls s' = sh_calls s ++ [(r, err)] → sh_obs s' = sh_obs s →
  books (need r ⊎ owed) live s → books ({[+ Pend (op_of r) err +]} ⊎ owed) live s'.
Proof.
  intros E1 E2 E3 E4 E5 E6 [(lost & Hl1 & Hl2 & Heq) Ho Hc Hl Hs Hg Hm].
  split; unfold obs_toks, call_toks, made in *; rewrite ?E1, ?E2, ?E3, ?E4, ?E6; try done.
  - exists lost. split_and!; [done..|]. rewrite E5, !tally_snoc. cbn [fst snd].
    set (N := need r) in *. set (C := tally _ (sh_calls s)) in *. set (M := tally _ (sh_calls s)) in *.
    set (O := tally _ (sh_obs s)) in *. clearbody N C M O. multiset_solver.
  - intros w. rewrite gmultiset_elem_of_disj_union, gmultiset_elem_of_singleton. intros [?|Hin]; [done|].
    apply Hl. multiset_solver.
Qed.

Lemma books_observe op d err owed live s s' :
  sh_cancelled s' = sh_cancelled s → sh_gate s' = sh_gate s → sh_out s' = sh_out s →
  sh_samples s' = observe op d err (sh_samples s) → sh_calls s' = sh_calls s → sh_obs s' = sh_obs s ++ [(op, d, err)] →
  books ({[+ Pend op err +]} ⊎ owed) live s → books owed live s'.
Proof.
  intros E1 E2 E3 E4 E5 E6 [(lost & Hl1 & Hl2 & Heq) Ho Hc Hl Hs Hg Hm].
  split; unfold obs_toks, call_toks, made in *; rewrite ?E1, ?E2, ?E3, ?E5; try done.
  - exists lost. split_and!; [done..|]. rewrite E6, !tally_snoc. cbn [fst snd].
    set (C := tally _ (sh_calls s)) in *. set (M := tally _ (sh_calls s)) in *.
    set (O := tally _ (sh_obs s)) in *. clearbody C M O. multiset_solver.
  - intros w Hin. apply Hl. multiset_solver.
  - unfold recorded. by rewrite E4, E6, foldl_app, Hm.
Qed.

(** The books after an operation that was answered with [x]: [lv] are the
    caller's duties, [rest] what the other goroutines hold. *)
Definition settles (main : bool) {X} (e : loadE X) (Q : X → gmultiset token → gset duty → Prop) (x : X)
    (live lv : gset duty) (rest : gmultiset token) (s : shared) : Prop :=
  ∃ o live', Q x o live' ∧ (main = false → live' = live) ∧ Forall allowed (spawned e) ∧
    books (tally entry (spawned e) ⊎ (o ⊎ rest)) (if main then live' else lv) s.

Lemma settles_silent main {X} (e : loadE X) Q x o live lv rest s :
  spawned e = [] → Q x o live → (main = true → lv = live) → books (o ⊎ rest) lv s →
  settles main e Q x live lv rest s.
Proof.
  intros He HQ Hlv Hb. exists o, live. rewrite He. split_and!; [done..|].
  replace (tally entry [] ⊎ (o ⊎ rest)) with (o ⊎ rest) by (cbn [tally foldr]; multiset_solver).
  destruct main; [by rewrite <- Hlv|done].
Qed.

Lemma settles_main {X} (e : loadE X) Q x o live live' lv rest s :
  spawned e = [] → Q x o live' → books (o ⊎ rest) live' s → settles true e Q x live lv rest s.
Proof.
  intros He HQ Hb. exists o, live'. rewrite He. split_and!; [done..|].
  by replace (tally entry [] ⊎ (o ⊎ rest)) with (o ⊎ rest) by (cbn [tally foldr]; multiset_solver).
Qed.

(** Counting up a group, by the caller or by a goroutine that populates. *)
Lemma add_settles main w n o live Q s rest lv :
  after main (LAdd w n) o live Q → (main = true → lv = live) → books (o ⊎ rest) lv s →
  settles main (LAdd w n) Q () live lv rest (set_out (Z.to_nat n *: {[+ Wg w +]} ⊎ sh_out s) s).
Proof.
  cbn [after]. intros Ha Hlv Hb. destruct main.
  - rewrite Hlv in Hb by done. eapply settles_main; [done|exact Ha|]. rewrite <- (assoc_L (⊎)).
    apply books_add; [unfold joins; set_solver|]. eapply books_duties; [..|exact Hb].
    + set_solver.
    + pose proof (bk_survivors _ _ _ Hb) as Hs. unfold joins. case_decide; set_solver.
    + pose proof (bk_gate _ _ _ Hb) as Hg. intros E. specialize (Hg E). set_solver.
  - destruct Ha as (-> & Hin & HQ). eapply settles_silent; [done|exact HQ|done|]. rewrite <- (assoc_L (⊎)).
    apply books_add; [|done]. apply (bk_survivors _ _ _ Hb), (bk_live _ _ _ Hb). multiset_solver.
Qed.

Lemma plan_todo t : t ∈ plan → is_todo t.
Proof.
  unfold plan. case_match; [apply todos_todo|].
  intros [H1|H1]%gmultiset_elem_of_disj_union; by eapply todos_todo.
Qed.

(** The goroutines hold exactly the slots and counts that are out. *)
Lemma sync_held owed live s t :
  books owed live s → is_sync t → multiplicity t owed = multiplicity t (sh_out s).
Proof.
  intros [(lost & Hl & _ & Heq) _ _ _ _ _ _] Ht.
  apply (f_equal (multiplicity t)) in Heq. rewrite !multiplicity_disj_union in Heq.
  assert (Hz : ∀ X : gmultiset token, (∀ t, t ∈ X → ¬ is_sync t) → multiplicity t X = 0%nat).
  { intros X HX. apply not_elem_of_multiplicity. intros Hin. by apply (HX t). }
  rewrite (Hz lost), (Hz (obs_toks s)), (Hz (made s)), (Hz (call_toks s)), (Hz plan) in Heq; [lia|..].
  - intros u Hu%plan_todo. destruct u; cbn in *; tauto.
  - intros u (c & _ & Hu)%elem_of_tally. apply gmultiset_elem_of_singleton in Hu as ->. cbn. tauto.
  - intros u (c & _ & ->%need_todo)%elem_of_tally. cbn. tauto.
  - intros u (c & _ & Hu)%elem_of_tally. apply gmultiset_elem_of_singleton in Hu as ->. cbn. tauto.
  - intros u Hu%Hl. destruct u; cbn in *; tauto.
Qed.

Lemma wait_settles main w o live Q s rest lv :
  after main (LWait w) o live Q → multiplicity (Wg w) (sh_out s) = 0%nat → (main = true → lv = live) →
  books (o ⊎ rest) lv s → settles main (LWait w) Q () live lv rest s.
Proof.
  cbn [after]. intros (-> & _ & Hpop & HQ) Hz Hlv Hb. rewrite Hlv in Hb by done.
  eapply settles_main; [done|exact HQ|]. assert (Hno : Wg w ∉ o ⊎ rest).
  { apply not_elem_of_multiplicity. by rewrite (sync_held _ _ _ (Wg w) Hb I). }
  eapply books_duties; [..|exact Hb].
  - intros w' Hj Hin. destruct (decide (w' = w)) as [->|]; [done|]. set_solver.
  - pose proof (bk_survivors _ _ _ Hb) as Hs. intros [Hj Hne]%elem_of_difference. specialize (Hs Hj).
    destruct (decide (w = WSurvivors)) as [->|]; [by destruct (Hpop eq_refl)|]. set_solver.
  - pose proof (bk_gate _ _ _ Hb) as Hg. intros E. specialize (Hg E). set_solver.
Qed.

(** Every operation keeps the books. *)
Lemma after_step main {X} (e : loadE X) o live Q s x s' rest lv :
  after main e o live Q → answer cfg e s x s' → (main = true → lv = live) →
  books (o ⊎ rest) lv s → settles main e Q x live lv rest s'.
Proof.
  intros Ha Hans Hlv Hb.
  destruct e; cbn [answer] in Hans; try match type of x with unit => destruct x end;
    try (cbn [after] in Ha; destruct_and?; subst;
         eapply settles_silent; [done|solve [eauto]|done|by eapply books_quiet; [..|exact Hb]]).
  - destruct Ha as (o' & -> & HQ). subst s'. eapply settles_silent; [done|apply HQ|done|].
    rewrite <- (assoc_L (⊎)) in Hb |- *. by eapply books_call; [..|exact Hb].
  - destruct Ha as (o' & -> & HQ). subst s'. eapply settles_silent; [done|apply HQ|done|].
    rewrite <- (assoc_L (⊎)) in Hb. by eapply books_observe; [..|exact Hb].
  - destruct Ha as [Hc HQ]. subst s'. eapply settles_silent; [done|apply HQ|done|].
    eapply books_quiet; [..|exact Hb]; try done. cbn [sh_cancelled].
    rewrite bool_decide_false by done. apply orb_false_r.
  - destruct Ha as (Ht & o' & -> & HQ). subst s'. exists o', live. split_and!; [done..|by constructor|].
    replace (tally entry (spawned (LGo t)) ⊎ (o' ⊎ rest)) with (entry t ⊎ o' ⊎ rest)
      by (cbn [tally foldr spawned]; multiset_solver).
    destruct main; [by rewrite <- Hlv|done].
  - destruct Ha as (-> & -> & [Ho _] & Ht & o' & lost & -> & Hf).
    destruct Hans as [(-> & Hd & ->)|(-> & Hlt & ->)].
    + eapply settles_silent; [done|exact Hf|done|]. eapply books_drop; [|exact Ho|exact Hb].
      unfold LoadRun.done in Hd. by rewrite orb_false_r in Hd.
    + eapply settles_silent; [done|exact Ht|done|]. rewrite <- (assoc_L (⊎) {[+ _ +]}).
      apply books_take; [done|by intros ? [= <-]|done|done].
  - destruct Ha as (o' & -> & HQ). destruct Hans as (out & Ho & ->).
    eapply settles_silent; [done|apply HQ|done|]. rewrite <- (assoc_L (⊎)) in Hb. by eapply books_give.
  - subst s'. by apply (add_settles main w n o).
  - destruct Ha as (o' & -> & HQ). destruct Hans as (out & Ho & ->).
    eapply settles_silent; [done|apply HQ|done|]. rewrite <- (assoc_L (⊎)) in Hb. by eapply books_give.
  - destruct Hans as [Hz ->]. by apply (wait_settles main w o).
  - destruct Ha as [-> HQ]. subst s'. rewrite Hlv in Hb by done. eapply settles_main; [done|exact HQ|].
    destruct Hb as [Hbal Ho Hc Hl Hs Hg Hm]. split; try done; set_solver.
Qed.

(** ** Reachable states *)

Definition books_of (m : machine) : Prop :=
  ∃ o live os, obeys true (m_main m) o live main_end ∧
    Forall2 (λ o p, obeys false p o ∅ thread_end) os (m_threads m) ∧
    books (o ⊎ tally id os) live (m_shared m).

Lemma new_threads ts :
  Forall allowed ts →
  Forall2 (λ o p, obeys false p o ∅ thread_end) (entry <$> ts) (body cfg hook <$> ts).
Proof. induction 1 as [|t ts Ht _ IH]; constructor; [by apply body_obeys|done]. Qed.

Lemma books_started now cancelled :
  Validate cfg = Ok () → books_of (started cfg now cancelled).
Proof.
  intros Hv. exists plan, duties, []. split_and!; [by apply run_obeys|constructor|].
  split; try done.
  - exists ∅. split_and!; [set_solver|done|]. change (plan ⊎ ∅ ⊎ ∅ ⊎ ∅ ⊎ ∅ = ∅ ⊎ ∅ ⊎ plan). multiset_solver.
  - cbn [started m_shared fresh sh_out]. set_solver.
  - intros p. cbn [started m_shared fresh sh_out]. rewrite multiplicity_empty. lia.
  - intros w [Hin|Hin]%gmultiset_elem_of_disj_union; [|set_solver]. by apply plan_todo in Hin.
  - unfold duties. case_match; set_solver.
  - unfold duties. intros Hg. apply negb_false_iff, bool_decide_eq_true in Hg. rewrite bool_decide_true by done. set_solver.
Qed.

Lemma tally_middle (a b : list (gmultiset token)) x : tally id (a ++ x :: b) = x ⊎ (tally id a ⊎ tally id b).
Proof. rewrite tally_app, tally_cons. cbn [id]. multiset_solver. Qed.

(** Pick one goroutine out of the books. *)
Lemma threads_middle os before p rest :
  Forall2 (λ o p, obeys false p o ∅ thread_end) os (before ++ p :: rest) →
  ∃ ob o oa, os = ob ++ o :: oa ∧ obeys false p o ∅ thread_end ∧
    ∀ o' p' ts, obeys false p' o' ∅ thread_end → Forall allowed ts →
      Forall2 (λ o p, obeys false p o ∅ thread_end)
        ((ob ++ o' :: oa) ++ (entry <$> ts)) ((before ++ p' :: rest) ++ (body cfg hook <$> ts)).
Proof.
  intros (ob & os' & Hb & Hr & ->)%Forall2_app_inv_r. inversion Hr as [|o ? oa ? Hp Ha]; subst.
  exists ob, o, oa. split_and!; [done|done|]. intros o' p' ts Hp' Hts.
  apply Forall2_app; [|by apply new_threads]. apply Forall2_app; [done|]. by constructor.
Qed.

Lemma books_gstep m m' : books_of m → gstep cfg hook m m' → books_of m'.
Proof.
  intros Hbk Hs. destruct Hs as [X e k x ths s s' Ha|main X e k x before rest s s' Ha|main t before rest s];
    destruct Hbk as (o & live & os & Hmain & Hths & Hb); cbn [m_main m_threads m_shared] in *.
  - destruct (after_step true _ _ _ _ _ _ _ _ _ (proj2 Hmain) Ha (λ _, eq_refl) Hb) as (o' & live' & HQ & _ & Hal & Hb').
    exists o', live', (os ++ (entry <$> spawned e)). split_and!; [done|by apply Forall2_app, new_threads|].
    rewrite tally_app, tally_fmap. cbn [id].
    by replace (o' ⊎ (tally id os ⊎ tally entry (spawned e))) with (tally entry (spawned e) ⊎ (o' ⊎ tally id os)) by multiset_solver.
  - apply threads_middle in Hths as (ob & ot & oa & -> & Hp & Hnew). rewrite tally_middle in Hb.
    replace (o ⊎ (ot ⊎ (tally id ob ⊎ tally id oa))) with (ot ⊎ (o ⊎ tally id ob ⊎ tally id oa)) in Hb by multiset_solver.
    destruct (after_step false _ _ _ _ _ _ _ _ live (proj2 Hp) Ha (λ E, match E with end) Hb) as (o' & live' & HQ & Hlv & Hal & Hb').
    rewrite Hlv in HQ by done.
    exists o, live, ((ob ++ o' :: oa) ++ (entry <$> spawned e)). split_and!; [done|by apply Hnew|].
    rewrite tally_app, tally_fmap, tally_middle. cbn [id].
    by replace (o ⊎ (o' ⊎ (tally id ob ⊎ tally id oa) ⊎ tally entry (spawned e)))
      with (tally entry (spawned e) ⊎ (o' ⊎ (o ⊎ tally id ob ⊎ tally id oa))) by multiset_solver.
  - apply threads_middle in Hths as (ob & ot & oa & -> & [Ht ->] & Hnew).
    exists o, live, (ob ++ entry t :: oa). split_and!; [done| |done].
    specialize (Hnew (entry t) (body cfg hook t) [] (body_obeys t ∅ Ht) (Forall_nil_2 _)).
    by rewrite !app_nil_r in Hnew.
Qed.

Lemma books_mstep m m' : books_of m → mstep cfg hook m m' → books_of m'.
Proof.
  intros Hb Hs. destruct Hs as [? ? Hg|main ths s now Hn|main ths s]; [by eapply books_gstep| |];
    destruct Hb as (o & live & os & Hmain & Hths & Hb); exists o, live, os; split_and!; [done|done| |done|done|].
  - by eapply books_quiet; [..|exact Hb].
  - destruct Hb as [(lost & H1 & _ & H2) Ho Hc Hl Hs Hg Hm]. split; try done. exists lost. by split_and!.
Qed.

Lemma books_reachable now cancelled m :
  Validate cfg = Ok () → rtc (mstep cfg hook) (started cfg now cancelled) m → books_of m.
Proof.
  intros Hv Hr. pose proof (books_started now cancelled Hv) as Hb. induction Hr as [|m m1 m2 Hs _ IH]; [done|].
  apply IH. by eapply books_mstep.
Qed.

(** ** Progress *)

Lemma validated_concurrency : Validate cfg = Ok () → 0 < Concurrency cfg.
Proof.
  unfold Validate. destruct (negb _); [by case_match|]. intros Hv. repeat (case_match; [done|]). bool_simp. lia.
Qed.

Lemma validated_leases : Validate cfg = Ok () → 0 ≤ Leases cfg.
Proof.
  unfold Validate. destruct (negb _); [by case_match|]. intros Hv. repeat (case_match; [done|]). bool_simp. lia.
Qed.

(** An operation can be answered, perhaps after some time, unless the caller
    waits for what another goroutine holds, or the gate is closed. *)
Lemma enabled main {X} (e : loadE X) o live Q rest lv s :
  0 < Concurrency cfg → after main e o live Q → books (o ⊎ rest) lv s →
  (∃ now x s', sh_now s ≤ now ∧ answer cfg e (set_now now s) x s') ∨
  (main = true ∧ idle o live ∧ ∃ t, t ∈ rest) ∨ (main = false ∧ sh_gate s = false).
Proof.
  intros Hc Ha Hb.
  assert (Hheld : ∀ t o', is_sync t → o = {[+ t +]} ⊎ o' → ∃ out, sh_out s = {[+ t +]} ⊎ out).
  { intros t o' Ht ->. exists (sh_out s ∖ {[+ t +]}). apply gmultiset_disj_union_difference', elem_of_multiplicity.
    rewrite <- (sync_held _ _ _ t Hb Ht), !multiplicity_disj_union, multiplicity_singleton_eq. lia. }
  assert (Hwait : ∀ t, is_sync t → idle o live → multiplicity t (sh_out s) ≠ 0%nat → ∃ t, t ∈ rest).
  { intros t Ht [Ho _] Hm. exists t. rewrite <- (sync_held _ _ _ t Hb Ht), multiplicity_disj_union in Hm.
    apply elem_of_multiplicity. assert (multiplicity t o = 0%nat); [|lia].
    apply not_elem_of_multiplicity. intros Hin%Ho. by destruct t. }
  destruct e; cbn [after] in Ha;
    try (lazymatch goal with |- context [answer _ (LCall _ _)] => fail | |- context [answer _ LFloat] => fail | _ => left end;
         exists (sh_now s); first [exists () | eexists]; eexists; split; [lia|cbn [answer]; by eauto]).
  - left. exists (sh_now s), (Err ErrCtx). eexists. split; [lia|]. by cbn [answer].
  - left. exists (Z.max (sh_now s) at_), (). eexists. split; [lia|]. cbn [answer set_now sh_now]. split; [right; lia|done].
  - left. exists (sh_now s), (float_of 0). eexists. split; [lia|]. by cbn [answer].
  - destruct Ha as (-> & -> & Hi & _).
    destruct (decide (Z.of_nat (multiplicity (Slot p) (sh_out s)) < Concurrency cfg)) as [Hlt|Hge].
    + left. exists (sh_now s), true. eexists. split; [lia|]. cbn [answer]. right. done.
    + right. left. split_and!; [done|done|]. apply (Hwait (Slot p)); [done|done|lia].
  - left. destruct Ha as (o' & Ho & _). destruct (Hheld (Slot p) _ I Ho) as [out Hout].
    exists (sh_now s), (). eexists. split; [lia|]. cbn [answer]. by exists out.
  - left. destruct Ha as (o' & Ho & _). destruct (Hheld (Wg w) _ I Ho) as [out Hout].
    exists (sh_now s), (). eexists. split; [lia|]. cbn [answer]. by exists out.
  - destruct Ha as (-> & Hi & _). destruct (decide (multiplicity (Wg w) (sh_out s) = 0%nat)) as [Hz|Hz].
    + left. exists (sh_now s), (). eexists. split; [lia|]. cbn [answer]. done.
    + right. left. split_and!; [done|done|]. by apply (Hwait (Wg w)).
  - destruct Ha as [-> _]. destruct (sh_gate s) eqn:E; [left|by right; right].
    exists (sh_now s), (). eexists. split; [lia|]. cbn [answer]. done.
Qed.

Definition tick (now : Z) (m : machine) : machine :=
  MkMachine (m_main m) (m_threads m) (set_now now (m_shared m)).

(** A goroutine that holds something can run, when the gate is open. *)
Lemma thread_progress m o live os t :
  Validate cfg = Ok () → sh_gate (m_shared m) = true →
  Forall2 (λ o p, obeys false p o ∅ thread_end) os (m_threads m) →
  books (o ⊎ tally id os) live (m_shared m) → t ∈ tally id os →
  ∃ now m', sh_now (m_shared m) ≤ now ∧ gstep cfg hook (tick now m) m'.
Proof.
  destruct m as [main ths s]. cbn [m_main m_threads m_shared]. intros Hv Hg Hths Hb Hin.
  apply elem_of_tally in Hin as (ot & Hot & Ht). apply list_elem_of_split in Hot as (ob & oa & ->).
  apply Forall2_app_inv_l in Hths as (before & ths' & Hbef & Hrest & ->).
  inversion Hrest as [|? p ? rest Hp _]; subst. destruct p as [[|task]|X e k].
  - cbn in Hp. subst ot. set_solver.
  - exists (sh_now s). eexists. split; [done|]. apply g_again.
  - rewrite tally_middle in Hb.
    replace (o ⊎ (ot ⊎ (tally id ob ⊎ tally id oa))) with (ot ⊎ (o ⊎ (tally id ob ⊎ tally id oa))) in Hb by multiset_solver.
    destruct (enabled false e _ _ _ _ _ _ (validated_concurrency Hv) (proj2 Hp) Hb)
      as [(now & x & s' & Hnow & Ha)|[(? & _)|(_ & ?)]]; [|done|congruence].
    exists now. eexists. split; [done|]. by apply g_thread.
Qed.

Lemma machine_progress m :
  Validate cfg = Ok () → books_of m → (∀ r, m_main m ≠ Ret r) →
  ∃ now m', sh_now (m_shared m) ≤ now ∧ gstep cfg hook (tick now m) m'.
Proof.
  intros Hv (o & live & os & Hmain & Hths & Hb) Hrun. destruct (m_main m) as [r|X e k] eqn:Em; [by destruct (Hrun r)|].
  destruct (enabled true e _ _ _ _ _ _ (validated_concurrency Hv) (proj2 Hmain) Hb)
    as [(now & x & s' & Hnow & Ha)|[(_ & [_ Hgate] & t & Ht)|(? & _)]]; [| |done].
  - exists now. eexists. split; [done|]. unfold tick. rewrite Em. by apply g_main.
  - eapply thread_progress; [done| |done|done|done]. destruct (sh_gate (m_shared m)) eqn:E; [done|].
    destruct Hgate. by apply (bk_gate _ _ _ Hb).
Qed.

(** ** The summary *)

(** A step that reads the samples and returns their summary. *)
Definition snapshot {X} (e : loadE X) (k : X → prog loadE (result Summary)) : Prop :=
  match e in loadE X return (X → prog loadE (result Summary)) → Prop with
  | LSamples => λ k, ∃ elapsed, ∀ x, k x = Ret (Ok (Summarize x cfg elapsed))
  | _ => λ _, False
  end k.

(** The program returns a summary only right after reading the samples. *)
Fixpoint reports (p : prog loadE (result Summary)) : Prop :=
  match p with
  | Ret r => is_ok r = false
  | Op e k => snapshot e k ∨ ∀ x, reports (k x)
  end.

Lemma reports_bind {A} (p : prog loadE A) f : (∀ a, reports (f a)) → reports (p ≫= f).
Proof. intros Hf. induction p as [a|X e k IH]; [apply Hf|]. right. intros x. apply IH. Qed.

Lemma run_reports : reports (Run cfg).
Proof.
  unfold Run. destruct (Validate cfg); [|done]. right. intros start. destruct (scenario cfg) as [p|]; [|done].
  apply reports_bind. intros _. right. intros now. left. cbn. by exists (Sub now start).
Qed.

Definition reported (m : machine) : Prop :=
  reports (m_main m) ∨
  ∃ elapsed, m_main m = Ret (Ok (Summarize (sh_samples (m_shared m)) cfg elapsed)).

(** When the caller has returned, every goroutine has ended. *)
Lemma returned_finished m r :
  books_of m → m_main m = Ret r → Forall (λ p, p = Ret Finished) (m_threads m) ∧ books ∅ ∅ (m_shared m).
Proof.
  intros (o & live & os & Hmain & Hths & Hb) Hr. rewrite Hr in Hmain. destruct Hmain as [-> ->].
  replace (∅ ⊎ tally id os) with (tally id os) in Hb by multiset_solver.
  assert (Hno : ∀ w, Wg w ∉ tally id os) by (intros w Hw; by apply (bk_live _ _ _ Hb) in Hw).
  assert (Hend : Forall (λ p, p = Ret Finished) (m_threads m) ∧ tally id os = ∅).
  { clear Hb. induction Hths as [|o p os ths Hp _ IH]; [done|].
    rewrite tally_cons in Hno |- *. cbn [id] in *. destruct IH as [Hf ->]; [set_solver|].
    destruct p as [[|t]|X e k].
    - cbn in Hp. subst o. split; [by constructor|multiset_solver].
    - destruct Hp as [_ ->]. destruct t; cbn [entry] in Hno; exfalso; eapply Hno; find_wg.
    - destruct Hp as [[?|[w Hw]] _]; [done|]. destruct (Hno w). set_solver. }
  destruct Hend as [Hf He]. by rewrite He in Hb.
Qed.

Lemma reported_step m m' : books_of m → reported m → mstep cfg hook m m' → reported m'.
Proof.
  intros Hbk Hrep Hs. destruct Hs as [m m' Hg|main ths s now _|main ths s]; [|done|done].
  destruct Hrep as [Hrep|[elapsed Hrep]].
  - destruct Hg as [X e k x ths s s' Ha|main X e k x before rest s s' Ha|main t before rest s]; [|by left|by left].
    destruct Hrep as [Hsn|Hk]; [|left; apply Hk].
    destruct e; cbn [snapshot] in Hsn; try done. destruct Hsn as [elapsed Hk]. destruct Ha as [-> ->].
    right. exists elapsed. apply Hk.
  - destruct (returned_finished m _ Hbk Hrep) as [Hf _].
    destruct Hg as [X e k x ths s s' Ha|main X e k x before rest s s' Ha|main t before rest s];
      cbn [m_main m_threads] in *; [done| |];
      apply Forall_app in Hf as [_ Hf]; by apply Forall_cons in Hf as [? _].
Qed.

Lemma reported_reachable now cancelled m :
  Validate cfg = Ok () → rtc (mstep cfg hook) (started cfg now cancelled) m → reported m.
Proof.
  intros Hv Hr. assert (H0 : reported (started cfg now cancelled)) by (left; apply run_reports).
  pose proof (books_started now cancelled Hv) as Hb. induction Hr as [|m m1 m2 Hs _ IH]; [done|].
  apply IH; [by eapply reported_step|by eapply books_mstep].
Qed.

(** ** The calls of the one-shot scenarios *)

Definition renewal (r : rpc) : bool := match r with RpcRenew _ _ _ _ _ => true | _ => false end.

(** Every lease once; in a failover the even half once more, by the standby. *)
Definition plan_calls : list rpc :=
  (active_call <$> seqZ 0 (Leases cfg)) ++
  (if Scenario cfg == ScenarioColdStart then []
   else standby_call <$> filter (λ i, Z.rem i 2 = 0) (seqZ 0 (Leases cfg))).

Definition as_todo (r : rpc) : gmultiset token := {[+ Todo r +]}.

Lemma seqZ_step i n : seqZ i (Z.of_nat (S n)) = i :: seqZ (i + 1) (Z.of_nat n).
Proof. rewrite seqZ_cons by lia. f_equal. f_equal; lia. Qed.

Lemma todos_active mk n i :
  one_shot = true → (∀ i, todo (mk i) = need (active_call i)) →
  todos mk n i = tally as_todo (active_call <$> seqZ i (Z.of_nat n)).
Proof.
  intros Hs Hmk. revert i. induction n as [|n IH]; intros i; [done|]. cbn [todos].
  rewrite seqZ_step, fmap_cons, tally_cons, IH, Hmk. unfold need, planned. by rewrite Hs.
Qed.

Lemma todos_reclaim n i :
  one_shot = true →
  todos (TPool PReclaim) n i =
    tally as_todo (standby_call <$> filter (λ i, Z.rem i 2 = 0) (seqZ i (Z.of_nat n))).
Proof.
  intros Hs. revert i. induction n as [|n IH]; intros i; [done|]. cbn [todos todo].
  rewrite seqZ_step, filter_cons, IH. destruct (Z.eqb_spec (Z.rem i 2) 0).
  - rewrite decide_True by done. rewrite fmap_cons, tally_cons. unfold need, planned. by rewrite Hs.
  - rewrite decide_False by done. multiset_solver.
Qed.

Lemma plan_listed : one_shot = true → 0 ≤ Leases cfg → plan = tally as_todo plan_calls.
Proof.
  intros Hs Hl. unfold plan, plan_calls. rewrite tally_app. case_match.
  - rewrite (todos_active TCold) by done. rewrite Z2Nat.id by done. cbn [tally foldr]. multiset_solver.
  - rewrite (todos_active (TPool PPopulate)), todos_reclaim by done. by rewrite Z2Nat.id.
Qed.

Lemma made_listed s : one_shot = true → made s = tally as_todo (filter (λ r, renewal r = false) (sh_calls s).*1).
Proof.
  intros Hs. unfold made. induction (sh_calls s) as [|[r err] l IH]; [done|].
  rewrite tally_cons, fmap_cons, filter_cons, IH. cbn [fst]. unfold need, planned. rewrite Hs.
  destruct r; cbn [renewal andb]; [rewrite decide_True by done; done|rewrite decide_False by done; multiset_solver|
    rewrite decide_True by done; done].
Qed.

End accounting.

(** ** Multisets of lists *)

Lemma elements_of_list `{Countable A} (l : list A) : elements (list_to_set_disj l : gmultiset A) ≡ₚ l.
Proof.
  induction l as [|a l IH]; [by rewrite list_to_set_disj_nil, gmultiset_elements_empty|].
  by rewrite list_to_set_disj_cons, gmultiset_elements_disj_union, gmultiset_elements_singleton, IH.
Qed.

Lemma multiplicity_tally `{Countable B} {A} (g : B → token) `{!Inj (=) (=) g} (f : A → B) l b :
  multiplicity (g b) (tally (λ a, {[+ g (f a) +]}) l) = multiplicity b (list_to_set_disj (f <$> l) : gmultiset B).
Proof.
  induction l as [|a l IH]; [done|].
  rewrite tally_cons, fmap_cons, list_to_set_disj_cons, !multiplicity_disj_union, IH, !multiplicity_singleton.
  f_equal. destruct (decide (b = f a)) as [->|Hne]; [by rewrite decide_True|]. rewrite decide_False; [done|].
  by intros ?%(inj g).
Qed.

(** Two lists with the same tokens are permutations of each other. *)
Lemma tally_perm `{Countable B} {A A'} (g : B → token) `{!Inj (=) (=) g} (f : A → B) (f' : A' → B) l l' :
  (∀ b, multiplicity (g b) (tally (λ a, {[+ g (f a) +]}) l) = multiplicity (g b) (tally (λ a, {[+ g (f' a) +]}) l')) →
  f <$> l ≡ₚ f' <$> l'.
Proof.
  intros Heq. rewrite <- (elements_of_list (f <$> l)), <- (elements_of_list (f' <$> l')).
  replace (list_to_set_disj (f' <$> l') : gmultiset B) with (list_to_set_disj (f <$> l) : gmultiset B); [done|].
  apply gmultiset_eq. intros b. rewrite <- !(multiplicity_tally g). apply Heq.
Qed.

Definition pend (x : string * bool) : token := Pend x.1 x.2.
#[local] Instance pend_inj : Inj (=) (=) pend.
Proof. intros [] [] [=]. by subst. Qed.
#[local] Instance todo_inj : Inj (=) (=) Todo.
Proof. by intros ?? [=]. Qed.

(** In the books of a run that is over, each kind of token balances. *)
Lemma closed_balance cfg s t :
  books cfg ∅ ∅ s → ¬ is_sync t → (is_todo t → sh_cancelled s = false) →
  (multiplicity t (obs_toks s) + multiplicity t (made cfg s) = multiplicity t (call_toks s) + multiplicity t (plan cfg))%nat.
Proof.
  intros [(lost & Hl & Hc & Heq) Ho _ _ _ _ _] Ht Hcan.
  apply (f_equal (multiplicity t)) in Heq. rewrite !multiplicity_disj_union, multiplicity_empty in Heq.
  assert (multiplicity t (sh_out s) = 0%nat) by (apply not_elem_of_multiplicity; by intros ?%Ho).
  assert (multiplicity t lost = 0%nat); [|lia]. apply not_elem_of_multiplicity. intros Hin.
  rewrite Hc in Hin by (by apply Hcan, Hl). set_solver.
Qed.

Lemma closed_calls cfg s :
  books cfg ∅ ∅ s → (λ c, (op_of c.1, c.2)) <$> sh_calls s ≡ₚ (λ o, (o.1.1, o.2)) <$> sh_obs s.
Proof.
  intros Hb. apply (tally_perm pend). intros [op err].
  pose proof (closed_balance cfg s (pend (op, err)) Hb ltac:(cbn; tauto) ltac:(cbn; tauto)) as Heq.
  assert (H1 : multiplicity (pend (op, err)) (made cfg s) = 0%nat).
  { apply not_elem_of_multiplicity. intros (c & _ & Hin)%elem_of_tally. by apply need_todo in Hin. }
  assert (H2 : multiplicity (pend (op, err)) (plan cfg) = 0%nat).
  { apply not_elem_of_multiplicity. by intros Hin%plan_todo. }
  rewrite H1, H2, !Nat.add_0_r in Heq. symmetry. exact Heq.
Qed.

Lemma closed_plan cfg s :
  books cfg ∅ ∅ s → one_shot cfg = true → 0 ≤ Leases cfg → sh_cancelled s = false →
  filter (λ r, renewal r = false) (sh_calls s).*1 ≡ₚ plan_calls cfg.
Proof.
  intros Hb Hs Hl Hc.
  rewrite <- (list_fmap_id (filter _ _)), <- (list_fmap_id (plan_calls cfg)).
  apply (tally_perm Todo). intros r.
  pose proof (closed_balance cfg s (Todo r) Hb ltac:(cbn; tauto) ltac:(done)) as Heq.
  rewrite made_listed, plan_listed in Heq by done. unfold as_todo in Heq.
  assert (Hz : ∀ A (f : A → string) (g : A → bool) l, multiplicity (Todo r) (tally (λ a, {[+ Pend (f a) (g a) +]}) l) = 0%nat).
  { intros A f g l. apply not_elem_of_multiplicity. intros (a & _ & Hin)%elem_of_tally. set_solver. }
  unfold obs_toks, call_toks in Heq. rewrite !Hz in Heq. exact Heq.
Qed.

(** ** A scheduler *)

Section scheduler.
Context (cfg : Config) (hook : bool).

(** A lease API that grants every call. *)
Definition grant (r : rpc) : result (rpc_res r) :=
  match r with
  | RpcAcquire _ _ holder _ | RpcRenew _ _ holder _ _ => Ok (MkAcquireResult true holder 1 0 0)
  | RpcRelease _ _ _ _ => Ok ()
  end.

(** An answer to an operation, if it does not block. *)
Definition serve {X} (e : loadE X) (s : shared) : option (X * shared) :=
  match e in loadE X return option (X * shared) with
  | LNow => Some (sh_now s, s)
  | LCall c r => Some (grant r,
      MkShared (sh_now s) (sh_cancelled s) (sh_deadline s) (sh_stopDeadline s) (sh_stopRenew s) (sh_gate s)
        (sh_out s) (sh_tokens s) (sh_samples s) (sh_hooked s) (sh_calls s ++ [(r, failed (grant r))]) (sh_obs s))
  | LObserve op d err => Some ((),
      MkShared (sh_now s) (sh_cancelled s) (sh_deadline s) (sh_stopDeadline s) (sh_stopRenew s) (sh_gate s)
        (sh_out s) (sh_tokens s) (observe op d err (sh_samples s)) (sh_hooked s) (sh_calls s) (sh_obs s ++ [(op, d, err)]))
  | LHook op d err => Some ((),
      MkShared (sh_now s) (sh_cancelled s) (sh_deadline s) (sh_stopDeadline s) (sh_stopRenew s) (sh_gate s)
        (sh_out s) (sh_tokens s) (sh_samples s) (sh_hooked s ++ [(op, d, err)]) (sh_calls s) (sh_obs s))
  | LSamples => Some (sh_samples s, s)
  | LErr c => Some (LoadRun.done s c, s)
  | LTimer d => Some (sh_now s + d, s)
  | LSelectTimer c at_ => if LoadRun.done s c || (at_ <=? sh_now s) then Some ((), s) else None
  | LFloat => Some (float_of 0, s)
  | LWithTimeout d => Some ((),
      MkShared (sh_now s) (sh_cancelled s) (Some (sh_now s + d)) (sh_stopDeadline s) (sh_stopRenew s) (sh_gate s)
        (sh_out s) (sh_tokens s) (sh_samples s) (sh_hooked s) (sh_calls s) (sh_obs s))
  | LCancel c => Some ((),
      MkShared (sh_now s) (sh_cancelled s || (c == CtxRun)) (sh_deadline s)
        (sh_stopDeadline s || (c == CtxDeadline)) (sh_stopRenew s || (c == CtxRenew)) (sh_gate s)
        (sh_out s) (sh_tokens s) (sh_samples s) (sh_hooked s) (sh_calls s) (sh_obs s))
  | LGo _ => Some ((), s)
  | LSelectSlot c p =>
      if LoadRun.done s c then Some (false, s)
      else if Z.of_nat (multiplicity (Slot p) (sh_out s)) <? Concurrency cfg
      then Some (true, set_out ({[+ Slot p +]} ⊎ sh_out s) s) else None
  | LFree p => if decide (Slot p ∈ sh_out s) then Some ((), set_out (sh_out s ∖ {[+ Slot p +]}) s) else None
  | LAdd w n => Some ((), set_out (Z.to_nat n *: {[+ Wg w +]} ⊎ sh_out s) s)
  | LDone w => if decide (Wg w ∈ sh_out s) then Some ((), set_out (sh_out s ∖ {[+ Wg w +]}) s) else None
  | LWait w => if decide (multiplicity (Wg w) (sh_out s) = 0%nat) then Some ((), s) else None
  | LGate => if sh_gate s then Some ((), s) else None
  | LOpenGate => Some ((),
      MkShared (sh_now s) (sh_cancelled s) (sh_deadline s) (sh_stopDeadline s) (sh_stopRenew s) true
        (sh_out s) (sh_tokens s) (sh_samples s) (sh_hooked s) (sh_calls s) (sh_obs s))
  | LToken i => Some (default 0 (sh_tokens s !! i), s)
  | LSetToken i token => Some ((),
      MkShared (sh_now s) (sh_cancelled s) (sh_deadline s) (sh_stopDeadline s) (sh_stopRenew s) (sh_gate s)
        (sh_out s) (<[i := token]> (sh_tokens s)) (sh_samples s) (sh_hooked s) (sh_calls s) (sh_obs s))
  end.

Lemma serve_answer {X} (e : loadE X) s x s' : serve e s = Some (x, s') → answer cfg e s x s'.
Proof.
  destruct e; cbn [serve answer]; repeat case_match; intros [= <- <-]; try done.
  - bool_simp. split; [|done]. match goal with H : _ || _ = true |- _ => apply orb_true_iff in H as [H|H] end;
      [by left|right; lia].
  - by left.
  - right. split_and!; [done|lia|done].
  - eexists. split; [by apply gmultiset_disj_union_difference'|done].
  - eexists. split; [by apply gmultiset_disj_union_difference'|done].
Qed.

(** One step: the caller if it can, else the first goroutine that can, else a
    second passes. *)
Fixpoint first_thread (before ths : list (prog loadE next)) (s : shared) : option (list (prog loadE next) * shared) :=
  match ths with
  | [] => None
  | p :: rest =>
      match p with
      | Ret Finished => first_thread (before ++ [p]) rest s
      | Ret (Again t) => Some (before ++ body cfg hook t :: rest, s)
      | Op e k =>
          match serve e s with
          | Some (x, s') => Some ((before ++ k x :: rest) ++ (body cfg hook <$> spawned e), s')
          | None => first_thread (before ++ [p]) rest s
          end
      end
  end.

Definition one_step (m : machine) : machine :=
  let threads :=
    match first_thread [] (m_threads m) (m_shared m) with
    | Some (ths, s) => MkMachine (m_main m) ths s
    | None => tick (sh_now (m_shared m) + Second) m
    end in
  match m_main m with
  | Op e k =>
      match serve e (m_shared m) with
      | Some (x, s) => MkMachine (k x) (m_threads m ++ (body cfg hook <$> spawned e)) s
      | None => threads
      end
  | Ret _ => m
  end.

Lemma first_thread_step main before ths s ths' s' :
  first_thread before ths s = Some (ths', s') →
  gstep cfg hook (MkMachine main (before ++ ths) s) (MkMachine main ths' s').
Proof.
  revert before. induction ths as [|p ths IH]; intros before; cbn [first_thread]; [done|].
  assert (Hskip : first_thread (before ++ [p]) ths s = Some (ths', s') →
    gstep cfg hook (MkMachine main (before ++ p :: ths) s) (MkMachine main ths' s')).
  { intros Hn. specialize (IH _ Hn). by rewrite <- app_assoc in IH. }
  destruct p as [[|t]|X e k]; [done|intros [= <- <-]; apply g_again|].
  destruct (serve e s) as [[x s1]|] eqn:E; [|done]. intros [= <- <-]. apply g_thread. by apply serve_answer.
Qed.

Lemma one_step_reach m : rtc (mstep cfg hook) m (one_step m).
Proof.
  destruct m as [main ths s]. unfold one_step. cbn [m_main m_threads m_shared].
  destruct main as [r|X e k]; [apply rtc_refl|]. apply rtc_once.
  destruct (serve e s) as [[x s']|] eqn:E; [by apply m_go, g_main, serve_answer|].
  destruct (first_thread [] ths s) as [[ths' s']|] eqn:F; [by apply m_go, (first_thread_step _ [])|].
  unfold tick. cbn [m_main m_threads m_shared]. apply m_tick. unfold Second. lia.
Qed.

Definition drive (fuel : nat) (m : machine) : machine := Nat.iter fuel one_step m.

Lemma drive_reach fuel m : rtc (mstep cfg hook) m (drive fuel m).
Proof. induction fuel as [|n IH]; [done|]. etrans; [exact IH|]. apply one_step_reach. Qed.

Definition returned (m : machine) : bool := match m_main m with Ret (Ok _) => true | _ => false end.

Lemma returned_main m : returned m = true → ∃ summary, m_main m = Ret (Ok summary).
Proof. unfold returned. repeat case_match; try done. eauto. Qed.
End scheduler.

(** A failover of three leases with one slot: two to reclaim, one survivor. *)
Definition demo_load : Config :=
  MkConfig "berth-load" "acme" "" ScenarioFailover 3 1 (10 * Second) (3 * Second) 0 1 (float_of 0).




