(* ===== verification/K8sClient.v ===== *)
(** * The Kubernetes client

    [internal/k8s/client.go]: the REST configuration of the Kubernetes store's
    client. Where it is loaded from (the Pod's service account or a kubeconfig
    file) and what a clientset is are client-go's; the rate limits are the
    code's, as binary32 numbers. *)

From S2P Require Import Prelude.
From Stdlib Require Import SpecFloat.

Definition float32 : Type := spec_float.

Definition float32_of (n : Z) : float32 := binary_normalize 24 128 n 0 false.

(** [x > 0]: false of a NaN. *)
Definition positive (x : float32) : bool := SFltb (S754_zero false) x.

Definition DefaultQPS : float32 := float32_of 100.
Definition DefaultBurst : Z := 200.

Record ClientConfig := MkClientConfig { ccQPS : float32; ccBurst : Z }.

(** The fields of a [rest.Config] the code leaves alone, and the two it sets. *)
Record restConfig := MkRest { rcHost : string; rcBearerTokenFile : string; rcQPS : float32; rcBurst : Z }.

(** client-go. *)
Class ClientGo := {
  Clientset : Type;
  InClusterConfig : result restConfig;
  BuildConfigFromFlags : string → string → result restConfig;
  NewForConfig : restConfig → result Clientset }.

Section client.
Context `{ClientGo}.

Definition buildConfig (kubeconfig : string) (cc : ClientConfig) : result restConfig :=
  cfg ← (if kubeconfig == "" then InClusterConfig else BuildConfigFromFlags "" kubeconfig);
  Ok (MkRest (rcHost cfg) (rcBearerTokenFile cfg)
        (if positive (ccQPS cc) then ccQPS cc else DefaultQPS)
        (if ccBurst cc >? 0 then ccBurst cc else DefaultBurst)).

Definition NewClientset (kubeconfig : string) (cc : ClientConfig) : result Clientset :=
  cfg ← buildConfig kubeconfig cc; NewForConfig cfg.

(** Whatever the flags say (zero, negative or not a number) and whatever limits
    the loaded configuration carries, the limits used are positive and are the
    caller's where the caller's are; nothing else of the configuration changes. *)
Lemma buildConfig_limits kubeconfig cc cfg :
  buildConfig kubeconfig cc = Ok cfg →
  positive (rcQPS cfg) = true ∧ 0 < rcBurst cfg ∧
  (positive (ccQPS cc) = true → rcQPS cfg = ccQPS cc) ∧ (0 < ccBurst cc → rcBurst cfg = ccBurst cc) ∧
  ∃ loaded, (if kubeconfig == "" then InClusterConfig else BuildConfigFromFlags "" kubeconfig) = Ok loaded ∧
    rcHost cfg = rcHost loaded ∧ rcBearerTokenFile cfg = rcBearerTokenFile loaded.
Proof.
  unfold buildConfig. intros (loaded & Hl & [= <-])%result_bind_ok. cbn [rcQPS rcBurst rcHost rcBearerTokenFile].
  split_and!.
  - by destruct (positive (ccQPS cc)) eqn:E.
  - destruct (Z.gtb_spec (ccBurst cc) 0); unfold DefaultBurst; lia.
  - by intros ->.
  - intros Hb. by rewrite (proj2 (Z.gtb_gt _ _)) by lia.
  - by exists loaded.
Qed.
End client.
